(* ===== verification/_CoqProject ===== *)
-Q . S2P
Prelude.v
MachPort.v
IpcQueue.v
IpcSplay.v
IpcTypes.v
IpcHash.v
IpcTable.v
IpcEntry.v
IpcInv.v
IpcDealloc.v
IpcGrow.v
IpcAlloc.v
IpcAllocName.v
IpcUpdate.v
IpcSpace.v
IpcPort.v
IpcDnreq.v
IpcPortRights.v
IpcCircular.v
IpcPset.v
IpcPsetInv.v
IpcDestroy.v
IpcRight.v
IpcRightEq.v
IpcRightInv.v
IpcFrame.v
IpcRightDealloc.v
IpcRightCopy.v
IpcObject.v
IpcMqueue.v
IpcKmsg.v
IpcMqueueInv.v
IpcMsgSystem.v
IpcMsgOrder.v
IpcObjectInv.v
IpcObjectAlloc.v
MachPortCall.v
MachPortCallInv.v
MachPortSystem.v
MachPortNames.v
MachPortNamesInv.v
IpcNotify.v
IpcExamples.v
IpcRightExamples.v
MachPortExamples.v
IpcMsgExamples.v
IpcRightTwo.v
IpcKmsgInv.v
IpcKmsgClean.v
IpcKmsgExamples.v
