(* ===== verification/Prelude.v ===== *)
(** * Verification of the Mach IPC capability system (osfmk/src/mach_kernel/ipc)

    The repository is the OSF Mach kernel.  Its core is interprocess
    communication: a task names ports, port sets and dead names in its space
    by 32-bit names, holds rights for them under these names, and moves the
    rights through messages.  This development models the capability system
    as it is written in C, in the configuration AT386 PRODUCTION (DIPC, the
    distributed ports, and NORMA_VM are off), and proves what it promises.

    ** The program and its parts

    - A space (struct ipc_space) maps names to entries: a table indexed by
      the upper 24 bits of the name, with a generation number that must
      agree, and a splay tree for the names that do not fit.  Free table
      entries are linked through the table; entries of the tree whose index
      is in the table set a collision bit there; send rights are found by
      object through an open-addressing hash table kept in the table itself,
      or a global chained one for entries of the tree.
    - A port (struct ipc_port) counts references, send rights and send-once
      rights, has a queue of messages, blocked senders, a no-senders request,
      a port-destroyed request and a table of dead-name requests.
    - A port set (struct ipc_pset) receives for its members.
    - The rights layer (ipc_right.c) changes an entry and its port together;
      the object layer (ipc_object.c) finds or allocates the entry, calls the
      rights layer and unlocks again.
    - The system calls (mach_port.c) are what a task can ask for: they check
      their arguments and compose the operations of the layers below.

    ** Files

    - [Prelude]: the outcome monad, loops, 32-bit words, lists in order,
      tactics.
    - [MachPort]: mach/port.h, ipc/port.h, ipc/ipc_entry.h: names, types of
      rights, user references, the bits of an entry.
    - [IpcQueue]: ipc_thread.c and the queues of ipc_kmsg.c, pointers and
      all, as lists.
    - [IpcSplay]: ipc_splay.c, polymorphic in what a node carries.
    - [IpcTypes]: the records of a space and its entries, the world outside.
    - [IpcHash]: ipc_hash.c.  [IpcTable]: ipc_table.c.  [IpcEntry]:
      ipc_entry.c, definitions.
    - [IpcInv]: the invariant [space_wf H] of a space, where [H] are the
      names in hand, and the map from names to capabilities that it stands
      for ([space_view]); lookup and allocation from the free list.
      [IpcDealloc], [IpcGrow], [IpcAlloc], [IpcAllocName]: the operations of
      ipc_entry.c keep it.  [IpcUpdate]: rewriting an entry, entering and
      leaving the reverse hash tables.  [IpcSpace]: ipc_space.c, creation
      and references.
    - [IpcPort]: ipc_port.c and the macros of ipc_object.h.  [IpcDnreq]:
      dead-name requests.  [IpcPortRights]: naked rights and no-senders
      requests.  [IpcCircular]: ports in transit.  [IpcPset], [IpcPsetInv]:
      ipc_pset.c and the queues of ipc_mqueue.c.  [IpcDestroy]: the death of
      a port.
    - [IpcRight]: ipc_right.c, definitions.  [IpcRightEq]: deallocation as a
      change of the user references by -1.  [IpcRightInv]: the map of rights
      of a space ([spaced], [hand], [released]) and the account between
      rights, rights in transit and the counts of ports ([rights_ok]).
      [IpcFrame]: what a copyin leaves alone.  [IpcRightDealloc],
      [IpcRightCopy], [IpcRightTwo]: ipc_right_check, ipc_right_dealloc,
      ipc_right_copyin, ipc_right_copyin_two and ipc_right_copyout against
      that account.
    - [IpcObject]: ipc_object.c, and the allocation of ports and port sets.
      [IpcObjectInv], [IpcObjectAlloc]: its operations as steps on the map of
      rights.
    - [IpcMqueue]: ipc_mqueue.c, sending and receiving, cut where a thread
      blocks.  [IpcMqueueInv]: what each step does to the queues.
      [IpcMsgSystem]: threads that send and receive as a transition system,
      and its invariant.  [IpcMsgOrder]: the order of messages.
    - [IpcNotify]: ipc_notify.c, the messages that notifications become.
    - [IpcKmsg]: ipc_kmsg.c, the rights in the header of a message and the
      destruction of a message with its rights.  [IpcKmsgInv],
      [IpcKmsgClean]: both against the account of rights.
    - [MachPortCall], [MachPortNames]: the system calls of mach_port.c.
      [MachPortCallInv]: types, references, allocation, deallocation and
      extraction against the map of rights.  [MachPortSystem]: the calls of
      a task as a transition system and its invariant.  [MachPortNamesInv]:
      the lists of the names of a space and of the members of a port set.
    - [IpcExamples], [IpcRightExamples], [MachPortExamples],
      [IpcMsgExamples], [IpcKmsgExamples]: concrete states, to which every theorem that has
      hypotheses is applied, and the behaviours that differ from the comments
      of the code.

    ** How the code is modelled

    Operations are functions from states to outcomes ([outcome]): a result,
    or a fault, which is an assertion that fails, a panic, a dangling
    pointer, a lock taken or released against its discipline, or a loop that
    exceeds its bound.  Assertions are part of the model although PRODUCTION
    kernels compile them away: a theorem that an operation returns [Ok]
    shows that none of them fails.  The space and its entries are an
    [istate]; ports, port sets, the timestamp, the notifications sent and
    the threads woken are a [pstate].  Pointers are addresses into finite
    maps; entries are designated by [eptr], a slot of the table or the
    address of a tree entry.  Integers are [Z] with [u32] where the code
    computes modulo 2^32.

    What is outside of the code is a parameter: [iworld] and [pworld] have
    the answers of the memory allocators, the success of try-locks and what
    other threads have done to the state whenever a lock is granted
    ([w_other], [pw_other]).  Theorems on the entry layer hold for all
    interference that [rely] allows; theorems on ports, rights and objects
    assume that no other thread runs ([quiet], [undisturbed]), unless they
    say otherwise.  Notifications are events in the order in which they are
    sent; [IpcNotify] says what each of them does.

    ** What is proved

    - Splay trees, both hash tables and the size tables refine finite maps
      and sequences, also under the in-place deletions of the code.
    - Every operation on entries terminates, never fails an assertion, keeps
      [space_wf] and changes the map of names exactly as its specification
      says, while other threads may run whenever the lock is dropped.
    - Counts of rights and no-senders notifications agree; ports in transit
      never form a circle; messages are neither lost, duplicated nor
      reordered when ports join and leave sets; a dying port does its last
      duties in order.
    - Rights: check, deallocation, copyin and copyout never fail an
      assertion when the account of rights is in balance, do what the map of
      rights says, send exactly the notifications due, and keep the balance;
      ipc_object_copyin and ipc_object_copyout compose this with the lookup,
      allocation and release of the entry, and a send right that is moved out
      and back leaves the rights of the space and every port as they were.
    - System calls: allocation binds a free name to what was asked for and
      nothing else; any sequence of calls and of rights that arrive keeps
      rights, rights in transit and counts in account and never fails an
      assertion; mach_port_names and mach_port_get_set_status return a
      snapshot of the map of rights and stay within the memory they have.
    - Messages: whatever threads send to live ports, receive, block and are
      woken, no step fails an assertion, no wakeup of a sender is lost, and
      every port is a first-in first-out queue with consecutive sequence
      numbers.  Blocked senders that are interrupted or run out of time are
      left out of this system: they stay in the queue of blocked senders, and
      a theorem shows that this loses a wakeup.
    - Headers and messages: ipc_kmsg_copyin_header takes both rights of a
      header or neither ([header_plan] says which, and what is left of the
      names); ipc_kmsg_clean gives up exactly what a message holds.  The
      theorem on headers excludes two names with the same index of which the
      reply name loses its last right; a second one shows that the code then
      reads a freed entry.
    - Notifications: each kind becomes the message its template gives, which
      is the last of its port, or its send-once right is released, with the
      receive right that it would have carried.
    - The linked queues of threads and messages are lists.
    - Where the code does not do what its comments promise, the theorem says
      what it does.

    ** Bounds

    Loops that the code does not bound get a bound that is proved to be
    enough: 512 table sizes for growth (ipc_table_entries_size; each round
    uses a larger size), one more than that for the retries of the
    allocations, the length of a table for free lists and probes, the number
    of ports for chains of destinations, the number of messages for the
    destruction of a queue.  One round of ipc_mqueue_send is proved to be
    enough for a message to the port of a task, and a reply of the kernel
    takes one more; the walk of ipc_thread_inqueue takes one step more than
    there are threads.  The rounds of allocation of mach_port_names and
    mach_port_get_set_status are an argument; two are proved to be enough
    when no other thread runs.

    ** Not modelled

    The bodies of messages on their way in and out (ipc_kmsg_copyin_body,
    ipc_kmsg_copyout_body) move out-of-line memory between maps and belong
    to the virtual memory system as much as to this one; mach_msg.c above
    them is left out too, and so is ipc_space_destroy.  ipc_kobject_server
    and the check of scatter lists are parameters of the operations on
    messages.  Distributed IPC, virtual
    memory, scheduling, device drivers, machine-dependent code, the debugger
    and the memory allocators are not modelled: they are other subsystems,
    which this one calls through the parameters above or not at all. *)

From stdpp Require Import prelude list gmap numbers sorting.

#[global] Open Scope Z_scope.

(** ** Outcomes of kernel code

    Kernel code either completes or hits one of the ways in which the
    kernel goes wrong: an [assert] that does not hold, a [panic] call, a
    null or dangling pointer that is dereferenced, a lock taken or released
    against its discipline, or a loop that exceeds the iteration bound the
    model gives it. *)

Inductive fault :=
  | FAssert
  | FPanic
  | FDeref
  | FLock
  | FLoop.

Inductive outcome (A : Type) :=
  | Ok (a : A)
  | Fault (f : fault).

Arguments Ok {A} a.
Arguments Fault {A} f.

#[export] Instance fault_eq_dec : EqDecision fault.
Proof. solve_decision. Defined.

#[export] Instance outcome_eq_dec {A} `{EqDecision A} : EqDecision (outcome A).
Proof. solve_decision. Defined.

#[export] Instance outcome_ret : MRet outcome := @Ok.

#[export] Instance outcome_bind : MBind outcome := λ _ _ f m,
  match m with
  | Ok a => f a
  | Fault e => Fault e
  end.

(** [assert(b)] of kern/assert.h. *)
Definition kassert (b : bool) : outcome unit :=
  if b then Ok () else Fault FAssert.

(** A pointer that is about to be dereferenced. *)
Definition deref {A} (o : option A) : outcome A :=
  match o with
  | Some a => Ok a
  | None => Fault FDeref
  end.

Lemma outcome_bind_ok {A B} (m : outcome A) (k : A → outcome B) b :
  (m ≫= k) = Ok b ↔ ∃ a, m = Ok a ∧ k a = Ok b.
Proof. destruct m; simpl; naive_solver. Qed.

Lemma kassert_ok b u : kassert b = Ok u ↔ b = true.
Proof. by destruct b, u. Qed.

Lemma deref_ok {A} (o : option A) a : deref o = Ok a ↔ o = Some a.
Proof. destruct o; simpl; split; congruence. Qed.

(** A [for] loop over the elements of a list. *)
Fixpoint ofold {A B} (body : A → B → outcome A) (a : A) (l : list B) : outcome A :=
  match l with
  | [] => Ok a
  | b :: l' => a ← body a b; ofold body a l'
  end.

Lemma ofold_app {A B} (body : A → B → outcome A) a l1 l2 :
  ofold body a (l1 ++ l2) = (a' ← ofold body a l1; ofold body a' l2).
Proof. revert a. induction l1 as [|b l1 IH]; intros a; simpl; [done|]. destruct (body a b); simpl; [apply IH|done]. Qed.

Lemma ofold_ext {A B} (body body' : A → B → outcome A) a l :
  (∀ a b, body a b = body' a b) → ofold body a l = ofold body' a l.
Proof.
  intros Hb. revert a. induction l as [|b l IH]; intros a; simpl; [done|]. rewrite Hb.
  destruct (body' a b); simpl; [apply IH|done].
Qed.

(** A loop invariant indexed by the elements already handled. *)
Lemma ofold_inv {A B} (body : A → B → outcome A) (I : list B → A → Prop) l a :
  I [] a →
  (∀ l1 b l2 a, l = l1 ++ b :: l2 → I l1 a → ∃ a', body a b = Ok a' ∧ I (l1 ++ [b]) a') →
  ∃ a', ofold body a l = Ok a' ∧ I l a'.
Proof.
  intros H0 Hs. induction l as [|b l IH] using rev_ind; [by exists a|].
  destruct IH as (a1 & H1 & HI1).
  { intros l1 b' l2 a1 -> HI. apply (Hs l1 b' (l2 ++ [b])); [|done]. by rewrite <-app_assoc. }
  destruct (Hs l b [] a1) as (a2 & H2 & HI2); [done..|].
  exists a2. split; [|done]. rewrite ofold_app, H1. simpl. by rewrite H2.
Qed.

(** Run the monad as far as the head of the term is known. *)
Ltac ostep := cbn [kassert deref mbind outcome_bind mret outcome_ret negb andb orb].

(** ** 32-bit words ([natural_t]) *)

Definition u32 (x : Z) : Z := x mod 2 ^ 32.

Definition is_u32 (x : Z) : Prop := 0 ≤ x < 2 ^ 32.

Lemma u32_small x : is_u32 x → u32 x = x.
Proof. intros. by apply Z.mod_small. Qed.

Lemma u32_range x : is_u32 (u32 x).
Proof. apply Z.mod_pos_bound. lia. Qed.

(** A field of [w] bits at offset [k], as the masks of the kernel's headers
    select it. *)
Definition mask_at (k w : Z) : Z := Z.shiftl (Z.ones w) k.

Lemma land_mask_at x k w :
  0 ≤ k → 0 ≤ w → Z.land x (mask_at k w) = (x / 2 ^ k) mod 2 ^ w * 2 ^ k.
Proof.
  intros Hk Hw. unfold mask_at.
  rewrite <-Z.land_ones, <-Z.shiftr_div_pow2, <-Z.shiftl_mul_pow2 by lia.
  apply Z.bits_inj'; intros n Hn.
  rewrite Z.land_spec, !Z.shiftl_spec, Z.land_spec by lia.
  destruct (decide (n < k)).
  - rewrite !(Z.testbit_neg_r _ (n - k)) by lia.
    by rewrite !andb_false_r.
  - rewrite Z.shiftr_spec by lia. do 2 f_equal. lia.
Qed.

(** Disjoint bits: [|] is addition. *)
Lemma lor_add_low x y k :
  0 ≤ k → 0 ≤ y < 2 ^ k → Z.lor (x * 2 ^ k) y = x * 2 ^ k + y.
Proof.
  intros Hk Hy. rewrite <-Z.add_lor_land.
  enough (Z.land (x * 2 ^ k) y = 0) as -> by lia.
  apply Z.bits_inj'; intros n Hn. rewrite Z.land_spec, Z.bits_0.
  destruct (decide (n < k)).
  - by rewrite Z.mul_pow2_bits_low by lia.
  - rewrite <-(Z.mod_small y (2 ^ k)), Z.mod_pow2_bits_high by lia.
    apply andb_false_r.
Qed.

(** ** Ordered association lists

    [below x l] and [above x l] bound the keys of [l] strictly by [x]. *)

Section ordered.
Context {V : Type}.
Implicit Types l : list (Z * V).

Definition below (x : Z) l : Prop := ∀ p, p ∈ l → p.1 < x.
Definition above (x : Z) l : Prop := ∀ p, p ∈ l → x < p.1.
Definition ordered l : Prop := StronglySorted (λ p q : Z * V, p.1 < q.1) l.

Lemma below_nil x : below x ([] : list (Z * V)) ↔ True.
Proof. split; [done|]. intros _ p Hp. set_solver. Qed.
Lemma above_nil x : above x ([] : list (Z * V)) ↔ True.
Proof. split; [done|]. intros _ p Hp. set_solver. Qed.
Lemma below_cons x p l : below x (p :: l) ↔ p.1 < x ∧ below x l.
Proof. unfold below. set_solver. Qed.
Lemma above_cons x p l : above x (p :: l) ↔ x < p.1 ∧ above x l.
Proof. unfold above. set_solver. Qed.
Lemma below_app x l1 l2 : below x (l1 ++ l2) ↔ below x l1 ∧ below x l2.
Proof. unfold below. set_solver. Qed.
Lemma above_app x l1 l2 : above x (l1 ++ l2) ↔ above x l1 ∧ above x l2.
Proof. unfold above. set_solver. Qed.

Lemma below_weaken x y l : below x l → x ≤ y → below y l.
Proof. intros H ? p Hp. specialize (H p Hp). lia. Qed.
Lemma above_weaken x y l : above x l → y ≤ x → above y l.
Proof. intros H ? p Hp. specialize (H p Hp). lia. Qed.

Lemma ordered_nil : ordered ([] : list (Z * V)) ↔ True.
Proof. split; [done|]. constructor. Qed.

Lemma ordered_cons p l : ordered (p :: l) ↔ above p.1 l ∧ ordered l.
Proof. unfold ordered, above. by rewrite StronglySorted_cons, Forall_forall. Qed.

(** A list split at a key. *)
Lemma ordered_mid l1 p l2 :
  ordered (l1 ++ p :: l2) ↔ ordered l1 ∧ below p.1 l1 ∧ above p.1 l2 ∧ ordered l2.
Proof.
  unfold ordered, above, below.
  rewrite StronglySorted_app, StronglySorted_cons, Forall_forall.
  split; [set_solver|]. intros (? & Hb & Ha & ?).
  split_and!; [|done..]. intros x y Hx [->|Hy]%elem_of_cons; [by apply Hb|].
  specialize (Hb x Hx). specialize (Ha y Hy). lia.
Qed.

Lemma ordered_app l1 l2 :
  ordered (l1 ++ l2) ↔ ordered l1 ∧ ordered l2 ∧ ∀ p, p ∈ l2 → below p.1 l1.
Proof. unfold ordered, below. rewrite StronglySorted_app. naive_solver. Qed.

Lemma ordered_app_at x l1 l2 :
  ordered l1 → ordered l2 → below x l1 → (∀ p, p ∈ l2 → x ≤ p.1) → ordered (l1 ++ l2).
Proof.
  intros ? ? H1 H2. apply ordered_app. split_and!; [done..|].
  intros p Hp. eapply below_weaken; [done|by apply H2].
Qed.

Lemma ordered_app_l l1 l2 : ordered (l1 ++ l2) → ordered l1.
Proof. intros ?%ordered_app. naive_solver. Qed.
Lemma ordered_app_r l1 l2 : ordered (l1 ++ l2) → ordered l2.
Proof. intros ?%ordered_app. naive_solver. Qed.

(** An ordered list has one element per key. *)
Lemma ordered_NoDup l : ordered l → NoDup l.*1.
Proof.
  induction l as [|p l IH]; [by constructor|].
  rewrite ordered_cons. intros [Ha Ho]. simpl. constructor; [|by apply IH].
  intros (q & Hq1 & Hq2)%list_elem_of_fmap. specialize (Ha q Hq2). lia.
Qed.

(** Two splits of an ordered list at the same key agree. *)
Lemma ordered_split_unique x (l1 l1' l2 l2' : list (Z * V)) :
  l1 ++ l2 = l1' ++ l2' →
  below x l1 → below x l1' → (∀ p, p ∈ l2 → x ≤ p.1) → (∀ p, p ∈ l2' → x ≤ p.1) →
  l1 = l1' ∧ l2 = l2'.
Proof.
  revert l1'. induction l1 as [|p l1 IH]; intros [|p' l1'] Heq Hb Hb' Ha Ha'; simpl in *.
  - done.
  - subst l2. specialize (Ha p' ltac:(set_solver)).
    rewrite below_cons in Hb'. lia.
  - subst l2'. specialize (Ha' p ltac:(set_solver)).
    rewrite below_cons in Hb. lia.
  - injection Heq as -> Heq. rewrite below_cons in Hb, Hb'.
    destruct (IH l1' Heq) as [-> ->]; naive_solver.
Qed.

#[export] Instance below_dec x l : Decision (below x l).
Proof.
  refine (cast_if (decide (Forall (λ p : Z * V, p.1 < x) l))); unfold below;
    by rewrite <-Forall_forall.
Defined.
#[export] Instance above_dec x l : Decision (above x l).
Proof.
  refine (cast_if (decide (Forall (λ p : Z * V, x < p.1) l))); unfold above;
    by rewrite <-Forall_forall.
Defined.
#[export] Instance ordered_dec l : Decision (ordered l).
Proof. unfold ordered. apply _. Defined.

(** The finite map of an ordered list. *)
Lemma ordered_lookup l k v :
  ordered l → (list_to_map l : gmap Z V) !! k = Some v ↔ (k, v) ∈ l.
Proof. intros Ho. symmetry. by apply elem_of_list_to_map, ordered_NoDup. Qed.

Lemma ordered_lookup_None l k :
  (list_to_map l : gmap Z V) !! k = None ↔ k ∉ l.*1.
Proof. symmetry. apply not_elem_of_list_to_map. Qed.

Lemma ordered_insert (l1 l2 : list (Z * V)) k v :
  ordered (l1 ++ l2) → below k l1 → above k l2 → ordered (l1 ++ (k, v) :: l2).
Proof.
  intros Ho Hb Ha. rewrite ordered_mid.
  split_and!; [by eapply ordered_app_l|done..|by eapply ordered_app_r].
Qed.

(** Insertion and removal in the middle, on the finite maps. *)
Lemma list_to_map_mid (l1 l2 : list (Z * V)) k v :
  k ∉ l1.*1 → list_to_map (l1 ++ (k, v) :: l2) = <[k:=v]> (list_to_map (l1 ++ l2) : gmap Z V).
Proof.
  intros Hk. induction l1 as [|[j w] l1 IH]; [done|]. simpl in *.
  rewrite not_elem_of_cons in Hk. rewrite IH by naive_solver.
  apply insert_insert_ne. naive_solver.
Qed.

Lemma ordered_delete_mid (l1 l2 : list (Z * V)) k v :
  ordered (l1 ++ (k, v) :: l2) →
  list_to_map (l1 ++ l2) = delete k (list_to_map (l1 ++ (k, v) :: l2) : gmap Z V).
Proof.
  intros (_ & Hb & Ha & _)%ordered_mid.
  rewrite list_to_map_mid, delete_insert_id; [done| |].
  - apply not_elem_of_list_to_map. rewrite fmap_app, elem_of_app.
    intros [(p & Hp & Hin)%list_elem_of_fmap|(p & Hp & Hin)%list_elem_of_fmap].
    + specialize (Hb p Hin). simpl in *. lia.
    + specialize (Ha p Hin). simpl in *. lia.
  - intros (p & Hp & Hin)%list_elem_of_fmap. specialize (Hb p Hin). simpl in *. lia.
Qed.

Lemma ordered_delete_list k v (l1 l2 : list (Z * V)) :
  ordered (l1 ++ (k, v) :: l2) → ordered (l1 ++ l2).
Proof.
  intros (? & Hb & Ha & ?)%ordered_mid. simpl in *.
  apply (ordered_app_at k); [done..|]. intros p Hp. specialize (Ha p Hp). lia.
Qed.

Lemma ordered_sublist (l l' : list (Z * V)) : l' `sublist_of` l → ordered l → ordered l'.
Proof.
  induction 1 as [|p l' l E IH|p l' l E IH]; simpl; [done| |].
  - rewrite !ordered_cons. intros [Ha Ho]. split; [|by apply IH].
    intros q Hq. apply Ha. by eapply elem_of_sublist.
  - rewrite ordered_cons. naive_solver.
Qed.

Lemma app_cons_assoc {A} (l1 l2 l3 : list A) x :
  (l1 ++ x :: l2) ++ l3 = l1 ++ x :: (l2 ++ l3).
Proof. by rewrite <-app_assoc. Qed.
End ordered.

Create Rewrite HintDb ord.
#[export] Hint Rewrite @below_nil @below_cons @below_app @above_nil @above_cons @above_app
  @ordered_nil @ordered_mid @ordered_cons : ord.
#[export] Hint Rewrite @app_assoc @app_cons_assoc : ord.

(** Simplify ordering facts everywhere into their atoms. *)
Ltac ord_simpl :=
  simpl in *; autorewrite with ord in *; simpl in *; destruct_and?.

(** Close ordering goals from atoms: transitivity through a bound. *)
Ltac ord_done :=
  ord_simpl; split_and?;
  first [ done | lia
        | eapply below_weaken; [eassumption|lia]
        | eapply above_weaken; [eassumption|lia] ].

(** Equality of concatenations up to associativity. *)
Ltac app_norm := simpl; repeat (rewrite <-app_assoc; simpl); rewrite ?app_nil_r.

(** Use the bounds of the lists an element is in. *)
Ltac ord_mem :=
  repeat match goal with
  | H : below ?x ?l, H' : ?p ∈ ?l |- _ =>
    assert_fails (assert (p.1 < x) by assumption); pose proof (H p H' : p.1 < x)
  | H : above ?x ?l, H' : ?p ∈ ?l |- _ =>
    assert_fails (assert (x < p.1) by assumption); pose proof (H p H' : x < p.1)
  end; simpl in *; lia.

(** Membership in concatenations. *)
Ltac elem_simpl := repeat rewrite ?elem_of_app, ?elem_of_cons, ?elem_of_nil in *.
Ltac elem_tauto := simpl; elem_simpl; tauto.

(** Discharge a decidable hypothesis at a concrete input by evaluation. *)
Ltac decide_compute := refine (bool_decide_unpack _ _); vm_compute; exact I.

(** ** Lists threaded through an array

    The indices after [i], by the links [nx]; 0 ends the list. *)

Fixpoint threaded (nx : Z → Z) (i : Z) (fl : list Z) : Prop :=
  match fl with
  | [] => nx i = 0
  | j :: fl' => nx i = j ∧ j ≠ 0 ∧ threaded nx j fl'
  end.

(** The entry before the end of [l1] on a list from [a]. *)
Fixpoint pred_of (a : Z) (l1 : list Z) : Z :=
  match l1 with
  | [] => a
  | b :: l1' => pred_of b l1'
  end.

Lemma pred_of_elem a l1 : pred_of a l1 ∈ a :: l1.
Proof.
  revert a. induction l1 as [|b l1 IH]; intros a; simpl; [by left|].
  right. apply IH.
Qed.

Lemma threaded_pred nx a l1 i l2 : threaded nx a (l1 ++ i :: l2) → nx (pred_of a l1) = i.
Proof.
  revert a. induction l1 as [|b l1 IH]; intros a; simpl; [by intros [? _]|].
  intros (_ & _ & Hl). by apply IH.
Qed.

Lemma threaded_ext nx nx' a fl :
  threaded nx a fl → (∀ j, j ∈ a :: fl → nx' j = nx j) → threaded nx' a fl.
Proof.
  revert a. induction fl as [|b fl IH]; intros a; simpl.
  - intros Hl Hj. rewrite Hj; [done|by left].
  - intros (Hn & Hb & Hl) Hj. rewrite Hj by left. split_and!; [done..|].
    apply IH; [done|]. intros j Hin. apply Hj. by right.
Qed.

(** Unlinking [i]. *)
Lemma threaded_remove nx nx' a l1 i l2 :
  threaded nx a (l1 ++ i :: l2) → NoDup (a :: l1 ++ i :: l2) →
  nx' (pred_of a l1) = nx i →
  (∀ j, j ∈ a :: l1 ++ l2 → j ≠ pred_of a l1 → nx' j = nx j) →
  threaded nx' a (l1 ++ l2).
Proof.
  revert a. induction l1 as [|b l1 IH]; intros a; simpl.
  - intros (_ & _ & Hl) Hnd Hp Hj. apply NoDup_cons in Hnd as [Ha Hnd].
    assert (∀ j, j ∈ l2 → nx' j = nx j) as Hj'.
    { intros j Hin. apply Hj; [by right|]. intros ->. apply Ha. by right. }
    destruct l2 as [|b l2]; simpl in *; [congruence|].
    destruct Hl as (Hn & Hb & Hl). split_and!; [congruence|done|].
    by eapply threaded_ext.
  - intros (Hn & Hb & Hl) Hnd Hp Hj. apply NoDup_cons in Hnd as [Ha Hnd].
    pose proof (pred_of_elem b l1) as Hpe.
    assert (pred_of b l1 ≠ a) as Hne.
    { intros Heq. apply Ha. rewrite Heq in Hpe. rewrite elem_of_cons, elem_of_app in *.
      tauto. }
    rewrite Hj; [|by left|done]. split_and!; [done..|]. apply IH; [done..|].
    intros j Hin. apply Hj. by right.
Qed.

Lemma threaded_not_0 nx a fl : threaded nx a fl → 0 ∉ fl.
Proof.
  revert a. induction fl as [|b fl IH]; intros a; simpl; [intros _; apply not_elem_of_nil|].
  intros (_ & Hb & Hl). apply not_elem_of_cons. split; [done|by eapply IH].
Qed.

(** The list that starts at the index [x] itself. *)
Definition threaded_from (nx : Z → Z) (x : Z) (fl : list Z) : Prop :=
  match fl with
  | [] => x = 0
  | j :: fl' => x = j ∧ j ≠ 0 ∧ threaded nx j fl'
  end.

Lemma threaded_from_next nx i fl : threaded nx i fl ↔ threaded_from nx (nx i) fl.
Proof. by destruct fl. Qed.

Lemma threaded_from_ext nx nx' x fl :
  threaded_from nx x fl → (∀ j, j ∈ fl → nx' j = nx j) → threaded_from nx' x fl.
Proof.
  destruct fl as [|j fl]; [done|]. intros (-> & Hj & Hl) Hn. split_and!; [done..|].
  by eapply threaded_ext.
Qed.
