(* ===== verification/MachPort.v ===== *)
(** * Port names, rights and translation-entry bits

    mach/port.h, ipc/port.h and the bit layout of ipc/ipc_entry.h: a port
    name is a 24-bit table index and an 8-bit generation; [ie_bits] packs
    the generation, a collision bit, the 5-bit type of the right and 16 bits
    of user references. *)

From stdpp Require Import prelude numbers.
From S2P Require Import Prelude.

(** ** mach/port.h *)

Definition MACH_PORT_NULL : Z := 0.
Definition MACH_PORT_DEAD : Z := 2 ^ 32 - 1.

Definition MACH_PORT_INDEX (name : Z) : Z := Z.shiftr name 8.
Definition MACH_PORT_GEN (name : Z) : Z := u32 (Z.shiftl (Z.land name 255) 24).
Definition MACH_PORT_MAKE (index gen : Z) : Z :=
  Z.lor (u32 (Z.shiftl index 8)) (Z.shiftr gen 24).
Definition MACH_PORT_VALID (name : Z) : bool :=
  negb (name =? MACH_PORT_NULL) && negb (name =? MACH_PORT_DEAD).

Definition MACH_PORT_RIGHT_SEND : Z := 0.
Definition MACH_PORT_RIGHT_RECEIVE : Z := 1.
Definition MACH_PORT_RIGHT_SEND_ONCE : Z := 2.
Definition MACH_PORT_RIGHT_PORT_SET : Z := 3.
Definition MACH_PORT_RIGHT_DEAD_NAME : Z := 4.
Definition MACH_PORT_RIGHT_NUMBER : Z := 5.

Definition MACH_PORT_TYPE (right : Z) : Z := u32 (Z.shiftl 1 (right + 16)).

Definition MACH_PORT_TYPE_NONE : Z := 0.
Definition MACH_PORT_TYPE_SEND : Z :=
  Eval cbv in MACH_PORT_TYPE MACH_PORT_RIGHT_SEND.
Definition MACH_PORT_TYPE_RECEIVE : Z :=
  Eval cbv in MACH_PORT_TYPE MACH_PORT_RIGHT_RECEIVE.
Definition MACH_PORT_TYPE_SEND_ONCE : Z :=
  Eval cbv in MACH_PORT_TYPE MACH_PORT_RIGHT_SEND_ONCE.
Definition MACH_PORT_TYPE_PORT_SET : Z :=
  Eval cbv in MACH_PORT_TYPE MACH_PORT_RIGHT_PORT_SET.
Definition MACH_PORT_TYPE_DEAD_NAME : Z :=
  Eval cbv in MACH_PORT_TYPE MACH_PORT_RIGHT_DEAD_NAME.
Definition MACH_PORT_TYPE_SEND_RECEIVE : Z :=
  Eval cbv in Z.lor MACH_PORT_TYPE_SEND MACH_PORT_TYPE_RECEIVE.
Definition MACH_PORT_TYPE_SEND_RIGHTS : Z :=
  Eval cbv in Z.lor MACH_PORT_TYPE_SEND MACH_PORT_TYPE_SEND_ONCE.
Definition MACH_PORT_TYPE_PORT_RIGHTS : Z :=
  Eval cbv in Z.lor MACH_PORT_TYPE_SEND_RIGHTS MACH_PORT_TYPE_RECEIVE.
Definition MACH_PORT_TYPE_PORT_OR_DEAD : Z :=
  Eval cbv in Z.lor MACH_PORT_TYPE_PORT_RIGHTS MACH_PORT_TYPE_DEAD_NAME.
Definition MACH_PORT_TYPE_DNREQUEST : Z := 2 ^ 31.

(** ** ipc/port.h *)

Definition MACH_PORT_UREFS_MAX : Z := 2 ^ 16 - 1.

(** [urefs] is unsigned and [delta] is signed: the sum and the negation are
    computed modulo 2^32 and compared as unsigned numbers. *)
Definition MACH_PORT_UREFS_OVERFLOW (urefs delta : Z) : bool :=
  (delta >? 0) &&
  ((u32 (urefs + delta) <=? urefs) || (u32 (urefs + delta) >? MACH_PORT_UREFS_MAX)).

Definition MACH_PORT_UREFS_UNDERFLOW (urefs delta : Z) : bool :=
  (delta <? 0) && (u32 (- delta) >? urefs).

(** ** ipc/ipc_entry.h *)

Definition IE_BITS_UREFS_MASK : Z := 0x0000ffff.
Definition IE_BITS_UREFS (bits : Z) : Z := Z.land bits IE_BITS_UREFS_MASK.
Definition IE_BITS_TYPE_MASK : Z := 0x001f0000.
Definition IE_BITS_TYPE (bits : Z) : Z := Z.land bits IE_BITS_TYPE_MASK.
Definition IE_BITS_COLLISION : Z := 0x00800000.
Definition IE_BITS_GEN_MASK : Z := 0xff000000.
Definition IE_BITS_GEN (bits : Z) : Z := Z.land bits IE_BITS_GEN_MASK.
Definition IE_BITS_GEN_ONE : Z := 0x04000000.
Definition IE_BITS_NEW_GEN (old : Z) : Z :=
  Z.land (u32 (old + IE_BITS_GEN_ONE)) IE_BITS_GEN_MASK.
Definition IE_BITS_RIGHT_MASK : Z := 0x007fffff.

Definition MACH_PORT_MAKEB (index bits : Z) : Z :=
  MACH_PORT_MAKE index (IE_BITS_GEN bits).

(** A generation number in the position it has in [ie_bits]. *)
Definition is_gen (g : Z) : Prop := ∃ k, 0 ≤ k < 2 ^ 8 ∧ g = k * 2 ^ 24.

(** ** Arithmetic readings of the masks *)

Lemma IE_BITS_GEN_arith b : IE_BITS_GEN b = (b / 2 ^ 24) mod 2 ^ 8 * 2 ^ 24.
Proof. exact (land_mask_at b 24 8 ltac:(lia) ltac:(lia)). Qed.

Lemma IE_BITS_TYPE_arith b : IE_BITS_TYPE b = (b / 2 ^ 16) mod 2 ^ 5 * 2 ^ 16.
Proof. exact (land_mask_at b 16 5 ltac:(lia) ltac:(lia)). Qed.

Lemma IE_BITS_UREFS_arith b : IE_BITS_UREFS b = b mod 2 ^ 16.
Proof.
  pose proof (land_mask_at b 0 16 ltac:(lia) ltac:(lia)) as H.
  rewrite Z.div_1_r, Z.mul_1_r in H. exact H.
Qed.

Lemma IE_BITS_NEW_GEN_arith b :
  IE_BITS_NEW_GEN b = (b / 2 ^ 24 + 4) mod 2 ^ 8 * 2 ^ 24.
Proof.
  unfold IE_BITS_NEW_GEN. fold (IE_BITS_GEN (u32 (b + IE_BITS_GEN_ONE))).
  rewrite IE_BITS_GEN_arith. unfold u32, IE_BITS_GEN_ONE.
  Z.div_mod_to_equations. lia.
Qed.

Lemma MACH_PORT_INDEX_arith n : MACH_PORT_INDEX n = n / 2 ^ 8.
Proof. by apply Z.shiftr_div_pow2. Qed.

Lemma MACH_PORT_GEN_arith n : MACH_PORT_GEN n = n mod 2 ^ 8 * 2 ^ 24.
Proof.
  unfold MACH_PORT_GEN. change 255 with (Z.ones 8).
  rewrite Z.land_ones, Z.shiftl_mul_pow2 by lia.
  apply u32_small. unfold is_u32. Z.div_mod_to_equations. lia.
Qed.

Lemma MACH_PORT_MAKE_arith i g :
  0 ≤ i < 2 ^ 24 → is_gen g → MACH_PORT_MAKE i g = i * 2 ^ 8 + g / 2 ^ 24.
Proof.
  intros Hi (k & Hk & ->). unfold MACH_PORT_MAKE.
  rewrite Z.shiftr_div_pow2, Z.shiftl_mul_pow2, Z.div_mul by lia.
  rewrite u32_small by (unfold is_u32; lia).
  by apply lor_add_low.
Qed.

Lemma is_gen_IE_BITS_GEN b : is_gen (IE_BITS_GEN b).
Proof.
  rewrite IE_BITS_GEN_arith. eexists. split; [|done].
  apply Z.mod_pos_bound. lia.
Qed.

Lemma is_gen_MACH_PORT_GEN n : is_gen (MACH_PORT_GEN n).
Proof.
  rewrite MACH_PORT_GEN_arith. eexists. split; [|done].
  apply Z.mod_pos_bound. lia.
Qed.

Lemma is_gen_0 : is_gen 0.
Proof. by exists 0. Qed.

Lemma MACH_PORT_INDEX_MAKE i g :
  0 ≤ i < 2 ^ 24 → is_gen g → MACH_PORT_INDEX (MACH_PORT_MAKE i g) = i.
Proof.
  intros Hi Hg. rewrite MACH_PORT_MAKE_arith, MACH_PORT_INDEX_arith by done.
  destruct Hg as (k & Hk & ->). rewrite Z.div_mul by lia.
  Z.div_mod_to_equations. lia.
Qed.

Lemma MACH_PORT_GEN_MAKE i g :
  0 ≤ i < 2 ^ 24 → is_gen g → MACH_PORT_GEN (MACH_PORT_MAKE i g) = g.
Proof.
  intros Hi Hg. rewrite MACH_PORT_MAKE_arith, MACH_PORT_GEN_arith by done.
  destruct Hg as (k & Hk & ->). rewrite Z.div_mul by lia.
  Z.div_mod_to_equations. lia.
Qed.

Lemma MACH_PORT_MAKE_INDEX_GEN n :
  is_u32 n → MACH_PORT_MAKE (MACH_PORT_INDEX n) (MACH_PORT_GEN n) = n.
Proof.
  unfold is_u32. intros Hn.
  rewrite MACH_PORT_MAKE_arith; [|rewrite MACH_PORT_INDEX_arith|apply is_gen_MACH_PORT_GEN].
  - rewrite MACH_PORT_INDEX_arith, MACH_PORT_GEN_arith, Z.div_mul by lia.
    Z.div_mod_to_equations. lia.
  - Z.div_mod_to_equations. lia.
Qed.

Lemma MACH_PORT_INDEX_range n : is_u32 n → 0 ≤ MACH_PORT_INDEX n < 2 ^ 24.
Proof.
  unfold is_u32. rewrite MACH_PORT_INDEX_arith. intros.
  Z.div_mod_to_equations. lia.
Qed.

Lemma MACH_PORT_MAKE_range i g :
  0 ≤ i < 2 ^ 24 → is_gen g → is_u32 (MACH_PORT_MAKE i g).
Proof.
  intros Hi Hg. rewrite MACH_PORT_MAKE_arith by done.
  destruct Hg as (k & Hk & ->). rewrite Z.div_mul by lia.
  unfold is_u32. lia.
Qed.

(** Two names are equal when their indices and their generations are. *)
Lemma port_name_inj n m :
  is_u32 n → is_u32 m →
  MACH_PORT_INDEX n = MACH_PORT_INDEX m → MACH_PORT_GEN n = MACH_PORT_GEN m → n = m.
Proof.
  intros Hn Hm Hi Hg.
  by rewrite <-(MACH_PORT_MAKE_INDEX_GEN n), <-(MACH_PORT_MAKE_INDEX_GEN m), Hi, Hg.
Qed.

Lemma MACH_PORT_MAKE_0 i : 0 ≤ i < 2 ^ 24 → MACH_PORT_MAKE i 0 = i * 2 ^ 8.
Proof.
  intros. rewrite MACH_PORT_MAKE_arith by (done || apply is_gen_0).
  by rewrite Z.add_0_r.
Qed.

(** The names with index at least [i] are those from [MACH_PORT_MAKE(i,0)] on. *)
Lemma index_ge_iff_name_ge n i :
  0 ≤ i < 2 ^ 24 → i ≤ MACH_PORT_INDEX n ↔ MACH_PORT_MAKE i 0 ≤ n.
Proof.
  intros. rewrite MACH_PORT_MAKE_0, MACH_PORT_INDEX_arith by done.
  split; intros; Z.div_mod_to_equations; lia.
Qed.

Lemma NEW_GEN_iter g k :
  is_gen g →
  Nat.iter k IE_BITS_NEW_GEN g = (g / 2 ^ 24 + 4 * Z.of_nat k) mod 2 ^ 8 * 2 ^ 24.
Proof.
  intros (j & Hj & ->). rewrite Z.div_mul by lia. induction k as [|k IH].
  - simpl. rewrite Z.mod_small by lia. lia.
  - change (Nat.iter (S k) IE_BITS_NEW_GEN (j * 2 ^ 24))
      with (IE_BITS_NEW_GEN (Nat.iter k IE_BITS_NEW_GEN (j * 2 ^ 24))).
    rewrite IH, IE_BITS_NEW_GEN_arith, Z.div_mul by lia.
    f_equal. rewrite Nat2Z.inj_succ. Z.div_mod_to_equations. lia.
Qed.

(** ** The collision bit and the bits of the right *)

Definition collides (bits : Z) : bool := negb (Z.land bits IE_BITS_COLLISION =? 0).

Lemma land_lor_const b c m : Z.land c m = 0 → Z.land (Z.lor b c) m = Z.land b m.
Proof. intros H. by rewrite Z.land_lor_distr_l, H, Z.lor_0_r. Qed.

Lemma land_land_const b c m r : Z.land c m = r → Z.land (Z.land b c) m = Z.land b r.
Proof. intros <-. by rewrite Z.land_assoc. Qed.

Lemma land_land_0 b c m : Z.land c m = 0 → Z.land (Z.land b c) m = 0.
Proof. intros H. by rewrite <-Z.land_assoc, H, Z.land_0_r. Qed.

Lemma GEN_set_collision b : IE_BITS_GEN (Z.lor b IE_BITS_COLLISION) = IE_BITS_GEN b.
Proof. by apply land_lor_const. Qed.
Lemma TYPE_set_collision b : IE_BITS_TYPE (Z.lor b IE_BITS_COLLISION) = IE_BITS_TYPE b.
Proof. by apply land_lor_const. Qed.
Lemma RIGHT_set_collision b :
  Z.land (Z.lor b IE_BITS_COLLISION) IE_BITS_RIGHT_MASK = Z.land b IE_BITS_RIGHT_MASK.
Proof. by apply land_lor_const. Qed.
Lemma collides_set_collision b : collides (Z.lor b IE_BITS_COLLISION) = true.
Proof.
  unfold collides. destruct (Z.eqb_spec (Z.land (Z.lor b IE_BITS_COLLISION) IE_BITS_COLLISION) 0)
    as [H|]; [|done].
  assert (Z.testbit (Z.land (Z.lor b IE_BITS_COLLISION) IE_BITS_COLLISION) 23 = true) as Hb.
  { rewrite Z.land_spec, Z.lor_spec. change (Z.testbit IE_BITS_COLLISION 23) with true.
    by rewrite orb_true_r. }
  by rewrite H in Hb.
Qed.

Lemma GEN_clear_collision b : IE_BITS_GEN (Z.land b (Z.lnot IE_BITS_COLLISION)) = IE_BITS_GEN b.
Proof. by apply land_land_const. Qed.
Lemma TYPE_clear_collision b : IE_BITS_TYPE (Z.land b (Z.lnot IE_BITS_COLLISION)) = IE_BITS_TYPE b.
Proof. by apply land_land_const. Qed.
Lemma RIGHT_clear_collision b :
  Z.land (Z.land b (Z.lnot IE_BITS_COLLISION)) IE_BITS_RIGHT_MASK = Z.land b IE_BITS_RIGHT_MASK.
Proof. by apply land_land_const. Qed.
Lemma collides_clear_collision b : collides (Z.land b (Z.lnot IE_BITS_COLLISION)) = false.
Proof.
  unfold collides.
  by rewrite land_land_0.
Qed.

Lemma GEN_GEN b : IE_BITS_GEN (IE_BITS_GEN b) = IE_BITS_GEN b.
Proof. by apply land_land_const. Qed.
Lemma TYPE_GEN b : IE_BITS_TYPE (IE_BITS_GEN b) = 0.
Proof.
  unfold IE_BITS_TYPE, IE_BITS_GEN.
  by rewrite land_land_0.
Qed.
Lemma RIGHT_GEN b : Z.land (IE_BITS_GEN b) IE_BITS_RIGHT_MASK = 0.
Proof. unfold IE_BITS_GEN. by rewrite land_land_0. Qed.
Lemma collides_GEN b : collides (IE_BITS_GEN b) = false.
Proof.
  unfold collides, IE_BITS_GEN.
  by rewrite land_land_0.
Qed.
Lemma lnot_GEN b : Z.land (IE_BITS_GEN b) (Z.lnot IE_BITS_GEN_MASK) = 0.
Proof. unfold IE_BITS_GEN. by rewrite land_land_0. Qed.

(** A generation is its own [IE_BITS_GEN]. *)
Lemma is_gen_fix g : is_gen g ↔ IE_BITS_GEN g = g.
Proof.
  split; [|intros <-; apply is_gen_IE_BITS_GEN].
  intros (k & Hk & ->). rewrite IE_BITS_GEN_arith, Z.div_mul, Z.mod_small by lia. done.
Qed.

(** The bits of a right with a generation added. *)
Lemma GEN_right_gen b g :
  Z.land b IE_BITS_RIGHT_MASK = b → is_gen g → IE_BITS_GEN (Z.lor b g) = g.
Proof.
  intros Hb Hg%is_gen_fix. unfold IE_BITS_GEN in *. rewrite <-Hb, Z.land_lor_distr_l, Hg.
  by rewrite land_land_0, Z.lor_0_l.
Qed.
Lemma TYPE_right_gen b g : is_gen g → IE_BITS_TYPE (Z.lor b g) = IE_BITS_TYPE b.
Proof. intros <-%is_gen_fix. apply land_lor_const, TYPE_GEN. Qed.
Lemma RIGHT_right_gen b g :
  Z.land b IE_BITS_RIGHT_MASK = b → is_gen g → Z.land (Z.lor b g) IE_BITS_RIGHT_MASK = b.
Proof. intros Hb <-%is_gen_fix. rewrite land_lor_const; [done|]. apply RIGHT_GEN. Qed.
Lemma collides_right_gen b g :
  Z.land b IE_BITS_RIGHT_MASK = b → is_gen g → collides (Z.lor b g) = false.
Proof.
  intros Hb <-%is_gen_fix. unfold collides. rewrite Z.land_lor_distr_l, <-Hb.
  unfold IE_BITS_GEN. by rewrite !land_land_0.
Qed.

(** An entry with no bits but a generation. *)
Lemma only_gen b : Z.land b (Z.lnot IE_BITS_GEN_MASK) = 0 → IE_BITS_GEN b = b.
Proof.
  intros H. unfold IE_BITS_GEN.
  rewrite <-(Z.lor_0_r (Z.land b _)), <-H, <-Z.land_lor_distr_r, Z.lor_lnot_diag.
  apply Z.land_m1_r.
Qed.

(** The name of a table entry. *)
Lemma MAKEB_eq i b name :
  0 ≤ i < 2 ^ 24 → is_u32 name →
  MACH_PORT_MAKEB i b = name ↔ MACH_PORT_INDEX name = i ∧ IE_BITS_GEN b = MACH_PORT_GEN name.
Proof.
  intros Hi Hn. unfold MACH_PORT_MAKEB. pose proof (is_gen_IE_BITS_GEN b). split.
  - intros <-. by rewrite MACH_PORT_INDEX_MAKE, MACH_PORT_GEN_MAKE.
  - intros [<- ->]. by apply MACH_PORT_MAKE_INDEX_GEN.
Qed.
Lemma MAKEB_range i b : 0 ≤ i < 2 ^ 24 → is_u32 (MACH_PORT_MAKEB i b).
Proof. intros. apply MACH_PORT_MAKE_range; [done|apply is_gen_IE_BITS_GEN]. Qed.
Lemma INDEX_MAKEB i b : 0 ≤ i < 2 ^ 24 → MACH_PORT_INDEX (MACH_PORT_MAKEB i b) = i.
Proof. intros. apply MACH_PORT_INDEX_MAKE; [done|apply is_gen_IE_BITS_GEN]. Qed.

Create Rewrite HintDb bits.
#[export] Hint Rewrite GEN_set_collision TYPE_set_collision RIGHT_set_collision
  collides_set_collision GEN_clear_collision TYPE_clear_collision RIGHT_clear_collision
  collides_clear_collision GEN_GEN TYPE_GEN RIGHT_GEN collides_GEN lnot_GEN : bits.

(** ** Properties *)

Theorem port_name_layout n i g :
  is_u32 n → 0 ≤ i < 2 ^ 24 → is_gen g →
  MACH_PORT_MAKE (MACH_PORT_INDEX n) (MACH_PORT_GEN n) = n
  ∧ MACH_PORT_INDEX (MACH_PORT_MAKE i g) = i
  ∧ MACH_PORT_GEN (MACH_PORT_MAKE i g) = g
  ∧ (i ≤ MACH_PORT_INDEX n ↔ MACH_PORT_MAKE i 0 ≤ n).
Proof.
  intros. repeat split;
    auto using MACH_PORT_MAKE_INDEX_GEN, MACH_PORT_INDEX_MAKE, MACH_PORT_GEN_MAKE;
    by apply index_ge_iff_name_ge.
Qed.

Lemma port_name_layout_witness :
  MACH_PORT_MAKE (MACH_PORT_INDEX 0x50b) (MACH_PORT_GEN 0x50b) = 0x50b
  ∧ MACH_PORT_INDEX (MACH_PORT_MAKE 5 0x07000000) = 5
  ∧ MACH_PORT_GEN (MACH_PORT_MAKE 5 0x07000000) = 0x07000000
  ∧ (5 ≤ MACH_PORT_INDEX 0x50b ↔ MACH_PORT_MAKE 5 0 ≤ 0x50b).
Proof.
  apply (port_name_layout 0x50b 5 0x07000000); [unfold is_u32; lia|lia|].
  exists 7. lia.
Defined.

Theorem generation_period g k :
  is_gen g → (0 < k < 64)%nat →
  is_gen (IE_BITS_NEW_GEN g)
  ∧ Nat.iter k IE_BITS_NEW_GEN g ≠ g
  ∧ Nat.iter 64 IE_BITS_NEW_GEN g = g.
Proof.
  intros Hg Hk. rewrite !NEW_GEN_iter by done.
  split; [by apply (is_gen_IE_BITS_GEN (u32 (g + IE_BITS_GEN_ONE)))|].
  destruct Hg as (j & Hj & ->). rewrite Z.div_mul by lia.
  split; Z.div_mod_to_equations; lia.
Qed.

Lemma generation_period_witness :
  is_gen (IE_BITS_NEW_GEN IE_BITS_GEN_MASK)
  ∧ Nat.iter 63 IE_BITS_NEW_GEN IE_BITS_GEN_MASK ≠ IE_BITS_GEN_MASK
  ∧ Nat.iter 64 IE_BITS_NEW_GEN IE_BITS_GEN_MASK = IE_BITS_GEN_MASK.
Proof.
  apply (generation_period IE_BITS_GEN_MASK 63); [|lia].
  exists 255. split; [lia|reflexivity].
Defined.

Theorem urefs_checks_exact urefs delta :
  0 ≤ urefs ≤ MACH_PORT_UREFS_MAX → - 2 ^ 31 ≤ delta < 2 ^ 31 →
  (MACH_PORT_UREFS_UNDERFLOW urefs delta = true ↔ urefs + delta < 0)
  ∧ (MACH_PORT_UREFS_OVERFLOW urefs delta = true ↔ MACH_PORT_UREFS_MAX < urefs + delta).
Proof.
  unfold MACH_PORT_UREFS_UNDERFLOW, MACH_PORT_UREFS_OVERFLOW, MACH_PORT_UREFS_MAX.
  intros Hu Hd.
  assert (0 < delta → u32 (urefs + delta) = urefs + delta).
  { intros. apply u32_small. unfold is_u32. lia. }
  assert (delta < 0 → u32 (- delta) = - delta).
  { intros. apply u32_small. unfold is_u32. lia. }
  split; lia.
Qed.

Lemma urefs_checks_exact_witness :
  (MACH_PORT_UREFS_UNDERFLOW 3 (-4) = true ↔ 3 + -4 < 0)
  ∧ (MACH_PORT_UREFS_OVERFLOW 3 (-4) = true ↔ MACH_PORT_UREFS_MAX < 3 + -4).
Proof. apply (urefs_checks_exact 3 (-4)); unfold MACH_PORT_UREFS_MAX; lia. Defined.
