(* ===== verification/IpcQueue.v ===== *)
(** * The linked queues of threads and messages (ipc_thread.c, ipc_kmsg.c)

    A queue of threads or of messages is a pointer to the first of a ring of
    elements that are linked in both directions through fields of their own.
    The models of ports and port sets use lists in their place; this file
    shows that the rings are lists.  An element is in at most one ring: its
    links say nothing about the queue, which is why an operation needs its
    element to be idle, or to be in the very queue it is given. *)

From stdpp Require Import prelude list gmap.
From S2P Require Import Prelude.

(** ** Definitions

    [ith_next], [ith_prev] of a thread or [ikm_next], [ikm_prev] of a message. *)
Record links := LK {
  l_next : Z;
  l_prev : Z;
}.

#[export] Instance links_eq_dec : EqDecision links.
Proof. solve_decision. Defined.

Definition set_next (l : links) (x : Z) : links := LK x (l_prev l).
Definition set_prev (l : links) (x : Z) : links := LK (l_next l) x.

Abbreviation heap := (gmap Z links) (only parsing).

Definition lget (h : heap) (x : Z) : outcome links := deref (h !! x).
Definition lmod (h : heap) (x : Z) (f : links → links) : outcome heap :=
  l ← lget h x; Ok (<[x := f l]> h).

(** [ITH_NULL], [IKM_NULL]; a queue is its [ithq_base] or [ikmq_base]. *)
Definition Q_NULL : Z := 0.
Definition IKM_BOGUS : Z := 0xffffff10.

(** ** Threads (ipc/ipc_thread.h, ipc/ipc_thread.c) *)

Definition ipc_thread_links_init (h : heap) (thread : Z) : outcome heap :=
  lmod h thread (λ _, LK thread thread).

Definition ipc_thread_enqueue (h : heap) (queue thread : Z) : outcome (heap * Z) :=
  let first := queue in
  if first =? Q_NULL then
    l ← lget h thread;
    kassert (l_next l =? thread);;
    kassert (l_prev l =? thread);;
    Ok (h, thread)
  else
    lf ← lget h first;
    let last := l_prev lf in
    h ← lmod h thread (λ l, set_next l first);
    h ← lmod h thread (λ l, set_prev l last);
    h ← lmod h first (λ l, set_prev l thread);
    h ← lmod h last (λ l, set_next l thread);
    Ok (h, queue).

Definition ipc_thread_rmqueue_first (h : heap) (queue thread : Z) : outcome (heap * Z) :=
  kassert (queue =? thread);;
  l ← lget h thread;
  let next := l_next l in
  if next =? thread then
    kassert (l_prev l =? thread);;
    Ok (h, Q_NULL)
  else
    let prev := l_prev l in
    h ← lmod h next (λ l, set_prev l prev);
    h ← lmod h prev (λ l, set_next l next);
    h ← ipc_thread_links_init h thread;
    Ok (h, next).

(** The thread returned is [ITH_NULL] if the queue is empty. *)
Definition ipc_thread_dequeue (h : heap) (queue : Z) : outcome (heap * Z * Z) :=
  let first := queue in
  if negb (first =? Q_NULL) then
    '(h, queue) ← ipc_thread_rmqueue_first h queue first;
    Ok (h, queue, first)
  else Ok (h, queue, first).

Definition ipc_thread_rmqueue (h : heap) (queue thread : Z) : outcome (heap * Z) :=
  kassert (negb (queue =? Q_NULL));;
  l ← lget h thread;
  let next := l_next l in
  let prev := l_prev l in
  if next =? thread then
    kassert (prev =? thread);;
    kassert (queue =? thread);;
    Ok (h, Q_NULL)
  else
    let queue := if queue =? thread then next else queue in
    h ← lmod h next (λ l, set_prev l prev);
    h ← lmod h prev (λ l, set_next l next);
    h ← ipc_thread_links_init h thread;
    Ok (h, queue).

(** [while (next != base)]; [fuel] bounds its rounds. *)
Fixpoint inqueue_loop (fuel : nat) (h : heap) (base thread next : Z) : outcome bool :=
  match fuel with
  | O => Fault FLoop
  | S fuel' =>
    if next =? base then Ok false
    else if next =? thread then Ok true
    else l ← lget h next; inqueue_loop fuel' h base thread (l_next l)
  end.

Definition ipc_thread_inqueue (fuel : nat) (h : heap) (queue thread : Z) : outcome bool :=
  let base := queue in
  if base =? Q_NULL then Ok false
  else if base =? thread then Ok true
  else l ← lget h base; inqueue_loop fuel h base thread (l_next l).

(** ** Messages (ipc/ipc_kmsg.h, ipc/ipc_kmsg.c) *)

Definition ipc_kmsg_enqueue (h : heap) (queue kmsg : Z) : outcome (heap * Z) :=
  let first := queue in
  if first =? Q_NULL then
    h ← lmod h kmsg (λ l, set_next l kmsg);
    h ← lmod h kmsg (λ l, set_prev l kmsg);
    Ok (h, kmsg)
  else
    lf ← lget h first;
    let last := l_prev lf in
    h ← lmod h kmsg (λ l, set_next l first);
    h ← lmod h kmsg (λ l, set_prev l last);
    h ← lmod h first (λ l, set_prev l kmsg);
    h ← lmod h last (λ l, set_next l kmsg);
    Ok (h, queue).

(** The links of a message that has been taken out. *)
Definition kmsg_unlinked (h : heap) (kmsg : Z) : outcome heap :=
  h ← lmod h kmsg (λ l, set_next l IKM_BOGUS);
  lmod h kmsg (λ l, set_prev l IKM_BOGUS).

Definition ipc_kmsg_rmqueue_first (h : heap) (queue kmsg : Z) : outcome (heap * Z) :=
  kassert (queue =? kmsg);;
  l ← lget h kmsg;
  let next := l_next l in
  '(h, queue) ←
    (if next =? kmsg then
       kassert (l_prev l =? kmsg);;
       Ok (h, Q_NULL)
     else
       let prev := l_prev l in
       h ← lmod h next (λ l, set_prev l prev);
       h ← lmod h prev (λ l, set_next l next);
       Ok (h, next));
  h ← kmsg_unlinked h kmsg;
  Ok (h, queue).

Definition ipc_kmsg_dequeue (h : heap) (queue : Z) : outcome (heap * Z * Z) :=
  let first := queue in
  if negb (first =? Q_NULL) then
    '(h, queue) ← ipc_kmsg_rmqueue_first h queue first;
    Ok (h, queue, first)
  else Ok (h, queue, first).

Definition ipc_kmsg_rmqueue (h : heap) (queue kmsg : Z) : outcome (heap * Z) :=
  kassert (negb (queue =? Q_NULL));;
  l ← lget h kmsg;
  let next := l_next l in
  let prev := l_prev l in
  '(h, queue) ←
    (if next =? kmsg then
       kassert (prev =? kmsg);;
       kassert (queue =? kmsg);;
       Ok (h, Q_NULL)
     else
       let queue := if queue =? kmsg then next else queue in
       h ← lmod h next (λ l, set_prev l prev);
       h ← lmod h prev (λ l, set_next l next);
       Ok (h, queue));
  h ← kmsg_unlinked h kmsg;
  Ok (h, queue).

Definition ipc_kmsg_queue_next (h : heap) (queue kmsg : Z) : outcome Z :=
  kassert (negb (queue =? Q_NULL));;
  l ← lget h kmsg;
  Ok (if queue =? l_next l then Q_NULL else l_next l).

(** ** Rings are lists *)

Abbreviation lst d l := (default (d : Z) (last (l : list Z))) (only parsing).
Abbreviation hd d l := (default (d : Z) (head (l : list Z))) (only parsing).

(** The elements of [l] are linked, between [prev] and [next]. *)
Fixpoint seg (h : heap) (prev : Z) (l : list Z) (next : Z) : Prop :=
  match l with
  | [] => True
  | x :: l' => h !! x = Some (LK (hd next l') prev) ∧ seg h x l' next
  end.

Definition cyc (h : heap) (l : list Z) : Prop := seg h (lst Q_NULL l) l (hd Q_NULL l).

(** The queue [q] has the elements [l]. *)
Record ring (h : heap) (q : Z) (l : list Z) : Prop := {
  ri_nodup : NoDup l;
  ri_null : Q_NULL ∉ l;
  ri_base : q = hd Q_NULL l;
  ri_cyc : cyc h l;
}.

(** Only the links of [l] have changed. *)
Definition within (h h' : heap) (l : list Z) : Prop := ∀ y, y ∉ l → h' !! y = h !! y.

Lemma lst_app d l1 l2 : lst d (l1 ++ l2) = lst (lst d l1) l2.
Proof. rewrite last_app. by destruct (last l2). Qed.
Lemma hd_app d l1 l2 : hd d (l1 ++ l2) = hd (hd d l2) l1.
Proof. by destruct l1. Qed.
Lemma lst_cons d x l : lst d (x :: l) = lst x l.
Proof. change (x :: l) with ([x] ++ l). apply lst_app. Qed.
Lemma lst_default d d' l : l ≠ [] → lst d l = lst d' l.
Proof. intros Hl. destruct (last l) eqn:Hx; [done|]. by apply last_None in Hx. Qed.
Lemma hd_default d d' l : l ≠ [] → hd d l = hd d' l.
Proof. by destruct l. Qed.
Lemma lst_in d l : l ≠ [] → lst d l ∈ l.
Proof.
  intros Hl. destruct (last l) eqn:Hx; [|by apply last_None in Hx]. simpl.
  apply last_Some in Hx as [l' ->]. apply elem_of_app. right. by left.
Qed.
Lemma hd_in d l : l ≠ [] → hd d l ∈ l.
Proof. destruct l; [done|by left]. Qed.

Lemma seg_app h p l1 l2 n : seg h p (l1 ++ l2) n ↔ seg h p l1 (hd n l2) ∧ seg h (lst p l1) l2 n.
Proof.
  revert p. induction l1 as [|x l1 IH]; intros p; simpl; [tauto|]. rewrite IH, hd_app, lst_cons. tauto.
Qed.

Lemma seg_frame h h' p l n : (∀ y, y ∈ l → h' !! y = h !! y) → seg h p l n → seg h' p l n.
Proof.
  revert p. induction l as [|x l IH]; intros p Hh; simpl; [done|]. intros [Hx Hs].
  split; [by rewrite Hh by left|]. apply IH; [|done]. intros y Hy. apply Hh. by right.
Qed.

Lemma within_trans h1 h2 h3 l : within h1 h2 l → within h2 h3 l → within h1 h3 l.
Proof. intros H1 H2 y Hy. by rewrite H2, H1. Qed.
Lemma within_insert h x l v : x ∈ l → within h (<[x := v]> h) l.
Proof. intros Hx y Hy. rewrite lookup_insert_ne; [done|]. by intros ->. Qed.
Lemma within_mono h h' l l' : l ⊆ l' → within h h' l → within h h' l'.
Proof. intros Hl Hw y Hy. apply Hw. set_solver. Qed.

(** The two ends of a segment are written. *)
Lemma seg_set_prev h p p' l n :
  l ≠ [] → NoDup l → seg h p l n →
  ∃ h', lmod h (hd Q_NULL l) (λ k, set_prev k p') = Ok h' ∧ seg h' p' l n ∧ within h h' [hd Q_NULL l].
Proof.
  destruct l as [|x l]; [done|]. intros _ [Hx Hnd]%NoDup_cons [Hh Hs]. unfold lmod, lget. simpl. rewrite Hh. ostep.
  eexists. split; [done|]. split; [|apply within_insert; by left]. split; [by rewrite lookup_insert_eq|].
  eapply seg_frame; [|done]. intros y Hy. rewrite lookup_insert_ne; [done|]. by intros ->.
Qed.

Lemma seg_set_next h p l n n' :
  l ≠ [] → NoDup l → seg h p l n →
  ∃ h', lmod h (lst Q_NULL l) (λ k, set_next k n') = Ok h' ∧ seg h' p l n' ∧ within h h' [lst Q_NULL l].
Proof.
  intros Hl Hnd Hs. destruct (exists_last Hl) as (l' & x & ->). rewrite last_snoc. simpl.
  apply NoDup_app in Hnd as (_ & Hd & _). apply seg_app in Hs as [Hs1 [Hx _]].
  unfold lmod, lget. rewrite Hx. ostep. eexists. split; [done|]. split; [|apply within_insert; by left].
  apply seg_app. split; [|split; [by rewrite lookup_insert_eq|done]].
  eapply seg_frame; [|done]. intros y Hy. rewrite lookup_insert_ne; [done|]. intros ->. by apply (Hd y Hy); left.
Qed.

Lemma cyc_app h l1 l2 :
  l1 ≠ [] → l2 ≠ [] →
  cyc h (l1 ++ l2) ↔ seg h (lst Q_NULL l2) l1 (hd Q_NULL l2) ∧ seg h (lst Q_NULL l1) l2 (hd Q_NULL l1).
Proof.
  intros H1 H2. unfold cyc. rewrite seg_app, lst_app, hd_app.
  rewrite (lst_default (lst Q_NULL l1) Q_NULL l2), (hd_default (hd Q_NULL l2) Q_NULL l1) by done.
  by rewrite (lst_default (lst Q_NULL l2) Q_NULL l1), (hd_default (hd Q_NULL l1) Q_NULL l2) by done.
Qed.

Lemma cyc_rotate h l1 l2 : cyc h (l1 ++ l2) → cyc h (l2 ++ l1).
Proof.
  destruct (decide (l1 = [])) as [->|H1]; [by rewrite app_nil_r|].
  destruct (decide (l2 = [])) as [->|H2]; [by rewrite app_nil_r|]. rewrite !cyc_app by done. tauto.
Qed.

(** A ring without one of its elements, which comes first here. *)
Lemma cyc_cons h x l :
  l ≠ [] → cyc h (x :: l) ↔ h !! x = Some (LK (hd Q_NULL l) (lst Q_NULL l)) ∧ seg h x l x.
Proof.
  intros Hl. unfold cyc. simpl. by rewrite lst_cons, (lst_default x Q_NULL l), (hd_default x Q_NULL l).
Qed.

(** The neighbours of an element that leaves are linked to each other. *)
Lemma unlink_spec h x l :
  l ≠ [] → NoDup (x :: l) → cyc h (x :: l) →
  ∃ h1 h2, lmod h (hd Q_NULL l) (λ k, set_prev k (lst Q_NULL l)) = Ok h1 ∧
    lmod h1 (lst Q_NULL l) (λ k, set_next k (hd Q_NULL l)) = Ok h2 ∧
    cyc h2 l ∧ within h h2 l ∧ h2 !! x = h !! x.
Proof.
  intros Hl [Hx Hnd]%NoDup_cons [_ Hs]%cyc_cons; [|done].
  destruct (seg_set_prev h x (lst Q_NULL l) l x) as (h1 & Hm1 & Hs1 & Hw1); [done..|].
  destruct (seg_set_next h1 (lst Q_NULL l) l x (hd Q_NULL l)) as (h2 & Hm2 & Hs2 & Hw2); [done..|].
  exists h1, h2. pose proof (hd_in Q_NULL l Hl) as Hi1. pose proof (lst_in Q_NULL l Hl) as Hi2.
  assert (within h h2 l) as Hw.
  { eapply within_trans; eapply within_mono; [|exact Hw1| |exact Hw2]; intros y ->%list_elem_of_singleton; done. }
  split_and!; [done..|]. by apply Hw.
Qed.

Lemma lmod_eq h x l f : h !! x = Some l → lmod h x f = Ok (<[x := f l]> h).
Proof. intros Hx. unfold lmod, lget. by rewrite Hx. Qed.

(** An element is linked in at the end. *)
Lemma link_spec h l x lx :
  l ≠ [] → NoDup l → x ∉ l → h !! x = Some lx → cyc h l →
  ∃ h', (lf ← lget h (hd Q_NULL l);
         h ← lmod h x (λ k, set_next k (hd Q_NULL l));
         h ← lmod h x (λ k, set_prev k (l_prev lf));
         h ← lmod h (hd Q_NULL l) (λ k, set_prev k x);
         h ← lmod h (l_prev lf) (λ k, set_next k x);
         Ok (h, hd Q_NULL l)) = Ok (h', hd Q_NULL l) ∧
    cyc h' (l ++ [x]) ∧ within h h' (x :: l).
Proof.
  intros Hl Hnd Hx Hlx Hc. assert (∃ lf, h !! hd Q_NULL l = Some lf ∧ l_prev lf = lst Q_NULL l) as (lf & Hf & Hp).
  { destruct l as [|f l]; [done|]. destruct Hc as [Hf _]. by eexists. }
  unfold lget at 1. rewrite Hf. ostep. rewrite Hp, (lmod_eq _ _ _ _ Hlx). ostep.
  rewrite (lmod_eq _ _ _ _ (lookup_insert_eq _ _ _)). ostep. rewrite insert_insert_eq.
  set (h1 := <[x := set_prev (set_next lx (hd Q_NULL l)) (lst Q_NULL l)]> h).
  assert (within h h1 (x :: l)) as Hw1 by (apply within_insert; by left).
  assert (seg h1 (lst Q_NULL l) l (hd Q_NULL l)) as Hs1.
  { eapply seg_frame; [|exact Hc]. intros y Hy. unfold h1. rewrite lookup_insert_ne; [done|]. by intros ->. }
  destruct (seg_set_prev h1 _ x l _ Hl Hnd Hs1) as (h2 & -> & Hs2 & Hw2). ostep.
  destruct (seg_set_next h2 _ l _ x Hl Hnd Hs2) as (h3 & -> & Hs3 & Hw3). ostep.
  pose proof (hd_in Q_NULL l Hl) as Hi1. pose proof (lst_in Q_NULL l Hl) as Hi2.
  exists h3. split; [done|]. split.
  - unfold cyc. rewrite seg_app, last_snoc, hd_app. simpl. rewrite (hd_default x Q_NULL l), (lst_default x Q_NULL l) by done.
    split; [done|]. split; [|done]. rewrite Hw3, Hw2 by (intros ->%list_elem_of_singleton; done).
    unfold h1. by rewrite lookup_insert_eq.
  - eapply within_trans; [exact Hw1|]. eapply within_trans; eapply within_mono; [|exact Hw2| |exact Hw3];
      intros y ->%list_elem_of_singleton; by right.
Qed.

Lemma ring_snoc h h' q l x :
  ring h q l → x ∉ l → x ≠ Q_NULL → cyc h' (l ++ [x]) → ring h' (hd x l) (l ++ [x]).
Proof.
  intros [Hnd Hn Hb Hc] Hx Hx0 Hc'. split; [| |by rewrite hd_app|done].
  - apply NoDup_app. split_and!; [done| |apply NoDup_singleton]. by intros y Hy ->%list_elem_of_singleton.
  - rewrite elem_of_app, list_elem_of_singleton. naive_solver.
Qed.

(** The links of an element of a ring. *)
Lemma ring_links h q l1 x l2 :
  ring h q (l1 ++ x :: l2) → l2 ++ l1 ≠ [] →
  NoDup (x :: l2 ++ l1) ∧ cyc h (x :: l2 ++ l1) ∧ h !! x = Some (LK (hd Q_NULL (l2 ++ l1)) (lst Q_NULL (l2 ++ l1))) ∧
  hd Q_NULL (l2 ++ l1) ≠ x.
Proof.
  intros [Hnd Hn Hb Hc] Hne. assert (cyc h (x :: l2 ++ l1)) as Hc' by (by apply (cyc_rotate h l1 (x :: l2))).
  assert (NoDup (x :: l2 ++ l1)) as Hnd' by (by rewrite app_comm_cons, (Permutation_app_comm (x :: l2) l1)).
  split_and!; [done..|by apply cyc_cons in Hc' as [? _]|]. apply NoDup_cons in Hnd' as [Hx _]. intros Heq. apply Hx.
  rewrite <-Heq at 1. by apply hd_in.
Qed.

(** [l1 ++ x :: l2] without [x], when the neighbours have been linked. *)
Lemma ring_without h h' q l1 x l2 :
  ring h q (l1 ++ x :: l2) → l2 ++ l1 ≠ [] → cyc h' (l2 ++ l1) →
  ring h' (if q =? x then hd Q_NULL (l2 ++ l1) else q) (l1 ++ l2).
Proof.
  intros [Hnd Hn -> Hc] Hne Hc'. split.
  - rewrite <-Permutation_middle, NoDup_cons in Hnd. by destruct Hnd.
  - rewrite elem_of_app in Hn |- *. rewrite elem_of_cons in Hn. tauto.
  - destruct l1 as [|y l1]; simpl; [by rewrite Z.eqb_refl, app_nil_r|].
    rewrite (proj2 (Z.eqb_neq y x)); [done|]. intros ->. simpl in Hnd. apply NoDup_cons in Hnd as [Hx _].
    apply Hx, elem_of_app. right. by left.
  - by apply cyc_rotate.
Qed.

(** ** What the queues promise

    The operations that threads and messages share, and the laws by which
    they are operations on lists. *)

Class queue_ops := {
  q_enqueue : heap → Z → Z → outcome (heap * Z);
  q_dequeue : heap → Z → outcome (heap * Z * Z);
  q_rmqueue : heap → Z → Z → outcome (heap * Z);
  (** what an element has that is in no queue *)
  q_idle : heap → Z → Prop;
}.

Class queue_laws (Q : queue_ops) := {
  enqueue_law h q l x :
    ring h q l → q_idle h x → x ∉ l → x ≠ Q_NULL →
    ∃ h' q', q_enqueue h q x = Ok (h', q') ∧ ring h' q' (l ++ [x]) ∧ within h h' (x :: l);
  dequeue_law h q l :
    ring h q l →
    ∃ h' q', q_dequeue h q = Ok (h', q', hd Q_NULL l) ∧ ring h' q' (tail l) ∧ within h h' l ∧
      ∀ x, head l = Some x → q_idle h' x;
  rmqueue_law h q l1 x l2 :
    ring h q (l1 ++ x :: l2) →
    ∃ h' q', q_rmqueue h q x = Ok (h', q') ∧ ring h' q' (l1 ++ l2) ∧ within h h' (l1 ++ x :: l2) ∧ q_idle h' x;
  idle_local h h' x : h' !! x = h !! x → q_idle h x → q_idle h' x;
}.

Definition thread_queue : queue_ops := {|
  q_enqueue := ipc_thread_enqueue;
  q_dequeue := ipc_thread_dequeue;
  q_rmqueue := ipc_thread_rmqueue;
  q_idle h x := h !! x = Some (LK x x);
|}.

Definition kmsg_queue : queue_ops := {|
  q_enqueue := ipc_kmsg_enqueue;
  q_dequeue := ipc_kmsg_dequeue;
  q_rmqueue := ipc_kmsg_rmqueue;
  q_idle h x := is_Some (h !! x);
|}.

Lemma ring_empty h : ring h Q_NULL [].
Proof. split; [apply NoDup_nil_2|by intros ?%elem_of_nil|done|done]. Qed.

Lemma ring_single h x : x ≠ Q_NULL → h !! x = Some (LK x x) → ring h x [x].
Proof.
  intros Hx Hl. split; [apply NoDup_singleton|by intros Hn%list_elem_of_singleton|done|by split].
Qed.

Lemma ring_base h q l : ring h q l → (q =? Q_NULL) = bool_decide (l = []).
Proof.
  intros [_ Hn -> _]. destruct l as [|x l]; [done|]. rewrite (bool_decide_false (x :: l = [])) by done. simpl.
  apply Z.eqb_neq. intros ->. apply Hn. by left.
Qed.

Lemma hd_cons_middle d l1 x l2 : hd d (l1 ++ x :: l2) = hd x l1.
Proof. by destruct l1. Qed.

Lemma thread_enqueue_law h q l x :
  ring h q l → h !! x = Some (LK x x) → x ∉ l → x ≠ Q_NULL →
  ∃ h' q', ipc_thread_enqueue h q x = Ok (h', q') ∧ ring h' q' (l ++ [x]) ∧ within h h' (x :: l).
Proof.
  intros Hr Hid Hx Hx0. unfold ipc_thread_enqueue. rewrite (ring_base _ _ _ Hr). case_bool_decide as Hl.
  - subst l. unfold lget. rewrite Hid. ostep. cbn [l_next l_prev]. rewrite Z.eqb_refl. ostep.
    eexists _, _. split; [done|]. split; [by apply ring_single|done].
  - rewrite (ri_base _ _ _ Hr). destruct (link_spec h l x (LK x x)) as (h' & -> & Hc & Hw); [done|apply Hr|done|done|apply Hr|].
    eexists _, _. split; [done|]. split; [|done]. rewrite (hd_default Q_NULL x l) by done. by eapply ring_snoc.
Qed.

Lemma kmsg_enqueue_law h q l x :
  ring h q l → is_Some (h !! x) → x ∉ l → x ≠ Q_NULL →
  ∃ h' q', ipc_kmsg_enqueue h q x = Ok (h', q') ∧ ring h' q' (l ++ [x]) ∧ within h h' (x :: l).
Proof.
  intros Hr [lx Hlx] Hx Hx0. unfold ipc_kmsg_enqueue. rewrite (ring_base _ _ _ Hr). case_bool_decide as Hl.
  - subst l. rewrite (lmod_eq _ _ _ _ Hlx). ostep. rewrite (lmod_eq _ _ _ _ (lookup_insert_eq _ _ _)). ostep.
    rewrite insert_insert_eq. eexists _, _. split; [done|].
    split; [apply ring_single; [done|by rewrite lookup_insert_eq]|apply within_insert; by left].
  - rewrite (ri_base _ _ _ Hr). destruct (link_spec h l x lx) as (h' & -> & Hc & Hw); [done|apply Hr|done|done|apply Hr|].
    eexists _, _. split; [done|]. split; [|done]. rewrite (hd_default Q_NULL x l) by done. by eapply ring_snoc.
Qed.

(** Removal, the part that both kinds share: the links of the neighbours. *)
Lemma remove_spec h q l1 x l2 :
  ring h q (l1 ++ x :: l2) →
  ∃ lx, h !! x = Some lx ∧
    if l_next lx =? x then l1 = [] ∧ l2 = [] ∧ q = x ∧ l_prev lx = x
    else ∃ h1 h2, lmod h (l_next lx) (λ k, set_prev k (l_prev lx)) = Ok h1 ∧
      lmod h1 (l_prev lx) (λ k, set_next k (l_next lx)) = Ok h2 ∧
      within h h2 (l1 ++ x :: l2) ∧ h2 !! x = Some lx ∧
      ∀ v, ring (<[x := v]> h2) (if q =? x then l_next lx else q) (l1 ++ l2).
Proof.
  intros Hr. destruct (decide (l2 ++ l1 = [])) as [[-> ->]%app_nil|Hne].
  { destruct Hr as [_ _ -> [Hx _]]. exists (LK x x). split; [done|]. simpl. by rewrite Z.eqb_refl. }
  destruct (ring_links _ _ _ _ _ Hr Hne) as (Hnd & Hc & Hx & Hnx).
  destruct (unlink_spec h x (l2 ++ l1) Hne Hnd Hc) as (h1 & h2 & Hm1 & Hm2 & Hc2 & Hw & Hx2).
  eexists. split; [done|]. cbn [l_next l_prev]. rewrite (proj2 (Z.eqb_neq _ _) Hnx). exists h1, h2.
  split_and!; [done..| |by rewrite Hx2|].
  - eapply within_mono; [|done]. set_solver.
  - intros v. eapply ring_without; [done..|]. eapply seg_frame; [|exact Hc2]. intros y Hy.
    rewrite lookup_insert_ne; [done|]. intros ->. by apply NoDup_cons in Hnd as [Hnd _].
Qed.

Lemma thread_rmqueue_law h q l1 x l2 :
  ring h q (l1 ++ x :: l2) →
  ∃ h' q', ipc_thread_rmqueue h q x = Ok (h', q') ∧ ring h' q' (l1 ++ l2) ∧
    within h h' (l1 ++ x :: l2) ∧ h' !! x = Some (LK x x).
Proof.
  intros Hr. destruct (remove_spec _ _ _ _ _ Hr) as (lx & Hx & Hrest). unfold ipc_thread_rmqueue.
  rewrite (ring_base _ _ _ Hr), bool_decide_false by (by destruct l1). ostep. unfold lget. rewrite Hx. ostep.
  destruct (l_next lx =? x) eqn:Hn.
  - destruct Hrest as (-> & -> & -> & Hp). rewrite Hp, Z.eqb_refl. ostep. eexists _, _. split; [done|].
    split_and!; [apply ring_empty|done|]. destruct lx. simpl in *. apply Z.eqb_eq in Hn. by subst.
  - destruct Hrest as (h1 & h2 & -> & Hm2 & Hw & Hx2 & Hring). ostep. rewrite Hm2. ostep. unfold ipc_thread_links_init.
    rewrite (lmod_eq _ _ _ _ Hx2). ostep. eexists _, _. split; [done|]. split_and!; [apply Hring| |apply lookup_insert_eq].
    eapply within_trans; [done|]. apply within_insert. set_solver.
Qed.

Lemma kmsg_unlinked_spec h x lx :
  h !! x = Some lx → kmsg_unlinked h x = Ok (<[x := LK IKM_BOGUS IKM_BOGUS]> h).
Proof.
  intros Hx. unfold kmsg_unlinked. rewrite (lmod_eq _ _ _ _ Hx). ostep.
  by rewrite (lmod_eq _ _ _ _ (lookup_insert_eq _ _ _)), insert_insert_eq.
Qed.

Lemma kmsg_rmqueue_law h q l1 x l2 :
  ring h q (l1 ++ x :: l2) →
  ∃ h' q', ipc_kmsg_rmqueue h q x = Ok (h', q') ∧ ring h' q' (l1 ++ l2) ∧
    within h h' (l1 ++ x :: l2) ∧ is_Some (h' !! x).
Proof.
  intros Hr. destruct (remove_spec _ _ _ _ _ Hr) as (lx & Hx & Hrest). unfold ipc_kmsg_rmqueue.
  rewrite (ring_base _ _ _ Hr), bool_decide_false by (by destruct l1). ostep. unfold lget. rewrite Hx. ostep.
  destruct (l_next lx =? x) eqn:Hn.
  - destruct Hrest as (-> & -> & -> & Hp). rewrite Hp, Z.eqb_refl. ostep. rewrite (kmsg_unlinked_spec _ _ _ Hx). ostep.
    eexists _, _. split; [done|]. split_and!; [apply ring_empty|apply within_insert; by left|]. by rewrite lookup_insert_eq.
  - destruct Hrest as (h1 & h2 & -> & Hm2 & Hw & Hx2 & Hring). ostep. rewrite Hm2. ostep.
    rewrite (kmsg_unlinked_spec _ _ _ Hx2). ostep. eexists _, _. split; [done|].
    split_and!; [apply Hring| |by rewrite lookup_insert_eq].
    eapply within_trans; [done|]. apply within_insert. set_solver.
Qed.

(** The first element is removed as any other one is. *)
Lemma thread_rmqueue_first_eq h q x : q = x → x ≠ Q_NULL → ipc_thread_rmqueue_first h q x = ipc_thread_rmqueue h q x.
Proof.
  intros -> Hx. unfold ipc_thread_rmqueue_first, ipc_thread_rmqueue. rewrite (proj2 (Z.eqb_neq x Q_NULL) Hx), Z.eqb_refl. ostep.
  destruct (lget h x) as [l|]; [|done]. ostep. destruct (l_next l =? x); [|done]. by destruct (l_prev l =? x).
Qed.

Lemma kmsg_rmqueue_first_eq h q x : q = x → x ≠ Q_NULL → ipc_kmsg_rmqueue_first h q x = ipc_kmsg_rmqueue h q x.
Proof.
  intros -> Hx. unfold ipc_kmsg_rmqueue_first, ipc_kmsg_rmqueue. rewrite (proj2 (Z.eqb_neq x Q_NULL) Hx), Z.eqb_refl. ostep.
  destruct (lget h x) as [l|]; [|done]. ostep. destruct (l_next l =? x); [|done]. by destruct (l_prev l =? x).
Qed.

Lemma ring_first h q x l : ring h q (x :: l) → q = x ∧ x ≠ Q_NULL.
Proof. intros [_ Hn -> _]. split; [done|]. intros ->. apply Hn. by left. Qed.

#[export] Instance thread_queue_laws : queue_laws thread_queue.
Proof.
  split.
  - apply thread_enqueue_law.
  - intros h q l Hr. simpl. unfold ipc_thread_dequeue. rewrite (ring_base _ _ _ Hr). destruct l as [|x l].
    { rewrite (ri_base _ _ _ Hr). eexists _, _. by split_and!; [|apply ring_empty|..]. }
    rewrite bool_decide_false by done. ostep. destruct (ring_first _ _ _ _ Hr) as [Hq Hx].
    rewrite thread_rmqueue_first_eq by (done || congruence). rewrite Hq in Hr |- *.
    destruct (thread_rmqueue_law _ _ [] x l Hr) as (h' & q' & -> & Hr' & Hw & Hid). ostep.
    eexists _, _. split; [done|]. split_and!; [done..|]. by intros ? [= <-].
  - apply thread_rmqueue_law.
  - simpl. intros h h' x ->. done.
Qed.

#[export] Instance kmsg_queue_laws : queue_laws kmsg_queue.
Proof.
  split.
  - apply kmsg_enqueue_law.
  - intros h q l Hr. simpl. unfold ipc_kmsg_dequeue. rewrite (ring_base _ _ _ Hr). destruct l as [|x l].
    { rewrite (ri_base _ _ _ Hr). eexists _, _. by split_and!; [|apply ring_empty|..]. }
    rewrite bool_decide_false by done. ostep. destruct (ring_first _ _ _ _ Hr) as [Hq Hx].
    rewrite kmsg_rmqueue_first_eq by (done || congruence). rewrite Hq in Hr |- *.
    destruct (kmsg_rmqueue_law _ _ [] x l Hr) as (h' & q' & -> & Hr' & Hw & Hid). ostep.
    eexists _, _. split; [done|]. split_and!; [done..|]. by intros ? [= <-].
  - apply kmsg_rmqueue_law.
  - simpl. intros h h' x ->. done.
Qed.

(** ** Looking through a queue *)

Lemma inqueue_loop_spec fuel h base x p l :
  (length l < fuel)%nat → base ∉ l → seg h p l base →
  inqueue_loop fuel h base x (hd base l) = Ok (bool_decide (x ∈ l)).
Proof.
  revert p fuel. induction l as [|y l IH]; intros p [|fuel] Hf Hb Hs; simpl in *; try lia.
  - by rewrite Z.eqb_refl.
  - apply not_elem_of_cons in Hb as [Hby Hb]. destruct Hs as [Hy Hs]. rewrite (proj2 (Z.eqb_neq y base)) by done.
    destruct (Z.eqb_spec y x) as [->|Hne]; [by rewrite bool_decide_true by left|].
    unfold lget. rewrite Hy. ostep. simpl. rewrite (IH y) by (done || lia). f_equal. apply bool_decide_ext. set_solver.
Qed.

Lemma inqueue_spec fuel h q l x :
  ring h q l → (length l < fuel)%nat → ipc_thread_inqueue fuel h q x = Ok (bool_decide (x ∈ l)).
Proof.
  intros Hr Hf. unfold ipc_thread_inqueue. rewrite (ring_base _ _ _ Hr). destruct l as [|y l]; [done|].
  rewrite bool_decide_false by done. destruct (ring_first _ _ _ _ Hr) as [-> Hy0].
  destruct (Z.eqb_spec y x) as [->|Hne]; [by rewrite bool_decide_true by left|].
  destruct Hr as [[Hyl _]%NoDup_cons _ _ [Hy Hs]]. unfold lget. rewrite Hy. ostep. simpl in *.
  rewrite (inqueue_loop_spec _ _ _ _ y) by (done || lia). f_equal. apply bool_decide_ext. set_solver.
Qed.

Lemma queue_next_spec h q l1 x l2 :
  ring h q (l1 ++ x :: l2) → ipc_kmsg_queue_next h q x = Ok (hd Q_NULL l2).
Proof.
  intros Hr. unfold ipc_kmsg_queue_next. rewrite (ring_base _ _ _ Hr), bool_decide_false by (by destruct l1). ostep.
  destruct Hr as [Hnd Hn -> Hc]. unfold cyc in Hc. apply seg_app in Hc as [_ [Hx _]]. unfold lget. rewrite Hx. ostep.
  rewrite hd_app. cbn [l_next]. destruct l2 as [|y l2]; simpl; [by rewrite Z.eqb_refl|].
  rewrite (proj2 (Z.eqb_neq _ _)); [done|]. intros Heq. apply NoDup_app in Hnd as (_ & Hd & Hnd).
  apply NoDup_cons in Hnd as [Hxl Hnd]. destruct l1 as [|z l1]; simpl in Heq.
  - apply Hxl. rewrite Heq. by left.
  - apply (Hd z); [by left|]. rewrite Heq. right. by left.
Qed.

(** ** Many queues over the same elements

    Threads and messages move between queues.  The operations of the code on
    a heap and the bases of queues refine operations on lists. *)

Section queues.
Context {Q : queue_ops} {L : queue_laws Q}.

Inductive queue_op :=
  | Enqueue (k x : Z)
  | Dequeue (k : Z)
  | Remove (k x : Z).

Abbreviation bases := (gmap Z Z) (only parsing).
Abbreviation lists := (gmap Z (list Z)) (only parsing).

(** The code: the element dequeued is the result. *)
Definition run_op (h : heap) (qs : bases) (o : queue_op) : outcome (heap * bases * Z) :=
  match o with
  | Enqueue k x => q ← deref (qs !! k); '(h, q) ← q_enqueue h q x; Ok (h, <[k := q]> qs, Q_NULL)
  | Dequeue k => q ← deref (qs !! k); '(h, q, x) ← q_dequeue h q; Ok (h, <[k := q]> qs, x)
  | Remove k x => q ← deref (qs !! k); '(h, q) ← q_rmqueue h q x; Ok (h, <[k := q]> qs, Q_NULL)
  end.

Fixpoint run_ops (h : heap) (qs : bases) (os : list queue_op) : outcome (heap * bases * list Z) :=
  match os with
  | [] => Ok (h, qs, [])
  | o :: os' =>
    '(h, qs, r) ← run_op h qs o;
    '(h, qs, rs) ← run_ops h qs os';
    Ok (h, qs, r :: rs)
  end.

Definition queued (A : lists) (x : Z) : Prop := map_Exists (λ _ l, x ∈ l) A.

(** The lists; [None] if the operation is not allowed: what is enqueued
    among the elements [U] must be in no queue, and what is removed in the
    queue it is removed from. *)
Definition list_op (U : list Z) (A : lists) (o : queue_op) : option (lists * Z) :=
  match o with
  | Enqueue k x =>
    if decide (x ∈ U ∧ x ≠ Q_NULL ∧ ¬ queued A x) then l ← A !! k; Some (<[k := l ++ [x]]> A, Q_NULL) else None
  | Dequeue k => l ← A !! k; Some (<[k := tail l]> A, hd Q_NULL l)
  | Remove k x => l ← A !! k; if decide (x ∈ (l : list Z)) then Some (<[k := filter (λ y, y ≠ x) l]> A, Q_NULL) else None
  end.

Fixpoint list_ops (U : list Z) (A : lists) (os : list queue_op) : option (lists * list Z) :=
  match os with
  | [] => Some (A, [])
  | o :: os' =>
    '(A, r) ← list_op U A o;
    '(A, rs) ← list_ops U A os';
    Some (A, r :: rs)
  end.

(** The queues have the lists [A], the rest of [U] is idle. *)
Record represents (U : list Z) (h : heap) (qs : bases) (A : lists) : Prop := {
  re_rings k l : A !! k = Some l → ∃ q, qs !! k = Some q ∧ ring h q l ∧ l ⊆ U;
  re_apart k k' l l' x : A !! k = Some l → A !! k' = Some l' → x ∈ l → x ∈ l' → k = k';
  re_idle x : x ∈ U → ¬ queued A x → q_idle h x;
}.

(** One queue changes: [e] are new elements. *)
Lemma represents_update U h h' qs A k l q' l' e :
  represents U h qs A → A !! k = Some l → ring h' q' l' → within h h' (e ++ l) → l' ⊆ e ++ l →
  (∀ y, y ∈ e → y ∈ U ∧ ¬ queued A y) → (∀ y, y ∈ e ++ l → y ∉ l' → q_idle h' y) →
  represents U h' (<[k := q']> qs) (<[k := l']> A).
Proof.
  intros [Hr Ha Hid] Hk Hr' Hw Hsub He Hout. destruct (Hr k l Hk) as (q & Hq & Hrq & HlU).
  assert (∀ k1 l1 y, k1 ≠ k → A !! k1 = Some l1 → y ∈ l1 → y ∉ e ++ l) as Hother.
  { intros k1 l1 y Hne Hk1 Hy [Hy1|Hy1]%elem_of_app; [|by apply Hne, (Ha k1 k l1 l y)].
    apply (proj2 (He y Hy1)). by exists k1, l1. }
  split.
  - intros k1 l1. destruct (decide (k1 = k)) as [->|Hne].
    + rewrite lookup_insert_eq. intros [= <-]. exists q'. rewrite lookup_insert_eq. split_and!; [done..|].
      intros y [Hy|Hy]%Hsub%elem_of_app; [by apply He|by apply HlU].
    + rewrite lookup_insert_ne by done. intros Hk1. destruct (Hr k1 l1 Hk1) as (q1 & Hq1 & [Hnd Hn Hb Hc] & HU).
      exists q1. rewrite lookup_insert_ne by done. split_and!; [done| |done]. split; [done..|].
      eapply seg_frame; [|done]. intros y Hy. apply Hw. by eapply Hother.
  - intros k1 k2 l1 l2 y. destruct (decide (k1 = k)) as [->|H1], (decide (k2 = k)) as [->|H2]; [done|..];
      rewrite ?lookup_insert_eq, ?lookup_insert_ne by done.
    + intros [= <-] Hk2 Hy Hy2. exfalso. by eapply (Hother k2 l2 y); [..|apply Hsub].
    + intros Hk1 [= <-] Hy Hy2. exfalso. by eapply (Hother k1 l1 y); [..|apply Hsub].
    + apply Ha.
  - intros x HxU Hnq. assert (x ∉ l') as Hxl.
    { intros Hx. apply Hnq. exists k, l'. by rewrite lookup_insert_eq. }
    destruct (decide (x ∈ e ++ l)) as [Hx|Hx]; [by apply Hout|]. eapply idle_local; [by apply Hw|]. apply Hid; [done|].
    intros (k1 & l1 & Hk1 & Hx1). apply Hnq. destruct (decide (k1 = k)) as [->|Hne].
    + exfalso. apply Hx, elem_of_app. right. congruence.
    + exists k1, l1. by rewrite lookup_insert_ne.
Qed.

Lemma filter_other (l : list Z) x : x ∉ l → filter (λ y, y ≠ x) l = l.
Proof.
  induction l as [|y l IH]; [done|]. intros [Hy Hl]%not_elem_of_cons. by rewrite filter_cons_True, IH by done.
Qed.

Lemma filter_middle (l1 l2 : list Z) x :
  NoDup (l1 ++ x :: l2) → filter (λ y, y ≠ x) (l1 ++ x :: l2) = l1 ++ l2.
Proof.
  intros Hnd. rewrite filter_app, filter_cons_False by naive_solver.
  apply NoDup_app in Hnd as (_ & Hd & [Hx _]%NoDup_cons). rewrite !filter_other; [done..|].
  intros Hy. by apply (Hd x Hy); left.
Qed.

Lemma op_refines U h qs A o A' r :
  represents U h qs A → list_op U A o = Some (A', r) →
  ∃ h' qs', run_op h qs o = Ok (h', qs', r) ∧ represents U h' qs' A'.
Proof.
  intros Hre Ho. destruct o as [k x|k|k x]; simpl in *.
  - case_decide as Hleg; [|done]. destruct Hleg as (HxU & Hx0 & Hnq).
    destruct (A !! k) as [l|] eqn:Hk; [|done]. injection Ho as <- <-.
    destruct (re_rings _ _ _ _ Hre k l Hk) as (q & -> & Hr & HU). ostep.
    assert (x ∉ l) as Hxl by (intros Hx; apply Hnq; by exists k, l).
    destruct (enqueue_law h q l x) as (h' & q' & -> & Hr' & Hw); [done|by eapply re_idle|done..|]. ostep.
    eexists _, _. split; [done|]. eapply (represents_update _ _ _ _ _ _ l _ _ [x]); try done.
    + intros y. rewrite !elem_of_app, list_elem_of_singleton. tauto.
    + by intros y ->%list_elem_of_singleton.
    + intros y Hy Hny. exfalso. apply Hny. rewrite elem_of_app in Hy |- *. tauto.
  - destruct (A !! k) as [l|] eqn:Hk; [|done]. injection Ho as <- <-.
    destruct (re_rings _ _ _ _ Hre k l Hk) as (q & -> & Hr & HU). ostep.
    destruct (dequeue_law h q l Hr) as (h' & q' & -> & Hr' & Hw & Hid). ostep. eexists _, _. split; [done|].
    eapply (represents_update _ _ _ _ _ _ l _ _ []); try done.
    + destruct l; [done|]. intros y Hy. by right.
    + by intros y ?%elem_of_nil.
    + destruct l as [|z l]; [by intros y ?%elem_of_nil|]. simpl. intros y [->|Hy]%elem_of_cons Hny; [by apply Hid|done].
  - destruct (A !! k) as [l|] eqn:Hk; [|done]. simpl in Ho. case_decide as Hx; [|done]. injection Ho as <- <-.
    destruct (re_rings _ _ _ _ Hre k l Hk) as (q & -> & Hr & HU). ostep.
    apply list_elem_of_split in Hx as (l1 & l2 & ->). rewrite filter_middle by apply Hr.
    destruct (rmqueue_law h q l1 x l2 Hr) as (h' & q' & -> & Hr' & Hw & Hid). ostep. eexists _, _. split; [done|].
    eapply (represents_update _ _ _ _ _ _ (l1 ++ x :: l2) _ _ []); try done.
    + simpl. intros y. rewrite !elem_of_app, elem_of_cons. tauto.
    + by intros y ?%elem_of_nil.
    + simpl. intros y. rewrite !elem_of_app, elem_of_cons. intros [?|[->|?]] Hny; [tauto|done|tauto].
Qed.

Lemma ops_refine U h qs A os A' rs :
  represents U h qs A → list_ops U A os = Some (A', rs) →
  ∃ h' qs', run_ops h qs os = Ok (h', qs', rs) ∧ represents U h' qs' A'.
Proof.
  revert h qs A rs. induction os as [|o os IH]; intros h qs A rs Hre Hos; simpl in *.
  { injection Hos as <- <-. by eexists _, _. }
  destruct (list_op U A o) as [[A1 r]|] eqn:Ho; [|done]. simpl in Hos.
  destruct (op_refines _ _ _ _ _ _ _ Hre Ho) as (h1 & qs1 & -> & Hre1). ostep.
  destruct (list_ops U A1 os) as [[A2 rs2]|] eqn:Hos2; [|done]. simpl in Hos. injection Hos as <- <-.
  destruct (IH _ _ _ _ Hre1 Hos2) as (h2 & qs2 & -> & Hre2). ostep. by eexists _, _.
Qed.
End queues.

(** ** The theorems *)

(** C13. The circular doubly linked queues of threads refine lists: any
    sequence of enqueue, dequeue and removal from the middle on several
    queues that share the threads gives the same threads as on lists, each
    queue stays a ring of exactly its threads, and the membership test
    answers membership. *)
Theorem thread_queues_correct U h qs A os A' rs :
  represents (Q := thread_queue) U h qs A → list_ops U A os = Some (A', rs) →
  ∃ h' qs', run_ops (Q := thread_queue) h qs os = Ok (h', qs', rs) ∧ represents (Q := thread_queue) U h' qs' A' ∧
    ∀ k q l x, qs' !! k = Some q → A' !! k = Some l →
      ipc_thread_inqueue (S (length U)) h' q x = Ok (bool_decide (x ∈ l)).
Proof.
  intros Hre Hos. destruct (ops_refine _ _ _ _ _ _ _ Hre Hos) as (h' & qs' & Hrun & Hre').
  eexists _, _. split_and!; [done..|]. intros k q l x Hq Hl.
  destruct (re_rings _ _ _ _ Hre' k l Hl) as (q' & Hq' & Hr & HU). assert (q' = q) as -> by congruence.
  apply inqueue_spec; [done|]. apply le_n_S, submseteq_length, NoDup_submseteq; [apply Hr|done].
Qed.

Theorem kmsg_queues_correct U h qs A os A' rs :
  represents (Q := kmsg_queue) U h qs A → list_ops U A os = Some (A', rs) →
  ∃ h' qs', run_ops (Q := kmsg_queue) h qs os = Ok (h', qs', rs) ∧ represents (Q := kmsg_queue) U h' qs' A' ∧
    ∀ k q l1 x l2, qs' !! k = Some q → A' !! k = Some (l1 ++ x :: l2) →
      ipc_kmsg_queue_next h' q x = Ok (hd Q_NULL l2).
Proof.
  intros Hre Hos. destruct (ops_refine _ _ _ _ _ _ _ Hre Hos) as (h' & qs' & Hrun & Hre').
  eexists _, _. split_and!; [done..|]. intros k q l1 x l2 Hq Hl.
  destruct (re_rings _ _ _ _ Hre' k _ Hl) as (q' & Hq' & Hr & HU). assert (q' = q) as -> by congruence.
  by eapply queue_next_spec.
Qed.
