(* ===== verification/IpcSplay.v ===== *)
(** * Splay trees of translation entries (ipc/ipc_splay.c)

    A tree is kept unassembled: a middle tree [ist_root], and a left and a
    right tree with one uninitialised child field each, to which
    [ist_ltreep] and [ist_rtreep] point.  A tree with such a hole is a list
    of the frames on its spine, innermost first: the pair
    ([ist_ltree], [ist_ltreep]) is a [list lframe], a store through
    [ist_ltreep] fills the hole.  A node carries a payload of type [V], the
    tree entry it stands for. *)

From stdpp Require Import prelude list gmap sorting.
From S2P Require Import Prelude MachPort.

Definition MACH_PORT_SMALLEST : Z := 0.
Definition MACH_PORT_LARGEST : Z := 2 ^ 32 - 1.

Section splay.
Context {V : Type}.

(** ** Data *)

Inductive ite :=
  | ITE_NULL
  | ITE (ite_lchild : ite) (ite_name : Z) (ite_entry : V) (ite_rchild : ite).

(** A node of the left tree whose [rchild] field is the hole (or holds the
    next frame), and dually for the right tree. *)
Record lframe := LF { lf_lchild : ite; lf_name : Z; lf_entry : V }.
Record rframe := RF { rf_name : Z; rf_entry : V; rf_rchild : ite }.

Record ipc_splay_tree := IST {
  ist_name : Z;
  ist_root : ite;
  ist_ltree : list lframe;
  ist_rtree : list rframe;
}.

(** A node whose [lchild] ([rchild]) field is reversed to point to the
    parent during a traversal. *)
Inductive pframe :=
  | PL (n : Z) (e : V) (rchild : ite)
  | PR (lchild : ite) (n : Z) (e : V).

(** Where a traversal stands: at an entry (in [ist_ltree], with its chain of
    reversed parents in [ist_rtree]), or finished with the root restored. *)
Inductive traversal :=
  | TEntry (current : ite) (parent : list pframe)
  | TDone (root : ite).

Definition is_null (t : ite) : bool :=
  match t with ITE_NULL => true | ITE _ _ _ _ => false end.

(** [*ltreep = t], read back through [ltree]; dually for [rtreep]. *)
Fixpoint store_ltreep (lt : list lframe) (t : ite) : ite :=
  match lt with
  | [] => t
  | LF l n e :: lt' => store_ltreep lt' (ITE l n e t)
  end.

Fixpoint store_rtreep (rt : list rframe) (t : ite) : ite :=
  match rt with
  | [] => t
  | RF n e r :: rt' => store_rtreep rt' (ITE t n e r)
  end.

(** ** Operations *)

(** The [while] loop.  A rotation followed by a link moves past two nodes;
    the recursion is on the child or grandchild the loop continues with. *)
Fixpoint splay_loop (name : Z) (tree : ite) (lt : list lframe) (rt : list rframe) :
    ite * list lframe * list rframe :=
  match tree with
  | ITE_NULL => (ITE_NULL, lt, rt)
  | ITE l tname e r =>
    if name =? tname then (tree, lt, rt)
    else if name <? tname then
      match l with
      | ITE_NULL => (tree, lt, rt)
      | ITE ll lname le lr =>
        if (name <? lname) && negb (is_null ll) then
          (* rotate_right; link_right *)
          splay_loop name ll lt (RF lname le (ITE lr tname e r) :: rt)
        else if (lname <? name) && negb (is_null lr) then
          (* link_right; link_left *)
          splay_loop name lr (LF ll lname le :: lt) (RF tname e r :: rt)
        else
          (* link_right *)
          splay_loop name l lt (RF tname e r :: rt)
      end
    else
      match r with
      | ITE_NULL => (tree, lt, rt)
      | ITE rl rname re rr =>
        if (rname <? name) && negb (is_null rr) then
          (* rotate_left; link_left *)
          splay_loop name rr (LF (ITE l tname e rl) rname re :: lt) rt
        else if (name <? rname) && negb (is_null rl) then
          (* link_left; link_right *)
          splay_loop name rl (LF l tname e :: lt) (RF rname re rr :: rt)
        else
          (* link_left *)
          splay_loop name r (LF l tname e :: lt) rt
      end
  end.

Definition ipc_splay_prim_lookup (name : Z) (tree : ite) :
    outcome (ite * list lframe * list rframe) :=
  kassert (negb (is_null tree));;
  Ok (splay_loop name tree [] []).

Definition ipc_splay_prim_assemble (tree : ite) (lt : list lframe) (rt : list rframe) :
    outcome ite :=
  match tree with
  | ITE_NULL => Fault FAssert
  | ITE l n e r => Ok (ITE (store_ltreep lt l) n e (store_rtreep rt r))
  end.

Definition ipc_splay_tree_init (splay : ipc_splay_tree) : ipc_splay_tree :=
  IST (ist_name splay) ITE_NULL (ist_ltree splay) (ist_rtree splay).

Definition ipc_splay_tree_pick (splay : ipc_splay_tree) : option (Z * V) :=
  match ist_root splay with
  | ITE_NULL => None
  | ITE _ n e _ => Some (n, e)
  end.

(** The re-splay every operation starts with: assemble and look [name] up,
    unless the last lookup was of the same name. *)
Definition resplay (splay : ipc_splay_tree) (name : Z) :
    outcome (ite * list lframe * list rframe) :=
  if ist_name splay =? name then Ok (ist_root splay, ist_ltree splay, ist_rtree splay)
  else
    root ← ipc_splay_prim_assemble (ist_root splay) (ist_ltree splay) (ist_rtree splay);
    ipc_splay_prim_lookup name root.

Definition ipc_splay_tree_lookup (splay : ipc_splay_tree) (name : Z) :
    outcome (ipc_splay_tree * option V) :=
  if is_null (ist_root splay) then Ok (splay, None)
  else
    '(root, lt, rt) ← resplay splay name;
    match root with
    | ITE_NULL => Fault FDeref
    | ITE _ n e _ =>
      Ok (IST name root lt rt, if name =? n then Some e else None)
    end.

Definition ipc_splay_tree_insert (splay : ipc_splay_tree) (name : Z) (entry : V) :
    outcome ipc_splay_tree :=
  if is_null (ist_root splay) then
    Ok (IST name (ITE ITE_NULL name entry ITE_NULL) [] [])
  else
    '(root, lt, rt) ← resplay splay name;
    match root with
    | ITE_NULL => Fault FDeref
    | ITE l n e r =>
      kassert (negb (n =? name));;
      if name <? n then
        kassert (is_null l);;
        Ok (IST name (ITE (store_ltreep lt ITE_NULL) name entry (store_rtreep rt root)) [] [])
      else
        kassert (is_null r);;
        Ok (IST name (ITE (store_ltreep lt root) name entry (store_rtreep rt ITE_NULL)) [] [])
    end.

(** A tree stored whole into a splay structure. *)
Definition ist_of_root (stale : Z) (root : ite) : ipc_splay_tree :=
  match root with
  | ITE_NULL => IST stale ITE_NULL [] []
  | ITE _ rname _ _ => IST rname root [] []
  end.

(** The removed entry is returned; the caller asserts it is the one given. *)
Definition ipc_splay_tree_delete (splay : ipc_splay_tree) (name : Z) :
    outcome (ipc_splay_tree * V) :=
  kassert (negb (is_null (ist_root splay)));;
  '(root, lt, rt) ← resplay splay name;
  match root with
  | ITE_NULL => Fault FDeref
  | ITE l n e r =>
    kassert (n =? name);;
    let root := store_ltreep lt l in
    let saved := store_rtreep rt r in
    root ←
      (if is_null root then Ok saved
       else if negb (is_null saved) then
         '(root, lt, rt) ← ipc_splay_prim_lookup MACH_PORT_LARGEST root;
         root ← ipc_splay_prim_assemble root lt rt;
         match root with
         | ITE_NULL => Fault FDeref
         | ITE l n e r =>
           kassert (is_null r);;
           Ok (ITE l n e saved)
         end
       else Ok root);
    Ok (ist_of_root (ist_name splay) root, e)
  end.

(** Returns the tree that keeps the large entries and the new tree [small]. *)
Definition ipc_splay_tree_split (splay : ipc_splay_tree) (name : Z) :
    outcome (ipc_splay_tree * ipc_splay_tree) :=
  if is_null (ist_root splay) then Ok (splay, IST 0 ITE_NULL [] [])
  else
    '(root, lt, rt) ← resplay splay name;
    match root with
    | ITE_NULL => Fault FDeref
    | ITE l n e r =>
      if n <? name then
        kassert (is_null r);;
        let small := IST n (ITE (store_ltreep lt l) n e r) [] [] in
        Ok (ist_of_root (ist_name splay) (store_rtreep rt ITE_NULL), small)
      else
        Ok (IST name (ITE ITE_NULL n e r) [] rt, ist_of_root 0 (store_ltreep lt l))
    end.

(** Returns [splay] and the emptied [small]. *)
Definition ipc_splay_tree_join (splay small : ipc_splay_tree) :
    outcome (ipc_splay_tree * ipc_splay_tree) :=
  if is_null (ist_root small) then Ok (splay, small)
  else
    sroot ← ipc_splay_prim_assemble (ist_root small) (ist_ltree small) (ist_rtree small);
    let small := ipc_splay_tree_init small in
    root ←
      (if is_null (ist_root splay) then Ok sroot
       else
         '(root, lt, rt) ← resplay splay MACH_PORT_SMALLEST;
         root ← ipc_splay_prim_assemble root lt rt;
         match root, sroot with
         | ITE l n e r, ITE _ sn _ _ =>
           kassert (is_null l);;
           kassert (sn <? n);;
           Ok (ITE sroot n e r)
         | _, _ => Fault FDeref
         end);
    match root with
    | ITE_NULL => Fault FDeref
    | ITE _ rname _ _ => Ok (IST rname root [] [], small)
    end.

(** Returns the tree, [*lowerp] and [*upperp].  The entry [ist_ltreep]
    points into is the innermost frame of the left tree. *)
Definition ipc_splay_tree_bounds (splay : ipc_splay_tree) (name : Z) :
    outcome (ipc_splay_tree * Z * Z) :=
  if is_null (ist_root splay) then Ok (splay, MACH_PORT_LARGEST, MACH_PORT_SMALLEST)
  else
    '(root, lt, rt) ← resplay splay name;
    match root with
    | ITE_NULL => Fault FDeref
    | ITE _ rname _ _ =>
      let lower :=
        if rname <=? name then rname
        else match lt with [] => MACH_PORT_LARGEST | LF _ n _ :: _ => n end in
      let upper :=
        if name <=? rname then rname
        else match rt with [] => MACH_PORT_SMALLEST | RF n _ _ :: _ => n end in
      Ok (IST name root lt rt, lower, upper)
    end.

(** *** Traversal by pointer reversal *)

Fixpoint traverse_left (current : ite) (parent : list pframe) : outcome traversal :=
  match current with
  | ITE_NULL => Fault FDeref
  | ITE l n e r =>
    if is_null l then Ok (TEntry current parent)
    else traverse_left l (PL n e r :: parent)
  end.

(** The reversed field of the parent is chosen by comparing names; taking
    the field that is not reversed would follow a child as if it were a
    parent. *)
Fixpoint traverse_back (current : ite) (parent : list pframe) : outcome traversal :=
  match parent with
  | [] => Ok (TDone current)
  | p :: parent' =>
    match current, p with
    | ITE_NULL, _ => Fault FDeref
    | ITE _ cname _ _, PL n e r =>
      if cname <? n then Ok (TEntry (ITE current n e r) parent') else Fault FDeref
    | ITE _ cname _ _, PR l n e =>
      if cname <? n then Fault FDeref else traverse_back (ITE l n e current) parent'
    end
  end.

Definition traverse_right (current : ite) (parent : list pframe) : outcome traversal :=
  match current with
  | ITE_NULL => Fault FDeref
  | ITE l n e r =>
    if is_null r then traverse_back current parent
    else traverse_left r (PR l n e :: parent)
  end.

Definition ipc_splay_traverse_start (splay : ipc_splay_tree) : outcome traversal :=
  if is_null (ist_root splay) then Ok (TDone ITE_NULL)
  else
    current ← ipc_splay_prim_assemble (ist_root splay) (ist_ltree splay) (ist_rtree splay);
    traverse_left current [].

Definition ipc_splay_traverse_next (current : ite) (parent : list pframe) (delete : bool) :
    outcome traversal :=
  match current with
  | ITE_NULL => Fault FAssert
  | ITE l n e r =>
    if negb delete then traverse_right current parent
    else if is_null l then
      if is_null r then
        match parent with
        | [] => Ok (TDone ITE_NULL)
        | PL pn pe pr :: parent' =>
          if n <? pn then Ok (TEntry (ITE ITE_NULL pn pe pr) parent') else Fault FDeref
        | PR pl pn pe :: parent' =>
          if n <? pn then Fault FDeref else traverse_back (ITE pl pn pe ITE_NULL) parent'
        end
      else traverse_left r parent
    else if is_null r then traverse_back l parent
    else
      '(current, lt, rt) ← ipc_splay_prim_lookup MACH_PORT_LARGEST l;
      current ← ipc_splay_prim_assemble current lt rt;
      match current with
      | ITE_NULL => Fault FDeref
      | ITE cl cn ce cr =>
        kassert (is_null cr);;
        traverse_right (ITE cl cn ce r) parent
      end
  end.

Definition ipc_splay_traverse_finish (stale : Z) (root : ite) : ipc_splay_tree :=
  ist_of_root stale root.

(** The loop of the usage comment: [body] handles an entry and says whether
    it is to be deleted. *)
Fixpoint traverse_loop {St : Type} (fuel : nat) (body : St → Z → V → outcome (St * bool))
    (st : St) (t : traversal) : outcome (St * ite) :=
  match t with
  | TDone root => Ok (st, root)
  | TEntry current parent =>
    match fuel, current with
    | O, _ => Fault FLoop
    | _, ITE_NULL => Fault FDeref
    | S fuel', ITE _ n e _ =>
      '(st, delete) ← body st n e;
      t ← ipc_splay_traverse_next current parent delete;
      traverse_loop fuel' body st t
    end
  end.

Definition splay_traverse {St : Type} (fuel : nat) (body : St → Z → V → outcome (St * bool))
    (st : St) (splay : ipc_splay_tree) : outcome (St * ipc_splay_tree) :=
  t ← ipc_splay_traverse_start splay;
  '(st, root) ← traverse_loop fuel body st t;
  Ok (st, ipc_splay_traverse_finish (ist_name splay) root).
End splay.

Arguments ite V : clear implicits.
Arguments lframe V : clear implicits.
Arguments rframe V : clear implicits.
Arguments pframe V : clear implicits.
Arguments traversal V : clear implicits.
Arguments ipc_splay_tree V : clear implicits.

(** ** Facts *)

Section splay_facts.
Context {V : Type}.
Implicit Types t : ite V.
Implicit Types s : ipc_splay_tree V.

Fixpoint inorder (t : ite V) : list (Z * V) :=
  match t with
  | ITE_NULL => []
  | ITE l n e r => inorder l ++ (n, e) :: inorder r
  end.

Fixpoint lelems (lt : list (lframe V)) : list (Z * V) :=
  match lt with
  | [] => []
  | LF l n e :: lt' => lelems lt' ++ inorder l ++ [(n, e)]
  end.

Fixpoint relems (rt : list (rframe V)) : list (Z * V) :=
  match rt with
  | [] => []
  | RF n e r :: rt' => (n, e) :: inorder r ++ relems rt'
  end.

(** The entries a splay structure holds, in the order of their names. *)
Definition elems (s : ipc_splay_tree V) : list (Z * V) :=
  match ist_root s with
  | ITE_NULL => []
  | ITE _ _ _ _ => lelems (ist_ltree s) ++ inorder (ist_root s) ++ relems (ist_rtree s)
  end.

(** [root], [lt], [rt] are where a lookup of [name] stops. *)
Definition split_at (name : Z) (root : ite V) (lt : list (lframe V)) (rt : list (rframe V)) : Prop :=
  match root with
  | ITE_NULL => False
  | ITE l n _ r =>
    below name (lelems lt) ∧ above name (relems rt)
    ∧ (name < n → l = ITE_NULL) ∧ (n < name → r = ITE_NULL)
  end.

(** The representation invariant. *)
Definition splay_wf (s : ipc_splay_tree V) : Prop :=
  ordered (elems s) ∧ (∀ p, p ∈ elems s → is_u32 p.1)
  ∧ (ist_root s ≠ ITE_NULL → split_at (ist_name s) (ist_root s) (ist_ltree s) (ist_rtree s)).

Fixpoint ite_size (t : ite V) : nat :=
  match t with
  | ITE_NULL => 0
  | ITE l _ _ r => S (ite_size l + ite_size r)
  end.

Lemma inorder_store_ltreep lt t : inorder (store_ltreep lt t) = lelems lt ++ inorder t.
Proof.
  revert t. induction lt as [|[l n e] lt IH]; intros t; simpl; [done|].
  rewrite IH. simpl. by rewrite <-!app_assoc.
Qed.

Lemma inorder_store_rtreep rt t : inorder (store_rtreep rt t) = inorder t ++ relems rt.
Proof.
  revert t. induction rt as [|[n e r] rt IH]; intros t; simpl; [by rewrite app_nil_r|].
  rewrite IH. simpl. by rewrite <-!app_assoc.
Qed.

Lemma is_null_true t : is_null t = true ↔ t = ITE_NULL.
Proof. by destruct t. Qed.
Lemma is_null_false t : is_null t = false ↔ t ≠ ITE_NULL.
Proof. by destruct t. Qed.

Lemma inorder_nil t : inorder t = [] ↔ t = ITE_NULL.
Proof. split; [|by intros ->]. destruct t; simpl; [done|]. by intros [_ ?]%app_nil. Qed.

#[local] Arguments splay_loop {V} name tree lt rt : simpl never.

Lemma splay_loop_spec name t lt rt :
  t ≠ ITE_NULL →
  ordered (lelems lt ++ inorder t ++ relems rt) →
  below name (lelems lt) → above name (relems rt) →
  ∃ root lt' rt',
    splay_loop name t lt rt = (root, lt', rt') ∧ split_at name root lt' rt'
    ∧ lelems lt' ++ inorder root ++ relems rt' = lelems lt ++ inorder t ++ relems rt.
Proof.
  revert lt rt. induction t as [t IH] using (induction_ltof1 _ ite_size).
  unfold ltof in IH. intros lt rt Hne Hord Hb Ha.
  destruct t as [|l n e r]; [done|].
  assert (∀ t' lt' rt',
    (ite_size t' < ite_size (ITE l n e r))%nat → is_null t' = false →
    lelems lt' ++ inorder t' ++ relems rt' = lelems lt ++ inorder (ITE l n e r) ++ relems rt →
    below name (lelems lt') → above name (relems rt') →
    ∃ root lt'' rt'', splay_loop name t' lt' rt' = (root, lt'', rt'')
      ∧ split_at name root lt'' rt''
      ∧ lelems lt'' ++ inorder root ++ relems rt'' =
        lelems lt ++ inorder (ITE l n e r) ++ relems rt) as Hstep.
  { intros t' lt' rt' ? ?%is_null_false Heq ? ?. rewrite <-Heq in Hord |- *. by apply IH. }
  unfold splay_loop; fold (@splay_loop V). destruct (Z.eqb_spec name n) as [->|Hn].
  { eexists _, _, _. split; [done|]. split; [|done]. unfold split_at. split_and!; [done..| |]; lia. }
  destruct (Z.ltb_spec name n) as [Hlt|Hlt].
  - destruct l as [|ll ln le lr].
    { eexists _, _, _. split; [done|]. split; [|done]. unfold split_at. split_and!; [done..| |]; (done || lia). }
    ord_simpl.
    destruct (Z.ltb_spec name ln), (is_null ll) eqn:Hll; simpl;
      destruct (Z.ltb_spec ln name), (is_null lr) eqn:Hlr; simpl; try lia;
      (apply Hstep; [simpl; lia|done|by app_norm|ord_done|ord_done]).
  - destruct r as [|rl rn re rr].
    { eexists _, _, _. split; [done|]. split; [|done]. unfold split_at. split_and!; [done..| |]; (done || lia). }
    ord_simpl.
    destruct (Z.ltb_spec rn name), (is_null rr) eqn:Hrr; simpl;
      destruct (Z.ltb_spec name rn), (is_null rl) eqn:Hrl; simpl; try lia;
      (apply Hstep; [simpl; lia|done|by app_norm|ord_done|ord_done]).
Qed.

Lemma split_at_root name root lt rt : split_at name root lt rt → root ≠ ITE_NULL.
Proof. by destruct root. Qed.

Lemma elems_IST name root lt rt :
  root ≠ ITE_NULL → elems (IST name root lt rt) = lelems lt ++ inorder root ++ relems rt.
Proof. by destruct root. Qed.

Lemma elems_null s : ist_root s = ITE_NULL → elems s = [].
Proof. unfold elems. by intros ->. Qed.

Lemma splay_wf_null s : ist_root s = ITE_NULL → splay_wf s.
Proof.
  intros H. unfold splay_wf. rewrite (elems_null s H), ordered_nil.
  split_and!; [done|set_solver|done].
Qed.

Lemma splay_wf_IST name root lt rt :
  split_at name root lt rt → ordered (lelems lt ++ inorder root ++ relems rt) →
  (∀ p, p ∈ lelems lt ++ inorder root ++ relems rt → is_u32 p.1) →
  splay_wf (IST name root lt rt).
Proof.
  intros Hs ? ?. pose proof (split_at_root _ _ _ _ Hs).
  unfold splay_wf. by rewrite !elems_IST.
Qed.

(** A tree that was assembled: its root is where a lookup of the root's own
    name stops. *)
Lemma elems_ist_of_root stale root : elems (ist_of_root stale root) = inorder root.
Proof. destruct root; [done|]. simpl. unfold elems. simpl. by rewrite app_nil_r. Qed.

Lemma splay_wf_ist_of_root stale root :
  ordered (inorder root) → (∀ p, p ∈ inorder root → is_u32 p.1) →
  splay_wf (ist_of_root stale root).
Proof.
  intros Ho Hu. destruct root as [|l n e r]; [by apply splay_wf_null|].
  apply splay_wf_IST.
  - unfold split_at. autorewrite with ord. split_and!; (done || lia).
  - simpl. by rewrite app_nil_r.
  - simpl. by rewrite app_nil_r.
Qed.

Lemma prim_lookup_spec name t :
  t ≠ ITE_NULL → ordered (inorder t) →
  ∃ root lt rt, ipc_splay_prim_lookup name t = Ok (root, lt, rt)
    ∧ split_at name root lt rt ∧ lelems lt ++ inorder root ++ relems rt = inorder t.
Proof.
  intros Hne Ho. destruct (splay_loop_spec name t [] []) as (root & lt & rt & Hl & Hs & He);
    [done|by simpl; rewrite app_nil_r|by rewrite below_nil|by rewrite above_nil|].
  eexists root, lt, rt. split; [|split; [done|]].
  - unfold ipc_splay_prim_lookup. rewrite (proj2 (is_null_false t) Hne). simpl. by rewrite Hl.
  - rewrite He. simpl. by rewrite app_nil_r.
Qed.

Lemma prim_assemble_spec root lt rt :
  root ≠ ITE_NULL →
  ∃ t, ipc_splay_prim_assemble root lt rt = Ok t ∧ t ≠ ITE_NULL
    ∧ inorder t = lelems lt ++ inorder root ++ relems rt
    ∧ ∀ l n e r, root = ITE l n e r →
        t = ITE (store_ltreep lt l) n e (store_rtreep rt r).
Proof.
  intros H. destruct root as [|l n e r]; [done|]. simpl. eexists. split_and!; [done..| |].
  - simpl. rewrite inorder_store_ltreep, inorder_store_rtreep. by app_norm.
  - naive_solver.
Qed.

Lemma resplay_spec s name :
  splay_wf s → ist_root s ≠ ITE_NULL →
  ∃ root lt rt, resplay s name = Ok (root, lt, rt) ∧ split_at name root lt rt
    ∧ lelems lt ++ inorder root ++ relems rt = elems s.
Proof.
  intros (Ho & _ & Hs) Hne. specialize (Hs Hne). unfold resplay.
  assert (elems s = lelems (ist_ltree s) ++ inorder (ist_root s) ++ relems (ist_rtree s)) as He.
  { destruct s. by apply elems_IST. }
  destruct (Z.eqb_spec (ist_name s) name) as [<-|Hn].
  - by eexists _, _, _.
  - destruct (prim_assemble_spec (ist_root s) (ist_ltree s) (ist_rtree s) Hne)
      as (t & -> & Ht & Hi & _). simpl.
    destruct (prim_lookup_spec name t) as (root & lt & rt & -> & ? & Hrt); [done| |].
    { by rewrite Hi, <-He. }
    eexists _, _, _. split_and!; [done..|]. by rewrite Hrt, Hi.
Qed.

(** The root a lookup stops at decides membership. *)
Lemma split_at_elem name l n e r lt rt v :
  split_at name (ITE l n e r) lt rt →
  ordered (lelems lt ++ inorder (ITE l n e r) ++ relems rt) →
  (name, v) ∈ lelems lt ++ inorder (ITE l n e r) ++ relems rt ↔ n = name ∧ e = v.
Proof.
  intros (Hb & Ha & Hl & Hr) Ho. ord_simpl. split.
  - intros Hin. repeat rewrite ?elem_of_app, ?elem_of_cons in Hin.
    destruct (Z.lt_trichotomy name n) as [Hlt|[->|Hlt]];
      [rewrite Hl in * by done| |rewrite Hr in * by done]; simpl in *;
      rewrite ?elem_of_nil in Hin; destruct_or? Hin; try (by simplify_eq);
      exfalso; simplify_eq; first [done|ord_mem].
  - intros [-> ->]. set_solver.
Qed.

Lemma lookup_spec s name :
  splay_wf s →
  ∃ s' o, ipc_splay_tree_lookup s name = Ok (s', o) ∧ splay_wf s' ∧ elems s' = elems s
    ∧ ∀ v, o = Some v ↔ (name, v) ∈ elems s.
Proof.
  intros Hwf. unfold ipc_splay_tree_lookup.
  destruct (is_null (ist_root s)) eqn:Hn.
  { rewrite is_null_true in Hn. eexists _, _. split_and!; [done..|].
    rewrite elems_null by done. set_solver. }
  rewrite is_null_false in Hn.
  destruct (resplay_spec s name) as (root & lt & rt & -> & Hs & He); [done..|]. simpl.
  destruct root as [|l n e r]; [done|]. destruct Hwf as (Ho & Hu & _).
  rewrite <-He in Ho, Hu. eexists _, _. split; [done|]. split; [by apply splay_wf_IST|].
  rewrite elems_IST, <-He by done. split; [done|]. intros v.
  rewrite split_at_elem by done. destruct (Z.eqb_spec name n); naive_solver.
Qed.

(** A tree given by its root whose entries are those of [s] and a new one. *)
Lemma insert_finish s name v l1 l2 l r :
  splay_wf s → is_u32 name →
  elems s = l1 ++ l2 → below name l1 → above name l2 →
  inorder l = l1 → inorder r = l2 →
  ∃ l1 l2, splay_wf (IST name (ITE l name v r) [] [])
    ∧ elems s = l1 ++ l2 ∧ below name l1 ∧ above name l2
    ∧ elems (IST name (ITE l name v r) [] []) = l1 ++ (name, v) :: l2.
Proof.
  intros (Ho & Hu & _) Hname He Hb Ha <- <-. rewrite He in Ho, Hu.
  exists (inorder l), (inorder r).
  split_and!; [|done..|exact (elems_ist_of_root 0 (ITE l name v r))].
  apply (splay_wf_ist_of_root 0 (ITE l name v r)); simpl; [by apply ordered_insert|].
  intros p [Hp|[->|Hp]%elem_of_cons]%elem_of_app; [|done|]; apply Hu, elem_of_app; auto.
Qed.

Lemma insert_spec s name v :
  splay_wf s → is_u32 name → name ∉ (elems s).*1 →
  ∃ s' l1 l2, ipc_splay_tree_insert s name v = Ok s' ∧ splay_wf s'
    ∧ elems s = l1 ++ l2 ∧ below name l1 ∧ above name l2
    ∧ elems s' = l1 ++ (name, v) :: l2.
Proof.
  intros Hwf Hname Hnew. unfold ipc_splay_tree_insert.
  destruct (is_null (ist_root s)) eqn:Hn.
  { rewrite is_null_true in Hn. eexists.
    destruct (insert_finish s name v [] [] ITE_NULL ITE_NULL) as (l1 & l2 & ?);
      [done|done|by rewrite elems_null|by rewrite below_nil|by rewrite above_nil|done|done|].
    by exists l1, l2. }
  rewrite is_null_false in Hn.
  destruct (resplay_spec s name) as (root & lt & rt & -> & Hs & He); [done..|]. simpl.
  destruct root as [|l n e r]; [done|].
  assert (n ≠ name) as Hne.
  { intros ->. apply Hnew, list_elem_of_fmap. exists (name, e). split; [done|].
    rewrite <-He. elem_tauto. }
  assert (ordered (elems s)) as Ho by apply Hwf. rewrite <-He in Ho.
  destruct Hs as (Hb & Ha & Hl & Hr). ord_simpl.
  rewrite (proj2 (Z.eqb_neq n name) Hne). simpl.
  destruct (Z.ltb_spec name n) as [Hlt|Hlt].
  - rewrite Hl in * by done. simpl in *. eexists.
    destruct (insert_finish s name v (lelems lt) ((n, e) :: inorder r ++ relems rt)
      (store_ltreep lt ITE_NULL) (store_rtreep rt (ITE ITE_NULL n e r))) as (l1 & l2 & ?);
      [done..|by rewrite <-He; app_norm|done|ord_done| | |by exists l1, l2].
    + rewrite inorder_store_ltreep. by app_norm.
    + rewrite inorder_store_rtreep. by app_norm.
  - assert (n < name) as Hlt' by lia. rewrite Hr in * by done. simpl in *. eexists.
    destruct (insert_finish s name v (lelems lt ++ inorder l ++ [(n, e)]) (relems rt)
      (store_ltreep lt (ITE l n e ITE_NULL)) (store_rtreep rt ITE_NULL)) as (l1 & l2 & ?);
      [done..|by rewrite <-He; app_norm|ord_simpl; split_and!; ord_done|done| | |by exists l1, l2].
    + rewrite inorder_store_ltreep. by app_norm.
    + rewrite inorder_store_rtreep. by app_norm.
Qed.

(** The largest name at the root: no right child. *)
Lemma largest_no_right name l n e r lt rt :
  split_at name (ITE l n e r) lt rt →
  ordered (lelems lt ++ inorder (ITE l n e r) ++ relems rt) →
  (∀ p, p ∈ lelems lt ++ inorder (ITE l n e r) ++ relems rt → p.1 ≤ name) →
  r = ITE_NULL ∧ rt = [].
Proof.
  intros (Hb & Ha & Hl & Hr) Ho Hle. ord_simpl. split.
  - destruct (decide (n < name)) as [?|?]; [by apply Hr|].
    destruct r as [|rl rn re rr]; [done|]. exfalso. ord_simpl.
    specialize (Hle (rn, re) ltac:(elem_tauto)). simpl in *. lia.
  - destruct rt as [|[rn re rr] rt]; [done|]. exfalso. ord_simpl.
    specialize (Hle (rn, re) ltac:(elem_tauto)). simpl in *. lia.
Qed.

Lemma smallest_no_left name l n e r lt rt :
  split_at name (ITE l n e r) lt rt →
  ordered (lelems lt ++ inorder (ITE l n e r) ++ relems rt) →
  (∀ p, p ∈ lelems lt ++ inorder (ITE l n e r) ++ relems rt → name ≤ p.1) →
  l = ITE_NULL ∧ lt = [].
Proof.
  intros (Hb & Ha & Hl & Hr) Ho Hle. ord_simpl. split.
  - destruct (decide (name < n)) as [?|?]; [by apply Hl|].
    destruct l as [|ll ln le lr]; [done|]. exfalso. ord_simpl.
    specialize (Hle (ln, le) ltac:(elem_tauto)). simpl in *. lia.
  - destruct lt as [|[ll ln le] lt]; [done|]. exfalso. ord_simpl.
    specialize (Hle (ln, le) ltac:(elem_tauto)). simpl in *. lia.
Qed.

Lemma u32_le_largest x : is_u32 x → x ≤ MACH_PORT_LARGEST.
Proof. unfold is_u32, MACH_PORT_LARGEST. lia. Qed.

(** Splaying a tree at the largest name leaves its last entry at the root. *)
Lemma splay_largest_spec t :
  t ≠ ITE_NULL → ordered (inorder t) → (∀ p, p ∈ inorder t → is_u32 p.1) →
  ∃ root lt rt l n e, ipc_splay_prim_lookup MACH_PORT_LARGEST t = Ok (root, lt, rt)
    ∧ ipc_splay_prim_assemble root lt rt = Ok (ITE l n e ITE_NULL)
    ∧ inorder t = inorder l ++ [(n, e)].
Proof.
  intros Hne Ho Hu.
  destruct (prim_lookup_spec MACH_PORT_LARGEST t Hne Ho) as (root & lt & rt & Hl & Hs & He).
  destruct root as [|l n e r]; [done|].
  destruct (largest_no_right _ _ _ _ _ _ _ Hs) as [-> ->].
  { by rewrite He. }
  { intros p. rewrite He. intros Hp. by apply u32_le_largest, Hu. }
  exists (ITE l n e ITE_NULL), lt, [], (store_ltreep lt l), n, e. split_and!; [done..|].
  rewrite inorder_store_ltreep, <-He. by app_norm.
Qed.

Lemma delete_spec s name v :
  splay_wf s → (name, v) ∈ elems s →
  ∃ s' l1 l2, ipc_splay_tree_delete s name = Ok (s', v) ∧ splay_wf s'
    ∧ elems s = l1 ++ (name, v) :: l2 ∧ elems s' = l1 ++ l2.
Proof.
  intros Hwf Hin. unfold ipc_splay_tree_delete.
  assert (ist_root s ≠ ITE_NULL) as Hn.
  { intros Hn. rewrite elems_null in Hin by done. by apply elem_of_nil in Hin. }
  rewrite (proj2 (is_null_false _) Hn). simpl.
  destruct (resplay_spec s name) as (root & lt & rt & -> & Hs & He); [done..|]. simpl.
  destruct Hwf as (Ho & Hu & _). destruct root as [|l n e r]; [done|].
  rewrite <-He in Hin. apply split_at_elem in Hin as [-> ->]; [|done|by rewrite He].
  rewrite Z.eqb_refl. simpl.
  set (t1 := store_ltreep lt l). set (t2 := store_rtreep rt r).
  assert (elems s = inorder t1 ++ (name, v) :: inorder t2) as Heq.
  { subst t1 t2. rewrite <-He, inorder_store_ltreep, inorder_store_rtreep. by app_norm. }
  rewrite Heq in Ho, Hu |- *. clearbody t1 t2.
  assert (∀ t, inorder t = inorder t1 ++ inorder t2 →
    ∃ s' l1 l2, Ok (ist_of_root (ist_name s) t, v) = Ok (s', v) ∧ splay_wf s'
    ∧ inorder t1 ++ (name, v) :: inorder t2 = l1 ++ (name, v) :: l2
    ∧ elems s' = l1 ++ l2) as Hfin.
  { intros t Ht. eexists _, (inorder t1), (inorder t2). split; [done|].
    rewrite elems_ist_of_root, Ht. split; [|done]. apply splay_wf_ist_of_root; rewrite Ht.
    - ord_simpl. eapply (ordered_app_at name); try done. intros p Hp. ord_mem.
    - intros p Hp. apply Hu. elem_simpl. tauto. }
  destruct (is_null t1) eqn:H1.
  { apply is_null_true in H1 as ->. apply Hfin. done. }
  destruct (is_null t2) eqn:H2; simpl.
  { apply is_null_true in H2 as ->. apply Hfin. simpl. by rewrite app_nil_r. }
  destruct (splay_largest_spec t1) as (? & ? & ? & l' & n' & e' & -> & Ha & Hi).
  { by apply is_null_false. }
  { by eapply ordered_app_l. }
  { intros p Hp. apply Hu. elem_simpl. tauto. }
  simpl. rewrite Ha. simpl. apply (Hfin (ITE l' n' e' t2)). simpl. rewrite Hi. by app_norm.
Qed.

Lemma split_spec s name :
  splay_wf s →
  ∃ s' small, ipc_splay_tree_split s name = Ok (s', small) ∧ splay_wf s' ∧ splay_wf small
    ∧ elems s = elems small ++ elems s' ∧ below name (elems small)
    ∧ ∀ p, p ∈ elems s' → name ≤ p.1.
Proof.
  intros Hwf. unfold ipc_splay_tree_split.
  destruct (is_null (ist_root s)) eqn:Hn.
  { apply is_null_true in Hn. eexists s, _. split; [done|].
    rewrite (elems_null s), (elems_null (IST _ _ _ _)), below_nil by done.
    split_and!; [done|by apply splay_wf_null|done|done|]. intros p Hp. by apply elem_of_nil in Hp. }
  apply is_null_false in Hn.
  destruct (resplay_spec s name) as (root & lt & rt & -> & Hs & He); [done..|]. simpl.
  destruct root as [|l n e r]; [done|]. destruct Hwf as (Ho & Hu & _).
  assert (ordered (elems s)) as Ho' by done. rewrite <-He in Ho'.
  destruct Hs as (Hb & Ha & Hl & Hr). ord_simpl.
  assert (∀ s' small, elems s = elems small ++ elems s' →
    below name (elems small) → (∀ p, p ∈ elems s' → name ≤ p.1) →
    (ordered (elems s') → (∀ p, p ∈ elems s' → is_u32 p.1) → splay_wf s') →
    (ordered (elems small) → (∀ p, p ∈ elems small → is_u32 p.1) → splay_wf small) →
    ∃ s'' small', Ok (s', small) = Ok (s'', small') ∧ splay_wf s'' ∧ splay_wf small'
    ∧ elems s = elems small' ++ elems s'' ∧ below name (elems small')
    ∧ ∀ p, p ∈ elems s'' → name ≤ p.1) as Hfin.
  { intros s' small Heq ? ? Hw1 Hw2. rewrite Heq in Ho, Hu. exists s', small.
    split_and!; [done|apply Hw1|apply Hw2|done..].
    - by eapply ordered_app_r.
    - intros p Hp. apply Hu. elem_simpl. tauto.
    - by eapply ordered_app_l.
    - intros p Hp. apply Hu. elem_simpl. tauto. }
  destruct (Z.ltb_spec n name) as [Hlt|Hlt].
  - rewrite Hr in * by done. simpl in *.
    apply (Hfin _ (ist_of_root 0 (ITE (store_ltreep lt l) n e ITE_NULL)));
      rewrite ?elems_ist_of_root; simpl; rewrite ?inorder_store_ltreep, ?inorder_store_rtreep; simpl.
    + rewrite <-He. by app_norm.
    + autorewrite with ord. split_and!; [done|ord_done|done|done].
    + intros p Hp. ord_mem.
    + intros ? ?. apply splay_wf_ist_of_root; by rewrite inorder_store_rtreep.
    + intros ? ?. apply (splay_wf_ist_of_root 0 (ITE _ _ _ _)); simpl;
        by rewrite inorder_store_ltreep.
  - apply Hfin;
      rewrite ?elems_ist_of_root, ?elems_IST by done; rewrite ?inorder_store_ltreep; simpl.
    + rewrite <-He. by app_norm.
    + autorewrite with ord. split; [done|]. destruct (decide (name < n)).
      * rewrite Hl by done. by apply below_nil.
      * eapply below_weaken; [done|lia].
    + intros p Hp. elem_simpl. destruct_or? Hp; [by subst|ord_mem|ord_mem].
    + intros ? ?. apply splay_wf_IST; [|done..].
      unfold split_at. simpl. split_and!; [by apply below_nil|done|done|lia].
    + intros ? ?. apply splay_wf_ist_of_root; by rewrite inorder_store_ltreep.
Qed.

Lemma join_spec s small :
  splay_wf s → splay_wf small → ordered (elems small ++ elems s) →
  ∃ s' small', ipc_splay_tree_join s small = Ok (s', small') ∧ splay_wf s'
    ∧ elems s' = elems small ++ elems s ∧ elems small' = [].
Proof.
  intros Hwf Hwf2 Ho. unfold ipc_splay_tree_join.
  destruct (is_null (ist_root small)) eqn:Hn2.
  { apply is_null_true in Hn2. eexists s, small. rewrite (elems_null small) by done. done. }
  apply is_null_false in Hn2.
  destruct (prim_assemble_spec (ist_root small) (ist_ltree small) (ist_rtree small) Hn2)
    as (sroot & -> & Hsne & Hsi & _). simpl.
  assert (inorder sroot = elems small) as Hs by (rewrite Hsi; by destruct small, ist_root0).
  clear Hsi. assert (∀ root, root ≠ ITE_NULL → inorder root = elems small ++ elems s →
    ∃ s' small', (match root with
      | ITE_NULL => Fault FDeref
      | ITE _ rname _ _ => Ok (IST rname root [] [], ipc_splay_tree_init small)
      end) = Ok (s', small') ∧ splay_wf s' ∧ elems s' = elems small ++ elems s
      ∧ elems small' = []) as Hfin.
  { intros root Hr Hi. exists (ist_of_root 0 root), (ipc_splay_tree_init small).
    split; [by destruct root|]. rewrite elems_ist_of_root. split_and!; [|done..].
    apply splay_wf_ist_of_root; rewrite Hi; [done|].
    intros p [?|?]%elem_of_app; [by apply Hwf2|by apply Hwf]. }
  destruct (is_null (ist_root s)) eqn:Hn.
  { apply is_null_true in Hn. simpl. apply Hfin; [done|].
    by rewrite (elems_null s), app_nil_r. }
  apply is_null_false in Hn.
  destruct (resplay_spec s MACH_PORT_SMALLEST) as (root & lt & rt & -> & Hsp & He); [done..|].
  simpl. destruct root as [|l n e r]; [done|].
  destruct (smallest_no_left _ _ _ _ _ _ _ Hsp) as [-> ->].
  { rewrite He. apply Hwf. }
  { intros p. rewrite He. intros Hp%Hwf. apply Hp. }
  simpl. destruct sroot as [|sl sn se sr]; [done|].
  assert ((sn <? n) = true) as ->.
  { apply Z.ltb_lt. simpl in He. rewrite <-He, <-Hs in Ho. ord_simpl. done. }
  simpl. apply (Hfin (ITE _ _ _ _)); [done|]. simpl.
  rewrite inorder_store_rtreep, <-Hs, <-He. by app_norm.
Qed.

(** The bounds [ipc_splay_tree_bounds] is documented to return. *)
Definition is_lower_bound (l : list (Z * V)) (name lower : Z) : Prop :=
  (∃ v, (lower, v) ∈ l ∧ lower ≤ name ∧ ∀ q, q ∈ l → q.1 ≤ name → q.1 ≤ lower)
  ∨ lower = MACH_PORT_LARGEST ∧ ∀ q, q ∈ l → name < q.1.

Definition is_upper_bound (l : list (Z * V)) (name upper : Z) : Prop :=
  (∃ v, (upper, v) ∈ l ∧ name ≤ upper ∧ ∀ q, q ∈ l → name ≤ q.1 → upper ≤ q.1)
  ∨ upper = MACH_PORT_SMALLEST ∧ ∀ q, q ∈ l → q.1 < name.

Lemma bounds_spec s name :
  splay_wf s →
  ∃ s' lower upper, ipc_splay_tree_bounds s name = Ok (s', lower, upper)
    ∧ splay_wf s' ∧ elems s' = elems s
    ∧ is_lower_bound (elems s) name lower ∧ is_upper_bound (elems s) name upper.
Proof.
  intros Hwf. unfold ipc_splay_tree_bounds, is_lower_bound, is_upper_bound.
  destruct (is_null (ist_root s)) eqn:Hn.
  { apply is_null_true in Hn. eexists s, _, _. rewrite elems_null by done.
    split_and!; [done..|right|right]; (split; [done|]); intros q Hq; by apply elem_of_nil in Hq. }
  apply is_null_false in Hn.
  destruct (resplay_spec s name) as (root & lt & rt & -> & Hs & He); [done..|]. simpl.
  destruct root as [|l n e r]; [done|]. destruct Hwf as (Ho & Hu & _).
  rewrite <-He in Ho, Hu. eexists _, _, _. split; [done|]. split; [by apply splay_wf_IST|].
  rewrite elems_IST, <-He by done. split; [done|]. clear He Hu.
  destruct Hs as (Hb & Ha & Hl & Hr). ord_simpl. split.
  - destruct (Z.leb_spec n name) as [Hle|Hle].
    + left. exists e. split_and!; [elem_tauto|done|]. intros q Hq ?.
      destruct (decide (n < name)); [rewrite Hr in * by done|]; simpl in *; elem_simpl;
        destruct_or? Hq; subst; first [done|ord_mem].
    + rewrite Hl in * by done. simpl in *. destruct lt as [|[ll ln le] lt]; simpl in *.
      * right. split; [done|]. intros q Hq. elem_simpl. destruct_or? Hq; subst; first [done|ord_mem].
      * left. exists le. ord_simpl. split_and!; [elem_tauto|lia|]. intros q Hq ?.
        elem_simpl. destruct_or? Hq; subst; simpl in *; first [done|lia|ord_mem].
  - destruct (Z.leb_spec name n) as [Hle|Hle].
    + left. exists e. split_and!; [elem_tauto|done|]. intros q Hq ?.
      destruct (decide (name < n)); [rewrite Hl in * by done|]; simpl in *; elem_simpl;
        destruct_or? Hq; subst; first [done|ord_mem].
    + rewrite Hr in * by done. simpl in *. destruct rt as [|[rn re rr] rt]; simpl in *.
      * right. split; [done|]. intros q Hq. elem_simpl. destruct_or? Hq; subst; first [done|ord_mem].
      * left. exists re. ord_simpl. split_and!; [elem_tauto|lia|]. intros q Hq ?.
        elem_simpl. destruct_or? Hq; subst; simpl in *; first [done|lia|ord_mem].
Qed.

(** ** Traversal *)

Fixpoint pbefore (ps : list (pframe V)) : list (Z * V) :=
  match ps with
  | [] => []
  | PL _ _ _ :: ps' => pbefore ps'
  | PR l n e :: ps' => pbefore ps' ++ inorder l ++ [(n, e)]
  end.

Fixpoint pafter (ps : list (pframe V)) : list (Z * V) :=
  match ps with
  | [] => []
  | PL n e r :: ps' => (n, e) :: inorder r ++ pafter ps'
  | PR _ _ _ :: ps' => pafter ps'
  end.

(** A traversal stands between the entries [pre] already passed and the
    entries [post] that follow, the first of which is the current one. *)
Definition stands (pre post : list (Z * V)) (t : traversal V) : Prop :=
  match t with
  | TDone root => inorder root = pre ∧ post = []
  | TEntry current ps => ∃ l n e r, current = ITE l n e r
      ∧ pbefore ps ++ inorder l = pre ∧ (n, e) :: inorder r ++ pafter ps = post
  end.

Lemma traverse_left_spec t ps :
  t ≠ ITE_NULL →
  ∃ tv, traverse_left t ps = Ok tv ∧ stands (pbefore ps) (inorder t ++ pafter ps) tv.
Proof.
  revert ps. induction t as [|l IHl n e r _]; intros ps Hne; [done|].
  cbn [traverse_left]. destruct (is_null l) eqn:Hl.
  - apply is_null_true in Hl as ->. eexists. split; [done|].
    eexists _, _, _, _. split; [done|]. by app_norm.
  - apply is_null_false in Hl. destruct (IHl (PL n e r :: ps) Hl) as (tv & -> & Hst).
    eexists. split; [done|]. simpl in *. rewrite <-app_assoc. done.
Qed.

Lemma traverse_back_spec t ps :
  t ≠ ITE_NULL → ordered (pbefore ps ++ inorder t ++ pafter ps) →
  ∃ tv, traverse_back t ps = Ok tv ∧ stands (pbefore ps ++ inorder t) (pafter ps) tv.
Proof.
  revert t. induction ps as [|[n e r|l n e] ps IH]; intros t Hne Ho;
    destruct t as [|tl tn te tr]; try done; cbn [traverse_back].
  - by eexists.
  - assert ((tn <? n) = true) as -> by (apply Z.ltb_lt; ord_simpl; done).
    eexists. split; [done|]. by eexists _, _, _, _.
  - assert ((tn <? n) = false) as -> by (apply Z.ltb_ge; ord_simpl; lia).
    destruct (IH (ITE l n e (ITE tl tn te tr))) as (tv & -> & Hst); [done| |].
    { revert Ho. app_norm. done. }
    eexists. split; [done|]. revert Hst. app_norm. done.
Qed.

Lemma traverse_right_spec l n e r ps :
  ordered (pbefore ps ++ inorder (ITE l n e r) ++ pafter ps) →
  ∃ tv, traverse_right (ITE l n e r) ps = Ok tv
    ∧ stands (pbefore ps ++ inorder l ++ [(n, e)]) (inorder r ++ pafter ps) tv.
Proof.
  intros Ho. cbn [traverse_right]. destruct (is_null r) eqn:Hr.
  - apply is_null_true in Hr as ->. by apply (traverse_back_spec (ITE l n e ITE_NULL)).
  - apply is_null_false in Hr. by apply (traverse_left_spec r (PR l n e :: ps)).
Qed.

#[local] Arguments traverse_right {V} current parent : simpl never.
#[local] Arguments traverse_back {V} current parent : simpl never.
#[local] Arguments traverse_left {V} current parent : simpl never.

Lemma traverse_next_spec pre n e post current ps delete :
  stands pre ((n, e) :: post) (TEntry current ps) →
  ordered (pre ++ (n, e) :: post) → (∀ p, p ∈ pre ++ (n, e) :: post → is_u32 p.1) →
  ∃ tv, ipc_splay_traverse_next current ps delete = Ok tv
    ∧ stands (if delete then pre else pre ++ [(n, e)]) post tv.
Proof.
  intros (l & n' & e' & r & -> & <- & [= -> -> <-]) Ho Hu. cbn [ipc_splay_traverse_next].
  destruct delete; simpl.
  2: { rewrite <-app_assoc. apply traverse_right_spec. revert Ho. by app_norm. }
  destruct (is_null l) eqn:Hl; [apply is_null_true in Hl as ->|apply is_null_false in Hl];
    (destruct (is_null r) eqn:Hr; [apply is_null_true in Hr as ->|apply is_null_false in Hr]); simpl in *.
  - rewrite app_nil_r in *. destruct ps as [|[pn pe pr|pl pn pe] ps]; simpl in *.
    + by eexists.
    + assert ((n <? pn) = true) as -> by (apply Z.ltb_lt; ord_simpl; lia).
      eexists. split; [done|]. eexists _, _, _, _. split; [done|]. by rewrite app_nil_r.
    + assert ((n <? pn) = false) as -> by (apply Z.ltb_ge; ord_simpl; lia).
      destruct (traverse_back_spec (ITE pl pn pe ITE_NULL) ps) as (tv & -> & Hst); [done| |].
      { simpl. ord_simpl. split_and!; try done. ord_done. }
      by eexists.
  - rewrite app_nil_r in *. by apply traverse_left_spec.
  - apply traverse_back_spec; [done|]. ord_simpl.
    eapply (ordered_app_at n); try done; [by apply below_app|].
    intros p Hp. ord_mem.
  - destruct (splay_largest_spec l) as (? & ? & ? & cl & cn & ce & -> & Ha & Hi).
    { done. }
    { eapply ordered_app_r, ordered_app_l, Ho. }
    { intros p Hp. apply Hu. elem_simpl. tauto. }
    simpl. rewrite Ha. simpl. destruct (traverse_right_spec cl cn ce r ps) as (tv & -> & Hst).
    { rewrite Hi in Ho. ord_simpl. split_and!; first [done|ord_done]. }
    eexists. split; [done|]. by rewrite Hi.
Qed.

#[local] Arguments ipc_splay_traverse_next {V} current parent delete : simpl never.

(** What a loop over the entries computes: [body] applied to each in order,
    keeping those it does not delete. *)
Fixpoint fold_elems {St : Type} (body : St → Z → V → outcome (St * bool)) (st : St)
    (l : list (Z * V)) : outcome (St * list (Z * V)) :=
  match l with
  | [] => Ok (st, [])
  | (n, e) :: l' =>
    '(st, delete) ← body st n e;
    '(st, kept) ← fold_elems body st l';
    Ok (st, if delete : bool then kept else (n, e) :: kept)
  end.

Lemma traverse_loop_spec {St} (body : St → Z → V → outcome (St * bool)) fuel pre post st
    (t : traversal V) :
  stands pre post t → ordered (pre ++ post) → (∀ p, p ∈ pre ++ post → is_u32 p.1) →
  (length post ≤ fuel)%nat →
  match fold_elems body st post with
  | Ok (st', kept) =>
    ∃ root, traverse_loop fuel body st t = Ok (st', root) ∧ inorder root = pre ++ kept
  | Fault f => traverse_loop fuel body st t = Fault f
  end.
Proof.
  revert pre st t fuel. induction post as [|[n e] post IH]; intros pre st t fuel Hst Ho Hu Hf.
  - destruct t as [? ?|root]; simpl in Hst; [naive_solver|]. destruct Hst as [Hst _].
    simpl. exists root. split; [by destruct fuel|]. by rewrite app_nil_r.
  - destruct fuel as [|fuel]; simpl in Hf; [lia|].
    destruct t as [current ps|root]; [|by destruct Hst].
    pose proof Hst as (l & ? & ? & r & -> & Hpre & [= -> -> Hpost]). simpl.
    destruct (body st n e) as [[st1 delete]|f]; simpl; [|done].
    destruct (traverse_next_spec pre n e post _ ps delete Hst Ho Hu) as (tv & -> & Hst').
    assert (ordered ((if delete then pre else pre ++ [(n, e)]) ++ post)) as Ho'.
    { destruct delete; [|by rewrite <-app_assoc].
      ord_simpl. eapply (ordered_app_at n); try done. intros p Hp. ord_mem. }
    assert (∀ p, p ∈ (if delete then pre else pre ++ [(n, e)]) ++ post → is_u32 p.1) as Hu'.
    { intros p Hp. apply Hu. destruct delete; elem_simpl; tauto. }
    specialize (IH _ st1 tv fuel Hst' Ho' Hu' ltac:(lia)). simpl.
    destruct (fold_elems body st1 post) as [[st2 kept]|f]; simpl; [|done].
    destruct IH as (root & Hl & Hi). exists root. split; [done|]. rewrite Hi.
    destruct delete; [done|]. by rewrite <-app_assoc.
Qed.

Lemma traverse_start_spec s :
  splay_wf s → ∃ tv, ipc_splay_traverse_start s = Ok tv ∧ stands [] (elems s) tv.
Proof.
  intros Hwf. unfold ipc_splay_traverse_start. destruct (is_null (ist_root s)) eqn:Hn.
  { apply is_null_true in Hn. rewrite elems_null by done. by eexists. }
  apply is_null_false in Hn.
  destruct (prim_assemble_spec (ist_root s) (ist_ltree s) (ist_rtree s) Hn)
    as (t & -> & Ht & Hi & _). simpl.
  destruct (traverse_left_spec t [] Ht) as (tv & -> & Hst). eexists. split; [done|].
  simpl in Hst. rewrite app_nil_r, Hi in Hst. by destruct s, ist_root0.
Qed.

Lemma fold_elems_sublist {St} (body : St → Z → V → outcome (St * bool)) l st st' kept :
  fold_elems body st l = Ok (st', kept) → kept `sublist_of` l.
Proof.
  revert st st' kept. induction l as [|[n e] l IH]; intros st st' kept; simpl; [naive_solver|].
  destruct (body st n e) as [[st1 delete]|f]; simpl; [|done].
  destruct (fold_elems body st1 l) as [[st2 kept']|f] eqn:E; simpl; [|done].
  intros [= <- <-]. destruct delete; constructor; eauto.
Qed.

#[export] Instance is_null_dec (t : ite V) : Decision (t = ITE_NULL).
Proof. refine (match t with ITE_NULL => left _ | ITE _ _ _ _ => right _ end); done. Defined.

#[export] Instance split_at_dec name root lt rt : Decision (split_at name root lt rt).
Proof. destruct root; apply _. Defined.

#[export] Instance splay_wf_dec s : Decision (splay_wf s).
Proof.
  refine (cast_if_and3 (decide (ordered (elems s)))
    (decide (Forall (λ p : Z * V, 0 ≤ p.1 < 2 ^ 32) (elems s)))
    (decide (ist_root s ≠ ITE_NULL → split_at (ist_name s) (ist_root s) (ist_ltree s) (ist_rtree s))));
    unfold splay_wf, is_u32; rewrite <-Forall_forall; tauto.
Defined.

(** ** Properties: the tree is a finite map ordered by name *)

Definition splay_map (s : ipc_splay_tree V) : gmap Z V := list_to_map (elems s).

Lemma splay_map_elem s name v :
  splay_wf s → splay_map s !! name = Some v ↔ (name, v) ∈ elems s.
Proof. intros Hwf. apply ordered_lookup, Hwf. Qed.

(** C34. ipc_splay_tree_lookup refines lookup in a finite map: it returns
    what the map has and keeps the contents while it splays. *)
Theorem splay_lookup_correct s name :
  splay_wf s →
  ∃ s', ipc_splay_tree_lookup s name = Ok (s', splay_map s !! name)
    ∧ splay_wf s' ∧ splay_map s' = splay_map s.
Proof.
  intros Hwf. destruct (lookup_spec s name Hwf) as (s' & o & -> & Hwf' & He & Ho).
  exists s'. split_and!; [|done|by unfold splay_map; rewrite He].
  do 2 f_equal. apply option_eq. intros v. by rewrite Ho, splay_map_elem.
Qed.

Theorem splay_insert_correct s name v :
  splay_wf s → is_u32 name → splay_map s !! name = None →
  ∃ s', ipc_splay_tree_insert s name v = Ok s'
    ∧ splay_wf s' ∧ splay_map s' = <[name := v]> (splay_map s).
Proof.
  intros Hwf Hn Hnew%ordered_lookup_None.
  destruct (insert_spec s name v Hwf Hn Hnew) as (s' & l1 & l2 & -> & Hwf' & He & Hb & _ & He').
  exists s'. split_and!; [done..|]. unfold splay_map. rewrite He', He.
  apply list_to_map_mid. intros (p & Hp & Hin)%list_elem_of_fmap. specialize (Hb p Hin). lia.
Qed.

Theorem splay_delete_correct s name v :
  splay_wf s → splay_map s !! name = Some v →
  ∃ s', ipc_splay_tree_delete s name = Ok (s', v)
    ∧ splay_wf s' ∧ splay_map s' = delete name (splay_map s).
Proof.
  intros Hwf Hin%splay_map_elem; [|done].
  destruct (delete_spec s name v Hwf Hin) as (s' & l1 & l2 & -> & Hwf' & He & He').
  exists s'. split_and!; [done..|]. unfold splay_map. rewrite He', He.
  apply (ordered_delete_mid l1 l2 name v). rewrite <-He. apply Hwf.
Qed.

Theorem splay_split_join_correct s name :
  splay_wf s →
  ∃ big small, ipc_splay_tree_split s name = Ok (big, small)
    ∧ splay_wf big ∧ splay_wf small
    ∧ splay_map small = filter (λ p, p.1 < name) (splay_map s)
    ∧ splay_map big = filter (λ p, name ≤ p.1) (splay_map s)
    ∧ ∃ s' small', ipc_splay_tree_join big small = Ok (s', small')
        ∧ splay_wf s' ∧ elems s' = elems s ∧ splay_map small' = ∅.
Proof.
  intros Hwf. destruct (split_spec s name Hwf)
    as (big & small & -> & Hwf1 & Hwf2 & He & Hb & Ha).
  exists big, small.
  assert (ordered (elems small ++ elems big)) as Ho by (rewrite <-He; apply Hwf).
  assert (∀ k v, splay_map s !! k = Some v ↔
    splay_map small !! k = Some v ∨ splay_map big !! k = Some v) as Hm.
  { intros k v. rewrite !splay_map_elem by done. by rewrite He, elem_of_app. }
  assert (∀ k v, splay_map small !! k = Some v → k < name) as Hs.
  { intros k v. rewrite splay_map_elem by done. apply Hb. }
  assert (∀ k v, splay_map big !! k = Some v → name ≤ k) as Hg.
  { intros k v. rewrite splay_map_elem by done. apply Ha. }
  split_and!; [done..| | |].
  - apply map_eq. intros k. apply option_eq. intros v.
    rewrite map_lookup_filter_Some, Hm. simpl. split; [by eauto|].
    intros [[?|?%Hg] ?]; [done|lia].
  - apply map_eq. intros k. apply option_eq. intros v.
    rewrite map_lookup_filter_Some, Hm. simpl. split; [by eauto|].
    intros [[?%Hs|?] ?]; [lia|done].
  - destruct (join_spec big small Hwf1 Hwf2 Ho) as (s' & small' & -> & Hwf' & He' & He2).
    exists s', small'. split_and!; [done..|by rewrite He', He|].
    unfold splay_map. by rewrite He2.
Qed.

Theorem splay_bounds_correct s name :
  splay_wf s →
  ∃ s' lower upper, ipc_splay_tree_bounds s name = Ok (s', lower, upper)
    ∧ splay_wf s' ∧ splay_map s' = splay_map s
    ∧ is_lower_bound (elems s) name lower ∧ is_upper_bound (elems s) name upper.
Proof.
  intros Hwf. destruct (bounds_spec s name Hwf) as (s' & lo & up & ? & ? & He & ? & ?).
  exists s', lo, up. split_and!; [done..| |done|done]. unfold splay_map. by rewrite He.
Qed.

Lemma traverse_spec {St} (body : St → Z → V → outcome (St * bool)) fuel st s :
  splay_wf s → (length (elems s) ≤ fuel)%nat →
  match fold_elems body st (elems s) with
  | Ok (st', kept) =>
    ∃ s', splay_traverse fuel body st s = Ok (st', s') ∧ splay_wf s' ∧ elems s' = kept
  | Fault f => splay_traverse fuel body st s = Fault f
  end.
Proof.
  intros Hwf Hf. unfold splay_traverse.
  destruct (traverse_start_spec s Hwf) as (tv & -> & Hst). destruct Hwf as (Ho & Hu & _). simpl.
  pose proof (traverse_loop_spec body fuel [] (elems s) st tv Hst Ho Hu Hf) as Hl.
  destruct (fold_elems body st (elems s)) as [[st' kept]|f] eqn:E.
  - destruct Hl as (root & -> & Hi). simpl. eexists. split; [done|].
    unfold ipc_splay_traverse_finish. rewrite elems_ist_of_root, Hi. split; [|done].
    apply fold_elems_sublist in E.
    apply splay_wf_ist_of_root; rewrite Hi.
    + by eapply ordered_sublist.
    + intros p Hp. apply Hu. by eapply elem_of_sublist.
  - by rewrite Hl.
Qed.

(** C33. The pointer-reversing traversal with deletion visits the entries
    in the order of their names, runs the body on each and leaves a
    well-formed tree of exactly the entries kept, as a fold over the sorted
    list does. *)
Theorem splay_traverse_correct {St} (body : St → Z → V → outcome (St * bool)) fuel st s :
  splay_wf s → (length (elems s) ≤ fuel)%nat →
  match fold_elems body st (elems s) with
  | Ok (st', kept) =>
    ∃ s', splay_traverse fuel body st s = Ok (st', s') ∧ splay_wf s' ∧ elems s' = kept
  | Fault f => splay_traverse fuel body st s = Fault f
  end.
Proof. apply traverse_spec. Qed.
End splay_facts.

(** ** Witnesses *)

(** A tree as a lookup of 9 leaves it: 3 and 5 on the left, 12 on the right. *)
Definition demo_splay : ipc_splay_tree Z :=
  IST 9 (ITE ITE_NULL 8 80 ITE_NULL) [LF (ITE ITE_NULL 3 30 ITE_NULL) 5 50] [RF 12 120 ITE_NULL].

Lemma splay_lookup_witness :
  ∃ s', ipc_splay_tree_lookup demo_splay 3 = Ok (s', splay_map demo_splay !! 3)
    ∧ splay_wf s' ∧ splay_map s' = splay_map demo_splay.
Proof. apply (splay_lookup_correct demo_splay 3). decide_compute. Defined.

Lemma splay_insert_witness :
  ∃ s', ipc_splay_tree_insert demo_splay 9 90 = Ok s'
    ∧ splay_wf s' ∧ splay_map s' = <[9 := 90]> (splay_map demo_splay).
Proof.
  apply (splay_insert_correct demo_splay 9 90); [decide_compute|unfold is_u32; lia|reflexivity].
Defined.

Lemma splay_delete_witness :
  ∃ s', ipc_splay_tree_delete demo_splay 5 = Ok (s', 50)
    ∧ splay_wf s' ∧ splay_map s' = delete 5 (splay_map demo_splay).
Proof. apply (splay_delete_correct demo_splay 5 50); [decide_compute|reflexivity]. Defined.

Lemma splay_split_join_witness :
  ∃ big small, ipc_splay_tree_split demo_splay 8 = Ok (big, small)
    ∧ splay_wf big ∧ splay_wf small
    ∧ splay_map small = filter (λ p, p.1 < 8) (splay_map demo_splay)
    ∧ splay_map big = filter (λ p, 8 ≤ p.1) (splay_map demo_splay)
    ∧ ∃ s' small', ipc_splay_tree_join big small = Ok (s', small')
        ∧ splay_wf s' ∧ elems s' = elems demo_splay ∧ splay_map small' = ∅.
Proof. apply (splay_split_join_correct demo_splay 8). decide_compute. Defined.

Lemma splay_bounds_witness :
  ∃ s' lower upper, ipc_splay_tree_bounds demo_splay 7 = Ok (s', lower, upper)
    ∧ splay_wf s' ∧ splay_map s' = splay_map demo_splay
    ∧ is_lower_bound (elems demo_splay) 7 lower ∧ is_upper_bound (elems demo_splay) 7 upper.
Proof. apply (splay_bounds_correct demo_splay 7). decide_compute. Defined.

(** Collect the names, deleting the entries above 5. *)
Definition demo_body (st : list Z) (n e : Z) : outcome (list Z * bool) :=
  Ok (n :: st, 5 <? n).

Lemma splay_traverse_witness :
  match fold_elems demo_body [] (elems demo_splay) with
  | Ok (st', kept) =>
    ∃ s', splay_traverse 4 demo_body [] demo_splay = Ok (st', s') ∧ splay_wf s' ∧ elems s' = kept
  | Fault f => splay_traverse 4 demo_body [] demo_splay = Fault f
  end.
Proof.
  apply (splay_traverse_correct demo_body 4 [] demo_splay); [decide_compute|vm_compute; lia].
Defined.
