(* ===== verification/IpcTypes.v ===== *)
(** * Translation entries and the tables that hold them (ipc/ipc_entry.h)

    A capability of a space is an [ipc_entry].  The [index] union of the
    structure is one word, read as [ie_next] in a free entry and as
    [ie_request] in an entry in use.  Tables are arrays of entries; an
    access outside the array is a fault. *)

From stdpp Require Import prelude list gmap.
From S2P Require Import Prelude MachPort IpcSplay.

(** mach/kern_return.h *)
Inductive kern_return :=
  | KERN_SUCCESS
  | KERN_NO_SPACE
  | KERN_FAILURE
  | KERN_RESOURCE_SHORTAGE
  | KERN_NOT_IN_SET
  | KERN_NAME_EXISTS
  | KERN_INVALID_NAME
  | KERN_INVALID_TASK
  | KERN_INVALID_RIGHT
  | KERN_INVALID_VALUE
  | KERN_UREFS_OVERFLOW
  | KERN_INVALID_ARGUMENT
  | KERN_INVALID_CAPABILITY
  | KERN_RIGHT_EXISTS.

#[export] Instance kern_return_eq_dec : EqDecision kern_return.
Proof. solve_decision. Defined.

(** Objects are kernel addresses. *)
Definition IO_NULL : Z := 0.
Definition IO_DEAD : Z := 2 ^ 32 - 1.
Definition IO_VALID (io : Z) : bool := negb (io =? IO_NULL) && negb (io =? IO_DEAD).

Record ipc_entry := IE {
  ie_bits : Z;
  ie_object : Z;
  ie_request : Z;
  ie_index : Z;
}.

Abbreviation ie_next := ie_request (only parsing).

#[export] Instance ipc_entry_eq_dec : EqDecision ipc_entry.
Proof. solve_decision. Defined.

Definition set_ie_bits (e : ipc_entry) (b : Z) : ipc_entry :=
  IE b (ie_object e) (ie_request e) (ie_index e).
Definition set_ie_object (e : ipc_entry) (o : Z) : ipc_entry :=
  IE (ie_bits e) o (ie_request e) (ie_index e).
Definition set_ie_request (e : ipc_entry) (r : Z) : ipc_entry :=
  IE (ie_bits e) (ie_object e) r (ie_index e).
Definition set_ie_index (e : ipc_entry) (i : Z) : ipc_entry :=
  IE (ie_bits e) (ie_object e) (ie_request e) i.
Abbreviation set_ie_next := set_ie_request (only parsing).

(** [table[i]] *)
Definition tget {A} (table : list A) (i : Z) : option A :=
  if 0 <=? i then table !! Z.to_nat i else None.

(** [table[i] = f(table[i])]; out of range, nothing (the accesses of the
    code read the element first, which faults). *)
Definition tmod {A} (table : list A) (i : Z) (f : A → A) : list A :=
  if 0 <=? i then alter f (Z.to_nat i) table else table.

Definition tsize {A} (table : list A) : Z := Z.of_nat (length table).

Lemma tget_Some {A} (table : list A) i e : tget table i = Some e → 0 ≤ i < tsize table.
Proof.
  unfold tget, tsize. case_match; [|done]. intros ?%lookup_lt_Some. lia.
Qed.

Lemma tget_is_Some {A} (table : list A) i : 0 ≤ i < tsize table → ∃ e, tget table i = Some e.
Proof.
  unfold tget, tsize. intros. rewrite (proj2 (Z.leb_le 0 i)) by lia.
  apply lookup_lt_is_Some. lia.
Qed.

Lemma tsize_tmod {A} (table : list A) i f : tsize (tmod table i f) = tsize table.
Proof. unfold tsize, tmod. case_match; [|done]. by rewrite length_alter. Qed.

Lemma tget_tmod_eq {A} (table : list A) i f : tget (tmod table i f) i = f <$> tget table i.
Proof.
  unfold tget, tmod. destruct (Z.leb_spec 0 i); [|done]. by rewrite list_lookup_alter_eq.
Qed.

Lemma tget_tmod_ne {A} (table : list A) i j f : i ≠ j → tget (tmod table i f) j = tget table j.
Proof.
  intros. unfold tget, tmod. destruct (Z.leb_spec 0 i), (Z.leb_spec 0 j); try done.
  apply list_lookup_alter_ne. lia.
Qed.

Lemma tget_tmod {A} (table : list A) i j f :
  tget (tmod table i f) j = if decide (i = j) then f <$> tget table j else tget table j.
Proof. case_decide; [subst; apply tget_tmod_eq|by apply tget_tmod_ne]. Qed.

(** ** Spaces (ipc/ipc_space.h) and the memory they share

    A splay tree entry is a heap object: the tree, the reverse hash table
    and the callers hold its address.  Its [ite_next] link is represented by
    the list its bucket is, its [ite_lchild] and [ite_rchild] by the tree. *)

Record ipc_tree_entry := ITE_ {
  ite_entry : ipc_entry;
  ite_name : Z;
  ite_space : Z;
}.

Definition ite_bits (t : ipc_tree_entry) : Z := ie_bits (ite_entry t).
Definition ite_object (t : ipc_tree_entry) : Z := ie_object (ite_entry t).

(** [is_locked] says whether the thread under consideration holds
    [is_lock_data]; [is_table_addr] is the value of the pointer [is_table],
    and [is_table_next] the position in [ipc_table_entries] it points to. *)
Record ipc_space := IS {
  is_references : Z;
  is_locked : bool;
  is_active : bool;
  is_growing : bool;
  is_table : list ipc_entry;
  is_table_addr : Z;
  is_table_size : Z;
  is_table_next : nat;
  is_tree : ipc_splay_tree Z;
  is_tree_total : Z;
  is_tree_small : Z;
  is_tree_hash : Z;
  is_fast : bool;
}.

Definition set_is_references (s : ipc_space) (x : Z) : ipc_space :=
  IS x (is_locked s) (is_active s) (is_growing s) (is_table s) (is_table_addr s)
    (is_table_size s) (is_table_next s) (is_tree s) (is_tree_total s) (is_tree_small s)
    (is_tree_hash s) (is_fast s).
Definition set_is_locked (s : ipc_space) (x : bool) : ipc_space :=
  IS (is_references s) x (is_active s) (is_growing s) (is_table s) (is_table_addr s)
    (is_table_size s) (is_table_next s) (is_tree s) (is_tree_total s) (is_tree_small s)
    (is_tree_hash s) (is_fast s).
Definition set_is_active (s : ipc_space) (x : bool) : ipc_space :=
  IS (is_references s) (is_locked s) x (is_growing s) (is_table s) (is_table_addr s)
    (is_table_size s) (is_table_next s) (is_tree s) (is_tree_total s) (is_tree_small s)
    (is_tree_hash s) (is_fast s).
Definition set_is_growing (s : ipc_space) (x : bool) : ipc_space :=
  IS (is_references s) (is_locked s) (is_active s) x (is_table s) (is_table_addr s)
    (is_table_size s) (is_table_next s) (is_tree s) (is_tree_total s) (is_tree_small s)
    (is_tree_hash s) (is_fast s).
Definition set_is_table (s : ipc_space) (x : list ipc_entry) : ipc_space :=
  IS (is_references s) (is_locked s) (is_active s) (is_growing s) x (is_table_addr s)
    (is_table_size s) (is_table_next s) (is_tree s) (is_tree_total s) (is_tree_small s)
    (is_tree_hash s) (is_fast s).
Definition set_is_tree (s : ipc_space) (x : ipc_splay_tree Z) : ipc_space :=
  IS (is_references s) (is_locked s) (is_active s) (is_growing s) (is_table s) (is_table_addr s)
    (is_table_size s) (is_table_next s) x (is_tree_total s) (is_tree_small s)
    (is_tree_hash s) (is_fast s).
Definition set_is_tree_total (s : ipc_space) (x : Z) : ipc_space :=
  IS (is_references s) (is_locked s) (is_active s) (is_growing s) (is_table s) (is_table_addr s)
    (is_table_size s) (is_table_next s) (is_tree s) x (is_tree_small s)
    (is_tree_hash s) (is_fast s).
Definition set_is_tree_small (s : ipc_space) (x : Z) : ipc_space :=
  IS (is_references s) (is_locked s) (is_active s) (is_growing s) (is_table s) (is_table_addr s)
    (is_table_size s) (is_table_next s) (is_tree s) (is_tree_total s) x
    (is_tree_hash s) (is_fast s).
Definition set_is_tree_hash (s : ipc_space) (x : Z) : ipc_space :=
  IS (is_references s) (is_locked s) (is_active s) (is_growing s) (is_table s) (is_table_addr s)
    (is_table_size s) (is_table_next s) (is_tree s) (is_tree_total s) (is_tree_small s)
    x (is_fast s).
(** [is_table], [is_table_size] and [is_table_next], when the table grows. *)
Definition set_is_grown (s : ipc_space) (t : list ipc_entry) (addr size : Z) (next : nat) :
    ipc_space :=
  IS (is_references s) (is_locked s) (is_active s) (is_growing s) t addr size next
    (is_tree s) (is_tree_total s) (is_tree_small s) (is_tree_hash s) (is_fast s).

(** The space, the tree entries of all spaces, the buckets of the global
    reverse hash table, and the number of events the world has answered. *)
Record istate := IST_ {
  st_space : ipc_space;
  st_ites : gmap Z ipc_tree_entry;
  st_buckets : list (list Z);
  st_clock : nat;
}.

Definition with_space (st : istate) (f : ipc_space → ipc_space) : istate :=
  IST_ (f (st_space st)) (st_ites st) (st_buckets st) (st_clock st).
Definition with_ites (st : istate) (f : gmap Z ipc_tree_entry → gmap Z ipc_tree_entry) : istate :=
  IST_ (st_space st) (f (st_ites st)) (st_buckets st) (st_clock st).
Definition with_buckets (st : istate) (b : list (list Z)) : istate :=
  IST_ (st_space st) (st_ites st) b (st_clock st).
Definition tick (st : istate) : istate :=
  IST_ (st_space st) (st_ites st) (st_buckets st) (S (st_clock st)).

Definition st_table (st : istate) : list ipc_entry := is_table (st_space st).
Definition set_table (st : istate) (t : list ipc_entry) : istate :=
  with_space st (λ s, set_is_table s t).

(** What is outside of the component: the address of the space, the size of
    the global hash table, the answers of the memory allocators, and what
    the other threads have done to the space when its lock is granted. *)
Class iworld := {
  space_addr : Z;
  ipc_hash_global_size : Z;
  w_alloc : nat → istate → option Z;
  w_other : nat → istate → istate;
}.

(** An [ipc_entry_t]: a slot of the table or a tree entry. *)
Inductive eptr :=
  | EP_table (i : Z)
  | EP_tree (p : Z).

#[export] Instance eptr_eq_dec : EqDecision eptr.
Proof. solve_decision. Defined.

(** [*entry] *)
Definition eget (st : istate) (entry : eptr) : option ipc_entry :=
  match entry with
  | EP_table i => tget (st_table st) i
  | EP_tree p => ite_entry <$> st_ites st !! p
  end.

(** [*entry = f( *entry)] *)
Definition eset (st : istate) (entry : eptr) (f : ipc_entry → ipc_entry) : istate :=
  match entry with
  | EP_table i => set_table st (tmod (st_table st) i f)
  | EP_tree p =>
    with_ites st (alter (λ t, ITE_ (f (ite_entry t)) (ite_name t) (ite_space t)) p)
  end.

(** [is_write_lock], [is_write_unlock] and their read versions: one mutex.
    The other threads run while the lock is not held. *)
Section locks.
Context {W : iworld}.

Definition is_write_lock (st : istate) : outcome istate :=
  if is_locked (st_space st) then Fault FLock
  else Ok (with_space (tick (w_other (st_clock st) st)) (λ s, set_is_locked s true)).

Definition is_write_unlock (st : istate) : outcome istate :=
  if is_locked (st_space st) then Ok (with_space st (λ s, set_is_locked s false))
  else Fault FLock.

(** [zalloc] and [kalloc]. *)
Definition kmem (st : istate) : istate * option Z := (tick st, w_alloc (st_clock st) st).
End locks.
