(* ===== verification/IpcHash.v ===== *)
(** * Reverse hash tables: object to name (ipc/ipc_hash.c)

    Each space keeps, in the [ie_index] fields of its own table, an
    open-addressing hash table with linear probing that maps an object to
    the index of the entry for it.  Deletion closes the hole it makes by
    moving displaced indices up. *)

From stdpp Require Import prelude list gmap.
From S2P Require Import Prelude MachPort IpcSplay IpcTypes.

(** ** The local hash table *)

Definition IH_LOCAL_HASH (obj size : Z) : Z := Z.shiftr obj 6 mod size.

(** [if (++hindex == size) hindex = 0;] *)
Definition bump (size hindex : Z) : Z :=
  if hindex + 1 =? size then 0 else hindex + 1.

Fixpoint local_lookup_loop (fuel : nat) (table : list ipc_entry) (size obj hindex : Z) :
    outcome (option Z) :=
  match fuel with
  | O => Fault FLoop
  | S fuel' =>
    e ← deref (tget table hindex);
    let index := ie_index e in
    if index =? 0 then Ok None
    else
      entry ← deref (tget table index);
      if ie_object entry =? obj then Ok (Some index)
      else local_lookup_loop fuel' table size obj (bump size hindex)
  end.

(** Returns the name and the index of the entry. *)
Definition ipc_hash_local_lookup (table : list ipc_entry) (size obj : Z) :
    outcome (option (Z * Z)) :=
  kassert (negb (obj =? IO_NULL));;
  o ← local_lookup_loop (S (length table)) table size obj (IH_LOCAL_HASH obj size);
  match o with
  | None => Ok None
  | Some index =>
    entry ← deref (tget table index);
    Ok (Some (MACH_PORT_MAKEB index (ie_bits entry), index))
  end.

Fixpoint local_insert_loop (fuel : nat) (table : list ipc_entry) (size hindex : Z) :
    outcome Z :=
  match fuel with
  | O => Fault FLoop
  | S fuel' =>
    e ← deref (tget table hindex);
    if ie_index e =? 0 then Ok hindex
    else local_insert_loop fuel' table size (bump size hindex)
  end.

Definition ipc_hash_local_insert (table : list ipc_entry) (size obj index : Z) :
    outcome (list ipc_entry) :=
  kassert (negb (index =? 0));;
  kassert (negb (obj =? IO_NULL));;
  entry ← deref (tget table index);
  kassert (ie_object entry =? obj);;
  hindex ← local_insert_loop (S (length table)) table size (IH_LOCAL_HASH obj size);
  Ok (tmod table hindex (λ e, set_ie_index e index)).

Fixpoint local_find_loop (fuel : nat) (table : list ipc_entry) (size index hindex : Z) :
    outcome Z :=
  match fuel with
  | O => Fault FLoop
  | S fuel' =>
    e ← deref (tget table hindex);
    if ie_index e =? index then Ok hindex
    else local_find_loop fuel' table size index (bump size hindex)
  end.

(** Is an object whose hash value is [tindex], found at [dindex], displaced
    past the hole at [hindex]? *)
Definition displaced (hindex dindex tindex : Z) : bool :=
  if dindex <? hindex then (dindex <? tindex) && (tindex <=? hindex)
  else (dindex <? tindex) || (tindex <=? hindex).

(** The inner [for (;;)]: returns [dindex] and [index]. *)
Fixpoint local_scan_loop (fuel : nat) (table : list ipc_entry) (size hindex dindex : Z) :
    outcome (Z * Z) :=
  match fuel with
  | O => Fault FLoop
  | S fuel' =>
    let dindex := bump size dindex in
    kassert (negb (dindex =? hindex));;
    e ← deref (tget table dindex);
    let index := ie_index e in
    if index =? 0 then Ok (dindex, 0)
    else
      t ← deref (tget table index);
      let tobj := ie_object t in
      kassert (negb (tobj =? IO_NULL));;
      if displaced hindex dindex (IH_LOCAL_HASH tobj size) then Ok (dindex, index)
      else local_scan_loop fuel' table size hindex dindex
  end.

(** The outer [for]: [hindex] is the hole. *)
Fixpoint local_fill_loop (fuel : nat) (table : list ipc_entry) (size hindex index : Z) :
    outcome (list ipc_entry) :=
  match fuel with
  | O => Fault FLoop
  | S fuel' =>
    if index =? 0 then Ok table
    else
      '(dindex, index) ← local_scan_loop (S (length table)) table size hindex hindex;
      let table := tmod table hindex (λ e, set_ie_index e index) in
      local_fill_loop fuel' table size dindex index
  end.

Definition ipc_hash_local_delete (table : list ipc_entry) (size obj index : Z) :
    outcome (list ipc_entry) :=
  kassert (negb (index =? MACH_PORT_NULL));;
  kassert (negb (obj =? IO_NULL));;
  entry ← deref (tget table index);
  kassert (ie_object entry =? obj);;
  hindex ← local_find_loop (S (length table)) table size index (IH_LOCAL_HASH obj size);
  local_fill_loop (S (S (length table))) table size hindex index.

(** ** The global hash table

    Buckets are singly linked lists of tree entries of all spaces, the entry
    found last in front. *)

Section global.
Context {W : iworld}.

Definition ipc_hash_global_mask : Z := ipc_hash_global_size - 1.

Definition IH_GLOBAL_HASH (space obj : Z) : Z :=
  Z.land (u32 (Z.shiftr space 4 + Z.shiftr obj 6)) ipc_hash_global_mask.

Definition bucket_get (st : istate) (b : Z) : outcome (list Z) :=
  deref (st_buckets st !! Z.to_nat b).

Definition bucket_set (st : istate) (b : Z) (l : list Z) : istate :=
  with_buckets st (<[Z.to_nat b := l]> (st_buckets st)).

(** [this->ite_object == obj && this->ite_space == space] *)
Definition ite_matches (st : istate) (obj this : Z) : outcome bool :=
  t ← deref (st_ites st !! this);
  Ok ((ite_object t =? obj) && (ite_space t =? space_addr)).

(** The [for] loop over [last]: [seen] holds, reversed, what precedes
    [*last].  Returns the entry and the bucket without it. *)
Fixpoint global_find_loop (st : istate) (obj : Z) (seen bucket : list Z) :
    outcome (option (Z * list Z)) :=
  match bucket with
  | [] => Ok None
  | this :: next =>
    m ← ite_matches st obj this;
    if (m : bool) then Ok (Some (this, rev_append seen next))
    else global_find_loop st obj (this :: seen) next
  end.

Definition ipc_hash_global_lookup (st : istate) (obj : Z) :
    outcome (istate * option (Z * Z)) :=
  kassert (negb (space_addr =? 0));;
  kassert (negb (obj =? IO_NULL));;
  kassert (negb (is_fast (st_space st)));;
  let b := IH_GLOBAL_HASH space_addr obj in
  bucket ← bucket_get st b;
  match bucket with
  | [] => Ok (st, None)
  | this :: next =>
    m ← ite_matches st obj this;
    if (m : bool) then
      t ← deref (st_ites st !! this);
      Ok (st, Some (ite_name t, this))
    else
      o ← global_find_loop st obj [this] next;
      match o with
      | None => Ok (st, None)
      | Some (this, rest) =>
        t ← deref (st_ites st !! this);
        Ok (bucket_set st b (this :: rest), Some (ite_name t, this))
      end
  end.

Definition ipc_hash_global_insert (st : istate) (obj name entry : Z) : outcome istate :=
  kassert (negb (is_fast (st_space st)));;
  t ← deref (st_ites st !! entry);
  kassert (ite_name t =? name);;
  kassert (negb (space_addr =? 0));;
  kassert (ite_space t =? space_addr);;
  kassert (negb (obj =? IO_NULL));;
  kassert (ite_object t =? obj);;
  let st := with_space st (λ s, set_is_tree_hash s (is_tree_hash s + 1)) in
  kassert (is_tree_hash (st_space st) <=? is_tree_total (st_space st));;
  let b := IH_GLOBAL_HASH space_addr obj in
  bucket ← bucket_get st b;
  Ok (bucket_set st b (entry :: bucket)).

(** Unlink [entry]; [None] when the end is reached. *)
Fixpoint global_unlink_loop (entry : Z) (seen bucket : list Z) : option (list Z) :=
  match bucket with
  | [] => None
  | this :: next =>
    if this =? entry then Some (rev_append seen next)
    else global_unlink_loop entry (this :: seen) next
  end.

Definition ipc_hash_global_delete (st : istate) (obj name entry : Z) : outcome istate :=
  kassert (negb (is_fast (st_space st)));;
  t ← deref (st_ites st !! entry);
  kassert (ite_name t =? name);;
  kassert (negb (space_addr =? 0));;
  kassert (ite_space t =? space_addr);;
  kassert (negb (obj =? IO_NULL));;
  kassert (ite_object t =? obj);;
  kassert (0 <? is_tree_hash (st_space st));;
  let st := with_space st (λ s, set_is_tree_hash s (is_tree_hash s - 1)) in
  let b := IH_GLOBAL_HASH space_addr obj in
  bucket ← bucket_get st b;
  match global_unlink_loop entry [] bucket with
  | None => Fault FAssert
  | Some bucket => Ok (bucket_set st b bucket)
  end.

(** ** Both tables *)

Definition ipc_hash_lookup (st : istate) (obj : Z) : outcome (istate * option (Z * eptr)) :=
  let s := st_space st in
  rv ← ipc_hash_local_lookup (is_table s) (is_table_size s) obj;
  match rv with
  | Some (name, index) => Ok (st, Some (name, EP_table index))
  | None =>
    kassert (negb (is_fast s) || (is_tree_hash s =? 0));;
    if 0 <? is_tree_hash s then
      '(st, rv) ← ipc_hash_global_lookup st obj;
      Ok (st, option_map (λ '(name, p), (name, EP_tree p)) rv)
    else Ok (st, None)
  end.

Definition ipc_hash_insert (st : istate) (obj name : Z) (entry : eptr) : outcome istate :=
  let s := st_space st in
  let index := MACH_PORT_INDEX name in
  if (index <? is_table_size s) && bool_decide (entry = EP_table index) then
    table ← ipc_hash_local_insert (is_table s) (is_table_size s) obj index;
    Ok (set_table st table)
  else
    kassert (negb (is_fast s));;
    match entry with
    | EP_tree p => ipc_hash_global_insert st obj name p
    | EP_table _ => Fault FDeref
    end.

Definition ipc_hash_delete (st : istate) (obj name : Z) (entry : eptr) : outcome istate :=
  let s := st_space st in
  let index := MACH_PORT_INDEX name in
  if (index <? is_table_size s) && bool_decide (entry = EP_table index) then
    table ← ipc_hash_local_delete (is_table s) (is_table_size s) obj index;
    Ok (set_table st table)
  else
    kassert (negb (is_fast s));;
    match entry with
    | EP_tree p => ipc_hash_global_delete st obj name p
    | EP_table _ => Fault FDeref
    end.
End global.

(** ** Initialisation and statistics *)

(** [for (bit = 1;; bit <<= 1)]: returns the size. *)
Fixpoint hash_size_loop (fuel : nat) (mask bit : Z) : outcome Z :=
  match fuel with
  | O => Fault FLoop
  | S fuel' =>
    let mask := Z.lor mask bit in
    let size := u32 (mask + 1) in
    if Z.land size mask =? 0 then Ok size
    else hash_size_loop fuel' mask (u32 (Z.shiftl bit 1))
  end.

(** The size and the empty buckets; [size] is what the kernel was configured
    with, 0 if nothing. *)
Definition ipc_hash_init (size ipc_tree_entry_max : Z) : outcome (Z * list (list Z)) :=
  let size :=
    if size =? 0 then
      let size := Z.shiftr ipc_tree_entry_max 8 in
      if size <? 32 then 32 else size
    else size in
  let mask := u32 (size - 1) in
  size ← (if Z.land size mask =? 0 then Ok size else hash_size_loop 33 mask 1);
  Ok (size, replicate (Z.to_nat size) []).

(** [info[i].hib_count] for the buckets that fit, and the desired size. *)
Definition ipc_hash_info (size : Z) (buckets : list (list Z)) (count : Z) : list Z * Z :=
  let count := if size <? count then size else count in
  (Z.of_nat ∘ length <$> take (Z.to_nat count) buckets, size).

(** ** Cyclic distances *)

Definition dist (n a b : Z) : Z := if a <=? b then b - a else b - a + n.

Lemma bump_range n h : 0 ≤ h < n → 0 ≤ bump n h < n.
Proof. unfold bump. case_match; lia. Qed.

Lemma dist_range n a b : 0 ≤ a < n → 0 ≤ b < n → 0 ≤ dist n a b < n.
Proof. unfold dist. case_match; lia. Qed.

Lemma dist_refl n a : dist n a a = 0.
Proof. unfold dist. case_match; lia. Qed.

Lemma dist_inj n a b c :
  0 ≤ a < n → 0 ≤ b < n → 0 ≤ c < n → dist n a b = dist n a c → b = c.
Proof. unfold dist. repeat case_match; lia. Qed.

(** One step along the cycle. *)
Lemma dist_bump n a b :
  0 ≤ a < n → 0 ≤ b < n → bump n b ≠ a → dist n a (bump n b) = dist n a b + 1.
Proof. unfold dist, bump. repeat case_match; lia. Qed.

Lemma dist_bump_l n a b :
  0 ≤ a < n → 0 ≤ b < n → a ≠ b → dist n (bump n a) b = dist n a b - 1.
Proof. unfold dist, bump. repeat case_match; lia. Qed.

(** The test of the deletion loop: the hole comes before the slot on the
    probe sequence from the object's own hash value. *)
Lemma displaced_dist n h d t :
  0 ≤ h < n → 0 ≤ d < n → 0 ≤ t < n → d ≠ h →
  displaced h d t = bool_decide (dist n t h < dist n t d).
Proof.
  intros. apply eq_true_iff_eq. rewrite bool_decide_eq_true.
  unfold displaced, dist. repeat case_match; lia.
Qed.

(** ** Slots and the invariant of the table *)

Definition slot (table : list ipc_entry) (j : Z) : Z :=
  default 0 (ie_index <$> tget table j).

Definition object_at (table : list ipc_entry) (i : Z) : Z :=
  default IO_NULL (ie_object <$> tget table i).

Definition home (table : list ipc_entry) (i : Z) : Z :=
  IH_LOCAL_HASH (object_at table i) (tsize table).

(** The index [i] is entered in the hash table. *)
Definition hashed (table : list ipc_entry) (i : Z) : Prop :=
  i ≠ 0 ∧ ∃ j, 0 ≤ j < tsize table ∧ slot table j = i.

(** The entry at [j] is reached by probing from its hash value: every slot
    on the way is occupied. *)
Definition probed (table : list ipc_entry) (j : Z) : Prop :=
  ∀ k, 0 ≤ k < tsize table →
    dist (tsize table) (home table (slot table j)) k <
      dist (tsize table) (home table (slot table j)) j →
    slot table k ≠ 0.

Record local_hash (table : list ipc_entry) : Prop := {
  lh_index j : slot table j ≠ 0 → 0 < slot table j < tsize table;
  lh_object j : slot table j ≠ 0 → object_at table (slot table j) ≠ IO_NULL;
  lh_unique j k :
    slot table j ≠ 0 → slot table k ≠ 0 →
    object_at table (slot table j) = object_at table (slot table k) → j = k;
  lh_probe j : slot table j ≠ 0 → probed table j;
}.

Lemma slot_nonzero t j : slot t j ≠ 0 → 0 ≤ j < tsize t.
Proof.
  unfold slot. destruct (tget t j) eqn:?; [|done]. intros _. by eapply tget_Some.
Qed.

Lemma slot_get t j e : tget t j = Some e → ie_index e = slot t j.
Proof. unfold slot. by intros ->. Qed.

Lemma object_at_get t j e : tget t j = Some e → ie_object e = object_at t j.
Proof. unfold object_at. by intros ->. Qed.

Lemma home_range t i : 0 < tsize t → 0 ≤ home t i < tsize t.
Proof. intros. apply Z.mod_pos_bound. lia. Qed.

Lemma slot_set t h i j :
  0 ≤ h < tsize t →
  slot (tmod t h (λ e, set_ie_index e i)) j = if decide (h = j) then i else slot t j.
Proof.
  intros (e & He)%tget_is_Some. unfold slot. rewrite tget_tmod.
  case_decide; [subst|done]. by rewrite He.
Qed.

(** Entering a slot changes nothing but [ie_index] fields. *)
Definition same_entries (t t' : list ipc_entry) : Prop :=
  ∀ i, tget t' i = (λ e, set_ie_index e (slot t' i)) <$> tget t i.

Lemma same_entries_refl t : same_entries t t.
Proof. intros i. unfold slot. by destruct (tget t i) as [[]|]. Qed.

Lemma same_entries_trans t1 t2 t3 :
  same_entries t1 t2 → same_entries t2 t3 → same_entries t1 t3.
Proof. intros H1 H2 i. rewrite H2, H1. by destruct (tget t1 i). Qed.

Lemma same_entries_set t h i : same_entries t (tmod t h (λ e, set_ie_index e i)).
Proof.
  intros j. unfold slot. rewrite tget_tmod.
  case_decide; destruct (tget t j) as [[]|]; done.
Qed.

Lemma object_at_set t h i j :
  object_at (tmod t h (λ e, set_ie_index e i)) j = object_at t j.
Proof.
  unfold object_at. rewrite tget_tmod. case_decide; [|done]. by destruct (tget t j).
Qed.

Lemma home_set t h i j : home (tmod t h (λ e, set_ie_index e i)) j = home t j.
Proof. unfold home. by rewrite object_at_set, tsize_tmod. Qed.

(** The table depends on the slots and on the objects that are entered. *)
Lemma hashed_ext t t' i :
  tsize t' = tsize t → (∀ j, slot t' j = slot t j) → hashed t' i ↔ hashed t i.
Proof. intros Hn Hs. unfold hashed. rewrite Hn. by setoid_rewrite Hs. Qed.

Lemma local_hash_ext t t' :
  local_hash t → tsize t' = tsize t → (∀ j, slot t' j = slot t j) →
  (∀ i, hashed t i → object_at t' i = object_at t i) → local_hash t'.
Proof.
  intros Hl Hn Hs Ho.
  assert (∀ j, slot t j ≠ 0 → object_at t' (slot t j) = object_at t (slot t j)) as Ho'.
  { intros j Hj. apply Ho. split; [done|]. exists j. split; [by apply slot_nonzero|done]. }
  split.
  - intros j. rewrite Hs, Hn. apply Hl.
  - intros j. rewrite Hs. intros Hj. rewrite Ho' by done. by apply Hl.
  - intros j k. rewrite !Hs. intros Hj Hk. rewrite !Ho' by done. by apply Hl.
  - intros j. rewrite Hs. intros Hj k. unfold home. rewrite !Hs, Hn, Ho' by done.
    by apply (lh_probe _ Hl j Hj).
Qed.

(** Index 0 is never entered, so some slot is empty. *)
Lemma local_hash_empty_slot t :
  local_hash t → 0 < tsize t → ∃ j, 0 ≤ j < tsize t ∧ slot t j = 0.
Proof.
  intros Hh Hn.
  destruct (decide (Exists (λ e, ie_index e = 0) t)) as [He|He].
  - apply Exists_exists in He as (e & (k & Hk)%list_elem_of_lookup & He).
    exists (Z.of_nat k). assert (tget t (Z.of_nat k) = Some e) as Hg.
    { unfold tget. rewrite (proj2 (Z.leb_le _ _)) by lia. by rewrite Nat2Z.id. }
    split; [by eapply tget_Some|]. by rewrite <-(slot_get _ _ _ Hg).
  - exfalso. rewrite <-Forall_Exists_neg, Forall_forall in He.
    assert (∀ k e, t !! k = Some e → tget t (Z.of_nat k) = Some e) as Hget.
    { intros k e Hk. unfold tget. rewrite (proj2 (Z.leb_le _ _)) by lia. by rewrite Nat2Z.id. }
    assert (NoDup (ie_index <$> t)) as Hnd.
    { apply NoDup_alt. intros i j x Hi Hj.
      apply list_lookup_fmap_Some in Hi as (e & -> & Hi).
      apply list_lookup_fmap_Some in Hj as (e' & He' & Hj).
      pose proof (He e (list_elem_of_lookup_2 _ _ _ Hi)).
      rewrite (slot_get _ _ _ (Hget _ _ Hi)), (slot_get _ _ _ (Hget _ _ Hj)) in *.
      assert (Z.of_nat i = Z.of_nat j); [|lia].
      eapply lh_unique; [done|congruence..|]. by rewrite He'. }
    assert (ie_index <$> t ⊆+ seqZ 1 (tsize t - 1)) as Hsub.
    { apply NoDup_submseteq; [done|]. intros x (e & -> & Hin)%list_elem_of_fmap.
      pose proof (He e Hin). apply list_elem_of_lookup in Hin as (k & Hk).
      rewrite elem_of_seqZ. rewrite (slot_get _ _ _ (Hget _ _ Hk)) in *.
      pose proof (lh_index _ Hh (Z.of_nat k)). lia. }
    apply submseteq_length in Hsub. rewrite length_fmap, length_seqZ in Hsub.
    unfold tsize in *. lia.
Qed.

(** ** Lookup *)

(** Probing from [a], the slots before [h] are occupied and satisfy [P]. *)
Definition passed (t : list ipc_entry) (P : Z → Prop) (a h : Z) : Prop :=
  ∀ k, 0 ≤ k < tsize t → dist (tsize t) a k < dist (tsize t) a h → slot t k ≠ 0 ∧ P k.

Lemma passed_start t P a : 0 ≤ a < tsize t → passed t P a a.
Proof. intros ? k ? Hk. rewrite dist_refl in Hk. pose proof (dist_range (tsize t) a k). lia. Qed.

(** A probe step stays on the cycle, because an empty slot is ahead. *)
Lemma passed_bump t (P : Z → Prop) a h z :
  0 ≤ a < tsize t → 0 ≤ h < tsize t → 0 ≤ z < tsize t → slot t z = 0 →
  passed t P a h → slot t h ≠ 0 → P h →
  passed t P a (bump (tsize t) h) ∧
  dist (tsize t) (bump (tsize t) h) z = dist (tsize t) h z - 1.
Proof.
  intros Ha Hh Hz Hzero Hp Hs HP.
  assert (bump (tsize t) h ≠ a) as Hb.
  { intros Hb. destruct (decide (z = h)) as [->|]; [done|].
    destruct (Hp z Hz) as [? _]; [|done].
    pose proof (dist_range (tsize t) a z Ha Hz).
    assert (dist (tsize t) a h = tsize t - 1).
    { subst a. unfold dist, bump in *. repeat case_match; lia. }
    assert (dist (tsize t) a z ≠ dist (tsize t) a h); [|lia].
    intros ?%dist_inj; congruence || lia. }
  split; [|apply dist_bump_l; congruence || lia].
  intros k Hk Hd. rewrite dist_bump in Hd by done.
  destruct (decide (k = h)) as [->|]; [done|].
  apply Hp; [done|]. assert (dist (tsize t) a k ≠ dist (tsize t) a h); [|lia].
  intros ?%dist_inj; done || lia.
Qed.

Lemma local_lookup_loop_ok t obj fuel h z :
  local_hash t → 0 ≤ h < tsize t → 0 ≤ z < tsize t → slot t z = 0 →
  dist (tsize t) h z < Z.of_nat fuel →
  passed t (λ k, object_at t (slot t k) ≠ obj) (IH_LOCAL_HASH obj (tsize t)) h →
  ∃ r, local_lookup_loop fuel t (tsize t) obj h = Ok r ∧
    match r with
    | Some i => hashed t i ∧ object_at t i = obj
    | None => ∀ i, hashed t i → object_at t i ≠ obj
    end.
Proof.
  intros Hl Hh Hz Hzero. revert h Hh.
  assert (0 ≤ IH_LOCAL_HASH obj (tsize t) < tsize t) as Ha by (apply Z.mod_pos_bound; lia).
  induction fuel as [|fuel IH]; intros h Hh Hf Hp.
  { pose proof (dist_range (tsize t) h z Hh Hz). lia. }
  destruct (tget_is_Some t h Hh) as (e & He). simpl. rewrite He. simpl.
  rewrite (slot_get _ _ _ He). destruct (Z.eqb_spec (slot t h) 0) as [Hs|Hs].
  { exists None. split; [done|]. intros i (Hi & j & Hj & <-) Ho.
    pose proof (lh_probe _ Hl j Hi h Hh) as Hpr. unfold home in Hpr. rewrite Ho in Hpr.
    destruct (decide (j = h)) as [->|]; [done|].
    assert (dist (tsize t) (IH_LOCAL_HASH obj (tsize t)) j ≠
      dist (tsize t) (IH_LOCAL_HASH obj (tsize t)) h) by (intros ?%dist_inj; done || lia).
    destruct (Hp j Hj) as [_ ?]; [|done]. apply Z.nle_gt. intros ?. apply Hpr; [lia|done]. }
  destruct (tget_is_Some t (slot t h)) as (x & Hx).
  { pose proof (lh_index _ Hl h Hs). lia. }
  rewrite Hx. simpl. rewrite (object_at_get _ _ _ Hx).
  destruct (Z.eqb_spec (object_at t (slot t h)) obj) as [Ho|Ho].
  { exists (Some (slot t h)). unfold hashed. eauto 10. }
  destruct (passed_bump t _ _ h z Ha Hh Hz Hzero Hp Hs Ho) as [Hp' Hd].
  apply IH; [by apply bump_range|lia|done].
Qed.

Lemma local_lookup_spec t obj :
  local_hash t → 0 < tsize t → obj ≠ IO_NULL →
  ∃ r, ipc_hash_local_lookup t (tsize t) obj = Ok r ∧
    match r with
    | Some (name, i) => hashed t i ∧ object_at t i = obj ∧
        ∃ e, tget t i = Some e ∧ name = MACH_PORT_MAKEB i (ie_bits e)
    | None => ∀ i, hashed t i → object_at t i ≠ obj
    end.
Proof.
  intros Hl Hn Ho. unfold ipc_hash_local_lookup.
  rewrite (proj2 (Z.eqb_neq _ _)) by done. ostep.
  destruct (local_hash_empty_slot t Hl Hn) as (z & Hz & Hz0).
  assert (0 ≤ IH_LOCAL_HASH obj (tsize t) < tsize t) as Ha by (apply Z.mod_pos_bound; lia).
  destruct (local_lookup_loop_ok t obj (S (length t)) _ z Hl Ha Hz Hz0) as (r & Hr & Hspec).
  { pose proof (dist_range (tsize t) _ z Ha Hz). unfold tsize in *. lia. }
  { by apply passed_start. }
  rewrite Hr. ostep. destruct r as [i|]; [|by exists None].
  destruct Hspec as [Hi Hobj].
  destruct (tget_is_Some t i) as (e & He).
  { destruct Hi as (Hi & j & _ & <-). pose proof (lh_index _ Hl j Hi). lia. }
  rewrite He. simpl. eexists. split; [done|]. simpl. eauto.
Qed.

(** ** Insertion *)

Lemma local_insert_loop_ok t a fuel h z :
  0 ≤ a < tsize t → 0 ≤ h < tsize t → 0 ≤ z < tsize t → slot t z = 0 →
  dist (tsize t) h z < Z.of_nat fuel → passed t (λ _, True) a h →
  ∃ r, local_insert_loop fuel t (tsize t) h = Ok r ∧ 0 ≤ r < tsize t ∧ slot t r = 0 ∧
    passed t (λ _, True) a r.
Proof.
  intros Ha Hh Hz Hzero. revert h Hh.
  induction fuel as [|fuel IH]; intros h Hh Hf Hp.
  { pose proof (dist_range (tsize t) h z Hh Hz). lia. }
  destruct (tget_is_Some t h Hh) as (e & He). simpl. rewrite He. simpl.
  rewrite (slot_get _ _ _ He). destruct (Z.eqb_spec (slot t h) 0) as [Hs|Hs]; [by eauto|].
  destruct (passed_bump t _ a h z Ha Hh Hz Hzero Hp Hs I) as [Hp' Hd].
  apply IH; [by apply bump_range|lia|done].
Qed.

Lemma hashed_set_empty t h i j :
  0 ≤ h < tsize t → slot t h = 0 → i ≠ 0 →
  hashed (tmod t h (λ e, set_ie_index e i)) j ↔ j = i ∨ hashed t j.
Proof.
  intros Hh Hs Hi. unfold hashed. rewrite tsize_tmod. split.
  - intros (Hj & k & Hk & Hsk). rewrite slot_set in Hsk by done.
    case_decide; subst; [by left|right]. eauto.
  - intros [->|(Hj & k & Hk & <-)].
    + split; [done|]. exists h. rewrite slot_set by done. by rewrite decide_True.
    + split; [done|]. exists k. rewrite slot_set by done.
      rewrite decide_False by congruence. done.
Qed.

Lemma local_hash_set_empty t h i :
  local_hash t → 0 ≤ h < tsize t → slot t h = 0 →
  0 < i < tsize t → object_at t i ≠ IO_NULL →
  (∀ k, hashed t k → object_at t k ≠ object_at t i) →
  passed t (λ _, True) (home t i) h →
  local_hash (tmod t h (λ e, set_ie_index e i)).
Proof.
  intros Hl Hh Hs Hi Ho Hfresh Hp.
  assert (∀ j, slot t j ≠ 0 → object_at t (slot t j) ≠ object_at t i) as Hf.
  { intros j Hj. apply Hfresh. split; [done|]. exists j. split; [|done].
    by apply slot_nonzero. }
  split.
  - intros j. rewrite slot_set, tsize_tmod by done. case_decide; [done|]. apply Hl.
  - intros j. rewrite slot_set, object_at_set by done. case_decide; [done|]. apply Hl.
  - intros j k. rewrite !slot_set, !object_at_set by done.
    repeat case_decide; subst; try done.
    + intros _ Hk Heq. by destruct (Hf k Hk).
    + intros Hk _ Heq. by destruct (Hf j Hk).
    + apply Hl.
  - intros j Hj k. rewrite slot_set in Hj by done.
    rewrite tsize_tmod, home_set, !slot_set by done. intros Hk Hd.
    destruct (decide (h = k)); [lia|].
    destruct (decide (h = j)); subst; [by apply Hp|]. by apply (lh_probe _ Hl j Hj k Hk).
Qed.

Lemma local_insert_spec t index :
  local_hash t → 0 < index < tsize t → object_at t index ≠ IO_NULL →
  (∀ k, hashed t k → object_at t k ≠ object_at t index) →
  ∃ t', ipc_hash_local_insert t (tsize t) (object_at t index) index = Ok t' ∧
    local_hash t' ∧ tsize t' = tsize t ∧ same_entries t t' ∧
    ∀ i, hashed t' i ↔ i = index ∨ hashed t i.
Proof.
  intros Hl Hi Ho Hfresh. unfold ipc_hash_local_insert.
  rewrite (proj2 (Z.eqb_neq index 0)), (proj2 (Z.eqb_neq _ IO_NULL)) by done || lia. simpl.
  destruct (tget_is_Some t index) as (e & He); [lia|]. rewrite He. simpl.
  rewrite (object_at_get _ _ _ He), Z.eqb_refl. simpl.
  destruct (local_hash_empty_slot t Hl) as (z & Hz & Hz0); [lia|].
  assert (0 ≤ home t index < tsize t) as Ha by (apply home_range; lia).
  destruct (local_insert_loop_ok t (home t index) (S (length t)) (home t index) z)
    as (h & Hr & Hh & Hs & Hp); [done..| |by apply passed_start|].
  { pose proof (dist_range (tsize t) _ z Ha Hz). unfold tsize in *. lia. }
  cbn [local_insert_loop] in Hr. unfold home in Hr. rewrite Hr. simpl. eexists. split; [done|].
  split_and!.
  - by apply local_hash_set_empty.
  - apply tsize_tmod.
  - apply same_entries_set.
  - intros i. apply hashed_set_empty; done || lia.
Qed.

(** ** Deletion *)

Lemma dist_split n a b c :
  0 ≤ a < n → 0 ≤ b < n → 0 ≤ c < n →
  dist n a b ≤ dist n a c → dist n b c = dist n a c - dist n a b.
Proof. unfold dist. repeat case_match; lia. Qed.

Lemma dist_pos n a b : 0 ≤ a < n → 0 ≤ b < n → a ≠ b → 0 < dist n a b.
Proof. unfold dist. repeat case_match; lia. Qed.

(** The search for the slot that holds [index]. *)
Lemma local_find_loop_ok t index j fuel h :
  local_hash t → index ≠ 0 → slot t j = index → 0 ≤ h < tsize t →
  dist (tsize t) h j < Z.of_nat fuel →
  local_find_loop fuel t (tsize t) index h = Ok j.
Proof.
  intros Hl Hi Hj. assert (0 ≤ j < tsize t) as Hr by (apply slot_nonzero; congruence).
  revert h. induction fuel as [|fuel IH]; intros h Hh Hf.
  { pose proof (dist_range (tsize t) h j Hh Hr). lia. }
  destruct (tget_is_Some t h Hh) as (e & He). simpl. rewrite He. simpl.
  rewrite (slot_get _ _ _ He). destruct (Z.eqb_spec (slot t h) index) as [Hs|Hs].
  - f_equal. eapply lh_unique; [done|congruence..].
  - assert (h ≠ j) by congruence.
    apply IH; [by apply bump_range|]. rewrite dist_bump_l by done. lia.
Qed.

(** The table while the hole is at [h]: the stale value of the hole still
    counts as occupied, every other slot obeys the invariant. *)
Record holed (t : list ipc_entry) (h : Z) : Prop := {
  ho_stale : slot t h ≠ 0;
  ho_index j : j ≠ h → slot t j ≠ 0 → 0 < slot t j < tsize t;
  ho_object j : j ≠ h → slot t j ≠ 0 → object_at t (slot t j) ≠ IO_NULL;
  ho_unique j k : j ≠ h → k ≠ h → slot t j ≠ 0 → slot t k ≠ 0 →
    object_at t (slot t j) = object_at t (slot t k) → j = k;
  ho_probe j : j ≠ h → slot t j ≠ 0 → probed t j;
}.

Definition hashed_but (t : list ipc_entry) (h i : Z) : Prop :=
  i ≠ 0 ∧ ∃ j, 0 ≤ j < tsize t ∧ j ≠ h ∧ slot t j = i.

Lemma local_hash_holed t h : local_hash t → slot t h ≠ 0 → holed t h.
Proof. intros [] ?. split; naive_solver. Qed.

(** The slots after the hole up to [d] hold objects not displaced past it. *)
Definition scanned (t : list ipc_entry) (h d : Z) : Prop :=
  ∀ k, 0 ≤ k < tsize t → 0 < dist (tsize t) h k ≤ dist (tsize t) h d →
    slot t k ≠ 0 ∧
    dist (tsize t) (home t (slot t k)) k ≤ dist (tsize t) (home t (slot t k)) h.

Lemma local_scan_loop_ok t h z fuel d :
  holed t h → 0 ≤ h < tsize t → 0 ≤ d < tsize t → 0 ≤ z < tsize t → slot t z = 0 →
  dist (tsize t) h d < dist (tsize t) h z → dist (tsize t) d z ≤ Z.of_nat fuel →
  scanned t h d →
  ∃ d', local_scan_loop fuel t (tsize t) h d = Ok (d', slot t d') ∧
    0 ≤ d' < tsize t ∧ d' ≠ h ∧ dist (tsize t) h d' ≤ dist (tsize t) h z ∧
    (∀ k, 0 ≤ k < tsize t → dist (tsize t) h k < dist (tsize t) h d' → k = h ∨
      dist (tsize t) (home t (slot t k)) k ≤ dist (tsize t) (home t (slot t k)) h) ∧
    (slot t d' ≠ 0 →
      dist (tsize t) (home t (slot t d')) h < dist (tsize t) (home t (slot t d')) d').
Proof.
  intros Ht Hh Hd Hz Hz0. revert d Hd.
  induction fuel as [|fuel IH]; intros d Hd Hdz Hf Hsc.
  { pose proof (dist_range (tsize t) d z Hd Hz).
    assert (d ≠ z) by (intros ->; lia). pose proof (dist_pos _ d z Hd Hz). lia. }
  assert (d ≠ z) as Hne by (intros ->; lia).
  pose proof (dist_bump_l (tsize t) d z Hd Hz Hne) as Hb.
  pose proof (dist_split (tsize t) h d z Hh Hd Hz ltac:(lia)) as Hsp.
  assert (bump (tsize t) d ≠ h) as Hbh.
  { intros Heq. rewrite Heq in Hb. pose proof (dist_range (tsize t) h d Hh Hd). lia. }
  pose proof (dist_bump (tsize t) h d Hh Hd Hbh) as Hbd.
  pose proof (bump_range (tsize t) d Hd) as Hbr.
  simpl. rewrite (proj2 (Z.eqb_neq _ h)) by done. simpl.
  assert (∀ k, 0 ≤ k < tsize t → dist (tsize t) h k < dist (tsize t) h (bump (tsize t) d) →
    k = h ∨ dist (tsize t) (home t (slot t k)) k ≤ dist (tsize t) (home t (slot t k)) h) as Hbefore.
  { intros k Hk Hlt. destruct (decide (k = h)) as [->|]; [by left|right].
    apply (Hsc k Hk). pose proof (dist_pos _ h k Hh Hk). lia. }
  destruct (tget_is_Some t _ Hbr) as (e & He). rewrite He. simpl. rewrite (slot_get _ _ _ He).
  destruct (Z.eqb_spec (slot t (bump (tsize t) d)) 0) as [Hs|Hs].
  { exists (bump (tsize t) d). rewrite Hs. split_and!; done || lia. }
  pose proof (ho_index _ _ Ht _ Hbh Hs) as Hir.
  destruct (tget_is_Some t (slot t (bump (tsize t) d))) as (x & Hx); [lia|].
  rewrite Hx. simpl. rewrite (object_at_get _ _ _ Hx).
  rewrite (proj2 (Z.eqb_neq _ IO_NULL)) by (by apply Ht). simpl.
  fold (home t (slot t (bump (tsize t) d))).
  pose proof (home_range t (slot t (bump (tsize t) d)) ltac:(lia)) as Hhm.
  rewrite (displaced_dist (tsize t)) by done.
  destruct (bool_decide _) eqn:Hdisp.
  { apply bool_decide_eq_true in Hdisp. eexists. split; [done|].
    split_and!; done || lia. }
  apply bool_decide_eq_false in Hdisp.
  assert (bump (tsize t) d ≠ z) by congruence.
  apply IH; [done| |lia|].
  - pose proof (dist_range (tsize t) (bump (tsize t) d) z Hbr Hz).
    pose proof (dist_pos _ (bump (tsize t) d) z Hbr Hz). lia.
  - intros k Hk Hlt. destruct (decide (k = bump (tsize t) d)) as [->|]; [split; [done|lia]|].
    apply Hsc; [done|].
    assert (dist (tsize t) h k ≠ dist (tsize t) h (bump (tsize t) d)); [|lia].
    intros ?%dist_inj; done.
Qed.

(** Moving a displaced index into the hole makes its old slot the hole. *)
Lemma holed_move t h d :
  holed t h → 0 ≤ h < tsize t → 0 ≤ d < tsize t → d ≠ h → slot t d ≠ 0 →
  dist (tsize t) (home t (slot t d)) h < dist (tsize t) (home t (slot t d)) d →
  holed (tmod t h (λ e, set_ie_index e (slot t d))) d.
Proof.
  intros Ht Hh Hd Hne Hs Hdisp. split.
  - rewrite slot_set, decide_False by done. done.
  - intros j Hj. rewrite slot_set, tsize_tmod by done. case_decide; intros; by apply Ht.
  - intros j Hj. rewrite slot_set, object_at_set by done. case_decide; intros; by apply Ht.
  - intros j k Hj Hk. rewrite !slot_set, !object_at_set by done.
    repeat case_decide; subst; intros ? ? Heq; try done.
    + by destruct (ho_unique _ _ Ht d k).
    + by destruct (ho_unique _ _ Ht j d).
    + by apply (ho_unique _ _ Ht).
  - intros j Hj Hsj k. rewrite slot_set in Hsj by done.
    rewrite tsize_tmod, home_set, !slot_set by done. intros Hk Hlt.
    destruct (decide (h = k)); [done|]. destruct (decide (h = j)) as [->|].
    + apply (ho_probe _ _ Ht d); done || lia.
    + by apply (ho_probe _ _ Ht j).
Qed.

Lemma hashed_but_move t h d i :
  0 ≤ h < tsize t → 0 ≤ d < tsize t → d ≠ h → slot t d ≠ 0 →
  hashed_but (tmod t h (λ e, set_ie_index e (slot t d))) d i ↔ hashed_but t h i.
Proof.
  intros Hh Hd Hne Hs. unfold hashed_but. rewrite tsize_tmod. split.
  - intros (Hi & j & Hj & Hjd & Hsj). rewrite slot_set in Hsj by done.
    case_decide; subst; eauto 10.
  - intros (Hi & j & Hj & Hjh & <-). split; [done|].
    destruct (decide (j = d)) as [->|].
    + exists h. rewrite slot_set, decide_True by done. naive_solver.
    + exists j. rewrite slot_set, decide_False by done. done.
Qed.

(** Clearing the hole at the end of the clump. *)
Lemma holed_clear t h d :
  holed t h → 0 ≤ h < tsize t → 0 ≤ d < tsize t → d ≠ h → slot t d = 0 →
  (∀ k, 0 ≤ k < tsize t → dist (tsize t) h k < dist (tsize t) h d → k = h ∨
    dist (tsize t) (home t (slot t k)) k ≤ dist (tsize t) (home t (slot t k)) h) →
  local_hash (tmod t h (λ e, set_ie_index e 0)) ∧
  ∀ i, hashed (tmod t h (λ e, set_ie_index e 0)) i ↔ hashed_but t h i.
Proof.
  intros Ht Hh Hd Hne Hs Hsc. split; [split|].
  - intros j. rewrite slot_set, tsize_tmod by done. case_decide; [done|].
    intros; by apply Ht.
  - intros j. rewrite slot_set, object_at_set by done. case_decide; [done|].
    intros; by apply Ht.
  - intros j k. rewrite !slot_set, !object_at_set by done.
    repeat case_decide; try done. intros. by apply (ho_unique _ _ Ht).
  - intros j Hsj k. rewrite slot_set in Hsj by done.
    rewrite tsize_tmod, home_set, !slot_set by done. intros Hk Hlt.
    destruct (decide (h = j)); [done|].
    pose proof (ho_probe _ _ Ht j ltac:(done) Hsj) as Hp.
    destruct (decide (h = k)) as [->|]; [|by apply Hp]. exfalso.
    pose proof (slot_nonzero t j Hsj) as Hj.
    pose proof (home_range t (slot t j) ltac:(lia)) as Hm.
    assert (dist (tsize t) (home t (slot t j)) j < dist (tsize t) (home t (slot t j)) d) as Hjd.
    { apply Z.nle_gt. intros Hle. destruct (decide (j = d)) as [->|]; [done|].
      apply (Hp d Hd); [|done].
      assert (dist (tsize t) (home t (slot t j)) j ≠ dist (tsize t) (home t (slot t j)) d); [|lia].
      intros ?%dist_inj; done. }
    pose proof (dist_split _ _ k j Hm Hh Hj ltac:(lia)).
    pose proof (dist_split _ _ k d Hm Hh Hd ltac:(lia)).
    destruct (Hsc j Hj) as [->|?]; [lia|done|lia].
  - intros i. unfold hashed, hashed_but. rewrite tsize_tmod. split.
    + intros (Hi & j & Hj & Hsj). rewrite slot_set in Hsj by done.
      case_decide; subst; [done|]. eauto 10.
    + intros (Hi & j & Hj & Hjh & <-). split; [done|]. exists j.
      by rewrite slot_set, decide_False.
Qed.

Lemma local_fill_loop_done fuel t n h : local_fill_loop (S fuel) t n h 0 = Ok t.
Proof. done. Qed.

Lemma local_fill_loop_ok fuel t h z index :
  holed t h → 0 ≤ h < tsize t → 0 ≤ z < tsize t → slot t z = 0 → index ≠ 0 →
  dist (tsize t) h z < Z.of_nat fuel →
  ∃ t', local_fill_loop (S fuel) t (tsize t) h index = Ok t' ∧
    local_hash t' ∧ tsize t' = tsize t ∧ same_entries t t' ∧
    ∀ i, hashed t' i ↔ hashed_but t h i.
Proof.
  revert t h index. induction fuel as [|fuel IH]; intros t h index Ht Hh Hz Hz0 Hi Hf.
  { pose proof (dist_range (tsize t) h z Hh Hz). lia. }
  assert (h ≠ z) as Hhz by (intros ->; by apply (ho_stale _ _ Ht)).
  destruct (local_scan_loop_ok t h z (S (length t)) h)
    as (d & Hscan & Hd & Hdh & Hdz & Hbefore & Hdisp); [done..| | | |].
  { rewrite dist_refl. by apply dist_pos. }
  { pose proof (dist_range (tsize t) h z Hh Hz). unfold tsize in *. lia. }
  { intros k Hk. rewrite dist_refl. lia. }
  cbn [local_fill_loop]. rewrite (proj2 (Z.eqb_neq index 0)) by done.
  rewrite Hscan. ostep.
  destruct (decide (slot t d = 0)) as [Hs|Hs].
  { rewrite Hs. destruct (holed_clear t h d) as [Hl Hiff]; [done..|].
    eexists. split; [done|]. split_and!; [done|apply tsize_tmod|apply same_entries_set|done]. }
  assert (d ≠ z) by congruence.
  pose proof (dist_split (tsize t) h d z Hh Hd Hz Hdz).
  pose proof (dist_pos (tsize t) h d Hh Hd ltac:(done)).
  destruct (IH (tmod t h (λ e, set_ie_index e (slot t d))) d (slot t d))
    as (t' & Hrun & Hl & Hsz & Hsame & Hiff);
    rewrite ?tsize_tmod; try done || lia.
  { apply holed_move; auto. }
  { by rewrite slot_set, decide_False. }
  rewrite tsize_tmod in Hrun, Hsz. exists t'. split_and!; try done.
  - eapply same_entries_trans; [apply same_entries_set|done].
  - intros i. rewrite Hiff. by apply hashed_but_move.
Qed.

Lemma local_delete_spec t index :
  local_hash t → hashed t index →
  ∃ t', ipc_hash_local_delete t (tsize t) (object_at t index) index = Ok t' ∧
    local_hash t' ∧ tsize t' = tsize t ∧ same_entries t t' ∧
    ∀ i, hashed t' i ↔ hashed t i ∧ i ≠ index.
Proof.
  intros Hl (Hi & j & Hj & Hsj). unfold ipc_hash_local_delete.
  assert (slot t j ≠ 0) as Hs0 by congruence.
  pose proof (lh_index _ Hl j Hs0). pose proof (lh_object _ Hl j Hs0). rewrite Hsj in *.
  rewrite (proj2 (Z.eqb_neq index _)), (proj2 (Z.eqb_neq _ IO_NULL)) by done. ostep.
  destruct (tget_is_Some t index) as (e & He); [lia|]. rewrite He. ostep.
  rewrite (object_at_get _ _ _ He), Z.eqb_refl. ostep.
  fold (home t index). pose proof (home_range t index ltac:(lia)) as Hm.
  pose proof (dist_range (tsize t) _ j Hm Hj) as Hdj.
  rewrite (local_find_loop_ok t index j) by (done || (unfold tsize in *; lia)).
  ostep.
  destruct (local_hash_empty_slot t Hl) as (z & Hz & Hz0); [lia|].
  destruct (local_fill_loop_ok (S (length t)) t j z index)
    as (t' & Hrun & Hl' & Hsz & Hsame & Hiff);
    [by apply local_hash_holed; [|congruence]|done..| |].
  { pose proof (dist_range (tsize t) j z Hj Hz). unfold tsize in *. lia. }
  exists t'. split_and!; [done..|]. intros i. rewrite Hiff. split.
  - intros (Hi0 & k & Hk & Hkj & <-). split; [split; eauto|].
    intros Heq. destruct Hkj. apply (lh_unique _ Hl); congruence.
  - intros ((Hi0 & k & Hk & <-) & Hne). split; [done|]. exists k.
    split_and!; [lia|lia|congruence|done].
Qed.

(** ** The global table

    [l] lists the names of the space's tree with the addresses of their
    entries. *)

Lemma mjoin_insert {A} (bs : list (list A)) b l :
  bs !! b = Some l →
  ∃ rest, mjoin bs ≡ₚ l ++ rest ∧ ∀ l', mjoin (<[b := l']> bs) ≡ₚ l' ++ rest.
Proof.
  intros Hb. exists (mjoin (take b bs) ++ mjoin (drop (S b) bs)).
  pose proof (lookup_lt_Some _ _ _ Hb). split; [|intros l'].
  - rewrite <-(take_drop_middle bs b l Hb) at 1. rewrite join_app. simpl. solve_Permutation.
  - rewrite insert_take_drop by done. rewrite join_app. simpl. solve_Permutation.
Qed.

Lemma rev_append_perm {A} (l1 l2 : list A) : rev_append l1 l2 ≡ₚ l1 ++ l2.
Proof. rewrite rev_append_rev. by rewrite <-Permutation_rev. Qed.

Section global_facts.
Context {W : iworld}.

Definition own (ites : gmap Z ipc_tree_entry) (p : Z) : Prop :=
  ite_space <$> ites !! p = Some space_addr.

#[export] Instance own_dec ites p : Decision (own ites p).
Proof. unfold own. apply _. Defined.

Definition object_of (ites : gmap Z ipc_tree_entry) (p : Z) : Z :=
  default IO_NULL (ite_object <$> ites !! p).

(** The number of tree entries of the space in the table. *)
Definition own_hashed (ites : gmap Z ipc_tree_entry) (bs : list (list Z)) : nat :=
  length (filter (own ites) (mjoin bs)).

Record global_hash (l : list (Z * Z)) (ites : gmap Z ipc_tree_entry) (bs : list (list Z)) :
    Prop := {
  gh_size : ∃ k, 0 ≤ k ≤ 32 ∧ ipc_hash_global_size = 2 ^ k;
  gh_length : Z.of_nat (length bs) = ipc_hash_global_size;
  gh_bucket b bucket p : bs !! b = Some bucket → p ∈ bucket →
    ∃ t, ites !! p = Some t ∧ Z.to_nat (IH_GLOBAL_HASH (ite_space t) (ite_object t)) = b;
  gh_nodup : NoDup (mjoin bs);
  gh_own p t : p ∈ mjoin bs → ites !! p = Some t → ite_space t = space_addr →
    (ite_name t, p) ∈ l ∧ ite_object t ≠ IO_NULL;
  gh_unique p q : p ∈ mjoin bs → q ∈ mjoin bs → own ites p → own ites q →
    object_of ites p = object_of ites q → p = q;
}.

Lemma global_hash_range l ites bs sp obj :
  global_hash l ites bs → 0 ≤ IH_GLOBAL_HASH sp obj < ipc_hash_global_size.
Proof.
  intros Hg. destruct (gh_size _ _ _ Hg) as (k & Hk & Heq).
  unfold IH_GLOBAL_HASH, ipc_hash_global_mask. rewrite Heq.
  replace (2 ^ k - 1) with (Z.ones k) by (rewrite Z.ones_equiv; lia).
  rewrite Z.land_ones by lia. apply Z.mod_pos_bound. lia.
Qed.

Lemma global_hash_bucket l ites bs sp obj :
  global_hash l ites bs → ∃ bucket, bs !! Z.to_nat (IH_GLOBAL_HASH sp obj) = Some bucket.
Proof.
  intros Hg. pose proof (global_hash_range _ _ _ sp obj Hg). pose proof (gh_length _ _ _ Hg).
  apply lookup_lt_is_Some. lia.
Qed.

Lemma elem_of_mjoin {A} (bs : list (list A)) p :
  p ∈ mjoin bs ↔ ∃ b bucket, bs !! b = Some bucket ∧ p ∈ bucket.
Proof.
  rewrite list_elem_of_join. split.
  - intros (bucket & Hp & (b & Hb)%list_elem_of_lookup). eauto.
  - intros (b & bucket & Hb & Hp). exists bucket. split; [done|].
    by eapply list_elem_of_lookup_2.
Qed.

Lemma gh_entry l ites bs p : global_hash l ites bs → p ∈ mjoin bs → ∃ t, ites !! p = Some t.
Proof. intros Hg (b & bucket & Hb & Hp)%elem_of_mjoin. edestruct gh_bucket; naive_solver. Qed.

Lemma own_iff ites p t : ites !! p = Some t → own ites p ↔ ite_space t = space_addr.
Proof. unfold own. intros ->. simpl. split; congruence. Qed.

Lemma object_of_Some ites p t : ites !! p = Some t → object_of ites p = ite_object t.
Proof. unfold object_of. by intros ->. Qed.

(** A hashed entry of the space is in the bucket of its object. *)
Lemma own_in_bucket l ites bs p obj :
  global_hash l ites bs → p ∈ mjoin bs → own ites p → object_of ites p = obj →
  ∃ bucket, bs !! Z.to_nat (IH_GLOBAL_HASH space_addr obj) = Some bucket ∧ p ∈ bucket.
Proof.
  intros Hg (b & bucket & Hb & Hp)%elem_of_mjoin Ho Hobj.
  destruct (gh_bucket _ _ _ Hg _ _ _ Hb Hp) as (t & Ht & <-).
  rewrite (own_iff _ _ t Ht) in Ho. rewrite (object_of_Some _ _ _ Ht) in Hobj.
  rewrite Ho, Hobj in Hb. eauto.
Qed.


(** Dropping or reordering entries within buckets. *)
Lemma global_hash_sub l ites bs b bucket bucket' :
  global_hash l ites bs → bs !! b = Some bucket → NoDup bucket' → bucket' ⊆ bucket →
  global_hash l ites (<[b := bucket']> bs).
Proof.
  intros Hg Hb Hnd Hsub. pose proof (lookup_lt_Some _ _ _ Hb) as Hlt.
  destruct (mjoin_insert bs b bucket Hb) as (rest & Hp & Hp').
  assert (∀ p, p ∈ mjoin (<[b := bucket']> bs) → p ∈ mjoin bs) as Hin.
  { intros p. rewrite Hp, Hp', !elem_of_app. set_solver. }
  split.
  - apply Hg.
  - rewrite length_insert. apply Hg.
  - intros b' bk p. rewrite list_lookup_insert. case_decide as Hd.
    + destruct Hd as [-> _]. intros [= <-] Hpin. eapply (gh_bucket _ _ _ Hg _ bucket); auto.
    + by apply (gh_bucket _ _ _ Hg).
  - pose proof (gh_nodup _ _ _ Hg) as Hn. rewrite Hp in Hn. rewrite Hp'.
    apply NoDup_app in Hn as (_ & Hdis & Hr). apply NoDup_app. split_and!; [done| |done].
    intros p Hpin. apply Hdis. by apply Hsub.
  - intros p t Hpin. apply (gh_own _ _ _ Hg). auto.
  - intros p q Hpin Hqin. apply (gh_unique _ _ _ Hg); auto.
Qed.

Lemma global_hash_perm l ites bs b bucket bucket' :
  global_hash l ites bs → bs !! b = Some bucket → bucket' ≡ₚ bucket →
  global_hash l ites (<[b := bucket']> bs) ∧ mjoin (<[b := bucket']> bs) ≡ₚ mjoin bs.
Proof.
  intros Hg Hb Hperm. destruct (mjoin_insert bs b bucket Hb) as (rest & Hp & Hp').
  split; [|by rewrite Hp, Hp', Hperm].
  pose proof (gh_nodup _ _ _ Hg) as Hn. rewrite Hp in Hn. apply NoDup_app in Hn as (Hn & _ & _).
  eapply global_hash_sub; [done..| |]; [by rewrite Hperm|].
  intros p. by rewrite Hperm.
Qed.

Lemma ite_matches_ok st obj p t :
  st_ites st !! p = Some t →
  ite_matches st obj p =
    Ok (bool_decide (own (st_ites st) p ∧ object_of (st_ites st) p = obj)).
Proof.
  intros Ht. unfold ite_matches. rewrite Ht. simpl. f_equal.
  apply eq_true_iff_eq. rewrite andb_true_iff, !Z.eqb_eq, bool_decide_eq_true.
  rewrite (own_iff _ _ t Ht), (object_of_Some _ _ _ Ht). tauto.
Qed.

Lemma global_find_loop_ok st obj seen bucket :
  (∀ p, p ∈ bucket → ∃ t, st_ites st !! p = Some t) →
  ∃ r, global_find_loop st obj seen bucket = Ok r ∧
    match r with
    | Some (p, rest) => p :: rest ≡ₚ seen ++ bucket ∧ p ∈ bucket ∧
        own (st_ites st) p ∧ object_of (st_ites st) p = obj
    | None => ∀ p, p ∈ bucket → ¬ (own (st_ites st) p ∧ object_of (st_ites st) p = obj)
    end.
Proof.
  revert seen. induction bucket as [|p bucket IH]; intros seen Hent; simpl.
  { exists None. split; [done|]. intros p Hp. by apply elem_of_nil in Hp. }
  destruct (Hent p) as (t & Ht); [by left|]. rewrite (ite_matches_ok st obj p t Ht). simpl.
  case_bool_decide as Hm.
  { eexists. split; [done|]. simpl. split_and!; [|by left|by apply Hm..].
    rewrite rev_append_perm. solve_Permutation. }
  destruct (IH (p :: seen)) as (r & Hr & Hspec); [intros q Hq; apply Hent; by right|].
  exists r. split; [done|]. destruct r as [[q rest]|].
  - destruct Hspec as (Hperm & Hin & ?). split_and!; [|by right|naive_solver..].
    rewrite Hperm. simpl. solve_Permutation.
  - intros q [->|Hq]%elem_of_cons; [done|by apply Hspec].
Qed.

Lemma with_buckets_id st : with_buckets st (st_buckets st) = st.
Proof. by destruct st. Qed.

(** A lookup in the global table finds the entry of the space for the object,
    if one is hashed; it may reorder a bucket. *)
Lemma global_lookup_spec st l obj :
  global_hash l (st_ites st) (st_buckets st) →
  space_addr ≠ 0 → obj ≠ IO_NULL → is_fast (st_space st) = false →
  ∃ bs r, ipc_hash_global_lookup st obj = Ok (with_buckets st bs, r) ∧
    global_hash l (st_ites st) bs ∧ mjoin bs ≡ₚ mjoin (st_buckets st) ∧
    match r with
    | Some (name, p) => p ∈ mjoin (st_buckets st) ∧ own (st_ites st) p ∧
        object_of (st_ites st) p = obj ∧ ite_name <$> st_ites st !! p = Some name
    | None => ∀ p, p ∈ mjoin (st_buckets st) → own (st_ites st) p →
        object_of (st_ites st) p ≠ obj
    end.
Proof.
  intros Hg Hsp Hobj Hfast. unfold ipc_hash_global_lookup.
  rewrite (proj2 (Z.eqb_neq _ 0)), (proj2 (Z.eqb_neq _ IO_NULL)), Hfast by done. ostep.
  destruct (global_hash_bucket _ _ _ space_addr obj Hg) as (bucket & Hb).
  unfold bucket_get. rewrite Hb. ostep.
  assert (∀ p, p ∈ bucket → ∃ t, st_ites st !! p = Some t) as Hent.
  { intros p Hp. edestruct gh_bucket; naive_solver. }
  assert (∀ p, p ∈ bucket → p ∈ mjoin (st_buckets st)) as Hmem.
  { intros p Hp. apply elem_of_mjoin. eauto. }
  assert (∀ p, p ∈ mjoin (st_buckets st) → own (st_ites st) p →
    object_of (st_ites st) p = obj → p ∈ bucket) as Hback.
  { intros p Hp Ho Hpo. destruct (own_in_bucket _ _ _ p obj Hg Hp Ho Hpo) as (? & ? & ?).
    naive_solver. }
  destruct bucket as [|p next].
  { exists (st_buckets st), None. rewrite with_buckets_id. split_and!; [done..|].
    intros p Hp Ho Hpo. by apply (Hback p), elem_of_nil in Hpo. }
  destruct (Hent p) as (t & Ht); [by left|]. rewrite (ite_matches_ok _ _ _ t Ht). ostep.
  case_bool_decide as Hm.
  { rewrite Ht. ostep. exists (st_buckets st). eexists. rewrite with_buckets_id.
    split; [done|]. split; [done|]. split; [done|]. simpl. rewrite Ht.
    split_and!; [apply Hmem; by left|by apply Hm..|done]. }
  destruct (global_find_loop_ok st obj [p] next) as (r & -> & Hspec).
  { intros q Hq. apply Hent. by right. }
  ostep. destruct r as [[q rest]|].
  - destruct Hspec as (Hperm & Hin & Ho & Hqo). destruct (Hent q) as (tq & Htq); [by right|].
    rewrite Htq. ostep. unfold bucket_set. eexists _, _. split; [done|].
    destruct (global_hash_perm l (st_ites st) (st_buckets st) _ (p :: next) (q :: rest) Hg Hb Hperm)
      as [? ?]. split; [done|]. split; [done|]. simpl. rewrite Htq. split_and!; [|done..].
    by apply Hmem, elem_of_cons; right.
  - exists (st_buckets st), None. rewrite with_buckets_id. split_and!; [done..|].
    intros q Hq Ho Hqo. pose proof (Hback q Hq Ho Hqo) as [->|Hin]%elem_of_cons; [naive_solver|].
    by apply (Hspec q Hin).
Qed.

(** The entry of a tree name, ready for the table. *)
Lemma global_insert_spec st l name p t :
  global_hash l (st_ites st) (st_buckets st) →
  space_addr ≠ 0 → is_fast (st_space st) = false →
  st_ites st !! p = Some t → ite_name t = name → ite_space t = space_addr →
  ite_object t ≠ IO_NULL → (name, p) ∈ l →
  is_tree_hash (st_space st) < is_tree_total (st_space st) →
  p ∉ mjoin (st_buckets st) →
  (∀ q, q ∈ mjoin (st_buckets st) → own (st_ites st) q →
    object_of (st_ites st) q ≠ ite_object t) →
  ∃ bs, ipc_hash_global_insert st (ite_object t) name p =
      Ok (with_buckets (with_space st (λ s, set_is_tree_hash s (is_tree_hash s + 1))) bs) ∧
    global_hash l (st_ites st) bs ∧ mjoin bs ≡ₚ p :: mjoin (st_buckets st).
Proof.
  intros Hg Hsp Hfast Ht Hname Hown Hobj Hl Htot Hnew Huniq. unfold ipc_hash_global_insert.
  rewrite Hfast, Ht. ostep.
  rewrite Hname, Hown, !Z.eqb_refl, (proj2 (Z.eqb_neq _ 0)), (proj2 (Z.eqb_neq _ IO_NULL)) by done.
  ostep. rewrite (proj2 (Z.leb_le _ _)) by (simpl; lia). ostep.
  destruct (global_hash_bucket _ _ _ space_addr (ite_object t) Hg) as (bucket & Hb).
  unfold bucket_get. simpl. rewrite Hb. ostep. eexists. split; [done|]. simpl.
  set (b := Z.to_nat (IH_GLOBAL_HASH space_addr (ite_object t))) in *.
  destruct (mjoin_insert (st_buckets st) b bucket Hb) as (rest & Hp & Hp').
  pose proof (lookup_lt_Some _ _ _ Hb) as Hlt.
  assert (mjoin (<[b := p :: bucket]> (st_buckets st)) ≡ₚ p :: mjoin (st_buckets st)) as Hperm.
  { by rewrite Hp, Hp'. }
  split; [|done]. split.
  - apply Hg.
  - rewrite length_insert. apply Hg.
  - intros b' bk q. rewrite list_lookup_insert. case_decide as Hd; [|by apply (gh_bucket _ _ _ Hg)].
    destruct Hd as [<- _]. intros [= <-] [->|Hq]%elem_of_cons.
    + exists t. rewrite Hown. done.
    + by apply (gh_bucket _ _ _ Hg _ bucket).
  - rewrite Hperm. constructor; [done|apply Hg].
  - intros q tq. rewrite Hperm. intros [->|Hq]%elem_of_cons Htq Hsq.
    + assert (tq = t) as -> by congruence. by rewrite Hname.
    + by apply (gh_own _ _ _ Hg).
  - assert (own (st_ites st) p) as Hop by (by rewrite own_iff).
    pose proof (object_of_Some _ _ _ Ht) as Hpo.
    intros q r. rewrite Hperm. intros [->|Hq]%elem_of_cons [->|Hr]%elem_of_cons Hoq Hor; try done.
    + intros Heq. destruct (Huniq r Hr Hor). congruence.
    + intros Heq. destruct (Huniq q Hq Hoq). congruence.
    + by apply (gh_unique _ _ _ Hg).
Qed.

Lemma global_unlink_loop_ok entry seen bucket :
  match global_unlink_loop entry seen bucket with
  | Some rest => entry :: rest ≡ₚ seen ++ bucket
  | None => entry ∉ bucket
  end.
Proof.
  revert seen. induction bucket as [|p bucket IH]; intros seen; simpl; [apply not_elem_of_nil|].
  destruct (Z.eqb_spec p entry) as [->|Hne].
  - rewrite rev_append_perm. solve_Permutation.
  - specialize (IH (p :: seen)). destruct (global_unlink_loop _ _ _).
    + rewrite IH. simpl. solve_Permutation.
    + rewrite not_elem_of_cons. done.
Qed.

Lemma global_delete_spec st l name p t :
  global_hash l (st_ites st) (st_buckets st) →
  space_addr ≠ 0 → is_fast (st_space st) = false →
  st_ites st !! p = Some t → ite_name t = name → ite_space t = space_addr →
  0 < is_tree_hash (st_space st) → p ∈ mjoin (st_buckets st) →
  ∃ bs, ipc_hash_global_delete st (ite_object t) name p =
      Ok (with_buckets (with_space st (λ s, set_is_tree_hash s (is_tree_hash s - 1))) bs) ∧
    global_hash l (st_ites st) bs ∧ p :: mjoin bs ≡ₚ mjoin (st_buckets st).
Proof.
  intros Hg Hsp Hfast Ht Hname Hown Hpos Hin. unfold ipc_hash_global_delete.
  destruct (gh_own _ _ _ Hg p t Hin Ht Hown) as [_ Hobj].
  rewrite Hfast, Ht. ostep.
  rewrite Hname, Hown, !Z.eqb_refl, (proj2 (Z.eqb_neq _ 0)), (proj2 (Z.eqb_neq _ IO_NULL)),
    (proj2 (Z.ltb_lt _ _) Hpos) by done. ostep.
  destruct (own_in_bucket _ _ _ p (ite_object t) Hg Hin) as (bucket & Hb & Hpb).
  { by rewrite own_iff. } { by apply object_of_Some. }
  unfold bucket_get. simpl. rewrite Hb. ostep.
  pose proof (global_unlink_loop_ok p [] bucket) as Hun.
  destruct (global_unlink_loop p [] bucket) as [rest|]; [|done].
  eexists. split; [done|]. simpl in *.
  set (b := Z.to_nat (IH_GLOBAL_HASH space_addr (ite_object t))) in *.
  destruct (mjoin_insert (st_buckets st) b bucket Hb) as (others & Hp & Hp').
  pose proof (gh_nodup _ _ _ Hg) as Hn. rewrite Hp, <-Hun in Hn. split.
  - eapply global_hash_sub; [done..| |].
    + apply NoDup_app in Hn as (Hn & _ & _). by inv Hn.
    + intros q Hq. rewrite <-Hun. by right.
  - rewrite Hp, Hp', <-Hun. done.
Qed.
End global_facts.

(** ** The size of the global table *)

Lemma testbit_top y k : 0 ≤ k → 2 ^ k ≤ y < 2 ^ (k + 1) → Z.testbit y k = true.
Proof.
  intros Hk Hy. apply Z.testbit_true; [done|].
  replace (y / 2 ^ k) with 1; [done|].
  apply Z.div_unique with (y - 2 ^ k); [|lia].
  rewrite Z.pow_add_r in Hy by lia. lia.
Qed.

(** Between two powers of two, [x & (x + 1)] is zero only at the end. *)
Lemma land_succ_zero x k :
  0 ≤ k → 2 ^ k ≤ x < 2 ^ (k + 1) → Z.land (x + 1) x = 0 ↔ x + 1 = 2 ^ (k + 1).
Proof.
  intros Hk Hx. split.
  - intros Hz. destruct (decide (x + 1 = 2 ^ (k + 1))); [done|]. exfalso.
    assert (Z.testbit (Z.land (x + 1) x) k = true) as Hb.
    { rewrite Z.land_spec, !testbit_top by lia. done. }
    by rewrite Hz, Z.bits_0 in Hb.
  - intros Heq. rewrite Heq. replace x with (Z.ones (k + 1)) by (rewrite Z.ones_equiv; lia).
    rewrite Z.land_ones by lia. apply Z.mod_same. lia.
Qed.

Lemma lor_range x y k : 0 ≤ k → 0 ≤ x < 2 ^ k → 0 ≤ y < 2 ^ k → 0 ≤ Z.lor x y < 2 ^ k.
Proof.
  intros Hk Hx Hy. split; [apply Z.lor_nonneg; lia|].
  destruct (decide (Z.lor x y = 0)) as [->|]; [lia|].
  apply Z.log2_lt_pow2; [pose proof (proj2 (Z.lor_nonneg x y)); lia|].
  rewrite Z.log2_lor by lia. apply Z.max_lub_lt.
  - destruct (decide (x = 0)) as [->|]; [simpl; destruct (decide (k = 0)) as [->|]; [|lia]|].
    + exfalso. assert (y = 0) as -> by lia. done.
    + apply Z.log2_lt_pow2; lia.
  - destruct (decide (y = 0)) as [->|]; [simpl; destruct (decide (k = 0)) as [->|]; [|lia]|].
    + exfalso. assert (x = 0) as -> by lia. done.
    + apply Z.log2_lt_pow2; lia.
Qed.

(** The low [j] bits of [mask] are set, the top bit is bit [k]. *)
Lemma hash_size_loop_ok fuel mask j k :
  0 ≤ j ≤ k → k < 31 → 2 ^ k ≤ mask < 2 ^ (k + 1) →
  (∀ i, 0 ≤ i < j → Z.testbit mask i = true) → k - j < Z.of_nat fuel →
  hash_size_loop fuel mask (2 ^ j) = Ok (2 ^ (k + 1)).
Proof.
  revert mask j. induction fuel as [|fuel IH]; intros mask j Hj Hk Hm Hlow Hf; [lia|]. simpl.
  assert (2 ^ (k + 1) ≤ 2 ^ 31) as H31 by (apply Z.pow_le_mono_r; lia).
  assert (2 ^ j < 2 ^ (k + 1)) as Hjk by (apply Z.pow_lt_mono_r; lia).
  pose proof (lor_range mask (2 ^ j) (k + 1) ltac:(lia) ltac:(lia) ltac:(lia)) as Hr.
  assert (2 ^ k ≤ Z.lor mask (2 ^ j)) as Hge.
  { apply Z.nlt_ge. intros Hlt.
    assert (Z.testbit (Z.lor mask (2 ^ j)) k = true) as Hb.
    { rewrite Z.lor_spec, testbit_top by lia. done. }
    apply Z.testbit_true in Hb; [|lia]. rewrite Z.div_small in Hb by lia. done. }
  rewrite u32_small by (unfold is_u32; lia).
  destruct (Z.eqb_spec (Z.land (Z.lor mask (2 ^ j) + 1) (Z.lor mask (2 ^ j))) 0) as [Hz|Hz].
  { apply (land_succ_zero _ k) in Hz; [|lia..]. by rewrite Hz. }
  assert (∀ i, 0 ≤ i < j + 1 → Z.testbit (Z.lor mask (2 ^ j)) i = true) as Hlow'.
  { intros i Hi. rewrite Z.lor_spec. destruct (decide (i = j)) as [->|].
    - rewrite Z.pow2_bits_true by lia. apply orb_true_r.
    - rewrite Hlow by lia. done. }
  assert (j ≠ k) as Hne.
  { intros ->. apply Hz. apply (land_succ_zero _ k); [lia..|].
    assert (Z.lor mask (2 ^ k) = Z.ones (k + 1)) as ->; [|rewrite Z.ones_equiv; lia].
    apply Z.bits_inj'. intros i Hi. destruct (decide (i < k + 1)).
    - rewrite Hlow', Z.ones_spec_low by lia. done.
    - rewrite Z.ones_spec_high by lia. apply Z.bits_above_log2; [lia|].
      apply Z.lt_le_trans with (k + 1); [|lia]. apply Z.log2_lt_pow2; lia. }
  rewrite Z.shiftl_mul_pow2, Z.mul_comm, <-Z.pow_add_r by lia.
  assert (2 ^ (1 + j) ≤ 2 ^ 31) by (apply Z.pow_le_mono_r; lia).
  rewrite u32_small by (unfold is_u32; lia). replace (1 + j) with (j + 1) by lia.
  apply IH; [lia|lia|lia|done|lia].
Qed.

Theorem hash_init_correct size ite_max :
  0 ≤ size ≤ 2 ^ 31 → 0 ≤ ite_max < 2 ^ 31 →
  let wanted := if size =? 0 then Z.max 32 (ite_max / 2 ^ 8) else size in
  ∃ k, 0 ≤ k ≤ 31 ∧ wanted ≤ 2 ^ k < 2 * wanted ∧
    ipc_hash_init size ite_max = Ok (2 ^ k, replicate (Z.to_nat (2 ^ k)) []).
Proof.
  intros Hs Hmax wanted.
  assert (0 < wanted ≤ 2 ^ 31) as Hw.
  { subst wanted. destruct (Z.eqb_spec size 0); [|lia].
    pose proof (Z.div_le_upper_bound ite_max (2 ^ 8) (2 ^ 31)). lia. }
  unfold ipc_hash_init. rewrite Z.shiftr_div_pow2 by lia.
  replace (if size =? 0 then _ else size) with wanted.
  2:{ subst wanted. destruct (size =? 0); [|done].
      destruct (Z.ltb_spec (ite_max / 2 ^ 8) 32); lia. }
  clearbody wanted. rewrite u32_small by (unfold is_u32; lia).
  destruct (Z.eqb_spec (Z.land wanted (wanted - 1)) 0) as [Hz|Hz].
  - pose proof (Z.log2_spec wanted ltac:(lia)) as Hl. pose proof (Z.log2_nonneg wanted) as Hl0.
    assert (wanted = 2 ^ Z.log2 wanted) as Hp.
    { destruct (decide (wanted = 2 ^ Z.log2 wanted)); [done|]. exfalso.
      assert (Z.testbit (Z.land wanted (wanted - 1)) (Z.log2 wanted) = true) as Hb.
      { rewrite Z.land_spec, !testbit_top by (rewrite ?Z.add_1_r; lia). done. }
      by rewrite Hz, Z.bits_0 in Hb. }
    exists (Z.log2 wanted). rewrite <-Hp. split_and!; [lia| |lia|lia|done].
    assert (Z.log2 wanted ≤ Z.log2 (2 ^ 31)) by (apply Z.log2_le_mono; lia).
    by rewrite Z.log2_pow2 in * by lia.
  - assert (1 < wanted) as H1.
    { destruct (decide (wanted = 1)) as [->|]; [done|lia]. }
    pose proof (Z.log2_spec (wanted - 1) ltac:(lia)) as Hl.
    pose proof (Z.log2_nonneg (wanted - 1)) as Hl0.
    set (k := Z.log2 (wanted - 1)) in *. rewrite <-Z.add_1_r in Hl.
    assert (k < 31) as Hk.
    { assert (2 ^ k < 2 ^ 31) as Hlt by lia. apply Z.pow_lt_mono_r_iff in Hlt; lia. }
    pose proof (hash_size_loop_ok 33 (wanted - 1) 0 k ltac:(lia) Hk Hl ltac:(lia) ltac:(lia)) as Hrun.
    rewrite Z.pow_0_r in Hrun. rewrite Hrun. exists (k + 1). ostep.
    rewrite Z.pow_add_r in * by lia. split_and!; lia || done.
Qed.

Lemma hash_init_witness :
  ∃ k, 0 ≤ k ≤ 31 ∧ 100 ≤ 2 ^ k < 2 * 100 ∧
    ipc_hash_init 100 0 = Ok (2 ^ k, replicate (Z.to_nat (2 ^ k)) []).
Proof. apply (hash_init_correct 100 0); lia. Defined.

(** ** Properties of the local table *)

(** The invariant is decidable: all quantifiers range over the slots. *)
Definition local_hash_slot (t : list ipc_entry) (j : Z) : Prop :=
  slot t j ≠ 0 →
  0 < slot t j < tsize t ∧ object_at t (slot t j) ≠ IO_NULL ∧
  Forall (λ k, slot t k ≠ 0 → object_at t (slot t j) = object_at t (slot t k) → j = k)
    (seqZ 0 (tsize t)) ∧
  Forall (λ k, dist (tsize t) (home t (slot t j)) k < dist (tsize t) (home t (slot t j)) j →
    slot t k ≠ 0) (seqZ 0 (tsize t)).

Lemma local_hash_slots t : local_hash t ↔ Forall (local_hash_slot t) (seqZ 0 (tsize t)).
Proof.
  rewrite Forall_forall. split.
  - intros Hl j _ Hj. split_and!; [by apply Hl..| |]; rewrite Forall_forall.
    + intros k _ Hk. by apply (lh_unique _ Hl).
    + intros k Hk%elem_of_seqZ. apply (lh_probe _ Hl j Hj). lia.
  - intros Hf. assert (∀ j, slot t j ≠ 0 → local_hash_slot t j) as Hs.
    { intros j Hj%slot_nonzero. apply Hf, elem_of_seqZ. lia. }
    split.
    + intros j Hj. by apply (Hs j).
    + intros j Hj. by apply (Hs j).
    + intros j k Hj Hk. destruct (Hs j Hj Hj) as (_ & _ & Hu & _).
      rewrite Forall_forall in Hu. apply Hu; [|done].
      apply slot_nonzero in Hk. apply elem_of_seqZ. lia.
    + intros j Hj k Hk. destruct (Hs j Hj Hj) as (_ & _ & _ & Hp).
      rewrite Forall_forall in Hp. apply Hp, elem_of_seqZ. lia.
Qed.

#[export] Instance local_hash_dec t : Decision (local_hash t).
Proof.
  refine (cast_if (decide (Forall (local_hash_slot t) (seqZ 0 (tsize t)))));
    by rewrite local_hash_slots.
Defined.

#[export] Instance hashed_dec t i : Decision (hashed t i).
Proof.
  refine (cast_if (decide (i ≠ 0 ∧ Exists (λ j, slot t j = i) (seqZ 0 (tsize t)))));
    unfold hashed; rewrite Exists_exists in *; setoid_rewrite elem_of_seqZ in a || setoid_rewrite elem_of_seqZ in n.
  - destruct a as (? & j & ? & ?). split; [done|]. exists j. split; [lia|done].
  - intros (? & j & ? & ?). apply n. split; [done|]. exists j. split; [lia|done].
Defined.

(** What a lookup returns is determined by the indices entered. *)
Lemma local_lookup_same t t' obj :
  local_hash t → local_hash t' → 0 < tsize t → tsize t' = tsize t → obj ≠ IO_NULL →
  same_entries t t' → (∀ i, object_at t i = obj → hashed t' i ↔ hashed t i) →
  ipc_hash_local_lookup t' (tsize t') obj = ipc_hash_local_lookup t (tsize t) obj.
Proof.
  intros Hl Hl' Hn Hsz Ho Hsame Hiff.
  assert (∀ i, object_at t' i = object_at t i) as Hobj.
  { intros i. unfold object_at. rewrite (Hsame i). by destruct (tget t i). }
  destruct (local_lookup_spec t obj) as (r & -> & Hr); [done..|].
  destruct (local_lookup_spec t' obj) as (r' & -> & Hr'); [done|lia|done|]. f_equal.
  destruct r as [[n i]|], r' as [[n' i']|]; [| | |done].
  - destruct Hr as (Hi & Hio & e & He & ->), Hr' as (Hi' & Hio' & e' & He' & ->).
    rewrite Hobj in Hio'. apply Hiff in Hi' as Hi''; [|done].
    assert (i' = i) as ->.
    { destruct Hi as (? & j & ? & <-), Hi'' as (? & j' & ? & <-). f_equal.
      apply (lh_unique _ Hl); congruence. }
    rewrite (Hsame i), He in He'. simpl in He'. injection He' as <-. done.
  - destruct Hr as (Hi & Hio & _). destruct (Hr' i); [by apply Hiff|]. by rewrite Hobj.
  - destruct Hr' as (Hi & Hio & _). rewrite Hobj in Hio.
    by destruct (Hr i'); [apply Hiff|].
Qed.

Lemma local_lookup_found t index e :
  local_hash t → hashed t index → tget t index = Some e →
  ipc_hash_local_lookup t (tsize t) (ie_object e) =
    Ok (Some (MACH_PORT_MAKEB index (ie_bits e), index)).
Proof.
  intros Hl Hi He. pose proof (tget_Some _ _ _ He). pose proof (object_at_get _ _ _ He) as Hobj.
  assert (ie_object e ≠ IO_NULL) as Hne.
  { rewrite Hobj. destruct Hi as (? & j & ? & <-). by apply Hl. }
  destruct (local_lookup_spec t (ie_object e)) as (r & -> & Hr); [done|lia|done|]. f_equal.
  destruct r as [[n i]|].
  - destruct Hr as (Hi' & Hio & e' & He' & ->).
    assert (i = index) as ->; [|congruence].
    destruct Hi as (? & j & ? & <-), Hi' as (? & j' & ? & <-). f_equal.
    apply (lh_unique _ Hl); congruence.
  - by destruct (Hr index).
Qed.

(** C32. ipc_hash_local_lookup terminates on every table of the invariant,
    full ones included, and finds the entry of an object if and only if it
    is entered. *)
Theorem hash_local_lookup_correct t obj :
  local_hash t → 0 < tsize t → obj ≠ IO_NULL →
  ∃ r, ipc_hash_local_lookup t (tsize t) obj = Ok r ∧
    match r with
    | Some (name, i) => hashed t i ∧ object_at t i = obj ∧
        ∃ e, tget t i = Some e ∧ name = MACH_PORT_MAKEB i (ie_bits e)
    | None => ∀ i, hashed t i → object_at t i ≠ obj
    end.
Proof. apply local_lookup_spec. Qed.

Theorem hash_local_insert_correct t index e :
  local_hash t → 0 < index → tget t index = Some e → ie_object e ≠ IO_NULL →
  (∀ k, hashed t k → object_at t k ≠ ie_object e) →
  ∃ t', ipc_hash_local_insert t (tsize t) (ie_object e) index = Ok t' ∧
    local_hash t' ∧ same_entries t t' ∧
    ipc_hash_local_lookup t' (tsize t') (ie_object e) =
      Ok (Some (MACH_PORT_MAKEB index (ie_bits e), index)) ∧
    ∀ obj, obj ≠ IO_NULL → obj ≠ ie_object e →
      ipc_hash_local_lookup t' (tsize t') obj = ipc_hash_local_lookup t (tsize t) obj.
Proof.
  intros Hl Hi He Ho Hfresh. pose proof (tget_Some _ _ _ He).
  rewrite (object_at_get _ _ _ He) in *.
  destruct (local_insert_spec t index) as (t' & Hrun & Hl' & Hsz & Hsame & Hiff); [done..|lia|done|done|].
  exists t'. split_and!; [done..| |].
  - pose proof (Hsame index) as He'. rewrite He in He'. simpl in He'.
    rewrite <-(object_at_get _ _ _ He).
    apply (local_lookup_found t' index _ Hl') in He'; [done|]. apply Hiff. by left.
  - intros obj ? Hne. apply local_lookup_same; try done || lia.
    intros i Hio. rewrite Hiff. split; [|by right]. intros [->|?]; [congruence|done].
Qed.

(** C31. ipc_hash_local_delete removes an entry from the open-addressing
    table in place, moving displaced entries back, so that lookups of every
    other object answer as before and the removed object is no longer
    found. *)
Theorem hash_local_delete_correct t index e :
  local_hash t → hashed t index → tget t index = Some e →
  ∃ t', ipc_hash_local_delete t (tsize t) (ie_object e) index = Ok t' ∧
    local_hash t' ∧ same_entries t t' ∧
    ipc_hash_local_lookup t' (tsize t') (ie_object e) = Ok None ∧
    ∀ obj, obj ≠ IO_NULL → obj ≠ ie_object e →
      ipc_hash_local_lookup t' (tsize t') obj = ipc_hash_local_lookup t (tsize t) obj.
Proof.
  intros Hl Hi He. pose proof (tget_Some _ _ _ He). rewrite (object_at_get _ _ _ He) in *.
  destruct (local_delete_spec t index Hl Hi) as (t' & Hrun & Hl' & Hsz & Hsame & Hiff).
  assert (object_at t index ≠ IO_NULL) as Hne.
  { destruct Hi as (? & j & ? & <-). by apply Hl. }
  assert (∀ i, object_at t' i = object_at t i) as Hobj.
  { intros i. unfold object_at. rewrite (Hsame i). by destruct (tget t i). }
  exists t'. split_and!; [done..| |].
  - destruct (local_lookup_spec t' (object_at t index)) as (r & -> & Hr); [done|lia|done|].
    destruct r as [[n i]|]; [|done]. exfalso. destruct Hr as (Hi' & Hio & _).
    apply Hiff in Hi' as [Hi' Hne']. apply Hne'. rewrite Hobj in Hio.
    destruct Hi as (? & j & ? & <-), Hi' as (? & j' & ? & <-). f_equal.
    apply (lh_unique _ Hl); congruence.
  - intros obj ? Hne'. apply local_lookup_same; try done || lia.
    intros i Hio. rewrite Hiff. split; [tauto|]. intros ?. split; [done|]. congruence.
Qed.

(** Four send rights whose objects hash into one clump that wraps around. *)
Definition demo_table : list ipc_entry :=
  [IE IE_BITS_GEN_MASK 0 0 2; IE 0x04010001 0x1c0 0 3;
   IE 0x08010001 0x1f8 0 4; IE 0x04010001 0x3c0 0 0;
   IE 0x04010001 0x240 0 0; IE 0 0x400 0 0; IE 0 0 0 0; IE 0 0 0 1].

Lemma hash_local_lookup_witness :
  ∃ r, ipc_hash_local_lookup demo_table 8 0x3c0 = Ok r ∧
    match r with
    | Some (name, i) => hashed demo_table i ∧ object_at demo_table i = 0x3c0 ∧
        ∃ e, tget demo_table i = Some e ∧ name = MACH_PORT_MAKEB i (ie_bits e)
    | None => ∀ i, hashed demo_table i → object_at demo_table i ≠ 0x3c0
    end.
Proof. apply (hash_local_lookup_correct demo_table 0x3c0); [decide_compute|done..]. Defined.

Lemma hash_local_insert_witness :
  ∃ t', ipc_hash_local_insert demo_table 8 0x400 5 = Ok t' ∧
    local_hash t' ∧ same_entries demo_table t' ∧
    ipc_hash_local_lookup t' (tsize t') 0x400 = Ok (Some (MACH_PORT_MAKEB 5 0, 5)) ∧
    ∀ obj, obj ≠ IO_NULL → obj ≠ 0x400 →
      ipc_hash_local_lookup t' (tsize t') obj = ipc_hash_local_lookup demo_table 8 obj.
Proof.
  apply (hash_local_insert_correct demo_table 5 (IE 0 0x400 0 0)); [decide_compute|done..|].
  intros k (_ & j & Hj & <-). change (tsize demo_table) with 8 in Hj.
  assert (j = 0 ∨ j = 1 ∨ j = 2 ∨ j = 3 ∨ j = 4 ∨ j = 5 ∨ j = 6 ∨ j = 7)
    as [->|[->|[->|[->|[->|[->|[->| ->]]]]]]] by lia; done.
Defined.

Lemma hash_local_delete_witness :
  ∃ t', ipc_hash_local_delete demo_table 8 0x1c0 1 = Ok t' ∧
    local_hash t' ∧ same_entries demo_table t' ∧
    ipc_hash_local_lookup t' (tsize t') 0x1c0 = Ok None ∧
    ∀ obj, obj ≠ IO_NULL → obj ≠ 0x1c0 →
      ipc_hash_local_lookup t' (tsize t') obj = ipc_hash_local_lookup demo_table 8 obj.
Proof.
  apply (hash_local_delete_correct demo_table 1 (IE 0x04010001 0x1c0 0 3)); [decide_compute..|done].
Defined.
