(* ===== verification/IpcTable.v ===== *)
(** * Table sizes (ipc/ipc_table.c)

    The sizes a space's table, or a port's table of dead-name requests, may
    have: powers of two bytes up to a page, then growing runs of pages. *)

From stdpp Require Import prelude list.
From S2P Require Import Prelude MachPort.

Definition PAGE_SIZE : Z := 4096.
Definition sizeof_ipc_entry : Z := 16.
Definition sizeof_ipc_tree_entry : Z := 32.
Definition sizeof_ipc_port_request : Z := 8.

Definition ITS_SIZE_NONE : Z := -1.

(** [for (index = 0, size = 1; (index < num) && (size < PAGE_SIZE); size <<= 1)]:
    [its] holds the elements filled so far, in reverse. *)
Fixpoint fill_powers (fuel : nat) (num : nat) (minsize elemsize size : Z) (its : list Z) :
    outcome (Z * list Z) :=
  match fuel with
  | O => Fault FLoop
  | S fuel' =>
    if (length its <? num)%nat && (size <? PAGE_SIZE) then
      let its := if minsize <=? size then size / elemsize :: its else its in
      fill_powers fuel' num minsize elemsize (u32 (Z.shiftl size 1)) its
    else Ok (size, its)
  end.

(** [for (period = 0; (period < 15) && (index < num); period++, size += incrsize)] *)
Fixpoint fill_period (period : nat) (num : nat) (minsize elemsize incrsize size : Z)
    (its : list Z) : Z * list Z :=
  match period with
  | O => (size, its)
  | S period' =>
    if (length its <? num)%nat then
      let its := if minsize <=? size then size / elemsize :: its else its in
      fill_period period' num minsize elemsize incrsize (u32 (size + incrsize)) its
    else (size, its)
  end.

(** [for (incrsize = PAGE_SIZE; index < num;)] *)
Fixpoint fill_pages (fuel : nat) (num : nat) (minsize elemsize incrsize size : Z)
    (its : list Z) : outcome (list Z) :=
  match fuel with
  | O => Fault FLoop
  | S fuel' =>
    if (length its <? num)%nat then
      let '(size, its) := fill_period 15 num minsize elemsize incrsize size its in
      let incrsize := if incrsize <? Z.shiftl PAGE_SIZE 3 then Z.shiftl incrsize 1 else incrsize in
      fill_pages fuel' num minsize elemsize incrsize size its
    else Ok its
  end.

Definition ipc_table_fill (num : nat) (min elemsize : Z) : outcome (list Z) :=
  let minsize := min * elemsize in
  '(size, its) ← fill_powers 33 num minsize elemsize 1 [];
  its ← fill_pages (S num) num minsize elemsize PAGE_SIZE size its;
  Ok (reverse its).

Definition ipc_table_entries_size : nat := 512.
Definition ipc_table_dnrequests_size : nat := 64.

(** The arrays [ipc_table_entries] and [ipc_table_dnrequests]. *)
Definition ipc_table_init : outcome (list Z * list Z) :=
  entries ← ipc_table_fill (ipc_table_entries_size - 1) 4 sizeof_ipc_entry;
  last ← deref (entries !! (ipc_table_entries_size - 2)%nat);
  dnrequests ← ipc_table_fill (ipc_table_dnrequests_size - 1) 2 sizeof_ipc_port_request;
  Ok (entries ++ [last], dnrequests ++ [0]).

Definition ipc_table_entries : list Z :=
  Eval vm_compute in match ipc_table_init with Ok (e, _) => e | Fault _ => [] end.
Definition ipc_table_dnrequests : list Z :=
  Eval vm_compute in match ipc_table_init with Ok (_, d) => d | Fault _ => [] end.

(** [its->its_size], [its] at position [k] of [ipc_table_entries]. *)
Definition its_size (k : nat) : outcome Z := deref (ipc_table_entries !! k).

Definition it_entries_reallocable (size : Z) : bool := PAGE_SIZE <=? size * sizeof_ipc_entry.

(** ** What ipc/ipc_table.h asks of the arrays *)

Definition increasing (l : list Z) : Prop :=
  ∀ (k : nat) a b, l !! k = Some a → l !! S k = Some b → a < b.

#[export] Instance increasing_dec l : Decision (increasing l).
Proof.
  refine (cast_if (decide (Forall (λ p : Z * Z, p.1 < p.2) (zip l (drop 1 l))))); unfold increasing.
  - intros k a b Ha Hb. rewrite Forall_lookup in f. apply (f k (a, b)).
    rewrite lookup_zip_with, Ha. simpl. rewrite lookup_drop. simpl. by rewrite Hb.
  - intros Hinc. apply n, Forall_lookup. intros k [a b].
    rewrite lookup_zip_with, bind_Some. intros (x & Hx & (y & Hy & [= <- <-])%bind_Some).
    rewrite lookup_drop in Hy. by apply (Hinc k).
Defined.

Lemma ipc_table_entries_ok :
  length ipc_table_entries = ipc_table_entries_size ∧
  increasing (take (ipc_table_entries_size - 1) ipc_table_entries) ∧
  ipc_table_entries !! 510%nat = ipc_table_entries !! 511%nat ∧
  Forall (λ s, 4 ≤ s ≤ MACH_PORT_INDEX MACH_PORT_DEAD) ipc_table_entries.
Proof. split_and!; [done|decide_compute|done|decide_compute]. Qed.

(** Consecutive sizes grow, except at the end of the array. *)
Lemma its_next_le k a b :
  ipc_table_entries !! k = Some a → ipc_table_entries !! S k = Some b →
  4 ≤ a ∧ a ≤ b ∧ b < 2 ^ 24 ∧ (a = b ↔ k = 510%nat).
Proof.
  intros Ha Hb. destruct ipc_table_entries_ok as (Hlen & Hinc & Hend & Hall).
  pose proof (Forall_lookup_1 _ _ _ _ Hall Ha) as Ha'.
  pose proof (Forall_lookup_1 _ _ _ _ Hall Hb) as Hb'.
  assert (MACH_PORT_INDEX MACH_PORT_DEAD = 2 ^ 24 - 1) as Hm by done.
  rewrite Hm in *. pose proof (lookup_lt_Some _ _ _ Hb) as Hlt. rewrite Hlen in Hlt.
  unfold ipc_table_entries_size in Hlt.
  destruct (decide (k = 510%nat)) as [->|Hk].
  { assert (a = b) by congruence. lia. }
  assert (a < b); [|lia]. unfold ipc_table_entries_size in Hinc. apply (Hinc k); by rewrite lookup_take_lt by lia.
Qed.

Lemma dnrequests_ok :
  length ipc_table_dnrequests = ipc_table_dnrequests_size ∧
  increasing (take (ipc_table_dnrequests_size - 1) ipc_table_dnrequests) ∧
  ipc_table_dnrequests !! 63%nat = Some 0.
Proof. split_and!; [done|decide_compute|done]. Qed.

(** C36. ipc_table_init fills the size tables with strictly increasing
    sizes, from 4 entries up, with the last two entry sizes equal, the last
    request size zero, and no index large enough to collide with
    MACH_PORT_DEAD. *)
Theorem ipc_table_init_correct :
  ∃ entries dnrequests, ipc_table_init = Ok (entries, dnrequests) ∧
    length entries = ipc_table_entries_size ∧
    increasing (take (ipc_table_entries_size - 1) entries) ∧
    entries !! (ipc_table_entries_size - 1)%nat = entries !! (ipc_table_entries_size - 2)%nat ∧
    Forall (λ s, 4 ≤ s ≤ MACH_PORT_INDEX MACH_PORT_DEAD) entries ∧
    length dnrequests = ipc_table_dnrequests_size ∧
    increasing (take (ipc_table_dnrequests_size - 1) dnrequests) ∧
    Forall (λ s, 2 ≤ s) (take (ipc_table_dnrequests_size - 1) dnrequests) ∧
    dnrequests !! (ipc_table_dnrequests_size - 1)%nat = Some 0.
Proof.
  exists ipc_table_entries, ipc_table_dnrequests.
  split_and!; [vm_compute; reflexivity|done|decide_compute|done|decide_compute|done
    |decide_compute|decide_compute|done].
Qed.
