(* ===== verification/IpcEntry.v ===== *)
(** * Entries of a space (ipc/ipc_entry.c)

    A name is found in the table when its index is in range and the
    generations agree; other names are in the splay tree.  Free table
    entries are linked through [ie_next] from entry 0.  A table entry whose
    index is also the index of names in the tree has [IE_BITS_COLLISION]. *)

From stdpp Require Import prelude list gmap.
From S2P Require Import Prelude MachPort IpcSplay IpcTypes IpcHash IpcTable.

Section entry.
Context {W : iworld}.

Definition set_tree (st : istate) (t : ipc_splay_tree Z) : istate :=
  with_space st (λ s, set_is_tree s t).

(** [ite_free] *)
Definition ite_free (st : istate) (p : Z) : istate := with_ites st (delete p).

(** ** ipc_entry_tree_collision *)

Definition ipc_entry_tree_collision (st : istate) (name : Z) : outcome (istate * bool) :=
  kassert (is_active (st_space st));;
  '(tree, lower, upper) ← ipc_splay_tree_bounds (is_tree (st_space st)) name;
  let index := MACH_PORT_INDEX name in
  Ok (set_tree st tree,
      (negb (lower =? MACH_PORT_LARGEST) && (MACH_PORT_INDEX lower =? index)) ||
      (negb (upper =? 0) && (MACH_PORT_INDEX upper =? index))).

(** ** ipc_entry_lookup *)

(** The label [tree_lookup]. *)
Definition entry_tree_lookup (st : istate) (name : Z) : outcome (istate * option eptr) :=
  '(tree, o) ← ipc_splay_tree_lookup (is_tree (st_space st)) name;
  Ok (set_tree st tree, EP_tree <$> (o : option Z)).

Definition ipc_entry_lookup (st : istate) (name : Z) : outcome (istate * option eptr) :=
  let s := st_space st in
  kassert (is_active s);;
  let index := MACH_PORT_INDEX name in
  '(st, entry) ←
    (if is_fast s then
       e ← deref (tget (is_table s) index);
       if negb (IE_BITS_GEN (ie_bits e) =? MACH_PORT_GEN name) ||
          (IE_BITS_TYPE (ie_bits e) =? MACH_PORT_TYPE_NONE)
       then Ok (st, None) else Ok (st, Some (EP_table index))
     else if index <? is_table_size s then
       e ← deref (tget (is_table s) index);
       if negb (IE_BITS_GEN (ie_bits e) =? MACH_PORT_GEN name) then
         if negb (Z.land (ie_bits e) IE_BITS_COLLISION =? 0) then
           kassert (0 <? is_tree_total s);;
           entry_tree_lookup st name
         else Ok (st, None)
       else if IE_BITS_TYPE (ie_bits e) =? MACH_PORT_TYPE_NONE then Ok (st, None)
       else Ok (st, Some (EP_table index))
     else if is_tree_total s =? 0 then Ok (st, None)
     else entry_tree_lookup st name);
  match entry with
  | None => Ok (st, None)
  | Some ep =>
    e ← deref (eget st ep);
    kassert (negb (IE_BITS_TYPE (ie_bits e) =? 0));;
    Ok (st, Some ep)
  end.

(** ** ipc_entry_get *)

Definition ipc_entry_get (st : istate) : outcome (istate * (kern_return * option (Z * eptr))) :=
  kassert (is_active (st_space st));;
  let table := st_table st in
  head ← deref (tget table 0);
  let first_free := ie_next head in
  if first_free =? 0 then Ok (st, (KERN_NO_SPACE, None))
  else
    free_entry ← deref (tget table first_free);
    let table := tmod table 0 (λ e, set_ie_next e (ie_next free_entry)) in
    kassert (Z.land (ie_bits free_entry) (Z.lnot IE_BITS_GEN_MASK) =? 0);;
    let gen := IE_BITS_NEW_GEN (ie_bits free_entry) in
    let table := tmod table first_free (λ e, set_ie_request (set_ie_bits e gen) 0) in
    let new_name := MACH_PORT_MAKE first_free gen in
    kassert (MACH_PORT_VALID new_name);;
    kassert (ie_object free_entry =? IO_NULL);;
    Ok (set_table st table, (KERN_SUCCESS, Some (new_name, EP_table first_free))).

(** ** ipc_entry_dealloc *)

(** [ipc_splay_tree_delete(tree, name, entry)]: the node removed is the one
    given, and is freed. *)
Definition tree_delete (st : istate) (tree : ipc_splay_tree Z) (name p : Z) :
    outcome (istate * ipc_splay_tree Z) :=
  '(tree, v) ← ipc_splay_tree_delete tree name;
  kassert ((v : Z) =? p);;
  Ok (ite_free st p, tree).

Definition is_tree_total_decr (st : istate) : outcome istate :=
  kassert (0 <? is_tree_total (st_space st));;
  Ok (with_space st (λ s, set_is_tree_total s (is_tree_total s - 1))).

(** Put a free table entry on the free list. *)
Definition entry_free_push (st : istate) (index : Z) : outcome istate :=
  head ← deref (tget (st_table st) 0);
  let table := tmod (st_table st) index
    (λ e, set_ie_next (set_ie_bits e (Z.land (ie_bits e) IE_BITS_GEN_MASK)) (ie_next head)) in
  Ok (set_table st (tmod table 0 (λ e, set_ie_next e index))).

(** Copy the tree entry [t] at [tentry] into the table, with the generation
    of its name; if it is a send right, move it from the global to the local
    hash table. *)
Definition entry_move (st : istate) (index tname tentry : Z) (t : ipc_tree_entry) :
    outcome istate :=
  let bits := ite_bits t in
  let obj := ite_object t in
  let st := eset st (EP_table index) (λ e,
    IE (Z.lor bits (MACH_PORT_GEN tname)) obj (ie_request (ite_entry t)) (ie_index e)) in
  if IE_BITS_TYPE bits =? MACH_PORT_TYPE_SEND then
    st ← ipc_hash_global_delete st obj tname tentry;
    let s := st_space st in
    table ← ipc_hash_local_insert (is_table s) (is_table_size s) obj index;
    Ok (set_table st table)
  else Ok st.

(** Check if the collision bit should still be on, and join the trees. *)
Definition entry_rejoin (st : istate) (collisions small : ipc_splay_tree Z) (index : Z) :
    outcome istate :=
  st ← match ipc_splay_tree_pick collisions with
       | Some _ =>
         let st := eset st (EP_table index)
           (λ e, set_ie_bits e (Z.lor (ie_bits e) IE_BITS_COLLISION)) in
         '(tree, _) ← ipc_splay_tree_join (is_tree (st_space st)) collisions;
         Ok (set_tree st tree)
       | None => Ok st
       end;
  '(tree, _) ← ipc_splay_tree_join (is_tree (st_space st)) small;
  Ok (set_tree st tree).

(** Move an entry with the same index from the tree to the table. *)
Definition entry_dealloc_collision (st : istate) (index : Z) : outcome istate :=
  '(tree, collisions) ← ipc_splay_tree_split (is_tree (st_space st)) (MACH_PORT_MAKE (index + 1) 0);
  let st := set_tree st tree in
  '(collisions, small) ← ipc_splay_tree_split collisions (MACH_PORT_MAKE index 0);
  match ipc_splay_tree_pick collisions with
  | None => Fault FAssert
  | Some (tname, tentry) =>
    kassert (MACH_PORT_INDEX tname =? index);;
    t ← deref (st_ites st !! tentry);
    kassert (ite_space t =? space_addr);;
    st ← entry_move st index tname tentry t;
    '(st, collisions) ← tree_delete st collisions tname tentry;
    st ← is_tree_total_decr st;
    entry_rejoin st collisions small index
  end.

(** After a name has left the tree: its index may not collide any more, or
    not count for [is_tree_small]. *)
Definition entry_uncollide (st : istate) (name : Z) : outcome istate :=
  let index := MACH_PORT_INDEX name in
  if index <? is_table_size (st_space st) then
    ientry ← deref (tget (st_table st) index);
    kassert (negb (Z.land (ie_bits ientry) IE_BITS_COLLISION =? 0));;
    '(st, collision) ← ipc_entry_tree_collision st name;
    if negb (collision : bool) then
      Ok (eset st (EP_table index)
            (λ e, set_ie_bits e (Z.land (ie_bits e) (Z.lnot IE_BITS_COLLISION))))
    else Ok st
  else
    next ← its_size (is_table_next (st_space st));
    if index <? next then
      '(st, collision) ← ipc_entry_tree_collision st name;
      if negb (collision : bool) then
        kassert (0 <? is_tree_small (st_space st));;
        Ok (with_space st (λ s, set_is_tree_small s (is_tree_small s - 1)))
      else Ok st
    else Ok st.

(** A tree entry. *)
Definition entry_dealloc_tree (st : istate) (name p : Z) : outcome istate :=
  t ← deref (st_ites st !! p);
  kassert (ite_space t =? space_addr);;
  '(st, tree) ← tree_delete st (is_tree (st_space st)) name p;
  let st := set_tree st tree in
  st ← is_tree_total_decr st;
  entry_uncollide st name.

Definition ipc_entry_dealloc (st : istate) (name : Z) (entry : eptr) : outcome istate :=
  let s := st_space st in
  kassert (is_active s);;
  e ← deref (eget st entry);
  kassert (ie_object e =? IO_NULL);;
  kassert (ie_request e =? 0);;
  let index := MACH_PORT_INDEX name in
  if is_fast s then
    kassert (index <? is_table_size s);;
    kassert (bool_decide (entry = EP_table index));;
    kassert (IE_BITS_GEN (ie_bits e) =? MACH_PORT_GEN name);;
    kassert (Z.land (ie_bits e) IE_BITS_COLLISION =? 0);;
    entry_free_push st index
  else if (index <? is_table_size s) && bool_decide (entry = EP_table index) then
    kassert (IE_BITS_GEN (ie_bits e) =? MACH_PORT_GEN name);;
    if negb (Z.land (ie_bits e) IE_BITS_COLLISION =? 0) then entry_dealloc_collision st index
    else entry_free_push st index
  else
    match entry with
    | EP_tree p => entry_dealloc_tree st name p
    | EP_table _ => Fault FDeref
    end.

(** ** ipc_entry_grow_table *)

(** [while ((psize != size) && (target_size > size))] *)
Fixpoint grow_target_loop (fuel : nat) (target psize size : Z) (its : nat) :
    outcome (Z * Z * nat) :=
  match fuel with
  | O => Fault FLoop
  | S fuel' =>
    if negb (psize =? size) && (size <? target) then
      nsize ← its_size (S its);
      grow_target_loop fuel' target size nsize (S its)
    else Ok (psize, size, its)
  end.

(** Clear the [ie_index] fields of the old part, zero the new part. *)
Definition grow_copy (table : list ipc_entry) (osize size : Z) : list ipc_entry :=
  ((λ e, set_ie_index e 0) <$> take (Z.to_nat osize) table) ++
  replicate (Z.to_nat (size - osize)) (IE 0 IO_NULL 0 0).

(** Put old entries into the reverse hash table. *)
Definition grow_rehash (table : list ipc_entry) (osize size : Z) : outcome (list ipc_entry) :=
  ofold (λ table i,
      e ← deref (tget table i);
      if IE_BITS_TYPE (ie_bits e) =? MACH_PORT_TYPE_SEND
      then ipc_hash_local_insert table size (ie_object e) i
      else Ok table)
    table (seqZ 0 osize).

(** The body of the traversal that moves entries into the table: the state,
    and whether the entry is deleted (and then freed) by the traversal. *)
Definition grow_move (osize size : Z) (st : istate) (name tentry : Z) : outcome (istate * bool) :=
  t ← deref (st_ites st !! tentry);
  let gen := MACH_PORT_GEN (ite_name t) in
  let index := MACH_PORT_INDEX (ite_name t) in
  kassert (ite_space t =? space_addr);;
  kassert ((osize <=? index) && (index <? size));;
  entry ← deref (tget (st_table st) index);
  let bits := ie_bits entry in
  if negb (bits =? 0) then
    kassert (negb (IE_BITS_TYPE bits =? 0));;
    kassert (negb (IE_BITS_GEN bits =? gen));;
    Ok (eset st (EP_table index)
          (λ e, set_ie_bits e (Z.lor (ie_bits e) IE_BITS_COLLISION)), false)
  else
    kassert (negb (IE_BITS_TYPE (ite_bits t) =? MACH_PORT_TYPE_NONE));;
    st ← entry_move st index (ite_name t) tentry t;
    let st := with_space st (λ s, set_is_tree_total s (is_tree_total s - 1)) in
    Ok (ite_free st tentry, true).

(** The body of the traversal that counts indices: [nosmall] and [index]. *)
Definition grow_count (st : istate) (c : Z * Z) (name tentry : Z) : outcome (Z * Z * bool) :=
  let '(nosmall, index) := c in
  t ← deref (st_ites st !! tentry);
  let nindex := MACH_PORT_INDEX (ite_name t) in
  if negb (nindex =? index) then Ok (nosmall + 1, nindex, false)
  else Ok (nosmall, index, false).

(** Transfer entries of the splay tree to the table, update [is_tree_small]. *)
Definition grow_transfer (st : istate) (osize size nsize : Z) : outcome istate :=
  let fuel := Z.to_nat (is_tree_total (st_space st)) in
  '(tree, small) ← ipc_splay_tree_split (is_tree (st_space st)) (MACH_PORT_MAKE nsize 0);
  let st := set_tree st tree in
  '(small, move) ← ipc_splay_tree_split small (MACH_PORT_MAKE size 0);
  '(move, ignore) ← ipc_splay_tree_split move (MACH_PORT_MAKE osize 0);
  '(st, move) ← splay_traverse fuel (grow_move osize size) st move;
  '(nosmall, _, small) ← splay_traverse fuel (grow_count st) (0, 0) small;
  kassert (nosmall <=? nsize - size);;
  kassert (nosmall <=? is_tree_total (st_space st));;
  let st := with_space st (λ s, set_is_tree_small s nosmall) in
  '(tree, _) ← ipc_splay_tree_join (is_tree (st_space st)) small;
  '(tree, _) ← ipc_splay_tree_join tree move;
  '(tree, _) ← ipc_splay_tree_join tree ignore;
  Ok (set_tree st tree).

(** Add the unused entries of the new part to the free list, in reverse. *)
Definition grow_free (table : list ipc_entry) (osize size : Z) : outcome (list ipc_entry) :=
  head ← deref (tget table 0);
  '(table, free_index) ←
    ofold (λ '(table, free_index) i,
        e ← deref (tget table i);
        if ie_bits e =? 0 then
          Ok (tmod table i (λ e, set_ie_next (set_ie_bits e IE_BITS_GEN_MASK) free_index), i)
        else Ok (table, free_index))
      (table, ie_next head) (reverse (seqZ osize (size - osize)));
  Ok (tmod table 0 (λ e, set_ie_next e free_index)).

(** What is done with the new table, locked. *)
Definition grow_install (st : istate) (addr osize size nsize : Z) (nits : nat) : outcome istate :=
  let table := grow_copy (st_table st) osize size in
  table ← grow_rehash table osize size;
  let st := with_space st (λ s, set_is_grown s table addr size nits) in
  kassert (negb (is_fast (st_space st)) || (is_tree_total (st_space st) =? 0));;
  st ← (if 0 <? is_tree_total (st_space st) then grow_transfer st osize size nsize else Ok st);
  table ← grow_free (st_table st) osize size;
  Ok (set_table st table).

(** The loop.  [Some kr] in the middle of the body is a [return]. *)
Fixpoint grow_loop (fuel : nat) (st : istate) (target_size : Z) : outcome (istate * kern_return) :=
  match fuel with
  | O => Fault FLoop
  | S fuel' =>
    let s := st_space st in
    kassert (is_active s);;
    if is_growing s then
      st ← is_write_unlock st;
      st ← is_write_lock st;
      Ok (st, KERN_SUCCESS)
    else
      let otable := is_table_addr s in
      let its := is_table_next s in
      size ← its_size its;
      let oits := Nat.pred its in
      osize ← its_size oits;
      '(psize, size, its) ←
        (if target_size =? ITS_SIZE_NONE then Ok (osize, size, its)
         else if target_size <=? osize then Ok (osize, size, its)
         else grow_target_loop ipc_table_entries_size target_size osize size its);
      if negb (target_size =? ITS_SIZE_NONE) && (target_size <=? osize) then
        st ← is_write_unlock st;
        Ok (st, KERN_SUCCESS)
      else if negb (target_size =? ITS_SIZE_NONE) && (psize =? size) then
        st ← is_write_unlock st;
        Ok (st, KERN_NO_SPACE)
      else
      let nits := S its in
      nsize ← its_size nits;
      if osize =? size then
        st ← is_write_unlock st;
        Ok (st, KERN_NO_SPACE)
      else
      kassert ((osize <? size) && (size <=? nsize));;
      let st := with_space st (λ s, set_is_growing s true) in
      st ← is_write_unlock st;
      let '(st, table) := kmem st in
      st ← is_write_lock st;
      let st := with_space st (λ s, set_is_growing s false) in
      match table with
      | None =>
        st ← is_write_unlock st;
        Ok (st, KERN_RESOURCE_SHORTAGE)
      | Some addr =>
        if negb (is_active (st_space st)) then
          st ← is_write_unlock st;
          st ← is_write_lock st;
          Ok (st, KERN_SUCCESS)
        else
          kassert (is_table_addr (st_space st) =? otable);;
          kassert ((is_table_next (st_space st) =? its)%nat || negb (target_size =? ITS_SIZE_NONE));;
          kassert (is_table_size (st_space st) =? osize);;
          st ← grow_install st addr osize size nsize nits;
          st ← is_write_unlock st;
          st ← is_write_lock st;
          let s := st_space st in
          if negb (is_active s) || negb (is_table_next s =? nits)%nat then Ok (st, KERN_SUCCESS)
          else if (0 <? is_tree_small s) &&
                  ((nsize - size) * sizeof_ipc_entry <? is_tree_small s * sizeof_ipc_tree_entry)
          then grow_loop fuel' st target_size
          else Ok (st, KERN_SUCCESS)
      end
  end.

Definition ipc_entry_grow_table (st : istate) (target_size : Z) : outcome (istate * kern_return) :=
  grow_loop ipc_table_entries_size st target_size.

(** ** ipc_entry_alloc *)

Fixpoint entry_alloc_loop (fuel : nat) (st : istate) :
    outcome (istate * (kern_return * option (Z * eptr))) :=
  match fuel with
  | O => Fault FLoop
  | S fuel' =>
    if negb (is_active (st_space st)) then
      st ← is_write_unlock st;
      Ok (st, (KERN_INVALID_TASK, None))
    else
      '(st, (kr, res)) ← ipc_entry_get st;
      if bool_decide (kr = KERN_SUCCESS) then Ok (st, (kr, res))
      else
        '(st, kr) ← ipc_entry_grow_table st ITS_SIZE_NONE;
        if negb (bool_decide (kr = KERN_SUCCESS)) then Ok (st, (kr, None))
        else entry_alloc_loop fuel' st
  end.

Definition ipc_entry_alloc (st : istate) : outcome (istate * (kern_return * option (Z * eptr))) :=
  st ← is_write_lock st;
  entry_alloc_loop (S ipc_table_entries_size) st.

(** ** ipc_entry_alloc_name *)

(** [for (free_index = 0; (next_index = table[free_index].ie_next) != index;
    free_index = next_index)]: returns [free_index]. *)
Fixpoint rip_loop (fuel : nat) (table : list ipc_entry) (index free_index : Z) : outcome Z :=
  match fuel with
  | O => Fault FLoop
  | S fuel' =>
    e ← deref (tget table free_index);
    if ie_next e =? index then Ok free_index
    else rip_loop fuel' table index (ie_next e)
  end.

Definition entry_rip (st : istate) (index gen : Z) : outcome istate :=
  let table := st_table st in
  free_index ← rip_loop (S (length table)) table index 0;
  e ← deref (tget table index);
  let table := tmod table free_index (λ f, set_ie_next f (ie_next e)) in
  kassert (ie_object e =? IO_NULL);;
  Ok (set_table st (tmod table index (λ e, set_ie_request (set_ie_bits e gen) 0))).

(** Insert the tree entry allocated before. *)
Definition entry_tree_insert (st : istate) (name p : Z) (next : Z) : outcome istate :=
  let index := MACH_PORT_INDEX name in
  let st := with_space st (λ s, set_is_tree_total s (is_tree_total s + 1)) in
  st ← (if index <? is_table_size (st_space st) then
          Ok (eset st (EP_table index)
                (λ e, set_ie_bits e (Z.lor (ie_bits e) IE_BITS_COLLISION)))
        else if index <? next then
          '(st, collision) ← ipc_entry_tree_collision st name;
          if negb (collision : bool)
          then Ok (with_space st (λ s, set_is_tree_small s (is_tree_small s + 1)))
          else Ok st
        else Ok st);
  tree ← ipc_splay_tree_insert (is_tree (st_space st)) name p;
  let st := set_tree st tree in
  Ok (with_ites st (<[p := ITE_ (IE 0 IO_NULL 0 0) name space_addr]>)).

(** [if (tree_entry) ite_free(tree_entry)] *)
Definition ite_free_opt (st : istate) (tree_entry : option Z) : istate :=
  match tree_entry with
  | Some p => ite_free st p
  | None => st
  end.

(** The entry is in use for the same name ([Some st]), in use for another
    name ([None]), or free ([Some st], ripped out of the free list). *)
Definition alloc_name_table (st : istate) (name : Z) (tree_entry : option Z) :
    outcome (option istate) :=
  let index := MACH_PORT_INDEX name in
  let gen := MACH_PORT_GEN name in
  let s := st_space st in
  if (0 <? index) && (index <? is_table_size s) then
    e ← deref (tget (is_table s) index);
    if negb (IE_BITS_TYPE (ie_bits e) =? 0) then
      if IE_BITS_GEN (ie_bits e) =? gen then
        kassert (bool_decide (tree_entry = None));;
        Ok (Some st)
      else Ok None
    else
      st ← entry_rip st index gen;
      kassert (negb (is_fast s) || bool_decide (tree_entry = None));;
      Ok (Some (if is_fast s then st else ite_free_opt st tree_entry))
  else Ok None.

(** Check if the entry already exists in the tree. *)
Definition alloc_name_tree (st : istate) (name : Z) : outcome (istate * option Z) :=
  let s := st_space st in
  if 0 <? is_tree_total s then
    '(tree, o) ← ipc_splay_tree_lookup (is_tree s) name;
    Ok (set_tree st tree, o)
  else Ok (st, None).

Fixpoint alloc_name_loop (fuel : nat) (st : istate) (name : Z) (tree_entry : option Z) :
    outcome (istate * (kern_return * option eptr)) :=
  match fuel with
  | O => Fault FLoop
  | S fuel' =>
    let index := MACH_PORT_INDEX name in
    let s := st_space st in
    if negb (is_active s) then
      st ← is_write_unlock st;
      Ok (ite_free_opt st tree_entry, (KERN_INVALID_TASK, None))
    else
    found ← alloc_name_table st name tree_entry;
    match found with
    | Some st => Ok (st, (KERN_SUCCESS, Some (EP_table index)))
    | None =>
    if is_fast s then
      st ← is_write_unlock st;
      kassert (bool_decide (tree_entry = None));;
      Ok (st, (KERN_FAILURE, None))
    else
    '(st, tentry) ← alloc_name_tree st name;
    match tentry with
    | Some p =>
      t ← deref (st_ites st !! (p : Z));
      kassert (ite_space t =? space_addr);;
      kassert (negb (IE_BITS_TYPE (ite_bits t) =? 0));;
      Ok (ite_free_opt st tree_entry, (KERN_SUCCESS, Some (EP_tree p)))
    | None =>
    let s := st_space st in
    next ← its_size (is_table_next s);
    if (is_table_size s <=? index) && (index <? next) &&
       ((next - is_table_size s) * sizeof_ipc_entry <?
        (is_tree_small s + 1) * sizeof_ipc_tree_entry)
    then
      '(st, kr) ← ipc_entry_grow_table st ITS_SIZE_NONE;
      kassert (negb (bool_decide (kr = KERN_NO_SPACE)));;
      if negb (bool_decide (kr = KERN_SUCCESS)) then Ok (ite_free_opt st tree_entry, (kr, None))
      else alloc_name_loop fuel' st name tree_entry
    else
    match tree_entry with
    | Some p =>
      st ← entry_tree_insert st name p next;
      Ok (st, (KERN_SUCCESS, Some (EP_tree p)))
    | None =>
      st ← is_write_unlock st;
      let '(st, tree_entry) := kmem st in
      match tree_entry with
      | None => Ok (st, (KERN_RESOURCE_SHORTAGE, None))
      | Some _ =>
        st ← is_write_lock st;
        alloc_name_loop fuel' st name tree_entry
      end
    end
    end
    end
  end.

Definition ipc_entry_alloc_name (st : istate) (name : Z) :
    outcome (istate * (kern_return * option eptr)) :=
  kassert (MACH_PORT_VALID name);;
  st ← is_write_lock st;
  alloc_name_loop (S (S ipc_table_entries_size)) st name None.
End entry.
