(* ===== verification/IpcInv.v ===== *)
(** * The invariant of a space, and the map of names to capabilities it stands for

    The table, the free list threaded through it, the splay tree, the
    collision bits, the two reverse hash tables and the counters of a space
    agree.  [H] is the set of names in hand: allocated entries that the
    caller is about to fill in, or whose right it has just taken away. *)

From stdpp Require Import prelude list gmap.
From S2P Require Import Prelude MachPort IpcSplay IpcTypes IpcHash IpcTable IpcEntry.

(** ** Reading a table *)

Definition bits_at (t : list ipc_entry) (i : Z) : Z := default 0 (ie_bits <$> tget t i).
Definition next_at (t : list ipc_entry) (i : Z) : Z := default 0 (ie_next <$> tget t i).
Definition type_at (t : list ipc_entry) (i : Z) : Z := IE_BITS_TYPE (bits_at t i).
Definition name_at (t : list ipc_entry) (i : Z) : Z := MACH_PORT_MAKEB i (bits_at t i).

(** Names of different slots differ. *)
Lemma name_at_inj t t' i j :
  0 ≤ i < 2 ^ 24 → 0 ≤ j < 2 ^ 24 → name_at t i = name_at t' j → i = j.
Proof.
  intros Hi Hj Heq. unfold name_at in Heq.
  rewrite <-(INDEX_MAKEB i (bits_at t i)), Heq by done. by apply INDEX_MAKEB.
Qed.

Lemma name_at_gen t t' i :
  IE_BITS_GEN (bits_at t' i) = IE_BITS_GEN (bits_at t i) → name_at t' i = name_at t i.
Proof. unfold name_at, MACH_PORT_MAKEB. by intros ->. Qed.

Lemma bits_at_get t i e : tget t i = Some e → ie_bits e = bits_at t i.
Proof. unfold bits_at. by intros ->. Qed.
Lemma next_at_get t i e : tget t i = Some e → ie_next e = next_at t i.
Proof. unfold next_at. by intros ->. Qed.

Lemma bits_at_tmod t i f j :
  bits_at (tmod t i f) j =
    if decide (i = j) then default 0 (ie_bits ∘ f <$> tget t j) else bits_at t j.
Proof. unfold bits_at. rewrite tget_tmod. case_decide; [|done]. by destruct (tget t j). Qed.
Lemma next_at_tmod t i f j :
  next_at (tmod t i f) j =
    if decide (i = j) then default 0 (ie_next ∘ f <$> tget t j) else next_at t j.
Proof. unfold next_at. rewrite tget_tmod. case_decide; [|done]. by destruct (tget t j). Qed.

(** Updates that leave a field alone. *)
Lemma bits_at_keep t i f j : (∀ e, ie_bits (f e) = ie_bits e) → bits_at (tmod t i f) j = bits_at t j.
Proof.
  intros Hf. rewrite bits_at_tmod. case_decide; [|done]. unfold bits_at.
  destruct (tget t j); simpl; [|done]. apply Hf.
Qed.
Lemma object_at_keep t i f j :
  (∀ e, ie_object (f e) = ie_object e) → object_at (tmod t i f) j = object_at t j.
Proof.
  intros Hf. unfold object_at. rewrite tget_tmod. case_decide; [|done].
  destruct (tget t j); simpl; [|done]. apply Hf.
Qed.
Lemma slot_keep t i f j : (∀ e, ie_index (f e) = ie_index e) → slot (tmod t i f) j = slot t j.
Proof.
  intros Hf. unfold slot. rewrite tget_tmod. case_decide; [|done].
  destruct (tget t j); simpl; [|done]. apply Hf.
Qed.

(** The free list from entry [i] on. *)
Abbreviation linked t := (threaded (next_at t)) (only parsing).

(** ** The capability a name stands for *)

Record cap := Cap {
  cap_bits : Z;      (** type and user references *)
  cap_object : Z;
  cap_request : Z;
}.

Definition cap_of (e : ipc_entry) : cap :=
  Cap (Z.land (ie_bits e) IE_BITS_RIGHT_MASK) (ie_object e) (ie_request e).

Definition tree_elems (st : istate) : list (Z * Z) := elems (is_tree (st_space st)).

Definition space_view (st : istate) (name : Z) : option cap :=
  match splay_map (is_tree (st_space st)) !! name with
  | Some p =>
    t ← st_ites st !! p;
    if IE_BITS_TYPE (ite_bits t) =? 0 then None else Some (cap_of (ite_entry t))
  | None =>
    let index := MACH_PORT_INDEX name in
    e ← tget (st_table st) index;
    if (0 <? index) && (IE_BITS_GEN (ie_bits e) =? MACH_PORT_GEN name) &&
       negb (IE_BITS_TYPE (ie_bits e) =? 0)
    then Some (cap_of e) else None
  end.

(** Both spaces hold the same. *)
Definition same_view (st st' : istate) : Prop :=
  ∀ n, is_u32 n → space_view st' n = space_view st n.

Lemma same_view_trans st1 st2 st3 :
  same_view st1 st2 → same_view st2 st3 → same_view st1 st3.
Proof. intros H1 H2 n Hn. by rewrite H2, H1. Qed.

(** Alive, locked, growing. *)
Definition flags (st : istate) : bool * bool * bool :=
  (is_active (st_space st), is_locked (st_space st), is_growing (st_space st)).
Abbreviation ready st := (flags st = (true, true, false)).

(** ** The invariant *)

(** Indices in a range that names of the tree have. *)
Definition small_set (l : list (Z * Z)) (lo hi : Z) : gset Z :=
  filter (λ i, lo ≤ i < hi) (list_to_set (MACH_PORT_INDEX ∘ fst <$> l)).

Record table_wf (H : gset Z) (t : list ipc_entry) : Prop := {
  tw_zero_gen : IE_BITS_GEN (bits_at t 0) = IE_BITS_GEN_MASK;
  tw_zero_type : type_at t 0 = 0;
  tw_free : ∃ fl, linked t 0 fl ∧ NoDup fl ∧
    ∀ i, i ∈ fl ↔ 0 < i < tsize t ∧ type_at t i = 0 ∧ name_at t i ∉ H;
  tw_free_entry i : 0 < i < tsize t → type_at t i = 0 → name_at t i ∉ H →
    Z.land (bits_at t i) (Z.lnot IE_BITS_GEN_MASK) = 0 ∧ object_at t i = IO_NULL;
}.

(** The names the table cannot hold: [MACH_PORT_NULL], [MACH_PORT_DEAD] and
    the name of entry 0, which heads the free list. *)
Definition name_ok (name : Z) : Prop :=
  is_u32 name ∧ MACH_PORT_VALID name = true ∧ name ≠ MACH_PORT_MAKEB 0 IE_BITS_GEN_MASK.

Section inv.
Context {W : iworld}.

Definition tree_entry_wf (H : gset Z) (name : Z) (t : ipc_tree_entry) : Prop :=
  ite_name t = name ∧ ite_space t = space_addr ∧ name_ok name ∧
  Z.land (ite_bits t) IE_BITS_RIGHT_MASK = ite_bits t ∧
  (name ∉ H → IE_BITS_TYPE (ite_bits t) ≠ 0).

Definition tree_wf (H : gset Z) (l : list (Z * Z)) (ites : gmap Z ipc_tree_entry) : Prop :=
  ∀ name p, (name, p) ∈ l → ∃ t, ites !! p = Some t ∧ tree_entry_wf H name t.

Record coll_wf (H : gset Z) (t : list ipc_entry) (l : list (Z * Z)) : Prop := {
  cw_bit i : 0 ≤ i < tsize t →
    collides (bits_at t i) = true ↔ ∃ n, n ∈ l.*1 ∧ MACH_PORT_INDEX n = i;
  cw_used n : n ∈ l.*1 → 0 < MACH_PORT_INDEX n < tsize t →
    name_at t (MACH_PORT_INDEX n) ≠ n ∧
    (type_at t (MACH_PORT_INDEX n) ≠ 0 ∨ name_at t (MACH_PORT_INDEX n) ∈ H);
}.

(** Send rights, and only those, are entered in the reverse hash tables. *)
Record hash_wf (H : gset Z) (t : list ipc_entry) (l : list (Z * Z))
    (ites : gmap Z ipc_tree_entry) (bs : list (list Z)) : Prop := {
  hw_local : local_hash t;
  hw_global : global_hash l ites bs;
  hw_type i : 0 < i < tsize t → name_at t i ∉ H →
    hashed t i ↔ type_at t i = MACH_PORT_TYPE_SEND;
  hw_tree_type name p te : (name, p) ∈ l → ites !! p = Some te → name ∉ H →
    p ∈ mjoin bs ↔ IE_BITS_TYPE (ite_bits te) = MACH_PORT_TYPE_SEND;
  hw_disjoint i p : hashed t i → p ∈ mjoin bs → own ites p →
    object_at t i ≠ object_of ites p;
}.

(** The entry a pointer designates has the name. *)
Definition denotes (H : gset Z) (st : istate) (name : Z) (ep : eptr) : Prop :=
  match ep with
  | EP_table i => 0 < i < tsize (st_table st) ∧ name_at (st_table st) i = name ∧
      (type_at (st_table st) i ≠ 0 ∨ name ∈ H)
  | EP_tree p => (name, p) ∈ tree_elems st
  end.

Record space_wf (H : gset Z) (st : istate) : Prop := {
  sw_addr : space_addr ≠ 0;
  sw_size : is_table_size (st_space st) = tsize (st_table st);
  sw_next : ∃ k nsize, is_table_next (st_space st) = S k ∧
    ipc_table_entries !! k = Some (is_table_size (st_space st)) ∧
    ipc_table_entries !! S k = Some nsize ∧
    is_tree_small (st_space st) =
      Z.of_nat (size (small_set (tree_elems st) (is_table_size (st_space st)) nsize));
  sw_table : table_wf H (st_table st);
  sw_splay : splay_wf (is_tree (st_space st));
  sw_tree : tree_wf H (tree_elems st) (st_ites st);
  sw_coll : coll_wf H (st_table st) (tree_elems st);
  sw_hash : hash_wf H (st_table st) (tree_elems st) (st_ites st) (st_buckets st);
  sw_total : is_tree_total (st_space st) = Z.of_nat (length (tree_elems st));
  sw_hashed : is_tree_hash (st_space st) = Z.of_nat (own_hashed (st_ites st) (st_buckets st));
  sw_fast : is_fast (st_space st) = true → tree_elems st = [];
  sw_hand name : name ∈ H → is_u32 name ∧ ∃ ep, denotes H st name ep;
}.

(** ** Basic consequences *)

Lemma space_wf_size H st : space_wf H st → 4 ≤ tsize (st_table st) < 2 ^ 24.
Proof.
  intros Hw. destruct (sw_next _ _ Hw) as (k & nsize & _ & H1 & H2 & _).
  pose proof (its_next_le _ _ _ H1 H2). rewrite (sw_size _ _ Hw) in *. lia.
Qed.

Lemma space_wf_next H st :
  space_wf H st → ∃ nsize, its_size (is_table_next (st_space st)) = Ok nsize ∧
    tsize (st_table st) ≤ nsize < 2 ^ 24 ∧
    is_tree_small (st_space st) =
      Z.of_nat (size (small_set (tree_elems st) (tsize (st_table st)) nsize)).
Proof.
  intros Hw. destruct (sw_next _ _ Hw) as (k & nsize & Hk & H1 & H2 & H3).
  pose proof (its_next_le _ _ _ H1 H2). rewrite (sw_size _ _ Hw) in *.
  exists nsize. unfold its_size. rewrite Hk, H2. split_and!; [done|lia..|done].
Qed.

Lemma tree_elem_ok H st name p :
  space_wf H st → (name, p) ∈ tree_elems st →
  ∃ t, st_ites st !! p = Some t ∧ tree_entry_wf H name t.
Proof. intros Hw. apply (sw_tree _ _ Hw). Qed.

Lemma tree_elems_NoDup H st : space_wf H st → NoDup (tree_elems st).*1.
Proof. intros Hw. apply ordered_NoDup. apply (sw_splay _ _ Hw). Qed.

(** Names and addresses of the tree correspond. *)
Lemma tree_elem_unique H st name p q :
  space_wf H st → (name, p) ∈ tree_elems st → (name, q) ∈ tree_elems st → p = q.
Proof.
  intros Hw Hp Hq. rewrite <-(ordered_lookup (tree_elems st)) in Hp, Hq by apply Hw.
  congruence.
Qed.
Lemma tree_addr_unique H st n m p :
  space_wf H st → (n, p) ∈ tree_elems st → (m, p) ∈ tree_elems st → n = m.
Proof.
  intros Hw Hn Hm.
  destruct (tree_elem_ok _ _ _ _ Hw Hn) as (t & Ht & Hn' & _).
  destruct (tree_elem_ok _ _ _ _ Hw Hm) as (t' & Ht' & Hm' & _). congruence.
Qed.

Lemma elem_of_names (l : list (Z * Z)) n : n ∈ l.*1 ↔ ∃ p, (n, p) ∈ l.
Proof.
  rewrite list_elem_of_fmap. split.
  - intros ([m p] & -> & Hin). by exists p.
  - intros (p & Hin). by exists (n, p).
Qed.

Lemma splay_map_lookup H st name :
  space_wf H st →
  match splay_map (is_tree (st_space st)) !! name with
  | Some p => (name, p) ∈ tree_elems st
  | None => name ∉ (tree_elems st).*1
  end.
Proof.
  intros Hw. destruct (splay_map (is_tree (st_space st)) !! name) as [p|] eqn:E.
  - apply splay_map_elem in E; [done|apply Hw].
  - intros (p & Hp)%elem_of_names.
    apply splay_map_elem in Hp; [congruence|apply Hw].
Qed.

(** A name has one entry. *)
Lemma denotes_unique H st name ep ep' :
  space_wf H st → denotes H st name ep → denotes H st name ep' → ep = ep'.
Proof.
  intros Hw. pose proof (space_wf_size _ _ Hw) as Hsz.
  assert (∀ i p, 0 < i < tsize (st_table st) → name_at (st_table st) i = name →
    (name, p) ∈ tree_elems st → False) as Hx.
  { intros i p Hi Hn Hp. unfold name_at in Hn.
    assert (MACH_PORT_INDEX name = i) as Hidx by (rewrite <-Hn; apply INDEX_MAKEB; lia).
    destruct (cw_used _ _ _ (sw_coll _ _ Hw) name) as [Hne _].
    - apply elem_of_names. eauto.
    - by rewrite Hidx.
    - apply Hne. by rewrite Hidx. }
  destruct ep as [i|p], ep' as [j|q]; simpl.
  - intros (Hi & Hn & _) (Hj & Hm & _). f_equal. unfold name_at in *.
    rewrite <-(INDEX_MAKEB i (bits_at (st_table st) i)), Hn by lia.
    rewrite <-Hm. apply INDEX_MAKEB. lia.
  - intros (Hi & Hn & _) Hq. by destruct (Hx i q).
  - intros Hp (Hj & Hm & _). by destruct (Hx j p).
  - intros. f_equal. by eapply tree_elem_unique.
Qed.

(** Re-splaying the tree changes nothing else. *)
Definition resplayed (st st' : istate) : Prop :=
  ∃ tree, st' = set_tree st tree ∧ splay_wf tree ∧ elems tree = tree_elems st.

Lemma resplayed_refl H st : space_wf H st → resplayed st st.
Proof.
  intros Hw. exists (is_tree (st_space st)). split; [by destruct st as [[]]|].
  split; [apply Hw|done].
Qed.

Lemma resplayed_wf H st st' : space_wf H st → resplayed st st' → space_wf H st'.
Proof.
  intros Hw (tree & -> & Hs & He). destruct Hw.
  split; unfold tree_elems, st_table in *; simpl in *; rewrite ?He; try done.
  intros name Hn. destruct (sw_hand0 name Hn) as (? & ep & Hd). split; [done|].
  exists ep. destruct ep; simpl in *; [done|]. unfold tree_elems in *. simpl. by rewrite He.
Qed.

Lemma resplayed_denotes H st st' name ep :
  resplayed st st' → denotes H st' name ep ↔ denotes H st name ep.
Proof.
  intros (tree & -> & _ & He). destruct ep; [done|]. simpl. unfold tree_elems. simpl.
  by rewrite He.
Qed.

Lemma resplayed_view H st st' name :
  space_wf H st → resplayed st st' → space_view st' name = space_view st name.
Proof.
  intros Hw (tree & -> & Hs & He). unfold space_view. simpl.
  unfold splay_map. rewrite He. done.
Qed.

Lemma resplayed_eget st st' ep : resplayed st st' → eget st' ep = eget st ep.
Proof. intros (tree & -> & _). by destruct ep. Qed.

(** ** The view by entries *)

Lemma denotes_eget H st name ep :
  space_wf H st → denotes H st name ep → ∃ e, eget st ep = Some e.
Proof.
  intros Hw. destruct ep as [i|p]; simpl.
  - intros (Hi & _). apply tget_is_Some. lia.
  - intros Hp. destruct (tree_elem_ok _ _ _ _ Hw Hp) as (t & Ht & _). rewrite Ht. eauto.
Qed.

Lemma view_denotes H st name ep e :
  space_wf H st → denotes H st name ep → eget st ep = Some e →
  space_view st name = if IE_BITS_TYPE (ie_bits e) =? 0 then None else Some (cap_of e).
Proof.
  intros Hw Hd He. pose proof (space_wf_size _ _ Hw) as Hsz. unfold space_view.
  pose proof (splay_map_lookup H st name Hw) as Hm.
  destruct (splay_map (is_tree (st_space st)) !! name) as [p|] eqn:E.
  - assert (EP_tree p = ep) as <- by (by eapply denotes_unique).
    simpl in He. destruct (st_ites st !! p) as [t|]; [|done]. simpl in *. by injection He as <-.
  - destruct ep as [i|p]; simpl in *; [|destruct Hm; apply elem_of_names; eauto].
    destruct Hd as (Hi & Hn & _). unfold name_at in Hn.
    assert (MACH_PORT_INDEX name = i) as Hidx by (rewrite <-Hn; apply INDEX_MAKEB; lia).
    rewrite Hidx, He. simpl. rewrite (bits_at_get _ _ _ He) in *.
    apply MAKEB_eq in Hn as [_ Hgen]; [|lia|rewrite <-Hn; apply MAKEB_range; lia].
    rewrite (proj2 (Z.ltb_lt _ _)), Hgen, Z.eqb_refl by lia. simpl. by destruct (IE_BITS_TYPE _ =? 0).
Qed.

Lemma view_None H st name :
  space_wf H st → is_u32 name → (∀ ep, ¬ denotes H st name ep) → space_view st name = None.
Proof.
  intros Hw Hu Hno. pose proof (space_wf_size _ _ Hw) as Hsz. unfold space_view.
  pose proof (splay_map_lookup H st name Hw) as Hm.
  destruct (splay_map (is_tree (st_space st)) !! name) as [p|] eqn:E.
  { by destruct (Hno (EP_tree p)). }
  destruct (tget (st_table st) (MACH_PORT_INDEX name)) as [e|] eqn:He; [|done]. simpl.
  destruct (Z.ltb_spec 0 (MACH_PORT_INDEX name)); [|done]. simpl.
  destruct (Z.eqb_spec (IE_BITS_GEN (ie_bits e)) (MACH_PORT_GEN name)) as [Hg|]; [|done]. simpl.
  destruct (Z.eqb_spec (IE_BITS_TYPE (ie_bits e)) 0) as [|Ht]; [done|]. simpl. exfalso.
  apply (Hno (EP_table (MACH_PORT_INDEX name))). simpl.
  pose proof (tget_Some _ _ _ He). rewrite (bits_at_get _ _ _ He) in *.
  split_and!; [lia..| |by left]. apply MAKEB_eq; [lia|done|done].
Qed.

(** Entries that are not in hand are typed. *)
Lemma denotes_typed H st name ep e :
  space_wf H st → denotes H st name ep → name ∉ H → eget st ep = Some e →
  IE_BITS_TYPE (ie_bits e) ≠ 0.
Proof.
  intros Hw Hd Hh He. destruct ep as [i|p]; simpl in *.
  - destruct Hd as (_ & _ & [Ht|]); [|done]. unfold type_at in Ht.
    by rewrite <-(bits_at_get _ _ _ He) in Ht.
  - destruct (tree_elem_ok _ _ _ _ Hw Hd) as (t & Ht & _ & _ & _ & _ & Hty).
    rewrite Ht in He. injection He as <-. by apply Hty.
Qed.

(** ** ipc_entry_tree_collision *)

Lemma tree_collision_spec st name :
  splay_wf (is_tree (st_space st)) → (∀ n, n ∈ (tree_elems st).*1 → name_ok n) →
  is_active (st_space st) = true →
  ∃ st' b, ipc_entry_tree_collision st name = Ok (st', b) ∧ resplayed st st' ∧
    (b = true ↔ ∃ n, n ∈ (tree_elems st).*1 ∧ MACH_PORT_INDEX n = MACH_PORT_INDEX name).
Proof.
  intros Hs0 Hnok Hact. unfold ipc_entry_tree_collision. rewrite Hact. ostep.
  destruct (bounds_spec (is_tree (st_space st)) name) as (tree & lo & up & -> & Hs & He & Hlo & Hup);
    [done|]. ostep.
  eexists _, _. split; [done|]. split; [by exists tree|].
  fold (tree_elems st) in *.
  assert (∀ n, n ∈ (tree_elems st).*1 → n ≠ MACH_PORT_LARGEST ∧ n ≠ 0) as Hok.
  { intros n Hn. destruct (Hnok n Hn) as (_ & Hv & _). unfold MACH_PORT_VALID in Hv.
    apply andb_true_iff in Hv as [H1%negb_true_iff%Z.eqb_neq H2%negb_true_iff%Z.eqb_neq]. done. }
  assert (∀ n m, n ≤ m → MACH_PORT_INDEX n ≤ MACH_PORT_INDEX m) as Hmono.
  { intros n m ?. rewrite !MACH_PORT_INDEX_arith. apply Z.div_le_mono; lia. }
  rewrite orb_true_iff, !andb_true_iff, !negb_true_iff, !Z.eqb_neq, !Z.eqb_eq. split.
  - intros [[Hne Hi]|[Hne Hi]].
    + destruct Hlo as [(v & Hv & _)|[? _]]; [|done]. exists lo. split; [|done].
      apply elem_of_names. eauto.
    + destruct Hup as [(v & Hv & _)|[? _]]; [|done]. exists up. split; [|done].
      apply elem_of_names. eauto.
  - intros (n & Hn & Hi). pose proof Hn as (p & Hp)%elem_of_names.
    destruct (Z.le_ge_cases n name) as [Hle|Hle].
    + left. destruct Hlo as [(v & Hv & Hlt & Hmax)|[_ Hall]].
      * split; [apply Hok, elem_of_names; eauto|]. specialize (Hmax _ Hp Hle). simpl in Hmax.
        pose proof (Hmono n lo Hmax). pose proof (Hmono lo name Hlt). lia.
      * specialize (Hall _ Hp). simpl in Hall. lia.
    + right. destruct Hup as [(v & Hv & Hlt & Hmin)|[_ Hall]].
      * split; [apply Hok, elem_of_names; eauto|]. specialize (Hmin _ Hp Hle). simpl in Hmin.
        pose proof (Hmono up n Hmin). pose proof (Hmono name up Hlt). lia.
      * specialize (Hall _ Hp). simpl in Hall. lia.
Qed.

(** ** ipc_entry_lookup *)

Lemma entry_tree_lookup_spec H st name :
  space_wf H st →
  ∃ st' r, entry_tree_lookup st name = Ok (st', r) ∧ resplayed st st' ∧
    match r with
    | Some ep => ∃ p, ep = EP_tree p ∧ (name, p) ∈ tree_elems st
    | None => name ∉ (tree_elems st).*1
    end.
Proof.
  intros Hw. unfold entry_tree_lookup.
  destruct (lookup_spec (is_tree (st_space st)) name) as (tree & o & -> & Hs & He & Ho);
    [apply Hw|]. ostep. eexists _, _. split; [done|]. split; [by exists tree|].
  destruct o as [p|]; simpl.
  - exists p. split; [done|]. by apply Ho.
  - intros (p & Hp)%elem_of_names. apply Ho in Hp. done.
Qed.

(** What the answers of a lookup mean. *)
Definition found (H : gset Z) (st : istate) (name : Z) (r : option eptr) : Prop :=
  match r with
  | Some ep => denotes H st name ep
  | None => ∀ ep, ¬ denotes H st name ep
  end.

(** The assertion at the end of [ipc_entry_lookup]. *)
Lemma entry_lookup_finish H st st' name r :
  space_wf H st → name ∉ H → resplayed st st' → found H st name r →
  ∃ st'' r', match r with
    | None => Ok (st', None)
    | Some ep => e ← deref (eget st' ep);
        kassert (negb (IE_BITS_TYPE (ie_bits e) =? 0));; Ok (st', Some ep)
    end = Ok (st'', r') ∧ resplayed st st'' ∧ found H st name r'.
Proof.
  intros Hw Hh Hr Hd. destruct r as [ep|]; [|by exists st', None].
  destruct (denotes_eget _ _ _ _ Hw Hd) as (e & He). rewrite (resplayed_eget _ _ _ Hr), He. ostep.
  rewrite (proj2 (Z.eqb_neq _ 0)) by (by eapply denotes_typed). ostep. by exists st', (Some ep).
Qed.

Lemma denotes_index H st name i :
  space_wf H st → denotes H st name (EP_table i) → MACH_PORT_INDEX name = i.
Proof.
  intros Hw (Hi & Hn & _). pose proof (space_wf_size _ _ Hw).
  rewrite <-Hn. apply INDEX_MAKEB. lia.
Qed.

Lemma name_at_iff st i e name :
  tget (st_table st) i = Some e → i = MACH_PORT_INDEX name → is_u32 name →
  name_at (st_table st) i = name ↔ IE_BITS_GEN (ie_bits e) = MACH_PORT_GEN name.
Proof.
  intros He -> Hu. rewrite (bits_at_get _ _ _ He). unfold name_at.
  rewrite MAKEB_eq by (done || by apply MACH_PORT_INDEX_range). tauto.
Qed.

(** A table entry of the name that is in use. *)
Lemma found_table H st name e :
  space_wf H st → is_u32 name → tget (st_table st) (MACH_PORT_INDEX name) = Some e →
  IE_BITS_GEN (ie_bits e) = MACH_PORT_GEN name → IE_BITS_TYPE (ie_bits e) ≠ 0 →
  found H st name (Some (EP_table (MACH_PORT_INDEX name))).
Proof.
  intros Hw Hu He Hg Ht. pose proof (tget_Some _ _ _ He). simpl. unfold type_at.
  rewrite <-(bits_at_get _ _ _ He). split_and!; [|lia|by eapply name_at_iff|by left].
  assert (MACH_PORT_INDEX name ≠ 0); [|lia]. intros Hz. apply Ht.
  rewrite Hz in He. rewrite (bits_at_get _ _ _ He). apply (tw_zero_type _ _ (sw_table _ _ Hw)).
Qed.

(** A table entry of the name that is free. *)
Lemma found_free H st name e :
  space_wf H st → is_u32 name → name ∉ H → tget (st_table st) (MACH_PORT_INDEX name) = Some e →
  IE_BITS_GEN (ie_bits e) = MACH_PORT_GEN name → IE_BITS_TYPE (ie_bits e) = 0 →
  found H st name None.
Proof.
  intros Hw Hu Hh He Hg Ht ep Hd. pose proof (tget_Some _ _ _ He) as Hr.
  pose proof (proj2 (name_at_iff st _ e name He eq_refl Hu) Hg) as Hn.
  destruct ep as [i|p].
  { pose proof (denotes_index _ _ _ _ Hw Hd) as <-.
    destruct Hd as (_ & _ & [Hty|?]); [|done]. apply Hty. unfold type_at.
    by rewrite <-(bits_at_get _ _ _ He). }
  simpl in Hd. destruct (decide (MACH_PORT_INDEX name = 0)) as [Hz|Hz].
  - destruct (tree_elem_ok _ _ _ _ Hw Hd) as (t & _ & _ & _ & (_ & _ & Hbad) & _).
    apply Hbad. rewrite <-Hn, Hz. unfold name_at, MACH_PORT_MAKEB.
    by rewrite (tw_zero_gen _ _ (sw_table _ _ Hw)).
  - destruct (cw_used _ _ _ (sw_coll _ _ Hw) name) as [Hne _];
      [apply elem_of_names; eauto|lia|done].
Qed.

(** A table entry of another name, without collisions. *)
Lemma found_other H st name e :
  space_wf H st → is_u32 name → tget (st_table st) (MACH_PORT_INDEX name) = Some e →
  IE_BITS_GEN (ie_bits e) ≠ MACH_PORT_GEN name →
  (collides (ie_bits e) = false ∨ name ∉ (tree_elems st).*1) →
  found H st name None.
Proof.
  intros Hw Hu He Hg Hc [i|p] Hd; pose proof (tget_Some _ _ _ He).
  - pose proof (denotes_index _ _ _ _ Hw Hd) as <-. destruct Hd as (_ & Hn & _).
    by apply Hg, (name_at_iff st _ e name He eq_refl Hu).
  - assert (name ∈ (tree_elems st).*1) as Hin by (apply elem_of_names; eauto).
    destruct Hc as [Hc|]; [|done].
    assert (collides (ie_bits e) = true); [|congruence].
    rewrite (bits_at_get _ _ _ He). apply (cw_bit _ _ _ (sw_coll _ _ Hw)); [lia|eauto].
Qed.

(** The tree decides for names whose table entry is another's. *)
Lemma found_tree H st name :
  space_wf H st → is_u32 name →
  (MACH_PORT_INDEX name < tsize (st_table st) →
     ∃ e, tget (st_table st) (MACH_PORT_INDEX name) = Some e ∧
       IE_BITS_GEN (ie_bits e) ≠ MACH_PORT_GEN name) →
  ∃ st' r, entry_tree_lookup st name = Ok (st', r) ∧ resplayed st st' ∧ found H st name r.
Proof.
  intros Hw Hu Hne.
  destruct (entry_tree_lookup_spec H st name Hw) as (st1 & r1 & Hl1 & Hr1 & Hspec).
  exists st1, r1. split_and!; [done..|]. destruct r1 as [ep|].
  { destruct Hspec as (p & -> & Hp). done. }
  destruct (Z.lt_ge_cases (MACH_PORT_INDEX name) (tsize (st_table st))) as [Hlt|Hge].
  - destruct (Hne Hlt) as (e & He & Hg). eapply found_other; eauto.
  - intros [i|p] Hd; [|apply Hspec, elem_of_names; eauto].
    pose proof (denotes_index _ _ _ _ Hw Hd). destruct Hd. lia.
Qed.

Lemma tree_total_pos H st name :
  space_wf H st → name ∈ (tree_elems st).*1 → 0 < is_tree_total (st_space st).
Proof.
  intros Hw Hn. rewrite (sw_total _ _ Hw).
  destruct (tree_elems st); [by apply elem_of_nil in Hn|simpl; lia].
Qed.

Lemma entry_lookup_spec H st name :
  space_wf H st → is_active (st_space st) = true → is_u32 name → name ∉ H →
  (is_fast (st_space st) = true → MACH_PORT_INDEX name < tsize (st_table st)) →
  ∃ st' r, ipc_entry_lookup st name = Ok (st', r) ∧ resplayed st st' ∧ found H st name r.
Proof.
  intros Hw Hact Hu Hh Hfast. pose proof (MACH_PORT_INDEX_range name Hu) as Hidx.
  pose proof (resplayed_refl _ _ Hw) as Hrefl.
  pose proof (λ st' r, entry_lookup_finish H st st' name r Hw Hh) as Hfin.
  unfold ipc_entry_lookup. rewrite Hact. ostep. fold (st_table st).
  assert (MACH_PORT_INDEX name < tsize (st_table st) →
    ∃ e, tget (st_table st) (MACH_PORT_INDEX name) = Some e) as Hget.
  { intros. apply tget_is_Some. lia. }
  destruct (is_fast (st_space st)) eqn:Hf.
  { destruct (Hget (Hfast eq_refl)) as (e & He). rewrite He. ostep.
    destruct (Z.eqb_spec (IE_BITS_GEN (ie_bits e)) (MACH_PORT_GEN name)) as [Hg|Hg]; ostep.
    - destruct (Z.eqb_spec (IE_BITS_TYPE (ie_bits e)) MACH_PORT_TYPE_NONE) as [Ht|Ht]; ostep.
      + apply (Hfin st None); [done|by eapply found_free].
      + apply (Hfin st (Some _)); [done|by eapply found_table].
    - apply (Hfin st None); [done|]. eapply found_other; [done..|right].
      rewrite (sw_fast _ _ Hw Hf). apply not_elem_of_nil. }
  rewrite (sw_size _ _ Hw).
  destruct (Z.ltb_spec (MACH_PORT_INDEX name) (tsize (st_table st))) as [Hlt|Hge].
  - destruct (Hget Hlt) as (e & He). rewrite He. ostep.
    destruct (Z.eqb_spec (IE_BITS_GEN (ie_bits e)) (MACH_PORT_GEN name)) as [Hg|Hg]; ostep.
    + destruct (Z.eqb_spec (IE_BITS_TYPE (ie_bits e)) MACH_PORT_TYPE_NONE) as [Ht|Ht]; ostep.
      * apply (Hfin st None); [done|by eapply found_free].
      * apply (Hfin st (Some _)); [done|by eapply found_table].
    + fold (collides (ie_bits e)). destruct (collides (ie_bits e)) eqn:Hc; ostep.
      * assert (0 < is_tree_total (st_space st)) as Htot.
        { rewrite (bits_at_get _ _ _ He) in Hc.
          apply (cw_bit _ _ _ (sw_coll _ _ Hw)) in Hc as (n & Hn & _); [|lia].
          by eapply tree_total_pos. }
        rewrite (proj2 (Z.ltb_lt _ _) Htot). ostep.
        destruct (found_tree H st name) as (st1 & r1 & -> & Hr1 & Hf1); [done..|eauto|]. ostep.
        by apply Hfin.
      * apply (Hfin st None); [done|]. eapply found_other; eauto.
  - destruct (Z.eqb_spec (is_tree_total (st_space st)) 0) as [Hz|Hz]; ostep.
    + apply (Hfin st None); [done|]. intros [i|p] Hd.
      * pose proof (denotes_index _ _ _ _ Hw Hd). destruct Hd. lia.
      * assert (name ∈ (tree_elems st).*1) as Hin%(tree_total_pos _ _ _ Hw)
          by (apply elem_of_names; eauto). lia.
    + destruct (found_tree H st name) as (st1 & r1 & -> & Hr1 & Hf1); [done..|lia|]. ostep.
      by apply Hfin.
Qed.

(** ** Changing the table *)

(** The tables agree on everything the hash tables look at. *)
Record same_hash (t t' : list ipc_entry) : Prop := {
  sh_size : tsize t' = tsize t;
  sh_slot j : slot t' j = slot t j;
  sh_object i : hashed t i → object_at t' i = object_at t i;
}.

Lemma hash_wf_ext H H' t t' l ites bs :
  hash_wf H t l ites bs → same_hash t t' →
  (∀ i, 0 < i < tsize t → name_at t' i ∉ H' →
     ((name_at t i ∉ H) ∧ type_at t' i = type_at t i) ∨
     ((¬ hashed t i) ∧ type_at t' i ≠ MACH_PORT_TYPE_SEND)) →
  (∀ n, n ∈ l.*1 → n ∉ H' → n ∉ H) →
  hash_wf H' t' l ites bs.
Proof.
  intros Hh [Hn Hs Ho] Hty Hsub. split.
  - eapply local_hash_ext; try done. apply Hh.
  - apply Hh.
  - intros i Hi Hni. rewrite Hn in Hi. rewrite hashed_ext by done.
    destruct (Hty i Hi Hni) as [[? ->]|[? ?]]; [by apply (hw_type _ _ _ _ _ Hh)|]. tauto.
  - intros name p te Hp Ht Hni. apply (hw_tree_type _ _ _ _ _ Hh name p te Hp Ht).
    apply Hsub; [|done]. apply elem_of_names. eauto.
  - intros i p Hi Hp Hown. rewrite hashed_ext in Hi by done. rewrite Ho by done.
    by apply (hw_disjoint _ _ _ _ _ Hh).
Qed.

(** What is to be shown when only the table changes. *)
Lemma space_wf_set_table H H' st t' :
  space_wf H st → tsize t' = tsize (st_table st) →
  table_wf H' t' → tree_wf H' (tree_elems st) (st_ites st) →
  coll_wf H' t' (tree_elems st) →
  hash_wf H' t' (tree_elems st) (st_ites st) (st_buckets st) →
  (∀ name, name ∈ H' → is_u32 name ∧ ∃ ep, denotes H' (set_table st t') name ep) →
  space_wf H' (set_table st t').
Proof.
  intros Hw Hn ? ? ? ? ?. split; try done; try (by destruct Hw).
  change (st_table (set_table st t')) with t'. rewrite Hn. by destruct Hw.
Qed.

Lemma tree_wf_sub H H' l ites :
  tree_wf H l ites → (∀ n, n ∈ l.*1 → n ∉ H' → n ∉ H) → tree_wf H' l ites.
Proof.
  intros Ht Hsub name p Hp. destruct (Ht name p Hp) as (t & ? & ? & ? & ? & ? & Hty).
  exists t. split; [done|]. split_and!; [done..|]. intros. apply Hty, Hsub; [|done].
  apply elem_of_names. eauto.
Qed.

(** The view depends on the typed entries only. *)
Lemma view_ext H H' st t' name :
  space_wf H st → space_wf H' (set_table st t') → is_u32 name →
  (∀ j, 0 < j → type_at (st_table st) j ≠ 0 ∨ type_at t' j ≠ 0 →
     tget t' j = tget (st_table st) j) →
  space_view (set_table st t') name = space_view st name.
Proof.
  intros Hw Hw' Hu Hj. unfold space_view. simpl.
  destruct (splay_map (is_tree (st_space st)) !! name); [done|].
  unfold st_table in *. simpl. set (i := MACH_PORT_INDEX name) in *.
  destruct (Z.ltb_spec 0 i) as [Hi|Hi]; simpl.
  2:{ by destruct (tget t' i), (tget (is_table (st_space st)) i). }
  specialize (Hj i Hi). unfold type_at, bits_at in Hj.
  destruct (decide (tget t' i = tget (is_table (st_space st)) i)) as [->|Hne]; [done|].
  destruct (tget t' i) as [e'|] eqn:E', (tget (is_table (st_space st)) i) as [e|] eqn:E;
    simpl in *; [| | |done].
  - destruct (Z.eqb_spec (IE_BITS_TYPE (ie_bits e')) 0), (Z.eqb_spec (IE_BITS_TYPE (ie_bits e)) 0);
      simpl; rewrite ?andb_false_r; try done; destruct Hne; apply Hj; auto.
  - destruct (Z.eqb_spec (IE_BITS_TYPE (ie_bits e')) 0);
      simpl; rewrite ?andb_false_r; [done|]. destruct Hne. apply Hj. auto.
  - destruct (Z.eqb_spec (IE_BITS_TYPE (ie_bits e)) 0);
      simpl; rewrite ?andb_false_r; [done|]. destruct Hne. apply Hj. auto.
Qed.

(** A free index, of the name it would have now. *)
Definition free_index (H : gset Z) (t : list ipc_entry) (i : Z) : Prop :=
  0 < i < tsize t ∧ type_at t i = 0 ∧ name_at t i ∉ H.

Lemma free_no_tree H st i n :
  space_wf H st → free_index H (st_table st) i → n ∈ (tree_elems st).*1 →
  MACH_PORT_INDEX n ≠ i.
Proof.
  intros Hw (Hi & Ht & Hn) Hin <-.
  destruct (cw_used _ _ _ (sw_coll _ _ Hw) n Hin Hi) as [_ [?|?]]; done.
Qed.

(** The table [t'] is [t] with the free index [i] taken for the generation
    [gen]. *)
Record taken (H : gset Z) (t t' : list ipc_entry) (i gen : Z) : Prop := {
  ta_hash : same_hash t t';
  ta_gen : is_gen gen;
  ta_bits j : bits_at t' j = if decide (j = i) then gen else bits_at t j;
  ta_object j : object_at t' j = object_at t j;
  ta_free : ∃ fl, linked t' 0 fl ∧ NoDup fl ∧ ∀ j, j ∈ fl ↔ free_index H t j ∧ j ≠ i;
}.

Lemma taken_table_wf H t t' i gen :
  tsize t < 2 ^ 24 → table_wf H t → free_index H t i → taken H t t' i gen →
  table_wf ({[MACH_PORT_MAKE i gen]} ∪ H) t'.
Proof.
  intros Hsz Ht Hi Hta. destruct Hi as (Hi & Hty & Hni).
  pose proof (proj1 (is_gen_fix gen) (ta_gen _ _ _ _ _ Hta)) as Hg.
  assert (∀ j, 0 < j < tsize t → name_at t' j ∉ {[MACH_PORT_MAKE i gen]} ∪ H ↔
    j ≠ i ∧ name_at t j ∉ H) as Hname.
  { intros j Hj. unfold name_at. rewrite (ta_bits _ _ _ _ _ Hta). case_decide as Hd.
    - subst j. unfold MACH_PORT_MAKEB. rewrite Hg. set_solver.
    - assert (MACH_PORT_MAKEB j (bits_at t j) ≠ MACH_PORT_MAKE i gen) as Hne.
      { intros Heq. apply Hd. rewrite <-(INDEX_MAKEB j (bits_at t j)), Heq by lia.
        apply MACH_PORT_INDEX_MAKE; [lia|apply Hta]. }
      set_solver. }
  assert (∀ j, j ≠ i → type_at t' j = type_at t j) as Htype.
  { intros j Hj. unfold type_at. by rewrite (ta_bits _ _ _ _ _ Hta), decide_False. }
  split.
  - rewrite (ta_bits _ _ _ _ _ Hta), decide_False by lia. apply Ht.
  - rewrite Htype by lia. apply Ht.
  - destruct (ta_free _ _ _ _ _ Hta) as (fl & Hl & Hnd & Hfl). exists fl. split_and!; [done..|].
    intros j. rewrite Hfl. rewrite (sh_size _ _ (ta_hash _ _ _ _ _ Hta)). unfold free_index. split.
    + intros ((? & ? & ?) & ?). rewrite Hname, Htype by done. done.
    + intros (Hj & Htj & Hnj). apply Hname in Hnj as [Hne Hnj]; [|done].
      by rewrite Htype in Htj by done.
  - intros j. rewrite (sh_size _ _ (ta_hash _ _ _ _ _ Hta)). intros Hj Htj Hnj.
    apply Hname in Hnj as [Hne Hnj]; [|done]. rewrite Htype in Htj by done.
    rewrite (ta_bits _ _ _ _ _ Hta), (ta_object _ _ _ _ _ Hta), decide_False by done.
    by apply Ht.
Qed.

Lemma taken_wf H st t' i gen :
  space_wf H st → free_index H (st_table st) i → taken H (st_table st) t' i gen →
  space_wf ({[MACH_PORT_MAKE i gen]} ∪ H) (set_table st t').
Proof.
  intros Hw Hi Hta. pose proof (space_wf_size _ _ Hw) as Hsz.
  pose proof (taken_table_wf _ _ _ _ _ (proj2 Hsz) (sw_table _ _ Hw) Hi Hta) as Htw.
  pose proof (free_no_tree H st i) as Hno.
  pose proof (proj1 (is_gen_fix gen) (ta_gen _ _ _ _ _ Hta)) as Hg.
  pose proof (sh_size _ _ (ta_hash _ _ _ _ _ Hta)) as Hn.
  assert (∀ j, j ≠ i → bits_at t' j = bits_at (st_table st) j) as Hb.
  { intros j Hj. by rewrite (ta_bits _ _ _ _ _ Hta), decide_False. }
  assert (bits_at t' i = gen) as Hbi.
  { by rewrite (ta_bits _ _ _ _ _ Hta), decide_True. }
  assert (∀ n, n ∈ (tree_elems st).*1 → n ∉ {[MACH_PORT_MAKE i gen]} ∪ H → n ∉ H) as Hsub
    by set_solver.
  apply (space_wf_set_table H); [done..| | | |].
  - eapply tree_wf_sub; [apply Hw|done].
  - split.
    + intros j. rewrite Hn. intros Hj. destruct (decide (j = i)) as [->|].
      * rewrite Hbi, <-Hg, collides_GEN. split; [done|].
        intros (n & Hin & Heq). by destruct (Hno n).
      * rewrite Hb by done. by apply (cw_bit _ _ _ (sw_coll _ _ Hw)).
    + intros n Hin Hr. rewrite Hn in Hr. pose proof (Hno n Hw Hi Hin) as Hne.
      unfold name_at, type_at. rewrite Hb by done.
      destruct (cw_used _ _ _ (sw_coll _ _ Hw) n Hin Hr) as [? Hor].
      split; [done|]. destruct Hor; [by left|right; set_solver].
  - eapply hash_wf_ext; [apply Hw|apply Hta| |done]. intros j Hj Hnj.
    destruct (decide (j = i)) as [->|Hne].
    + exfalso. apply Hnj. unfold name_at, MACH_PORT_MAKEB. rewrite Hbi, Hg. set_solver.
    + left. unfold name_at, type_at in *. rewrite Hb in * by done. split; [|done]. set_solver.
  - intros name [->%elem_of_singleton|Hin]%elem_of_union.
    + split; [apply MACH_PORT_MAKE_range; [destruct Hi; lia|apply Hta]|].
      exists (EP_table i). simpl. change (st_table (set_table st t')) with t'. rewrite Hn.
      split; [apply Hi|]. unfold name_at, MACH_PORT_MAKEB. rewrite Hbi, Hg. set_solver.
    + destruct (sw_hand _ _ Hw name Hin) as (Hu & ep & Hd). split; [done|]. exists ep.
      destruct ep as [j|p]; [|done]. simpl in *. change (st_table (set_table st t')) with t'.
      rewrite Hn. destruct Hd as (Hj & Hnj & Hor).
      assert (j ≠ i) by (intros ->; destruct Hi as (_ & _ & Hni); congruence).
      unfold name_at, type_at in *. rewrite Hb by done. split_and!; [lia..|done|set_solver].
Qed.

(** Unlinking a free entry from its predecessor and giving it a generation:
    what [ipc_entry_get] and [ipc_entry_alloc_name] do. *)
Definition take_table (t : list ipc_entry) (pr i gen next : Z) : list ipc_entry :=
  tmod (tmod t pr (λ e, set_ie_next e next)) i (λ e, set_ie_request (set_ie_bits e gen) 0).

Lemma take_table_get t pr i gen next e :
  pr ≠ i → tget t i = Some e →
  tget (take_table t pr i gen next) i = Some (IE gen (ie_object e) 0 (ie_index e)).
Proof.
  intros Hne He. unfold take_table. rewrite tget_tmod_eq, tget_tmod_ne, He by done. by destruct e.
Qed.

Lemma take_table_taken H t l1 i l2 gen :
  table_wf H t → free_index H t i → is_gen gen →
  linked t 0 (l1 ++ i :: l2) → NoDup (l1 ++ i :: l2) →
  (∀ j, j ∈ l1 ++ i :: l2 ↔ free_index H t j) →
  pred_of 0 l1 ≠ i ∧ taken H t (take_table t (pred_of 0 l1) i gen (next_at t i)) i gen.
Proof.
  intros Ht Hi Hg Hl Hnd Hfl. set (pr := pred_of 0 l1).
  assert (NoDup (0 :: l1 ++ i :: l2)) as Hnd0.
  { apply NoDup_cons. split; [by eapply threaded_not_0|done]. }
  assert (pr ≠ i) as Hne.
  { intros Heq. pose proof (pred_of_elem 0 l1) as Hin. fold pr in Hin. rewrite Heq in Hin.
    change (0 :: l1 ++ i :: l2) with ((0 :: l1) ++ i :: l2) in Hnd0.
    apply NoDup_app in Hnd0 as (_ & Hd & _). apply (Hd i Hin). by left. }
  split; [done|].
  destruct (tget_is_Some t i) as (e & He); [destruct Hi; lia|].
  split; unfold take_table.
  - split.
    + by rewrite !tsize_tmod.
    + intros j. by rewrite !slot_keep.
    + intros j _. by rewrite !object_at_keep.
  - done.
  - intros j. rewrite bits_at_tmod. destruct (decide (i = j)) as [<-|].
    + rewrite decide_True by done. rewrite tget_tmod_ne, He by done. done.
    + rewrite decide_False by done. by apply bits_at_keep.
  - intros j. by rewrite !object_at_keep.
  - assert (∀ j, j ∈ l1 ++ l2 ↔ free_index H t j ∧ j ≠ i) as Hmem.
    { intros j. rewrite <-Hfl. rewrite <-Permutation_middle in Hnd.
      apply NoDup_cons in Hnd as [Hni _]. rewrite !elem_of_app, elem_of_cons in *.
      split; [|tauto]. intros Hj. split; [tauto|]. intros ->. tauto. }
    exists (l1 ++ l2). split_and!; [|rewrite <-Permutation_middle in Hnd; by inv Hnd|done].
    assert (∀ j, j ≠ i → next_at (tmod (tmod t pr (λ e, set_ie_next e (next_at t i))) i
        (λ e, set_ie_request (set_ie_bits e gen) 0)) j =
      if decide (pr = j) then default 0 ((λ _, next_at t i) <$> tget t j) else next_at t j) as Hnext.
    { intros j Hj. rewrite next_at_tmod, decide_False, next_at_tmod by done. case_decide; [|done].
      by destruct (tget t j). }
    eapply threaded_remove; [done..| |]; fold pr.
    + rewrite Hnext by done. rewrite decide_True by done.
      destruct (tget t pr) as [e'|] eqn:E; [done|].
      exfalso. assert (next_at t pr = i) as Hp by (by eapply threaded_pred).
      unfold next_at in Hp. rewrite E in Hp. simpl in Hp. destruct Hi. lia.
    + intros j Hin Hjp. rewrite Hnext; [by rewrite decide_False|].
      intros ->. apply elem_of_cons in Hin as [Hz|Hin]; [destruct Hi; lia|].
      by apply Hmem in Hin as [_ ?].
Qed.

(** Taking a free entry leaves the view as it is. *)
Lemma take_table_view H st t' i gen name :
  space_wf H st → free_index H (st_table st) i → taken H (st_table st) t' i gen →
  (∀ j, 0 < j → j ≠ i → type_at (st_table st) j ≠ 0 → tget t' j = tget (st_table st) j) →
  is_u32 name → space_view (set_table st t') name = space_view st name.
Proof.
  intros Hw Hi Hta Hj Hu.
  eapply view_ext; [done|by eapply taken_wf|done|]. intros j Hj0 Hty.
  assert (type_at t' j = if decide (j = i) then 0 else type_at (st_table st) j) as Htj.
  { unfold type_at. rewrite (ta_bits _ _ _ _ _ Hta). case_decide; [|done].
    rewrite <-(proj1 (is_gen_fix gen) (ta_gen _ _ _ _ _ Hta)). apply TYPE_GEN. }
  rewrite Htj in Hty. case_decide as Hd.
  - subst j. destruct Hi as (_ & Hz & _). tauto.
  - apply Hj; [done|done|]. tauto.
Qed.

(** ** ipc_entry_get *)

Lemma is_gen_NEW_GEN b : is_gen (IE_BITS_NEW_GEN b).
Proof. apply (is_gen_IE_BITS_GEN (u32 (b + IE_BITS_GEN_ONE))). Qed.

Lemma NEW_GEN_name_ok i b : 0 < i < 2 ^ 24 - 1 →
  MACH_PORT_VALID (MACH_PORT_MAKE i (IE_BITS_NEW_GEN b)) = true.
Proof.
  intros Hi. unfold MACH_PORT_VALID, MACH_PORT_NULL, MACH_PORT_DEAD.
  pose proof (is_gen_NEW_GEN b) as Hg. rewrite MACH_PORT_MAKE_arith by (done || lia).
  destruct Hg as (k & Hk & ->). rewrite Z.div_mul by lia.
  rewrite (proj2 (Z.eqb_neq _ _)), (proj2 (Z.eqb_neq _ _)) by lia. done.
Qed.

(** A fresh entry: no right yet. *)
Definition blank (gen : Z) (e : ipc_entry) : Prop :=
  ie_bits e = gen ∧ ie_object e = IO_NULL ∧ ie_request e = 0.

Lemma entry_get_spec H st :
  space_wf H st → is_active (st_space st) = true →
  ∃ st' kr r, ipc_entry_get st = Ok (st', (kr, r)) ∧
    match r with
    | Some (name, ep) => kr = KERN_SUCCESS ∧
        ∃ i, ep = EP_table i ∧ free_index H (st_table st) i ∧
          (∃ t', st' = set_table st t' ∧
             taken H (st_table st) t' i (IE_BITS_NEW_GEN (bits_at (st_table st) i)) ∧
             name = MACH_PORT_MAKE i (IE_BITS_NEW_GEN (bits_at (st_table st) i)) ∧
             (∃ e, tget t' i = Some e ∧
                blank (IE_BITS_NEW_GEN (bits_at (st_table st) i)) e) ∧
             ∀ j, 0 < j → j ≠ i → tget t' j = tget (st_table st) j)
    | None => kr = KERN_NO_SPACE ∧ st' = st ∧ ∀ i, ¬ free_index H (st_table st) i
    end.
Proof.
  intros Hw Hact. pose proof (space_wf_size _ _ Hw) as Hsz.
  destruct (tw_free _ _ (sw_table _ _ Hw)) as (fl & Hl & Hnd & Hfl).
  unfold ipc_entry_get. rewrite Hact. ostep.
  destruct (tget_is_Some (st_table st) 0) as (h & Hh); [lia|]. rewrite Hh. ostep.
  rewrite (next_at_get _ _ _ Hh). destruct fl as [|i fl]; simpl in Hl.
  { rewrite Hl. eexists _, _, None. split; [done|]. split_and!; [done..|].
    intros i Hi%Hfl. by apply elem_of_nil in Hi. }
  destruct Hl as (Hn & Hi0 & Hl). rewrite Hn. rewrite (proj2 (Z.eqb_neq i 0)) by done.
  assert (free_index H (st_table st) i) as Hi by (apply Hfl; by left).
  destruct (tget_is_Some (st_table st) i) as (e & He); [destruct Hi; lia|]. rewrite He. ostep.
  destruct (tw_free_entry _ _ (sw_table _ _ Hw) i) as [Hb Ho]; [by apply Hi..|].
  rewrite (bits_at_get _ _ _ He), (object_at_get _ _ _ He), Hb, Ho. ostep.
  rewrite NEW_GEN_name_ok by (destruct Hi; lia). ostep.
  rewrite (next_at_get _ _ _ He).
  destruct (take_table_taken H (st_table st) [] i fl (IE_BITS_NEW_GEN (bits_at (st_table st) i)))
    as [Hne Hta]; [apply Hw|done|apply is_gen_NEW_GEN|simpl; auto|done|done|].
  eexists _, _, (Some (_, _)). split; [done|]. split; [done|]. exists i. split_and!; [done..|].
  exists (take_table (st_table st) 0 i (IE_BITS_NEW_GEN (bits_at (st_table st) i))
    (next_at (st_table st) i)).
  split_and!; [done|done|done| |].
  - eexists. split; [by apply take_table_get|]. by rewrite <-(object_at_get _ _ _ He) in Ho.
  - intros j Hj Hji. unfold take_table. by rewrite !tget_tmod_ne by lia.
Qed.

(** ** Properties: lookup and allocation *)

Lemma found_view H st name r :
  space_wf H st → is_u32 name → found H st name r →
  space_view st name = (ep ← r; e ← eget st ep;
    if IE_BITS_TYPE (ie_bits e) =? 0 then None else Some (cap_of e)).
Proof.
  intros Hw Hu Hf. destruct r as [ep|]; simpl in *; [|by eapply view_None].
  destruct (denotes_eget _ _ _ _ Hw Hf) as (e & He). rewrite He. simpl.
  by eapply view_denotes.
Qed.

(** C22. ipc_entry_lookup returns the entry of a name exactly when the
    abstract map from names to capabilities binds it, and the capability
    read through the entry is the one the map has; it only re-splays the
    tree. *)
Theorem entry_lookup_correct st name :
  space_wf ∅ st → is_active (st_space st) = true → is_u32 name →
  (is_fast (st_space st) = true → MACH_PORT_INDEX name < tsize (st_table st)) →
  ∃ st' r, ipc_entry_lookup st name = Ok (st', r) ∧ space_wf ∅ st' ∧
    space_view st name = (ep ← r; cap_of <$> eget st' ep) ∧
    ∀ n, space_view st' n = space_view st n.
Proof.
  intros Hw Hact Hu Hfast.
  destruct (entry_lookup_spec ∅ st name) as (st' & r & Hrun & Hr & Hf); [done..|set_solver|done|].
  exists st', r. split_and!; [done|by eapply resplayed_wf| |].
  - rewrite (found_view ∅ st name r) by done. destruct r as [ep|]; [|done]. simpl.
    rewrite (resplayed_eget _ _ _ Hr).
    destruct (denotes_eget _ _ _ _ Hw Hf) as (e & He). rewrite He. simpl.
    rewrite (proj2 (Z.eqb_neq _ 0)); [done|].
    eapply denotes_typed; [done..|set_solver|done].
  - intros n. by eapply resplayed_view.
Qed.

(** The name and the entry [ipc_entry_get] returns. *)
Definition got (st st' : istate) (name : Z) (ep : eptr) : Prop :=
  space_wf {[name]} st' ∧ denotes {[name]} st' name ep ∧ space_view st name = None ∧
  MACH_PORT_VALID name = true ∧ ∃ e, eget st' ep = Some e ∧ blank (MACH_PORT_GEN name) e.

Lemma entry_get_wf st :
  space_wf ∅ st → is_active (st_space st) = true →
  ∃ st' kr r, ipc_entry_get st = Ok (st', (kr, r)) ∧
    same_view st st' ∧
    match r with
    | Some (name, ep) => kr = KERN_SUCCESS ∧ got st st' name ep
    | None => kr = KERN_NO_SPACE ∧ st' = st ∧
        ∀ i, 0 < i < tsize (st_table st) → type_at (st_table st) i ≠ 0
    end.
Proof.
  intros Hw Hact. pose proof (space_wf_size _ _ Hw) as Hsz.
  destruct (entry_get_spec ∅ st Hw Hact) as (st' & kr & r & Hrun & Hspec).
  exists st', kr, r. split; [done|]. destruct r as [[name ep]|].
  2:{ destruct Hspec as (-> & -> & Hno). split_and!; [done..|]. intros i Hi Ht.
      apply (Hno i). split_and!; [lia..|done|set_solver]. }
  destruct Hspec as (-> & i & -> & Hi & t' & -> & Hta & Hname & (e & He & Hbl) & Hj).
  pose proof (taken_wf _ _ _ _ _ Hw Hi Hta) as Hw'. rewrite <-Hname, (right_id_L ∅ (∪)) in Hw'.
  assert (is_u32 name) as Hu.
  { rewrite Hname. apply MACH_PORT_MAKE_range; [destruct Hi; lia|apply is_gen_NEW_GEN]. }
  assert (denotes {[name]} (set_table st t') name (EP_table i)) as Hd.
  { destruct (sw_hand _ _ Hw' name) as (_ & ep & Hd); [set_solver|].
    assert (ep = EP_table i) as <-; [|done]. destruct ep as [j|p].
    - pose proof (denotes_index _ _ _ _ Hw' Hd) as Hidx. f_equal. rewrite <-Hidx, Hname.
      apply MACH_PORT_INDEX_MAKE; [destruct Hi; lia|apply is_gen_NEW_GEN].
    - exfalso. apply (free_no_tree ∅ st i name Hw Hi); [apply elem_of_names; by exists p|].
      rewrite Hname. apply MACH_PORT_INDEX_MAKE; [destruct Hi; lia|apply is_gen_NEW_GEN]. }
  assert (∀ n, is_u32 n → space_view (set_table st t') n = space_view st n) as Hview.
  { intros n Hn. eapply take_table_view; eauto. }
  split; [done|]. split; [done|]. split_and!; [done|apply Hd| | |].
  - rewrite <-Hview by done. rewrite (view_denotes _ _ _ _ e Hw' Hd He).
    destruct Hbl as (-> & _). rewrite <-(proj1 (is_gen_fix _) (is_gen_NEW_GEN _)), TYPE_GEN. done.
  - rewrite Hname. apply NEW_GEN_name_ok. destruct Hi. lia.
  - exists e. split; [done|]. rewrite Hname, MACH_PORT_GEN_MAKE; [done|destruct Hi; lia|].
    apply is_gen_NEW_GEN.
Qed.

Theorem entry_get_correct st :
  space_wf ∅ st → is_active (st_space st) = true →
  ∃ st' kr r, ipc_entry_get st = Ok (st', (kr, r)) ∧
    same_view st st' ∧
    match r with
    | Some (name, ep) => kr = KERN_SUCCESS ∧ got st st' name ep
    | None => kr = KERN_NO_SPACE ∧ st' = st ∧
        ∀ i, 0 < i < tsize (st_table st) → type_at (st_table st) i ≠ 0
    end.
Proof. apply entry_get_wf. Qed.

(** ** The view, by the capabilities names denote *)

Definition holds (H : gset Z) (st : istate) (name : Z) (c : cap) : Prop :=
  ∃ ep e, denotes H st name ep ∧ eget st ep = Some e ∧ cap_of e = c.

Lemma TYPE_cap e : IE_BITS_TYPE (cap_bits (cap_of e)) = IE_BITS_TYPE (ie_bits e).
Proof. by apply land_land_const. Qed.

Lemma view_Some H st name c :
  space_wf H st → is_u32 name → space_view st name = Some c → ∃ ep, denotes H st name ep.
Proof.
  intros Hw Hu. unfold space_view. pose proof (splay_map_lookup H st name Hw) as Hm.
  destruct (splay_map (is_tree (st_space st)) !! name) as [p|]; [by exists (EP_tree p)|].
  destruct (tget (st_table st) (MACH_PORT_INDEX name)) as [e|] eqn:He; [|done]. simpl.
  destruct (Z.eqb_spec (IE_BITS_GEN (ie_bits e)) (MACH_PORT_GEN name)) as [Hg|];
    rewrite ?andb_false_r; [|done].
  destruct (Z.eqb_spec (IE_BITS_TYPE (ie_bits e)) 0) as [|Ht]; rewrite ?andb_false_r; [done|].
  intros _. eexists. by eapply (found_table H st name e).
Qed.

Lemma view_holds H st name :
  space_wf H st → is_u32 name →
  match space_view st name with
  | Some c => holds H st name c ∧ IE_BITS_TYPE (cap_bits c) ≠ 0
  | None => ∀ c, holds H st name c → IE_BITS_TYPE (cap_bits c) = 0
  end.
Proof.
  intros Hw Hu. destruct (space_view st name) as [c|] eqn:E.
  - destruct (view_Some _ _ _ _ Hw Hu E) as (ep & Hd).
    destruct (denotes_eget _ _ _ _ Hw Hd) as (e & He).
    rewrite (view_denotes _ _ _ _ _ Hw Hd He) in E.
    destruct (Z.eqb_spec (IE_BITS_TYPE (ie_bits e)) 0); [done|]. injection E as <-.
    rewrite TYPE_cap. split; [|done]. by exists ep, e.
  - intros c (ep & e & Hd & He & <-). rewrite (view_denotes _ _ _ _ _ Hw Hd He) in E.
    destruct (Z.eqb_spec (IE_BITS_TYPE (ie_bits e)) 0); [|done]. by rewrite TYPE_cap.
Qed.

Lemma holds_unique H st name c c' :
  space_wf H st → holds H st name c → holds H st name c' → c = c'.
Proof.
  intros Hw (ep & e & Hd & He & <-) (ep' & e' & Hd' & He' & <-).
  assert (ep = ep') as <- by (by eapply denotes_unique). congruence.
Qed.

Lemma view_holds_eq H H' st st' name :
  space_wf H st → space_wf H' st' → is_u32 name →
  (∀ c, IE_BITS_TYPE (cap_bits c) ≠ 0 → holds H' st' name c ↔ holds H st name c) →
  space_view st' name = space_view st name.
Proof.
  intros Hw Hw' Hu Hiff.
  pose proof (view_holds H st name Hw Hu) as Hv. pose proof (view_holds H' st' name Hw' Hu) as Hv'.
  destruct (space_view st name) as [c|], (space_view st' name) as [c'|]; [| | |done].
  - destruct Hv as [Hc ?], Hv' as [Hc' ?]. f_equal. apply Hiff in Hc'; [|done].
    by apply (holds_unique H st name).
  - destruct Hv as [Hc ?]. by destruct (Hv' c); [apply Hiff|].
  - destruct Hv' as [Hc ?]. by destruct (Hv c'); [apply Hiff|].
Qed.
End inv.
