(* ===== verification/IpcDealloc.v ===== *)
(** * Deallocation of entries (ipc/ipc_entry.c, ipc_entry_dealloc)

    The three ways an entry goes: a table entry joins the free list; a table
    entry with collisions is taken over by an entry of the tree with the same
    index; a tree entry is removed from the tree. *)

From stdpp Require Import prelude list gmap.
From S2P Require Import Prelude MachPort IpcSplay IpcTypes IpcHash IpcTable IpcEntry IpcInv.

Section dealloc.
Context {W : iworld}.

(** An entry without an object is in no hash table. *)
Lemma null_not_hashed t i : local_hash t → object_at t i = IO_NULL → ¬ hashed t i.
Proof. intros Hl Ho (Hi & j & Hj & <-). by apply (lh_object _ Hl j). Qed.

Lemma null_not_ghashed H st name p t :
  space_wf H st → (name, p) ∈ tree_elems st → st_ites st !! p = Some t →
  ite_object t = IO_NULL → p ∉ mjoin (st_buckets st).
Proof.
  intros Hw Hp Ht Ho Hin. destruct (tree_elem_ok _ _ _ _ Hw Hp) as (t' & Ht' & _ & Hsp & _).
  assert (t' = t) as -> by congruence.
  by destruct (gh_own _ _ _ (hw_global _ _ _ _ _ (sw_hash _ _ Hw)) p t Hin Ht Hsp).
Qed.

(** ** To the free list *)

Definition push_table (t : list ipc_entry) (i next : Z) : list ipc_entry :=
  tmod (tmod t i (λ e, set_ie_next (set_ie_bits e (Z.land (ie_bits e) IE_BITS_GEN_MASK)) next))
    0 (λ e, set_ie_next e i).

Lemma push_table_bits t i next j :
  bits_at (push_table t i next) j = if decide (j = i) then IE_BITS_GEN (bits_at t i) else bits_at t j.
Proof.
  unfold push_table. rewrite bits_at_keep by done. rewrite bits_at_tmod.
  destruct (decide (i = j)) as [<-|]; [|by rewrite decide_False].
  rewrite decide_True by done. unfold bits_at. by destruct (tget t i).
Qed.

Lemma push_table_next t i next j :
  0 < i < tsize t → next_at (push_table t i next) j =
    if decide (j = 0) then i else if decide (j = i) then next else next_at t j.
Proof.
  intros Hi. destruct (tget_is_Some t i) as (e & He); [lia|].
  destruct (tget_is_Some t 0) as (h & Hh); [lia|].
  unfold push_table. rewrite next_at_tmod. destruct (decide (0 = j)) as [<-|].
  - rewrite decide_True by done. rewrite tget_tmod_ne, Hh by lia. done.
  - rewrite decide_False, next_at_tmod by done. destruct (decide (i = j)) as [<-|].
    + rewrite decide_True, He by done. done.
    + by rewrite decide_False.
Qed.

Lemma push_table_object t i next j : object_at (push_table t i next) j = object_at t j.
Proof. unfold push_table. by rewrite !object_at_keep. Qed.

Lemma push_table_same_hash t i next : same_hash t (push_table t i next).
Proof.
  unfold push_table. split.
  - by rewrite !tsize_tmod.
  - intros j. by rewrite !slot_keep.
  - intros j _. by rewrite !object_at_keep.
Qed.

Lemma push_table_wf H t i :
  table_wf H t → 0 < i < tsize t → tsize t < 2 ^ 24 →
  (type_at t i ≠ 0 ∨ name_at t i ∈ H) → object_at t i = IO_NULL →
  table_wf (H ∖ {[name_at t i]}) (push_table t i (next_at t 0)).
Proof.
  intros Ht Hi Hsz Hused Hobj. set (t' := push_table t i (next_at t 0)).
  destruct (tw_free _ _ Ht) as (fl & Hl & Hnd & Hfl).
  assert (tsize t' = tsize t) as Hn by apply (push_table_same_hash t i (next_at t 0)).
  assert (i ∉ fl) as Hifl by (rewrite Hfl; tauto).
  assert (∀ j, j ≠ i → bits_at t' j = bits_at t j) as Hb.
  { intros j Hj. unfold t'. by rewrite push_table_bits, decide_False. }
  assert (bits_at t' i = IE_BITS_GEN (bits_at t i)) as Hbi.
  { unfold t'. by rewrite push_table_bits, decide_True. }
  assert (∀ j, 0 < j < tsize t → j ≠ i → name_at t' j ∉ H ∖ {[name_at t i]} ↔ name_at t j ∉ H) as Hnames.
  { intros j Hj Hne. unfold name_at at 1. rewrite Hb by done. fold (name_at t j).
    assert (name_at t j ≠ name_at t i) by (intros Heq; apply Hne, (name_at_inj t t); [lia..|done]). set_solver. }
  assert (name_at t' i = name_at t i) as Hni by (apply name_at_gen; by rewrite Hbi, GEN_GEN).
  split.
  - rewrite Hb by lia. apply Ht.
  - unfold type_at. rewrite Hb by lia. apply Ht.
  - exists (i :: fl). split_and!.
    + simpl. unfold t'. rewrite push_table_next by done. rewrite decide_True by done.
      split_and!; [done|lia|].
      assert (∀ j, j ∈ fl → next_at t' j = next_at t j) as Hj.
      { intros j Hj. unfold t'. rewrite push_table_next by done.
        rewrite decide_False by (intros ->; by apply (threaded_not_0 _ _ _ Hl)).
        rewrite decide_False by (by intros ->). done. }
      destruct fl as [|b fl]; simpl in *.
      * rewrite push_table_next by done. rewrite decide_False, decide_True by lia. done.
      * destruct Hl as (Hb0 & Hbne & Hl). rewrite push_table_next by done.
        rewrite decide_False, decide_True by lia. split_and!; [done..|].
        eapply threaded_ext; [done|]. intros j Hjin. by apply Hj.
    + by constructor.
    + intros j. rewrite Hn, elem_of_cons, Hfl. unfold type_at. split.
      * intros [->|(Hj & Hty & Hnj)].
        -- split_and!; [lia..| |rewrite Hni; set_solver]. by rewrite Hbi, TYPE_GEN.
        -- assert (j ≠ i) by (intros ->; tauto). rewrite Hb by done. split_and!; [lia..|done|by apply Hnames].
      * intros (Hj & Hty & Hnk). destruct (decide (j = i)) as [->|]; [by left|right].
        rewrite Hb in Hty by done. split_and!; [lia..|done|]. by apply Hnames.
  - intros j. rewrite Hn. intros Hj Hty Hnk. unfold type_at in *. unfold t' at 2.
    rewrite push_table_object. destruct (decide (j = i)) as [->|].
    + by rewrite Hbi, lnot_GEN.
    + rewrite Hb in * by done. apply (tw_free_entry _ _ Ht); [done..|]. by apply Hnames.
Qed.

(** What deallocation promises: the name goes, the other names have what they
    had; an entry of a name with another index stays where it is. *)
Record gone (H : gset Z) (st st' : istate) (name : Z) : Prop := {
  gn_wf : space_wf (H ∖ {[name]}) st';
  gn_none : space_view st' name = None;
  gn_view n : is_u32 n → n ≠ name → space_view st' n = space_view st n;
  gn_entry n ep e : n ≠ name → MACH_PORT_INDEX n ≠ MACH_PORT_INDEX name → denotes H st n ep → eget st ep = Some e →
    denotes (H ∖ {[name]}) st' n ep ∧ ∃ e', eget st' ep = Some e' ∧ cap_of e' = cap_of e;
}.

(** No other name in hand has the index of this one. *)
Definition apart (H : gset Z) (name : Z) : Prop :=
  ∀ n, n ∈ H → n ≠ name → MACH_PORT_INDEX n ≠ MACH_PORT_INDEX name.

Lemma apart_sub H name : H ⊆ {[name]} → apart H name.
Proof. intros Hsub n ?%Hsub%elem_of_singleton. done. Qed.

Lemma sub_singleton_minus (H : gset Z) name : H ⊆ {[name]} → H ∖ {[name]} = ∅.
Proof. set_solver. Qed.

(** Every entry but that of the name is found again, with its capability. *)
Lemma gone_intro H st st' name :
  space_wf H st → space_wf (H ∖ {[name]}) st' → is_u32 name →
  (∀ n ep e, n ≠ name → denotes H st n ep → eget st ep = Some e →
     ∃ ep' e', denotes (H ∖ {[name]}) st' n ep' ∧ eget st' ep' = Some e' ∧ cap_of e' = cap_of e ∧
       (MACH_PORT_INDEX n ≠ MACH_PORT_INDEX name → ep' = ep)) →
  (∀ n ep, denotes (H ∖ {[name]}) st' n ep → n ≠ name ∧ ∃ ep', denotes H st n ep') →
  gone H st st' name.
Proof.
  intros Hw Hw' Hu Hden Hback. split; [done| | |].
  - eapply view_None; [done..|]. intros ep [? _]%Hback. done.
  - intros n Hun Hne. eapply (view_holds_eq H (H ∖ {[name]})); [done..|]. intros c _. split.
    + intros Hc. pose proof Hc as (ep & e & Hd & _). destruct (Hback n ep Hd) as (_ & ep' & Hd').
      destruct (denotes_eget _ _ _ _ Hw Hd') as (e' & He'). destruct (Hden n ep' e' Hne Hd' He') as (ep2 & e2 & Hd2 & He2 & Hc2 & _).
      assert (holds (H ∖ {[name]}) st' n (cap_of e2)) as Hc' by (by exists ep2, e2).
      rewrite (holds_unique _ _ _ _ _ Hw' Hc Hc'). by exists ep', e'.
    + intros (ep & e & Hd & He & <-). destruct (Hden n ep e Hne Hd He) as (ep' & e' & Hd' & He' & Hc' & _). by exists ep', e'.
  - intros n ep e Hne Hx Hd He. destruct (Hden n ep e Hne Hd He) as (ep' & e' & Hd' & He' & Hc' & Hep). rewrite Hep in * by done.
    split; [done|]. by exists e'.
Qed.

Lemma free_push_spec H st name i e :
  space_wf H st → denotes H st name (EP_table i) →
  tget (st_table st) i = Some e → ie_object e = IO_NULL → collides (ie_bits e) = false →
  ∃ st', entry_free_push st i = Ok st' ∧ gone H st st' name.
Proof.
  intros Hw Hd He Ho Hc. pose proof (space_wf_size _ _ Hw) as Hsz.
  destruct Hd as (Hi & Hname & Hused). unfold entry_free_push.
  destruct (tget_is_Some (st_table st) 0) as (h & Hh); [lia|]. rewrite Hh. ostep.
  rewrite (next_at_get _ _ _ Hh). fold (push_table (st_table st) i (next_at (st_table st) 0)).
  eexists. split; [done|]. set (t' := push_table _ _ _).
  rewrite (object_at_get _ _ _ He) in Ho. rewrite (bits_at_get _ _ _ He) in Hc.
  assert (tsize t' = tsize (st_table st)) as Hn by apply push_table_same_hash.
  assert (∀ j, j ≠ i → bits_at t' j = bits_at (st_table st) j) as Hb.
  { intros j Hj. unfold t'. by rewrite push_table_bits, decide_False. }
  assert (bits_at t' i = IE_BITS_GEN (bits_at (st_table st) i)) as Hbi.
  { unfold t'. by rewrite push_table_bits, decide_True. }
  assert (name_at t' i = name) as Hni by (rewrite <-Hname; apply name_at_gen; by rewrite Hbi, GEN_GEN).
  assert (∀ n, n ∈ (tree_elems st).*1 → MACH_PORT_INDEX n ≠ i) as Hno.
  { intros n Hn' Heq. rewrite <-not_true_iff_false in Hc. apply Hc.
    apply (cw_bit _ _ _ (sw_coll _ _ Hw)); [lia|eauto]. }
  assert (∀ n, n ∈ (tree_elems st).*1 → n ≠ name) as Hno'.
  { intros n Hn' ->. apply (Hno _ Hn'). rewrite <-Hname. apply INDEX_MAKEB. lia. }
  assert (∀ j, 0 < j < tsize (st_table st) → j ≠ i → name_at (st_table st) j ≠ name) as Hnj.
  { intros j Hj Hne Heq. apply Hne, (name_at_inj (st_table st) (st_table st)); [lia..|congruence]. }
  assert (∀ n ep, n ≠ name → denotes H st n ep → denotes (H ∖ {[name]}) (set_table st t') n ep ∧ ep ≠ EP_table i) as Hden.
  { intros n [j|p] Hne; [|done]. simpl. change (st_table (set_table st t')) with t'. intros (Hj & Hnm & Hor).
    assert (j ≠ i) as Hji by congruence. rewrite Hn. unfold name_at, type_at in *. rewrite Hb by done.
    split; [split_and!; [lia..|done|set_solver]|congruence]. }
  assert (is_u32 name) as Hu by (rewrite <-Hname; apply MAKEB_range; lia).
  apply gone_intro; [done| |done| |].
  - apply (space_wf_set_table H); [done..| | | | |].
    + rewrite <-Hname in *. eapply push_table_wf; [apply Hw|done|lia|done..].
    + eapply tree_wf_sub; [apply Hw|]. intros n Hn'%Hno' ?. set_solver.
    + split.
      * intros j. rewrite Hn. intros Hj. destruct (decide (j = i)) as [->|].
        -- rewrite Hbi, collides_GEN. split; [done|]. intros (n & Hin & Heq). by destruct (Hno n).
        -- rewrite Hb by done. by apply (cw_bit _ _ _ (sw_coll _ _ Hw)).
      * intros n Hin Hr. rewrite Hn in Hr. pose proof (Hno n Hin) as Hne.
        pose proof (Hnj _ Hr Hne). unfold name_at, type_at in *. rewrite Hb by done.
        destruct (cw_used _ _ _ (sw_coll _ _ Hw) n Hin Hr) as [? Hor]. split; [done|].
        destruct Hor as [|Hin']; [by left|right]. unfold name_at in Hin'. set_solver.
    + eapply hash_wf_ext; [apply Hw|apply push_table_same_hash| |].
      * intros j Hj Hjn. fold t' in Hjn. destruct (decide (j = i)) as [->|Hne].
        -- right. split; [by apply null_not_hashed; [apply Hw|]|].
           unfold type_at. fold t'. by rewrite Hbi, TYPE_GEN.
        -- left. pose proof (Hnj j Hj Hne). unfold type_at, name_at in *. fold t'. rewrite Hb in * by done.
           split; [set_solver|done].
      * intros n Hn'%Hno' ?. set_solver.
    + intros n [Hin Hne%not_elem_of_singleton]%elem_of_difference. destruct (sw_hand _ _ Hw n Hin) as (? & ep & Hd).
      split; [done|]. exists ep. by apply Hden.
  - intros n ep e' Hne Hd He'. destruct (Hden n ep Hne Hd) as [Hd' Hji]. exists ep, e'. split_and!; [done| |done|done].
    destruct ep as [j|p]; [|done]. simpl. change (st_table (set_table st t')) with t'. destruct Hd as (Hj & _).
    unfold t', push_table. by rewrite !tget_tmod_ne by (lia || congruence).
  - intros n [j|p]; simpl.
    + change (st_table (set_table st t')) with t'. rewrite Hn. intros (Hj & Hnm & Hor).
      assert (j ≠ i) as Hji.
      { intros ->. rewrite Hni in Hnm. subst n. destruct Hor as [Hty|]; [|set_solver].
        apply Hty. unfold type_at. by rewrite Hbi, TYPE_GEN. }
      pose proof (Hnj j Hj Hji). unfold name_at, type_at in *. rewrite Hb in * by done. split; [congruence|].
      exists (EP_table j). simpl. split_and!; [lia..|done|set_solver].
    + intros Hp. split; [apply Hno', elem_of_names; eauto|]. by exists (EP_tree p).
Qed.

(** ** Removing a name from the tree *)

Lemma elem_of_small_set l lo hi i :
  i ∈ small_set l lo hi ↔ lo ≤ i < hi ∧ ∃ n, n ∈ l.*1 ∧ MACH_PORT_INDEX n = i.
Proof.
  unfold small_set. rewrite elem_of_filter, elem_of_list_to_set, list_elem_of_fmap.
  split; intros [Hr Hx]; (split; [done|]).
  - destruct Hx as ([n p] & -> & Hin). exists n. split; [|done]. apply elem_of_names. eauto.
  - destruct Hx as (n & (p & Hin)%elem_of_names & <-). by exists (n, p).
Qed.

Lemma own_delete ites p q : q ≠ p → own (delete p ites) q ↔ own ites q.
Proof. intros. unfold own. by rewrite lookup_delete_ne. Qed.

Lemma object_of_delete ites p q : q ≠ p → object_of (delete p ites) q = object_of ites q.
Proof. intros. unfold object_of. by rewrite lookup_delete_ne. Qed.

Lemma filter_ext_in {A} (P Q : A → Prop) `{!∀ x, Decision (P x), !∀ x, Decision (Q x)} (l : list A) :
  (∀ x, x ∈ l → P x ↔ Q x) → filter P l = filter Q l.
Proof.
  induction l as [|x l IH]; intros Hx; [done|]. rewrite !filter_cons.
  rewrite IH by (intros y Hy; apply Hx; by right).
  pose proof (Hx x ltac:(by left)). repeat case_decide; tauto || done.
Qed.

Lemma own_hashed_delete ites bs p :
  p ∉ mjoin bs → own_hashed (delete p ites) bs = own_hashed ites bs.
Proof.
  intros Hp. unfold own_hashed. f_equal. apply filter_ext_in. intros q Hq.
  apply own_delete. by intros ->.
Qed.

Lemma global_hash_delete_ite l l' ites bs p :
  global_hash l ites bs → p ∉ mjoin bs → (∀ n q, (n, q) ∈ l → q ≠ p → (n, q) ∈ l') →
  global_hash l' (delete p ites) bs.
Proof.
  intros Hg Hp Hl. assert (∀ q, q ∈ mjoin bs → q ≠ p) as Hne by (by intros q ? ->).
  split; try apply Hg.
  - intros b bucket q Hb Hq. rewrite lookup_delete_ne; [by eapply gh_bucket|].
    apply not_eq_sym, Hne, elem_of_mjoin. eauto.
  - intros q t Hq. rewrite lookup_delete_ne by (apply not_eq_sym; auto). intros Ht Hs.
    destruct (gh_own _ _ _ Hg q t Hq Ht Hs). split; [|done]. apply Hl; auto.
  - intros q r Hq Hr. rewrite !own_delete, !object_of_delete by auto. by apply (gh_unique _ _ _ Hg).
Qed.

(** The tree without the entry at [p], of name [name]. *)
Definition without (l : list (Z * Z)) (name p : Z) (l' : list (Z * Z)) : Prop :=
  ∃ l1 l2, l = l1 ++ (name, p) :: l2 ∧ l' = l1 ++ l2.

Lemma without_elem l name p l' n q :
  NoDup l.*1 → without l name p l' → (n, q) ∈ l' ↔ (n, q) ∈ l ∧ n ≠ name.
Proof.
  intros Hnd (l1 & l2 & -> & ->). rewrite fmap_app, fmap_cons, <-Permutation_middle in Hnd.
  apply NoDup_cons in Hnd as [Hni _]. rewrite <-fmap_app in Hni. simpl in Hni.
  rewrite !elem_of_app, elem_of_cons. split.
  - intros Hin. split; [tauto|]. intros ->. apply Hni, elem_of_names. exists q.
    by rewrite elem_of_app.
  - intros [[?|[[= -> ->]|?]] ?]; tauto.
Qed.

Lemma without_names l name p l' n :
  NoDup l.*1 → without l name p l' → n ∈ l'.*1 ↔ n ∈ l.*1 ∧ n ≠ name.
Proof.
  intros Hnd Hwo. rewrite !elem_of_names. setoid_rewrite (without_elem l name p l'); [|done..].
  naive_solver.
Qed.

Lemma without_length l name p l' : without l name p l' → length l = S (length l').
Proof. intros (l1 & l2 & -> & ->). rewrite !length_app. simpl. lia. Qed.

Lemma without_tree_wf H l ites name p l' :
  tree_wf H l ites → NoDup l.*1 → (name, p) ∈ l → without l name p l' →
  tree_wf (H ∖ {[name]}) l' (delete p ites).
Proof.
  intros Ht Hnd Hp Hwo n q Hq. apply (without_elem _ _ _ _ _ _ Hnd Hwo) in Hq as [Hq Hne].
  destruct (Ht n q Hq) as (t & Htq & ? & ? & ? & ? & Hty). exists t. split.
  - rewrite lookup_delete_ne; [done|]. intros <-.
    destruct (Ht name p Hp) as (t' & Ht' & ? & _). congruence.
  - split_and!; [done..|]. intros ?. apply Hty. set_solver.
Qed.

Lemma without_hash_wf H t l ites bs name p l' :
  hash_wf H t l ites bs → tree_wf H l ites → NoDup l.*1 → (name, p) ∈ l →
  without l name p l' → p ∉ mjoin bs →
  (∀ i, 0 < i < tsize t → name_at t i ≠ name) →
  hash_wf (H ∖ {[name]}) t l' (delete p ites) bs.
Proof.
  intros Hh Ht Hnd Hp Hwo Hnp Hnames.
  assert (∀ n q, (n, q) ∈ l → n ≠ name → q ≠ p) as Hqp.
  { intros n q Hq Hne ->. destruct (Ht _ _ Hp) as (t1 & Ht1 & ? & _).
    destruct (Ht _ _ Hq) as (t2 & Ht2 & ? & _). congruence. }
  split.
  - apply Hh.
  - eapply global_hash_delete_ite; [apply Hh|done|]. intros n q Hq Hne.
    apply (without_elem _ _ _ _ _ _ Hnd Hwo). split; [done|]. intros ->.
    apply Hne. apply (elem_of_list_to_map (M := gmap Z)) in Hp, Hq; [congruence|done..].
  - intros i Hi Hni. apply (hw_type _ _ _ _ _ Hh); [done|]. pose proof (Hnames i Hi). set_solver.
  - intros n q te Hq Hte Hni. apply (without_elem _ _ _ _ _ _ Hnd Hwo) in Hq as [Hq Hne].
    rewrite lookup_delete_ne in Hte by (apply not_eq_sym; eauto).
    apply (hw_tree_type _ _ _ _ _ Hh n q te Hq Hte). set_solver.
  - intros i q Hi Hq. assert (q ≠ p) by (by intros ->).
    rewrite own_delete, object_of_delete by done. by apply (hw_disjoint _ _ _ _ _ Hh).
Qed.

(** ** Rebuilding the invariant from its parts *)

Definition rebuild (st : istate) (t : list ipc_entry) (tree : ipc_splay_tree Z)
    (total small hash : Z) (ites : gmap Z ipc_tree_entry) (bs : list (list Z)) : istate :=
  IST_ (set_is_tree_small (set_is_tree_total (set_is_tree_hash
         (set_is_tree (set_is_table (st_space st) t) tree) hash) total) small)
    ites bs (st_clock st).

Lemma rebuild_wf H st H' t tree small ites bs :
  space_wf H st → tsize t = tsize (st_table st) →
  (∀ nsize, its_size (is_table_next (st_space st)) = Ok nsize →
     small = Z.of_nat (size (small_set (elems tree) (tsize t) nsize))) →
  table_wf H' t → splay_wf tree → tree_wf H' (elems tree) ites → coll_wf H' t (elems tree) →
  hash_wf H' t (elems tree) ites bs →
  (is_fast (st_space st) = true → elems tree = []) →
  (∀ name, name ∈ H' → is_u32 name ∧ ∃ ep, denotes H'
     (rebuild st t tree (Z.of_nat (length (elems tree))) small
        (Z.of_nat (own_hashed ites bs)) ites bs) name ep) →
  space_wf H' (rebuild st t tree (Z.of_nat (length (elems tree))) small
    (Z.of_nat (own_hashed ites bs)) ites bs).
Proof.
  intros Hw Hn Hsm ? ? ? ? ? ? ?. split; try done.
  - apply Hw.
  - change (is_table_size (st_space st) = tsize t). rewrite Hn. apply (sw_size _ _ Hw).
  - destruct (sw_next _ _ Hw) as (k & nsize & Hk & Hk1 & Hk2 & _). exists k, nsize.
    split_and!; [done..|]. simpl. rewrite (sw_size _ _ Hw), <-Hn. apply Hsm.
    unfold its_size. by rewrite Hk, Hk2.
Qed.

(** The same entries with other collision bits. *)
Record same_but_collisions (t t' : list ipc_entry) : Prop := {
  sc_hash : same_hash t t';
  sc_gen j : IE_BITS_GEN (bits_at t' j) = IE_BITS_GEN (bits_at t j);
  sc_right j : Z.land (bits_at t' j) IE_BITS_RIGHT_MASK = Z.land (bits_at t j) IE_BITS_RIGHT_MASK;
  sc_get j e : tget t j = Some e →
    tget t' j = Some (IE (bits_at t' j) (ie_object e) (ie_request e) (ie_index e));
}.

Lemma RIGHT_TYPE b b' :
  Z.land b IE_BITS_RIGHT_MASK = Z.land b' IE_BITS_RIGHT_MASK → IE_BITS_TYPE b = IE_BITS_TYPE b'.
Proof.
  intros Heq. unfold IE_BITS_TYPE.
  change IE_BITS_TYPE_MASK with (Z.land IE_BITS_RIGHT_MASK IE_BITS_TYPE_MASK).
  by rewrite !Z.land_assoc, Heq.
Qed.

Lemma sc_type t t' j : same_but_collisions t t' → type_at t' j = type_at t j.
Proof. intros Hs. apply RIGHT_TYPE, Hs. Qed.
Lemma sc_name t t' j : same_but_collisions t t' → name_at t' j = name_at t j.
Proof. intros Hs. apply name_at_gen, Hs. Qed.
Lemma sc_object t t' j : same_but_collisions t t' → object_at t' j = object_at t j.
Proof.
  intros Hs. unfold object_at. destruct (tget t j) as [e|] eqn:He.
  - by rewrite (sc_get _ _ Hs j e He).
  - destruct (tget t' j) as [e|] eqn:He'; [|done]. apply tget_Some in He'.
    rewrite (sh_size _ _ (sc_hash _ _ Hs)) in He'. apply tget_is_Some in He' as (? & ?). congruence.
Qed.
Lemma sc_next t t' j : same_but_collisions t t' → next_at t' j = next_at t j.
Proof.
  intros Hs. unfold next_at. destruct (tget t j) as [e|] eqn:He.
  - by rewrite (sc_get _ _ Hs j e He).
  - destruct (tget t' j) as [e|] eqn:He'; [|done]. apply tget_Some in He'.
    rewrite (sh_size _ _ (sc_hash _ _ Hs)) in He'. apply tget_is_Some in He' as (? & ?). congruence.
Qed.

Lemma same_but_collisions_refl t : same_but_collisions t t.
Proof.
  split; [done|done|done|]. intros j e He. rewrite He, <-(bits_at_get _ _ _ He). by destruct e.
Qed.

Lemma same_but_collisions_mod t i f :
  (∀ b, IE_BITS_GEN (f b) = IE_BITS_GEN b) →
  (∀ b, Z.land (f b) IE_BITS_RIGHT_MASK = Z.land b IE_BITS_RIGHT_MASK) →
  same_but_collisions t (tmod t i (λ e, set_ie_bits e (f (ie_bits e)))).
Proof.
  intros Hg Hr.
  assert (∀ j, bits_at (tmod t i (λ e, set_ie_bits e (f (ie_bits e)))) j =
    if decide (i = j ∧ 0 ≤ j < tsize t) then f (bits_at t j) else bits_at t j) as Hb.
  { intros j. rewrite bits_at_tmod. destruct (decide (i = j)) as [<-|].
    - unfold bits_at. destruct (tget t i) as [e|] eqn:He.
      + rewrite decide_True; [done|]. split; [done|by eapply tget_Some].
      + rewrite decide_False; [done|]. intros [_ (? & ?)%tget_is_Some]. congruence.
    - rewrite decide_False by tauto. done. }
  split.
  - split; [by rewrite tsize_tmod|intros; by rewrite slot_keep|intros; by rewrite object_at_keep].
  - intros j. rewrite Hb. case_decide; [apply Hg|done].
  - intros j. rewrite Hb. case_decide; [apply Hr|done].
  - intros j e He. unfold bits_at. rewrite tget_tmod. rewrite He. simpl.
    case_decide; by destruct e.
Qed.

Lemma sc_table_wf_gen H H' t t' :
  table_wf H t → same_but_collisions t t' →
  (∀ i, 0 < i < tsize t → name_at t i ∉ H ↔ name_at t i ∉ H') →
  (∀ j, free_index H t j → bits_at t' j = bits_at t j) → table_wf H' t'.
Proof.
  intros Ht Hs Hnh Hfree.
  assert (tsize t' = tsize t) as Hn by apply Hs.
  split.
  - rewrite (sc_gen _ _ Hs). apply Ht.
  - rewrite (sc_type _ _ _ Hs). apply Ht.
  - destruct (tw_free _ _ Ht) as (fl & Hl & Hnd & Hfl). exists fl. split_and!; [|done|].
    + eapply threaded_ext; [done|]. intros j _. by apply sc_next.
    + intros i. rewrite Hfl, Hn, (sc_type _ _ _ Hs), (sc_name _ _ _ Hs).
      split; intros (? & ? & ?); split_and!; try done; try lia; by apply Hnh.
  - intros i. rewrite Hn, (sc_type _ _ _ Hs), (sc_object _ _ _ Hs), (sc_name _ _ _ Hs). intros Hi Hty Hni.
    rewrite Hfree by (split_and!; [lia..|done|by apply Hnh]).
    apply (tw_free_entry _ _ Ht); [done..|by apply Hnh].
Qed.

Lemma sc_table_wf H t t' name :
  table_wf H t → same_but_collisions t t' →
  (∀ i, 0 < i < tsize t → name_at t i ≠ name) →
  (∀ j, free_index H t j → bits_at t' j = bits_at t j) → table_wf (H ∖ {[name]}) t'.
Proof.
  intros Ht Hs Hnames. apply sc_table_wf_gen; [done..|]. intros i Hi.
  specialize (Hnames i Hi). set_solver.
Qed.

Lemma coll_without H t t' l l' name p :
  coll_wf H t l → NoDup l.*1 → without l name p l' →
  (∀ i, 0 < i < tsize t → name_at t i ≠ name) → same_but_collisions t t' →
  (∀ j, 0 ≤ j < tsize t → j ≠ MACH_PORT_INDEX name →
     collides (bits_at t' j) = collides (bits_at t j)) →
  (0 ≤ MACH_PORT_INDEX name < tsize t →
     collides (bits_at t' (MACH_PORT_INDEX name)) = true ↔
     ∃ n, n ∈ l'.*1 ∧ MACH_PORT_INDEX n = MACH_PORT_INDEX name) →
  coll_wf (H ∖ {[name]}) t' l'.
Proof.
  intros Hc Hnd Hwo Hnames Hs Hother Hidx.
  assert (tsize t' = tsize t) as Hn by apply Hs.
  split.
  - intros i. rewrite Hn. intros Hi.
    destruct (decide (i = MACH_PORT_INDEX name)) as [->|Hne]; [by apply Hidx|].
    rewrite Hother, (cw_bit _ _ _ Hc) by done.
    setoid_rewrite (without_names l name p l'); [|done..].
    split; [|naive_solver]. intros (n & Hin & <-). exists n. split_and!; [done| |done].
    intros ->. done.
  - intros n Hin Hr. rewrite Hn in Hr. apply (without_names _ _ _ _ _ Hnd Hwo) in Hin as [Hin Hne].
    rewrite (sc_name _ _ _ Hs), (sc_type _ _ _ Hs).
    destruct (cw_used _ _ _ Hc n Hin Hr) as [? [?|Hin']]; [by auto|]. split; [done|right].
    pose proof (Hnames (MACH_PORT_INDEX n) Hr). set_solver.
Qed.

(** ** A tree entry *)

Lemma sc_cap t t' j e e' :
  same_but_collisions t t' → tget t j = Some e → tget t' j = Some e' → cap_of e' = cap_of e.
Proof.
  intros Hs He He'. rewrite (sc_get _ _ Hs j e He) in He'. injection He' as <-.
  unfold cap_of. simpl. f_equal. rewrite (sc_right _ _ Hs). by rewrite (bits_at_get _ _ _ He).
Qed.

(** The name has gone from the tree. *)
Lemma without_denotes H st st' name p n ep :
  space_wf H st → (name, p) ∈ tree_elems st → same_but_collisions (st_table st) (st_table st') →
  without (tree_elems st) name p (tree_elems st') →
  denotes (H ∖ {[name]}) st' n ep ↔ denotes H st n ep ∧ n ≠ name.
Proof.
  intros Hw Hp Hs Hwo. pose proof (tree_elems_NoDup _ _ Hw) as Hnd.
  assert (tsize (st_table st') = tsize (st_table st)) as Hn by apply Hs.
  destruct ep as [i|q]; simpl; [|by apply (without_elem _ _ p)].
  rewrite Hn, (sc_name _ _ _ Hs), (sc_type _ _ _ Hs). split.
  - intros (Hi & Hnm & Hor). assert (n ≠ name); [|set_solver]. intros ->.
    assert (denotes H st name (EP_table i)) as Hd by (simpl; set_solver).
    pose proof (denotes_unique H st name _ (EP_tree p) Hw Hd Hp). done.
  - intros ((Hi & Hnm & Hor) & Hne). set_solver.
Qed.

Lemma without_gone H st st' name p :
  space_wf H st → space_wf (H ∖ {[name]}) st' → (name, p) ∈ tree_elems st →
  same_but_collisions (st_table st) (st_table st') →
  without (tree_elems st) name p (tree_elems st') → st_ites st' = delete p (st_ites st) →
  gone H st st' name.
Proof.
  intros Hw Hw' Hp Hs Hwo Hi. pose proof (λ n ep, without_denotes H st st' name p n ep Hw Hp Hs Hwo) as Hden.
  apply gone_intro; [done..| | |].
  - by destruct (tree_elem_ok _ _ _ _ Hw Hp) as (t & _ & _ & _ & (? & _) & _).
  - intros n ep e Hne Hd He. assert (denotes (H ∖ {[name]}) st' n ep) as Hd' by (by apply Hden).
    destruct ep as [i|q]; simpl in He.
    + destruct (tget_is_Some (st_table st') i) as (e0 & He0); [destruct Hd'; lia|].
      exists (EP_table i), e0. split_and!; [done|done|by eapply sc_cap|done].
    + exists (EP_tree q), e. split_and!; [done| |done|done]. simpl. rewrite Hi, lookup_delete_ne; [done|].
      intros <-. by apply Hne, (tree_addr_unique H st _ _ p).
  - intros n ep [Hd Hne]%Hden. eauto.
Qed.

(** The state once the name is out of the tree and the collision bits and
    [is_tree_small] are right. *)
Lemma tree_removed H st name p tree t' small :
  space_wf H st → (name, p) ∈ tree_elems st →
  p ∉ mjoin (st_buckets st) → splay_wf tree → without (tree_elems st) name p (elems tree) →
  same_but_collisions (st_table st) t' →
  (∀ j, 0 ≤ j < tsize (st_table st) → j ≠ MACH_PORT_INDEX name →
     bits_at t' j = bits_at (st_table st) j) →
  (0 ≤ MACH_PORT_INDEX name < tsize (st_table st) →
     collides (bits_at t' (MACH_PORT_INDEX name)) = true ↔
     ∃ n, n ∈ (elems tree).*1 ∧ MACH_PORT_INDEX n = MACH_PORT_INDEX name) →
  (∀ nsize, its_size (is_table_next (st_space st)) = Ok nsize →
     small = Z.of_nat (size (small_set (elems tree) (tsize (st_table st)) nsize))) →
  gone H st (rebuild st t' tree (is_tree_total (st_space st) - 1) small
    (is_tree_hash (st_space st)) (delete p (st_ites st)) (st_buckets st)) name.
Proof.
  intros Hw Hp Hnp Hs Hwo Hsc Hother Hidx Hsm.
  pose proof (tree_elems_NoDup _ _ Hw) as Hnd.
  assert (tsize t' = tsize (st_table st)) as Hn by apply Hsc.
  pose proof (space_wf_size _ _ Hw) as Hsz.
  assert (∀ i, 0 < i < tsize (st_table st) → name_at (st_table st) i ≠ name) as Hnames.
  { intros i Hi Heq. assert (MACH_PORT_INDEX name = i) as Hx.
    { rewrite <-Heq. apply INDEX_MAKEB. lia. }
    destruct (cw_used _ _ _ (sw_coll _ _ Hw) name) as [Hne _];
      [apply elem_of_names; eauto|lia|]. by rewrite Hx in Hne. }
  assert (is_tree_total (st_space st) - 1 = Z.of_nat (length (elems tree))) as ->.
  { rewrite (sw_total _ _ Hw), (without_length _ _ _ _ Hwo). lia. }
  assert (is_tree_hash (st_space st) =
    Z.of_nat (own_hashed (delete p (st_ites st)) (st_buckets st))) as ->.
  { by rewrite own_hashed_delete, (sw_hashed _ _ Hw). }
  eapply without_gone; [done| |done..].
  eapply rebuild_wf; [done|done| | |done| | | | |].
  - by rewrite Hn.
  - eapply sc_table_wf; [apply Hw|done..|]. intros j (Hj & Hty & Hnj).
    destruct (decide (j = MACH_PORT_INDEX name)) as [->|]; [|apply Hother; done || lia].
    exfalso. destruct (cw_used _ _ _ (sw_coll _ _ Hw) name) as [_ [?|?]];
      [apply elem_of_names; eauto|lia|done|done].
  - eapply without_tree_wf; [apply Hw|done..].
  - eapply coll_without; [apply Hw|done..| |done]. intros j Hj Hne. by rewrite Hother.
  - eapply (without_hash_wf H); [|apply Hw|done..|].
    + eapply hash_wf_ext; [apply Hw|apply Hsc| |done]. intros j Hj Hnj. left.
      rewrite (sc_name _ _ _ Hsc) in Hnj. by rewrite (sc_type _ _ _ Hsc).
    + intros i. rewrite Hn, (sc_name _ _ _ Hsc). apply Hnames.
  - intros Hf. destruct Hwo as (l1 & l2 & Heq & _). rewrite (sw_fast _ _ Hw Hf) in Heq.
    by destruct l1.
  - intros n [Hin Hne%not_elem_of_singleton]%elem_of_difference. destruct (sw_hand _ _ Hw n Hin) as (? & ep & Hd).
    split; [done|]. exists ep. apply (without_denotes H st _ name p); [done..|]. by split.
Qed.

Lemma clear_collision_same t i :
  same_but_collisions t (tmod t i (λ e, set_ie_bits e (Z.land (ie_bits e) (Z.lnot IE_BITS_COLLISION)))).
Proof.
  apply (same_but_collisions_mod t i (λ b, Z.land b (Z.lnot IE_BITS_COLLISION)));
    intros b; by autorewrite with bits.
Qed.

Lemma set_collision_same t i :
  same_but_collisions t (tmod t i (λ e, set_ie_bits e (Z.lor (ie_bits e) IE_BITS_COLLISION))).
Proof.
  apply (same_but_collisions_mod t i (λ b, Z.lor b IE_BITS_COLLISION));
    intros b; by autorewrite with bits.
Qed.

Lemma bits_at_mod t i f j :
  0 ≤ i < tsize t → bits_at (tmod t i (λ e, set_ie_bits e (f (ie_bits e)))) j =
    if decide (j = i) then f (bits_at t i) else bits_at t j.
Proof.
  intros (e & He)%tget_is_Some. rewrite bits_at_tmod. destruct (decide (i = j)) as [<-|].
  - rewrite decide_True by done. unfold bits_at. by rewrite He.
  - by rewrite decide_False.
Qed.

(** [is_tree_small] counts indices. *)
Lemma small_without_same l l' name p lo hi :
  NoDup l.*1 → (name, p) ∈ l → without l name p l' →
  (∃ n, n ∈ l'.*1 ∧ MACH_PORT_INDEX n = MACH_PORT_INDEX name) ∨
    ¬ lo ≤ MACH_PORT_INDEX name < hi →
  small_set l' lo hi = small_set l lo hi.
Proof.
  intros Hnd Hp Hwo Hor. apply set_eq. intros i. rewrite !elem_of_small_set.
  setoid_rewrite (without_names l name p l'); [|done..]. split; [naive_solver|].
  intros (Hr & n & Hin & Hi). split; [done|]. destruct (decide (n = name)) as [->|]; [|eauto].
  destruct Hor as [(m & Hm & Hmi)|]; [|congruence].
  apply (without_names _ _ _ _ _ Hnd Hwo) in Hm as [? ?]. exists m. split_and!; [done..|congruence].
Qed.

Lemma small_without_less l l' name p lo hi :
  NoDup l.*1 → (name, p) ∈ l → without l name p l' → lo ≤ MACH_PORT_INDEX name < hi →
  (¬ ∃ n, n ∈ l'.*1 ∧ MACH_PORT_INDEX n = MACH_PORT_INDEX name) →
  size (small_set l lo hi) = S (size (small_set l' lo hi)).
Proof.
  intros Hnd Hp Hwo Hr Hno.
  assert (small_set l lo hi = {[MACH_PORT_INDEX name]} ∪ small_set l' lo hi) as ->.
  { apply set_eq. intros i. rewrite elem_of_union, elem_of_singleton, !elem_of_small_set.
    setoid_rewrite (without_names l name p l'); [|done..]. split.
    - intros (? & n & Hin & Hi). destruct (decide (n = name)) as [->|]; [by left|right]. eauto 10.
    - intros [->|(? & n & [? ?] & ?)]; [|eauto]. split; [done|]. exists name. split; [|done].
      apply elem_of_names. eauto. }
  rewrite size_union, size_singleton; [lia|].
  apply disjoint_singleton_l. rewrite elem_of_small_set. intros [_ ?]. done.
Qed.

(** The state between the removal from the tree and the adjustments. *)
Definition removed (st : istate) (tree : ipc_splay_tree Z) (p : Z) : istate :=
  rebuild st (st_table st) tree (is_tree_total (st_space st) - 1) (is_tree_small (st_space st))
    (is_tree_hash (st_space st)) (delete p (st_ites st)) (st_buckets st).

Section removal.
Context (H : gset Z) (st : istate) (name p : Z) (tree : ipc_splay_tree Z).
Hypothesis Hw : space_wf H st.
Hypothesis Hact : is_active (st_space st) = true.
Hypothesis Hp : (name, p) ∈ tree_elems st.
Hypothesis Hnp : p ∉ mjoin (st_buckets st).
Hypothesis Hs : splay_wf tree.
Hypothesis Hwo : without (tree_elems st) name p (elems tree).

Lemma removed_collision :
  ∃ tree' b, ipc_entry_tree_collision (removed st tree p) name = Ok (removed st tree' p, b) ∧
    splay_wf tree' ∧ without (tree_elems st) name p (elems tree') ∧
    (b = true ↔ ∃ n, n ∈ (elems tree').*1 ∧ MACH_PORT_INDEX n = MACH_PORT_INDEX name).
Proof.
  pose proof (tree_elems_NoDup _ _ Hw) as Hnd.
  destruct (tree_collision_spec (removed st tree p) name)
    as (st3 & b & Hcol & (tree' & -> & Hs' & He') & Hb); [done| |done|].
  { intros n Hn. apply (without_names _ _ _ _ _ Hnd Hwo) in Hn as [(q & Hq)%elem_of_names _].
    destruct (tree_elem_ok _ _ _ _ Hw Hq) as (? & _ & _ & _ & ? & _). done. }
  change (tree_elems (removed st tree p)) with (elems tree) in *. rewrite <-He' in Hb.
  exists tree', b. split_and!; [done|done|by rewrite He'|done].
Qed.

Lemma uncollide_table :
  0 ≤ MACH_PORT_INDEX name < tsize (st_table st) →
  ∃ st', entry_uncollide (removed st tree p) name = Ok st' ∧ gone H st st' name.
Proof.
  intros Hlt. pose proof (tree_elems_NoDup _ _ Hw) as Hnd.
  destruct (space_wf_next _ _ Hw) as (nsize & Hns & _ & Hsm).
  destruct removed_collision as (tree' & b & Hcol & Hs' & Hwo' & Hb).
  pose proof (λ t', tree_removed H st name p tree' t' (is_tree_small (st_space st))
    Hw Hp Hnp Hs' Hwo') as Hfin.
  assert (∀ ns, its_size (is_table_next (st_space st)) = Ok ns → is_tree_small (st_space st) =
    Z.of_nat (size (small_set (elems tree') (tsize (st_table st)) ns))) as Hsm'.
  { intros ns Hns'. assert (ns = nsize) as -> by congruence. rewrite Hsm. do 2 f_equal.
    symmetry. eapply small_without_same; [done..|right; lia]. }
  destruct (tget_is_Some (st_table st) (MACH_PORT_INDEX name)) as (ie & Hie); [lia|].
  assert (collides (ie_bits ie) = true) as Hcb.
  { rewrite (bits_at_get _ _ _ Hie). apply (cw_bit _ _ _ (sw_coll _ _ Hw)); [lia|].
    exists name. split; [apply elem_of_names; eauto|done]. }
  unfold entry_uncollide. rewrite Hcol.
  change (is_table_size (st_space (removed st tree p))) with (is_table_size (st_space st)).
  change (st_table (removed st tree p)) with (st_table st).
  rewrite (sw_size _ _ Hw), (proj2 (Z.ltb_lt _ _)), Hie by lia. ostep.
  fold (collides (ie_bits ie)). rewrite Hcb. ostep.
  destruct b; ostep; (eexists; split; [done|]).
  - apply (Hfin (st_table st)); [apply same_but_collisions_refl|done| |done].
    intros _. rewrite <-(bits_at_get _ _ _ Hie), Hcb. tauto.
  - apply (Hfin _ (clear_collision_same _ (MACH_PORT_INDEX name))); [| |done].
    + intros j _ Hj. rewrite (bits_at_mod _ _ (λ b, Z.land b (Z.lnot IE_BITS_COLLISION))) by lia.
      by rewrite decide_False.
    + intros _. rewrite (bits_at_mod _ _ (λ b, Z.land b (Z.lnot IE_BITS_COLLISION))) by lia.
      rewrite decide_True, collides_clear_collision by done. rewrite <-Hb. done.
Qed.

Lemma uncollide_outside :
  tsize (st_table st) ≤ MACH_PORT_INDEX name →
  ∃ st', entry_uncollide (removed st tree p) name = Ok st' ∧ gone H st st' name.
Proof.
  intros Hge. pose proof (tree_elems_NoDup _ _ Hw) as Hnd.
  destruct (space_wf_next _ _ Hw) as (nsize & Hns & _ & Hsm).
  assert (∀ tr small, splay_wf tr → without (tree_elems st) name p (elems tr) →
    small = Z.of_nat (size (small_set (elems tr) (tsize (st_table st)) nsize)) →
    gone H st (rebuild st (st_table st) tr (is_tree_total (st_space st) - 1) small
      (is_tree_hash (st_space st)) (delete p (st_ites st)) (st_buckets st)) name) as Hfin.
  { intros tr small Hst Hwt Hs1. eapply tree_removed; [done..|apply same_but_collisions_refl|done|lia|].
    intros ns Hns'. assert (ns = nsize) as -> by congruence. done. }
  unfold entry_uncollide.
  change (is_table_size (st_space (removed st tree p))) with (is_table_size (st_space st)).
  rewrite (sw_size _ _ Hw), (proj2 (Z.ltb_ge _ _)) by lia.
  change (is_table_next (st_space (removed st tree p))) with (is_table_next (st_space st)).
  rewrite Hns. ostep. destruct (Z.ltb_spec (MACH_PORT_INDEX name) nsize) as [Hlt'|Hge'].
  2:{ eexists. split; [done|]. apply Hfin; [done..|]. rewrite Hsm. do 2 f_equal. symmetry.
      eapply small_without_same; [done..|right; lia]. }
  destruct removed_collision as (tree' & b & -> & Hs' & Hwo' & Hb). ostep. destruct b; ostep.
  - eexists. split; [done|]. apply Hfin; [done..|]. rewrite Hsm.
    do 2 f_equal. symmetry. eapply small_without_same; [done..|left; by apply Hb].
  - pose proof (small_without_less _ _ name p (tsize (st_table st)) nsize Hnd Hp Hwo'
      ltac:(lia) ltac:(rewrite <-Hb; done)) as Hless.
    change (is_tree_small (st_space (removed st tree' p))) with (is_tree_small (st_space st)).
    rewrite (proj2 (Z.ltb_lt 0 (is_tree_small (st_space st)))) by lia. ostep.
    eexists. split; [done|]. apply (Hfin tree' (is_tree_small (st_space st) - 1)); [done..|lia].
Qed.
End removal.

Lemma dealloc_tree_spec H st name p e :
  space_wf H st → is_active (st_space st) = true →
  (name, p) ∈ tree_elems st → eget st (EP_tree p) = Some e → ie_object e = IO_NULL →
  ∃ st', entry_dealloc_tree st name p = Ok st' ∧ gone H st st' name.
Proof.
  intros Hw Hact Hp He Ho.
  destruct (tree_elem_ok _ _ _ _ Hw Hp) as (t & Ht & Hname & Hsp & (Hu & _) & _).
  simpl in He. rewrite Ht in He. injection He as <-.
  pose proof (null_not_ghashed _ _ _ _ _ Hw Hp Ht Ho) as Hnp.
  pose proof (MACH_PORT_INDEX_range name Hu) as Hidx.
  unfold entry_dealloc_tree. rewrite Ht. ostep. rewrite Hsp, Z.eqb_refl. ostep.
  destruct (delete_spec (is_tree (st_space st)) name p) as (tree & l1 & l2 & Hdel & Hs & He1 & He2);
    [apply Hw|done|]. unfold tree_delete. rewrite Hdel. ostep. rewrite Z.eqb_refl. ostep.
  assert (without (tree_elems st) name p (elems tree)) as Hwo by (by exists l1, l2).
  assert (0 < is_tree_total (st_space st)) as Htot.
  { eapply (tree_total_pos H st name); [done|]. apply elem_of_names. eauto. }
  unfold is_tree_total_decr. simpl. rewrite (proj2 (Z.ltb_lt _ _) Htot). ostep.
  destruct (Z.lt_ge_cases (MACH_PORT_INDEX name) (tsize (st_table st))).
  - apply (uncollide_table H st name p tree); done || lia.
  - by apply (uncollide_outside H st name p tree).
Qed.

(** ** Moving a tree entry into the table *)

(** The slot [index] of [t] holds what was the tree entry [te]. *)
Definition moved (t t' : list ipc_entry) (index tname : Z) (te : ipc_tree_entry) : Prop :=
  tsize t' = tsize t ∧
  (∀ j, j ≠ index → tget t' j = (λ e, set_ie_index e (slot t' j)) <$> tget t j) ∧
  tget t' index = Some (IE (Z.lor (ite_bits te) (MACH_PORT_GEN tname)) (ite_object te)
    (ie_request (ite_entry te)) (slot t' index)).

Definition move_table (t : list ipc_entry) (index tname : Z) (te : ipc_tree_entry) :
    list ipc_entry :=
  tmod t index (λ e, IE (Z.lor (ite_bits te) (MACH_PORT_GEN tname)) (ite_object te)
    (ie_request (ite_entry te)) (ie_index e)).

Lemma move_table_moved t index tname te :
  0 ≤ index < tsize t → moved t (move_table t index tname te) index tname te.
Proof.
  intros (e & He)%tget_is_Some. unfold moved, move_table. split_and!.
  - apply tsize_tmod.
  - intros j Hj. unfold slot. rewrite tget_tmod_ne by done. destruct (tget t j) as [[]|]; done.
  - unfold slot. rewrite tget_tmod_eq, He. done.
Qed.

Lemma moved_same_entries t t' t'' index tname te :
  moved t t' index tname te → same_entries t' t'' → tsize t'' = tsize t' →
  moved t t'' index tname te.
Proof.
  intros (Hn & Hj & Hi) Hs Hn'. split_and!; [congruence| |].
  - intros j Hne. rewrite (Hs j), (Hj j Hne). by destruct (tget t j).
  - rewrite (Hs index), Hi. done.
Qed.

Lemma move_table_slot t index tname te j : slot (move_table t index tname te) j = slot t j.
Proof. by apply slot_keep. Qed.

Lemma move_table_object t index tname te j :
  0 ≤ index < tsize t → object_at (move_table t index tname te) j =
    if decide (j = index) then ite_object te else object_at t j.
Proof.
  intros (e & He)%tget_is_Some. unfold object_at, move_table. rewrite tget_tmod.
  destruct (decide (index = j)) as [<-|]; [by rewrite decide_True, He|by rewrite decide_False].
Qed.

Lemma own_hashed_perm ites bs bs' p :
  mjoin bs ≡ₚ p :: mjoin bs' → own ites p → own_hashed ites bs = S (own_hashed ites bs').
Proof.
  intros Hperm Ho. unfold own_hashed. rewrite Hperm, filter_cons_True by done. done.
Qed.

(** What [entry_move] needs and does: the hash tables stay right, the entry
    goes from one to the other. *)
Lemma entry_move_spec st l index tname p te :
  let s := st_space st in
  space_addr ≠ 0 → is_fast s = false → is_table_size s = tsize (st_table st) →
  is_tree_hash s = Z.of_nat (own_hashed (st_ites st) (st_buckets st)) →
  0 < index < tsize (st_table st) →
  local_hash (st_table st) → (¬ hashed (st_table st) index) →
  global_hash l (st_ites st) (st_buckets st) →
  st_ites st !! p = Some te → ite_name te = tname → ite_space te = space_addr →
  (p ∈ mjoin (st_buckets st) ↔ IE_BITS_TYPE (ite_bits te) = MACH_PORT_TYPE_SEND) →
  (∀ i, hashed (st_table st) i → p ∈ mjoin (st_buckets st) → object_at (st_table st) i ≠ ite_object te) →
  ∃ t' bs', entry_move st index tname p te = Ok
      (IST_ (set_is_tree_hash (set_is_table s t') (Z.of_nat (own_hashed (st_ites st) bs')))
         (st_ites st) bs' (st_clock st)) ∧
    moved (st_table st) t' index tname te ∧ local_hash t' ∧ global_hash l (st_ites st) bs' ∧
    (∀ i, hashed t' i ↔
       hashed (st_table st) i ∨ (i = index ∧ IE_BITS_TYPE (ite_bits te) = MACH_PORT_TYPE_SEND)) ∧
    (∀ q, q ∈ mjoin bs' ↔ q ∈ mjoin (st_buckets st) ∧ q ≠ p).
Proof.
  intros s Haddr Hfast Hsz Hcount Hidx Hl Hnh Hg Hp Htname Hsp Hsend Hdis. subst s.
  unfold entry_move. change (eset st (EP_table index) _) with
    (set_table st (move_table (st_table st) index tname te)).
  set (t1 := move_table (st_table st) index tname te).
  assert (moved (st_table st) t1 index tname te) as Hm1 by (apply move_table_moved; lia).
  assert (local_hash t1) as Hl1.
  { eapply local_hash_ext; [done|by apply Hm1|by intros; apply move_table_slot|].
    intros i Hi. unfold t1. rewrite move_table_object by lia. rewrite decide_False; [done|].
    by intros ->. }
  assert (∀ i, hashed t1 i ↔ hashed (st_table st) i) as Hh1.
  { intros i. apply hashed_ext; [by apply Hm1|by intros; apply move_table_slot]. }
  destruct (Z.eqb_spec (IE_BITS_TYPE (ite_bits te)) MACH_PORT_TYPE_SEND) as [Ht|Ht].
  2:{ exists t1, (st_buckets st). split_and!; [|done..| |].
      - f_equal. rewrite <-Hcount. by destruct st as [[]].
      - intros i. rewrite Hh1. tauto.
      - intros q. split; [|tauto]. intros Hq. split; [done|]. intros ->. tauto. }
  assert (p ∈ mjoin (st_buckets st)) as Hin by (by apply Hsend).
  assert (own (st_ites st) p) as Hown by (by rewrite own_iff).
  assert (∃ n, own_hashed (st_ites st) (st_buckets st) = S n) as (n & Hn).
  { unfold own_hashed. destruct (filter _ _) as [|x xs] eqn:E; [|by exists (length xs)].
    exfalso. assert (p ∈ filter (own (st_ites st)) (mjoin (st_buckets st))) as Hx
      by (by apply list_elem_of_filter). rewrite E in Hx. by apply elem_of_nil in Hx. }
  destruct (global_delete_spec (set_table st t1) l tname p te) as (bs' & Hdel & Hg' & Hperm);
    [done..| |done|]. { simpl. rewrite Hcount, Hn. lia. }
  simpl in Hperm. rewrite Hdel. ostep. simpl. rewrite Hsz.
  replace (tsize (st_table st)) with (tsize t1) by apply Hm1.
  assert (object_at t1 index = ite_object te) as Hobj.
  { unfold t1. rewrite move_table_object by lia. by rewrite decide_True. }
  destruct (local_insert_spec t1 index) as (t2 & Hrun & Hl2 & Hn2 & Hs2 & Hh2); [done| | | |].
  { destruct Hm1 as [-> _]. lia. }
  { rewrite Hobj. by destruct (gh_own _ _ _ Hg p te Hin Hp Hsp). }
  { intros k Hk%Hh1. rewrite Hobj. unfold t1. rewrite move_table_object by lia.
    rewrite decide_False; [|by intros ->]. auto. }
  rewrite Hobj in Hrun. rewrite Hrun. ostep. exists t2, bs'. split_and!; [|by eapply moved_same_entries|done..| |].
  - f_equal. unfold set_table, with_buckets, with_space. simpl. f_equal.
    rewrite Hcount, (own_hashed_perm _ (st_buckets st) bs' p) by done. unfold set_is_tree_hash, set_is_table. simpl.
    f_equal. lia.
  - intros i. rewrite Hh2, Hh1. tauto.
  - intros q. pose proof (gh_nodup _ _ _ Hg) as Hnd. rewrite <-Hperm in Hnd |- *.
    apply NoDup_cons in Hnd as [Hnd _]. rewrite elem_of_cons. split; [|tauto].
    intros Hq. split; [by right|]. by intros ->.
Qed.

(** *** The table after a move, collision bits aside *)

Lemma moved_bits t t' index tname te j :
  moved t t' index tname te → bits_at t' j =
    if decide (j = index) then Z.lor (ite_bits te) (MACH_PORT_GEN tname) else bits_at t j.
Proof.
  intros (_ & Hj & Hi). unfold bits_at. case_decide as Hd; [subst; by rewrite Hi|].
  rewrite (Hj j Hd). by destruct (tget t j).
Qed.
Lemma moved_next t t' index tname te j :
  moved t t' index tname te → j ≠ index → next_at t' j = next_at t j.
Proof. intros (_ & Hj & _) Hd. unfold next_at. rewrite (Hj j Hd). by destruct (tget t j). Qed.
Lemma moved_object t t' index tname te j :
  moved t t' index tname te → object_at t' j =
    if decide (j = index) then ite_object te else object_at t j.
Proof.
  intros (_ & Hj & Hi). unfold object_at. case_decide as Hd; [subst; by rewrite Hi|].
  rewrite (Hj j Hd). by destruct (tget t j).
Qed.

Section take_over.
Context (H : gset Z) (st : istate) (name tname p : Z) (te : ipc_tree_entry) (i : Z).
Context (t2 t3 : list ipc_entry) (bs' : list (list Z)) (tree : ipc_splay_tree Z).
Hypothesis Hw : space_wf H st.
Hypothesis Hd : denotes H st name (EP_table i).
Hypothesis Hnot : tname ∉ H.
Hypothesis Hnh : ¬ hashed (st_table st) i.
Hypothesis Hp : (tname, p) ∈ tree_elems st.
Hypothesis Hte : st_ites st !! p = Some te.
Hypothesis Hidx : MACH_PORT_INDEX tname = i.
Hypothesis Hwo : without (tree_elems st) tname p (elems tree).
Hypothesis Hmv : moved (st_table st) t2 i tname te.
Hypothesis Hsc : same_but_collisions t2 t3.
Hypothesis Hother : ∀ j, j ≠ i → bits_at t3 j = bits_at t2 j.
Hypothesis Hcol : collides (bits_at t3 i) = true ↔
  ∃ n, n ∈ (elems tree).*1 ∧ MACH_PORT_INDEX n = i.
Hypothesis Hl2 : local_hash t2.
Hypothesis Hg2 : global_hash (tree_elems st) (st_ites st) bs'.
Hypothesis Hh2 : ∀ j, hashed t2 j ↔
  hashed (st_table st) j ∨ (j = i ∧ IE_BITS_TYPE (ite_bits te) = MACH_PORT_TYPE_SEND).
Hypothesis Hb2 : ∀ q, q ∈ mjoin bs' ↔ q ∈ mjoin (st_buckets st) ∧ q ≠ p.

Lemma over_neq : tname ≠ name.
Proof.
  intros ->. pose proof (denotes_unique H st name _ (EP_tree p) Hw Hd Hp). done.
Qed.

Lemma over_entry : tree_entry_wf H tname te ∧ tname ∉ H.
Proof.
  destruct (tree_elem_ok _ _ _ _ Hw Hp) as (te' & Hte' & He). assert (te' = te) as -> by congruence.
  done.
Qed.

Lemma over_size : tsize t3 = tsize (st_table st).
Proof. rewrite (sh_size _ _ (sc_hash _ _ Hsc)). apply Hmv. Qed.

Lemma over_bits j : j ≠ i → bits_at t3 j = bits_at (st_table st) j.
Proof. intros Hj. rewrite Hother, (moved_bits _ _ _ _ _ _ Hmv), decide_False by done. done. Qed.

Lemma over_type : type_at t3 i = IE_BITS_TYPE (ite_bits te).
Proof.
  rewrite (sc_type _ _ _ Hsc). unfold type_at.
  rewrite (moved_bits _ _ _ _ _ _ Hmv), decide_True by done.
  apply TYPE_right_gen, is_gen_MACH_PORT_GEN.
Qed.

Lemma over_name : name_at t3 i = tname.
Proof.
  destruct over_entry as [(_ & _ & (Hu & _) & Hr & _) _]. rewrite (sc_name _ _ _ Hsc).
  unfold name_at. rewrite (moved_bits _ _ _ _ _ _ Hmv), decide_True by done.
  pose proof (space_wf_size _ _ Hw). destruct Hd.
  apply MAKEB_eq; [lia|done|]. split; [done|]. apply GEN_right_gen; [done|].
  apply is_gen_MACH_PORT_GEN.
Qed.

Lemma over_object j :
  object_at t3 j = if decide (j = i) then ite_object te else object_at (st_table st) j.
Proof. rewrite (sc_object _ _ _ Hsc). apply (moved_object _ _ _ _ _ _ Hmv). Qed.

Lemma over_in_hand j :
  0 < j < tsize (st_table st) → j ≠ i → name_at (st_table st) j ∉ H ∖ {[name]} ↔ name_at (st_table st) j ∉ H.
Proof.
  intros Hj Hne. pose proof (space_wf_size _ _ Hw). assert (name_at (st_table st) j ≠ name); [|set_solver].
  destruct Hd as (Hi & Hn & _). intros Heq. apply Hne.
  apply (name_at_inj (st_table st) (st_table st)); [lia..|congruence].
Qed.

Lemma over_name_at j : j ≠ i → name_at t3 j = name_at (st_table st) j.
Proof. intros Hj. unfold name_at. by rewrite over_bits. Qed.

Lemma over_table_wf : table_wf (H ∖ {[name]}) t3.
Proof.
  destruct over_entry as [(_ & _ & _ & _ & Hty) HtH]. specialize (Hty HtH).
  destruct Hd as (Hi & Hn & Hused).
  destruct (tw_free _ _ (sw_table _ _ Hw)) as (fl & Hl & Hnd & Hfl).
  assert (i ∉ fl) as Hifl by (rewrite Hfl, Hn; tauto).
  split.
  - rewrite over_bits by lia. apply (sw_table _ _ Hw).
  - unfold type_at. rewrite over_bits by lia. apply (sw_table _ _ Hw).
  - exists fl. split_and!; [|done|].
    + eapply threaded_ext; [done|]. intros j Hj. rewrite (sc_next _ _ _ Hsc).
      apply (moved_next _ _ _ _ _ _ Hmv). intros ->.
      apply elem_of_cons in Hj as [?|?]; [lia|done].
    + intros j. rewrite over_size, Hfl. split.
      * intros (Hj & Htj & Hnj). assert (j ≠ i) as Hne by (intros ->; rewrite Hn in Hnj; tauto).
        unfold type_at. rewrite over_name_at, over_bits by done. split_and!; [lia..|done|set_solver].
      * intros (Hj & Htj & Hnj). assert (j ≠ i) as Hne by (intros ->; by rewrite over_type in Htj).
        unfold type_at in Htj. rewrite over_name_at in Hnj by done. rewrite over_bits in Htj by done.
        split_and!; [lia..|done|]. by apply over_in_hand.
  - intros j. rewrite over_size. intros Hj Htj Hnj.
    assert (j ≠ i) as Hne by (intros ->; by rewrite over_type in Htj).
    unfold type_at in Htj. rewrite over_name_at in Hnj by done.
    rewrite over_object, decide_False, over_bits in * by done.
    apply (sw_table _ _ Hw); [done..|]. by apply over_in_hand.
Qed.

Lemma over_coll_wf : coll_wf (H ∖ {[name]}) t3 (elems tree).
Proof.
  pose proof (tree_elems_NoDup _ _ Hw) as Hnd. pose proof (space_wf_size _ _ Hw).
  destruct over_entry as [(_ & _ & _ & _ & Hty) HtH]. specialize (Hty HtH).
  split.
  - intros j. rewrite over_size. intros Hj. destruct (decide (j = i)) as [->|Hne]; [done|].
    rewrite over_bits, (cw_bit _ _ _ (sw_coll _ _ Hw)) by done.
    setoid_rewrite (without_names _ tname p (elems tree)); [|done..].
    split; [|naive_solver]. intros (n & Hin & <-). exists n. split_and!; [done| |done].
    intros ->. congruence.
  - intros n Hin Hr. rewrite over_size in Hr.
    apply (without_names _ _ _ _ _ Hnd Hwo) in Hin as [Hin Hne].
    destruct (decide (MACH_PORT_INDEX n = i)) as [->|Hni].
    + rewrite over_name, over_type. auto.
    + rewrite over_name_at by done. unfold type_at. rewrite over_bits by done.
      destruct (cw_used _ _ _ (sw_coll _ _ Hw) n Hin Hr) as [? [?|Hin']]; [by auto|]. split; [done|right].
      apply dec_stable. rewrite over_in_hand by done. tauto.
Qed.

Lemma over_hash_wf : hash_wf (H ∖ {[name]}) t3 (elems tree) (delete p (st_ites st)) bs'.
Proof.
  pose proof (tree_elems_NoDup _ _ Hw) as Hnd.
  destruct over_entry as [(_ & Hsp & _ & _ & _) HtH].
  pose proof (hw_global _ _ _ _ _ (sw_hash _ _ Hw)) as Hg.
  pose proof (λ j, hashed_ext t2 t3 j (sh_size _ _ (sc_hash _ _ Hsc)) (sh_slot _ _ (sc_hash _ _ Hsc)))
    as Hh3.
  assert (p ∉ mjoin bs') as Hpb by (rewrite Hb2; tauto).
  split.
  - eapply local_hash_ext; [done|apply Hsc..].
  - eapply global_hash_delete_ite; [done..|]. intros n q Hq Hne.
    apply (without_elem _ _ _ _ _ _ Hnd Hwo). split; [done|]. intros ->.
    apply Hne. by eapply tree_elem_unique.
  - intros j. rewrite over_size, Hh3, Hh2. intros Hj Hnj. destruct (decide (j = i)) as [->|Hne].
    + rewrite over_type. tauto.
    + rewrite over_name_at, over_in_hand in Hnj by done. unfold type_at. rewrite over_bits by done.
      rewrite (hw_type _ _ _ _ _ (sw_hash _ _ Hw)) by done. unfold type_at. naive_solver.
  - intros n q teq Hq Hteq Hnn. apply (without_elem _ _ _ _ _ _ Hnd Hwo) in Hq as [Hq Hne].
    assert (q ≠ p) as Hqp by (intros ->; by apply Hne, (tree_addr_unique H st _ _ p)).
    rewrite lookup_delete_ne in Hteq by done. rewrite Hb2.
    rewrite (hw_tree_type _ _ _ _ _ (sw_hash _ _ Hw) n q teq Hq Hteq); [tauto|].
    assert (n ≠ name); [|set_solver].
    intros ->. pose proof (denotes_unique H st name _ (EP_tree q) Hw Hd Hq). done.
  - intros j q. rewrite Hh3, Hh2, Hb2. intros Hj [Hq Hqp].
    rewrite own_delete, object_of_delete, over_object by done. intros Hown. case_decide as Hji.
    + destruct Hj as [Hj|[_ Hsend]]; [by subst|]. intros Heq. apply Hqp.
      apply (gh_unique _ _ _ Hg); [done| |done| |].
      * by apply (hw_tree_type _ _ _ _ _ (sw_hash _ _ Hw) tname p te).
      * by rewrite own_iff.
      * by rewrite (object_of_Some _ p te).
    + destruct Hj as [Hj|[? _]]; [|done]. by apply (hw_disjoint _ _ _ _ _ (sw_hash _ _ Hw)).
Qed.

Hypothesis Hsp : splay_wf tree.

Definition over_state : istate :=
  rebuild st t3 tree (is_tree_total (st_space st) - 1) (is_tree_small (st_space st))
    (Z.of_nat (own_hashed (st_ites st) bs')) (delete p (st_ites st)) bs'.

Lemma over_denotes n ep : n ≠ name → denotes H st n ep →
  denotes (H ∖ {[name]}) over_state n (if decide (n = tname) then EP_table i else ep) ∧ ep ≠ EP_table i.
Proof.
  pose proof (tree_elems_NoDup _ _ Hw) as Hnd. pose proof (space_wf_size _ _ Hw).
  intros Hne Hden. split.
  2:{ intros ->. destruct Hd as (_ & Hn & _), Hden as (_ & Hn' & _). congruence. }
  case_decide as Hnt.
  - subst n. destruct over_entry as [(_ & _ & _ & _ & Hty) _].
    simpl. change (st_table over_state) with t3. rewrite over_size, over_name, over_type.
    destruct Hd. auto.
  - destruct ep as [j|q].
    + assert (j ≠ i) as Hji.
      { intros ->. destruct Hd as (_ & Hn & _), Hden as (_ & Hn' & _). congruence. }
      destruct Hden as (Hj & Hn & Hor). simpl.
      change (st_table over_state) with t3. rewrite over_size, over_name_at by done. unfold type_at in *.
      rewrite over_bits by done. split_and!; [lia..|done|set_solver].
    + simpl in *. by apply (without_elem _ _ _ _ _ _ Hnd Hwo).
Qed.

Lemma over_wf : space_wf (H ∖ {[name]}) over_state.
Proof.
  pose proof (tree_elems_NoDup _ _ Hw) as Hnd. unfold over_state.
  assert (is_tree_total (st_space st) - 1 = Z.of_nat (length (elems tree))) as ->.
  { rewrite (sw_total _ _ Hw), (without_length _ _ _ _ Hwo). lia. }
  rewrite <-(own_hashed_delete _ _ p) by (rewrite Hb2; tauto).
  eapply rebuild_wf; [done|apply over_size| |apply over_table_wf|done| |apply over_coll_wf
    |apply over_hash_wf| |].
  - intros nsize Hns. destruct (space_wf_next _ _ Hw) as (ns & Hns' & _ & ->).
    assert (ns = nsize) as -> by congruence. rewrite over_size. do 2 f_equal. symmetry.
    eapply small_without_same; [done..|right]. destruct Hd. lia.
  - eapply tree_wf_sub; [eapply without_tree_wf; [apply Hw|done..]|].
    intros n (q & Hq)%elem_of_names Hnn. apply (without_elem _ _ _ _ _ _ Hnd Hwo) in Hq as [Hq Hne].
    assert (n ≠ name); [|set_solver].
    intros ->. pose proof (denotes_unique H st name _ (EP_tree q) Hw Hd Hq). done.
  - intros Hf. destruct Hwo as (l1 & l2 & Heq & _). rewrite (sw_fast _ _ Hw Hf) in Heq.
    by destruct l1.
  - intros n [Hin Hne%not_elem_of_singleton]%elem_of_difference. destruct (sw_hand _ _ Hw n Hin) as (? & ep & Hden).
    split; [done|]. eexists. by apply (over_denotes n ep).
Qed.

(** The entry at [i] after the move. *)
Lemma over_get_i : ∃ e, tget t3 i = Some e ∧ cap_of e = cap_of (ite_entry te).
Proof.
  destruct over_entry as [(_ & _ & _ & Hr & _) _]. destruct Hmv as (_ & _ & Hi).
  pose proof (sc_get _ _ Hsc i _ Hi) as He. eexists. split; [exact He|]. unfold cap_of. simpl.
  f_equal. rewrite (sc_right _ _ Hsc), <-(bits_at_get _ _ _ Hi). simpl.
  rewrite RIGHT_right_gen by (done || apply is_gen_MACH_PORT_GEN). done.
Qed.

Lemma over_get j e :
  j ≠ i → tget (st_table st) j = Some e → ∃ e', tget t3 j = Some e' ∧ cap_of e' = cap_of e.
Proof.
  intros Hj He. destruct Hmv as (_ & Ht2 & _). pose proof (Ht2 j Hj) as He2. rewrite He in He2.
  simpl in He2. pose proof (sc_get _ _ Hsc j _ He2) as He3. eexists. split; [exact He3|].
  unfold cap_of. simpl. f_equal. rewrite (sc_right _ _ Hsc), <-(bits_at_get _ _ _ He2). done.
Qed.

Lemma over_gone : gone H st over_state name.
Proof.
  pose proof over_wf as Hw'. pose proof (tree_elems_NoDup _ _ Hw) as Hnd.
  pose proof (space_wf_size _ _ Hw) as Hsz. apply gone_intro; [done..| | |].
  - destruct Hd as (Hi & <- & _). apply MAKEB_range. lia.
  - intros n ep e Hne Hden He. destruct (over_denotes n ep Hne Hden) as [Hden' Hepi].
    case_decide as Hnt.
    + subst n. assert (ep = EP_tree p) as -> by (by apply (denotes_unique H st tname)).
      simpl in He. rewrite Hte in He. injection He as <-.
      destruct over_get_i as (e & He & Hc). exists (EP_table i), e. split_and!; [done..|].
      by rewrite (denotes_index _ _ _ _ Hw Hd).
    + destruct ep as [j|q].
      * destruct (over_get j e) as (e' & He' & Hc); [congruence|done|]. by exists (EP_table j), e'.
      * exists (EP_tree q), e. split_and!; [done| |done|done]. simpl in *. rewrite lookup_delete_ne; [done|].
        intros <-. by apply Hnt, (tree_addr_unique H st _ _ p).
  - intros n [j|q]; simpl.
    + change (st_table over_state) with t3. rewrite over_size. intros (Hj & Hn & Hor).
      destruct (decide (j = i)) as [->|Hji].
      * rewrite over_name in Hn. subst n. split; [apply over_neq|]. by exists (EP_tree p).
      * rewrite over_name_at in Hn by done. unfold type_at in Hor. rewrite over_bits in Hor by done.
        split; [|exists (EP_table j); simpl; split_and!; [lia..|done|set_solver]].
        intros ->. destruct Hd as (Hi & Hn' & _). apply Hji.
        apply (name_at_inj (st_table st) (st_table st)); [lia..|congruence].
    + intros Hq. apply (without_elem _ _ _ _ _ _ Hnd Hwo) in Hq as [Hq _].
      split; [|by exists (EP_tree q)]. intros ->.
      pose proof (denotes_unique H st name _ (EP_tree q) Hw Hd Hq). done.
Qed.
End take_over.

Lemma pick_spec (s : ipc_splay_tree Z) :
  match ipc_splay_tree_pick s with
  | Some (n, e) => (n, e) ∈ elems s
  | None => elems s = []
  end.
Proof.
  destruct s as [sn [|l n e r] lt rt]; [done|]. simpl. rewrite elems_IST by done. elem_tauto.
Qed.

(** The tree split around the names with index [i]. *)
Lemma collisions_split H st i :
  space_wf H st → 0 < i < tsize (st_table st) →
  ∃ big c0 c small,
    ipc_splay_tree_split (is_tree (st_space st)) (MACH_PORT_MAKE (i + 1) 0) = Ok (big, c0) ∧
    ipc_splay_tree_split c0 (MACH_PORT_MAKE i 0) = Ok (c, small) ∧
    splay_wf big ∧ splay_wf c ∧ splay_wf small ∧
    tree_elems st = elems small ++ elems c ++ elems big ∧
    ∀ n p, (n, p) ∈ tree_elems st → (n, p) ∈ elems c ↔ MACH_PORT_INDEX n = i.
Proof.
  intros Hw Hi. pose proof (space_wf_size _ _ Hw) as Hsz.
  destruct (split_spec (is_tree (st_space st)) (MACH_PORT_MAKE (i + 1) 0))
    as (big & c0 & Hr0 & Hsb & Hsc0 & He0 & Hlow & Hhigh); [apply Hw|].
  destruct (split_spec c0 (MACH_PORT_MAKE i 0)) as (c & small & Hr1 & Hsc & Hss & He1 & Hlow1 & Hhigh1);
    [done|].
  fold (tree_elems st) in He0. rewrite He1, <-app_assoc in He0.
  exists big, c0, c, small. split_and!; [done..|]. intros n p Hn. split.
  - intros Hq. pose proof (proj2 (index_ge_iff_name_ge n i ltac:(lia)) (Hhigh1 _ Hq)).
    assert (¬ i + 1 ≤ MACH_PORT_INDEX n); [|lia].
    rewrite index_ge_iff_name_ge by lia. apply Z.nle_gt.
    apply (Hlow (n, p)). rewrite He1. elem_tauto.
  - intros Hni. rewrite He0 in Hn. repeat rewrite elem_of_app in Hn.
    destruct Hn as [Hx|[Hx|Hx]]; [|done|].
    + apply Hlow1 in Hx. simpl in Hx. exfalso. apply Z.lt_nge in Hx. apply Hx.
      apply index_ge_iff_name_ge; lia.
    + apply Hhigh in Hx. simpl in Hx. apply index_ge_iff_name_ge in Hx; lia.
Qed.

(** Putting the tree back together, after an entry of [c] has gone. *)
Lemma rejoin_spec st c small i :
  splay_wf (is_tree (st_space st)) → splay_wf c → splay_wf small →
  ordered (elems small ++ elems c ++ elems (is_tree (st_space st))) →
  0 ≤ i < tsize (st_table st) → collides (bits_at (st_table st) i) = false →
  ∃ t' tree, entry_rejoin st c small i = Ok (set_tree (set_table st t') tree) ∧
    splay_wf tree ∧ elems tree = elems small ++ elems c ++ elems (is_tree (st_space st)) ∧
    same_but_collisions (st_table st) t' ∧ (∀ j, j ≠ i → bits_at t' j = bits_at (st_table st) j) ∧
    (collides (bits_at t' i) = true ↔ elems c ≠ []).
Proof.
  intros Hs Hsc Hss Ho Hi Hcol. unfold entry_rejoin. pose proof (pick_spec c) as Hp.
  destruct (ipc_splay_tree_pick c) as [[n p]|].
  - simpl. destruct (join_spec (is_tree (st_space st)) c) as (tr & ? & -> & Htr & Hetr & _);
      [done..|by eapply ordered_app_r|]. ostep. simpl.
    destruct (join_spec tr small) as (tr' & ? & -> & Htr' & Hetr' & _); [done..|by rewrite Hetr|].
    ostep. exists (tmod (st_table st) i (λ e, set_ie_bits e (Z.lor (ie_bits e) IE_BITS_COLLISION))), tr'.
    rewrite Hetr', Hetr. split_and!; [done..|apply set_collision_same| |].
    + intros j Hj. rewrite (bits_at_mod _ _ (λ b, Z.lor b IE_BITS_COLLISION)) by done.
      by rewrite decide_False.
    + rewrite (bits_at_mod _ _ (λ b, Z.lor b IE_BITS_COLLISION)) by done.
      rewrite decide_True, collides_set_collision by done. split; [|done].
      intros _ Hn. rewrite Hn in Hp. by apply elem_of_nil in Hp.
  - ostep. rewrite Hp in Ho |- *. simpl in Ho.
    destruct (join_spec (is_tree (st_space st)) small) as (tr' & ? & -> & Htr' & Hetr' & _); [done..|].
    ostep. exists (st_table st), tr'. split_and!; [|done..|apply same_but_collisions_refl|done|].
    + by destruct st as [[]].
    + rewrite Hcol. done.
Qed.

Lemma dealloc_collision_spec H st name i e :
  space_wf H st → denotes H st name (EP_table i) → apart H name →
  tget (st_table st) i = Some e → ie_object e = IO_NULL → collides (ie_bits e) = true →
  ∃ st', entry_dealloc_collision st i = Ok st' ∧ gone H st st' name ∧
    ∃ n p, (n, p) ∈ tree_elems st ∧ MACH_PORT_INDEX n = i ∧ st_ites st' !! p = None.
Proof.
  intros Hw Hd Hsub He Ho Hc. pose proof (space_wf_size _ _ Hw) as Hsz.
  assert (0 < i < tsize (st_table st)) as Hi by apply Hd.
  rewrite (object_at_get _ _ _ He) in Ho. rewrite (bits_at_get _ _ _ He) in Hc.
  apply (cw_bit _ _ _ (sw_coll _ _ Hw)) in Hc as (m & Hm & Hmi); [|lia].
  pose proof Hm as (pm & Hpm)%elem_of_names.
  assert (¬ hashed (st_table st) i) as Hnh by (by apply null_not_hashed; [apply Hw|]).
  assert (is_fast (st_space st) = false) as Hfast.
  { destruct (is_fast (st_space st)) eqn:Hf; [|done]. rewrite (sw_fast _ _ Hw Hf) in Hpm.
    by apply elem_of_nil in Hpm. }
  unfold entry_dealloc_collision.
  destruct (collisions_split H st i Hw Hi)
    as (big & c0 & c & small & -> & Hsp2 & Hsb & Hsc & Hss & He0 & Hci). ostep.
  rewrite Hsp2. ostep.
  pose proof (proj2 (Hci m pm Hpm) Hmi) as Hmc.
  pose proof (pick_spec c) as Hpick. destruct (ipc_splay_tree_pick c) as [[tname p]|];
    [|rewrite Hpick in Hmc; by apply elem_of_nil in Hmc].
  assert ((tname, p) ∈ tree_elems st) as Hp by (rewrite He0; elem_tauto).
  pose proof (proj1 (Hci _ _ Hp) Hpick) as Hti. rewrite Hti, Z.eqb_refl. ostep.
  destruct (tree_elem_ok _ _ _ _ Hw Hp) as (te & Hte & Htn & Htsp & _ & Hright & _).
  change (st_ites (set_tree st big)) with (st_ites st). rewrite Hte. ostep.
  rewrite Htsp, Z.eqb_refl. ostep.
  assert (tname ∉ H) as HtH.
  { intros Hin. apply (Hsub tname Hin); [|by rewrite (denotes_index _ _ _ _ Hw Hd)].
    intros ->. pose proof (denotes_unique H st name _ (EP_tree p) Hw Hd Hp). done. }
  destruct (entry_move_spec (set_tree st big) (tree_elems st) i tname p te)
    as (t2 & bs' & -> & Hmv & Hl2 & Hg2 & Hh2 & Hb2);
    [apply (sw_addr _ _ Hw)|done|apply (sw_size _ _ Hw)|apply (sw_hashed _ _ Hw)|done
    |apply (sw_hash _ _ Hw)|done|apply (sw_hash _ _ Hw)|done..| | |].
  { apply (hw_tree_type _ _ _ _ _ (sw_hash _ _ Hw) tname p te Hp Hte HtH). }
  { intros j Hj Hin. rewrite <-(object_of_Some _ _ _ Hte).
    apply (hw_disjoint _ _ _ _ _ (sw_hash _ _ Hw)); [done..|]. by rewrite own_iff. }
  ostep. destruct (delete_spec c tname p) as (c' & l1 & l2 & Hdel & Hsc' & Hec & Hec'); [done..|].
  unfold tree_delete. rewrite Hdel. ostep. rewrite Z.eqb_refl. ostep.
  assert (0 < is_tree_total (st_space st)) as Htot by (by eapply tree_total_pos).
  unfold is_tree_total_decr. simpl. rewrite (proj2 (Z.ltb_lt _ _) Htot). cbn [kassert mbind outcome_bind].
  match goal with |- context [entry_rejoin ?s _ _ _] => set (st4 := s) end.
  assert (ordered (tree_elems st)) as Hord by apply (sw_splay _ _ Hw).
  rewrite He0, Hec in Hord.
  destruct (rejoin_spec st4 c' small i) as (t3 & tree & -> & Hst & Het & Hsame & Hother & Hcol); try done.
  { rewrite Hec'. change (is_tree (st_space st4)) with big.
    replace (elems small ++ (l1 ++ l2) ++ elems big)
      with ((elems small ++ l1) ++ (l2 ++ elems big)) by (by app_norm).
    apply (ordered_delete_list tname p). revert Hord. by app_norm. }
  { change (st_table st4) with t2. destruct Hmv as [-> _].
    change (st_table (set_tree st big)) with (st_table st). lia. }
  { change (st_table st4) with t2. rewrite (moved_bits _ _ _ _ _ _ Hmv), decide_True by done.
    apply collides_right_gen; [done|apply is_gen_MACH_PORT_GEN]. }
  change (is_tree (st_space st4)) with big in Het. change (st_table st4) with t2 in *.
  assert (without (tree_elems st) tname p (elems tree)) as Hwo.
  { exists (elems small ++ l1), (l2 ++ elems big). rewrite Het, He0, Hec, Hec'. split; by app_norm. }
  eexists. split; [done|]. split; [|exists tname, p; split_and!; [done..|apply lookup_delete_eq]].
  apply (over_gone H st name tname p te i t2 t3 bs' tree); try done.
  rewrite Hcol. split.
  - destruct (elems c') as [|[n q] l] eqn:Ec; [done|]. intros _. exists n.
    assert ((n, q) ∈ elems tree) as Hin by (rewrite Het; elem_tauto).
    split; [apply elem_of_names; eauto|].
    apply (without_elem _ _ _ _ _ _ (tree_elems_NoDup _ _ Hw) Hwo) in Hin as [Hin _].
    apply (Hci n q Hin). rewrite Hec. assert ((n, q) ∈ l1 ++ l2) as Hx by (rewrite <-Hec'; by left).
    rewrite elem_of_app in Hx. rewrite elem_of_app, elem_of_cons. tauto.
  - intros (n & (q & Hin)%elem_of_names & Hni) Hnil.
    apply (without_elem _ _ _ _ _ _ (tree_elems_NoDup _ _ Hw) Hwo) in Hin as [Hin Hne].
    apply (Hci n q Hin) in Hni. rewrite Hec in Hni. rewrite Hnil in Hec'.
    symmetry in Hec'. apply app_nil in Hec' as [-> ->]. simpl in Hni.
    apply list_elem_of_singleton in Hni. congruence.
Qed.

(** ** ipc_entry_dealloc *)

Lemma dealloc_spec H st name ep e :
  space_wf H st → is_active (st_space st) = true → apart H name → denotes H st name ep →
  eget st ep = Some e → ie_object e = IO_NULL → ie_request e = 0 →
  ∃ st', ipc_entry_dealloc st name ep = Ok st' ∧ gone H st st' name.
Proof.
  intros Hw Hact Hsub Hd He Ho Hr. pose proof (space_wf_size _ _ Hw) as Hsz.
  unfold ipc_entry_dealloc. rewrite Hact, He. ostep. rewrite Ho, Hr. ostep.
  rewrite (sw_size _ _ Hw). destruct ep as [i|p].
  - pose proof (denotes_index _ _ _ _ Hw Hd) as Hidx. rewrite Hidx.
    pose proof Hd as (Hi & Hn & _).
    assert (is_u32 name) as Hu by (rewrite <-Hn; apply MAKEB_range; lia).
    rewrite (proj2 (Z.ltb_lt _ _)), bool_decide_true by (done || lia). ostep.
    rewrite (proj1 (name_at_iff st i e name He (eq_sym Hidx) Hu) Hn), Z.eqb_refl. ostep.
    fold (collides (ie_bits e)).
    destruct (is_fast (st_space st)) eqn:Hf.
    + assert (collides (ie_bits e) = false) as Hc.
      { apply not_true_iff_false. rewrite (bits_at_get _ _ _ He).
        rewrite (cw_bit _ _ _ (sw_coll _ _ Hw)), (sw_fast _ _ Hw Hf) by lia.
        intros (n & Hin & _). by apply elem_of_nil in Hin. }
      unfold collides in Hc. apply negb_false_iff in Hc. rewrite Hc. ostep.
      eapply free_push_spec; [done..|]. unfold collides. by rewrite Hc.
    + destruct (collides (ie_bits e)) eqn:Hc.
      * destruct (dealloc_collision_spec H st name i e) as (st' & ? & ? & _); [done..|]. by exists st'.
      * by eapply free_push_spec.
  - destruct (is_fast (st_space st)) eqn:Hf.
    { simpl in Hd. rewrite (sw_fast _ _ Hw Hf) in Hd. by apply elem_of_nil in Hd. }
    rewrite bool_decide_false, andb_false_r by done. by eapply dealloc_tree_spec.
Qed.

(** The entry that takes over the place in the table is freed: when only one
    name collides, it is the entry of that name. *)
Lemma dealloc_frees H st name i e other p :
  space_wf H st → is_active (st_space st) = true → apart H name → denotes H st name (EP_table i) →
  tget (st_table st) i = Some e → ie_object e = IO_NULL → ie_request e = 0 →
  (other, p) ∈ tree_elems st → MACH_PORT_INDEX other = i →
  (∀ n q, (n, q) ∈ tree_elems st → MACH_PORT_INDEX n = i → n = other) →
  ∃ st', ipc_entry_dealloc st name (EP_table i) = Ok st' ∧ st_ites st' !! p = None.
Proof.
  intros Hw Hact Hsub Hd He Ho Hr Hp Hpi Honly.
  assert (collides (ie_bits e) = true) as Hc.
  { destruct Hd as (Hi & _). rewrite (bits_at_get _ _ _ He). apply (cw_bit _ _ _ (sw_coll _ _ Hw)); [lia|].
    exists other. split; [apply elem_of_names; eauto|done]. }
  destruct (dealloc_spec H st name (EP_table i) e) as (st1 & Hrun & _); [done..|].
  destruct (dealloc_collision_spec H st name i e) as (st2 & Hrun2 & _ & n & q & Hq & Hni & Hnone); [done..|].
  rewrite (Honly n q Hq Hni) in Hq.
  assert (q = p) as -> by (pose proof (denotes_unique H st other (EP_tree q) (EP_tree p) Hw Hq Hp); congruence).
  exists st1. split; [done|]. enough (st1 = st2) as -> by done.
  pose proof (denotes_index _ _ _ _ Hw Hd) as Hidx. revert Hrun. unfold ipc_entry_dealloc. rewrite Hact. cbn [eget]. rewrite He. ostep.
  rewrite Ho, Hr, Hidx. ostep. destruct (is_fast (st_space st)) eqn:Hf.
  { rewrite (sw_fast _ _ Hw Hf) in Hp. by apply elem_of_nil in Hp. }
  destruct (_ && _); [|done]. destruct (_ =? MACH_PORT_GEN name); [|done]. ostep. fold (collides (ie_bits e)). rewrite Hc, Hrun2. by intros [= ->].
Qed.

(** C2. ipc_entry_dealloc of a name whose right has been taken away never
    fails an assertion, keeps the invariant of the space (free list, tree,
    collision bits, both hash tables, counters), unbinds exactly that name,
    and leaves every other name with its capability, also when a colliding
    entry moves from the splay tree into the table. *)
Theorem entry_dealloc_correct H st name ep e :
  space_wf H st → is_active (st_space st) = true → H ⊆ {[name]} → denotes H st name ep →
  eget st ep = Some e → ie_object e = IO_NULL → ie_request e = 0 →
  ∃ st', ipc_entry_dealloc st name ep = Ok st' ∧ space_wf ∅ st' ∧
    space_view st' name = None ∧
    ∀ n, is_u32 n → n ≠ name → space_view st' n = space_view st n.
Proof.
  intros Hw Hact Hsub Hd He Ho Hr.
  pose proof (apart_sub H name Hsub) as Hap.
  destruct (dealloc_spec H st name ep e) as (st' & Hrun & Hg); [done..|].
  exists st'. rewrite <-(sub_singleton_minus H name Hsub). split_and!; [done|apply Hg..].
Qed.
End dealloc.
