(* ===== verification/IpcGrow.v ===== *)
(** * Growing the table (ipc/ipc_entry.c, ipc_entry_grow_table)

    The table is copied into a larger one, the reverse hash table in it is
    built anew, entries of the splay tree whose index is in the new part move
    into the table, and what is left of the new part joins the free list. *)

From stdpp Require Import prelude list gmap.
From S2P Require Import Prelude MachPort IpcSplay IpcTypes IpcHash IpcTable IpcEntry IpcInv.
From S2P Require Import IpcDealloc.

Section grow.
Context {W : iworld}.

Definition zero_entry : ipc_entry := IE 0 IO_NULL 0 0.

(** ** The copy *)

Lemma grow_copy_get t size j :
  tsize t ≤ size →
  tget (grow_copy t (tsize t) size) j =
    if decide (0 ≤ j < tsize t) then (λ e, set_ie_index e 0) <$> tget t j
    else if decide (tsize t ≤ j < size) then Some zero_entry else None.
Proof.
  intros Hsz. unfold grow_copy, tget, tsize in *. rewrite Nat2Z.id.
  rewrite (take_ge t) by lia. destruct (Z.leb_spec 0 j).
  2:{ rewrite !decide_False by lia. done. }
  destruct (decide (0 ≤ j < Z.of_nat (length t))) as [Hlt|Hge].
  - rewrite lookup_app_l by (rewrite length_fmap; lia). apply list_lookup_fmap.
  - rewrite lookup_app_r by (rewrite length_fmap; lia). rewrite length_fmap.
    destruct (decide (Z.of_nat (length t) ≤ j < size)) as [Hr|Hr].
    + apply lookup_replicate. split; [done|lia].
    + apply lookup_replicate_None. lia.
Qed.

Lemma grow_copy_size t size : tsize t ≤ size → tsize (grow_copy t (tsize t) size) = size.
Proof.
  intros Hsz. unfold grow_copy, tsize in *. rewrite Nat2Z.id.
  rewrite length_app, length_fmap, length_take, length_replicate. lia.
Qed.

Lemma grow_copy_slot t size j : tsize t ≤ size → slot (grow_copy t (tsize t) size) j = 0.
Proof.
  intros Hsz. unfold slot. rewrite grow_copy_get by done.
  repeat case_decide; [|done|done]. by destruct (tget t j).
Qed.

Lemma grow_copy_local_hash t size :
  tsize t ≤ size → local_hash (grow_copy t (tsize t) size).
Proof. intros Hsz. split; intros j; intros; by rewrite grow_copy_slot in * by done. Qed.

(** ** Rehashing the old entries *)

Lemma grow_rehash_spec H t l ites bs size :
  hash_wf ∅ t l ites bs → table_wf H t → tsize t ≤ size < 2 ^ 24 → 0 < tsize t →
  ∃ t', grow_rehash (grow_copy t (tsize t) size) (tsize t) size = Ok t' ∧
    local_hash t' ∧ tsize t' = size ∧ same_entries (grow_copy t (tsize t) size) t' ∧
    ∀ i, hashed t' i ↔ hashed t i.
Proof.
  intros Hh Ht Hsz Hpos. set (t0 := grow_copy t (tsize t) size).
  assert (tsize t0 = size) as Hn0 by (apply grow_copy_size; lia).
  assert (∀ i, hashed t i → 0 < i < tsize t ∧ object_at t i ≠ IO_NULL) as Hhashed.
  { intros i (Hi & j & Hj & <-). split; [by apply Hh|]. by apply (hw_local _ _ _ _ _ Hh). }
  assert (∀ i, 0 ≤ i < tsize t → object_at t0 i = object_at t i) as Hobj.
  { intros i Hi. unfold object_at, t0. rewrite grow_copy_get by lia. rewrite decide_True by done.
    by destruct (tget t i). }
  assert (∀ i, 0 ≤ i < tsize t → type_at t i = MACH_PORT_TYPE_SEND ↔ hashed t i) as Htype.
  { intros i Hi. destruct (decide (i = 0)) as [->|].
    - rewrite (tw_zero_type _ _ Ht). split; [done|]. intros [? _]%Hhashed. lia.
    - symmetry. apply (hw_type _ _ _ _ _ Hh); [lia|set_solver]. }
  destruct (ofold_inv (λ table i, e ← deref (tget table i);
      if IE_BITS_TYPE (ie_bits e) =? MACH_PORT_TYPE_SEND
      then ipc_hash_local_insert table size (ie_object e) i else Ok table)
    (λ ds t', local_hash t' ∧ tsize t' = size ∧ same_entries t0 t' ∧
       ∀ i, hashed t' i ↔ i ∈ ds ∧ hashed t i) (seqZ 0 (tsize t)) t0)
    as (t' & Hrun & Hl & Hn & Hs & Hiff).
  - split_and!; [apply grow_copy_local_hash; lia|done|apply same_entries_refl|].
    intros i. split; [|by intros [?%elem_of_nil _]].
    intros (Hi & j & _ & Hj). unfold t0 in Hj. rewrite grow_copy_slot in Hj by lia. congruence.
  - intros l1 i l2 t1 Hseq (Hl & Hn & Hs & Hiff).
    assert (i ∈ seqZ 0 (tsize t)) as Hi by (rewrite Hseq; set_solver).
    apply elem_of_seqZ in Hi.
    assert (i ∉ l1) as Hil1.
    { pose proof (NoDup_seqZ 0 (tsize t)) as Hnd. rewrite Hseq in Hnd.
      apply NoDup_app in Hnd as (_ & Hd & _). intros Hin. apply (Hd i Hin). by left. }
    assert (∀ j, object_at t1 j = object_at t0 j) as Hobj1.
    { intros j. unfold object_at. rewrite (Hs j). by destruct (tget t0 j). }
    destruct (tget_is_Some t i) as (e & He); [lia|].
    assert (tget t1 i = Some (set_ie_index e (slot t1 i))) as He1.
    { rewrite (Hs i). unfold t0. rewrite grow_copy_get, decide_True, He by lia. done. }
    rewrite He1. ostep. simpl. rewrite (bits_at_get _ _ _ He). fold (type_at t i).
    destruct (Z.eqb_spec (type_at t i) MACH_PORT_TYPE_SEND) as [Hty|Hty].
    + assert (hashed t i) as Hhi by (apply Htype; [lia|done]).
      destruct (Hhashed i Hhi) as [Hir Hio].
      assert (object_at t1 i = object_at t i) as Hoi by (rewrite Hobj1, Hobj by lia; done).
      destruct (local_insert_spec t1 i) as (t2 & Hrun & Hl2 & Hn2 & Hs2 & Hh2);
        [done|lia|by rewrite Hoi| |].
      { intros k [Hk1 Hk]%Hiff. rewrite Hoi, Hobj1, Hobj by (apply Hhashed in Hk; lia).
        intros Heq. destruct Hk as (? & jk & ? & <-), Hhi as (? & ji & ? & <-).
        apply Hil1. replace (slot t ji) with (slot t jk); [done|]. f_equal.
        by apply (lh_unique _ (hw_local _ _ _ _ _ Hh)). }
      rewrite Hoi, Hn, <-(object_at_get _ _ _ He) in Hrun. exists t2. split; [done|].
      split_and!; [done|congruence|by eapply same_entries_trans|].
      intros j. rewrite Hh2, Hiff, elem_of_app, list_elem_of_singleton. naive_solver.
    + exists t1. split; [done|]. split_and!; [done..|]. intros j.
      rewrite Hiff, elem_of_app, list_elem_of_singleton. split; [naive_solver|].
      intros [[?| ->] Hj]; [done|]. destruct Hty. by apply Htype.
  - exists t'. split; [exact Hrun|]. split_and!; [done..|].
    intros i. rewrite Hiff, elem_of_seqZ. split; [tauto|]. intros Hi. split; [|done].
    apply Hhashed in Hi. lia.
Qed.

(** ** Moving entries of the tree into the table

    [l] is the contents of the tree, [seen] the names handled so far; those,
    and the names with an index in the old part, are accounted for in the
    collision bits. *)

Definition accounted (osize : Z) (seen : list Z) (n : Z) : Prop :=
  MACH_PORT_INDEX n < osize ∨ n ∈ seen.

(** The capabilities in a table and a tree. *)
Definition contents (t : list ipc_entry) (l : list (Z * Z)) (ites : gmap Z ipc_tree_entry)
    (n : Z) (c : cap) : Prop :=
  (∃ j e, 0 < j < tsize t ∧ tget t j = Some e ∧ name_at t j = n ∧
     IE_BITS_TYPE (ie_bits e) ≠ 0 ∧ cap_of e = c) ∨
  (∃ p te, (n, p) ∈ l ∧ ites !! p = Some te ∧ cap_of (ite_entry te) = c).

Record grow_inv (osize : Z) (t : list ipc_entry) (l : list (Z * Z)) (seen : list Z)
    (ites : gmap Z ipc_tree_entry) (bs : list (list Z)) : Prop := {
  gi_nodup : NoDup l.*1;
  gi_tree : tree_wf ∅ l ites;
  gi_hash : hash_wf ∅ t l ites bs;
  gi_new j : osize ≤ j < tsize t →
    (bits_at t j = 0 ∧ object_at t j = IO_NULL) ∨ type_at t j ≠ 0;
  gi_bit j : 0 ≤ j < tsize t → collides (bits_at t j) = true ↔
    ∃ n, n ∈ l.*1 ∧ accounted osize seen n ∧ MACH_PORT_INDEX n = j;
  gi_used n : n ∈ l.*1 → accounted osize seen n → 0 < MACH_PORT_INDEX n < tsize t →
    type_at t (MACH_PORT_INDEX n) ≠ 0;
  gi_names j : 0 < j < tsize t → type_at t j ≠ 0 → name_at t j ∉ l.*1;
}.

(** The old part of the table keeps its entries. *)
Definition keeps_old (osize : Z) (t t' : list ipc_entry) : Prop :=
  tsize t' = tsize t ∧ ∀ j, j < osize → tget t' j = (λ e, set_ie_index e (slot t' j)) <$> tget t j.

Lemma keeps_old_trans osize t1 t2 t3 :
  keeps_old osize t1 t2 → keeps_old osize t2 t3 → keeps_old osize t1 t3.
Proof.
  intros [Hn Hj] [Hn' Hj']. split; [congruence|]. intros j Hlt.
  rewrite (Hj' j Hlt), (Hj j Hlt). by destruct (tget t1 j).
Qed.

Lemma contents_sc t t' l ites n c :
  same_but_collisions t t' → contents t' l ites n c ↔ contents t l ites n c.
Proof.
  intros Hs. unfold contents. rewrite (sh_size _ _ (sc_hash _ _ Hs)).
  apply or_iff_compat_r. split; intros (j & e & Hj & He & Hn & Ht & <-).
  - destruct (tget_is_Some t j) as (e0 & He0); [lia|].
    exists j, e0. rewrite (sc_name _ _ _ Hs) in Hn. split_and!; [lia..|done|done| |].
    + pose proof (sc_type t t' j Hs) as Hty. unfold type_at in Hty.
      rewrite (bits_at_get _ _ _ He0), <-Hty, <-(bits_at_get _ _ _ He). done.
    + symmetry. by eapply sc_cap.
  - destruct (tget_is_Some t' j) as (e0 & He0); [rewrite (sh_size _ _ (sc_hash _ _ Hs)); lia|].
    exists j, e0. rewrite (sc_name _ _ _ Hs). split_and!; [lia..|done|done| |by eapply sc_cap].
    pose proof (sc_type t t' j Hs) as Hty. unfold type_at in Hty.
    rewrite (bits_at_get _ _ _ He0), Hty, <-(bits_at_get _ _ _ He). done.
Qed.

Lemma step_collide osize t l seen ites bs n :
  grow_inv osize t l seen ites bs → n ∈ l.*1 → 0 < osize →
  osize ≤ MACH_PORT_INDEX n < tsize t → bits_at t (MACH_PORT_INDEX n) ≠ 0 →
  let t' := tmod t (MACH_PORT_INDEX n)
    (λ e, set_ie_bits e (Z.lor (ie_bits e) IE_BITS_COLLISION)) in
  grow_inv osize t' l (n :: seen) ites bs ∧ keeps_old osize t t' ∧
  ∀ m c, contents t' l ites m c ↔ contents t l ites m c.
Proof.
  intros Hg Hn Hos Hi Hb t'. set (i := MACH_PORT_INDEX n) in *.
  assert (same_but_collisions t t') as Hs by apply set_collision_same.
  assert (tsize t' = tsize t) as Hsz by apply Hs.
  assert (type_at t i ≠ 0) as Hti.
  { by destruct (gi_new _ _ _ _ _ _ Hg i Hi) as [[? _]|?]. }
  assert (∀ j, bits_at t' j = if decide (j = i) then Z.lor (bits_at t i) IE_BITS_COLLISION
    else bits_at t j) as Hbits.
  { intros j. unfold t'. by rewrite (bits_at_mod _ _ (λ b, Z.lor b IE_BITS_COLLISION)) by lia. }
  split_and!.
  - split.
    + apply Hg.
    + apply Hg.
    + eapply hash_wf_ext; [apply Hg|apply Hs| |set_solver]. intros j Hj _. left.
      rewrite (sc_type _ _ _ Hs). split; [set_solver|done].
    + intros j. rewrite Hsz, (sc_type _ _ _ Hs), (sc_object _ _ _ Hs), Hbits. intros Hj.
      case_decide; [subst; by right|]. by apply Hg.
    + intros j. rewrite Hsz, Hbits. intros Hj. case_decide as Hd.
      * subst j. rewrite collides_set_collision. split; [|done]. intros _.
        exists n. split_and!; [done|right; by left|done].
      * rewrite (gi_bit _ _ _ _ _ _ Hg j Hj). unfold accounted. setoid_rewrite elem_of_cons.
        split; [naive_solver|]. intros (m & Hm & Ha & Hmj). exists m. split_and!; [done| |done].
        destruct Ha as [?|[->|?]]; [by left|done|by right].
    + intros m Hm Ha. rewrite Hsz, (sc_type _ _ _ Hs). intros Hr.
      destruct Ha as [?|[->|?]%elem_of_cons]; [|done|].
      * apply (gi_used _ _ _ _ _ _ Hg m); [done|by left|done].
      * apply (gi_used _ _ _ _ _ _ Hg m); [done|by right|done].
    + intros j. rewrite Hsz, (sc_type _ _ _ Hs), (sc_name _ _ _ Hs). apply Hg.
  - split; [done|]. intros j Hj. unfold t', slot. rewrite tget_tmod_ne by lia.
    destruct (tget t j) as [[]|]; done.
  - intros m c. by apply contents_sc.
Qed.

Section step_move.
Context (osize : Z) (t t2 : list ipc_entry) (l l' : list (Z * Z)) (seen : list Z).
Context (ites : gmap Z ipc_tree_entry) (bs bs' : list (list Z)) (n p : Z) (te : ipc_tree_entry).
Let i : Z := MACH_PORT_INDEX n.
Hypothesis Hg : grow_inv osize t l seen ites bs.
Hypothesis Hpos : 0 < osize.
Hypothesis Hsz : tsize t < 2 ^ 24.
Hypothesis Hp : (n, p) ∈ l.
Hypothesis Hte : ites !! p = Some te.
Hypothesis Hi : osize ≤ i < tsize t.
Hypothesis Hzero : bits_at t i = 0.
Hypothesis Hwo : without l n p l'.
Hypothesis Hmv : moved t t2 i n te.
Hypothesis Hl2 : local_hash t2.
Hypothesis Hg2 : global_hash l ites bs'.
Hypothesis Hh2 : ∀ j, hashed t2 j ↔
  hashed t j ∨ (j = i ∧ IE_BITS_TYPE (ite_bits te) = MACH_PORT_TYPE_SEND).
Hypothesis Hb2 : ∀ q, q ∈ mjoin bs' ↔ q ∈ mjoin bs ∧ q ≠ p.

Lemma sm_entry : tree_entry_wf ∅ n te ∧ IE_BITS_TYPE (ite_bits te) ≠ 0.
Proof.
  destruct (gi_tree _ _ _ _ _ _ Hg n p Hp) as (te' & Hte' & He).
  assert (te' = te) as -> by congruence. split; [done|]. apply He. set_solver.
Qed.

Lemma sm_addr m q : (m, q) ∈ l → m ≠ n → q ≠ p.
Proof.
  intros Hq Hne ->. destruct (gi_tree _ _ _ _ _ _ Hg m p Hq) as (te' & Hte' & <- & _).
  destruct sm_entry as [(Hn & _) _]. congruence.
Qed.

Lemma sm_unique q : (n, q) ∈ l → q = p.
Proof.
  intros Hq. pose proof (gi_nodup _ _ _ _ _ _ Hg) as Hnd.
  pose proof (proj1 (elem_of_list_to_map (M := gmap Z) l n p Hnd) Hp).
  pose proof (proj1 (elem_of_list_to_map (M := gmap Z) l n q Hnd) Hq). congruence.
Qed.

Lemma sm_bits j : j ≠ i → bits_at t2 j = bits_at t j.
Proof. intros. by rewrite (moved_bits _ _ _ _ _ _ Hmv), decide_False. Qed.

Lemma sm_type : type_at t2 i = IE_BITS_TYPE (ite_bits te).
Proof.
  unfold type_at. rewrite (moved_bits _ _ _ _ _ _ Hmv), decide_True by done.
  apply TYPE_right_gen, is_gen_MACH_PORT_GEN.
Qed.

Lemma sm_name : name_at t2 i = n.
Proof.
  destruct sm_entry as [(_ & _ & (Hu & _) & Hr & _) _]. unfold name_at.
  rewrite (moved_bits _ _ _ _ _ _ Hmv), decide_True by done.
  apply MAKEB_eq; [lia|done|]. split; [done|]. apply GEN_right_gen; [done|].
  apply is_gen_MACH_PORT_GEN.
Qed.

Lemma sm_not_accounted m : m ∈ l.*1 → MACH_PORT_INDEX m = i → ¬ accounted osize seen m.
Proof.
  intros Hm Hmi Ha. assert (collides (bits_at t i) = true) as Hc.
  { apply (gi_bit _ _ _ _ _ _ Hg); [lia|eauto]. }
  by rewrite Hzero in Hc.
Qed.

Lemma sm_not_hashed : ¬ hashed t i.
Proof.
  rewrite (hw_type _ _ _ _ _ (gi_hash _ _ _ _ _ _ Hg)); [|lia|set_solver].
  unfold type_at. by rewrite Hzero.
Qed.

Lemma sm_hash_wf : hash_wf ∅ t2 l' (delete p ites) bs'.
Proof.
  pose proof (gi_nodup _ _ _ _ _ _ Hg) as Hnd. pose proof (gi_hash _ _ _ _ _ _ Hg) as Hh.
  destruct sm_entry as [(_ & Hsp & _) _].
  assert (tsize t2 = tsize t) as Hn2 by apply Hmv.
  assert (p ∉ mjoin bs') as Hpb by (rewrite Hb2; tauto).
  split.
  - done.
  - eapply global_hash_delete_ite; [done..|]. intros m q Hq Hne.
    apply (without_elem _ _ _ _ _ _ Hnd Hwo). split; [done|]. intros ->. by apply Hne, sm_unique.
  - intros j. rewrite Hn2, Hh2. intros Hj _. destruct (decide (j = i)) as [->|Hne].
    + rewrite sm_type. pose proof sm_not_hashed. tauto.
    + unfold type_at. rewrite sm_bits by done.
      rewrite (hw_type _ _ _ _ _ Hh) by (done || set_solver). unfold type_at. naive_solver.
  - intros m q teq Hq Hteq _. apply (without_elem _ _ _ _ _ _ Hnd Hwo) in Hq as [Hq Hne].
    pose proof (sm_addr m q Hq Hne) as Hqp. rewrite lookup_delete_ne in Hteq by done. rewrite Hb2.
    rewrite (hw_tree_type _ _ _ _ _ Hh m q teq Hq Hteq) by set_solver. tauto.
  - intros j q. rewrite Hh2, Hb2. intros Hj [Hq Hqp].
    rewrite own_delete, object_of_delete by done. rewrite (moved_object _ _ _ _ _ _ Hmv).
    intros Hown. case_decide as Hji.
    + destruct Hj as [Hj|[_ Hsend]]; [subst; by destruct sm_not_hashed|].
      intros Heq. apply Hqp. apply (gh_unique _ _ _ (hw_global _ _ _ _ _ Hh)); [done| |done| |].
      * apply (hw_tree_type _ _ _ _ _ Hh n p te Hp Hte); [set_solver|done].
      * by rewrite own_iff.
      * by rewrite (object_of_Some _ p te).
    + destruct Hj as [Hj|[? _]]; [|done]. by apply (hw_disjoint _ _ _ _ _ Hh).
Qed.

Lemma sm_inv : grow_inv osize t2 l' seen (delete p ites) bs'.
Proof.
  pose proof (gi_nodup _ _ _ _ _ _ Hg) as Hnd. destruct sm_entry as [_ Hty].
  assert (tsize t2 = tsize t) as Hn2 by apply Hmv.
  pose proof (λ m, without_names l n p l' m Hnd Hwo) as Hnames.
  split.
  - destruct Hwo as (l1 & l2 & -> & ->). rewrite fmap_app, fmap_cons, <-Permutation_middle in Hnd.
    rewrite fmap_app. by inv Hnd.
  - assert (tree_wf (∅ ∖ {[n]}) l' (delete p ites)) as Hx by (eapply without_tree_wf; [apply Hg|done..]).
    eapply tree_wf_sub; [exact Hx|]. set_solver.
  - apply sm_hash_wf.
  - intros j. rewrite Hn2. intros Hj. rewrite (moved_object _ _ _ _ _ _ Hmv). case_decide as Hd.
    + right. subst j. by rewrite sm_type.
    + unfold type_at. rewrite sm_bits by done. by apply Hg.
  - intros j. rewrite Hn2. intros Hj. destruct (decide (j = i)) as [->|Hne].
    + rewrite (moved_bits _ _ _ _ _ _ Hmv), decide_True by done.
      destruct sm_entry as [(_ & _ & _ & Hr & _) _].
      rewrite collides_right_gen by (done || apply is_gen_MACH_PORT_GEN). split; [done|].
      intros (m & [Hm _]%Hnames & Ha & Hmi). by destruct (sm_not_accounted m).
    + rewrite sm_bits, (gi_bit _ _ _ _ _ _ Hg) by done. setoid_rewrite Hnames.
      split; [|naive_solver]. intros (m & Hm & Ha & Hmj). exists m. split_and!; try done.
      intros ->. by apply Hne.
  - intros m [Hm Hmn]%Hnames Ha. rewrite Hn2. intros Hr.
    destruct (decide (MACH_PORT_INDEX m = i)) as [Heq|Hne]; [rewrite Heq; by rewrite sm_type|].
    unfold type_at. rewrite sm_bits by done. by apply (gi_used _ _ _ _ _ _ Hg m).
  - intros j. rewrite Hn2. intros Hj Htj Hin%Hnames. destruct (decide (j = i)) as [->|Hne].
    + rewrite sm_name in Hin. tauto.
    + unfold type_at, name_at in *. rewrite sm_bits in * by done.
      apply (gi_names _ _ _ _ _ _ Hg j Hj Htj), Hin.
Qed.

Lemma sm_keeps : keeps_old osize t t2.
Proof. destruct Hmv as (Hn2 & Hj & _). split; [done|]. intros j Hlt. apply Hj. lia. Qed.

Lemma sm_contents m c : contents t2 l' (delete p ites) m c ↔ contents t l ites m c.
Proof.
  pose proof (gi_nodup _ _ _ _ _ _ Hg) as Hnd. destruct sm_entry as [(_ & _ & _ & Hr & _) Hty].
  destruct Hmv as (Hn2 & Hget & Hgi).
  assert (cap_of (IE (Z.lor (ite_bits te) (MACH_PORT_GEN n)) (ite_object te)
    (ie_request (ite_entry te)) (slot t2 i)) = cap_of (ite_entry te)) as Hcap.
  { unfold cap_of. simpl. f_equal. rewrite RIGHT_right_gen by (done || apply is_gen_MACH_PORT_GEN). done. }
  unfold contents. rewrite Hn2. split.
  - intros [(j & e & Hj & He & Hn & Ht & <-)|(q & teq & Hq & Hteq & <-)].
    + destruct (decide (j = i)) as [->|Hne].
      * right. rewrite sm_name in Hn. subst m. rewrite Hgi in He. injection He as <-. eauto.
      * left. rewrite (Hget j Hne) in He. destruct (tget t j) as [e0|] eqn:E; [|done].
        injection He as <-. exists j, e0. unfold name_at in *. rewrite sm_bits in Hn by done. eauto.
    + right. apply (without_elem _ _ _ _ _ _ Hnd Hwo) in Hq as [Hq Hne].
      rewrite lookup_delete_ne in Hteq by (apply not_eq_sym; by eapply sm_addr). eauto.
  - intros [(j & e & Hj & He & Hn & Ht & <-)|(q & teq & Hq & Hteq & <-)].
    + left. assert (j ≠ i) as Hne.
      { intros ->. apply Ht. rewrite (bits_at_get _ _ _ He), Hzero. done. }
      exists j, (set_ie_index e (slot t2 j)). unfold name_at in *. rewrite sm_bits by done.
      rewrite (Hget j Hne), He. done.
    + destruct (decide (m = n)) as [->|Hne].
      * left. rewrite (sm_unique q Hq) in Hteq. assert (teq = te) as -> by congruence.
        exists i. eexists. split_and!; [lia..|exact Hgi|apply sm_name| |done].
        simpl. rewrite TYPE_right_gen by apply is_gen_MACH_PORT_GEN. done.
      * right. exists q, teq. rewrite lookup_delete_ne by (apply not_eq_sym; by eapply sm_addr).
        split_and!; [|done|done]. by apply (without_elem _ _ _ _ _ _ Hnd Hwo).
Qed.
End step_move.

(** The state while entries move: [is_tree_total] and [is_tree_hash] follow. *)
Definition gstate (st : istate) (t : list ipc_entry) (l : list (Z * Z))
    (ites : gmap Z ipc_tree_entry) (bs : list (list Z)) : istate :=
  rebuild st t (is_tree (st_space st)) (Z.of_nat (length l)) (is_tree_small (st_space st))
    (Z.of_nat (own_hashed ites bs)) ites bs.

Section move_loop.
Context (st : istate) (osize : Z).
Hypothesis Haddr : space_addr ≠ 0.
Hypothesis Hfast : is_fast (st_space st) = false.
Hypothesis Hpos : 0 < osize.
Hypothesis Hrange : is_table_size (st_space st) < 2 ^ 24.

(** One round of the traversal keeps the entry or moves it. *)
Lemma grow_move_spec t l l' seen ites bs n p :
  grow_inv osize t l seen ites bs → tsize t = is_table_size (st_space st) →
  (n, p) ∈ l → without l n p l' → osize ≤ MACH_PORT_INDEX n < tsize t →
  ∃ t' ites' bs' del seen',
    grow_move osize (tsize t) (gstate st t l ites bs) n p =
      Ok (gstate st t' (if del : bool then l' else l) ites' bs', del) ∧
    grow_inv osize t' (if del then l' else l) seen' ites' bs' ∧
    seen ⊆ seen' ∧ (del = false → n ∈ seen') ∧ keeps_old osize t t' ∧ ites' ⊆ ites ∧
    ∀ m c, contents t' (if del then l' else l) ites' m c ↔ contents t l ites m c.
Proof.
  intros Hg Hn Hp Hwo Hi.
  destruct (gi_tree _ _ _ _ _ _ Hg n p Hp) as (te & Hte & Hten & Htesp & Hok & Hr & Hty).
  specialize (Hty ltac:(set_solver)).
  destruct (tget_is_Some t (MACH_PORT_INDEX n)) as (e & He); [lia|].
  unfold grow_move. change (st_ites (gstate st t l ites bs)) with ites. rewrite Hte. ostep.
  rewrite Hten, Htesp, Z.eqb_refl. ostep.
  rewrite (proj2 (Z.leb_le _ _)), (proj2 (Z.ltb_lt _ _)) by lia. ostep.
  change (st_table (gstate st t l ites bs)) with t. rewrite He. ostep.
  rewrite (bits_at_get _ _ _ He). destruct (Z.eqb_spec (bits_at t (MACH_PORT_INDEX n)) 0) as [Hz|Hz].
  - ostep. rewrite (proj2 (Z.eqb_neq _ MACH_PORT_TYPE_NONE)) by done. ostep.
    destruct (entry_move_spec (gstate st t l ites bs) l (MACH_PORT_INDEX n) n p te)
      as (t2 & bs' & -> & Hmv & Hl2 & Hg2 & Hh2 & Hb2); try done.
    { change (st_table (gstate st t l ites bs)) with t. lia. }
    { apply Hg. }
    { change (st_table (gstate st t l ites bs)) with t.
      rewrite (hw_type _ _ _ _ _ (gi_hash _ _ _ _ _ _ Hg)); [|lia|set_solver].
      unfold type_at. by rewrite Hz. }
    { apply Hg. }
    { apply (hw_tree_type _ _ _ _ _ (gi_hash _ _ _ _ _ _ Hg) n p te Hp Hte). set_solver. }
    { intros j Hj Hin. rewrite <-(object_of_Some _ _ _ Hte).
      apply (hw_disjoint _ _ _ _ _ (gi_hash _ _ _ _ _ _ Hg)); [done..|]. by rewrite own_iff. }
    ostep. exists t2, (delete p ites), bs', true, seen.
    assert (p ∉ mjoin bs') as Hpb by (rewrite Hb2; tauto).
    change (st_table (gstate st t l ites bs)) with t in *.
    change (st_ites (gstate st t l ites bs)) with ites in *.
    change (st_buckets (gstate st t l ites bs)) with bs in *.
    assert (tsize t < 2 ^ 24) as Hsz by lia.
    split_and!; [|by eapply (sm_inv osize t t2 l l' seen ites bs bs' n p te)|done|done
      |by eapply sm_keeps|apply delete_subseteq|by eapply (sm_contents osize t t2 l l' seen ites bs bs' n p te)].
    assert (Z.of_nat (length l') = Z.of_nat (length l) - 1) as Hlen.
    { rewrite (without_length _ _ _ _ Hwo). lia. }
    unfold gstate. rewrite Hlen, own_hashed_delete by done. reflexivity.
  - ostep. assert (type_at t (MACH_PORT_INDEX n) ≠ 0) as Htt.
    { by destruct (gi_new _ _ _ _ _ _ Hg (MACH_PORT_INDEX n) Hi) as [[? _]|?]. }
    fold (type_at t (MACH_PORT_INDEX n)). rewrite (proj2 (Z.eqb_neq _ 0)) by done. ostep.
    rewrite (proj2 (Z.eqb_neq _ (MACH_PORT_GEN n))).
    2:{ intros Hgen. apply (gi_names _ _ _ _ _ _ Hg (MACH_PORT_INDEX n)); [lia|done|].
        assert (name_at t (MACH_PORT_INDEX n) = n) as ->; [|apply elem_of_names; eauto].
        apply MAKEB_eq; [lia|apply Hok|done]. }
    ostep.
    destruct (step_collide osize t l seen ites bs n) as (Hg' & Hk & Hc);
      [done|apply elem_of_names; eauto|done..|].
    exists (tmod t (MACH_PORT_INDEX n)
      (λ e, set_ie_bits e (Z.lor (ie_bits e) IE_BITS_COLLISION))), ites, bs, false, (n :: seen).
    split; [reflexivity|]. split; [exact Hg'|]. split; [set_solver|].
    split; [intros _; by left|]. split; [exact Hk|]. split; [done|exact Hc].
Qed.

Lemma move_fold mv :
  ∀ A B t seen ites bs,
  grow_inv osize t (A ++ mv ++ B) seen ites bs → tsize t = is_table_size (st_space st) →
  (∀ q, q ∈ mv → osize ≤ MACH_PORT_INDEX q.1 < tsize t) →
  ∃ t' kept ites' bs' seen',
    fold_elems (grow_move osize (tsize t)) (gstate st t (A ++ mv ++ B) ites bs) mv =
      Ok (gstate st t' (A ++ kept ++ B) ites' bs', kept) ∧
    grow_inv osize t' (A ++ kept ++ B) seen' ites' bs' ∧
    seen ⊆ seen' ∧ (∀ n, n ∈ kept.*1 → n ∈ seen') ∧ keeps_old osize t t' ∧ ites' ⊆ ites ∧
    ∀ m c, contents t' (A ++ kept ++ B) ites' m c ↔ contents t (A ++ mv ++ B) ites m c.
Proof.
  induction mv as [|[n p] mv IH]; intros A B t seen ites bs Hg Hn Hr.
  { exists t, [], ites, bs, seen. split_and!; try done.
    - intros n Hin. by apply elem_of_nil in Hin.
    - split; [done|]. intros j _. unfold slot. destruct (tget t j) as [[]|]; done. }
  assert (without (A ++ ((n, p) :: mv) ++ B) n p (A ++ mv ++ B)) as Hwo.
  { by exists A, (mv ++ B). }
  assert ((n, p) ∈ A ++ ((n, p) :: mv) ++ B) as Hp by elem_tauto.
  destruct (grow_move_spec t _ _ seen ites bs n p Hg Hn Hp Hwo)
    as (t1 & ites1 & bs1 & del & seen1 & Hrun & Hg1 & Hs1 & Hseen1 & Hk1 & Hi1 & Hc1).
  { apply (Hr (n, p)). by left. }
  assert (tsize t1 = tsize t) as Hn1 by apply Hk1.
  assert (∀ q, q ∈ mv → osize ≤ MACH_PORT_INDEX q.1 < tsize t1) as Hr1.
  { intros q Hq. rewrite Hn1. apply Hr. by right. }
  simpl fold_elems. change ((n, p) :: mv ++ B) with (((n, p) :: mv) ++ B). rewrite Hrun. ostep.
  destruct del.
  - destruct (IH A B t1 seen1 ites1 bs1 Hg1 ltac:(congruence) Hr1)
      as (t2 & kept & ites2 & bs2 & seen2 & Hrun2 & Hg2 & Hs2 & Hseen2 & Hk2 & Hi2 & Hc2).
    rewrite Hn1 in Hrun2. rewrite Hrun2. ostep.
    exists t2, kept, ites2, bs2, seen2. split_and!; [done..|set_solver|done| | |].
    + by eapply keeps_old_trans.
    + by etrans.
    + intros m c. by rewrite Hc2, Hc1.
  - assert (A ++ ((n, p) :: mv) ++ B = (A ++ [(n, p)]) ++ mv ++ B) as Heq by (by app_norm).
    rewrite Heq in *.
    destruct (IH (A ++ [(n, p)]) B t1 seen1 ites1 bs1 Hg1 ltac:(congruence) Hr1)
      as (t2 & kept & ites2 & bs2 & seen2 & Hrun2 & Hg2 & Hs2 & Hseen2 & Hk2 & Hi2 & Hc2).
    rewrite Hn1 in Hrun2. rewrite Hrun2. ostep.
    assert ((A ++ [(n, p)]) ++ kept ++ B = A ++ ((n, p) :: kept) ++ B) as Heq' by (by app_norm).
    rewrite Heq' in *.
    exists t2, ((n, p) :: kept), ites2, bs2, seen2. split_and!; [done..|set_solver| | | |].
    + intros m. simpl. intros [->|Hm]%elem_of_cons; [set_solver|by apply Hseen2].
    + by eapply keeps_old_trans.
    + by etrans.
    + intros m c. by rewrite Hc2, Hc1.
Qed.
End move_loop.

(** ** Counting the indices of the next size *)

Definition index_set (l : list (Z * Z)) : gset Z := list_to_set (MACH_PORT_INDEX ∘ fst <$> l).

Lemma elem_of_index_set l i : i ∈ index_set l ↔ ∃ n, n ∈ l.*1 ∧ MACH_PORT_INDEX n = i.
Proof.
  unfold index_set. rewrite elem_of_list_to_set, list_elem_of_fmap. split.
  - intros ([n p] & -> & Hin). exists n. split; [|done]. apply elem_of_names. eauto.
  - intros (n & (p & Hin)%elem_of_names & <-). by exists (n, p).
Qed.

Lemma size_index_set_le l : (size (index_set l) ≤ length l)%nat.
Proof.
  induction l as [|q l IH]; [done|].
  assert (index_set (q :: l) = {[MACH_PORT_INDEX q.1]} ∪ index_set l) as -> by done.
  rewrite size_union_alt, size_singleton.
  assert (size (index_set l ∖ {[MACH_PORT_INDEX q.1]}) ≤ size (index_set l))%nat
    by (apply subseteq_size; set_solver). simpl. lia.
Qed.

Lemma size_add_new (x : Z) (X : gset Z) : size ({[x]} ∪ (X ∖ {[x]})) = S (size (X ∖ {[x]})).
Proof. rewrite size_union by set_solver. by rewrite size_singleton. Qed.

Lemma INDEX_mono n m : n ≤ m → MACH_PORT_INDEX n ≤ MACH_PORT_INDEX m.
Proof. intros. rewrite !MACH_PORT_INDEX_arith. apply Z.div_le_mono; lia. Qed.

(** The traversal counts the indices that differ from the last one. *)
Lemma count_fold st l c idx :
  ordered l → (∀ n p, (n, p) ∈ l → ∃ te, st_ites st !! p = Some te ∧ ite_name te = n) →
  (∀ n, n ∈ l.*1 → idx ≤ MACH_PORT_INDEX n) →
  ∃ idx', fold_elems (grow_count st) (c, idx) l =
    Ok (c + Z.of_nat (size (index_set l ∖ {[idx]})), idx', l).
Proof.
  revert c idx. induction l as [|[n p] l IH]; intros c idx Ho He Hge.
  { exists idx. assert (index_set [] ∖ {[idx]} = (∅ : gset Z)) as -> by set_solver.
    rewrite size_empty, Z.add_0_r. done. }
  rewrite ordered_cons in Ho. destruct Ho as [Ha Ho]. simpl in Ha.
  destruct (He n p) as (te & Hte & Hn); [by left|].
  assert (∀ m q, (m, q) ∈ l → ∃ te, st_ites st !! q = Some te ∧ ite_name te = m) as He'.
  { intros m q Hq. apply He. by right. }
  assert (∀ m, m ∈ l.*1 → MACH_PORT_INDEX n ≤ MACH_PORT_INDEX m) as Hmono.
  { intros m (q & Hq)%elem_of_names. specialize (Ha _ Hq). simpl in Ha. apply INDEX_mono. lia. }
  pose proof (Hge n ltac:(by left)) as Hidx.
  simpl. rewrite Hte. ostep. rewrite Hn.
  destruct (Z.eqb_spec (MACH_PORT_INDEX n) idx) as [Heq|Hne]; ostep.
  - destruct (IH c idx) as (idx' & ->); [done..| |].
    { intros m Hm. apply Hge. by right. }
    ostep. exists idx'.
    assert (index_set ((n, p) :: l) ∖ {[idx]} = index_set l ∖ {[idx]}) as ->; [|done].
    change (index_set ((n, p) :: l)) with ({[MACH_PORT_INDEX n]} ∪ index_set l).
    rewrite Heq. set_solver.
  - destruct (IH (c + 1) (MACH_PORT_INDEX n)) as (idx' & ->); [done..|].
    ostep. exists idx'.
    assert (index_set ((n, p) :: l) ∖ {[idx]} =
      {[MACH_PORT_INDEX n]} ∪ (index_set l ∖ {[MACH_PORT_INDEX n]})) as ->.
    { assert (idx ∉ index_set l) as Hni.
      { rewrite elem_of_index_set. intros (m & Hm%Hmono & <-). lia. }
      change (index_set ((n, p) :: l)) with ({[MACH_PORT_INDEX n]} ∪ index_set l).
      apply set_eq. intros x. destruct (decide (x = MACH_PORT_INDEX n)); set_solver. }
    rewrite size_add_new. do 3 f_equal. lia.
Qed.

Lemma small_set_index l lo hi :
  (∀ n, n ∈ l.*1 → lo ≤ MACH_PORT_INDEX n < hi) → small_set l lo hi = index_set l.
Proof.
  intros Hr. apply set_eq. intros i. rewrite elem_of_small_set, elem_of_index_set.
  split; [tauto|]. intros (n & Hn & <-). eauto.
Qed.

Lemma size_index_set_range l lo hi :
  (∀ n, n ∈ l.*1 → lo ≤ MACH_PORT_INDEX n < hi) → lo ≤ hi →
  Z.of_nat (size (index_set l)) ≤ hi - lo.
Proof.
  intros Hr Hle. assert (index_set l ⊆ list_to_set (seqZ lo (hi - lo))) as Hsub.
  { intros i (n & Hn & <-)%elem_of_index_set. apply elem_of_list_to_set, elem_of_seqZ.
    specialize (Hr n Hn). lia. }
  apply subseteq_size in Hsub. rewrite size_list_to_set in Hsub by apply NoDup_seqZ.
  rewrite length_seqZ in Hsub. lia.
Qed.

(** ** grow_transfer *)

(** The tree divides by index into what is ignored, what moves, what counts
    and what is beyond the next size. *)
Lemma grow_split st osize size nsize :
  splay_wf (is_tree (st_space st)) → 0 ≤ osize ≤ size → size ≤ nsize < 2 ^ 24 →
  ∃ big r1 small r2 move ignore,
    ipc_splay_tree_split (is_tree (st_space st)) (MACH_PORT_MAKE nsize 0) = Ok (big, r1) ∧
    ipc_splay_tree_split r1 (MACH_PORT_MAKE size 0) = Ok (small, r2) ∧
    ipc_splay_tree_split r2 (MACH_PORT_MAKE osize 0) = Ok (move, ignore) ∧
    splay_wf big ∧ splay_wf small ∧ splay_wf move ∧ splay_wf ignore ∧
    tree_elems st = elems ignore ++ elems move ++ elems small ++ elems big ∧
    (∀ n, n ∈ (elems ignore).*1 → MACH_PORT_INDEX n < osize) ∧
    (∀ n, n ∈ (elems move).*1 → osize ≤ MACH_PORT_INDEX n < size) ∧
    (∀ n, n ∈ (elems small).*1 → size ≤ MACH_PORT_INDEX n < nsize) ∧
    (∀ n, n ∈ (elems big).*1 → nsize ≤ MACH_PORT_INDEX n).
Proof.
  intros Hs Hos Hns.
  assert (∀ x (l : list (Z * Z)), 0 ≤ x < 2 ^ 24 → below (MACH_PORT_MAKE x 0) l →
    ∀ n, n ∈ l.*1 → MACH_PORT_INDEX n < x) as Hbelow.
  { intros x l Hx Hb n (p & Hp)%elem_of_names. apply Hb in Hp. simpl in Hp.
    apply Z.nle_gt. rewrite index_ge_iff_name_ge by done. lia. }
  assert (∀ x (l : list (Z * Z)), 0 ≤ x < 2 ^ 24 → (∀ p, p ∈ l → MACH_PORT_MAKE x 0 ≤ p.1) →
    ∀ n, n ∈ l.*1 → x ≤ MACH_PORT_INDEX n) as Habove.
  { intros x l Hx Ha n (p & Hp)%elem_of_names. apply Ha in Hp. simpl in Hp.
    by apply index_ge_iff_name_ge. }
  destruct (split_spec (is_tree (st_space st)) (MACH_PORT_MAKE nsize 0))
    as (big & r1 & Hr1 & Hsb & Hs1 & He1 & Hlo1 & Hhi1); [done|].
  destruct (split_spec r1 (MACH_PORT_MAKE size 0))
    as (small & r2 & Hr2 & Hss & Hs2 & He2 & Hlo2 & Hhi2); [done|].
  destruct (split_spec r2 (MACH_PORT_MAKE osize 0))
    as (move & ignore & Hr3 & Hsm & Hs3 & He3 & Hlo3 & Hhi3); [done|].
  exists big, r1, small, r2, move, ignore. rewrite He2, He3 in He1.
  rewrite He2, He3, !below_app in Hlo1. rewrite He3, below_app in Hlo2. destruct_and?.
  assert (∀ n, n ∈ (elems move).*1 → osize ≤ MACH_PORT_INDEX n) by (apply Habove; [lia|done]).
  assert (∀ n, n ∈ (elems move).*1 → MACH_PORT_INDEX n < size) by (apply Hbelow; [lia|done]).
  assert (∀ n, n ∈ (elems small).*1 → size ≤ MACH_PORT_INDEX n) by (apply Habove; [lia|done]).
  assert (∀ n, n ∈ (elems small).*1 → MACH_PORT_INDEX n < nsize) by (apply Hbelow; [lia|done]).
  split_and!; try done; auto; [|apply Hbelow; [lia|done]|apply Habove; [lia|done]].
  unfold tree_elems. rewrite He1. by app_norm.
Qed.

Lemma gstate_id st tree :
  is_tree_total (st_space st) = Z.of_nat (length (tree_elems st)) →
  is_tree_hash (st_space st) = Z.of_nat (own_hashed (st_ites st) (st_buckets st)) →
  set_tree st tree =
    gstate (set_tree st tree) (st_table st) (tree_elems st) (st_ites st) (st_buckets st).
Proof. intros Ht Hh. unfold gstate. rewrite <-Ht, <-Hh. by destruct st as [[]]. Qed.

Lemma grow_transfer_spec st osize nsize :
  let t := st_table st in
  space_addr ≠ 0 → is_fast (st_space st) = false → 0 < osize ≤ tsize t → tsize t ≤ nsize < 2 ^ 24 →
  is_table_size (st_space st) = tsize t → splay_wf (is_tree (st_space st)) →
  grow_inv osize t (tree_elems st) [] (st_ites st) (st_buckets st) →
  is_tree_total (st_space st) = Z.of_nat (length (tree_elems st)) →
  is_tree_hash (st_space st) = Z.of_nat (own_hashed (st_ites st) (st_buckets st)) →
  ∃ t' tree ites bs seen,
    grow_transfer st osize (tsize t) nsize =
      Ok (rebuild st t' tree (Z.of_nat (length (elems tree)))
        (Z.of_nat (size (small_set (elems tree) (tsize t) nsize)))
        (Z.of_nat (own_hashed ites bs)) ites bs) ∧
    splay_wf tree ∧ grow_inv osize t' (elems tree) seen ites bs ∧
    (∀ n, n ∈ (elems tree).*1 → MACH_PORT_INDEX n < tsize t → accounted osize seen n) ∧
    keeps_old osize t t' ∧ ites ⊆ st_ites st ∧
    ∀ m c, contents t' (elems tree) ites m c ↔ contents t (tree_elems st) (st_ites st) m c.
Proof.
  intros t Haddr Hfast Hos Hns Hsz Hs Hg Htot Hhash. subst t.
  destruct (grow_split st osize (tsize (st_table st)) nsize)
    as (big & r1 & small & r2 & move & ignore & Hr1 & Hr2 & Hr3 & Hsb & Hss & Hsm & Hsi & Hl
        & Hidx1 & Hidx2 & Hidx3 & Hidx4); [done|lia|lia|].
  unfold grow_transfer. rewrite Hr1. ostep. rewrite Hr2. ostep. rewrite Hr3. ostep.
  rewrite (gstate_id st big) by done. rewrite Hl in Hg. rewrite Hl.
  destruct (move_fold (set_tree st big) osize Haddr Hfast ltac:(lia) ltac:(simpl; lia)
    (elems move) (elems ignore) (elems small ++ elems big) (st_table st) [] (st_ites st)
    (st_buckets st) Hg) as (t1 & kept & ites1 & bs1 & seen & Hrun & Hg1 & _ & Hseen & Hk & Hsub1 & Hc);
    [done| |].
  { intros q Hq. apply Hidx2. apply elem_of_names. exists q.2. by destruct q. }
  assert (length (elems move) ≤ Z.to_nat (is_tree_total (st_space st)))%nat as Hf1.
  { rewrite Htot, Hl, !length_app. lia. }
  pose proof (traverse_spec (grow_move osize (tsize (st_table st))) (Z.to_nat (is_tree_total (st_space st)))
    (gstate (set_tree st big) (st_table st) (elems ignore ++ elems move ++ elems small ++ elems big)
       (st_ites st) (st_buckets st)) move Hsm Hf1) as Htr.
  pose proof (fold_elems_sublist _ _ _ _ _ Hrun) as Hsub.
  rewrite Hrun in Htr. destruct Htr as (move' & -> & Hsm' & Hem). ostep.
  set (st1 := gstate (set_tree st big) t1 (elems ignore ++ kept ++ elems small ++ elems big) ites1 bs1).
  assert (length (elems small) ≤ Z.to_nat (is_tree_total (st_space st)))%nat as Hf2.
  { rewrite Htot, Hl, !length_app. lia. }
  destruct (count_fold st1 (elems small) 0 0) as (idx' & Hcount).
  { apply Hss. }
  { intros n p Hp. destruct (gi_tree _ _ _ _ _ _ Hg1 n p) as (te & Hte & Hn & _); [elem_tauto|].
    by exists te. }
  { intros n Hn%Hidx3. lia. }
  pose proof (traverse_spec (grow_count st1) _ (0, 0) small Hss Hf2) as Htr.
  rewrite Hcount in Htr. destruct Htr as (small' & Htr & Hss' & Hes). rewrite Htr. ostep.
  assert (index_set (elems small) ∖ {[0]} = index_set (elems small)) as ->.
  { apply set_eq. intros i. rewrite elem_of_difference, elem_of_singleton, elem_of_index_set.
    split; [tauto|]. intros (n & Hn & <-). split; [eauto|]. apply Hidx3 in Hn. lia. }
  rewrite Z.add_0_l.
  pose proof (size_index_set_range (elems small) (tsize (st_table st)) nsize Hidx3 ltac:(lia)) as Hle.
  rewrite (proj2 (Z.leb_le _ _) Hle). ostep.
  rewrite (proj2 (Z.leb_le _ (is_tree_total _))).
  2:{ change (is_tree_total (st_space st1)) with
        (Z.of_nat (length (elems ignore ++ kept ++ elems small ++ elems big))).
      pose proof (size_index_set_le (elems small)). rewrite !length_app. lia. }
  ostep. change (is_tree (st_space (with_space st1 _))) with big.
  assert (ordered (elems ignore ++ kept ++ elems small ++ elems big)) as Hord.
  { eapply ordered_sublist; [|apply Hs]. fold (tree_elems st). rewrite Hl.
    by apply sublist_app; [|apply sublist_app]. }
  destruct (join_spec big small') as (tr1 & ? & -> & Htr1 & Hetr1 & _); [done..| |].
  { rewrite Hes. by eapply ordered_app_r, ordered_app_r. }
  ostep. destruct (join_spec tr1 move') as (tr2 & ? & -> & Htr2 & Hetr2 & _); [done..| |].
  { rewrite Hem, Hetr1, Hes. by eapply ordered_app_r. }
  ostep. destruct (join_spec tr2 ignore) as (tr3 & ? & -> & Htr3 & Hetr3 & _); [done..| |].
  { by rewrite Hetr2, Hem, Hetr1, Hes. }
  ostep. rewrite Hetr2, Hem, Hetr1, Hes in Hetr3.
  exists t1, tr3, ites1, bs1, seen.
  assert (small_set (elems tr3) (tsize (st_table st)) nsize = index_set (elems small)) as ->.
  { rewrite Hetr3. apply set_eq. intros i. rewrite elem_of_small_set, elem_of_index_set.
    split; [|intros (n & Hn & <-); split; [by apply Hidx3|];
      exists n; rewrite !fmap_app, !elem_of_app; auto].
    intros (Hi & n & Hn & <-). rewrite !fmap_app, !elem_of_app in Hn.
    destruct Hn as [Hn%Hidx1|[Hn|[Hn|Hn%Hidx4]]]; [lia| |eauto|lia].
    assert (n ∈ (elems move).*1) as Hx%Hidx2; [|lia].
    apply elem_of_names in Hn as (q & Hq). apply elem_of_names. exists q. by eapply elem_of_sublist. }
  rewrite Hetr3. split_and!; try done.
  intros n Hn Hlt. rewrite !fmap_app, !elem_of_app in Hn.
  destruct Hn as [Hn%Hidx1|[Hn|[Hn%Hidx3|Hn%Hidx4]]]; [by left|right; by apply Hseen|lia|lia].
Qed.

(** ** Adding what is left to the free list *)

(** The loop has pushed the empty indices [ns] of those it has handled. *)
Record pushed (t t' : list ipc_entry) (ns : list Z) : Prop := {
  pu_hash : same_hash t t';
  pu_bits j : bits_at t' j = if decide (j ∈ ns) then IE_BITS_GEN_MASK else bits_at t j;
  pu_object j : object_at t' j = object_at t j;
  pu_get j : j ∉ ns → tget t' j = tget t j;
}.

Lemma pushed_step t t' ns i x :
  pushed t t' ns → i ∉ ns → 0 ≤ i < tsize t →
  let t'' := tmod t' i (λ e, set_ie_next (set_ie_bits e IE_BITS_GEN_MASK) x) in
  pushed t t'' (i :: ns) ∧ next_at t'' i = x ∧ ∀ j, j ≠ i → next_at t'' j = next_at t' j.
Proof.
  intros Hp Hi Hr t''.
  destruct (tget_is_Some t' i) as (e & He); [rewrite (sh_size _ _ (pu_hash _ _ _ Hp)); lia|].
  split_and!.
  - split.
    + destruct (pu_hash _ _ _ Hp) as [Hn Hs Ho]. unfold t''. split.
      * by rewrite tsize_tmod.
      * intros j. by rewrite slot_keep.
      * intros j Hj. rewrite object_at_keep by done. by apply Ho.
    + intros j. unfold t''. rewrite bits_at_tmod. destruct (decide (i = j)) as [<-|Hne].
      * rewrite He. rewrite decide_True by (by left). done.
      * rewrite (pu_bits _ _ _ Hp). destruct (decide (j ∈ ns)).
        -- rewrite decide_True by (by right). done.
        -- rewrite decide_False; [done|]. rewrite not_elem_of_cons. done.
    + intros j. unfold t''. rewrite object_at_keep by done. apply (pu_object _ _ _ Hp).
    + intros j [Hne Hj]%not_elem_of_cons. unfold t''. rewrite tget_tmod_ne by done. by apply (pu_get _ _ _ Hp).
  - unfold t''. rewrite next_at_tmod, decide_True, He by done. done.
  - intros j Hj. unfold t''. by rewrite next_at_tmod, decide_False.
Qed.

Lemma grow_free_spec t osize fl :
  0 < osize ≤ tsize t → linked t 0 fl → NoDup fl → (∀ j, j ∈ fl → 0 < j < osize) →
  ∃ t' ns, grow_free t osize (tsize t) = Ok t' ∧
    linked t' 0 (ns ++ fl) ∧ NoDup (ns ++ fl) ∧
    (∀ j, j ∈ ns ↔ osize ≤ j < tsize t ∧ bits_at t j = 0) ∧
    same_hash t t' ∧
    (∀ j, bits_at t' j = if decide (j ∈ ns) then IE_BITS_GEN_MASK else bits_at t j) ∧
    (∀ j, object_at t' j = object_at t j) ∧
    (∀ j, 0 < j → j ∉ ns → tget t' j = tget t j).
Proof.
  intros Hos Hl Hnd Hfl. unfold grow_free.
  destruct (tget_is_Some t 0) as (h & Hh); [lia|]. rewrite Hh. ostep.
  rewrite (next_at_get _ _ _ Hh).
  destruct (ofold_inv (λ '(table, free_index) i, e ← deref (tget table i);
      if ie_bits e =? 0 then
        Ok (tmod table i (λ e, set_ie_next (set_ie_bits e IE_BITS_GEN_MASK) free_index), i)
      else Ok (table, free_index))
    (λ ds '(t', x), ∃ ns, pushed t t' ns ∧ threaded_from (next_at t') x (ns ++ fl) ∧ NoDup ns ∧
       ∀ j, j ∈ ns ↔ j ∈ ds ∧ bits_at t j = 0)
    (reverse (seqZ osize (tsize t - osize))) (t, next_at t 0))
    as ([t' x] & Hrun & ns & Hp & Hch & Hnds & Hns).
  - exists []. split_and!; [|by apply threaded_from_next|constructor|].
    + split; [done|intros j; by rewrite decide_False by set_solver|done|done].
    + set_solver.
  - intros l1 i l2 [t1 x] Hseq (ns & Hp & Hch & Hnds & Hns).
    assert (i ∈ reverse (seqZ osize (tsize t - osize))) as Hi by (rewrite Hseq; set_solver).
    rewrite elem_of_reverse, elem_of_seqZ in Hi.
    assert (i ∉ l1) as Hil1.
    { pose proof (NoDup_seqZ osize (tsize t - osize)) as Hn.
      rewrite <-(reverse_Permutation (seqZ osize (tsize t - osize))), Hseq in Hn. apply NoDup_app in Hn as (_ & Hd & _). intros Hin.
      apply (Hd i Hin). by left. }
    assert (i ∉ ns) as Hins by (rewrite Hns; tauto).
    destruct (tget_is_Some t i) as (e & He); [lia|].
    rewrite (pu_get _ _ _ Hp i Hins), He. ostep. rewrite (bits_at_get _ _ _ He).
    destruct (Z.eqb_spec (bits_at t i) 0) as [Hz|Hz].
    + eexists (_, _). split; [done|]. simpl. exists (i :: ns).
      destruct (pushed_step t t1 ns i x Hp Hins ltac:(lia)) as (Hp' & Hnx & Hnj).
      split_and!; [done| | |].
      * simpl. split_and!; [done|lia|]. apply threaded_from_next. rewrite Hnx.
        eapply threaded_from_ext; [done|]. intros j Hj. apply Hnj. intros ->.
        apply elem_of_app in Hj as [?|Hj%Hfl]; [done|lia].
      * by constructor.
      * intros j. rewrite elem_of_cons, Hns, elem_of_app, list_elem_of_singleton. naive_solver.
    + eexists (_, _). split; [done|]. simpl. exists ns. split_and!; [done..|].
      intros j. rewrite Hns, elem_of_app, list_elem_of_singleton. naive_solver.
  - rewrite Hrun. ostep. eexists _, ns. split; [done|].
    assert (∀ j, j ∈ ns ↔ osize ≤ j < tsize t ∧ bits_at t j = 0) as Hns'.
    { intros j. rewrite Hns, elem_of_reverse, elem_of_seqZ.
      replace (osize + (tsize t - osize)) with (tsize t) by lia. done. }
    assert (0 ∉ ns) as H0ns by (rewrite Hns'; lia).
    destruct (tget_is_Some t' 0) as (h' & Hh'); [rewrite (sh_size _ _ (pu_hash _ _ _ Hp)); lia|].
    split_and!.
    + apply threaded_from_next. rewrite next_at_tmod, decide_True, Hh' by done. simpl.
      eapply threaded_from_ext; [done|]. intros j Hj. rewrite next_at_tmod, decide_False; [done|].
      intros <-. apply elem_of_app in Hj as [?|Hj%Hfl]; [done|lia].
    + apply NoDup_app. split_and!; [done| |done]. intros j Hj%Hns' Hj'%Hfl. lia.
    + done.
    + destruct (pu_hash _ _ _ Hp) as [Hn Hs Ho]. split.
      * by rewrite tsize_tmod.
      * intros j. by rewrite slot_keep.
      * intros j Hj. rewrite object_at_keep by done. by apply Ho.
    + intros j. rewrite bits_at_keep by done. apply (pu_bits _ _ _ Hp).
    + intros j. rewrite object_at_keep by done. apply (pu_object _ _ _ Hp).
    + intros j Hj Hjn. rewrite tget_tmod_ne by lia. by apply (pu_get _ _ _ Hp).
Qed.

(** ** grow_install *)

Lemma holds_contents st n c :
  space_wf ∅ st →
  holds ∅ st n c ↔ contents (st_table st) (tree_elems st) (st_ites st) n c.
Proof.
  intros Hw. unfold holds, contents. split.
  - intros ([i|p] & e & Hd & He & <-); simpl in *.
    + left. destruct Hd as (Hi & Hn & [Ht|?]); [|set_solver]. exists i, e.
      split_and!; [lia..|done|done| |done]. by rewrite (bits_at_get _ _ _ He).
    + right. destruct (st_ites st !! p) as [te|] eqn:Hte; [|done]. injection He as <-. eauto.
  - intros [(j & e & Hj & He & Hn & Ht & <-)|(p & te & Hp & Hte & <-)].
    + exists (EP_table j), e. split_and!; [|done|done]. simpl. split_and!; [lia..|done|].
      left. unfold type_at. by rewrite <-(bits_at_get _ _ _ He).
    + exists (EP_tree p), (ite_entry te). simpl. by rewrite Hte.
Qed.

(** The copied and rehashed table. *)
Section installed.
Context (st : istate) (size : Z) (t1 : list ipc_entry).
Local Abbreviation t := (st_table st).
Hypothesis Hw : space_wf ∅ st.
Hypothesis Hsize : tsize t < size < 2 ^ 24.
Hypothesis Hl1 : local_hash t1.
Hypothesis Hn1 : tsize t1 = size.
Hypothesis Hs1 : same_entries (grow_copy t (tsize t) size) t1.
Hypothesis Hh1 : ∀ i, hashed t1 i ↔ hashed t i.

Lemma in_get j :
  tget t1 j = if decide (0 ≤ j < tsize t) then (λ e, set_ie_index e (slot t1 j)) <$> tget t j
    else if decide (tsize t ≤ j < size) then Some (set_ie_index zero_entry (slot t1 j)) else None.
Proof.
  rewrite (Hs1 j), grow_copy_get by lia. repeat case_decide; try done. by destruct (tget t j).
Qed.

Lemma in_bits j : bits_at t1 j = if decide (0 ≤ j < tsize t) then bits_at t j else 0.
Proof.
  unfold bits_at. rewrite in_get. repeat case_decide; try done. by destruct (tget t j).
Qed.

Lemma in_next j : 0 ≤ j < tsize t → next_at t1 j = next_at t j.
Proof. intros. unfold next_at. rewrite in_get, decide_True by done. by destruct (tget t j). Qed.

Lemma in_object j : object_at t1 j = if decide (0 ≤ j < tsize t) then object_at t j else IO_NULL.
Proof.
  unfold object_at. rewrite in_get. repeat case_decide; try done. by destruct (tget t j).
Qed.

Lemma in_hash_wf : hash_wf ∅ t1 (tree_elems st) (st_ites st) (st_buckets st).
Proof.
  pose proof (sw_hash _ _ Hw) as Hh.
  assert (∀ i, hashed t i → 0 < i < tsize t) as Hr.
  { intros i (Hi & j & Hj & <-). by apply (hw_local _ _ _ _ _ Hh). }
  split.
  - done.
  - apply Hh.
  - intros i Hi _. rewrite Hh1. unfold type_at. rewrite in_bits. case_decide as Hd.
    + apply (hw_type _ _ _ _ _ Hh); [lia|set_solver].
    + split; [|done]. intros ?%Hr. lia.
  - apply Hh.
  - intros i p Hi Hp Ho. apply Hh1 in Hi. rewrite in_object.
    rewrite decide_True by (apply Hr in Hi; lia). by apply (hw_disjoint _ _ _ _ _ Hh).
Qed.

Lemma in_grow_inv : grow_inv (tsize t) t1 (tree_elems st) [] (st_ites st) (st_buckets st).
Proof.
  pose proof (space_wf_size _ _ Hw) as Hsz.
  assert (∀ n, n ∈ (tree_elems st).*1 → 0 ≤ MACH_PORT_INDEX n) as Hpos.
  { intros n (p & Hp)%elem_of_names.
    destruct (tree_elem_ok _ _ _ _ Hw Hp) as (te & _ & _ & _ & (Hu & _) & _).
    apply MACH_PORT_INDEX_range in Hu. lia. }
  split.
  - by eapply tree_elems_NoDup.
  - apply Hw.
  - apply in_hash_wf.
  - intros j Hj. left. rewrite in_bits, in_object, !decide_False by lia. done.
  - intros j Hj. rewrite in_bits. case_decide as Hd.
    + rewrite (cw_bit _ _ _ (sw_coll _ _ Hw) j Hd). unfold accounted.
      split; intros (n & Hn & Hx); exists n; [|tauto]. split_and!; [done|left; lia|done].
    + split; [done|]. intros (n & Hn & [?|?%elem_of_nil] & <-); [|done]. specialize (Hpos n Hn). lia.
  - intros n Hn [Hlt|?%elem_of_nil]; [|done]. intros Hr. unfold type_at. rewrite in_bits.
    rewrite decide_True by lia.
    destruct (cw_used _ _ _ (sw_coll _ _ Hw) n Hn) as [_ [?|?]]; [lia|done|set_solver].
  - intros j Hj Ht Hin. unfold type_at, name_at in *. rewrite in_bits in *. case_decide as Hd; [|done].
    assert (MACH_PORT_INDEX (MACH_PORT_MAKEB j (bits_at t j)) = j) as Hidx by (apply INDEX_MAKEB; lia).
    destruct (cw_used _ _ _ (sw_coll _ _ Hw) _ Hin) as [Hne _]; [rewrite Hidx; lia|].
    apply Hne. rewrite Hidx. done.
Qed.

Lemma in_contents m c :
  contents t1 (tree_elems st) (st_ites st) m c ↔ contents t (tree_elems st) (st_ites st) m c.
Proof.
  unfold contents. apply or_iff_compat_r. split; intros (j & e & Hj & He & Hn & Ht & <-).
  - rewrite in_get in He. repeat case_decide; [|by injection He as <-|done].
    destruct (tget t j) as [e0|] eqn:E; [|done]. injection He as <-. exists j, e0.
    unfold name_at in *. rewrite in_bits, decide_True in Hn by done. split_and!; [lia..|done|done|done|done].
  - exists j, (set_ie_index e (slot t1 j)). unfold name_at in *.
    rewrite in_get, in_bits, !decide_True, He by lia. split_and!; [lia..|done|done|done|done].
Qed.
End installed.

(** ** The table after the new part has joined the free list *)

(** The old part, with [fl] its free list. *)
Record old_wf (osize : Z) (t : list ipc_entry) (fl : list Z) : Prop := {
  ow_gen : IE_BITS_GEN (bits_at t 0) = IE_BITS_GEN_MASK;
  ow_type : type_at t 0 = 0;
  ow_linked : linked t 0 fl;
  ow_nodup : NoDup fl;
  ow_free i : i ∈ fl ↔ 0 < i < osize ∧ type_at t i = 0;
  ow_entry i : 0 < i < osize → type_at t i = 0 →
    Z.land (bits_at t i) (Z.lnot IE_BITS_GEN_MASK) = 0 ∧ object_at t i = IO_NULL;
}.

Lemma old_wf_table t : table_wf ∅ t → ∃ fl, old_wf (tsize t) t fl.
Proof.
  intros Ht. destruct (tw_free _ _ Ht) as (fl & Hl & Hnd & Hfl). exists fl. split; try done.
  - apply Ht.
  - apply Ht.
  - intros i. rewrite Hfl. set_solver.
  - intros i Hi Hty. apply (tw_free_entry _ _ Ht); [done..|set_solver].
Qed.

Lemma old_wf_ext osize t t' fl :
  old_wf osize t fl → 0 < osize →
  (∀ j, 0 ≤ j < osize → bits_at t' j = bits_at t j ∧ next_at t' j = next_at t j ∧
     object_at t' j = object_at t j) → old_wf osize t' fl.
Proof.
  intros [Hg Hty Hl Hnd Hfl He] Hos Hj.
  assert (∀ j, 0 ≤ j < osize → type_at t' j = type_at t j) as Hty'.
  { intros j Hr. unfold type_at. by destruct (Hj j Hr) as (-> & _). }
  split.
  - by rewrite (proj1 (Hj 0 ltac:(lia))).
  - by rewrite Hty' by lia.
  - eapply threaded_ext; [done|]. intros j Hin. apply Hj.
    apply elem_of_cons in Hin as [->|Hin%Hfl]; lia.
  - done.
  - intros i. rewrite Hfl. split; intros [? ?]; (split; [done|]); by rewrite Hty' in * by lia.
  - intros i Hi. rewrite Hty' by lia. destruct (Hj i) as (-> & _ & ->); [lia|]. by apply He.
Qed.

Lemma keeps_old_wf osize t t' fl :
  old_wf osize t fl → 0 < osize → keeps_old osize t t' → old_wf osize t' fl.
Proof.
  intros Ho Hos [_ Hk]. eapply old_wf_ext; [done..|]. intros j Hj.
  unfold bits_at, next_at, object_at. rewrite (Hk j) by lia. by destruct (tget t j).
Qed.

Lemma grow_free_wf osize t l seen ites bs fl :
  grow_inv osize t l seen ites bs → old_wf osize t fl → 0 < osize ≤ tsize t → tsize t < 2 ^ 24 →
  (∀ n, n ∈ l.*1 → MACH_PORT_INDEX n < tsize t → accounted osize seen n) →
  ∃ t', grow_free t osize (tsize t) = Ok t' ∧ tsize t' = tsize t ∧ table_wf ∅ t' ∧
    coll_wf ∅ t' l ∧ hash_wf ∅ t' l ites bs ∧
    ∀ m c, contents t' l ites m c ↔ contents t l ites m c.
Proof.
  intros Hg Ho Hos Hsz Hacc.
  destruct (grow_free_spec t osize fl Hos) as (t' & ns & Hrun & Hl & Hnd & Hns & Hsh & Hb & Hobj & Hget);
    [apply Ho|apply Ho|intros j Hj; by apply (ow_free _ _ _ Ho)|].
  exists t'. split; [done|]. assert (tsize t' = tsize t) as Hn by apply Hsh.
  assert (∀ j, type_at t' j = type_at t j) as Hty.
  { intros j. unfold type_at. rewrite Hb. case_decide as Hj; [|done].
    apply Hns in Hj as [_ ->]. done. }
  assert (∀ j, type_at t j ≠ 0 → bits_at t' j = bits_at t j) as Hused.
  { intros j Hj. rewrite Hb, decide_False; [done|]. intros [_ Hz]%Hns. apply Hj.
    unfold type_at. by rewrite Hz. }
  assert (∀ j, j < osize → bits_at t' j = bits_at t j) as Hold.
  { intros j Hj. rewrite Hb, decide_False; [done|]. rewrite Hns. lia. }
  assert (∀ j, collides (bits_at t' j) = collides (bits_at t j)) as Hco.
  { intros j. rewrite Hb. case_decide as Hj; [|done]. apply Hns in Hj as [_ ->]. done. }
  split_and!; [done| | | |].
  - split.
    + rewrite Hold by lia. apply Ho.
    + rewrite Hty. apply Ho.
    + exists (ns ++ fl). split_and!; [done..|]. intros i.
      rewrite elem_of_app, Hns, (ow_free _ _ _ Ho), Hn, Hty. split.
      * intros [[Hi Hz]|[Hi Hz]]; (split_and!; [lia..| |set_solver]); [|done].
        unfold type_at. by rewrite Hz.
      * intros (Hi & Hz & _). destruct (decide (i < osize)); [right; split; [lia|done]|left].
        split; [lia|]. by destruct (gi_new _ _ _ _ _ _ Hg i) as [[? _]|?]; [lia| |].
    + intros i. rewrite Hn, Hty, Hobj, Hb. intros Hi Hz _. case_decide as Hin.
      * apply Hns in Hin as [Hi' _]. split; [done|].
        destruct (gi_new _ _ _ _ _ _ Hg i) as [[_ ?]|?]; [lia|done|done].
      * apply (ow_entry _ _ _ Ho); [|done]. destruct (decide (i < osize)); [lia|].
        destruct Hin. apply Hns. split; [lia|].
        by destruct (gi_new _ _ _ _ _ _ Hg i) as [[? _]|?]; [lia| |].
  - split.
    + intros i. rewrite Hn, Hco. intros Hi. rewrite (gi_bit _ _ _ _ _ _ Hg i Hi).
      split; [naive_solver|]. intros (n & Hin & <-). exists n. split_and!; [done| |done].
      apply Hacc; [done|lia].
    + intros n Hin. rewrite Hn, Hty. intros Hi. assert (type_at t (MACH_PORT_INDEX n) ≠ 0) as Ht.
      { apply (gi_used _ _ _ _ _ _ Hg); [done|apply Hacc; [done|lia]|done]. }
      split; [|by left]. intros Heq. unfold name_at in Heq. rewrite Hused in Heq by done.
      apply (gi_names _ _ _ _ _ _ Hg _ Hi Ht). unfold name_at. by rewrite Heq.
  - eapply hash_wf_ext; [apply Hg|done| |set_solver]. intros i Hi _. left. rewrite Hty. set_solver.
  - intros m c. unfold contents. rewrite Hn. apply or_iff_compat_r.
    split; intros (j & e & Hj & He & Hnm & Ht & <-); exists j, e; unfold name_at in *.
    + assert (type_at t j ≠ 0) as Htj.
      { rewrite <-Hty. unfold type_at. by rewrite <-(bits_at_get _ _ _ He). }
      rewrite Hused in Hnm by done. split_and!; try done; try lia.
      rewrite <-Hget; [done|lia|]. intros [_ Hz]%Hns. apply Htj. unfold type_at. by rewrite Hz.
    + assert (type_at t j ≠ 0) as Htj.
      { unfold type_at. by rewrite <-(bits_at_get _ _ _ He). }
      rewrite Hused by done. split_and!; try done; try lia.
      rewrite Hget; [done|lia|]. intros [_ Hz]%Hns. apply Htj. unfold type_at. by rewrite Hz.
Qed.
End grow.
