(* ===== verification/IpcAlloc.v ===== *)
(** * Growing and allocating while other threads run (ipc/ipc_entry.c)

    [ipc_entry_grow_table], [ipc_entry_alloc] and [ipc_entry_alloc_name]
    release the lock of the space to allocate memory.  What the other
    threads may do meanwhile is the class [others_rely]. *)

From stdpp Require Import prelude list gmap.
From S2P Require Import Prelude MachPort IpcSplay IpcTypes IpcHash IpcTable IpcEntry IpcInv.
From S2P Require Import IpcDealloc IpcGrow.

Abbreviation live st := (is_active (st_space st) = true).
Abbreviation locked st := (is_locked (st_space st) = true).
Abbreviation growing st := (is_growing (st_space st)).

Section alloc.
Context {W : iworld}.

(** ** The new table *)

(** What growing the table leaves of the space. *)
Definition grown (st st' : istate) (addr size : Z) (nits : nat) : Prop :=
  is_table_size (st_space st') = size ∧ is_table_addr (st_space st') = addr ∧
  is_table_next (st_space st') = nits ∧
  is_references (st_space st') = is_references (st_space st) ∧
  is_locked (st_space st') = is_locked (st_space st) ∧
  is_active (st_space st') = is_active (st_space st) ∧
  is_growing (st_space st') = is_growing (st_space st) ∧
  is_fast (st_space st') = is_fast (st_space st) ∧ st_clock st' = st_clock st.

Lemma view_contents st st' :
  space_wf ∅ st → space_wf ∅ st' →
  (∀ m c, contents (st_table st') (tree_elems st') (st_ites st') m c ↔
     contents (st_table st) (tree_elems st) (st_ites st) m c) → same_view st st'.
Proof.
  intros Hw Hw' Hc n Hn. eapply view_holds_eq; [done..|]. intros c _.
  rewrite !holds_contents by done. apply Hc.
Qed.

(** The state that [grow_install] reaches, from its parts. *)
Lemma installed_wf st addr size nsize k t' tree ites bs :
  space_wf ∅ st → ipc_table_entries !! k = Some size → ipc_table_entries !! S k = Some nsize →
  tsize t' = size → table_wf ∅ t' → splay_wf tree → tree_wf ∅ (elems tree) ites →
  coll_wf ∅ t' (elems tree) → hash_wf ∅ t' (elems tree) ites bs →
  (is_fast (st_space st) = true → elems tree = []) →
  let st' := rebuild (with_space st (λ s, set_is_grown s (st_table st) addr size (S k))) t' tree
    (Z.of_nat (length (elems tree)))
    (Z.of_nat (stdpp.base.size (small_set (elems tree) size nsize)))
    (Z.of_nat (own_hashed ites bs)) ites bs in
  space_wf ∅ st' ∧ grown st st' addr size (S k).
Proof.
  intros Hw Hk1 Hk2 Hn Ht Hs Htr Hc Hh Hf st'. split; [|done]. split; try done.
  - apply Hw.
  - exists k, nsize. done.
Qed.

Lemma grow_install_spec st addr size nsize k :
  space_wf ∅ st → tsize (st_table st) < size →
  ipc_table_entries !! k = Some size → ipc_table_entries !! S k = Some nsize →
  ∃ st', grow_install st addr (tsize (st_table st)) size nsize (S k) = Ok st' ∧
    space_wf ∅ st' ∧ grown st st' addr size (S k) ∧ same_view st st' ∧ st_ites st' ⊆ st_ites st.
Proof.
  intros Hw Hlt Hk1 Hk2. pose proof (space_wf_size _ _ Hw) as Hsz.
  pose proof (its_next_le _ _ _ Hk1 Hk2) as (_ & Hle & Hns & _).
  unfold grow_install.
  destruct (grow_rehash_spec ∅ (st_table st) _ _ _ size (sw_hash _ _ Hw) (sw_table _ _ Hw))
    as (t1 & -> & Hl1 & Hn1 & Hs1 & Hh1); [lia|lia|]. ostep.
  pose proof (in_grow_inv st size t1 Hw ltac:(lia) Hl1 Hn1 Hs1 Hh1) as Hg1.
  destruct (old_wf_table _ (sw_table _ _ Hw)) as (fl & Ho).
  assert (old_wf (tsize (st_table st)) t1 fl) as Ho1.
  { eapply old_wf_ext; [done|lia|]. intros j Hj.
    rewrite (in_bits st size t1 ltac:(lia) Hs1), (in_object st size t1 ltac:(lia) Hs1),
      !decide_True by lia. split_and!; [done| |done]. apply (in_next st size t1); (done || lia). }
  pose proof (in_contents st size t1 ltac:(lia) Hn1 Hs1) as Hc1.
  set (st1 := with_space st (λ s, set_is_grown s t1 addr size (S k))).
  assert (is_tree_total (st_space st1) = Z.of_nat (length (tree_elems st1))) as Htot by apply (sw_total _ _ Hw).
  destruct (Z.ltb_spec 0 (is_tree_total (st_space st1))) as [Hpos|Hzero].
  - assert (is_fast (st_space st) = false) as Hfast.
    { destruct (is_fast (st_space st)) eqn:E; [|done]. rewrite Htot in Hpos.
      change (tree_elems st1) with (tree_elems st) in Hpos. rewrite (sw_fast _ _ Hw E) in Hpos. done. }
    change (is_fast (st_space st1)) with (is_fast (st_space st)). rewrite Hfast. ostep.
    pose proof (grow_transfer_spec st1 (tsize (st_table st)) nsize) as Htr.
    change (st_table st1) with t1 in Htr. cbv zeta in Htr.
    destruct Htr as (t2 & tree & ites & bs & seen & Hrun & Hst & Hg2 & Hacc & Hk & Hsub & Hc2);
      [apply Hw|done|lia|lia|done|apply Hw|done|done|apply (sw_hashed _ _ Hw)|].
    rewrite Hn1 in Hrun. rewrite Hrun. ostep. destruct Hk as [Hn2 Hk].
    destruct (grow_free_wf _ t2 _ _ _ _ fl Hg2) as (t3 & Hrun3 & Hn3 & Ht3 & Hc3 & Hh3 & Hcont3);
      [eapply keeps_old_wf; [done|lia|done]|lia|lia|by rewrite Hn2|].
    change (st_table (rebuild _ t2 _ _ _ _ _ _)) with t2. rewrite Hn2, Hn1 in Hrun3. rewrite Hrun3. ostep.
    destruct (installed_wf st addr size nsize k t3 tree ites bs) as [Hw' Hgr];
      [done..|lia|done|done|apply Hg2|done|done|by rewrite Hfast|].
    eexists. split; [reflexivity|]. split_and!; [exact Hw'|exact Hgr| |done].
    apply view_contents; [done|exact Hw'|]. intros m c. rewrite <-Hc1.
    change (contents t3 (elems tree) ites m c ↔ contents t1 (tree_elems st) (st_ites st) m c).
    rewrite Hcont3, Hc2. done.
  - assert (tree_elems st = []) as Hnil.
    { apply nil_length_inv. change (tree_elems st1) with (tree_elems st) in Htot. lia. }
    rewrite (proj2 (Z.eqb_eq _ 0)) by lia. rewrite orb_true_r. ostep.
    destruct (grow_free_wf _ t1 _ _ _ _ fl Hg1) as (t3 & Hrun3 & Hn3 & Ht3 & Hc3 & Hh3 & Hcont3);
      [done|lia|lia|by rewrite Hnil; intros n ?%elem_of_nil|].
    change (st_table st1) with t1. rewrite Hn1 in Hrun3. rewrite Hrun3. ostep.
    destruct (installed_wf st addr size nsize k t3 (is_tree (st_space st)) (st_ites st) (st_buckets st))
      as [Hw' Hgr]; [done..|lia|done|apply Hw|apply Hw|done|done|apply Hw|].
    assert (is_tree_small (st_space st) =
      Z.of_nat (stdpp.base.size (small_set (elems (is_tree (st_space st))) size nsize))) as Hsm.
    { destruct (space_wf_next _ _ Hw) as (ns & _ & _ & ->). fold (tree_elems st). by rewrite Hnil. }
    rewrite <-Hsm, <-(sw_hashed _ _ Hw) in Hw', Hgr. fold (tree_elems st) in Hw', Hgr.
    rewrite <-(sw_total _ _ Hw) in Hw', Hgr.
    eexists. split; [reflexivity|]. split_and!; [exact Hw'|exact Hgr| |done].
    apply view_contents; [done|exact Hw'|]. intros m c. rewrite <-Hc1. apply Hcont3.
Qed.

(** ** What the other threads may do while the lock is released *)

(** A space that is still active is well-formed, with no name in hand; a
    dead space is not revived; a table is not replaced while this thread
    grows it, and never by a smaller one; [is_fast] does not change.  No
    other thread is in the middle of growing the table when the lock is
    granted. *)
Record rely (st st' : istate) : Prop := {
  ry_wf : (live st → space_wf ∅ st) → live st' → space_wf ∅ st';
  ry_live : live st' → live st;
  ry_growing : growing st' = growing st;
  ry_fast : is_fast (st_space st') = is_fast (st_space st);
  ry_next : live st' → (is_table_next (st_space st) ≤ is_table_next (st_space st'))%nat;
  ry_table : growing st = true → live st' →
    is_table_addr (st_space st') = is_table_addr (st_space st) ∧
    is_table_next (st_space st') = is_table_next (st_space st) ∧
    is_table_size (st_space st') = is_table_size (st_space st);
}.

#[export] Instance rely_preorder : PreOrder rely.
Proof.
  split; [by split|]. intros st1 st2 st3 [Hw1 Hl1 Hg1 Hf1 Hn1 Ht1] [Hw2 Hl2 Hg2 Hf2 Hn2 Ht2].
  split; [naive_solver|tauto|congruence|congruence| |].
  - intros Hl. specialize (Hn2 Hl). specialize (Hn1 (Hl2 Hl)). lia.
  - intros Hg Hl. rewrite Hg1 in Ht2.
    destruct (Ht2 Hg Hl) as (-> & -> & ->). apply Ht1; tauto.
Qed.

Class others_rely : Prop :=
  other_rely c st : is_locked (st_space st) = false → rely st (w_other c st).

(** The steps of the other threads, and steps of this one that do not change
    what the space holds; those allocate no tree entries. *)
Definition interleaved : relation istate :=
  rtc (λ st st', (same_view st st' ∧ st_ites st' ⊆ st_ites st ∧
      is_active (st_space st') = is_active (st_space st)) ∨
    (is_locked (st_space st) = false ∧ ∃ c, st' = w_other c st)).

#[export] Instance interleaved_preorder : PreOrder interleaved.
Proof. unfold interleaved. apply _. Qed.

Definition evolves (st st' : istate) : Prop := rely st st' ∧ interleaved st st'.

#[export] Instance evolves_preorder : PreOrder evolves.
Proof.
  split; [by split; [|apply rtc_refl]|]. intros st1 st2 st3 [H1 I1] [H2 I2].
  split; by etrans.
Qed.

(** The same up to the lock, the clock and the reference count. *)
Lemma evolves_flags st b c :
  evolves st (IST_ (set_is_locked (st_space st) b) (st_ites st) (st_buckets st) c).
Proof.
  split; [|apply rtc_once; by left].
  split; try done. intros Hw Hl. destruct (Hw Hl). by split.
Qed.

Lemma unlock_spec st :
  locked st → ∃ st', is_write_unlock st = Ok st' ∧ is_locked (st_space st') = false ∧ evolves st st'.
Proof.
  intros Hl. unfold is_write_unlock. rewrite Hl. eexists. split_and!; [done..|].
  apply evolves_flags.
Qed.

Lemma lock_spec `{!others_rely} st :
  is_locked (st_space st) = false →
  ∃ st', is_write_lock st = Ok st' ∧ locked st' ∧ evolves st st'.
Proof.
  intros Hl. unfold is_write_lock. rewrite Hl. eexists. split_and!; [done..|].
  transitivity (w_other (st_clock st) st); [|apply (evolves_flags (w_other _ _))].
  split; [by apply other_rely|]. apply rtc_once. right. eauto.
Qed.

Lemma relock_spec `{!others_rely} st :
  locked st → ∃ st1 st2, is_write_unlock st = Ok st1 ∧ is_write_lock st1 = Ok st2 ∧
    locked st2 ∧ evolves st st2.
Proof.
  intros Hl. destruct (unlock_spec st Hl) as (st1 & H1 & Hl1 & E1).
  destruct (lock_spec st1 Hl1) as (st2 & H2 & Hl2 & E2). exists st1, st2.
  split_and!; [done..|by etrans].
Qed.

Lemma kmem_spec st st' o :
  kmem st = (st', o) → is_locked (st_space st') = is_locked (st_space st) ∧ evolves st st'.
Proof.
  intros [= <- <-]. split; [done|]. pose proof (evolves_flags st (is_locked (st_space st)) (S (st_clock st))) as He.
  by destruct st as [[] ? ? ?].
Qed.

(** While this thread grows the table. *)
Definition set_growing (st : istate) (b : bool) : istate := with_space st (λ s, set_is_growing s b).

Lemma set_growing_wf H st b : space_wf H st ↔ space_wf H (set_growing st b).
Proof. split; intros []; by split. Qed.

Lemma evolves_growing st st' :
  growing st = false → evolves (set_growing st true) st' →
  evolves st (set_growing st' false) ∧
  (live st' → is_table_addr (st_space st') = is_table_addr (st_space st) ∧
    is_table_next (st_space st') = is_table_next (st_space st) ∧
    is_table_size (st_space st') = is_table_size (st_space st)).
Proof.
  intros Hg [[Hw Hl _ Hf Hn Ht] Hi]. split; [|by intros; apply Ht].
  split.
  - split; try done.
    + intros Hs Hl'. apply set_growing_wf. apply Hw; [|done]. intros Hl''.
      apply (set_growing_wf ∅ st true). by apply Hs.
    + intros Hg'. congruence.
  - etrans; [apply rtc_once|etrans; [apply Hi|apply rtc_once]]; by left.
Qed.

(** ** ipc_entry_grow_table *)

Lemma grown_evolves st st' addr size nits :
  space_wf ∅ st' → grown st st' addr size nits → same_view st st' → st_ites st' ⊆ st_ites st →
  growing st = false → (is_table_next (st_space st) ≤ nits)%nat → evolves st st'.
Proof.
  intros Hw (Hs & Ha & Hn & Hr & Hl & Hac & Hg & Hf & Hc) Hv Hi Hng Hle.
  split; [|apply rtc_once; by left]. split; try done; rewrite ?Hac, ?Hn; try done.
  intros Hx. congruence.
Qed.

Lemma space_next_bound H st : space_wf H st → (1 ≤ is_table_next (st_space st) ≤ 511)%nat.
Proof.
  intros Hw. destruct (sw_next _ _ Hw) as (k & nsize & -> & _ & Hk%lookup_lt_Some & _).
  destruct ipc_table_entries_ok as (Hlen & _). rewrite Hlen in Hk.
  unfold ipc_table_entries_size in Hk. lia.
Qed.

(** The results of [ipc_entry_grow_table]. *)
Definition grow_post (st st' : istate) (kr : kern_return) : Prop :=
  match kr with
  | KERN_SUCCESS => locked st' ∧ growing st' = false ∧ evolves st st' ∧
      (live st' → (is_table_next (st_space st) < is_table_next (st_space st'))%nat)
  | KERN_RESOURCE_SHORTAGE => is_locked (st_space st') = false ∧ growing st' = false ∧ evolves st st'
  | _ => False
  end.

(** One round: the table is replaced, unless it cannot be. *)
Definition grow_round (st : istate) (osize size nsize : Z) (nits : nat) :
    outcome (istate * option kern_return) :=
  st1 ← is_write_unlock (set_growing st true);
  let '(st2, table) := kmem st1 in
  st3 ← is_write_lock st2;
  let st4 := set_growing st3 false in
  match table with
  | None => st5 ← is_write_unlock st4; Ok (st5, Some KERN_RESOURCE_SHORTAGE)
  | Some addr =>
    if negb (is_active (st_space st4)) then
      st5 ← is_write_unlock st4; st6 ← is_write_lock st5; Ok (st6, Some KERN_SUCCESS)
    else
      kassert (is_table_addr (st_space st4) =? is_table_addr (st_space st));;
      kassert (is_table_next (st_space st4) =? is_table_next (st_space st))%nat;;
      kassert (is_table_size (st_space st4) =? osize);;
      st5 ← grow_install st4 addr osize size nsize nits;
      st6 ← is_write_unlock st5;
      st7 ← is_write_lock st6;
      Ok (st7, None)
  end.

Lemma grow_round_spec `{!others_rely} st size nsize :
  space_wf ∅ st → live st → locked st → growing st = false →
  its_size (is_table_next (st_space st)) = Ok size →
  its_size (S (is_table_next (st_space st))) = Ok nsize → tsize (st_table st) < size →
  ∃ st' r, grow_round st (tsize (st_table st)) size nsize (S (is_table_next (st_space st))) = Ok (st', r) ∧
    growing st' = false ∧ evolves st st' ∧
    match r with
    | Some KERN_SUCCESS => locked st' ∧ ¬ live st'
    | Some KERN_RESOURCE_SHORTAGE => is_locked (st_space st') = false
    | Some _ => False
    | None => locked st' ∧
        (live st' → (is_table_next (st_space st) < is_table_next (st_space st'))%nat)
    end.
Proof.
  intros Hw Hl Hlk Hg Hk1 Hk2 Hlt. unfold grow_round.
  destruct (unlock_spec (set_growing st true) Hlk) as (st1 & -> & Hu1 & E1). ostep.
  destruct (kmem st1) as [st2 table] eqn:Hk. destruct (kmem_spec _ _ _ Hk) as [Hu2 E2].
  destruct (lock_spec st2) as (st3 & -> & Hl3 & E3); [congruence|]. ostep.
  destruct (evolves_growing st st3 Hg) as [E4 Htab]; [by do 2 (etrans; [done|])|].
  set (st4 := set_growing st3 false) in *.
  destruct table as [addr|].
  2:{ destruct (unlock_spec st4 Hl3) as (st5 & -> & Hu5 & E5). ostep. eexists _, _.
      split; [done|]. split_and!; [|by etrans|done]. by rewrite (ry_growing _ _ (proj1 E5)). }
  destruct (is_active (st_space st4)) eqn:Hact; ostep.
  2:{ destruct (relock_spec st4 Hl3) as (st5 & st6 & -> & H6 & Hl6 & E5). ostep. rewrite H6. ostep.
      eexists _, _. split; [done|]. split_and!; [|by etrans|done|].
      - by rewrite (ry_growing _ _ (proj1 E5)).
      - intros Hx%(ry_live _ _ (proj1 E5)). congruence. }
  destruct (Htab Hact) as (Ha & Hn & Hs).
  assert (space_wf ∅ st4) as Hw4 by (by apply (ry_wf _ _ (proj1 E4))).
  change (is_table_addr (st_space st4)) with (is_table_addr (st_space st3)).
  change (is_table_next (st_space st4)) with (is_table_next (st_space st3)).
  change (is_table_size (st_space st4)) with (is_table_size (st_space st3)).
  rewrite Ha, Hn, Hs, (sw_size _ _ Hw), !Z.eqb_refl, Nat.eqb_refl. ostep.
  assert (tsize (st_table st4) = tsize (st_table st)) as Hsz.
  { rewrite <-(sw_size _ _ Hw4), <-(sw_size _ _ Hw). done. }
  unfold its_size in *.
  destruct (ipc_table_entries !! is_table_next (st_space st)) as [x|] eqn:K1; [|done].
  destruct (ipc_table_entries !! S (is_table_next (st_space st))) as [y|] eqn:K2; [|done].
  injection Hk1 as <-. injection Hk2 as <-.
  destruct (grow_install_spec st4 addr x y (is_table_next (st_space st)))
    as (st5 & Hrun & Hw5 & Hgr & Hv & Hi5); [done|lia|done|done|].
  rewrite Hsz in Hrun. rewrite Hrun. ostep.
  assert (evolves st4 st5) as E5.
  { eapply grown_evolves; [done..|]. change (is_table_next (st_space st4)) with (is_table_next (st_space st3)). lia. }
  destruct Hgr as (_ & _ & Hn5 & _ & Hl5 & _ & Hg5 & _).
  destruct (relock_spec st5) as (st6 & st7 & -> & H7 & Hl7 & E7); [by rewrite Hl5|]. ostep. rewrite H7. ostep.
  eexists _, _. split; [done|]. split_and!; [|by do 2 (etrans; [done|])|done|].
  - by rewrite (ry_growing _ _ (proj1 E7)), Hg5.
  - intros Hl'. pose proof (ry_next _ _ (proj1 E7) Hl'). lia.
Qed.

Lemma grow_loop_round fuel st osize size nsize :
  live st → growing st = false →
  its_size (Nat.pred (is_table_next (st_space st))) = Ok osize →
  its_size (is_table_next (st_space st)) = Ok size →
  its_size (S (is_table_next (st_space st))) = Ok nsize → osize < size → size ≤ nsize →
  grow_loop (S fuel) st ITS_SIZE_NONE =
    ('(st', r) ← grow_round st osize size nsize (S (is_table_next (st_space st)));
     match r with
     | Some kr => Ok (st', kr)
     | None =>
       let s := st_space st' in
       if negb (is_active s) || negb (is_table_next s =? S (is_table_next (st_space st)))%nat
       then Ok (st', KERN_SUCCESS)
       else if (0 <? is_tree_small s) &&
               ((nsize - size) * sizeof_ipc_entry <? is_tree_small s * sizeof_ipc_tree_entry)
       then grow_loop fuel st' ITS_SIZE_NONE
       else Ok (st', KERN_SUCCESS)
     end).
Proof.
  intros Hl Hg H1 H2 H3 Hlt Hle. cbn [grow_loop]. rewrite Hl, Hg. ostep.
  rewrite H2. ostep. rewrite H1. ostep.
  change (ITS_SIZE_NONE =? ITS_SIZE_NONE) with true. ostep. rewrite H3. ostep.
  destruct (Z.eqb_spec osize size); [lia|].
  rewrite (proj2 (Z.ltb_lt _ _) Hlt), (proj2 (Z.leb_le _ _) Hle). ostep.
  unfold grow_round. fold (set_growing st true).
  destruct (is_write_unlock (set_growing st true)) as [st1|]; ostep; [|done].
  destruct (kmem st1) as [st2 table]. destruct (is_write_lock st2) as [st3|]; ostep; [|done].
  fold (set_growing st3 false). set (st4 := set_growing st3 false).
  destruct table as [addr|]; [|by destruct (is_write_unlock st4)].
  destruct (is_active (st_space st4)); ostep.
  2:{ destruct (is_write_unlock st4) as [st5|]; ostep; [|done]. by destruct (is_write_lock st5). }
  rewrite orb_false_r.
  destruct (is_table_addr (st_space st4) =? is_table_addr (st_space st)); ostep; [|done].
  destruct (is_table_next (st_space st4) =? is_table_next (st_space st))%nat; ostep; [|done].
  destruct (is_table_size (st_space st4) =? osize); ostep; [|done].
  destruct (grow_install st4 addr osize size nsize _) as [st5|]; ostep; [|done].
  destruct (is_write_unlock st5) as [st6|]; ostep; [|done].
  destruct (is_write_lock st6) as [st7|]; ostep; done.
Qed.

(** Names are counted for the next table only when there is one. *)
Lemma not_last_size H st :
  space_wf H st → 0 < is_tree_small (st_space st) → is_table_next (st_space st) ≠ 511%nat.
Proof.
  intros Hw Hsm Heq. destruct (sw_next _ _ Hw) as (k & ns & Hk & K1 & K2 & Hs).
  pose proof (its_next_le _ _ _ K1 K2) as (_ & _ & _ & [_ Hend]).
  rewrite Hend in Hs by lia.
  assert (small_set (tree_elems st) ns ns = ∅) as He.
  { apply set_eq. intros i. rewrite elem_of_small_set. split; [lia|set_solver]. }
  rewrite He, size_empty in Hs. lia.
Qed.

Lemma grow_loop_spec `{!others_rely} fuel st :
  space_wf ∅ st → live st → locked st → growing st = false →
  (512 ≤ fuel + is_table_next (st_space st))%nat → is_table_next (st_space st) ≠ 511%nat →
  ∃ st' kr, grow_loop fuel st ITS_SIZE_NONE = Ok (st', kr) ∧ grow_post st st' kr.
Proof.
  revert st. induction fuel as [|fuel IH]; intros st Hw Hl Hlk Hg Hf Hmax.
  { pose proof (space_next_bound _ _ Hw). lia. }
  destruct (sw_next _ _ Hw) as (k & size & Hk & K1 & K2 & _).
  rewrite (sw_size _ _ Hw) in K1.
  assert (its_size (Nat.pred (is_table_next (st_space st))) = Ok (tsize (st_table st))) as S1.
  { rewrite Hk. unfold its_size. simpl Nat.pred. by rewrite K1. }
  assert (its_size (is_table_next (st_space st)) = Ok size) as S2.
  { rewrite Hk. unfold its_size. by rewrite K2. }
  pose proof (its_next_le _ _ _ K1 K2) as (_ & Hle & _ & Hend).
  destruct (lookup_lt_is_Some_2 ipc_table_entries (S (S k))) as (nsize & K3).
  { destruct ipc_table_entries_ok as (-> & _). unfold ipc_table_entries_size.
    pose proof (space_next_bound _ _ Hw). lia. }
  assert (its_size (S (is_table_next (st_space st))) = Ok nsize) as S3.
  { rewrite Hk. unfold its_size. by rewrite K3. }
  pose proof (its_next_le _ _ _ K2 K3) as (_ & Hle' & _).
  rewrite (grow_loop_round fuel st _ _ _ Hl Hg S1 S2 S3) by lia.
  destruct (grow_round_spec st size nsize Hw Hl Hlk Hg S2 S3) as (st' & r & -> & Hg' & E & Hr); [lia|].
  ostep. destruct r as [kr|].
  { eexists _, _. split; [done|]. destruct kr; try done. destruct Hr. by split_and!. }
  destruct Hr as [Hl' Hn].
  assert (∃ st2 kr, Ok (st', KERN_SUCCESS) = Ok (st2, kr) ∧ grow_post st st2 kr) as Hdone.
  { eexists _, _. split; [done|]. by split_and!. }
  destruct (is_active (st_space st')) eqn:Hact; ostep; [|done].
  destruct (Nat.eqb_spec (is_table_next (st_space st')) (S (is_table_next (st_space st)))) as [Heq|]; ostep; [|done].
  case_match eqn:Hloop; [|done].
  assert (space_wf ∅ st') as Hw' by (by apply (ry_wf _ _ (proj1 E))).
  apply andb_prop in Hloop as [Hsm%Z.ltb_lt _].
  destruct (IH st' Hw' Hact Hl' Hg') as (st2 & kr & Hrun & Hp); [lia|by apply (not_last_size ∅)|].
  exists st2, kr. split; [done|]. destruct kr; try done; simpl in *.
  - destruct Hp as (? & ? & ? & Hlt). split_and!; [done..|by etrans|].
    intros Hl2. specialize (Hlt Hl2). lia.
  - destruct Hp as (? & ? & ?). split_and!; [done..|by etrans].
Qed.

(** At the last size the code reads an element past [ipc_table_entries]. *)
Lemma grow_last_size fuel st :
  space_wf ∅ st → live st → growing st = false → is_table_next (st_space st) = 511%nat →
  grow_loop (S fuel) st ITS_SIZE_NONE = Fault FDeref.
Proof.
  intros Hw Hl Hg Hn. cbn [grow_loop]. rewrite Hl, Hg. ostep.
  rewrite Hn. reflexivity.
Qed.

(** C19. ipc_entry_grow_table with no target size, run against any
    interference the rely condition allows while the lock is dropped,
    returns KERN_SUCCESS with the space locked and well-formed and a larger
    table (unless the space died), or KERN_RESOURCE_SHORTAGE unlocked; at
    the last table size it reads past the end of ipc_table_entries instead
    of returning KERN_NO_SPACE. *)
Theorem grow_table_correct `{!others_rely} st :
  space_wf ∅ st → live st → locked st → growing st = false →
  if decide (is_table_next (st_space st) = 511%nat)
  then ipc_entry_grow_table st ITS_SIZE_NONE = Fault FDeref
  else ∃ st' kr, ipc_entry_grow_table st ITS_SIZE_NONE = Ok (st', kr) ∧ grow_post st st' kr.
Proof.
  intros Hw Hl Hlk Hg. case_decide.
  - by apply grow_last_size.
  - apply grow_loop_spec; [done..| |done]. unfold ipc_table_entries_size.
    pose proof (space_next_bound _ _ Hw). lia.
Qed.

(** ** ipc_entry_alloc *)

Definition alloc_post (st : istate) (r : outcome (istate * (kern_return * option (Z * eptr)))) : Prop :=
  match r with
  | Ok (st', (KERN_SUCCESS, Some (name, ep))) =>
    ready st' ∧ ∃ st1, evolves st st1 ∧ live st1 ∧ space_wf ∅ st1 ∧
      same_view st1 st' ∧ got st1 st' name ep
  | Ok (st', (KERN_INVALID_TASK, None)) =>
    is_locked (st_space st') = false ∧ evolves st st' ∧ ¬ live st'
  | Ok (st', (KERN_RESOURCE_SHORTAGE, None)) =>
    is_locked (st_space st') = false ∧ evolves st st'
  | Ok _ => False
  | Fault f => f = FDeref ∧ ∃ st1, evolves st st1 ∧ live st1 ∧ space_wf ∅ st1 ∧
      is_table_next (st_space st1) = 511%nat ∧
      ∀ i, 0 < i < tsize (st_table st1) → type_at (st_table st1) i ≠ 0
  end.

Lemma alloc_post_mono st st1 r : evolves st st1 → alloc_post st1 r → alloc_post st r.
Proof.
  intros E. destruct r as [[st' [kr o]]|f].
  - destruct kr; simpl; try done.
    + destruct o as [[name ep]|]; [|done]. intros (Hl & st2 & ? & ?). split; [done|].
      exists st2. split; [by etrans|done].
    + destruct o; [done|]. intros []. split; [done|by etrans].
    + destruct o; [done|]. intros (? & ? & ?). split_and!; [done|by etrans|done].
  - simpl. intros (-> & st2 & ? & ?). split; [done|]. exists st2. split; [by etrans|done].
Qed.

Lemma entry_get_flags st st' r : ipc_entry_get st = Ok (st', r) → flags st' = flags st.
Proof.
  unfold ipc_entry_get. destruct (is_active _); ostep; [|done].
  destruct (tget (st_table st) 0) as [h|]; ostep; [|done].
  destruct (ie_next h =? 0); [by intros [= <- _]|].
  destruct (tget (st_table st) (ie_next h)) as [f|]; ostep; [|done].
  destruct (Z.land _ _ =? 0); ostep; [|done]. destruct (MACH_PORT_VALID _); ostep; [|done].
  destruct (ie_object f =? _); ostep; [|done]. by intros [= <- _].
Qed.

Lemma alloc_loop_spec `{!others_rely} fuel st :
  (live st → space_wf ∅ st) → locked st → growing st = false →
  (live st → (513 ≤ fuel + is_table_next (st_space st))%nat) → (0 < fuel)%nat →
  alloc_post st (entry_alloc_loop fuel st).
Proof.
  revert st. induction fuel as [|fuel IH]; intros st Hw Hlk Hg Hf Hf0; [lia|].
  cbn [entry_alloc_loop]. destruct (is_active (st_space st)) eqn:Hl; ostep.
  2:{ destruct (unlock_spec st Hlk) as (st1 & -> & Hu & E). ostep. split_and!; [done..|].
      intros Hx%(ry_live _ _ (proj1 E)). congruence. }
  specialize (Hw eq_refl). specialize (Hf eq_refl).
  destruct (entry_get_wf st Hw Hl) as (st' & kr & r & Hrun & Hv & Hspec).
  pose proof (entry_get_flags _ _ _ Hrun) as Hlk'. rewrite Hrun. ostep.
  destruct r as [[name ep]|].
  { destruct Hspec as (-> & Hgot). rewrite bool_decide_true by done. ostep.
    split; [rewrite Hlk'; unfold flags; congruence|]. exists st. done. }
  destruct Hspec as (-> & -> & Hno). rewrite bool_decide_false by done. ostep.
  destruct (decide (is_table_next (st_space st) = 511%nat)) as [Hmax|Hmax].
  { unfold ipc_entry_grow_table, ipc_table_entries_size. rewrite (grow_last_size _ st Hw Hl Hg Hmax). ostep.
    split; [done|]. by exists st. }
  pose proof (space_next_bound _ _ Hw) as Hb.
  destruct (grow_loop_spec ipc_table_entries_size st Hw Hl Hlk Hg) as (st1 & kr & Hrun1 & Hp);
    [unfold ipc_table_entries_size; lia|done|].
  unfold ipc_entry_grow_table. rewrite Hrun1. ostep. destruct kr; try done; simpl in Hp; ostep.
  - destruct Hp as (Hl1 & Hg1 & E & Hn). rewrite bool_decide_true by done. ostep.
    eapply alloc_post_mono; [done|]. apply IH; [|done|done| |lia].
    + by apply (ry_wf _ _ (proj1 E)).
    + intros Hl'. specialize (Hn Hl'). lia.
  - rewrite bool_decide_false by done. ostep. by destruct Hp as (? & ? & ?).
Qed.

Lemma entry_alloc_spec `{!others_rely} st :
  (live st → space_wf ∅ st) → is_locked (st_space st) = false → growing st = false →
  alloc_post st (ipc_entry_alloc st).
Proof.
  intros Hw Hl Hg. unfold ipc_entry_alloc. destruct (lock_spec st Hl) as (st1 & -> & Hl1 & E). ostep.
  eapply alloc_post_mono; [done|]. apply alloc_loop_spec; [|done| | |].
  - by apply (ry_wf _ _ (proj1 E)).
  - by rewrite (ry_growing _ _ (proj1 E)).
  - intros Hl'. pose proof (space_next_bound _ _ (ry_wf _ _ (proj1 E) Hw Hl')).
    unfold ipc_table_entries_size. lia.
  - lia.
Qed.

(** C20. ipc_entry_alloc terminates; on success the space is locked and
    well-formed and the name returned was unbound, is valid and denotes a
    blank entry, with every other name unchanged; otherwise the space is
    unlocked and the error is KERN_INVALID_TASK of a dead space or
    KERN_RESOURCE_SHORTAGE; when the table has its last size and no entry
    is free, the code reads past the end of ipc_table_entries (a fault of
    the model) instead of giving an error. *)
Theorem entry_alloc_correct `{!others_rely} st :
  (live st → space_wf ∅ st) → is_locked (st_space st) = false → growing st = false →
  alloc_post st (ipc_entry_alloc st).
Proof. apply entry_alloc_spec. Qed.
End alloc.
