(* ===== verification/IpcAllocName.v ===== *)
(** * Allocating a given name (ipc/ipc_entry.c, ipc_entry_alloc_name)

    The entry of the name is found, or taken out of the middle of the free
    list, or made in the splay tree; the table grows first when that costs
    less memory than the tree. *)

From stdpp Require Import prelude list gmap.
From S2P Require Import Prelude MachPort IpcSplay IpcTypes IpcHash IpcTable IpcEntry IpcInv.
From S2P Require Import IpcDealloc IpcGrow IpcAlloc.

Section alloc_name.
Context {W : iworld}.

(** ** Ripping an entry out of the free list *)

Lemma rip_loop_spec fuel t a l1 i l2 :
  linked t a (l1 ++ i :: l2) → i ∉ l1 → (∀ j, j ∈ a :: l1 → 0 ≤ j < tsize t) →
  (length l1 < fuel)%nat → rip_loop fuel t i a = Ok (pred_of a l1).
Proof.
  revert fuel a. induction l1 as [|b l1 IH]; intros fuel a Hl Hni Hr Hf;
    (destruct fuel as [|fuel]; [simpl in Hf; lia|]); cbn [rip_loop].
  - destruct (tget_is_Some t a) as (e & He); [apply Hr; by left|]. rewrite He. ostep.
    destruct Hl as (Hn & _). rewrite (next_at_get _ _ _ He), Hn, Z.eqb_refl. done.
  - destruct (tget_is_Some t a) as (e & He); [apply Hr; by left|]. rewrite He. ostep.
    destruct Hl as (Hn & _ & Hl). rewrite (next_at_get _ _ _ He), Hn.
    rewrite not_elem_of_cons in Hni. destruct Hni as [Hne Hni].
    rewrite (proj2 (Z.eqb_neq b i)) by done. apply IH; [done..| |simpl in Hf; lia].
    intros j Hj. apply Hr. by right.
Qed.

Lemma free_list_length H t fl :
  NoDup fl → (∀ i, i ∈ fl ↔ free_index H t i) → (length fl ≤ length t)%nat.
Proof.
  intros Hnd Hfl. assert (fl ⊆+ seqZ 0 (tsize t)) as Hs.
  { apply NoDup_submseteq; [done|]. intros i (Hi & _)%Hfl. apply elem_of_seqZ. lia. }
  apply submseteq_length in Hs. rewrite length_seqZ in Hs. unfold tsize in Hs. lia.
Qed.

Lemma entry_rip_spec H st i gen :
  space_wf H st → free_index H (st_table st) i → is_gen gen →
  ∃ t' e, entry_rip st i gen = Ok (set_table st t') ∧ taken H (st_table st) t' i gen ∧
    tget t' i = Some e ∧ blank gen e ∧
    ∀ j, 0 < j → j ≠ i → type_at (st_table st) j ≠ 0 → tget t' j = tget (st_table st) j.
Proof.
  intros Hw Hi Hg. pose proof (space_wf_size _ _ Hw) as Hsz.
  destruct (tw_free _ _ (sw_table _ _ Hw)) as (fl & Hl & Hnd & Hfl).
  pose proof (free_list_length H _ _ Hnd Hfl) as Hlen.
  assert (i ∈ fl) as Hin by (by apply Hfl).
  apply list_elem_of_split in Hin as (l1 & l2 & ->).
  assert (i ∉ l1) as Hni.
  { intros Hin. apply NoDup_app in Hnd as (_ & Hd & _). apply (Hd i Hin). by left. }
  destruct (take_table_taken H (st_table st) l1 i l2 gen) as [Hne Hta]; [apply Hw|done..|].
  destruct (tget_is_Some (st_table st) i) as (e & He); [destruct Hi; lia|].
  destruct (tw_free_entry _ _ (sw_table _ _ Hw) i) as [_ Ho]; [by apply Hi..|].
  unfold entry_rip. rewrite (rip_loop_spec _ _ 0 l1 i l2); [|done..| |].
  - ostep. rewrite He. ostep. rewrite (object_at_get _ _ _ He), Ho. ostep.
    eexists _, _. split; [rewrite (next_at_get _ _ _ He); reflexivity|]. split; [exact Hta|].
    split; [by apply take_table_get|]. split.
    + by rewrite <-(object_at_get _ _ _ He) in Ho.
    + intros j Hj Hji Htj. rewrite !tget_tmod_ne; [done| |done]. intros <-.
      pose proof (pred_of_elem 0 l1) as [Hx|Hx]%elem_of_cons; [lia|].
      assert (pred_of 0 l1 ∈ l1 ++ i :: l2) as (_ & ? & _)%Hfl; [|done].
      rewrite elem_of_app. auto.
  - intros j [->|Hj]%elem_of_cons; [lia|].
    assert (j ∈ l1 ++ i :: l2) as (? & _)%Hfl; [rewrite elem_of_app; auto|lia].
  - rewrite length_app in Hlen. simpl in Hlen. lia.
Qed.

(** ** A new tree entry *)

Section inserted.
Context (st : istate) (name p : Z) (tree : ipc_splay_tree Z) (t' : list ipc_entry) (small : Z).
Local Abbreviation t := (st_table st).
Local Abbreviation idx := (MACH_PORT_INDEX name).
Let te : ipc_tree_entry := ITE_ (IE 0 IO_NULL 0 0) name space_addr.
Hypothesis Hw : space_wf ∅ st.
Hypothesis Hok : name_ok name.
Hypothesis Hslow : is_fast (st_space st) = false.
Hypothesis Hfresh : st_ites st !! p = None.
Hypothesis Hs : splay_wf tree.
Hypothesis Hwo : without (elems tree) name p (tree_elems st).
Hypothesis Hused : 0 < idx < tsize t → name_at t idx ≠ name ∧ type_at t idx ≠ 0.
Hypothesis Hsc : same_but_collisions t t'.
Hypothesis Hother : ∀ j, 0 ≤ j < tsize t → j ≠ idx → bits_at t' j = bits_at t j.
Hypothesis Hidx : 0 ≤ idx < tsize t → collides (bits_at t' idx) = true.
Hypothesis Hsm : ∀ nsize, its_size (is_table_next (st_space st)) = Ok nsize →
  small = Z.of_nat (size (small_set (elems tree) (tsize t) nsize)).

Lemma is_nodup : NoDup (elems tree).*1.
Proof. apply ordered_NoDup. apply Hs. Qed.

Lemma is_new : name ∉ (tree_elems st).*1.
Proof. intros Hin. by apply (without_names _ _ _ _ _ is_nodup Hwo) in Hin as [_ ?]. Qed.

Lemma is_elem n q : (n, q) ∈ elems tree ↔ (n = name ∧ q = p) ∨ ((n, q) ∈ tree_elems st ∧ n ≠ name).
Proof.
  assert ((n, q) ∈ tree_elems st → n ≠ name) as Hne.
  { intros Hq ->. apply is_new, elem_of_names. eauto. }
  destruct Hwo as (l1 & l2 & Hl & Hl'). rewrite Hl. rewrite Hl' in *.
  rewrite !elem_of_app, elem_of_cons, pair_eq in *. tauto.
Qed.

Lemma is_names i : 0 < i < tsize t → name_at t i ≠ name.
Proof.
  intros Hi Heq. pose proof (space_wf_size _ _ Hw) as Hsz.
  assert (idx = i) as Hx by (rewrite <-Heq; apply INDEX_MAKEB; lia).
  destruct Hused as [Hne _]; [lia|]. by rewrite Hx in Hne.
Qed.

Lemma is_not_p n q : (n, q) ∈ tree_elems st → q ≠ p.
Proof. intros Hq ->. destruct (tree_elem_ok _ _ _ _ Hw Hq) as (? & ? & _). congruence. Qed.

Lemma is_not_hashed q : q ∈ mjoin (st_buckets st) → q ≠ p.
Proof.
  intros (k & b & Hb & Hq)%elem_of_mjoin ->.
  destruct (gh_bucket _ _ _ (hw_global _ _ _ _ _ (sw_hash _ _ Hw)) k b p Hb Hq) as (? & ? & _).
  congruence.
Qed.

Lemma is_own q : q ≠ p → own (<[p := te]> (st_ites st)) q ↔ own (st_ites st) q.
Proof. intros. unfold own. by rewrite lookup_insert_ne. Qed.

Lemma is_object q : q ≠ p → object_of (<[p := te]> (st_ites st)) q = object_of (st_ites st) q.
Proof. intros. unfold object_of. by rewrite lookup_insert_ne. Qed.

Lemma is_hash_wf : hash_wf {[name]} t' (elems tree) (<[p := te]> (st_ites st)) (st_buckets st).
Proof.
  assert (hash_wf {[name]} t' (tree_elems st) (st_ites st) (st_buckets st)) as Hh.
  { eapply hash_wf_ext; [apply Hw|apply Hsc| |set_solver]. intros i Hi _. left.
    rewrite (sc_type _ _ _ Hsc). set_solver. }
  split.
  - apply Hh.
  - destruct (hw_global _ _ _ _ _ Hh) as [? ? Hb ? Ho Hu]. split; try done.
    + intros b bucket q Hk Hq. rewrite lookup_insert_ne; [by eapply Hb|].
      apply not_eq_sym, is_not_hashed, elem_of_mjoin. eauto.
    + intros q tq Hq. rewrite lookup_insert_ne by (apply not_eq_sym; by apply is_not_hashed).
      intros Htq Hsp. destruct (Ho q tq Hq Htq Hsp) as [Hin ?]. split; [|done].
      apply is_elem. right. split; [done|]. intros Heq. apply is_new. rewrite <-Heq.
      apply elem_of_names. eauto.
    + intros q r Hq Hr. rewrite !is_own, !is_object by (by apply is_not_hashed). by apply Hu.
  - apply Hh.
  - intros n q teq Hq Hteq Hn. apply is_elem in Hq as [[-> _]|[Hq _]]; [set_solver|].
    rewrite lookup_insert_ne in Hteq by (apply not_eq_sym; by eapply is_not_p).
    by apply (hw_tree_type _ _ _ _ _ Hh n q teq).
  - intros i q Hi Hq. rewrite is_own, is_object by (by apply is_not_hashed).
    by apply (hw_disjoint _ _ _ _ _ Hh).
Qed.

Lemma is_coll_wf : coll_wf {[name]} t' (elems tree).
Proof.
  pose proof (sw_coll _ _ Hw) as Hc. assert (tsize t' = tsize t) as Hn by apply Hsc.
  assert (∀ n, n ∈ (elems tree).*1 ↔ n = name ∨ n ∈ (tree_elems st).*1) as Hnames.
  { intros n. rewrite !elem_of_names. setoid_rewrite is_elem. split; [naive_solver|].
    intros [->|(q & Hq)]; [eauto|]. exists q. right. split; [done|]. intros ->.
    apply is_new, elem_of_names. eauto. }
  split.
  - intros i. rewrite Hn. intros Hi. destruct (decide (i = idx)) as [->|Hne].
    + rewrite Hidx by done. split; [|done]. intros _. exists name. rewrite Hnames. auto.
    + rewrite Hother by done. rewrite (cw_bit _ _ _ Hc i Hi). setoid_rewrite Hnames. naive_solver.
  - intros n. rewrite Hn, (sc_name _ _ _ Hsc), (sc_type _ _ _ Hsc), Hnames. intros Hin Hr.
    destruct Hin as [->|Hin]; [destruct (Hused Hr); auto|].
    destruct (cw_used _ _ _ Hc n Hin Hr) as [? [?|?]]; [by auto|set_solver].
Qed.

Lemma is_wf :
  space_wf {[name]} (rebuild st t' tree (is_tree_total (st_space st) + 1) small
    (is_tree_hash (st_space st)) (<[p := te]> (st_ites st)) (st_buckets st)).
Proof.
  assert (is_tree_total (st_space st) + 1 = Z.of_nat (length (elems tree))) as ->.
  { rewrite (sw_total _ _ Hw), (without_length _ _ _ _ Hwo). lia. }
  assert (is_tree_hash (st_space st) =
    Z.of_nat (own_hashed (<[p := te]> (st_ites st)) (st_buckets st))) as ->.
  { rewrite (sw_hashed _ _ Hw). unfold own_hashed. do 2 f_equal. apply filter_ext_in.
    intros q Hq. by rewrite is_own by (by apply is_not_hashed). }
  assert (tsize t' = tsize t) as Hn by apply Hsc.
  eapply rebuild_wf; [done|done| | |done| |apply is_coll_wf|apply is_hash_wf| |].
  - by rewrite Hn.
  - eapply sc_table_wf_gen; [apply Hw|done| |].
    + intros i Hi. pose proof (is_names i Hi). set_solver.
    + intros j (Hj & Hty & _). apply Hother; [lia|]. intros ->. by destruct Hused.
  - intros n q [[-> ->]|[Hq Hne]]%is_elem.
    + exists te. rewrite lookup_insert_eq. split; [done|]. split_and!; [done..|set_solver].
    + destruct (tree_elem_ok _ _ _ _ Hw Hq) as (tq & Htq & ? & ? & ? & ? & Hty).
      exists tq. rewrite lookup_insert_ne by (apply not_eq_sym; by eapply is_not_p).
      split; [done|]. split_and!; [done..|]. intros _. apply Hty. set_solver.
  - intros Hf. congruence.
  - intros n ->%elem_of_singleton. split; [apply Hok|]. exists (EP_tree p).
    apply is_elem. by left.
Qed.

Lemma is_view :
  same_view st (rebuild st t' tree (is_tree_total (st_space st) + 1) small
    (is_tree_hash (st_space st)) (<[p := te]> (st_ites st)) (st_buckets st)).
Proof.
  intros n Hu. eapply (view_holds_eq ∅ {[name]}); [done|apply is_wf|done|]. intros c Hc. unfold holds.
  assert (tsize t' = tsize t) as Hn by apply Hsc.
  split; intros ([i|q] & e & Hd & He & <-); rewrite TYPE_cap in Hc.
  - change (0 < i < tsize t' ∧ name_at t' i = n ∧ (type_at t' i ≠ 0 ∨ n ∈ ({[name]} : gset Z))) in Hd.
    change (tget t' i = Some e) in He. rewrite Hn, (sc_name _ _ _ Hsc) in Hd.
    destruct Hd as (Hi & Hnm & _). destruct (tget_is_Some t i) as (e0 & He0); [lia|].
    exists (EP_table i), e0. split_and!; [|done|symmetry; by eapply sc_cap].
    simpl. split_and!; [lia..|done|left].
    rewrite <-(sc_type _ _ _ Hsc). unfold type_at. by rewrite <-(bits_at_get _ _ _ He).
  - change ((n, q) ∈ elems tree) in Hd. change (ite_entry <$> <[p := te]> (st_ites st) !! q = Some e) in He.
    apply is_elem in Hd as [[-> ->]|[Hq Hne]].
    + rewrite lookup_insert_eq in He. injection He as <-. done.
    + rewrite lookup_insert_ne in He by (apply not_eq_sym; by eapply is_not_p).
      by exists (EP_tree q), e.
  - destruct Hd as (Hi & Hnm & _). simpl in He.
    destruct (tget_is_Some t' i) as (e0 & He0); [lia|].
    exists (EP_table i), e0. split_and!; [|done|by eapply sc_cap].
    change (0 < i < tsize t' ∧ name_at t' i = n ∧ (type_at t' i ≠ 0 ∨ n ∈ ({[name]} : gset Z))).
    rewrite Hn, (sc_name _ _ _ Hsc), (sc_type _ _ _ Hsc). split_and!; [lia..|done|left].
    unfold type_at. by rewrite <-(bits_at_get _ _ _ He).
  - exists (EP_tree q), e. split_and!; [| |done].
    + apply is_elem. right. split; [done|]. intros ->. apply is_new, elem_of_names. eauto.
    + change (ite_entry <$> <[p := te]> (st_ites st) !! q = Some e).
      rewrite lookup_insert_ne by (apply not_eq_sym; by eapply is_not_p). done.
Qed.
End inserted.

(** The entry returned for a new name. *)
Definition made (st st' : istate) (name : Z) (ep : eptr) : Prop :=
  space_view st name = None ∧ space_wf {[name]} st' ∧ same_view st st' ∧
  denotes {[name]} st' name ep ∧ flags st' = flags st ∧
  ∃ e, eget st' ep = Some e ∧
    blank (match ep with EP_table _ => MACH_PORT_GEN name | EP_tree _ => 0 end) e.

Section tree_insert.
Context (st : istate) (name p nsize : Z).
Local Abbreviation t := (st_table st).
Local Abbreviation idx := (MACH_PORT_INDEX name).
Hypothesis Hw : space_wf ∅ st.
Hypothesis Hact : live st.
Hypothesis Hok : name_ok name.
Hypothesis Hslow : is_fast (st_space st) = false.
Hypothesis Hfresh : st_ites st !! p = None.
Hypothesis Hnew : name ∉ (tree_elems st).*1.
Hypothesis Hused : 0 < idx < tsize t → name_at t idx ≠ name ∧ type_at t idx ≠ 0.
Hypothesis Hns : its_size (is_table_next (st_space st)) = Ok nsize.

Lemma ti_view : space_view st name = None.
Proof.
  eapply view_None; [done| |].
  - apply Hok.
  - intros [i|q] Hd; simpl in Hd; [|apply Hnew, elem_of_names; eauto]. destruct Hd as (Hi & Hnm & _).
    pose proof (space_wf_size _ _ Hw). assert (idx = i) as Hx by (rewrite <-Hnm; apply INDEX_MAKEB; lia).
    destruct Hused as [Hne _]; [lia|]. by rewrite Hx in Hne.
Qed.

(** The state when the entry goes into the tree [tree0]. *)
Definition inserting (t' : list ipc_entry) (tree0 : ipc_splay_tree Z) (small : Z) : istate :=
  rebuild st t' tree0 (is_tree_total (st_space st) + 1) small (is_tree_hash (st_space st))
    (st_ites st) (st_buckets st).

Lemma ti_finish t' tree0 small :
  splay_wf tree0 → elems tree0 = tree_elems st → same_but_collisions t t' →
  (∀ j, 0 ≤ j < tsize t → j ≠ idx → bits_at t' j = bits_at t j) →
  (0 ≤ idx < tsize t → collides (bits_at t' idx) = true) →
  (∀ l, NoDup l.*1 → without l name p (tree_elems st) → small = Z.of_nat (size (small_set l (tsize t) nsize))) →
  ∃ st', (tree ← ipc_splay_tree_insert tree0 name p;
     Ok (with_ites (set_tree (inserting t' tree0 small) tree)
           (<[p := ITE_ (IE 0 IO_NULL 0 0) name space_addr]>))) = Ok st' ∧
    made st st' name (EP_tree p).
Proof.
  intros Hs0 He0 Hsc Hother Hidx Hsm.
  destruct (insert_spec tree0 name p) as (tree & l1 & l2 & -> & Hs & Hl & _ & _ & Hl');
    [done|apply Hok|by rewrite He0|]. ostep.
  assert (without (elems tree) name p (tree_elems st)) as Hwo by (exists l1, l2; split; congruence).
  pose proof (is_nodup tree Hs) as Hnd.
  eexists. split; [reflexivity|]. split; [apply ti_view|].
  assert (∀ ns, its_size (is_table_next (st_space st)) = Ok ns →
    small = Z.of_nat (size (small_set (elems tree) (tsize t) ns))) as Hsm'.
  { intros ns Heq. assert (ns = nsize) as -> by congruence. by apply Hsm. }
  split; [by apply (is_wf st name p tree t' small)|].
  split; [by apply (is_view st name p tree t' small)|].
  split; [by eapply is_elem; [..|left]|]. split; [done|].
  exists (IE 0 IO_NULL 0 0). split; [|done].
  change (ite_entry <$> <[p := ITE_ (IE 0 IO_NULL 0 0) name space_addr]> (st_ites st) !! p =
    Some (IE 0 IO_NULL 0 0)). by rewrite lookup_insert_eq.
Qed.

Lemma entry_tree_insert_spec :
  ∃ st', entry_tree_insert st name p nsize = Ok st' ∧ made st st' name (EP_tree p).
Proof.
  destruct (space_wf_next _ _ Hw) as (ns & Hns' & Hle & Hsm).
  assert (ns = nsize) as -> by congruence.
  pose proof (MACH_PORT_INDEX_range name (proj1 Hok)) as Hr.
  assert (∀ l, NoDup l.*1 → without l name p (tree_elems st) → (name, p) ∈ l) as Hin.
  { intros l _ (l1 & l2 & -> & _). rewrite elem_of_app, elem_of_cons. auto. }
  assert (∀ l, NoDup l.*1 → without l name p (tree_elems st) →
    (∃ n, n ∈ (tree_elems st).*1 ∧ MACH_PORT_INDEX n = idx) ∨ ¬ tsize t ≤ idx < nsize →
    is_tree_small (st_space st) = Z.of_nat (size (small_set l (tsize t) nsize))) as Hsame.
  { intros l Hnd Hwo Hor. rewrite Hsm. do 2 f_equal. by eapply small_without_same; [|apply Hin|..]. }
  unfold entry_tree_insert. cbv zeta.
  change (is_table_size (st_space (with_space st _))) with (is_table_size (st_space st)).
  rewrite (sw_size _ _ Hw).
  destruct (Z.ltb_spec idx (tsize t)) as [Hlt|Hge].
  { ostep. apply (ti_finish (tmod t idx (λ e, set_ie_bits e (Z.lor (ie_bits e) IE_BITS_COLLISION))) (is_tree (st_space st)) (is_tree_small (st_space st)));
      [apply Hw|done|apply set_collision_same| | |].
    - intros j _ Hj. rewrite (bits_at_mod _ _ (λ b, Z.lor b IE_BITS_COLLISION)) by lia.
      by rewrite decide_False.
    - intros _. rewrite (bits_at_mod _ _ (λ b, Z.lor b IE_BITS_COLLISION)) by lia.
      rewrite decide_True by done. apply collides_set_collision.
    - intros l Hnd Hwo. apply Hsame; [done..|right; lia]. }
  assert (∀ tree0 small, splay_wf tree0 → elems tree0 = tree_elems st →
    (∀ l, NoDup l.*1 → without l name p (tree_elems st) →
       small = Z.of_nat (size (small_set l (tsize t) nsize))) →
    ∃ st', (tree ← ipc_splay_tree_insert tree0 name p;
      Ok (with_ites (set_tree (inserting t tree0 small) tree)
           (<[p := ITE_ (IE 0 IO_NULL 0 0) name space_addr]>))) = Ok st' ∧
    made st st' name (EP_tree p)) as Hfin.
  { intros tree0 small Hs0 He0 Hsm0. apply ti_finish; [done..|apply same_but_collisions_refl|done|lia|done]. }
  destruct (Z.ltb_spec idx nsize) as [Hlt'|Hge'].
  - destruct (tree_collision_spec (with_space st (λ s, set_is_tree_total s (is_tree_total s + 1))) name)
      as (st1 & b & -> & (tree0 & -> & Hs0 & He0) & Hb); [apply Hw| |done|].
    { intros n (q & Hq)%elem_of_names.
      destruct (tree_elem_ok _ _ _ _ Hw Hq) as (? & _ & _ & _ & ? & _). done. }
    ostep. change (tree_elems (with_space st _)) with (tree_elems st) in *. destruct b; ostep.
    + apply (Hfin tree0 (is_tree_small (st_space st))); [done..|]. intros l Hnd Hwo.
      apply Hsame; [done..|left; by apply Hb].
    + apply (Hfin tree0 (is_tree_small (st_space st) + 1)); [done..|]. intros l Hnd Hwo.
      rewrite (small_without_less l (tree_elems st) name p (tsize t) nsize); [|done|by apply Hin|done|lia|].
      * lia.
      * rewrite <-Hb. done.
  - ostep. apply (Hfin (is_tree (st_space st)) (is_tree_small (st_space st))); [apply Hw|done|].
    intros l Hnd Hwo. apply Hsame; [done..|right; lia].
Qed.
End tree_insert.

(** ** The other threads and the name *)

(** While the lock is released the name is not allocated by another thread
    (a second allocation of the same name is a panic of the assertion on
    [tree_entry], see [alloc_name_race]), and memory that an allocator has
    given to this call is not used by the others. *)
Class name_rely (name : Z) (reserved : Z → Prop) : Prop := {
  nr_name c st : is_locked (st_space st) = false → live (w_other c st) →
    space_view st name = None → space_view (w_other c st) name = None;
  nr_alloc c st p : w_alloc c st = Some p → reserved p ∧ st_ites st !! p = None;
  nr_reserved c st p : is_locked (st_space st) = false → reserved p → st_ites st !! p = None →
    st_ites (w_other c st) !! p = None;
}.

(** The tree entry in hand is not in use, and there is none unless the name
    has been found free. *)
Definition spare (reserved : Z → Prop) (st : istate) (name : Z) (tree_entry : option Z) : Prop :=
  match tree_entry with
  | None => True
  | Some p => reserved p ∧ st_ites st !! p = None ∧ is_fast (st_space st) = false ∧
      (live st → space_view st name = None)
  end.

Lemma spare_evolves `{!others_rely, !name_rely name reserved} st st' tree_entry :
  is_u32 name → evolves st st' → spare reserved st name tree_entry → spare reserved st' name tree_entry.
Proof.
  intros Hu [Hr Hi]. destruct tree_entry as [p|]; [|done]. intros (Hp & Hn & Hf & Hv).
  assert (st_ites st' !! p = None ∧ (live st' → space_view st' name = None)) as [? ?].
  { clear Hr Hf. induction Hi as [st|st st1 st' Hstep Hi IH]; [done|]. apply IH.
    - destruct Hstep as [(_ & Hsub & _)|(Hl & c & ->)]; [|by apply nr_reserved].
      by eapply lookup_weaken_None.
    - destruct Hstep as [(Hv' & _ & Ha)|(Hl & c & ->)]; intros Hlive.
      + rewrite Hv' by done. apply Hv. congruence.
      + apply nr_name; [done..|]. apply Hv. by apply (ry_live _ _ (other_rely c st Hl)). }
  split_and!; [done..| |done]. by rewrite (ry_fast _ _ Hr).
Qed.

Lemma spare_free reserved st name tree_entry :
  spare reserved st name tree_entry → ite_free_opt st tree_entry = st.
Proof.
  destruct tree_entry as [p|]; [|done]. intros (_ & Hn & _). unfold ite_free_opt, ite_free, with_ites.
  rewrite delete_id by done. by destruct st.
Qed.

(** ** The results *)

(** The entry returned for a name that exists. *)
Definition existing (st st' : istate) (name : Z) (ep : eptr) : Prop :=
  space_view st name ≠ None ∧ space_wf ∅ st' ∧ same_view st st' ∧ denotes ∅ st' name ep ∧
  flags st' = flags st.

Definition alloc_name_post (st : istate) (name : Z)
    (r : outcome (istate * (kern_return * option eptr))) : Prop :=
  match r with
  | Ok (st', (KERN_SUCCESS, Some ep)) =>
    ready st' ∧ ∃ st1, evolves st st1 ∧ live st1 ∧ space_wf ∅ st1 ∧
      (existing st1 st' name ep ∨ made st1 st' name ep)
  | Ok (st', (KERN_INVALID_TASK, None)) =>
    is_locked (st_space st') = false ∧ evolves st st' ∧ ¬ live st'
  | Ok (st', (KERN_RESOURCE_SHORTAGE, None)) =>
    is_locked (st_space st') = false ∧ evolves st st'
  | Ok (st', (KERN_FAILURE, None)) =>
    is_locked (st_space st') = false ∧ evolves st st' ∧ is_fast (st_space st') = true
  | _ => False
  end.

Lemma alloc_name_post_mono st st1 name r :
  evolves st st1 → alloc_name_post st1 name r → alloc_name_post st name r.
Proof.
  intros E. destruct r as [[st' [kr o]]|f]; [|done].
  destruct kr, o; simpl; try done.
  - intros (Hl & st2 & ? & ?). split; [done|]. exists st2. split; [by etrans|done].
  - intros (? & ? & ?). split_and!; [done|by etrans|done].
  - intros []. split; [done|by etrans].
  - intros (? & ? & ?). split_and!; [done|by etrans|done].
Qed.

(** ** The search *)

Section search.
Context (name : Z) (reserved : Z → Prop).
Hypothesis Hok : name_ok name.
Local Abbreviation idx := (MACH_PORT_INDEX name).

Definition slot_taken (st : istate) : Prop :=
  0 < idx < tsize (st_table st) → name_at (st_table st) idx ≠ name ∧ type_at (st_table st) idx ≠ 0.

Lemma existing_denotes st st' ep :
  space_wf ∅ st → resplayed st st' → denotes ∅ st name ep → existing st st' name ep.
Proof.
  intros Hw Hr Hd. destruct (denotes_eget _ _ _ _ Hw Hd) as (e & He). split_and!.
  - rewrite (view_denotes _ _ _ _ _ Hw Hd He), (proj2 (Z.eqb_neq _ 0)); [done|].
    eapply denotes_typed; [done..|set_solver|done].
  - by eapply resplayed_wf.
  - intros n _. by eapply resplayed_view.
  - by eapply resplayed_denotes.
  - by destruct Hr as (tree & -> & _).
Qed.

Lemma made_rip st t' e :
  space_wf ∅ st → free_index ∅ (st_table st) idx →
  taken ∅ (st_table st) t' idx (MACH_PORT_GEN name) → tget t' idx = Some e →
  blank (MACH_PORT_GEN name) e →
  (∀ j, 0 < j → j ≠ idx → type_at (st_table st) j ≠ 0 → tget t' j = tget (st_table st) j) →
  made st (set_table st t') name (EP_table idx).
Proof.
  intros Hw Hi Hta He Hb Hj. destruct Hok as (Hu & _).
  pose proof (taken_wf _ _ _ _ _ Hw Hi Hta) as Hw'.
  rewrite MACH_PORT_MAKE_INDEX_GEN, (right_id_L ∅ (∪)) in Hw' by done.
  assert (same_view st (set_table st t')) as Hv.
  { intros n Hn. by eapply take_table_view. }
  assert (denotes {[name]} (set_table st t') name (EP_table idx)) as Hd.
  { simpl. change (st_table (set_table st t')) with t'.
    rewrite (sh_size _ _ (ta_hash _ _ _ _ _ Hta)). split; [apply Hi|]. split; [|set_solver].
    unfold name_at, MACH_PORT_MAKEB. rewrite (ta_bits _ _ _ _ _ Hta), decide_True by done.
    rewrite (proj1 (is_gen_fix _) (is_gen_MACH_PORT_GEN name)). by apply MACH_PORT_MAKE_INDEX_GEN. }
  split_and!; [|done..|by exists e]. rewrite <-Hv by done.
  rewrite (view_denotes _ _ _ _ e Hw' Hd He). destruct Hb as (-> & _).
  rewrite <-(proj1 (is_gen_fix _) (is_gen_MACH_PORT_GEN name)), TYPE_GEN. done.
Qed.

Lemma alloc_name_table_spec st tree_entry :
  space_wf ∅ st → live st → spare reserved st name tree_entry →
  ∃ r, alloc_name_table st name tree_entry = Ok r ∧
    match r with
    | Some st' => existing st st' name (EP_table idx) ∨ made st st' name (EP_table idx)
    | None => slot_taken st
    end.
Proof.
  intros Hw Hl Hsp. pose proof (space_wf_size _ _ Hw) as Hsz. destruct Hok as (Hu & _).
  unfold alloc_name_table. rewrite (sw_size _ _ Hw). unfold slot_taken.
  destruct (Z.ltb_spec 0 idx) as [Hpos|]; simpl; [|eexists; split; [done|intros ?; lia]].
  destruct (Z.ltb_spec idx (tsize (st_table st))) as [Hlt|]; simpl; [|eexists; split; [done|intros ?; lia]].
  destruct (tget_is_Some (st_table st) idx) as (e & He); [lia|].
  change (is_table (st_space st)) with (st_table st). rewrite He. ostep.
  rewrite (bits_at_get _ _ _ He). fold (type_at (st_table st) idx).
  destruct (Z.eqb_spec (type_at (st_table st) idx) 0) as [Ht|Ht]; ostep.
  - assert (free_index ∅ (st_table st) idx) as Hi by (split_and!; [lia..|done|set_solver]).
    destruct (entry_rip_spec ∅ st idx (MACH_PORT_GEN name) Hw Hi (is_gen_MACH_PORT_GEN _))
      as (t' & e' & -> & Hta & He' & Hb & Hj). ostep.
    assert (negb (is_fast (st_space st)) || bool_decide (tree_entry = None) = true) as ->.
    { destruct tree_entry; [|by rewrite orb_true_r]. by destruct Hsp as (_ & _ & -> & _). }
    ostep. eexists. split; [done|]. right.
    assert ((if is_fast (st_space st) then set_table st t'
      else ite_free_opt (set_table st t') tree_entry) = set_table st t') as ->.
    { case_match; [done|]. destruct tree_entry as [p|]; [|done]. destruct Hsp as (_ & Hp & _).
      unfold ite_free_opt, ite_free, with_ites. simpl. by rewrite delete_id. }
    by eapply made_rip.
  - destruct (Z.eqb_spec (IE_BITS_GEN (bits_at (st_table st) idx)) (MACH_PORT_GEN name)) as [Hg|Hg].
    + assert (denotes ∅ st name (EP_table idx)) as Hd.
      { simpl. split_and!; [lia..| |by left]. apply MAKEB_eq; [lia|done|done]. }
      pose proof (existing_denotes st st _ Hw (resplayed_refl _ _ Hw) Hd) as Hex.
      rewrite bool_decide_true.
      2:{ destruct tree_entry; [|done]. destruct Hsp as (_ & _ & _ & Hv). destruct Hex as [Hne _].
          exfalso. by apply Hne, Hv. }
      ostep. eexists. split; [done|by left].
    + eexists. split; [done|]. intros _. split; [|done]. intros Hn.
      apply MAKEB_eq in Hn as [_ ?]; [done|lia|done].
Qed.

Lemma alloc_name_tree_spec st :
  space_wf ∅ st →
  ∃ st' o, alloc_name_tree st name = Ok (st', o) ∧ resplayed st st' ∧
    ∀ p, o = Some p ↔ (name, p) ∈ tree_elems st.
Proof.
  intros Hw. unfold alloc_name_tree. rewrite (sw_total _ _ Hw).
  destruct (Z.ltb_spec 0 (Z.of_nat (length (tree_elems st)))) as [Hp|Hz].
  - destruct (lookup_spec (is_tree (st_space st)) name) as (tree & o & -> & Hs & He & Ho);
      [apply Hw|]. ostep. eexists _, _. split; [done|]. split; [by exists tree|done].
  - eexists _, _. split; [done|]. split; [by eapply resplayed_refl|]. intros p.
    destruct (tree_elems st) as [|q l]; [|simpl in Hz; lia]. split; [done|]. by intros ?%elem_of_nil.
Qed.

(** *** The loop *)

Lemma resplayed_evolves st st' : space_wf ∅ st → resplayed st st' → evolves st st'.
Proof.
  intros Hw Hr. pose proof (resplayed_wf _ _ _ Hw Hr) as Hw'.
  split; [|apply rtc_once; left].
  - by destruct Hr as (tree & -> & _).
  - split; [intros n _; by eapply resplayed_view|]. by destruct Hr as (tree & -> & _).
Qed.

Lemma next_not_last H st nsize :
  space_wf H st → its_size (is_table_next (st_space st)) = Ok nsize →
  tsize (st_table st) < nsize → is_table_next (st_space st) ≠ 511%nat.
Proof.
  intros Hw Hns Hlt Heq. destruct (sw_next _ _ Hw) as (k & ns & Hk & K1 & K2 & _).
  pose proof (its_next_le _ _ _ K1 K2) as (_ & _ & _ & [_ Hend]).
  specialize (Hend ltac:(lia)). unfold its_size in Hns. rewrite Hk, K2 in Hns. injection Hns as ->.
  rewrite (sw_size _ _ Hw) in Hend. lia.
Qed.

Lemma alloc_name_loop_spec `{!others_rely, !name_rely name reserved} fuel st tree_entry :
  (live st → space_wf ∅ st) → locked st → growing st = false →
  spare reserved st name tree_entry → (0 < fuel)%nat →
  (live st → (match tree_entry with Some _ => 513 | None => 514 end ≤ fuel + is_table_next (st_space st))%nat) →
  alloc_name_post st name (alloc_name_loop fuel st name tree_entry).
Proof.
  destruct Hok as (Hu & _).
  revert st tree_entry. induction fuel as [|fuel IH]; intros st tree_entry Hw Hlk Hg Hsp Hf0 Hf; [lia|].
  cbn [alloc_name_loop]. destruct (is_active (st_space st)) eqn:Hl; ostep.
  2:{ destruct (unlock_spec st Hlk) as (st1 & -> & Hu1 & E). ostep.
      rewrite (spare_free _ _ _ _ (spare_evolves _ _ _ Hu E Hsp)).
      split_and!; [done..|]. intros Hx%(ry_live _ _ (proj1 E)). congruence. }
  specialize (Hw eq_refl). specialize (Hf eq_refl).
  destruct (alloc_name_table_spec st tree_entry Hw Hl Hsp) as (r & -> & Hr). ostep.
  destruct r as [st'|].
  { split; [|exists st; by split_and!]. assert (ready st) by (unfold flags; congruence).
    destruct Hr as [(_ & _ & _ & _ & ->)|(_ & _ & _ & _ & -> & _)]; done. }
  destruct (is_fast (st_space st)) eqn:Hfast.
  { destruct (unlock_spec st Hlk) as (st1 & -> & Hu1 & E). ostep.
    rewrite bool_decide_true.
    - ostep. split_and!; [done..|]. by rewrite (ry_fast _ _ (proj1 E)).
    - destruct tree_entry; [|done]. destruct Hsp as (_ & _ & ? & _). congruence. }
  destruct (alloc_name_tree_spec st Hw) as (st1 & o & -> & Hrs & Ho). ostep.
  destruct o as [p|].
  { assert ((name, p) ∈ tree_elems st) as Hp by (by apply Ho).
    destruct (tree_elem_ok _ _ _ _ Hw Hp) as (te & Hte & _ & Hsa & _ & _ & Hty).
    assert (st_ites st1 = st_ites st) as -> by (by destruct Hrs as (? & -> & _)).
    rewrite Hte. ostep. rewrite Hsa, Z.eqb_refl. ostep.
    rewrite (proj2 (Z.eqb_neq _ 0)) by (apply Hty; set_solver). ostep.
    assert (ite_free_opt st1 tree_entry = st1) as ->.
    { destruct Hrs as (tr & -> & _). destruct tree_entry as [q|]; [|done]. destruct Hsp as (_ & Hq & _).
      unfold ite_free_opt, ite_free, with_ites. simpl. by rewrite delete_id. }
    pose proof (existing_denotes st st1 (EP_tree p) Hw Hrs Hp) as Hex.
    split; [|exists st; by split_and!; [..|left]]. destruct Hex as (_ & _ & _ & _ & ->). unfold flags. congruence. }
  assert (space_wf ∅ st1) as Hw1 by (by eapply resplayed_wf).
  pose proof (resplayed_evolves st st1 Hw Hrs) as E1.
  pose proof (spare_evolves _ _ _ Hu E1 Hsp) as Hsp1.
  assert (locked st1 ∧ live st1 ∧ growing st1 = false ∧ is_fast (st_space st1) = false ∧
    slot_taken st1 ∧ (name ∉ (tree_elems st1).*1) ∧
    is_table_next (st_space st1) = is_table_next (st_space st))
    as (Hlk1 & Hl1 & Hg1 & Hf1 & Htk & Hnew & Hn1).
  { destruct Hrs as (tr & -> & _ & He). split_and!; try done. unfold tree_elems. simpl. rewrite He.
    intros (q & Hq)%elem_of_names. by apply Ho in Hq. }
  eapply alloc_name_post_mono; [exact E1|]. clear Hrs Ho Hr E1. rewrite <-Hn1 in Hf.
  clear Hw Hl Hlk Hg Hsp Hfast Hn1. clear st. rename st1 into st.
  destruct (space_wf_next _ _ Hw1) as (nsize & Hns & Hle & _). rewrite Hns. ostep.
  rewrite (sw_size _ _ Hw1). destruct (_ && _ && _) eqn:Hgrow.
  - apply andb_prop in Hgrow as [[Hge%Z.leb_le Hlt%Z.ltb_lt]%andb_prop _].
    pose proof (space_next_bound _ _ Hw1) as Hb.
    destruct (grow_loop_spec ipc_table_entries_size st Hw1 Hl1 Hlk1 Hg1) as (st2 & kr & Hrun & Hp);
      [unfold ipc_table_entries_size; lia|eapply next_not_last; [done..|lia]|].
    unfold ipc_entry_grow_table. rewrite Hrun. ostep. destruct kr; try done; simpl in Hp; ostep.
    + destruct Hp as (Hl2 & Hg2 & E2 & Hn2). rewrite (bool_decide_false (_ = KERN_NO_SPACE)) by done. ostep.
      rewrite bool_decide_true by done. ostep.
      eapply alloc_name_post_mono; [done|]. apply IH; [|done|done|by eapply spare_evolves|destruct tree_entry; lia|].
      * by apply (ry_wf _ _ (proj1 E2)).
      * intros Hl'. specialize (Hn2 Hl'). destruct tree_entry; lia.
    + destruct Hp as (Hl2 & Hg2 & E2). rewrite (bool_decide_false (_ = KERN_NO_SPACE)) by done. ostep.
      rewrite bool_decide_false by done. ostep.
      by rewrite (spare_free _ _ _ _ (spare_evolves _ _ _ Hu E2 Hsp1)).
  - destruct tree_entry as [p|].
    + destruct Hsp1 as (_ & Hp & _).
      destruct (entry_tree_insert_spec st name p nsize) as (st2 & -> & Hm); [done..|]. ostep.
      split; [|exists st; by split_and!; [..|right]]. destruct Hm as (_ & _ & _ & _ & -> & _). unfold flags. congruence.
    + destruct (unlock_spec st Hlk1) as (st2 & Hrun2 & Hu2 & E2). rewrite Hrun2. ostep.
      destruct (kmem st2) as [st3 te] eqn:Hk. destruct (kmem_spec _ _ _ Hk) as [Hu3 E3].
      destruct te as [p|]; [|split; [congruence|by etrans]].
      destruct (lock_spec st3) as (st4 & -> & Hl4 & E4); [congruence|]. ostep.
      assert (evolves st st4) as E by (by do 2 (etrans; [done|])).
      pose proof (space_next_bound _ _ Hw1).
      eapply alloc_name_post_mono; [done|]. apply IH; [|done| | |lia|].
      * by apply (ry_wf _ _ (proj1 E)).
      * by rewrite (ry_growing _ _ (proj1 E)).
      * assert (spare reserved st3 name (Some p)) as Hs3; [|exact (spare_evolves _ _ _ Hu E4 Hs3)].
        injection Hk as Hk1 Hk2. destruct (nr_alloc (st_clock st2) st2 p Hk2) as [Hres Hno].
        assert (st_ites st3 = st_ites st2) as Hi by (by rewrite <-Hk1).
        split_and!; [done|by rewrite Hi| |].
        -- by rewrite (ry_fast _ _ (proj1 E3)), (ry_fast _ _ (proj1 E2)).
        -- intros _. unfold is_write_unlock in Hrun2. rewrite Hlk1 in Hrun2. injection Hrun2 as <-.
           rewrite <-Hk1. by apply (ti_view st name).
      * intros Hl'. pose proof (ry_next _ _ (proj1 E) Hl'). lia.
Qed.

Lemma entry_alloc_name_spec `{!others_rely, !name_rely name reserved} st :
  (live st → space_wf ∅ st) → is_locked (st_space st) = false → growing st = false →
  alloc_name_post st name (ipc_entry_alloc_name st name).
Proof.
  intros Hw Hl Hg. unfold ipc_entry_alloc_name. rewrite (proj1 (proj2 Hok)). ostep.
  destruct (lock_spec st Hl) as (st1 & -> & Hl1 & E). ostep.
  eapply alloc_name_post_mono; [done|]. apply alloc_name_loop_spec; [|done| |done|lia|].
  - by apply (ry_wf _ _ (proj1 E)).
  - by rewrite (ry_growing _ _ (proj1 E)).
  - intros Hl'. pose proof (space_next_bound _ _ (ry_wf _ _ (proj1 E) Hw Hl')).
    unfold ipc_table_entries_size. lia.
Qed.

(** C21. ipc_entry_alloc_name of a valid name other than 0xff (index 0,
    generation 0xff), when no other thread binds that name or takes the
    memory of the new entry while the lock is dropped to allocate,
    terminates and returns, locked, either the existing entry of the name
    with its capability or a fresh blank entry bound to that name (in the
    table or in the splay tree), keeping the invariant; the errors are
    those of a dead space, of no memory, and KERN_FAILURE in a fast space. *)
Theorem entry_alloc_name_correct `{!others_rely, !name_rely name reserved} st :
  (live st → space_wf ∅ st) → is_locked (st_space st) = false → growing st = false →
  alloc_name_post st name (ipc_entry_alloc_name st name).
Proof. apply entry_alloc_name_spec. Qed.
End search.
End alloc_name.
