(* ===== verification/IpcUpdate.v ===== *)
(** * Changing an entry in place

    What the rights layer does to the entries of a space: it rewrites the
    type, the user references, the object and the dead-name request of an
    entry in use, and enters send rights into the reverse hash tables or
    takes them out.  Each of these keeps the invariant of the space and
    changes the view at one name only. *)

From stdpp Require Import prelude list gmap.
From S2P Require Import Prelude MachPort IpcSplay IpcTypes IpcHash IpcTable IpcEntry IpcInv.

(** The bits outside of the right are kept: generation and collision. *)
Record same_high (b b' : Z) : Prop := {
  same_high_GEN : IE_BITS_GEN b' = IE_BITS_GEN b;
  same_high_collides : collides b' = collides b;
  same_high_right : Z.land b IE_BITS_RIGHT_MASK = b → Z.land b' IE_BITS_RIGHT_MASK = b';
}.

Lemma same_high_refl b : same_high b b.
Proof. done. Qed.

Lemma tmod_id {A} (t : list A) i f e : tget t i = Some e → f e = e → tmod t i f = t.
Proof.
  unfold tget, tmod. destruct (0 <=? i); [|done]. intros He Hf. apply list_eq. intros j.
  destruct (decide (j = Z.to_nat i)) as [->|]; [|by rewrite list_lookup_alter_ne].
  rewrite list_lookup_alter_eq, He. simpl. by rewrite Hf.
Qed.

Section update.
Context {W : iworld}.

(** The entry is in one of the reverse hash tables. *)
Definition reversed (st : istate) (ep : eptr) : Prop :=
  match ep with
  | EP_table i => hashed (st_table st) i
  | EP_tree p => p ∈ mjoin (st_buckets st)
  end.

(** [entry->ie_bits = bits; entry->ie_object = obj; entry->ie_request = req] *)
Definition rewrite_entry (bits obj req : Z) (e : ipc_entry) : ipc_entry :=
  IE bits obj req (ie_index e).

(** The names in hand differ at most by [name]. *)
Definition hand_but (H H' : gset Z) (name : Z) : Prop := ∀ n, n ≠ name → n ∈ H' ↔ n ∈ H.

Lemma denotes_u32 H st name ep : space_wf H st → denotes H st name ep → is_u32 name.
Proof.
  intros Hw Hd. pose proof (space_wf_size _ _ Hw) as Hsz. destruct ep as [i|p]; simpl in Hd.
  - destruct Hd as (Hi & <- & _). apply MAKEB_range. lia.
  - destruct (tree_elem_ok _ _ _ _ Hw Hd) as (t & _ & _ & _ & (Hu & _) & _). done.
Qed.

(** An entry has one name. *)
Lemma denotes_name H st n m ep : space_wf H st → denotes H st n ep → denotes H st m ep → n = m.
Proof.
  intros Hw. destruct ep as [i|p]; simpl.
  - by intros (_ & <- & _) (_ & <- & _).
  - by apply tree_addr_unique with (H := H).
Qed.

(** The type says whether an entry is in a reverse hash table. *)
Definition typed_ok (st : istate) (H' : gset Z) (name : Z) (ep : eptr) (bits : Z) : Prop :=
  name ∉ H' → IE_BITS_TYPE bits ≠ 0 ∧ (reversed st ep ↔ IE_BITS_TYPE bits = MACH_PORT_TYPE_SEND).

Lemma hash_wf_table H H' t t' l ites bs :
  hash_wf H t l ites bs → same_hash t t' →
  (∀ i, 0 < i < tsize t → name_at t' i ∉ H' → hashed t i ↔ type_at t' i = MACH_PORT_TYPE_SEND) →
  (∀ n, n ∈ l.*1 → n ∉ H' → n ∉ H) →
  hash_wf H' t' l ites bs.
Proof.
  intros Hh Hs Hty Hsub. split.
  - eapply local_hash_ext; [apply Hh|apply Hs..].
  - apply Hh.
  - intros i Hi Hni. rewrite (sh_size _ _ Hs) in Hi. rewrite (hashed_ext t t') by apply Hs. by apply Hty.
  - intros name p te Hp Ht Hni. apply (hw_tree_type _ _ _ _ _ Hh name p te Hp Ht).
    apply Hsub; [|done]. apply elem_of_names. eauto.
  - intros i p Hi Hp Hown. rewrite (hashed_ext t t') in Hi by apply Hs. rewrite (sh_object _ _ Hs) by done.
    by apply (hw_disjoint _ _ _ _ _ Hh).
Qed.

(** ** An entry of the table *)

Section table_entry.
Context (H H' : gset Z) (st : istate) (name i : Z) (e : ipc_entry) (bits obj req : Z).
Hypothesis Hw : space_wf H st.
Hypothesis Hd : denotes H st name (EP_table i).
Hypothesis He : tget (st_table st) i = Some e.
Hypothesis Hhand : hand_but H H' name.
Hypothesis Hhigh : same_high (ie_bits e) bits.
Hypothesis Hobj : hashed (st_table st) i → obj = ie_object e.
Hypothesis Hright : typed_ok st H' name (EP_table i) bits.

Local Abbreviation t := (st_table st).
Local Abbreviation t' := (tmod (st_table st) i (rewrite_entry bits obj req)).

Lemma set_get j : j ≠ i → tget t' j = tget t j.
Proof. intros. by rewrite tget_tmod_ne. Qed.
Lemma set_bits j : j ≠ i → bits_at t' j = bits_at t j.
Proof. intros. unfold bits_at. by rewrite set_get. Qed.
Lemma set_bits_here : bits_at t' i = bits.
Proof. unfold bits_at. by rewrite tget_tmod_eq, He. Qed.

Lemma set_name j : name_at t' j = name_at t j.
Proof.
  apply name_at_gen. destruct (decide (j = i)) as [->|]; [|by rewrite set_bits].
  rewrite set_bits_here, <-(bits_at_get _ _ _ He). by apply same_high_GEN.
Qed.

Lemma name_elsewhere j : j ≠ i → 0 ≤ j < tsize t → name_at t j ≠ name.
Proof.
  pose proof (space_wf_size _ _ Hw) as Hsz. destruct Hd as (Hi & <- & _).
  intros Hji Hr Heq. apply Hji. eapply name_at_inj; [..|done]; lia.
Qed.

Lemma name_not_in_tree n : n ∈ (tree_elems st).*1 → n ≠ name.
Proof.
  intros (p & Hp)%elem_of_names ->.
  assert (EP_tree p = EP_table i) by (by eapply denotes_unique). done.
Qed.

Lemma hand_sub n : n ≠ name → n ∉ H' → n ∉ H.
Proof. intros Hn. by rewrite (Hhand n Hn). Qed.

(** The entry is free neither before nor after. *)
Lemma set_free j :
  (0 < j < tsize t' ∧ type_at t' j = 0 ∧ name_at t' j ∉ H') ↔
  (0 < j < tsize t ∧ type_at t j = 0 ∧ name_at t j ∉ H).
Proof.
  rewrite tsize_tmod, set_name. pose proof Hd as (Hi & Hn & Hor). unfold type_at.
  destruct (decide (j = i)) as [->|Hne].
  - rewrite set_bits_here, Hn. split.
    + intros (_ & Hx & Hy). by destruct (Hright Hy).
    + intros (_ & ? & ?). by destruct Hor.
  - rewrite set_bits by done. split; intros (Hr & Hx & Hy); split_and!; try done; try lia.
    + apply hand_sub; [apply name_elsewhere; lia|done].
    + rewrite (Hhand (name_at t j)); [done|apply name_elsewhere; lia].
Qed.

Lemma set_table_wf : table_wf H' t'.
Proof.
  pose proof Hd as (Hi & Hn & Hor). destruct (sw_table _ _ Hw) as [Hg0 Ht0 (fl & Hl & Hnd & Hfl) Hfe]. split.
  - rewrite set_bits by lia. done.
  - unfold type_at. rewrite set_bits by lia. done.
  - exists fl. split_and!; [|done|intros j; by rewrite set_free].
    eapply threaded_ext; [exact Hl|]. intros j Hin. unfold next_at. rewrite set_get; [done|].
    intros ->. apply elem_of_cons in Hin as [?|(_ & ? & ?)%Hfl]; [lia|]. destruct Hor; congruence.
  - intros j Hr Hx Hy. destruct (proj1 (set_free j) (conj Hr (conj Hx Hy))) as (Hr' & Hx' & Hy').
    assert (j ≠ i) as Hne by (intros ->; destruct Hor; congruence).
    unfold object_at. rewrite set_bits, set_get by done. by apply Hfe.
Qed.

Lemma set_table_coll : coll_wf H' t' (tree_elems st).
Proof.
  pose proof Hd as (Hi & Hn & Hor). split.
  - intros j Hr. rewrite tsize_tmod in Hr. rewrite <-(cw_bit _ _ _ (sw_coll _ _ Hw) j Hr).
    destruct (decide (j = i)) as [->|]; [|by rewrite set_bits].
    by rewrite set_bits_here, <-(bits_at_get _ _ _ He), (same_high_collides _ _ Hhigh).
  - intros n Hin Hr. rewrite tsize_tmod in Hr. rewrite set_name.
    destruct (cw_used _ _ _ (sw_coll _ _ Hw) n Hin Hr) as [? Ho]. split; [done|].
    unfold type_at. destruct (decide (MACH_PORT_INDEX n = i)) as [Heq|Hne].
    + rewrite Heq, set_bits_here, Hn. destruct (decide (name ∈ H')) as [|Hx]; [by right|].
      left. by apply Hright.
    + rewrite set_bits by done. destruct Ho as [|Ho]; [by left|right].
      apply Hhand; [apply name_elsewhere; lia|done].
Qed.

Lemma set_table_hash : hash_wf H' t' (tree_elems st) (st_ites st) (st_buckets st).
Proof.
  pose proof Hd as (Hi & Hn & Hor). eapply hash_wf_table; [apply Hw| | |].
  - split; [apply tsize_tmod|intros j; by apply slot_keep|]. intros j Hh. unfold object_at.
    destruct (decide (j = i)) as [->|]; [|by rewrite set_get]. rewrite tget_tmod_eq, He. simpl. by apply Hobj.
  - intros j Hr. rewrite set_name. intros Hy. unfold type_at. destruct (decide (j = i)) as [->|Hne].
    + rewrite set_bits_here. rewrite Hn in Hy. by destruct (Hright Hy).
    + rewrite set_bits by done. apply (hw_type _ _ _ _ _ (sw_hash _ _ Hw)); [done|].
      apply hand_sub; [apply name_elsewhere; lia|done].
  - intros n Hin. apply hand_sub. by apply name_not_in_tree.
Qed.

Lemma set_table_denotes n ep' :
  n ≠ name → denotes H' (set_table st t') n ep' ↔ denotes H st n ep'.
Proof.
  intros Hne. destruct ep' as [j|p]; [|done]. simpl. change (st_table (set_table st t')) with t'.
  rewrite tsize_tmod, set_name. pose proof Hd as (Hi & Hn & Hor). unfold type_at. destruct (decide (j = i)) as [->|].
  - split; intros (_ & Hx & _); congruence.
  - by rewrite set_bits, (Hhand n Hne).
Qed.

Lemma set_table_here : denotes H' (set_table st t') name (EP_table i).
Proof.
  simpl. change (st_table (set_table st t')) with t'. pose proof Hd as (Hi & Hn & Hor).
  rewrite tsize_tmod, set_name. split_and!; [lia..|done|]. unfold type_at. rewrite set_bits_here.
  destruct (decide (name ∈ H')) as [|Hx]; [by right|left; by apply Hright].
Qed.

Lemma set_table_space_wf : space_wf H' (set_table st t').
Proof.
  apply (space_wf_set_table H); [exact Hw|apply tsize_tmod|apply set_table_wf| |apply set_table_coll|
    apply set_table_hash|].
  - eapply tree_wf_sub; [apply Hw|]. intros n Hin. apply hand_sub. by apply name_not_in_tree.
  - intros n Hin. destruct (decide (n = name)) as [->|Hne].
    + split; [by eapply denotes_u32|]. exists (EP_table i). apply set_table_here.
    + apply (Hhand n Hne) in Hin. destruct (sw_hand _ _ Hw n Hin) as (Hu & ep' & Hd'). split; [done|].
      exists ep'. by apply set_table_denotes.
Qed.
End table_entry.

(** ** An entry of the tree *)

(** Tree entries that keep their name, their space and, when they are in the
    global hash table, their object. *)
Record same_ites (bs : list (list Z)) (ites ites' : gmap Z ipc_tree_entry) : Prop := {
  si_dom p : is_Some (ites' !! p) ↔ is_Some (ites !! p);
  si_entry p t t' : ites !! p = Some t → ites' !! p = Some t' →
    ite_name t' = ite_name t ∧ ite_space t' = ite_space t ∧
    (p ∈ mjoin bs → ite_object t' = ite_object t);
}.

Section same_ites.
Context (bs : list (list Z)) (ites ites' : gmap Z ipc_tree_entry).
Hypothesis Hs : same_ites bs ites ites'.

Lemma same_ites_back p t' :
  ites' !! p = Some t' → ∃ t, ites !! p = Some t ∧ ite_name t' = ite_name t ∧
    ite_space t' = ite_space t ∧ (p ∈ mjoin bs → ite_object t' = ite_object t).
Proof.
  intros Hp. destruct (proj1 (si_dom _ _ _ Hs p)) as (t & Ht); [by eexists|].
  exists t. split; [done|]. by apply (si_entry _ _ _ Hs p t t').
Qed.

Lemma same_ites_own p : own ites' p ↔ own ites p.
Proof.
  unfold own. destruct (ites' !! p) as [t'|] eqn:Hp.
  - destruct (same_ites_back _ _ Hp) as (t & -> & _ & Hsp & _). simpl. by rewrite Hsp.
  - destruct (ites !! p) as [t|] eqn:Hp'; [|done]. exfalso.
    destruct (proj2 (si_dom _ _ _ Hs p)); [by eexists|congruence].
Qed.

Lemma same_ites_object p : p ∈ mjoin bs → object_of ites' p = object_of ites p.
Proof.
  intros Hin. unfold object_of. destruct (ites' !! p) as [t'|] eqn:Hp.
  - destruct (same_ites_back _ _ Hp) as (t & -> & _ & _ & Ho). simpl. by apply Ho.
  - destruct (ites !! p) as [t|] eqn:Hp'; [|done]. exfalso.
    destruct (proj2 (si_dom _ _ _ Hs p)); [by eexists|congruence].
Qed.

Lemma same_ites_hashed : own_hashed ites' bs = own_hashed ites bs.
Proof.
  unfold own_hashed. f_equal. apply list_filter_iff. intros p. apply same_ites_own.
Qed.

Lemma same_ites_global l : global_hash l ites bs → global_hash l ites' bs.
Proof.
  intros Hg. split; try apply Hg.
  - intros b bucket p Hb Hp. destruct (gh_bucket _ _ _ Hg b bucket p Hb Hp) as (t & Ht & Hh).
    destruct (proj2 (si_dom _ _ _ Hs p)) as (t' & Ht'); [by eexists|]. exists t'. split; [done|].
    destruct (si_entry _ _ _ Hs p t t' Ht Ht') as (_ & -> & ->); [done|]. apply elem_of_mjoin. eauto.
  - intros p t' Hin Ht' Hsp. destruct (same_ites_back _ _ Ht') as (t & Ht & Hn & Hs' & Ho).
    rewrite Hn, (Ho Hin). apply (gh_own _ _ _ Hg p t Hin Ht). congruence.
  - intros p q Hp Hq. rewrite !same_ites_own, !same_ites_object by done. by apply Hg.
Qed.
End same_ites.

Section tree_entry.
Context (H H' : gset Z) (st : istate) (name p : Z) (te : ipc_tree_entry) (bits obj req : Z).
Hypothesis Hw : space_wf H st.
Hypothesis Hd : (name, p) ∈ tree_elems st.
Hypothesis Hte : st_ites st !! p = Some te.
Hypothesis Hhand : hand_but H H' name.
Hypothesis Hhigh : same_high (ite_bits te) bits.
Hypothesis Hobj : p ∈ mjoin (st_buckets st) → obj = ite_object te.
Hypothesis Hright : typed_ok st H' name (EP_tree p) bits.

Local Abbreviation ites' :=
  (alter (λ t, ITE_ (rewrite_entry bits obj req (ite_entry t)) (ite_name t) (ite_space t)) p (st_ites st)).

Lemma set_tree_same : same_ites (st_buckets st) (st_ites st) ites'.
Proof.
  split.
  - intros q. destruct (decide (q = p)) as [->|]; [|by rewrite lookup_alter_ne].
    rewrite lookup_alter_eq, Hte. split; by eexists.
  - intros q t t' Ht. destruct (decide (q = p)) as [->|].
    + rewrite lookup_alter_eq, Hte. intros [= <-]. rewrite Hte in Ht. injection Ht as <-.
      split_and!; [done..|]. apply Hobj.
    + rewrite lookup_alter_ne, Ht by done. by intros [= <-].
Qed.

Lemma set_tree_tree_wf : tree_wf H' (tree_elems st) ites'.
Proof.
  intros n q Hin. destruct (tree_elem_ok _ _ _ _ Hw Hin) as (t & Ht & Hn & Hsp & Hok & Hr & Hty).
  destruct (decide (q = p)) as [->|Hne].
  - assert (n = name) as -> by (by eapply tree_addr_unique). rewrite lookup_alter_eq, Ht.
    assert (t = te) as -> by congruence. eexists. split; [done|]. split_and!; [done..| |].
    + by eapply same_high_right.
    + intros Hx. by destruct (Hright Hx).
  - exists t. rewrite lookup_alter_ne by done. split; [done|]. split_and!; [done..|]. intros Hx.
    apply Hty. rewrite <-(Hhand n); [done|]. intros ->. apply Hne. by eapply tree_elem_unique.
Qed.

(** The name is not one of the table. *)
Lemma tree_name_elsewhere i : 0 < i < tsize (st_table st) → name_at (st_table st) i ≠ name.
Proof.
  intros Hi Heq. pose proof (space_wf_size _ _ Hw) as Hsz.
  assert (MACH_PORT_INDEX name = i) as Hidx by (rewrite <-Heq; unfold name_at; apply INDEX_MAKEB; lia).
  destruct (cw_used _ _ _ (sw_coll _ _ Hw) name) as [Hx _]; [apply elem_of_names; eauto|lia|].
  by rewrite Hidx in Hx.
Qed.

Lemma table_hand i : 0 < i < tsize (st_table st) →
  name_at (st_table st) i ∈ H' ↔ name_at (st_table st) i ∈ H.
Proof. intros Hi. apply Hhand. by apply tree_name_elsewhere. Qed.

Lemma set_tree_hash : hash_wf H' (st_table st) (tree_elems st) ites' (st_buckets st).
Proof.
  pose proof set_tree_same as Hs. pose proof (sw_hash _ _ Hw) as Hh. split.
  - apply Hh.
  - eapply same_ites_global; [done|apply Hh].
  - intros i Hi Hx. rewrite (table_hand i Hi) in Hx. by apply (hw_type _ _ _ _ _ Hh i Hi).
  - intros n q t' Hin Ht' Hx. destruct (decide (q = p)) as [->|Hne].
    + assert (n = name) as -> by (by eapply tree_addr_unique).
      rewrite lookup_alter_eq, Hte in Ht'. injection Ht' as <-. by destruct (Hright Hx).
    + rewrite lookup_alter_ne in Ht' by done. apply (hw_tree_type _ _ _ _ _ Hh n q t'); [done..|].
      rewrite <-(Hhand n); [done|]. intros ->. apply Hne. by eapply tree_elem_unique.
  - intros i q Hi Hq Hown. rewrite (same_ites_own _ _ _ Hs) in Hown.
    rewrite (same_ites_object _ _ _ Hs) by done. by apply (hw_disjoint _ _ _ _ _ Hh).
Qed.

Lemma set_tree_table : table_wf H' (st_table st).
Proof.
  destruct (sw_table _ _ Hw) as [Hg0 Ht0 (fl & Hl & Hnd & Hfl) Hfe]. split; [done..| |].
  - exists fl. split_and!; [done..|]. intros i. rewrite Hfl.
    split; intros (Hi & Ht & Hx); (split_and!; [lia..|done|]); by rewrite (table_hand i Hi) in *.
  - intros i Hi Ht Hx. rewrite (table_hand i Hi) in Hx. by apply Hfe.
Qed.

Lemma set_tree_coll : coll_wf H' (st_table st) (tree_elems st).
Proof.
  destruct (sw_coll _ _ Hw) as [Hb Hu]. split; [done|]. intros n Hin Hr.
  rewrite (table_hand _ Hr). by apply Hu.
Qed.

Lemma set_tree_denotes n ep' :
  n ≠ name → denotes H' (with_ites st (λ _, ites')) n ep' ↔ denotes H st n ep'.
Proof. intros Hne. destruct ep' as [j|q]; [|done]. simpl. by rewrite (Hhand n Hne). Qed.

Lemma set_tree_space_wf : space_wf H' (with_ites st (λ _, ites')).
Proof.
  pose proof set_tree_same as Hs. pose proof set_tree_tree_wf as Htw. pose proof set_tree_hash as Hhw.
  pose proof set_tree_table. pose proof set_tree_coll.
  split; try done; try (by destruct Hw).
  - change (is_tree_hash (st_space st) = Z.of_nat (own_hashed ites' (st_buckets st))).
    rewrite (same_ites_hashed _ _ _ Hs). apply (sw_hashed _ _ Hw).
  - intros n Hin. destruct (decide (n = name)) as [->|Hne].
    + split; [|by exists (EP_tree p)]. by destruct (sw_tree _ _ Hw _ _ Hd) as (t & _ & _ & _ & (Hu & _) & _).
    + apply (Hhand n Hne) in Hin. destruct (sw_hand _ _ Hw n Hin) as (Hu & ep' & Hd'). split; [done|].
      exists ep'. by apply set_tree_denotes.
Qed.
End tree_entry.

(** ** Either *)

(** The entry of [name] has been rewritten. *)
Record rewritten (H H' : gset Z) (st st' : istate) (name : Z) (ep : eptr) (e : ipc_entry) : Prop := {
  rw_wf : space_wf H' st';
  rw_denotes : denotes H' st' name ep;
  rw_get : eget st' ep = Some e;
  rw_other n : is_u32 n → n ≠ name → space_view st' n = space_view st n;
}.

Lemma rewritten_view H H' st st' name ep e :
  rewritten H H' st st' name ep e →
  space_view st' name = if IE_BITS_TYPE (ie_bits e) =? 0 then None else Some (cap_of e).
Proof. intros [Hw Hd He _]. by eapply view_denotes. Qed.

Lemma eset_get st ep e f : eget st ep = Some e → eget (eset st ep f) ep = Some (f e).
Proof.
  destruct ep as [i|p]; simpl; unfold st_table; simpl.
  - intros He. by rewrite tget_tmod_eq, He.
  - rewrite lookup_alter_eq. destruct (st_ites st !! p); simpl; [|done]. by intros [= <-].
Qed.

Lemma eset_get_ne st ep ep' f : ep ≠ ep' → eget (eset st ep f) ep' = eget st ep'.
Proof.
  destruct ep as [i|p], ep' as [j|q]; simpl; unfold st_table; simpl; intros Hne; try done.
  - apply tget_tmod_ne. congruence.
  - rewrite lookup_alter_ne; [done|congruence].
Qed.

Lemma rewrite_spec H H' st name ep e bits obj req :
  space_wf H st → denotes H st name ep → eget st ep = Some e →
  hand_but H H' name → same_high (ie_bits e) bits →
  (reversed st ep → obj = ie_object e) → typed_ok st H' name ep bits →
  rewritten H H' st (eset st ep (rewrite_entry bits obj req)) name ep (IE bits obj req (ie_index e)).
Proof.
  intros Hw Hd He Hh Hb Ho Hr.
  assert (space_wf H' (eset st ep (rewrite_entry bits obj req)) ∧
    denotes H' (eset st ep (rewrite_entry bits obj req)) name ep ∧
    ∀ n ep', n ≠ name → denotes H' (eset st ep (rewrite_entry bits obj req)) n ep' ↔ denotes H st n ep')
    as (Hw' & Hd' & Hdn).
  { destruct ep as [i|p].
    - split_and!; [by eapply set_table_space_wf|by eapply set_table_here|].
      intros n ep' Hn. by eapply set_table_denotes.
    - simpl in He. destruct (st_ites st !! p) as [te|] eqn:Hte; [|done]. injection He as <-.
      split_and!; [by eapply set_tree_space_wf|done|]. intros n ep' Hn. by eapply set_tree_denotes. }
  split; [done..|by rewrite (eset_get _ _ e)|]. intros n Hu Hn.
  eapply view_holds_eq; [done..|]. intros c Hc. unfold holds.
  split; intros (ep' & e' & Hx & He' & <-); exists ep', e'.
  - apply Hdn in Hx; [|done]. rewrite eset_get_ne in He'; [done|]. intros ->.
    apply Hn. by apply (denotes_name H st _ _ ep').
  - split_and!; [by apply Hdn| |done]. rewrite eset_get_ne; [done|]. intros ->.
    apply Hn. by apply (denotes_name H st _ _ ep').
Qed.

(** ** The reverse hash tables of a space *)

Definition entry_object (st : istate) (ep : eptr) : Z := default IO_NULL (ie_object <$> eget st ep).

(** Reordering the buckets changes nothing else. *)
Lemma rebucket_wf H st bs :
  space_wf H st → global_hash (tree_elems st) (st_ites st) bs → mjoin bs ≡ₚ mjoin (st_buckets st) →
  space_wf H (with_buckets st bs).
Proof.
  intros Hw Hg Hp. destruct Hw as [Ha Hz Hnx Htab Hsp Htr Hco Hha Hto Hhd Hfa Hhn].
  split; try done.
  - destruct Hha as [Hl _ Ht Htt Hdj]. split; try done.
    + intros n q te Hin Hte Hn. change (st_buckets (with_buckets st bs)) with bs. rewrite Hp.
      by apply (Htt n q te).
    + intros i q Hi. change (st_buckets (with_buckets st bs)) with bs. rewrite Hp. by apply Hdj.
  - change (is_tree_hash (st_space st) = Z.of_nat (own_hashed (st_ites st) bs)). rewrite Hhd.
    unfold own_hashed. by rewrite Hp.
Qed.

Lemma reversed_own H st name p :
  space_wf H st → (name, p) ∈ tree_elems st → own (st_ites st) p.
Proof.
  intros Hw Hp. destruct (tree_elem_ok _ _ _ _ Hw Hp) as (t & Ht & _ & Hs & _).
  by apply (own_iff _ _ t).
Qed.

(** A hashed entry of the table is in use. *)
Lemma hashed_denotes H st i :
  space_wf H st → hashed (st_table st) i → denotes H st (name_at (st_table st) i) (EP_table i).
Proof.
  intros Hw Hh. pose proof (sw_hash _ _ Hw) as Hhw. pose proof Hh as (Hi & j & Hj & Hsj).
  assert (0 < i < tsize (st_table st)) as Hr.
  { rewrite <-Hsj. apply (lh_index _ (hw_local _ _ _ _ _ Hhw)). congruence. }
  split; [done|]. split; [done|]. destruct (decide (name_at (st_table st) i ∈ H)) as [|Hx]; [by right|].
  left. rewrite (proj1 (hw_type _ _ _ _ _ Hhw i Hr Hx) Hh). done.
Qed.

Lemma own_hashed_pos ites bs p : p ∈ mjoin bs → own ites p → (0 < own_hashed ites bs)%nat.
Proof.
  intros Hin Hown. unfold own_hashed. destruct (filter _ _) as [|q l] eqn:E; [|simpl; lia].
  exfalso. assert (p ∈ filter (own ites) (mjoin bs)) as Hx by (by apply list_elem_of_filter).
  rewrite E in Hx. by apply elem_of_nil in Hx.
Qed.

(** A fast space has nothing in the global hash table. *)
Lemma fast_no_hash H st :
  space_wf H st → is_fast (st_space st) = true → is_tree_hash (st_space st) = 0.
Proof.
  intros Hw Hf. pose proof (sw_hash _ _ Hw) as Hh. rewrite (sw_hashed _ _ Hw). unfold own_hashed.
  destruct (filter _ _) as [|p l] eqn:E; [done|]. exfalso.
  assert (p ∈ filter (own (st_ites st)) (mjoin (st_buckets st))) as [Hown Hin]%list_elem_of_filter
    by (rewrite E; by left).
  destruct (gh_entry _ _ _ p (hw_global _ _ _ _ _ Hh) Hin) as (te & Hte).
  apply (own_iff _ _ _ Hte) in Hown.
  destruct (gh_own _ _ _ (hw_global _ _ _ _ _ Hh) p te Hin Hte Hown) as [Hx _].
  rewrite (sw_fast _ _ Hw Hf) in Hx. by apply elem_of_nil in Hx.
Qed.

Lemma hash_lookup_spec H st obj :
  space_wf H st → obj ≠ IO_NULL →
  ∃ bs r, ipc_hash_lookup st obj = Ok (with_buckets st bs, r) ∧ space_wf H (with_buckets st bs) ∧
    mjoin bs ≡ₚ mjoin (st_buckets st) ∧
    match r with
    | Some (name, ep) => denotes H st name ep ∧ reversed st ep ∧ entry_object st ep = obj
    | None => ∀ name ep, denotes H st name ep → reversed st ep → entry_object st ep ≠ obj
    end.
Proof.
  intros Hw Hobj. pose proof (space_wf_size _ _ Hw) as Hsz. pose proof (sw_hash _ _ Hw) as Hh.
  unfold ipc_hash_lookup. rewrite (sw_size _ _ Hw). change (is_table (st_space st)) with (st_table st).
  destruct (local_lookup_spec (st_table st) obj) as (r & -> & Hr); [apply Hh|lia|done|]. ostep.
  destruct r as [[name i]|].
  { destruct Hr as (Hi & Ho & e & He & ->). exists (st_buckets st), (Some (name_at (st_table st) i, EP_table i)).
    rewrite with_buckets_id. split_and!; [|done..|by apply hashed_denotes|done|done].
    unfold name_at. by rewrite (bits_at_get _ _ _ He). }
  pose proof (fast_no_hash _ _ Hw) as Hfast.
  assert (negb (is_fast (st_space st)) || (is_tree_hash (st_space st) =? 0) = true) as ->.
  { destruct (is_fast (st_space st)); [|done]. by rewrite Hfast. }
  ostep. destruct (Z.ltb_spec 0 (is_tree_hash (st_space st))) as [Hpos|Hpos].
  - assert (is_fast (st_space st) = false) as Hf.
    { destruct (is_fast (st_space st)); [|done]. rewrite Hfast in Hpos by done. lia. }
    destruct (global_lookup_spec st (tree_elems st) obj) as (bs & r & -> & Hg & Hp & Hr'); [apply Hh|apply Hw|done..|].
    ostep. exists bs, (option_map (λ '(name, p), (name, EP_tree p)) r).
    split; [done|]. split; [by apply rebucket_wf|]. split; [done|]. destruct r as [[name p]|]; simpl.
    + destruct Hr' as (Hin & Hown & Ho & Hn). destruct (st_ites st !! p) as [te|] eqn:Hte; [|done].
      injection Hn as <-. apply (own_iff _ _ _ Hte) in Hown. split_and!; [|done|].
      * by apply (gh_own _ _ _ (hw_global _ _ _ _ _ Hh) p te Hin Hte).
      * unfold entry_object. simpl. rewrite Hte. simpl. by rewrite <-Ho, (object_of_Some _ _ te).
    + intros name [i|p] Hd Hrev; [by apply Hr|].
      pose proof (Hr' p Hrev (reversed_own _ _ _ _ Hw Hd)) as Hx. unfold entry_object, object_of in *. simpl.
      by destruct (st_ites st !! p).
  - exists (st_buckets st), None. rewrite with_buckets_id. split_and!; [done..|].
    intros name [i|p] Hd Hrev; [by apply Hr|]. exfalso.
    pose proof (own_hashed_pos _ _ _ Hrev (reversed_own _ _ _ _ Hw Hd)). rewrite (sw_hashed _ _ Hw) in Hpos. lia.
Qed.

(** Whether an entry of the space is in a reverse hash table, by its type. *)
Lemma reversed_type H st name ep e :
  space_wf H st → denotes H st name ep → eget st ep = Some e → name ∉ H →
  reversed st ep ↔ IE_BITS_TYPE (ie_bits e) = MACH_PORT_TYPE_SEND.
Proof.
  intros Hw Hd He Hn. pose proof (sw_hash _ _ Hw) as Hh. destruct ep as [i|p]; simpl in *.
  - destruct Hd as (Hi & <- & _). rewrite (hw_type _ _ _ _ _ Hh i Hi Hn). unfold type_at.
    by rewrite (bits_at_get _ _ _ He).
  - destruct (st_ites st !! p) as [te|] eqn:Hte; [|done]. injection He as <-.
    by apply (hw_tree_type _ _ _ _ _ Hh name p te).
Qed.

Lemma entry_object_get st ep e : eget st ep = Some e → entry_object st ep = ie_object e.
Proof. unfold entry_object. by intros ->. Qed.

(** One entry for each object. *)
Lemma reversed_unique H st n m ep ep' :
  space_wf H st → denotes H st n ep → denotes H st m ep' → reversed st ep → reversed st ep' →
  entry_object st ep = entry_object st ep' → ep = ep'.
Proof.
  intros Hw Hn Hm Hr Hr' Ho. pose proof (sw_hash _ _ Hw) as Hh.
  assert (∀ p, entry_object st (EP_tree p) = object_of (st_ites st) p) as Htree.
  { intros p. unfold entry_object, object_of. simpl. by destruct (st_ites st !! p). }
  destruct ep as [i|p], ep' as [j|q]; rewrite ?Htree in Ho; simpl in Hr, Hr'.
  - destruct Hr as (Hi & k & Hk & <-), Hr' as (Hj & l & Hl & <-). f_equal.
    by rewrite (lh_unique _ (hw_local _ _ _ _ _ Hh) k l).
  - destruct (hw_disjoint _ _ _ _ _ Hh i q); [done..| |done]. by eapply reversed_own.
  - destruct (hw_disjoint _ _ _ _ _ Hh j p); [done..|by eapply reversed_own|by symmetry].
  - f_equal. apply (gh_unique _ _ _ (hw_global _ _ _ _ _ Hh)); [done..| | |done]; by eapply reversed_own.
Qed.

(** What the space has for a name, through its entry. *)
Lemma view_entry st name c :
  space_wf ∅ st → is_u32 name → space_view st name = Some c →
  ∃ ep e, denotes ∅ st name ep ∧ eget st ep = Some e ∧ cap_of e = c ∧ IE_BITS_TYPE (ie_bits e) ≠ 0.
Proof.
  intros Hw Hu Hv. pose proof (view_holds ∅ st name Hw Hu) as Hx. rewrite Hv in Hx.
  destruct Hx as ((ep & e & Hd & He & <-) & Ht). exists ep, e. rewrite TYPE_cap in Ht. done.
Qed.

(** C23. ipc_hash_lookup finds, through the local and the global reverse
    hash table, the name and the entry of the send right a space has for an
    object, if and only if the space has one. *)
Theorem hash_lookup_correct st obj :
  space_wf ∅ st → obj ≠ IO_NULL →
  ∃ st' r, ipc_hash_lookup st obj = Ok (st', r) ∧ space_wf ∅ st' ∧ same_view st st' ∧
    (∀ name c, is_u32 name → space_view st name = Some c →
      IE_BITS_TYPE (cap_bits c) = MACH_PORT_TYPE_SEND → cap_object c = obj →
      ∃ ep, r = Some (name, ep)) ∧
    (∀ name ep, r = Some (name, ep) → ∃ e, eget st' ep = Some e ∧
      space_view st name = Some (cap_of e) ∧
      IE_BITS_TYPE (ie_bits e) = MACH_PORT_TYPE_SEND ∧ ie_object e = obj).
Proof.
  intros Hw Hobj. destruct (hash_lookup_spec ∅ st obj Hw Hobj) as (bs & r & Hrun & Hw' & Hp & Hr).
  exists (with_buckets st bs), r. split_and!; [done..| |].
  - intros name c Hu (ep & e & Hd & He & <- & _)%view_entry Ht Ho; [|done..]. rewrite TYPE_cap in Ht.
    assert (reversed st ep) as Hrev by (apply (reversed_type ∅ st name ep e); [done..|set_solver|done]).
    simpl in Ho. rewrite <-(entry_object_get st ep e He) in Ho. destruct r as [[n ep']|].
    + destruct Hr as (Hd' & Hrev' & Ho').
      assert (ep' = ep) as -> by (by eapply reversed_unique; [..|rewrite Ho']).
      exists ep. do 2 f_equal. by eapply denotes_name.
    + by destruct (Hr name ep Hd Hrev).
  - intros name ep ->. destruct Hr as (Hd & Hrev & Ho).
    destruct (denotes_eget _ _ _ _ Hw Hd) as (e & He). exists e.
    assert (IE_BITS_TYPE (ie_bits e) = MACH_PORT_TYPE_SEND) as Ht
      by (apply (reversed_type ∅ st name ep e); [done..|set_solver|done]).
    split_and!; [by destruct ep| |done|by rewrite <-(entry_object_get st ep)].
    by rewrite (view_denotes _ _ _ _ _ Hw Hd He), Ht.
Qed.

(** Entering and removing an entry. *)
Definition reversing (st st' : istate) (ep : eptr) (b : bool) : Prop :=
  ∀ ep', reversed st' ep' ↔ if decide (ep' = ep) then b = true else reversed st ep'.

(** Tables with the same entries but for the slots of the hash table. *)
Section reslot.
Context (t t' : list ipc_entry).
Hypothesis Hs : same_entries t t'.

Lemma reslot_bits i : bits_at t' i = bits_at t i.
Proof. unfold bits_at. rewrite Hs. by destruct (tget t i). Qed.
Lemma reslot_next i : next_at t' i = next_at t i.
Proof. unfold next_at. rewrite Hs. by destruct (tget t i). Qed.
Lemma reslot_object i : object_at t' i = object_at t i.
Proof. unfold object_at. rewrite Hs. by destruct (tget t i). Qed.
Lemma reslot_name i : name_at t' i = name_at t i.
Proof. unfold name_at. by rewrite reslot_bits. Qed.
Lemma reslot_type i : type_at t' i = type_at t i.
Proof. unfold type_at. by rewrite reslot_bits. Qed.

Lemma reslot_table_wf H : tsize t' = tsize t → table_wf H t → table_wf H t'.
Proof.
  intros Hz [Hg0 Ht0 (fl & Hl & Hnd & Hfl) Hfe].
  split; [by rewrite reslot_bits|by rewrite reslot_type| |].
  - exists fl. split_and!; [|done|].
    + eapply threaded_ext; [exact Hl|]. intros j _. by rewrite reslot_next.
    + intros i. by rewrite Hfl, Hz, reslot_type, reslot_name.
  - intros i. rewrite Hz, reslot_type, reslot_name, reslot_bits, reslot_object. apply Hfe.
Qed.

Lemma reslot_coll_wf H l : tsize t' = tsize t → coll_wf H t l → coll_wf H t' l.
Proof.
  intros Hz [Hb Hu]. split.
  - intros i. rewrite Hz, reslot_bits. apply Hb.
  - intros n. rewrite Hz, reslot_type, reslot_name. apply Hu.
Qed.
End reslot.

(** The space after its hash tables have changed for the name in hand. *)
Lemma rehash_wf H st name ep t' bs h b :
  space_wf H st → name ∈ H → denotes H st name ep →
  same_entries (st_table st) t' → tsize t' = tsize (st_table st) →
  local_hash t' → global_hash (tree_elems st) (st_ites st) bs →
  h = Z.of_nat (own_hashed (st_ites st) bs) →
  let st' := with_buckets (with_space st (λ s, set_is_tree_hash (set_is_table s t') h)) bs in
  (∀ i p, hashed t' i → p ∈ mjoin bs → own (st_ites st) p → object_at t' i ≠ object_of (st_ites st) p) →
  reversing st st' ep b → space_wf H st'.
Proof.
  intros Hw Hn Hd Hse Hz Hl Hg Hh st' Hdj Hrev.
  pose proof (sw_hash _ _ Hw) as Hhw.
  split; try (by destruct Hw).
  - change (st_table st') with t'. rewrite Hz. apply Hw.
  - apply (reslot_table_wf (st_table st)); [done..|apply Hw].
  - apply (reslot_coll_wf (st_table st)); [done..|apply Hw].
  - split; [done..| | |done].
    + intros i. change (st_table st') with t'. rewrite Hz, (reslot_type _ _ Hse), (reslot_name _ _ Hse).
      intros Hi Hx. rewrite <-(hw_type _ _ _ _ _ Hhw i Hi Hx). pose proof (Hrev (EP_table i)) as Hr. simpl in Hr.
      change (st_table st') with t' in Hr. rewrite Hr, decide_False; [done|]. intros <-. destruct Hd as (_ & Hni & _). congruence.
    + intros n p te Hp Hte Hx. change (st_ites st') with (st_ites st) in Hte.
      change (tree_elems st') with (tree_elems st) in Hp.
      rewrite <-(hw_tree_type _ _ _ _ _ Hhw n p te Hp Hte Hx). pose proof (Hrev (EP_tree p)) as Hr. simpl in Hr.
      change (st_buckets st') with bs in *.
      rewrite Hr, decide_False; [done|]. intros <-. apply Hx.
      assert (n = name) as -> by (by eapply tree_addr_unique). done.
  - intros n Hin. destruct (sw_hand _ _ Hw n Hin) as (Hu & ep' & Hd'). split; [done|]. exists ep'.
    destruct ep' as [j|p]; [|done]. simpl in *. change (st_table st') with t'.
    by rewrite Hz, (reslot_name _ _ Hse), (reslot_type _ _ Hse).
Qed.

(** Only the hash tables differ. *)
Definition rehashed (st st' : istate) : Prop :=
  ∃ t' h bs, st' = with_buckets (with_space st (λ s, set_is_tree_hash (set_is_table s t') h)) bs ∧
    same_entries (st_table st) t' ∧ tsize t' = tsize (st_table st).

Lemma rehashed_denotes H st st' n ep : rehashed st st' → denotes H st' n ep ↔ denotes H st n ep.
Proof.
  intros (t' & h & bs & -> & Hse & Hz). destruct ep as [i|p]; [|done]. simpl.
  change (st_table _) with t' at 1 2 3.
  by rewrite Hz, (reslot_name _ _ Hse), (reslot_type _ _ Hse).
Qed.

Lemma rehashed_get st st' ep e :
  rehashed st st' → eget st ep = Some e → ∃ x, eget st' ep = Some (set_ie_index e x).
Proof.
  intros (t' & h & bs & -> & Hse & Hz). destruct ep as [i|p]; simpl.
  - intros He. eexists. change (st_table _) with t'. by rewrite Hse, He.
  - intros He. exists (ie_index e). rewrite He. by destruct e.
Qed.

Lemma rehashed_view st st' n : rehashed st st' → space_view st' n = space_view st n.
Proof.
  intros (t' & h & bs & -> & Hse & Hz). unfold space_view. simpl.
  destruct (splay_map _ !! n); [done|]. change (st_table _) with t' at 1. rewrite Hse.
  by destruct (tget (st_table st) (MACH_PORT_INDEX n)).
Qed.

(** The case of the code: a slot of the table, or a tree entry. *)
Lemma ep_case H st name ep :
  space_wf H st → denotes H st name ep →
  (MACH_PORT_INDEX name <? is_table_size (st_space st)) &&
    bool_decide (ep = EP_table (MACH_PORT_INDEX name)) =
  match ep with EP_table _ => true | EP_tree _ => false end.
Proof.
  intros Hw Hd. pose proof (sw_size _ _ Hw) as Hz. destruct ep as [i|p]; [|by rewrite andb_false_r].
  pose proof (denotes_index _ _ _ _ Hw Hd) as ->. rewrite bool_decide_true by done.
  rewrite (proj2 (Z.ltb_lt _ _)); [done|]. destruct Hd. lia.
Qed.

Lemma tree_not_fast H st name p :
  space_wf H st → (name, p) ∈ tree_elems st → is_fast (st_space st) = false.
Proof.
  intros Hw Hp. destruct (is_fast (st_space st)) eqn:Hf; [|done].
  rewrite (sw_fast _ _ Hw Hf) in Hp. by apply elem_of_nil in Hp.
Qed.

Lemma own_hashed_cons ites bs bs' p :
  own ites p → mjoin bs' ≡ₚ p :: mjoin bs → own_hashed ites bs' = S (own_hashed ites bs).
Proof. intros Hown Hp. unfold own_hashed. rewrite Hp. by rewrite filter_cons_True. Qed.

(** Fewer entries of the space are hashed than there are in its tree. *)
Lemma own_hashed_lt H st name p :
  space_wf H st → (name, p) ∈ tree_elems st → p ∉ mjoin (st_buckets st) →
  is_tree_hash (st_space st) < is_tree_total (st_space st).
Proof.
  intros Hw Hp Hn. pose proof (hw_global _ _ _ _ _ (sw_hash _ _ Hw)) as Hg.
  rewrite (sw_hashed _ _ Hw), (sw_total _ _ Hw). unfold own_hashed.
  assert (NoDup (p :: filter (own (st_ites st)) (mjoin (st_buckets st)))) as Hnd.
  { constructor; [by rewrite list_elem_of_filter; intros [_ ?]|]. apply NoDup_filter, Hg. }
  apply NoDup_submseteq with (k := (tree_elems st).*2) in Hnd.
  - apply submseteq_length in Hnd. rewrite length_fmap in Hnd. simpl in Hnd. lia.
  - intros q [->|(Hown & Hq)%list_elem_of_filter]%elem_of_cons.
    + apply list_elem_of_fmap. by exists (name, p).
    + destruct (gh_entry _ _ _ q Hg Hq) as (t & Ht).
      destruct (gh_own _ _ _ Hg q t Hq Ht) as [Hx _]; [by apply (own_iff _ _ _ Ht) in Hown|].
      apply list_elem_of_fmap. by exists (ite_name t, q).
Qed.

(** ** Entering a send right *)

Lemma hash_insert_table H st name i e :
  space_wf H st → name ∈ H → denotes H st name (EP_table i) → tget (st_table st) i = Some e →
  ie_object e ≠ IO_NULL →
  (∀ n ep, denotes H st n ep → reversed st ep → entry_object st ep ≠ ie_object e) →
  ∃ t', ipc_hash_local_insert (st_table st) (tsize (st_table st)) (ie_object e) i = Ok t' ∧
    space_wf H (set_table st t') ∧ rehashed st (set_table st t') ∧
    reversing st (set_table st t') (EP_table i) true.
Proof.
  intros Hw Hn Hd He Ho Hfresh. pose proof (sw_hash _ _ Hw) as Hh. pose proof (hw_local _ _ _ _ _ Hh) as Hl.
  rewrite (object_at_get _ _ _ He) in *.
  destruct (local_insert_spec (st_table st) i) as (t' & Hrun & Hl' & Hz & Hse & Hhash); [done|apply Hd|done| |].
  { intros k Hk. pose proof (Hfresh _ _ (hashed_denotes _ _ _ Hw Hk) Hk) as Hx. done. }
  exists t'. assert (reversing st (set_table st t') (EP_table i) true) as Hrev.
  { intros ep. case_decide as Hx; [subst ep; split; [done|intros _; apply Hhash; by left]|].
    destruct ep as [j|p]; [|done]. simpl. change (st_table (set_table st t')) with t'.
    rewrite Hhash. split; [intros [->|?]; done|by right]. }
  split_and!; [done| |by exists t', (is_tree_hash (st_space st)), (st_buckets st)|done].
  apply (rehash_wf H st name (EP_table i) t' (st_buckets st) (is_tree_hash (st_space st)) true);
    [done..|apply Hh|apply (sw_hashed _ _ Hw)| |done].
  intros j p Hj Hp Hown. rewrite (reslot_object _ _ Hse). apply Hhash in Hj as [->|Hj]; [|by apply (hw_disjoint _ _ _ _ _ Hh)].
  destruct (gh_entry _ _ _ p (hw_global _ _ _ _ _ Hh) Hp) as (t & Ht).
  destruct (gh_own _ _ _ (hw_global _ _ _ _ _ Hh) p t Hp Ht) as [Hx _]; [by apply (own_iff _ _ _ Ht) in Hown|].
  intros Heq. apply (Hfresh _ (EP_tree p) Hx Hp). unfold entry_object. simpl. rewrite Ht. simpl.
  by rewrite Heq, (object_of_Some _ _ _ Ht).
Qed.

Lemma hash_insert_tree H st name p te :
  space_wf H st → name ∈ H → (name, p) ∈ tree_elems st → st_ites st !! p = Some te →
  ite_object te ≠ IO_NULL → p ∉ mjoin (st_buckets st) →
  (∀ n ep, denotes H st n ep → reversed st ep → entry_object st ep ≠ ite_object te) →
  ∃ st', ipc_hash_global_insert st (ite_object te) name p = Ok st' ∧
    space_wf H st' ∧ rehashed st st' ∧ reversing st st' (EP_tree p) true.
Proof.
  intros Hw Hn Hd Hte Ho Hnr Hfresh. pose proof (sw_hash _ _ Hw) as Hh. pose proof (hw_global _ _ _ _ _ Hh) as Hg.
  destruct (tree_elem_ok _ _ _ _ Hw Hd) as (t & Ht & Hname & Hsp & _).
  assert (t = te) as -> by congruence.
  assert (own (st_ites st) p) as Hown by (by eapply reversed_own).
  destruct (global_insert_spec st (tree_elems st) name p te) as (bs & Hrun & Hg' & Hp);
    [done|apply Hw|by eapply tree_not_fast|done..|by eapply own_hashed_lt|done| |].
  { intros q Hq Hownq. destruct (gh_entry _ _ _ q Hg Hq) as (t & Htq).
    destruct (gh_own _ _ _ Hg q t Hq Htq) as [Hx _]; [by apply (own_iff _ _ _ Htq) in Hownq|].
    rewrite (object_of_Some _ _ _ Htq). pose proof (Hfresh _ (EP_tree q) Hx Hq) as Hy.
    unfold entry_object in Hy. simpl in Hy. by rewrite Htq in Hy. }
  rewrite Hrun. eexists. split; [done|]. set (st' := with_buckets _ _).
  assert (reversing st st' (EP_tree p) true) as Hrev.
  { intros ep. case_decide as Hx; [subst ep; split; [done|intros _; simpl; rewrite Hp; by left]|].
    destruct ep as [j|q]; [done|]. simpl. rewrite Hp, elem_of_cons. split; [intros [->|?]; done|by right]. }
  split_and!; [|exists (st_table st), (is_tree_hash (st_space st) + 1), bs; split_and!; [done|apply same_entries_refl|done]|done].
  apply (rehash_wf H st name (EP_tree p) (st_table st) bs (is_tree_hash (st_space st) + 1) true);
    [done..|apply same_entries_refl|done|apply Hh|done| | |done].
  - rewrite (sw_hashed _ _ Hw), (own_hashed_cons _ (st_buckets st) bs p) by done. lia.
  - intros i q Hi. rewrite Hp, elem_of_cons. intros [->|Hq] Hownq; [|by apply (hw_disjoint _ _ _ _ _ Hh)].
    rewrite (object_of_Some _ _ _ Hte). apply (Hfresh _ _ (hashed_denotes _ _ _ Hw Hi) Hi).
Qed.

Lemma hash_insert_spec H st name ep e :
  space_wf H st → name ∈ H → denotes H st name ep → eget st ep = Some e →
  ie_object e ≠ IO_NULL → ¬ reversed st ep →
  (∀ n ep', denotes H st n ep' → reversed st ep' → entry_object st ep' ≠ ie_object e) →
  ∃ st', ipc_hash_insert st (ie_object e) name ep = Ok st' ∧
    space_wf H st' ∧ rehashed st st' ∧ reversing st st' ep true.
Proof.
  intros Hw Hn Hd He Ho Hnr Hfresh. unfold ipc_hash_insert. rewrite (ep_case H st name ep) by done.
  destruct ep as [i|p].
  - pose proof (denotes_index _ _ _ _ Hw Hd) as ->. rewrite (sw_size _ _ Hw).
    destruct (hash_insert_table H st name i e) as (t' & Hrun & ?); [done..|].
    change (is_table (st_space st)) with (st_table st). rewrite Hrun. ostep. by exists (set_table st t').
  - rewrite (tree_not_fast _ _ _ _ Hw Hd). ostep. simpl in He.
    destruct (st_ites st !! p) as [te|] eqn:Hte; [|done]. injection He as <-. by apply hash_insert_tree with (te := te).
Qed.

(** ** Removing it *)

Lemma hash_delete_table H st name i e :
  space_wf H st → name ∈ H → denotes H st name (EP_table i) → tget (st_table st) i = Some e →
  hashed (st_table st) i →
  ∃ t', ipc_hash_local_delete (st_table st) (tsize (st_table st)) (ie_object e) i = Ok t' ∧
    space_wf H (set_table st t') ∧ rehashed st (set_table st t') ∧
    reversing st (set_table st t') (EP_table i) false.
Proof.
  intros Hw Hn Hd He Hr. pose proof (sw_hash _ _ Hw) as Hh. rewrite (object_at_get _ _ _ He).
  destruct (local_delete_spec (st_table st) i) as (t' & Hrun & Hl' & Hz & Hse & Hhash); [apply Hh|done|].
  exists t'. assert (reversing st (set_table st t') (EP_table i) false) as Hrev.
  { intros ep. case_decide as Hx; [subst ep; split; [intros [_ ?]%Hhash; done|done]|].
    destruct ep as [j|p]; [|done]. simpl. change (st_table (set_table st t')) with t'.
    rewrite Hhash. split; [by intros []|]. intros. split; [done|congruence]. }
  split_and!; [done| |by exists t', (is_tree_hash (st_space st)), (st_buckets st)|done].
  apply (rehash_wf H st name (EP_table i) t' (st_buckets st) (is_tree_hash (st_space st)) false);
    [done..|apply Hh|apply (sw_hashed _ _ Hw)| |done].
  intros j p [Hj _]%Hhash. rewrite (reslot_object _ _ Hse). by apply (hw_disjoint _ _ _ _ _ Hh).
Qed.

Lemma hash_delete_tree H st name p te :
  space_wf H st → name ∈ H → (name, p) ∈ tree_elems st → st_ites st !! p = Some te →
  p ∈ mjoin (st_buckets st) →
  ∃ st', ipc_hash_global_delete st (ite_object te) name p = Ok st' ∧
    space_wf H st' ∧ rehashed st st' ∧ reversing st st' (EP_tree p) false.
Proof.
  intros Hw Hn Hd Hte Hr. pose proof (sw_hash _ _ Hw) as Hh. pose proof (hw_global _ _ _ _ _ Hh) as Hg.
  destruct (tree_elem_ok _ _ _ _ Hw Hd) as (t & Ht & Hname & Hsp & _).
  assert (t = te) as -> by congruence.
  assert (own (st_ites st) p) as Hown by (by eapply reversed_own).
  assert (0 < is_tree_hash (st_space st)) as Hpos.
  { rewrite (sw_hashed _ _ Hw). pose proof (own_hashed_pos _ _ _ Hr Hown). lia. }
  destruct (global_delete_spec st (tree_elems st) name p te) as (bs & Hrun & Hg' & Hp);
    [done|apply Hw|by eapply tree_not_fast|done..|].
  assert (p ∉ mjoin bs) as Hpn.
  { pose proof (gh_nodup _ _ _ Hg) as Hnd. rewrite <-Hp in Hnd. by inv Hnd. }
  rewrite Hrun. eexists. split; [done|]. set (st' := with_buckets _ _).
  assert (reversing st st' (EP_tree p) false) as Hrev.
  { intros ep. case_decide as Hx; [subst ep; split; done|].
    destruct ep as [j|q]; [done|]. simpl. rewrite <-Hp, elem_of_cons. split; [by right|intros [->|?]; done]. }
  split_and!; [|exists (st_table st), (is_tree_hash (st_space st) - 1), bs; split_and!; [done|apply same_entries_refl|done]|done].
  apply (rehash_wf H st name (EP_tree p) (st_table st) bs (is_tree_hash (st_space st) - 1) false);
    [done..|apply same_entries_refl|done|apply Hh|done| | |done].
  - rewrite (sw_hashed _ _ Hw), (own_hashed_cons _ bs (st_buckets st) p) by done. lia.
  - intros i q Hi Hq. apply (hw_disjoint _ _ _ _ _ Hh); [done|]. rewrite <-Hp. by right.
Qed.

Lemma hash_delete_spec H st name ep e :
  space_wf H st → name ∈ H → denotes H st name ep → eget st ep = Some e → reversed st ep →
  ∃ st', ipc_hash_delete st (ie_object e) name ep = Ok st' ∧
    space_wf H st' ∧ rehashed st st' ∧ reversing st st' ep false.
Proof.
  intros Hw Hn Hd He Hr. unfold ipc_hash_delete. rewrite (ep_case H st name ep) by done.
  destruct ep as [i|p].
  - pose proof (denotes_index _ _ _ _ Hw Hd) as ->. rewrite (sw_size _ _ Hw).
    destruct (hash_delete_table H st name i e) as (t' & Hrun & ?); [done..|].
    change (is_table (st_space st)) with (st_table st). rewrite Hrun. ostep. by exists (set_table st t').
  - rewrite (tree_not_fast _ _ _ _ Hw Hd). ostep. simpl in He.
    destruct (st_ites st !! p) as [te|] eqn:Hte; [|done]. injection He as <-. by apply hash_delete_tree with (te := te).
Qed.

(** Taking a name in hand. *)
Lemma rewrite_id st ep e :
  eget st ep = Some e → eset st ep (rewrite_entry (ie_bits e) (ie_object e) (ie_request e)) = st.
Proof.
  intros He. destruct ep as [i|p]; simpl in *.
  - unfold set_table, with_space, set_is_table. destruct st as [[] ? ? ?]. unfold st_table in *. simpl in *.
    do 2 f_equal. apply tmod_id with (e := e); [done|]. by destruct e.
  - unfold with_ites. destruct st as [? ites ? ?]. simpl in *. f_equal. apply map_eq. intros q.
    destruct (decide (q = p)) as [->|]; [|by rewrite lookup_alter_ne]. rewrite lookup_alter_eq.
    destruct (ites !! p) as [[[] ? ?]|]; [|done]. simpl in *. by injection He as <-.
Qed.

Lemma take_in_hand H st name ep :
  space_wf H st → denotes H st name ep → space_wf ({[name]} ∪ H) st.
Proof.
  intros Hw Hd. destruct (denotes_eget _ _ _ _ Hw Hd) as (e & He).
  destruct (rewrite_spec H ({[name]} ∪ H) st name ep e (ie_bits e) (ie_object e) (ie_request e))
    as [Hw' _ _ _]; [done..|intros n Hn; set_solver|apply same_high_refl|done|intros Hx; set_solver|].
  by rewrite rewrite_id in Hw'.
Qed.
End update.
