(* ===== verification/IpcSpace.v ===== *)
(** * Spaces (ipc/ipc_space.c, ipc/ipc_space.h)

    Creation of spaces and the reference count.  A new space satisfies the
    invariant and holds nothing. *)

From stdpp Require Import prelude list gmap.
From S2P Require Import Prelude MachPort IpcSplay IpcTypes IpcHash IpcTable IpcEntry IpcInv.
From S2P Require Import IpcDealloc IpcGrow IpcAlloc IpcAllocName.

Section space.
Context {W : iworld}.

(** [ipc_space_reference_macro] and [ipc_space_release_macro]: the second
    also says whether the space is freed. *)
Definition ipc_space_reference (st : istate) : outcome istate :=
  kassert (0 <? is_references (st_space st));;
  Ok (with_space st (λ s, set_is_references s (u32 (is_references s + 1)))).

Definition ipc_space_release (st : istate) : outcome (istate * bool) :=
  kassert (0 <? is_references (st_space st));;
  let st := with_space st (λ s, set_is_references s (u32 (is_references s - 1))) in
  Ok (st, is_references (st_space st) =? 0).

(** The initial table: each entry has the generation -1 and links to the
    next one. *)
Definition space_table (new_size : Z) : list ipc_entry :=
  let table := replicate (Z.to_nat new_size) (IE 0 IO_NULL 0 0) in
  let table := foldl (λ table index,
      tmod table index (λ e, set_ie_next (set_ie_bits e IE_BITS_GEN_MASK) (index + 1)))
    table (seqZ 0 new_size) in
  tmod table (new_size - 1) (λ e, set_ie_next e 0).

(** [st] is the state with the memory of the space as the allocator gives
    it: [is_fast] and the fields of the tree other than its root keep whatever they held. *)
Definition ipc_space_create (st : istate) (initial : nat) : outcome (istate * kern_return) :=
  let '(st, space) := kmem st in
  match space with
  | None => Ok (st, KERN_RESOURCE_SHORTAGE)
  | Some _ =>
    let '(st, table) := kmem st in
    match table with
    | None => Ok (st, KERN_RESOURCE_SHORTAGE)
    | Some addr =>
      new_size ← its_size initial;
      Ok (with_space st (λ s,
            IS 2 false true false (space_table new_size) addr new_size (S initial)
              (ipc_splay_tree_init (is_tree s)) 0 0 0 (is_fast s)), KERN_SUCCESS)
    end
  end.

Definition ipc_space_create_special (st : istate) : istate * kern_return :=
  let '(st, space) := kmem st in
  match space with
  | None => (st, KERN_RESOURCE_SHORTAGE)
  | Some _ =>
    (with_space st (λ s, set_is_active (set_is_locked (set_is_references s 1) false) false),
     KERN_SUCCESS)
  end.

(** ** The initial table *)

Lemma tget_fold_tmod (f : Z → ipc_entry → ipc_entry) l : ∀ t j,
  NoDup l → tget (foldl (λ t i, tmod t i (f i)) t l) j =
    if decide (j ∈ l) then f j <$> tget t j else tget t j.
Proof.
  induction l as [|i l IH]; intros t j Hnd; [done|]. apply NoDup_cons in Hnd as [Hi Hnd]. simpl.
  rewrite IH, tget_tmod by done. destruct (decide (i = j)) as [->|Hne].
  - rewrite decide_False, decide_True by (done || by left). done.
  - destruct (decide (j ∈ l)); [rewrite decide_True by (by right); done|].
    rewrite decide_False; [done|]. rewrite not_elem_of_cons. done.
Qed.

Lemma space_table_get n j :
  0 < n → tget (space_table n) j =
    if decide (0 ≤ j < n) then Some (IE IE_BITS_GEN_MASK IO_NULL (if decide (j = n - 1) then 0 else j + 1) 0)
    else None.
Proof.
  intros Hn. unfold space_table. rewrite tget_tmod.
  rewrite (tget_fold_tmod (λ i e, set_ie_next (set_ie_bits e IE_BITS_GEN_MASK) (i + 1)))
    by apply NoDup_seqZ.
  assert (tget (replicate (Z.to_nat n) (IE 0 IO_NULL 0 0)) j =
    if decide (0 ≤ j < n) then Some (IE 0 IO_NULL 0 0) else None) as ->.
  { unfold tget. destruct (Z.leb_spec 0 j); [|by rewrite decide_False by lia].
    case_decide; [apply lookup_replicate; split; [done|lia]|apply lookup_replicate_None; lia]. }
  destruct (decide (j ∈ seqZ 0 n)) as [Hin|Hin]; rewrite elem_of_seqZ in Hin.
  - rewrite !(decide_True (P := 0 ≤ j < n)) by lia.
    destruct (decide (n - 1 = j)) as [Heq|Hne].
    + by rewrite (decide_True (P := j = n - 1)) by lia.
    + by rewrite (decide_False (P := j = n - 1)) by lia.
  - rewrite !(decide_False (P := 0 ≤ j < n)) by lia. by case_decide.
Qed.

Lemma space_table_size n : 0 < n → tsize (space_table n) = n.
Proof.
  intros Hn. unfold space_table. rewrite tsize_tmod.
  assert (∀ l t, tsize (foldl (λ table index, tmod table index
    (λ e, set_ie_next (set_ie_bits e IE_BITS_GEN_MASK) (index + 1))) t l) = tsize t) as Hf.
  { induction l as [|i l IH]; intros t; [done|]. simpl. by rewrite IH, tsize_tmod. }
  rewrite Hf. unfold tsize. rewrite length_replicate. lia.
Qed.

Lemma space_table_linked n k a :
  0 ≤ a → a + Z.of_nat k = n - 1 → linked (space_table n) a (seqZ (a + 1) (Z.of_nat k)).
Proof.
  revert a. induction k as [|k IH]; intros a Ha Hk.
  - simpl. unfold next_at. rewrite space_table_get, decide_True by lia. simpl.
    by rewrite decide_True by lia.
  - rewrite seqZ_cons by lia. simpl. unfold next_at at 1.
    rewrite space_table_get, decide_True by lia. simpl. rewrite decide_False by lia.
    split_and!; [done|lia|]. replace (Z.pred (Z.of_nat (S k))) with (Z.of_nat k) by lia.
    apply (IH (a + 1)); lia.
Qed.

Lemma space_table_bits n j : 0 < n → bits_at (space_table n) j = if decide (0 ≤ j < n) then IE_BITS_GEN_MASK else 0.
Proof. intros. unfold bits_at. rewrite space_table_get by done. by case_decide. Qed.

Lemma space_table_wf n : 0 < n → table_wf ∅ (space_table n).
Proof.
  intros Hn. assert (∀ j, type_at (space_table n) j = 0) as Hty.
  { intros j. unfold type_at. rewrite space_table_bits by done. by case_decide. }
  split.
  - rewrite space_table_bits, decide_True by lia. done.
  - apply Hty.
  - exists (seqZ 1 (n - 1)). split_and!.
    + replace (n - 1) with (Z.of_nat (Z.to_nat (n - 1))) by lia. apply space_table_linked; lia.
    + apply NoDup_seqZ.
    + intros i. rewrite elem_of_seqZ, space_table_size by done. split; [|lia].
      intros Hi. split_and!; [lia..|apply Hty|set_solver].
  - intros i Hi _ _. rewrite space_table_size in Hi by done. unfold object_at.
    rewrite space_table_bits, space_table_get, !decide_True by lia. done.
Qed.

Lemma space_table_first n :
  1 < n → ∃ x, tget (space_table n) 0 = Some (IE IE_BITS_GEN_MASK IO_NULL 1 0) ∧
    tget (space_table n) 1 = Some (IE IE_BITS_GEN_MASK IO_NULL x 0).
Proof.
  intros Hn. exists (if decide (1 = n - 1) then 0 else 2).
  rewrite !space_table_get, !(decide_True (P := 0 ≤ _ < n)) by lia.
  by rewrite (decide_False (P := 0 = n - 1)) by lia.
Qed.

(** ** A new space *)

Lemma new_space_wf st addr n k nsize :
  space_addr ≠ 0 → global_hash [] (st_ites st) (st_buckets st) →
  ipc_table_entries !! k = Some n → ipc_table_entries !! S k = Some nsize →
  space_wf ∅ (with_space st (λ s, IS 2 false true false (space_table n) addr n (S k)
    (ipc_splay_tree_init (is_tree s)) 0 0 0 (is_fast s))).
Proof.
  intros Ha Hg K1 K2. pose proof (its_next_le _ _ _ K1 K2) as (Hn & Hle & Hlt & _).
  assert (own_hashed (st_ites st) (st_buckets st) = 0%nat) as Hoh.
  { unfold own_hashed. destruct (filter _ _) as [|p l] eqn:E; [done|]. exfalso.
    assert (p ∈ filter (own (st_ites st)) (mjoin (st_buckets st))) as [Ho Hp]%list_elem_of_filter
      by (rewrite E; by left).
    unfold own in Ho. destruct (st_ites st !! p) as [te|] eqn:Hte; [|done]. injection Ho as Ho.
    destruct (gh_own _ _ _ Hg p te Hp Hte Ho) as [Hin _]. by apply elem_of_nil in Hin. }
  assert (∀ j, slot (space_table n) j = 0) as Hslot.
  { intros j. unfold slot. rewrite space_table_get by lia. by case_decide. }
  split; try done.
  - change (n = tsize (space_table n)). by rewrite space_table_size by lia.
  - by exists k, nsize.
  - apply space_table_wf. lia.
  - split_and!; [constructor|by intros p ?%elem_of_nil|done].
  - intros name p Hp. by apply elem_of_nil in Hp.
  - split; [|intros m Hm; by apply elem_of_nil in Hm]. intros i Hi.
    change (st_table (with_space st _)) with (space_table n) in *.
    rewrite space_table_size in Hi by lia. rewrite space_table_bits, decide_True by lia.
    split; [done|]. intros (m & Hm & _). by apply elem_of_nil in Hm.
  - change (st_table (with_space st _)) with (space_table n).
    assert (∀ i, ¬ hashed (space_table n) i) as Hno by (intros i (Hi & j & _ & Hj); congruence).
    split; try done.
    + split; intros j; intros; by rewrite Hslot in *.
    + intros i Hi _. unfold type_at. rewrite space_table_size in Hi by lia.
      rewrite space_table_bits, decide_True by lia. split; [by intros ?%Hno|done].
    + intros name p te Hp. by apply elem_of_nil in Hp.
    + by intros i p ?%Hno.
  - change (0 = Z.of_nat (own_hashed (st_ites st) (st_buckets st))). by rewrite Hoh.
Qed.

(** C35. ipc_space_create makes an active, unlocked space with two
    references that satisfies the invariant and binds no name, whose first
    allocation is index 1 with generation 3; it fails only when memory
    does. *)
Theorem space_create_correct st initial nsize :
  space_addr ≠ 0 → global_hash [] (st_ites st) (st_buckets st) →
  ipc_table_entries !! S initial = Some nsize →
  ∃ st' kr, ipc_space_create st initial = Ok (st', kr) ∧
    match kr with
    | KERN_SUCCESS => space_wf ∅ st' ∧ is_active (st_space st') = true ∧
        is_references (st_space st') = 2 ∧ is_locked (st_space st') = false ∧
        is_growing (st_space st') = false ∧
        (∀ n, is_u32 n → space_view st' n = None) ∧
        ∃ st2 ep, ipc_entry_get st' = Ok (st2, (KERN_SUCCESS, Some (MACH_PORT_MAKE 1 0x03000000, ep)))
    | KERN_RESOURCE_SHORTAGE => w_alloc (st_clock st) st = None ∨
        w_alloc (S (st_clock st)) (tick st) = None
    | _ => False
    end.
Proof.
  intros Ha Hg K2. unfold ipc_space_create. cbn [kmem].
  destruct (w_alloc (st_clock st) st) as [a|]; [|by exists (tick st), KERN_RESOURCE_SHORTAGE; split; [|left]].
  change (st_clock (tick st)) with (S (st_clock st)).
  destruct (w_alloc (S (st_clock st)) (tick st)) as [addr|] eqn:Hal;
    [|by exists (tick (tick st)), KERN_RESOURCE_SHORTAGE; split; [|right]].
  destruct (lookup_lt_is_Some_2 ipc_table_entries initial) as (n & K1);
    [apply lookup_lt_Some in K2; lia|].
  unfold its_size. rewrite K1. ostep. pose proof (its_next_le _ _ _ K1 K2) as (Hn & _).
  pose proof (new_space_wf (tick (tick st)) addr n initial nsize Ha Hg K1 K2) as Hw.
  eexists _, _. split; [done|]. split; [exact Hw|]. split_and!; [done..| |].
  - intros m Hm. eapply view_None; [exact Hw|done|]. intros [i|p] Hd; [|by apply elem_of_nil in Hd].
    destruct Hd as (_ & _ & [Ht|?]); [|set_solver]. apply Ht. unfold type_at.
    change (st_table (with_space _ _)) with (space_table n). rewrite space_table_bits by lia. by case_decide.
  - unfold ipc_entry_get. ostep. change (st_table (with_space _ _)) with (space_table n).
    destruct (space_table_first n) as (x & H0 & H1); [lia|]. rewrite H0. ostep. cbn [ie_request].
    change (1 =? 0) with false. rewrite H1. ostep. cbn [ie_bits ie_object ie_request].
    change (IE_BITS_NEW_GEN IE_BITS_GEN_MASK) with 0x03000000.
    change (Z.land IE_BITS_GEN_MASK (Z.lnot IE_BITS_GEN_MASK) =? 0) with true.
    change (MACH_PORT_VALID (MACH_PORT_MAKE 1 0x03000000)) with true.
    eexists _, (EP_table 1). simpl is_active. ostep. rewrite Z.eqb_refl. ostep. reflexivity.
Qed.
End space.
