(* ===== verification/IpcPort.v ===== *)
(** * Ports (ipc/ipc_port.c, ipc/ipc_port.h, ipc/ipc_object.h)

    Counts of rights, no-senders requests, tables of dead-name requests, the
    queue limit, and the check that keeps ports in transit from forming a
    circle.  Notifications are events: the messages they become are outside
    of this component. *)

From stdpp Require Import prelude list gmap.
From S2P Require Import Prelude MachPort IpcTypes IpcTable.

(** ** Tables of dead-name requests

    [ipr_notify] is the union of [ipr_soright] and [ipr_next], [ipr_word]
    the union of [ipr_name] and, in element 0, [ipr_size] (a position in
    [ipc_table_dnrequests]). *)

Record ipc_port_request := IPR {
  ipr_notify : Z;
  ipr_word : Z;
}.

Abbreviation ipr_soright := ipr_notify (only parsing).
Abbreviation ipr_next := ipr_notify (only parsing).
Abbreviation ipr_name := ipr_word (only parsing).

Definition set_ipr_next (r : ipc_port_request) (x : Z) : ipc_port_request := IPR x (ipr_word r).
Definition set_ipr_name (r : ipc_port_request) (x : Z) : ipc_port_request := IPR (ipr_notify r) x.

(** The pointer and what it points to. *)
Record dntable := DN {
  dn_addr : Z;
  dn_table : list ipc_port_request;
}.

(** [table->ipr_size], as a position in [ipc_table_dnrequests]. *)
Definition ipr_size (t : list ipc_port_request) : outcome nat :=
  r ← deref (tget t 0); Ok (Z.to_nat (ipr_word r)).
Definition dn_its_size (its : nat) : outcome Z := deref (ipc_table_dnrequests !! its).

(** ** Message queues (ipc/ipc_mqueue.h, ipc/ipc_kmsg.h)

    A message is known by its address; [ikm_remote_port] is
    [ikm_header.msgh_remote_port], the port it was sent to, [ikm_bits] and
    [ikm_msgh_size] are [ikm_header.msgh_bits] and [ikm_header.msgh_size].
    The rings of messages and of waiting receivers are lists, first element
    first, as the file on linked queues shows. *)

Record ipc_kmsg := IKM {
  ikm_addr : Z;
  ikm_remote_port : Z;
  ikm_bits : Z;
  ikm_msgh_size : Z;
}.

Definition set_ikm_remote_port (m : ipc_kmsg) (x : Z) : ipc_kmsg :=
  IKM (ikm_addr m) x (ikm_bits m) (ikm_msgh_size m).

#[export] Instance ipc_kmsg_eq_dec : EqDecision ipc_kmsg.
Proof. solve_decision. Defined.

Record ipc_mqueue := IMQ {
  imq_locked : bool;
  imq_messages : list ipc_kmsg;
  imq_threads : list Z;
}.

Definition set_imq_locked (q : ipc_mqueue) (x : bool) : ipc_mqueue :=
  IMQ x (imq_messages q) (imq_threads q).
Definition set_imq_messages (q : ipc_mqueue) (x : list ipc_kmsg) : ipc_mqueue :=
  IMQ (imq_locked q) x (imq_threads q).
Definition set_imq_threads (q : ipc_mqueue) (x : list Z) : ipc_mqueue :=
  IMQ (imq_locked q) (imq_messages q) x.

(** [ipc_mqueue_init] *)
Definition ipc_mqueue_init : ipc_mqueue := IMQ false [] [].

(** ** Ports

    [ip_locked] says whether the thread under consideration holds the lock;
    [ip_data] is the union of [ip_receiver], [ip_destination] and
    [ip_timestamp].  [ip_kotype] is the part of [io_bits] that says which
    kernel object the port stands for, [ip_waiting] the count of threads
    that wait for an activation of [ip_thread_pool]. *)

Record ipc_port := IP {
  ip_references : Z;
  ip_active : bool;
  ip_locked : bool;
  ip_receiver_name : Z;
  ip_data : Z;
  ip_mscount : Z;
  ip_srights : Z;
  ip_sorights : Z;
  ip_nsrequest : Z;
  ip_pdrequest : Z;
  ip_dnrequests : option dntable;
  ip_pset : Z;
  ip_seqno : Z;
  ip_msgcount : Z;
  ip_qlimit : Z;
  ip_blocked : list Z;
  ip_messages : ipc_mqueue;
  ip_kotype : Z;
  ip_subsystem : Z;
  ip_waiting : Z;
}.

Definition set_ip_references (p : ipc_port) (x : Z) : ipc_port :=
  IP x (ip_active p) (ip_locked p) (ip_receiver_name p) (ip_data p) (ip_mscount p) (ip_srights p)
    (ip_sorights p) (ip_nsrequest p) (ip_pdrequest p) (ip_dnrequests p) (ip_pset p) (ip_seqno p)
    (ip_msgcount p) (ip_qlimit p) (ip_blocked p) (ip_messages p) (ip_kotype p) (ip_subsystem p)
    (ip_waiting p).
Definition set_ip_active (p : ipc_port) (x : bool) : ipc_port :=
  IP (ip_references p) x (ip_locked p) (ip_receiver_name p) (ip_data p) (ip_mscount p)
    (ip_srights p) (ip_sorights p) (ip_nsrequest p) (ip_pdrequest p) (ip_dnrequests p) (ip_pset p)
    (ip_seqno p) (ip_msgcount p) (ip_qlimit p) (ip_blocked p) (ip_messages p) (ip_kotype p)
    (ip_subsystem p) (ip_waiting p).
Definition set_ip_locked (p : ipc_port) (x : bool) : ipc_port :=
  IP (ip_references p) (ip_active p) x (ip_receiver_name p) (ip_data p) (ip_mscount p)
    (ip_srights p) (ip_sorights p) (ip_nsrequest p) (ip_pdrequest p) (ip_dnrequests p) (ip_pset p)
    (ip_seqno p) (ip_msgcount p) (ip_qlimit p) (ip_blocked p) (ip_messages p) (ip_kotype p)
    (ip_subsystem p) (ip_waiting p).
Definition set_ip_receiver_name (p : ipc_port) (x : Z) : ipc_port :=
  IP (ip_references p) (ip_active p) (ip_locked p) x (ip_data p) (ip_mscount p) (ip_srights p)
    (ip_sorights p) (ip_nsrequest p) (ip_pdrequest p) (ip_dnrequests p) (ip_pset p) (ip_seqno p)
    (ip_msgcount p) (ip_qlimit p) (ip_blocked p) (ip_messages p) (ip_kotype p) (ip_subsystem p)
    (ip_waiting p).
Definition set_ip_data (p : ipc_port) (x : Z) : ipc_port :=
  IP (ip_references p) (ip_active p) (ip_locked p) (ip_receiver_name p) x (ip_mscount p)
    (ip_srights p) (ip_sorights p) (ip_nsrequest p) (ip_pdrequest p) (ip_dnrequests p) (ip_pset p)
    (ip_seqno p) (ip_msgcount p) (ip_qlimit p) (ip_blocked p) (ip_messages p) (ip_kotype p)
    (ip_subsystem p) (ip_waiting p).
Definition set_ip_mscount (p : ipc_port) (x : Z) : ipc_port :=
  IP (ip_references p) (ip_active p) (ip_locked p) (ip_receiver_name p) (ip_data p) x
    (ip_srights p) (ip_sorights p) (ip_nsrequest p) (ip_pdrequest p) (ip_dnrequests p) (ip_pset p)
    (ip_seqno p) (ip_msgcount p) (ip_qlimit p) (ip_blocked p) (ip_messages p) (ip_kotype p)
    (ip_subsystem p) (ip_waiting p).
Definition set_ip_srights (p : ipc_port) (x : Z) : ipc_port :=
  IP (ip_references p) (ip_active p) (ip_locked p) (ip_receiver_name p) (ip_data p) (ip_mscount p)
    x (ip_sorights p) (ip_nsrequest p) (ip_pdrequest p) (ip_dnrequests p) (ip_pset p) (ip_seqno p)
    (ip_msgcount p) (ip_qlimit p) (ip_blocked p) (ip_messages p) (ip_kotype p) (ip_subsystem p)
    (ip_waiting p).
Definition set_ip_sorights (p : ipc_port) (x : Z) : ipc_port :=
  IP (ip_references p) (ip_active p) (ip_locked p) (ip_receiver_name p) (ip_data p) (ip_mscount p)
    (ip_srights p) x (ip_nsrequest p) (ip_pdrequest p) (ip_dnrequests p) (ip_pset p) (ip_seqno p)
    (ip_msgcount p) (ip_qlimit p) (ip_blocked p) (ip_messages p) (ip_kotype p) (ip_subsystem p)
    (ip_waiting p).
Definition set_ip_nsrequest (p : ipc_port) (x : Z) : ipc_port :=
  IP (ip_references p) (ip_active p) (ip_locked p) (ip_receiver_name p) (ip_data p) (ip_mscount p)
    (ip_srights p) (ip_sorights p) x (ip_pdrequest p) (ip_dnrequests p) (ip_pset p) (ip_seqno p)
    (ip_msgcount p) (ip_qlimit p) (ip_blocked p) (ip_messages p) (ip_kotype p) (ip_subsystem p)
    (ip_waiting p).
Definition set_ip_pdrequest (p : ipc_port) (x : Z) : ipc_port :=
  IP (ip_references p) (ip_active p) (ip_locked p) (ip_receiver_name p) (ip_data p) (ip_mscount p)
    (ip_srights p) (ip_sorights p) (ip_nsrequest p) x (ip_dnrequests p) (ip_pset p) (ip_seqno p)
    (ip_msgcount p) (ip_qlimit p) (ip_blocked p) (ip_messages p) (ip_kotype p) (ip_subsystem p)
    (ip_waiting p).
Definition set_ip_dnrequests (p : ipc_port) (x : option dntable) : ipc_port :=
  IP (ip_references p) (ip_active p) (ip_locked p) (ip_receiver_name p) (ip_data p) (ip_mscount p)
    (ip_srights p) (ip_sorights p) (ip_nsrequest p) (ip_pdrequest p) x (ip_pset p) (ip_seqno p)
    (ip_msgcount p) (ip_qlimit p) (ip_blocked p) (ip_messages p) (ip_kotype p) (ip_subsystem p)
    (ip_waiting p).
Definition set_ip_pset (p : ipc_port) (x : Z) : ipc_port :=
  IP (ip_references p) (ip_active p) (ip_locked p) (ip_receiver_name p) (ip_data p) (ip_mscount p)
    (ip_srights p) (ip_sorights p) (ip_nsrequest p) (ip_pdrequest p) (ip_dnrequests p) x
    (ip_seqno p) (ip_msgcount p) (ip_qlimit p) (ip_blocked p) (ip_messages p) (ip_kotype p)
    (ip_subsystem p) (ip_waiting p).
Definition set_ip_seqno (p : ipc_port) (x : Z) : ipc_port :=
  IP (ip_references p) (ip_active p) (ip_locked p) (ip_receiver_name p) (ip_data p) (ip_mscount p)
    (ip_srights p) (ip_sorights p) (ip_nsrequest p) (ip_pdrequest p) (ip_dnrequests p) (ip_pset p)
    x (ip_msgcount p) (ip_qlimit p) (ip_blocked p) (ip_messages p) (ip_kotype p) (ip_subsystem p)
    (ip_waiting p).
Definition set_ip_msgcount (p : ipc_port) (x : Z) : ipc_port :=
  IP (ip_references p) (ip_active p) (ip_locked p) (ip_receiver_name p) (ip_data p) (ip_mscount p)
    (ip_srights p) (ip_sorights p) (ip_nsrequest p) (ip_pdrequest p) (ip_dnrequests p) (ip_pset p)
    (ip_seqno p) x (ip_qlimit p) (ip_blocked p) (ip_messages p) (ip_kotype p) (ip_subsystem p)
    (ip_waiting p).
Definition set_ip_qlimit (p : ipc_port) (x : Z) : ipc_port :=
  IP (ip_references p) (ip_active p) (ip_locked p) (ip_receiver_name p) (ip_data p) (ip_mscount p)
    (ip_srights p) (ip_sorights p) (ip_nsrequest p) (ip_pdrequest p) (ip_dnrequests p) (ip_pset p)
    (ip_seqno p) (ip_msgcount p) x (ip_blocked p) (ip_messages p) (ip_kotype p) (ip_subsystem p)
    (ip_waiting p).
Definition set_ip_blocked (p : ipc_port) (x : list Z) : ipc_port :=
  IP (ip_references p) (ip_active p) (ip_locked p) (ip_receiver_name p) (ip_data p) (ip_mscount p)
    (ip_srights p) (ip_sorights p) (ip_nsrequest p) (ip_pdrequest p) (ip_dnrequests p) (ip_pset p)
    (ip_seqno p) (ip_msgcount p) (ip_qlimit p) x (ip_messages p) (ip_kotype p) (ip_subsystem p)
    (ip_waiting p).
Definition set_ip_messages (p : ipc_port) (x : ipc_mqueue) : ipc_port :=
  IP (ip_references p) (ip_active p) (ip_locked p) (ip_receiver_name p) (ip_data p) (ip_mscount p)
    (ip_srights p) (ip_sorights p) (ip_nsrequest p) (ip_pdrequest p) (ip_dnrequests p) (ip_pset p)
    (ip_seqno p) (ip_msgcount p) (ip_qlimit p) (ip_blocked p) x (ip_kotype p) (ip_subsystem p)
    (ip_waiting p).
Definition set_ip_kotype (p : ipc_port) (x : Z) : ipc_port :=
  IP (ip_references p) (ip_active p) (ip_locked p) (ip_receiver_name p) (ip_data p) (ip_mscount p)
    (ip_srights p) (ip_sorights p) (ip_nsrequest p) (ip_pdrequest p) (ip_dnrequests p) (ip_pset p)
    (ip_seqno p) (ip_msgcount p) (ip_qlimit p) (ip_blocked p) (ip_messages p) x
    (ip_subsystem p) (ip_waiting p).
Definition set_ip_subsystem (p : ipc_port) (x : Z) : ipc_port :=
  IP (ip_references p) (ip_active p) (ip_locked p) (ip_receiver_name p) (ip_data p) (ip_mscount p)
    (ip_srights p) (ip_sorights p) (ip_nsrequest p) (ip_pdrequest p) (ip_dnrequests p) (ip_pset p)
    (ip_seqno p) (ip_msgcount p) (ip_qlimit p) (ip_blocked p) (ip_messages p) (ip_kotype p)
    x (ip_waiting p).
Definition set_ip_waiting (p : ipc_port) (x : Z) : ipc_port :=
  IP (ip_references p) (ip_active p) (ip_locked p) (ip_receiver_name p) (ip_data p) (ip_mscount p)
    (ip_srights p) (ip_sorights p) (ip_nsrequest p) (ip_pdrequest p) (ip_dnrequests p) (ip_pset p)
    (ip_seqno p) (ip_msgcount p) (ip_qlimit p) (ip_blocked p) (ip_messages p) (ip_kotype p)
    (ip_subsystem p) x.

(** Ports are equal when their fields are. *)
Lemma port_ext p q :
  ip_references p = ip_references q → ip_active p = ip_active q → ip_locked p = ip_locked q →
  ip_receiver_name p = ip_receiver_name q → ip_data p = ip_data q → ip_mscount p = ip_mscount
  q → ip_srights p = ip_srights q → ip_sorights p = ip_sorights q → ip_nsrequest p =
  ip_nsrequest q → ip_pdrequest p = ip_pdrequest q → ip_dnrequests p = ip_dnrequests q →
  ip_pset p = ip_pset q → ip_seqno p = ip_seqno q → ip_msgcount p = ip_msgcount q → ip_qlimit
  p = ip_qlimit q → ip_blocked p = ip_blocked q → ip_messages p = ip_messages q → ip_kotype p
  = ip_kotype q → ip_subsystem p = ip_subsystem q → ip_waiting p = ip_waiting q → p = q.
Proof. destruct p, q. simpl. by intros; subst. Qed.

Abbreviation ip_receiver := ip_data (only parsing).
Abbreviation ip_destination := ip_data (only parsing).
Abbreviation ip_timestamp := ip_data (only parsing).
Abbreviation IP_NULL := IO_NULL (only parsing).
Abbreviation IP_DEAD := IO_DEAD (only parsing).
Abbreviation IP_VALID := IO_VALID (only parsing).

Definition MACH_PORT_QLIMIT_DEFAULT : Z := 5.

(** Port sets (ipc/ipc_pset.h). *)
Record ipc_pset := IPS {
  ips_references : Z;
  ips_active : bool;
  ips_locked : bool;
  ips_local_name : Z;
  ips_messages : ipc_mqueue;
}.

Definition set_ips_references (s : ipc_pset) (x : Z) : ipc_pset :=
  IPS x (ips_active s) (ips_locked s) (ips_local_name s) (ips_messages s).
Definition set_ips_active (s : ipc_pset) (x : bool) : ipc_pset :=
  IPS (ips_references s) x (ips_locked s) (ips_local_name s) (ips_messages s).
Definition set_ips_locked (s : ipc_pset) (x : bool) : ipc_pset :=
  IPS (ips_references s) (ips_active s) x (ips_local_name s) (ips_messages s).
Definition set_ips_local_name (s : ipc_pset) (x : Z) : ipc_pset :=
  IPS (ips_references s) (ips_active s) (ips_locked s) x (ips_messages s).
Definition set_ips_messages (s : ipc_pset) (x : ipc_mqueue) : ipc_pset :=
  IPS (ips_references s) (ips_active s) (ips_locked s) (ips_local_name s) x.

Abbreviation IPS_NULL := IO_NULL (only parsing).

(** Calls that leave the component: notifications (to the port that is the
    first argument, whose right the call consumes), messages, kernel objects
    and memory that are destroyed. *)
Inductive notification :=
  | ipc_notify_no_senders (port mscount : Z)
  | ipc_notify_dead_name (port name : Z)
  | ipc_notify_port_deleted (port name : Z)
  | ipc_notify_send_once (port : Z)
  | ipc_notify_port_destroyed (port right : Z)
  | ipc_kmsg_destroy (kmsg : ipc_kmsg)
  | ipc_kobject_destroy (port : Z)
  | ipc_kobject_server (kmsg : ipc_kmsg)
  | subsystem_deallocate (subsystem : Z)
  | subsystem_reference (subsystem : Z)
  | thread_wakeup (pool : Z)
  | kfree (address size : Z)
  | vm_map_copy_discard (copy : Z)
  | vm_deallocate (address size : Z).

#[export] Instance notification_eq_dec : EqDecision notification.
Proof. solve_decision. Defined.

(** mach/message.h *)
Inductive mach_msg_return :=
  | MACH_MSG_SUCCESS
  | MACH_SEND_IN_PROGRESS
  | MACH_SEND_TIMED_OUT
  | MACH_SEND_INTERRUPTED
  | MACH_RCV_IN_PROGRESS
  | MACH_RCV_IN_PROGRESS_TIMED
  | MACH_RCV_INVALID_NAME
  | MACH_RCV_TIMED_OUT
  | MACH_RCV_TOO_LARGE
  | MACH_RCV_INTERRUPTED
  | MACH_RCV_PORT_CHANGED
  | MACH_RCV_PORT_DIED
  | MACH_RCV_IN_SET
  | MACH_RCV_INVALID_TYPE
  | MACH_RCV_SCATTER_SMALL
  | MACH_SEND_INVALID_HEADER
  | MACH_SEND_INVALID_DEST
  | MACH_SEND_INVALID_REPLY
  | MACH_SEND_INVALID_NOTIFY
  | MACH_RCV_INVALID_NOTIFY
  | MACH_RCV_HEADER_ERROR (detail : Z)
  | MACH_MSG_IPC_ERROR (detail : Z).

#[export] Instance mach_msg_return_eq_dec : EqDecision mach_msg_return.
Proof. solve_decision. Defined.

(** A thread made runnable, with its [ith_state] and, if it was handed a
    message, its [ith_kmsg] and [ith_seqno]. *)
Record wakeup := WK {
  wk_thread : Z;
  wk_state : mach_msg_return;
  wk_message : option (ipc_kmsg * Z);
}.

#[export] Instance wakeup_eq_dec : EqDecision wakeup.
Proof. solve_decision. Defined.

Record pstate := PST {
  ps_ports : gmap Z ipc_port;
  ps_psets : gmap Z ipc_pset;
  ps_timestamp : Z;             (** [ipc_port_timestamp_data] *)
  ps_multiple : bool;           (** [ipc_port_multiple_lock] is held *)
  ps_notes : list notification; (** calls so far, latest first *)
  ps_woken : list wakeup;       (** threads given to [thread_go], latest first *)
  ps_clock : nat;
}.

Definition with_ports (st : pstate) (f : gmap Z ipc_port → gmap Z ipc_port) : pstate :=
  PST (f (ps_ports st)) (ps_psets st) (ps_timestamp st) (ps_multiple st) (ps_notes st)
    (ps_woken st) (ps_clock st).
Definition with_psets (st : pstate) (f : gmap Z ipc_pset → gmap Z ipc_pset) : pstate :=
  PST (ps_ports st) (f (ps_psets st)) (ps_timestamp st) (ps_multiple st) (ps_notes st)
    (ps_woken st) (ps_clock st).
Definition set_timestamp (st : pstate) (t : Z) : pstate :=
  PST (ps_ports st) (ps_psets st) t (ps_multiple st) (ps_notes st) (ps_woken st) (ps_clock st).
Definition set_multiple (st : pstate) (b : bool) : pstate :=
  PST (ps_ports st) (ps_psets st) (ps_timestamp st) b (ps_notes st) (ps_woken st) (ps_clock st).
Definition notify (st : pstate) (n : notification) : pstate :=
  PST (ps_ports st) (ps_psets st) (ps_timestamp st) (ps_multiple st) (n :: ps_notes st)
    (ps_woken st) (ps_clock st).
Definition thread_go (st : pstate) (w : wakeup) : pstate :=
  PST (ps_ports st) (ps_psets st) (ps_timestamp st) (ps_multiple st) (ps_notes st)
    (w :: ps_woken st) (ps_clock st).
Definition ptick (st : pstate) : pstate :=
  PST (ps_ports st) (ps_psets st) (ps_timestamp st) (ps_multiple st) (ps_notes st)
    (ps_woken st) (S (ps_clock st)).

(** What is outside: memory, whether a try-lock succeeds, and what other
    threads have done when a lock is granted. *)
Class pworld := {
  pw_alloc : nat → pstate → option Z;
  pw_try : nat → pstate → bool;
  pw_other : nat → pstate → pstate;
}.

Definition pget (st : pstate) (p : Z) : outcome ipc_port := deref (ps_ports st !! p).

(** [*port = f( *port)] *)
Definition pmod (st : pstate) (p : Z) (f : ipc_port → ipc_port) : outcome pstate :=
  port ← pget st p;
  Ok (with_ports st (<[p := f port]>)).

Section port.
Context {W : pworld}.

(** ** Locks and references (ipc/ipc_object.h) *)

Definition ip_lock (st : pstate) (p : Z) : outcome pstate :=
  port ← pget st p;
  if ip_locked port then Fault FLock
  else pmod (ptick (pw_other (ps_clock st) st)) p (λ port, set_ip_locked port true).

Definition ip_lock_try (st : pstate) (p : Z) : outcome (pstate * bool) :=
  port ← pget st p;
  if negb (ip_locked port) && pw_try (ps_clock st) st then
    st ← ip_lock st p; Ok (st, true)
  else Ok (ptick st, false).

Definition ip_unlock (st : pstate) (p : Z) : outcome pstate :=
  port ← pget st p;
  if ip_locked port then pmod st p (λ port, set_ip_locked port false) else Fault FLock.

(** [io_check_unlock]: the port is freed with its last reference. *)
Definition ip_check_unlock (st : pstate) (p : Z) : outcome pstate :=
  port ← pget st p;
  let refs := ip_references port in
  st ← ip_unlock st p;
  if refs =? 0 then Ok (with_ports st (delete p)) else Ok st.

Definition IO_MAX_REFERENCES : Z := 2 ^ 31 - 1.

Definition ip_reference (st : pstate) (p : Z) : outcome pstate :=
  port ← pget st p;
  kassert (ip_references port <? IO_MAX_REFERENCES);;
  pmod st p (λ port, set_ip_references port (ip_references port + 1)).

Definition ip_release (st : pstate) (p : Z) : outcome pstate :=
  port ← pget st p;
  kassert ((0 <? ip_references port) && (ip_references port <=? IO_MAX_REFERENCES));;
  pmod st p (λ port, set_ip_references port (ip_references port - 1)).

(** [ipc_object_reference], [ipc_object_release] *)
Definition ipc_port_reference (st : pstate) (p : Z) : outcome pstate :=
  st ← ip_lock st p;
  st ← ip_reference st p;
  ip_unlock st p.

Definition ipc_port_release (st : pstate) (p : Z) : outcome pstate :=
  st ← ip_lock st p;
  st ← ip_release st p;
  ip_check_unlock st p.

(** ** Timestamps *)

Definition ipc_port_timestamp (st : pstate) : pstate * Z :=
  (set_timestamp st (u32 (ps_timestamp st + 1)), ps_timestamp st).

(** [(int) ((one) - (two)) < 0] *)
Definition IP_TIMESTAMP_ORDER (one two : Z) : bool := 2 ^ 31 <=? u32 (one - two).

(** ** Dead-name requests *)

Definition ipc_port_dnrequest (st : pstate) (p name soright : Z) :
    outcome (pstate * (kern_return * option Z)) :=
  port ← pget st p;
  kassert (ip_active port);;
  kassert (negb (name =? MACH_PORT_NULL));;
  kassert (negb (soright =? IP_NULL));;
  match ip_dnrequests port with
  | None => Ok (st, (KERN_NO_SPACE, None))
  | Some (DN addr table) =>
    head ← deref (tget table 0);
    let index := ipr_next head in
    if index =? 0 then Ok (st, (KERN_NO_SPACE, None))
    else
      ipr ← deref (tget table index);
      kassert (ipr_name ipr =? MACH_PORT_NULL);;
      let table := tmod table 0 (λ r, set_ipr_next r (ipr_next ipr)) in
      let table := tmod table index (λ _, IPR soright name) in
      st ← pmod st p (λ port, set_ip_dnrequests port (Some (DN addr table)));
      Ok (st, (KERN_SUCCESS, Some index))
  end.

(** [while ((its->its_size) && (its->its_size < target_size)) its++] *)
Fixpoint dn_target_loop (fuel : nat) (target : Z) (its : nat) : outcome nat :=
  match fuel with
  | O => Fault FLoop
  | S fuel' =>
    size ← dn_its_size its;
    if negb (size =? 0) && (size <? target) then dn_target_loop fuel' target (S its)
    else Ok its
  end.

(** The new table: the old one's elements from 1 on, and the elements
    [osize .. nsize - 1] pushed on its free list. *)
Definition dn_new_table (otable : option dntable) (its : nat) (osize nsize free : Z) :
    list ipc_port_request :=
  let ntable := IPR 0 0 ::
    take (Z.to_nat (osize - 1)) (drop 1 (default [] (dn_table <$> otable))) ++
    replicate (Z.to_nat (nsize - osize)) (IPR 0 0) in
  let '(ntable, free) :=
    foldl (λ '(t, free) i, (tmod t i (λ _, IPR free MACH_PORT_NULL), i))
      (ntable, free) (seqZ osize (nsize - osize)) in
  tmod ntable 0 (λ _, IPR free (Z.of_nat its)).

(** What is done when the port is locked again. *)
Definition dn_install (st : pstate) (p : Z) (otable : option dntable) (its : nat) (addr : Z) :
    outcome pstate :=
  port ← pget st p;
  unchanged ←
    (if ip_active port && bool_decide (dn_addr <$> ip_dnrequests port = dn_addr <$> otable) then
       match ip_dnrequests port with
       | None => Ok true
       | Some cur => oits ← ipr_size (dn_table cur); Ok (S oits =? its)%nat
       end
     else Ok false);
  if unchanged : bool
  then
    '(osize, free) ←
      match ip_dnrequests port with
      | Some cur =>
        oits ← ipr_size (dn_table cur);
        osize ← dn_its_size oits;
        head ← deref (tget (dn_table cur) 0);
        Ok (osize, ipr_next head)
      | None => Ok (1, 0)
      end;
    nsize ← dn_its_size its;
    kassert (osize <? nsize);;
    let ntable := dn_new_table (ip_dnrequests port) its osize nsize free in
    st ← pmod st p (λ port, set_ip_dnrequests port (Some (DN addr ntable)));
    ip_unlock st p
  else ip_check_unlock st p.

Definition ipc_port_dngrow (st : pstate) (p target_size : Z) : outcome (pstate * kern_return) :=
  port ← pget st p;
  kassert (ip_active port);;
  let otable := ip_dnrequests port in
  its ← match otable with
        | None => Ok 0%nat
        | Some t => oits ← ipr_size (dn_table t); Ok (S oits)
        end;
  enough ← (if negb (target_size =? ITS_SIZE_NONE) then
              match otable with
              | None => Ok false
              | Some t => oits ← ipr_size (dn_table t); size ← dn_its_size oits;
                  Ok (target_size <=? size)
              end
            else Ok false);
  if enough : bool
  then
    st ← ip_unlock st p;
    Ok (st, KERN_SUCCESS)
  else
  its ← (if negb (target_size =? ITS_SIZE_NONE)
         then dn_target_loop (S ipc_table_dnrequests_size) target_size its
         else Ok its);
  size ← dn_its_size its;
  if negb (target_size =? ITS_SIZE_NONE) && (size =? 0) then
    st ← ip_unlock st p;
    Ok (st, KERN_NO_SPACE)
  else
  st ← ip_reference st p;
  st ← ip_unlock st p;
  let '(st, ntable) :=
    if size =? 0 then (st, None) else (ptick st, pw_alloc (ps_clock st) st) in
  match ntable with
  | None =>
    st ← ipc_port_release st p;
    Ok (st, KERN_RESOURCE_SHORTAGE)
  | Some addr =>
    st ← ip_lock st p;
    st ← ip_release st p;
    st ← dn_install st p otable its addr;
    Ok (st, KERN_SUCCESS)
  end.

Definition ipc_port_dncancel (st : pstate) (p name index : Z) : outcome (pstate * Z) :=
  port ← pget st p;
  kassert (ip_active port);;
  kassert (negb (name =? MACH_PORT_NULL));;
  kassert (negb (index =? 0));;
  '(DN addr table) ← deref (ip_dnrequests port);
  ipr ← deref (tget table index);
  let dnrequest := ipr_soright ipr in
  kassert (ipr_name ipr =? name);;
  head ← deref (tget table 0);
  let table := tmod table index (λ _, IPR (ipr_next head) MACH_PORT_NULL) in
  let table := tmod table 0 (λ r, set_ipr_next r index) in
  st ← pmod st p (λ port, set_ip_dnrequests port (Some (DN addr table)));
  Ok (st, dnrequest).

Definition ipc_port_dnrename (st : pstate) (p index oname nname : Z) : outcome pstate :=
  port ← pget st p;
  kassert (ip_active port);;
  '(DN addr table) ← deref (ip_dnrequests port);
  ipr ← deref (tget table index);
  kassert (ipr_name ipr =? oname);;
  pmod st p (λ port, set_ip_dnrequests port
    (Some (DN addr (tmod table index (λ r, set_ipr_name r nname))))).

(** [dnrequests] has been taken from the port. *)
Definition ipc_port_dnnotify (st : pstate) (dnrequests : list ipc_port_request) : outcome pstate :=
  its ← ipr_size dnrequests;
  size ← dn_its_size its;
  ofold (λ st index,
      ipr ← deref (tget dnrequests index);
      if ipr_name ipr =? MACH_PORT_NULL then Ok st
      else
        kassert (negb (ipr_soright ipr =? IP_NULL));;
        Ok (notify st (ipc_notify_dead_name (ipr_soright ipr) (ipr_name ipr))))
    st (seqZ 1 (size - 1)).

(** ** Port-destroyed and no-senders requests *)

Definition ipc_port_pdrequest (st : pstate) (p notify : Z) : outcome (pstate * Z) :=
  port ← pget st p;
  kassert (ip_active port);;
  let previous := ip_pdrequest port in
  st ← pmod st p (λ port, set_ip_pdrequest port notify);
  st ← ip_unlock st p;
  Ok (st, previous).

Definition ipc_port_nsrequest (st : pstate) (p sync nreq : Z) : outcome (pstate * Z) :=
  port ← pget st p;
  kassert (ip_active port);;
  let previous := ip_nsrequest port in
  let mscount := ip_mscount port in
  st ← (if (ip_srights port =? 0) && (sync <=? mscount) && negb (nreq =? IP_NULL) then
          st ← pmod st p (λ port, set_ip_nsrequest port IP_NULL);
          st ← ip_unlock st p;
          Ok (notify st (ipc_notify_no_senders nreq mscount))
        else
          st ← pmod st p (λ port, set_ip_nsrequest port nreq);
          ip_unlock st p);
  Ok (st, previous).

(** ** The queue limit *)

(** Up to [wakeup] blocked senders are dequeued. *)
Fixpoint qlimit_wakeup (wakeup : nat) (st : pstate) (blocked : list Z) : pstate * list Z :=
  match wakeup, blocked with
  | S n, th :: blocked' => qlimit_wakeup n (thread_go st (WK th MACH_MSG_SUCCESS None)) blocked'
  | _, _ => (st, blocked)
  end.

Definition ipc_port_set_qlimit (st : pstate) (p qlimit : Z) : outcome pstate :=
  port ← pget st p;
  kassert (ip_active port);;
  let '(st, blocked) :=
    if ip_qlimit port <? qlimit
    then qlimit_wakeup (Z.to_nat (qlimit - ip_qlimit port)) st (ip_blocked port)
    else (st, ip_blocked port) in
  pmod st p (λ port, set_ip_qlimit (set_ip_blocked port blocked) qlimit).

(** ** Initialization *)

(** [bzero] *)
Definition ip_zero : ipc_port :=
  IP 0 false false 0 0 0 0 0 0 0 None 0 0 0 0 [] ipc_mqueue_init 0 0 0.

(** The reference count, the lock and the bits of the object are not touched. *)
Definition ipc_port_init (st : pstate) (p space name : Z) : outcome pstate :=
  pmod st p (λ port,
    IP (ip_references port) (ip_active port) (ip_locked port) name space 0 0 0
      IP_NULL IP_NULL None IPS_NULL 0 0 MACH_PORT_QLIMIT_DEFAULT [] ipc_mqueue_init
      (ip_kotype port) 0 (ip_waiting port)).

Definition ipc_port_alloc_special (st : pstate) (space : Z) : outcome (pstate * Z) :=
  match pw_alloc (ps_clock st) st with
  | None => Ok (ptick st, IP_NULL)
  | Some p =>
    let st := with_ports (ptick st) (<[p := set_ip_references (set_ip_active ip_zero true) 1]>) in
    st ← ipc_port_init st p space 1;
    Ok (st, p)
  end.

(** ** Naked send and send-once rights *)

Definition ipc_port_make_send (st : pstate) (p : Z) : outcome pstate :=
  kassert (IP_VALID p);;
  st ← ip_lock st p;
  port ← pget st p;
  kassert (ip_active port);;
  st ← pmod st p (λ port, set_ip_mscount port (u32 (ip_mscount port + 1)));
  st ← pmod st p (λ port, set_ip_srights port (u32 (ip_srights port + 1)));
  st ← ip_reference st p;
  ip_unlock st p.

Definition ipc_port_copy_send (st : pstate) (p : Z) : outcome (pstate * Z) :=
  if negb (IP_VALID p) then Ok (st, p)
  else
    st ← ip_lock st p;
    port ← pget st p;
    '(st, sright) ←
      (if ip_active port then
         kassert (0 <? ip_srights port);;
         st ← ip_reference st p;
         st ← pmod st p (λ port, set_ip_srights port (u32 (ip_srights port + 1)));
         Ok (st, p)
       else Ok (st, IP_DEAD));
    st ← ip_unlock st p;
    Ok (st, sright).

Definition ipc_port_release_send (st : pstate) (p : Z) : outcome pstate :=
  kassert (IP_VALID p);;
  st ← ip_lock st p;
  st ← ip_release st p;
  port ← pget st p;
  if negb (ip_active port) then ip_check_unlock st p
  else
    kassert (0 <? ip_srights port);;
    let srights := ip_srights port - 1 in
    st ← pmod st p (λ port, set_ip_srights port srights);
    if (srights =? 0) && negb (ip_nsrequest port =? IP_NULL) then
      st ← pmod st p (λ port, set_ip_nsrequest port IP_NULL);
      st ← ip_unlock st p;
      Ok (notify st (ipc_notify_no_senders (ip_nsrequest port) (ip_mscount port)))
    else ip_unlock st p.

Definition ipc_port_make_sonce (st : pstate) (p : Z) : outcome pstate :=
  kassert (IP_VALID p);;
  st ← ip_lock st p;
  port ← pget st p;
  kassert (ip_active port);;
  st ← pmod st p (λ port, set_ip_sorights port (u32 (ip_sorights port + 1)));
  st ← ip_reference st p;
  ip_unlock st p.

Definition ipc_port_release_sonce (st : pstate) (p : Z) : outcome pstate :=
  kassert (IP_VALID p);;
  st ← ip_lock st p;
  port ← pget st p;
  kassert (0 <? ip_sorights port);;
  st ← pmod st p (λ port, set_ip_sorights port (ip_sorights port - 1));
  st ← ip_release st p;
  if negb (ip_active port) then ip_check_unlock st p else ip_unlock st p.

(** ** ipc_port_check_circularity *)

Definition in_transit (port : ipc_port) : bool :=
  ip_active port && (ip_receiver_name port =? MACH_PORT_NULL) &&
  negb (ip_destination port =? IP_NULL).

(** Lock the chain from [base] to its end, the port not in transit. *)
Fixpoint chain_lock (fuel : nat) (st : pstate) (base : Z) : outcome (pstate * Z) :=
  match fuel with
  | O => Fault FLoop
  | S fuel' =>
    st ← ip_lock st base;
    port ← pget st base;
    if negb (in_transit port) then Ok (st, base)
    else chain_lock fuel' st (ip_destination port)
  end.

(** [while (dest != IP_NULL)]: unlock the ports of a circle. *)
Fixpoint circle_unlock (fuel : nat) (st : pstate) (dest : Z) : outcome pstate :=
  match fuel with
  | O => Fault FLoop
  | S fuel' =>
    if dest =? IP_NULL then Ok st
    else
      port ← pget st dest;
      kassert (ip_active port);;
      kassert (ip_receiver_name port =? MACH_PORT_NULL);;
      st ← ip_unlock st dest;
      circle_unlock fuel' st (ip_destination port)
  end.

(** [while (port != base)] *)
Fixpoint chain_unlock (fuel : nat) (st : pstate) (p base : Z) : outcome pstate :=
  match fuel with
  | O => Fault FLoop
  | S fuel' =>
    if p =? base then Ok st
    else
      port ← pget st p;
      kassert (ip_active port);;
      kassert (ip_receiver_name port =? MACH_PORT_NULL);;
      kassert (negb (ip_destination port =? IP_NULL));;
      st ← ip_unlock st p;
      chain_unlock fuel' st (ip_destination port) base
  end.

(** [port] is active and in limbo. *)
Definition assert_limbo (port : ipc_port) : outcome unit :=
  kassert (ip_active port);;
  kassert (ip_receiver_name port =? MACH_PORT_NULL);;
  kassert (ip_destination port =? IP_NULL).

(** The label [not_circular]: the chain and [p] are locked. *)
Definition not_circular (st : pstate) (p dest base : Z) : outcome (pstate * bool) :=
  port ← pget st p;
  assert_limbo port;;
  st ← ip_reference st dest;
  st ← pmod st p (λ port, set_ip_data port dest);
  st ← chain_unlock (S (size (ps_ports st))) st p base;
  port ← pget st base;
  kassert (negb (in_transit port));;
  st ← ip_unlock st base;
  Ok (st, false).

Definition ipc_port_check_circularity (st : pstate) (p dest : Z) : outcome (pstate * bool) :=
  kassert (negb (p =? IP_NULL));;
  kassert (negb (dest =? IP_NULL));;
  if p =? dest then Ok (st, true)
  else
  st ← ip_lock st p;
  '(st, got) ← ip_lock_try st dest;
  '(st, quick) ←
    (if got : bool then
       port ← pget st dest;
       if negb (in_transit port) then Ok (st, true)
       else st ← ip_unlock st dest; Ok (st, false)
     else Ok (st, false));
  if quick : bool then not_circular st p dest dest
  else
  st ← ip_unlock st p;
  let st := set_multiple st true in
  '(st, base) ← chain_lock (S (size (ps_ports st))) st dest;
  if p =? base then
    let st := set_multiple st false in
    port ← pget st p;
    assert_limbo port;;
    st ← circle_unlock (S (S (size (ps_ports st)))) st dest;
    Ok (st, true)
  else
    st ← ip_lock st p;
    let st := set_multiple st false in
    not_circular st p dest base.
End port.
