(* ===== verification/IpcDnreq.v ===== *)
(** * Dead-name requests of a port (ipc/ipc_port.c)

    A port's table of dead-name requests is a finite map from indices to
    pairs of a name and a send-once right, with a free list threaded through
    the unused elements. *)

From stdpp Require Import prelude list gmap.
From S2P Require Import Prelude MachPort IpcTypes IpcTable IpcPort.

(** ** The table *)

Definition rnext (t : list ipc_port_request) (i : Z) : Z := default 0 (ipr_notify <$> tget t i).
Definition rname (t : list ipc_port_request) (i : Z) : Z := default 0 (ipr_word <$> tget t i).

(** The requests: name and send-once right, by index. *)
Definition dn_view (t : list ipc_port_request) (i : Z) : option (Z * Z) :=
  if (0 <? i) && negb (rname t i =? MACH_PORT_NULL) then Some (rname t i, rnext t i) else None.

Record dn_wf (t : list ipc_port_request) : Prop := {
  dw_size : ∃ its, ipr_size t = Ok its ∧ ipc_table_dnrequests !! its = Some (tsize t) ∧ 2 ≤ tsize t;
  dw_free : ∃ fl, threaded (rnext t) 0 fl ∧ NoDup fl ∧
    ∀ i, i ∈ fl ↔ 0 < i < tsize t ∧ rname t i = MACH_PORT_NULL;
  dw_soright i : 0 < i → rname t i ≠ MACH_PORT_NULL → rnext t i ≠ IP_NULL;
}.

Lemma rnext_get t i r : tget t i = Some r → ipr_notify r = rnext t i.
Proof. unfold rnext. by intros ->. Qed.
Lemma rname_get t i r : tget t i = Some r → ipr_word r = rname t i.
Proof. unfold rname. by intros ->. Qed.

Lemma rnext_tmod t i f j :
  0 ≤ i < tsize t → rnext (tmod t i f) j =
    if decide (i = j) then default 0 (ipr_notify ∘ f <$> tget t i) else rnext t j.
Proof.
  intros (r & Hr)%tget_is_Some. unfold rnext. rewrite tget_tmod. case_decide; [|done].
  subst. by rewrite Hr.
Qed.
Lemma rname_tmod t i f j :
  0 ≤ i < tsize t → rname (tmod t i f) j =
    if decide (i = j) then default 0 (ipr_word ∘ f <$> tget t i) else rname t j.
Proof.
  intros (r & Hr)%tget_is_Some. unfold rname. rewrite tget_tmod. case_decide; [|done].
  subst. by rewrite Hr.
Qed.

(** A request outside of the free list. *)
Lemma dn_view_Some t i name so :
  dn_view t i = Some (name, so) ↔ 0 < i ∧ rname t i = name ∧ rnext t i = so ∧ name ≠ MACH_PORT_NULL.
Proof.
  unfold dn_view. destruct (Z.ltb_spec 0 i), (Z.eqb_spec (rname t i) MACH_PORT_NULL); simpl.
  - split; [done|]. intros (_ & <- & _ & ?). done.
  - split; [by intros [= <- <-]|]. by intros (_ & -> & -> & _).
  - split; [done|lia].
  - split; [done|lia].
Qed.

(** The table after two updates, of element 0's link and of element [i]. *)
Definition relinked (t t' : list ipc_port_request) (i next name so : Z) : Prop :=
  tsize t' = tsize t ∧ rname t' 0 = rname t 0 ∧ rnext t' 0 = next ∧
  rname t' i = name ∧ rnext t' i = so ∧
  (∀ j, j ≠ 0 → j ≠ i → rname t' j = rname t j ∧ rnext t' j = rnext t j).

Lemma relinked_request t i next name so :
  0 < i < tsize t →
  relinked t (tmod (tmod t 0 (λ r, set_ipr_next r next)) i (λ _, IPR so name)) i next name so.
Proof.
  intros Hi. destruct (tget_is_Some t 0) as (h & Hh); [lia|].
  destruct (tget_is_Some t i) as (r & Hr); [lia|].
  assert (0 ≤ i < tsize (tmod t 0 (λ r, set_ipr_next r next))) by (rewrite tsize_tmod; lia).
  split_and!; rewrite ?tsize_tmod; try done.
  - rewrite rname_tmod, decide_False, rname_tmod, decide_True, Hh by lia. simpl.
    by rewrite (rname_get _ _ _ Hh).
  - rewrite rnext_tmod, decide_False, rnext_tmod, decide_True, Hh by lia. done.
  - rewrite rname_tmod, decide_True by lia. by rewrite tget_tmod_ne, Hr by lia.
  - rewrite rnext_tmod, decide_True by lia. by rewrite tget_tmod_ne, Hr by lia.
  - intros j Hj Hji. rewrite rname_tmod, rnext_tmod, !decide_False by lia.
    by rewrite rname_tmod, rnext_tmod, !decide_False by lia.
Qed.

Lemma relinked_cancel t i next name so :
  0 < i < tsize t →
  relinked t (tmod (tmod t i (λ _, IPR so name)) 0 (λ r, set_ipr_next r next)) i next name so.
Proof.
  intros Hi. destruct (tget_is_Some t 0) as (h & Hh); [lia|].
  destruct (tget_is_Some t i) as (r & Hr); [lia|].
  assert (0 ≤ 0 < tsize (tmod t i (λ _, IPR so name))) by (rewrite tsize_tmod; lia).
  split_and!; rewrite ?tsize_tmod; try done.
  - rewrite rname_tmod, decide_True, tget_tmod_ne, Hh by lia. simpl. by rewrite (rname_get _ _ _ Hh).
  - rewrite rnext_tmod, decide_True, tget_tmod_ne, Hh by lia. done.
  - rewrite rname_tmod, decide_False, rname_tmod, decide_True, Hr by lia. done.
  - rewrite rnext_tmod, decide_False, rnext_tmod, decide_True, Hr by lia. done.
  - intros j Hj Hji. rewrite rname_tmod, rnext_tmod, !decide_False by lia.
    by rewrite rname_tmod, rnext_tmod, !decide_False by lia.
Qed.

Lemma relinked_view t t' i next name so j :
  0 < i → relinked t t' i next name so →
  dn_view t' j = if decide (j = i) then
    (if name =? MACH_PORT_NULL then None else Some (name, so)) else dn_view t j.
Proof.
  intros Hi (_ & _ & _ & Hn & Hs & Hj). unfold dn_view. case_decide as Hd.
  - subst. rewrite (proj2 (Z.ltb_lt 0 i)) by lia. simpl. by destruct (_ =? MACH_PORT_NULL).
  - destruct (Z.ltb_spec 0 j); simpl; [|done].
    destruct (Hj j) as [-> ->]; [lia|done|]. done.
Qed.

Lemma relinked_size t t' i next name so :
  0 < i → relinked t t' i next name so → 0 < tsize t → ipr_size t' = ipr_size t.
Proof.
  intros Hi (Hz & Hn & _) Hpos. unfold ipr_size.
  destruct (tget_is_Some t 0) as (h & Hh); [lia|].
  destruct (tget_is_Some t' 0) as (h' & Hh'); [lia|]. rewrite Hh, Hh'. ostep.
  by rewrite (rname_get _ _ _ Hh), (rname_get _ _ _ Hh'), Hn.
Qed.

(** Taking the first free element. *)
Lemma request_wf t fl i t' name so :
  dn_wf t → threaded (rnext t) 0 (i :: fl) → NoDup (i :: fl) →
  (∀ j, j ∈ i :: fl ↔ 0 < j < tsize t ∧ rname t j = MACH_PORT_NULL) →
  relinked t t' i (rnext t i) name so → name ≠ MACH_PORT_NULL → so ≠ IP_NULL → dn_wf t'.
Proof.
  intros Hw Hl Hnd Hfl Hr Hname Hso. destruct Hl as (_ & Hi0 & Hl).
  assert (0 < i < tsize t) as Hi by (apply Hfl; by left).
  pose proof Hr as (Hz & _ & H0 & Hn & Hs & Hj). apply NoDup_cons in Hnd as [Hni Hnd].
  assert (0 ∉ fl) as H0fl by (by eapply threaded_not_0).
  split.
  - destruct (dw_size _ Hw) as (its & H1 & H2 & H3). exists its.
    rewrite (relinked_size _ _ _ _ _ _ (proj1 Hi) Hr) by lia. by rewrite Hz.
  - exists fl. split_and!; [|done|].
    + apply threaded_from_next. rewrite H0. apply threaded_from_next in Hl.
      eapply threaded_from_ext; [done|]. intros j Hjin. apply Hj; by intros ->.
    + intros j. rewrite Hz. destruct (decide (j = i)) as [->|Hne]; [rewrite Hn; tauto|].
      transitivity (j ∈ i :: fl); [rewrite elem_of_cons; tauto|]. rewrite Hfl.
      destruct (decide (j = 0)) as [->|]; [lia|]. by destruct (Hj j) as [-> _].
  - intros j Hpos. destruct (decide (j = i)) as [->|Hne]; [by rewrite Hs|].
    destruct (Hj j) as [-> ->]; [lia|done|]. by apply Hw.
Qed.

(** Giving an element back. *)
Lemma cancel_wf t i t' :
  dn_wf t → 0 < i < tsize t → rname t i ≠ MACH_PORT_NULL →
  relinked t t' i i MACH_PORT_NULL (rnext t 0) → dn_wf t'.
Proof.
  intros Hw Hi Hname Hr. pose proof Hr as (Hz & _ & H0 & Hn & Hs & Hj).
  destruct (dw_free _ Hw) as (fl & Hl & Hnd & Hfl).
  assert (i ∉ fl) as Hni by (rewrite Hfl; tauto).
  split.
  - destruct (dw_size _ Hw) as (its & H1 & H2 & H3). exists its.
    rewrite (relinked_size _ _ _ _ _ _ (proj1 Hi) Hr) by lia. by rewrite Hz.
  - exists (i :: fl). split_and!; [|by constructor|].
    + split_and!; [done|lia|]. apply threaded_from_next. rewrite Hs. apply threaded_from_next in Hl.
      eapply threaded_from_ext; [done|]. intros j Hjin. apply Hj; [|by intros ->].
      apply Hfl in Hjin. lia.
    + intros j. rewrite Hz, elem_of_cons. destruct (decide (j = i)) as [->|Hne]; [rewrite Hn; tauto|].
      transitivity (j ∈ fl); [tauto|]. rewrite Hfl.
      destruct (decide (j = 0)) as [->|]; [lia|]. by destruct (Hj j) as [-> _].
  - intros j Hpos. destruct (decide (j = i)) as [->|Hne]; [by rewrite Hn|].
    destruct (Hj j) as [-> ->]; [lia|done|]. by apply Hw.
Qed.

(** ** The grown table *)

Lemma fill_spec t f a (k : nat) :
  0 ≤ a → a + Z.of_nat k ≤ tsize t →
  ∃ t', foldl (λ '(t, free) i, (tmod t i (λ _, IPR free MACH_PORT_NULL), i)) (t, f) (seqZ a (Z.of_nat k)) =
      (t', if decide (k = 0%nat) then f else a + Z.of_nat k - 1) ∧ tsize t' = tsize t ∧
    ∀ j, tget t' j = if decide (a ≤ j < a + Z.of_nat k)
      then Some (IPR (if decide (j = a) then f else j - 1) MACH_PORT_NULL) else tget t j.
Proof.
  intros Ha. induction k as [|k IH]; intros Hk.
  - exists t. split_and!; [done..|]. intros j. by rewrite decide_False by lia.
  - destruct IH as (t1 & Hf & Hz & Hget); [lia|]. rewrite seqZ_S, foldl_app, Hf. cbn [foldl].
    eexists. split; [rewrite (decide_False (P := S k = 0%nat)) by lia; f_equal; lia|].
    split; [by rewrite tsize_tmod|]. intros j. rewrite tget_tmod.
    destruct (decide (a + Z.of_nat k = j)) as [<-|Hne].
    + destruct (tget_is_Some t1 (a + Z.of_nat k)) as (r & ->); [lia|]. simpl.
      rewrite (decide_True (P := a ≤ _ < _)) by lia. do 2 f_equal.
      destruct (decide (k = 0%nat)), (decide (a + Z.of_nat k = a)); (done || lia).
    + rewrite Hget. destruct (decide (a ≤ j < a + Z.of_nat k)).
      * by rewrite (decide_True (P := a ≤ j < _)) by lia.
      * by rewrite (decide_False (P := a ≤ j < _)) by lia.
Qed.

Lemma new_table_spec otable its osize nsize free :
  1 ≤ osize < nsize → osize = tsize (default [IPR 0 0] (dn_table <$> otable)) →
  let nt := dn_new_table otable its osize nsize free in
  tsize nt = nsize ∧ tget nt 0 = Some (IPR (nsize - 1) (Z.of_nat its)) ∧
  (∀ j, 0 < j < osize → tget nt j = tget (default [IPR 0 0] (dn_table <$> otable)) j) ∧
  (∀ j, osize ≤ j < nsize → tget nt j = Some (IPR (if decide (j = osize) then free else j - 1) MACH_PORT_NULL)).
Proof.
  intros Hn Ho. unfold dn_new_table.
  set (old := take (Z.to_nat (osize - 1)) (drop 1 (default [] (dn_table <$> otable)))).
  set (t0 := IPR 0 0 :: old ++ replicate (Z.to_nat (nsize - osize)) (IPR 0 0)).
  assert (Z.of_nat (length old) = osize - 1 ∧ ∀ j, 0 < j < osize →
    old !! Z.to_nat (j - 1) = tget (default [IPR 0 0] (dn_table <$> otable)) j) as [Hlen Hold].
  { unfold old, tsize in *. destruct otable as [t|]; simpl in *.
    - split; [rewrite length_take, length_drop; lia|]. intros j Hj.
      rewrite lookup_take_lt, lookup_drop by lia. unfold tget. rewrite (proj2 (Z.leb_le 0 j)) by lia.
      f_equal. lia.
    - split; [rewrite length_take; simpl; lia|lia]. }
  assert (tsize t0 = nsize) as Hz0.
  { unfold t0, tsize. simpl. rewrite length_app, length_replicate. lia. }
  destruct (fill_spec t0 free osize (Z.to_nat (nsize - osize))) as (t1 & Hf & Hz & Hget); [lia..|].
  rewrite Z2Nat.id in Hf, Hget by lia. rewrite Hf. cbv zeta.
  rewrite (decide_False (P := Z.to_nat _ = 0%nat)) by lia.
  destruct (tget_is_Some t1 0) as (r & Hr); [lia|].
  split_and!.
  - rewrite tsize_tmod. congruence.
  - rewrite tget_tmod_eq, Hr. simpl. do 2 f_equal. lia.
  - intros j Hj. rewrite tget_tmod_ne, Hget, decide_False, <-Hold by lia. unfold tget, t0.
    rewrite (proj2 (Z.leb_le 0 j)) by lia. replace (Z.to_nat j) with (S (Z.to_nat (j - 1))) by lia.
    simpl. by rewrite lookup_app_l by lia.
  - intros j Hj. rewrite tget_tmod_ne, Hget, (decide_True (P := osize ≤ j < _)) by lia. done.
Qed.

(** The pushed elements, in front of the old free list. *)
Lemma pushed_threaded nx a f (k : nat) fl :
  0 < a → (∀ j, a ≤ j < a + Z.of_nat k → nx j = if decide (j = a) then f else j - 1) →
  threaded_from nx f fl →
  threaded_from nx (if decide (k = 0%nat) then f else a + Z.of_nat k - 1)
    (reverse (seqZ a (Z.of_nat k)) ++ fl).
Proof.
  intros Ha. induction k as [|k IH]; intros Hj Hf; [done|].
  rewrite seqZ_S, reverse_app. simpl. split_and!; [lia..|].
  apply threaded_from_next. rewrite Hj by lia.
  specialize (IH ltac:(intros; apply Hj; lia) Hf).
  destruct (decide (k = 0%nat)) as [->|]; [by rewrite decide_True by lia|].
  by rewrite decide_False by lia.
Qed.

(** ** Requests of a port *)

Definition request (port : ipc_port) (i : Z) : option (Z * Z) :=
  match ip_dnrequests port with
  | Some d => dn_view (dn_table d) i
  | None => None
  end.

Definition port_dn_wf (port : ipc_port) : Prop :=
  match ip_dnrequests port with
  | Some d => dn_wf (dn_table d)
  | None => True
  end.

(** The number of elements, the first of which heads the free list. *)
Definition dn_length (port : ipc_port) : Z :=
  match ip_dnrequests port with
  | Some d => tsize (dn_table d)
  | None => 1
  end.

Lemma dn_length_set port addr t : dn_length (set_ip_dnrequests port (Some (DN addr t))) = tsize t.
Proof. done. Qed.

Lemma dn_view_None t i : 0 < i → dn_view t i = None ↔ rname t i = MACH_PORT_NULL.
Proof.
  intros Hi. unfold dn_view. rewrite (proj2 (Z.ltb_lt 0 i)) by done. simpl.
  by destruct (Z.eqb_spec (rname t i) MACH_PORT_NULL); simpl.
Qed.

(** What [dn_install] builds. *)
Lemma new_table_wf port its osize nsize free :
  port_dn_wf port → osize = dn_length port → 1 ≤ osize < nsize →
  free = match ip_dnrequests port with Some d => rnext (dn_table d) 0 | None => 0 end →
  ipc_table_dnrequests !! its = Some nsize →
  let nt := dn_new_table (ip_dnrequests port) its osize nsize free in
  dn_wf nt ∧ tsize nt = nsize ∧ (∀ i, dn_view nt i = request port i) ∧ dn_view nt (nsize - 1) = None.
Proof.
  intros Hw Ho Hn Hfree Hits nt.
  destruct (new_table_spec (ip_dnrequests port) its osize nsize free) as (Hz & H0 & Hold & Hnew).
  { done. }
  { rewrite Ho. unfold dn_length. by destruct (ip_dnrequests port). }
  fold nt in Hz, H0, Hold, Hnew. clearbody nt.
  set (old := default [IPR 0 0] (dn_table <$> ip_dnrequests port)) in *.
  assert (∃ fl, threaded_from (rnext old) free fl ∧ NoDup fl ∧
    (∀ i, i ∈ fl ↔ 0 < i < osize ∧ rname old i = MACH_PORT_NULL) ∧
    (∀ i, 0 < i → rname old i ≠ MACH_PORT_NULL → rnext old i ≠ IP_NULL) ∧ tsize old = osize ∧
    ∀ i, 0 < i → dn_view old i = request port i) as (fl & Hl & Hnd & Hfl & Hso & Hzo & Hview).
  { unfold port_dn_wf, old, request, dn_length in *. destruct (ip_dnrequests port) as [d|]; simpl in *.
    - destruct (dw_free _ Hw) as (fl & Hl & Hnd & Hfl). exists fl. subst.
      split_and!; [by apply threaded_from_next|done|done|apply Hw|done|done].
    - exists []. subst. split_and!; [done|constructor| | |done|].
      + intros i. split; [by intros ?%elem_of_nil|lia].
      + intros i Hi Hx. destruct Hx. unfold rname, tget. destruct (Z.leb_spec 0 i); [|done].
        by destruct (Z.to_nat i) as [|[]] eqn:E; [lia|..].
      + intros i Hi. apply dn_view_None; [done|]. unfold rname, tget. destruct (Z.leb_spec 0 i); [|done].
        by destruct (Z.to_nat i) as [|[]] eqn:E; [lia|..]. }
  assert (∀ j, 0 < j < osize → rname nt j = rname old j ∧ rnext nt j = rnext old j) as Hkeep.
  { intros j Hj. unfold rname, rnext. by rewrite Hold. }
  assert (∀ j, osize ≤ j < nsize → rname nt j = MACH_PORT_NULL ∧
    rnext nt j = if decide (j = osize) then free else j - 1) as Hfresh.
  { intros j Hj. unfold rname, rnext. by rewrite Hnew. }
  assert (∀ j, nsize ≤ j → rname nt j = MACH_PORT_NULL ∧ rname old j = MACH_PORT_NULL) as Hout.
  { intros j Hj. unfold rname. destruct (tget nt j) as [r|] eqn:E; [apply tget_Some in E; lia|].
    destruct (tget old j) as [r|] eqn:E'; [apply tget_Some in E'; lia|done]. }
  assert (∀ j, osize ≤ j → rname old j = MACH_PORT_NULL) as Hout'.
  { intros j Hj. unfold rname. destruct (tget old j) as [r|] eqn:E'; [apply tget_Some in E'; lia|done]. }
  assert (∀ j, 0 < j → rname nt j = rname old j) as Hnames.
  { intros j Hj. destruct (decide (j < osize)); [by apply Hkeep|]. rewrite Hout' by lia.
    destruct (decide (j < nsize)); [by apply Hfresh; lia|]. by apply Hout; lia. }
  split_and!; [|done| |].
  - split.
    + exists its. unfold ipr_size. rewrite H0. ostep. rewrite Hz. simpl. rewrite Nat2Z.id. split_and!; [done..|lia].
    + exists (reverse (seqZ osize (nsize - osize)) ++ fl). split_and!.
      * apply threaded_from_next. assert (rnext nt 0 = nsize - 1) as ->.
        { unfold rnext. by rewrite H0. }
        pose proof (pushed_threaded (rnext nt) osize free (Z.to_nat (nsize - osize)) fl) as Hp.
        rewrite Z2Nat.id in Hp by lia. rewrite decide_False in Hp by lia.
        replace (osize + (nsize - osize) - 1) with (nsize - 1) in Hp by lia. apply Hp; [lia| |].
        -- intros j Hj. apply Hfresh. lia.
        -- eapply threaded_from_ext; [done|]. intros j (Hj & _)%Hfl. by apply Hkeep.
      * apply NoDup_app. split_and!; [rewrite reverse_Permutation; apply NoDup_seqZ| |done].
        intros j. rewrite elem_of_reverse, elem_of_seqZ. intros Hj (Hj' & _)%Hfl. lia.
      * intros j. rewrite elem_of_app, elem_of_reverse, elem_of_seqZ, Hfl, Hz. split.
        -- intros [Hj|[Hj ?]]; [split; [lia|by apply Hfresh; lia]|].
           split; [lia|]. by rewrite Hnames by lia.
        -- intros [Hj Hx]. destruct (decide (j < osize)); [right|left; lia].
           split; [lia|]. by rewrite <-Hnames by lia.
    + intros j Hj. rewrite Hnames by done. intros Hx. destruct (decide (j < osize)).
      * rewrite (proj2 (Hkeep j ltac:(lia))). by apply Hso.
      * by rewrite Hout' in Hx by lia.
  - intros i. destruct (decide (0 < i)) as [Hi|Hi].
    + rewrite <-Hview by done. unfold dn_view. rewrite Hnames by done.
      rewrite (proj2 (Z.ltb_lt 0 i)) by done. simpl.
      destruct (Z.eqb_spec (rname old i) MACH_PORT_NULL) as [|Hx]; simpl; [done|].
      destruct (decide (i < osize)); [by rewrite (proj2 (Hkeep i ltac:(lia)))|].
      by rewrite Hout' in Hx by lia.
    + unfold request, dn_view. rewrite (proj2 (Z.ltb_ge 0 i)) by lia. by destruct (ip_dnrequests port).
  - apply dn_view_None; [lia|]. apply Hfresh. lia.
Qed.

(** ** Updates of one port *)

Section dnreq.
Context {W : pworld}.

Definition put (st : pstate) (p : Z) (port : ipc_port) : pstate := with_ports st (<[p := port]>).

Lemma put_get st p port : ps_ports (put st p port) !! p = Some port.
Proof. apply lookup_insert_eq. Qed.

Lemma put_put st p port port' : put (put st p port) p port' = put st p port'.
Proof. unfold put, with_ports. simpl. by rewrite insert_insert_eq. Qed.

Lemma pmod_spec st p port f : ps_ports st !! p = Some port → pmod st p f = Ok (put st p (f port)).
Proof. intros Hp. unfold pmod, pget. by rewrite Hp. Qed.

Lemma ip_unlock_spec st p port :
  ps_ports st !! p = Some port → ip_locked port = true →
  ip_unlock st p = Ok (put st p (set_ip_locked port false)).
Proof.
  intros Hp Hl. unfold ip_unlock, pget. rewrite Hp. ostep. rewrite Hl. by rewrite (pmod_spec _ _ _ _ ltac:(eassumption)).
Qed.

Lemma ip_reference_spec st p port :
  ps_ports st !! p = Some port → ip_references port < IO_MAX_REFERENCES →
  ip_reference st p = Ok (put st p (set_ip_references port (ip_references port + 1))).
Proof.
  intros Hp Hr. unfold ip_reference, pget. rewrite Hp. ostep.
  rewrite (proj2 (Z.ltb_lt _ _) Hr). ostep. by rewrite (pmod_spec _ _ _ _ ltac:(eassumption)).
Qed.

Lemma ip_release_spec st p port :
  ps_ports st !! p = Some port → 0 < ip_references port ≤ IO_MAX_REFERENCES →
  ip_release st p = Ok (put st p (set_ip_references port (ip_references port - 1))).
Proof.
  intros Hp [Hr Hr']. unfold ip_release, pget. rewrite Hp. ostep.
  rewrite (proj2 (Z.ltb_lt _ _) Hr), (proj2 (Z.leb_le _ _) Hr'). ostep. by rewrite (pmod_spec _ _ _ _ ltac:(eassumption)).
Qed.

Lemma ip_lock_spec st p port port' :
  ps_ports st !! p = Some port → ip_locked port = false →
  ps_ports (pw_other (ps_clock st) st) !! p = Some port' →
  ip_lock st p = Ok (put (ptick (pw_other (ps_clock st) st)) p (set_ip_locked port' true)).
Proof.
  intros Hp Hl Hp'. unfold ip_lock, pget. rewrite Hp. ostep. rewrite Hl.
  by rewrite (pmod_spec (ptick _) _ port').
Qed.

Lemma ip_check_unlock_spec st p port :
  ps_ports st !! p = Some port → ip_locked port = true →
  ip_check_unlock st p = Ok (if ip_references port =? 0 then with_ports st (delete p)
    else put st p (set_ip_locked port false)).
Proof.
  intros Hp Hl. unfold ip_check_unlock. unfold pget at 1. rewrite Hp. ostep.
  rewrite (ip_unlock_spec st p port) by done. ostep. case_match; [|done].
  unfold put, with_ports. simpl. by rewrite delete_insert_eq.
Qed.

(** ** Making and cancelling a request *)

Lemma dnrequest_spec st p port name soright :
  ps_ports st !! p = Some port → ip_active port = true → port_dn_wf port →
  name ≠ MACH_PORT_NULL → soright ≠ IP_NULL →
  ∃ st' kr o, ipc_port_dnrequest st p name soright = Ok (st', (kr, o)) ∧
    match o with
    | Some i => kr = KERN_SUCCESS ∧ ∃ d, let port' := set_ip_dnrequests port (Some d) in
        st' = put st p port' ∧ port_dn_wf port' ∧ 0 < i < dn_length port' ∧
        request port i = None ∧
        ∀ j, request port' j = if decide (j = i) then Some (name, soright) else request port j
    | None => kr = KERN_NO_SPACE ∧ st' = st ∧ ∀ i, 0 < i < dn_length port → request port i ≠ None
    end.
Proof.
  intros Hp Ha Hw Hn Hs. unfold ipc_port_dnrequest, pget. rewrite Hp. ostep. rewrite Ha. ostep.
  rewrite !(proj2 (Z.eqb_neq _ _)) by done. ostep.
  unfold port_dn_wf, dn_length, request in *. destruct (ip_dnrequests port) as [[addr t]|].
  2:{ eexists _, _, None. split; [done|]. split_and!; [done..|lia]. }
  cbn [dn_table] in *. destruct (dw_size _ Hw) as (its & _ & _ & Hsz).
  destruct (dw_free _ Hw) as (fl & Hl & Hnd & Hfl).
  destruct (tget_is_Some t 0) as (h & Hh); [lia|]. rewrite Hh. ostep. rewrite (rnext_get _ _ _ Hh).
  destruct fl as [|i fl].
  { simpl in Hl. rewrite Hl. eexists _, _, None. split; [done|]. split_and!; [done..|].
    intros i Hi Hx. apply dn_view_None in Hx; [|lia]. assert (i ∈ []) as Hin by (by apply Hfl).
    by apply elem_of_nil in Hin. }
  pose proof Hl as (H0 & Hi0 & _). rewrite H0, (proj2 (Z.eqb_neq i 0)) by done.
  assert (0 < i < tsize t ∧ rname t i = MACH_PORT_NULL) as [Hi Hnm] by (apply Hfl; by left).
  destruct (tget_is_Some t i) as (r & Hr); [lia|]. rewrite Hr. ostep.
  rewrite (rname_get _ _ _ Hr), Hnm, (rnext_get _ _ _ Hr). ostep.
  rewrite (pmod_spec _ _ port) by done. ostep.
  pose proof (relinked_request t i (rnext t i) name soright Hi) as Hre.
  eexists _, _, (Some i). split; [done|]. split; [done|]. eexists. split; [done|]. cbn [dn_table ip_dnrequests set_ip_dnrequests].
  split_and!; [by eapply request_wf|lia|rewrite !tsize_tmod; lia|by apply dn_view_None; [lia|]|].
  intros j. rewrite (relinked_view _ _ _ _ _ _ j (proj1 Hi) Hre).
  by rewrite (proj2 (Z.eqb_neq name _)).
Qed.

Theorem dnrequest_correct st p port name soright :
  ps_ports st !! p = Some port → ip_active port = true → port_dn_wf port →
  name ≠ MACH_PORT_NULL → soright ≠ IP_NULL →
  ∃ st' kr o, ipc_port_dnrequest st p name soright = Ok (st', (kr, o)) ∧
    match o with
    | Some i => kr = KERN_SUCCESS ∧ ∃ d, let port' := set_ip_dnrequests port (Some d) in
        st' = put st p port' ∧ port_dn_wf port' ∧ 0 < i < dn_length port' ∧
        request port i = None ∧
        ∀ j, request port' j = if decide (j = i) then Some (name, soright) else request port j
    | None => kr = KERN_NO_SPACE ∧ st' = st ∧ ∀ i, 0 < i < dn_length port → request port i ≠ None
    end.
Proof. apply dnrequest_spec. Qed.

Lemma dncancel_spec st p port name index soright :
  ps_ports st !! p = Some port → ip_active port = true → port_dn_wf port →
  request port index = Some (name, soright) →
  ∃ d, let port' := set_ip_dnrequests port (Some d) in
    ipc_port_dncancel st p name index = Ok (put st p port', soright) ∧ port_dn_wf port' ∧
    dn_length port' = dn_length port ∧
    ∀ j, request port' j = if decide (j = index) then None else request port j.
Proof.
  intros Hp Ha Hw Hreq. unfold ipc_port_dncancel, pget. rewrite Hp. ostep. rewrite Ha. ostep.
  unfold port_dn_wf, dn_length, request in *. destruct (ip_dnrequests port) as [[addr t]|]; [|done].
  cbn [dn_table] in *. apply dn_view_Some in Hreq as (Hi & Hn & Hs & Hnn).
  rewrite !(proj2 (Z.eqb_neq _ _)) by (done || lia). ostep.
  destruct (tget t index) as [r|] eqn:Hr.
  2:{ unfold rname in Hn. rewrite Hr in Hn. by destruct Hnn. }
  ostep. rewrite (rname_get _ _ _ Hr), (rnext_get _ _ _ Hr), Hn, Hs, Z.eqb_refl. ostep.
  pose proof (tget_Some _ _ _ Hr) as Hlt.
  destruct (tget_is_Some t 0) as (h & Hh); [lia|]. rewrite Hh. ostep. rewrite (rnext_get _ _ _ Hh).
  rewrite (pmod_spec _ _ port) by done. ostep.
  pose proof (relinked_cancel t index index MACH_PORT_NULL (rnext t 0) ltac:(lia)) as Hre.
  eexists. split; [done|]. cbn [dn_table ip_dnrequests set_ip_dnrequests].
  split_and!; [|by rewrite !tsize_tmod|].
  - eapply (cancel_wf t index); [done|lia|by rewrite Hn|done].
  - intros j. by rewrite (relinked_view _ _ _ _ _ _ j Hi Hre).
Qed.

Theorem dncancel_correct st p port name index soright :
  ps_ports st !! p = Some port → ip_active port = true → port_dn_wf port →
  request port index = Some (name, soright) →
  ∃ d, let port' := set_ip_dnrequests port (Some d) in
    ipc_port_dncancel st p name index = Ok (put st p port', soright) ∧ port_dn_wf port' ∧
    dn_length port' = dn_length port ∧
    ∀ j, request port' j = if decide (j = index) then None else request port j.
Proof. apply dncancel_spec. Qed.

(** ** Growing the table *)

(** The port is not freed by the others while this thread has a reference,
    and its table stays well-formed. *)
Class port_rely (p : Z) : Prop :=
  port_kept c st port : ps_ports st !! p = Some port → ip_locked port = false →
    0 < ip_references port ≤ IO_MAX_REFERENCES →
    ∃ port', ps_ports (pw_other c st) !! p = Some port' ∧ ip_locked port' = false ∧
      0 < ip_references port' ≤ IO_MAX_REFERENCES ∧ (port_dn_wf port → port_dn_wf port').

(** The position of the next size. *)
Definition dn_its (port : ipc_port) : nat :=
  match ip_dnrequests port with
  | Some d => match ipr_size (dn_table d) with Ok its => S its | Fault _ => 0 end
  | None => 0
  end.

Definition dn_same (port port' : ipc_port) : Prop :=
  dn_addr <$> ip_dnrequests port' = dn_addr <$> ip_dnrequests port ∧ dn_its port' = dn_its port.

Lemma dn_next_size port :
  port_dn_wf port → ∃ nsize, ipc_table_dnrequests !! dn_its port = Some nsize ∧
    (nsize = 0 ∨ 1 ≤ dn_length port < nsize).
Proof.
  intros Hw. unfold port_dn_wf, dn_its, dn_length in *. destruct (ip_dnrequests port) as [d|].
  2:{ exists 2. split; [done|]. lia. }
  destruct (dw_size _ Hw) as (its & -> & Hits & Hsz).
  destruct dnrequests_ok as (Hlen & Hinc & Hlast).
  destruct (decide (its = 63%nat)) as [->|]; [rewrite Hlast in Hits; injection Hits; lia|].
  pose proof (lookup_lt_Some _ _ _ Hits) as Hlt. rewrite Hlen in Hlt.
  unfold ipc_table_dnrequests_size in *.
  destruct (lookup_lt_is_Some_2 ipc_table_dnrequests (S its)) as (ns & Hns); [lia|].
  exists ns. split; [done|]. destruct (decide (S its = 63%nat)) as [Heq|]; [left; congruence|].
  right. split; [lia|]. apply (Hinc its); by rewrite lookup_take_lt by lia.
Qed.

(** What the rest of [ipc_port_dngrow] makes of the port [port1] it finds,
    [port] being what it left. *)
Definition installed (st' : pstate) (p : Z) (port port1 : ipc_port) : Prop :=
  if decide (ip_active port1 = true ∧ dn_same port port1) then
    ∃ d, let port' := set_ip_dnrequests port1 (Some d) in
      ps_ports st' !! p = Some (set_ip_locked port' false) ∧ port_dn_wf port' ∧
      dn_length port1 < dn_length port' ∧ (∀ i, request port' i = request port1 i) ∧
      ∃ i, 0 < i < dn_length port' ∧ request port' i = None
  else ps_ports st' !! p =
    if ip_references port1 =? 0 then None else Some (set_ip_locked port1 false).

Lemma dn_install_spec st p port port1 addr nsize :
  ps_ports st !! p = Some port1 → ip_locked port1 = true → port_dn_wf port1 →
  ipc_table_dnrequests !! dn_its port = Some nsize → nsize ≠ 0 →
  ∃ st', dn_install st p (ip_dnrequests port) (dn_its port) addr = Ok st' ∧ installed st' p port port1.
Proof.
  intros Hp Hl Hw Hn Hn0. unfold dn_install, pget. rewrite Hp. ostep.
  assert (¬ (ip_active port1 = true ∧ dn_same port port1) →
    ∃ st', ip_check_unlock st p = Ok st' ∧ installed st' p port port1) as Hno.
  { intros Hnot. rewrite (ip_check_unlock_spec st p port1) by done. eexists. split; [done|].
    unfold installed. rewrite decide_False by done.
    case_match; [apply lookup_delete_eq|apply put_get]. }
  assert (dn_its port1 = match ip_dnrequests port1 with
    | Some d => match ipr_size (dn_table d) with Ok k => S k | Fault _ => 0 end | None => 0 end)%nat
    as Hits by done.
  destruct (ip_active port1) eqn:Hact; ostep; [|apply Hno; naive_solver].
  destruct (decide (dn_addr <$> ip_dnrequests port1 = dn_addr <$> ip_dnrequests port)) as [Haddr|Haddr].
  2:{ rewrite bool_decide_false by done. ostep. apply Hno. unfold dn_same. naive_solver. }
  rewrite bool_decide_true by done.
  destruct (decide (dn_its port1 = dn_its port)) as [Hi|Hi].
  - destruct (dn_next_size port1 Hw) as (ns & Hns & Hlt). rewrite Hi in Hns.
    assert (ns = nsize) as -> by congruence. destruct Hlt as [?|Hlt]; [done|].
    destruct (new_table_wf port1 (dn_its port) (dn_length port1) nsize
      match ip_dnrequests port1 with Some d => rnext (dn_table d) 0 | None => 0 end)
      as (Hwf & Hz & Hview & Hlast); [done..|].
    exists (put st p (set_ip_locked (set_ip_dnrequests port1 (Some (DN addr
      (dn_new_table (ip_dnrequests port1) (dn_its port) (dn_length port1) nsize
        match ip_dnrequests port1 with Some d => rnext (dn_table d) 0 | None => 0 end)))) false)).
    split.
    + rewrite <-Hi in *. unfold port_dn_wf, dn_length, dn_its in *.
      destruct (ip_dnrequests port1) as [d|] eqn:Hd.
      * destruct (dw_size _ Hw) as (its & Hs & Htab & Hsz). rewrite Hs in *. ostep.
        rewrite Nat.eqb_refl. ostep. destruct (tget_is_Some (dn_table d) 0) as (h & Hh); [lia|].
        unfold dn_its_size. rewrite Htab. ostep. rewrite Hh. ostep. rewrite Hns. ostep.
        rewrite (proj2 (Z.ltb_lt _ _)) by lia. ostep. rewrite (pmod_spec _ _ port1) by done. ostep.
        rewrite (ip_unlock_spec _ _ _ (put_get _ _ _)) by done. rewrite put_put.
        by rewrite (rnext_get _ _ _ Hh).
      * ostep. unfold dn_its_size. rewrite Hns. ostep. rewrite (proj2 (Z.ltb_lt _ _)) by lia. ostep.
        rewrite (pmod_spec _ _ port1) by done. ostep.
        rewrite (ip_unlock_spec _ _ _ (put_get _ _ _)) by done. by rewrite put_put.
    + unfold installed. rewrite decide_True by done. eexists. split; [apply put_get|]. split; [done|].
      rewrite !dn_length_set, Hz. split_and!; [lia|done|]. exists (nsize - 1). split; [lia|done].
  - assert ((match ip_dnrequests port1 with
      | None => Ok true
      | Some cur => oits ← ipr_size (dn_table cur); Ok (S oits =? dn_its port)%nat
      end : outcome bool) = Ok false) as ->; [|apply Hno; unfold dn_same; naive_solver].
    unfold port_dn_wf, dn_its in *. destruct (ip_dnrequests port1) as [d|]; simpl in Haddr.
    + destruct (dw_size _ Hw) as (its & Hs & _). rewrite Hs in *. ostep.
      by rewrite (proj2 (Nat.eqb_neq _ _)).
    + destruct (ip_dnrequests port); [done|]. done.
Qed.

(** The next size of the table; zero after the last. *)
Definition dn_next (port : ipc_port) : Z := default 0 (ipc_table_dnrequests !! dn_its port).

(** The ports while the memory is allocated. *)
Definition dn_away (st : pstate) (p : Z) (port : ipc_port) : pstate :=
  put st p (set_ip_locked (set_ip_references port (ip_references port + 1)) false).

(** The table is at its last size, or there is no memory. *)
Definition dn_shortage (st : pstate) (p : Z) (port : ipc_port) : bool :=
  (dn_next port =? 0) || bool_decide (pw_alloc (ps_clock st) (dn_away st p port) = None).

(** What the other threads have made of the ports meanwhile. *)
Definition dn_back (st : pstate) (p : Z) (port : ipc_port) : pstate :=
  let st0 := dn_away st p port in
  let st1 := if dn_next port =? 0 then st0 else ptick st0 in
  pw_other (ps_clock st1) st1.

(** C30. ipc_port_dngrow without a target size, which unlocks the port
    while it allocates, fails with KERN_RESOURCE_SHORTAGE exactly when the
    table has its last size or the allocation fails, and leaves the port as
    the other threads have made it then; otherwise it succeeds, and
    installs in the port, as other threads have left it, a larger table
    that has every request of the current one and a free element, unless
    the port has died or its table was replaced meanwhile; the port is left
    unlocked, and freed if its last reference went. *)
Theorem dngrow_correct `{!port_rely p} st port :
  ps_ports st !! p = Some port → ip_locked port = true → ip_active port = true →
  port_dn_wf port → 0 ≤ ip_references port < IO_MAX_REFERENCES →
  ∃ st' port1, ps_ports (dn_back st p port) !! p = Some port1 ∧ port_dn_wf port1 ∧
    let port2 := set_ip_references port1 (ip_references port1 - 1) in
    ipc_port_dngrow st p ITS_SIZE_NONE =
      Ok (st', if dn_shortage st p port then KERN_RESOURCE_SHORTAGE else KERN_SUCCESS) ∧
    if dn_shortage st p port
    then ps_ports st' !! p = if ip_references port2 =? 0 then None else Some (set_ip_locked port2 false)
    else installed st' p port port2.
Proof.
  intros Hp Hl Ha Hw Hr. unfold ipc_port_dngrow, pget. rewrite Hp. ostep. rewrite Ha. ostep.
  assert ((match ip_dnrequests port with
    | None => Ok 0%nat
    | Some t => oits ← ipr_size (dn_table t); Ok (S oits)
    end) = Ok (dn_its port)) as ->.
  { unfold port_dn_wf, dn_its in *. destruct (ip_dnrequests port) as [d|]; [|done].
    by destruct (dw_size _ Hw) as (its & -> & _). }
  ostep. change (ITS_SIZE_NONE =? ITS_SIZE_NONE) with true. ostep.
  destruct (dn_next_size port Hw) as (nsize & Hns & Hlt). unfold dn_its_size. rewrite Hns. ostep.
  rewrite (ip_reference_spec st p port) by (done || lia). ostep.
  rewrite (ip_unlock_spec _ _ _ (put_get _ _ _)) by done. ostep. rewrite put_put.
  unfold dn_shortage, dn_back, dn_next. rewrite Hns. change (default 0 (Some nsize)) with nsize. fold (dn_away st p port). set (st0 := dn_away st p port).
  set (port0 := set_ip_locked (set_ip_references port (ip_references port + 1)) false).
  assert (∀ st2, ps_ports st2 = ps_ports st0 → ∃ port1,
    ps_ports (pw_other (ps_clock st2) st2) !! p = Some port1 ∧ ip_locked port1 = false ∧
    0 < ip_references port1 ≤ IO_MAX_REFERENCES ∧ port_dn_wf port1 ∧
    ip_lock st2 p = Ok (put (ptick (pw_other (ps_clock st2) st2)) p (set_ip_locked port1 true))) as Hlock.
  { intros st2 Heq. assert (ps_ports st2 !! p = Some port0) as Hp2 by (rewrite Heq; apply put_get).
    destruct (port_kept (ps_clock st2) st2 port0 Hp2) as (port1 & H1 & H2 & H3 & H4);
      [done|simpl; lia|]. exists port1. split_and!; try done; [lia..|by apply H4|].
    by apply (ip_lock_spec st2 p port0). }
  destruct (nsize =? 0) eqn:Hz.
  - destruct (Hlock st0 eq_refl) as (port1 & H1 & H2 & H3 & H4 & Hrun).
    unfold ipc_port_release. rewrite Hrun. ostep.
    rewrite (ip_release_spec _ _ _ (put_get _ _ _)) by (simpl; lia). ostep.
    rewrite (ip_check_unlock_spec _ _ _ (put_get _ _ _)) by done. ostep. rewrite !put_put.
    eexists _, port1. split_and!; [done..|].
    cbn [ip_references set_ip_references set_ip_locked]. case_match; [apply lookup_delete_eq|apply put_get].
  - change (ps_clock st) with (ps_clock st0). destruct (pw_alloc (ps_clock st0) st0) as [addr|].
    + destruct (Hlock (ptick st0) eq_refl) as (port1 & H1 & H2 & H3 & H4 & Hrun).
      rewrite Hrun. ostep.
      rewrite (ip_release_spec _ _ _ (put_get _ _ _)) by (simpl; lia). ostep. rewrite put_put.
      apply Z.eqb_neq in Hz.
      destruct (dn_install_spec (put (ptick (pw_other (ps_clock (ptick st0)) (ptick st0))) p
          (set_ip_references (set_ip_locked port1 true) (ip_references (set_ip_locked port1 true) - 1)))
        p port _ addr nsize (put_get _ _ _)) as (st' & Hins & Hi); [done..|].
      rewrite Hins. ostep. eexists _, port1. split_and!; [done..|]. exact Hi.
    + destruct (Hlock (ptick st0) eq_refl) as (port1 & H1 & H2 & H3 & H4 & Hrun).
      unfold ipc_port_release. rewrite Hrun. ostep.
      rewrite (ip_release_spec _ _ _ (put_get _ _ _)) by (simpl; lia). ostep.
      rewrite (ip_check_unlock_spec _ _ _ (put_get _ _ _)) by done. ostep. rewrite !put_put.
      eexists _, port1. split_and!; [done..|].
      rewrite bool_decide_true by done. ostep. cbn [ip_references set_ip_references set_ip_locked]. case_match; [apply lookup_delete_eq|apply put_get].
Qed.

(** ** Dead-name notifications *)

(** The requests of a table, in the order of their indices. *)
Definition dn_requests (t : list ipc_port_request) : list (Z * Z) :=
  omap (dn_view t) (seqZ 1 (tsize t - 1)).

Definition dead_name_note (r : Z * Z) : notification := ipc_notify_dead_name r.2 r.1.

(** The notifications sent, latest first. *)
Definition noted (st : pstate) (l : list notification) : pstate :=
  PST (ps_ports st) (ps_psets st) (ps_timestamp st) (ps_multiple st) (reverse l ++ ps_notes st) (ps_woken st) (ps_clock st).

(** ipc_port_dnnotify sends one dead-name notification for each request of
    the table, in the order of the indices, and changes nothing else. *)
Lemma dnnotify_spec st t :
  dn_wf t → ipc_port_dnnotify st t = Ok (noted st (dead_name_note <$> dn_requests t)).
Proof.
  intros Hw. destruct (dw_size _ Hw) as (its & Hi & Hs & Hz). unfold ipc_port_dnnotify, dn_its_size.
  rewrite Hi. ostep. rewrite Hs. ostep. unfold dn_requests.
  assert (Forall (λ i, 0 < i < tsize t) (seqZ 1 (tsize t - 1))) as Hr.
  { apply Forall_forall. intros i Hx%elem_of_seqZ. lia. }
  revert st. induction Hr as [|i l Hil _ IH]; intros st; [by destruct st|]. simpl.
  destruct (tget_is_Some t i) as (r & Hget); [lia|]. rewrite Hget. ostep.
  rewrite (rname_get _ _ _ Hget), (rnext_get _ _ _ Hget). unfold dn_view at 1.
  rewrite (proj2 (Z.ltb_lt 0 i)) by lia. simpl.
  destruct (Z.eqb_spec (rname t i) MACH_PORT_NULL) as [|Hn]; simpl; [by apply IH|].
  rewrite (proj2 (Z.eqb_neq (rnext t i) _)) by (apply (dw_soright _ Hw); [lia|done]). ostep.
  rewrite IH. unfold noted, notify. simpl. by rewrite reverse_cons, <-app_assoc.
Qed.
End dnreq.
