(* ===== verification/IpcPortRights.v ===== *)
(** * Counts of send rights and no-senders requests (ipc/ipc_port.c)

    The operations on naked send and send-once rights keep the counts of a
    port within its references, and a no-senders request is answered as soon
    as, and only when, the last send right has gone. *)

From stdpp Require Import prelude list gmap.
From S2P Require Import Prelude MachPort IpcTypes IpcTable IpcPort IpcDnreq.

(** No other thread changes the ports while an operation waits for a lock. *)
Class quiet `{W : pworld} : Prop := other_id c st : pw_other c st = st.

Section rights.
Context `{W : pworld, !quiet}.

Lemma ip_lock_quiet st p port :
  ps_ports st !! p = Some port → ip_locked port = false →
  ip_lock st p = Ok (put (ptick st) p (set_ip_locked port true)).
Proof.
  intros Hp Hl. rewrite (ip_lock_spec st p port port); [by rewrite other_id|done|done|].
  by rewrite other_id.
Qed.

(** Taking and dropping a reference under the lock. *)
Definition referenced (port : ipc_port) (k : Z) : ipc_port :=
  set_ip_references port (ip_references port + k).

Lemma reference_eq st p port :
  ps_ports st !! p = Some port →
  ip_reference st p = if ip_references port <? IO_MAX_REFERENCES
    then Ok (put st p (referenced port 1)) else Fault FAssert.
Proof.
  intros Hp. unfold ip_reference, pget. rewrite Hp. ostep. case_match; ostep; [|done].
  by rewrite (pmod_spec _ _ port).
Qed.

Lemma release_eq st p port :
  ps_ports st !! p = Some port →
  ip_release st p = if (0 <? ip_references port) && (ip_references port <=? IO_MAX_REFERENCES)
    then Ok (put st p (referenced port (-1))) else Fault FAssert.
Proof.
  intros Hp. unfold ip_release, pget. rewrite Hp. ostep. case_match; ostep; [|done].
  by rewrite (pmod_spec _ _ port).
Qed.

(** ** What each operation does to its port *)

Definition sent_more (port : ipc_port) : ipc_port :=
  set_ip_srights port (u32 (ip_srights port + 1)).

Lemma make_send_eq st p port :
  ps_ports st !! p = Some port → ip_locked port = false →
  ipc_port_make_send st p =
    if IP_VALID p && ip_active port && (ip_references port <? IO_MAX_REFERENCES)
    then Ok (put (ptick st) p
      (referenced (sent_more (set_ip_mscount port (u32 (ip_mscount port + 1)))) 1))
    else Fault FAssert.
Proof.
  intros Hp Hl. unfold ipc_port_make_send. destruct (IP_VALID p); ostep; [|done].
  rewrite (ip_lock_quiet st p port) by done. ostep. unfold pget at 1. rewrite put_get. ostep.
  destruct (ip_active port) eqn:Ha; cbn [ip_active set_ip_locked]; rewrite Ha; ostep; [|done].
  rewrite (pmod_spec _ _ _ _ (put_get _ _ _)), put_put. ostep.
  rewrite (pmod_spec _ _ _ _ (put_get _ _ _)), put_put. ostep.
  rewrite (reference_eq _ _ _ (put_get _ _ _)). simpl ip_references.
    destruct (ip_references port <? IO_MAX_REFERENCES); ostep; [|done].
  rewrite put_put, (ip_unlock_spec _ _ _ (put_get _ _ _)), put_put by done.
  destruct port; simpl in *; by subst.
Qed.

Lemma copy_send_eq st p port :
  ps_ports st !! p = Some port → ip_locked port = false → IP_VALID p = true →
  ipc_port_copy_send st p =
    if ip_active port then
      if (0 <? ip_srights port) && (ip_references port <? IO_MAX_REFERENCES)
      then Ok (put (ptick st) p (referenced (sent_more port) 1), p) else Fault FAssert
    else Ok (put (ptick st) p port, IP_DEAD).
Proof.
  intros Hp Hl Hv. unfold ipc_port_copy_send. rewrite Hv. ostep.
  rewrite (ip_lock_quiet st p port) by done. ostep. unfold pget at 1. rewrite put_get. ostep.
  destruct (ip_active port) eqn:Ha; cbn [ip_active set_ip_locked]; rewrite Ha; ostep.
  - cbn [ip_srights set_ip_locked]. destruct (0 <? ip_srights port); ostep; [|done].
    rewrite (reference_eq _ _ _ (put_get _ _ _)). simpl ip_references.
    destruct (ip_references port <? IO_MAX_REFERENCES); ostep; [|done].
    rewrite put_put, (pmod_spec _ _ _ _ (put_get _ _ _)), put_put. ostep.
    rewrite (ip_unlock_spec _ _ _ (put_get _ _ _)), put_put by done.
    destruct port; simpl in *; by subst.
  - rewrite (ip_unlock_spec _ _ _ (put_get _ _ _)), put_put by done.
    destruct port; simpl in *; by subst.
Qed.

(** The port after its last send right has gone. *)
Definition answered (port : ipc_port) : ipc_port := set_ip_nsrequest port IP_NULL.

Definition unlocked (st : pstate) (p : Z) (port : ipc_port) : pstate :=
  if ip_references port =? 0 then with_ports st (delete p) else put st p port.

Lemma release_send_eq st p port :
  ps_ports st !! p = Some port → ip_locked port = false →
  ipc_port_release_send st p =
    if IP_VALID p && (0 <? ip_references port) && (ip_references port <=? IO_MAX_REFERENCES) then
      let port1 := referenced port (-1) in
      if ip_active port then
        if 0 <? ip_srights port then
          let port2 := set_ip_srights port1 (ip_srights port - 1) in
          if (ip_srights port - 1 =? 0) && negb (ip_nsrequest port =? IP_NULL)
          then Ok (notify (put (ptick st) p (answered port2))
            (ipc_notify_no_senders (ip_nsrequest port) (ip_mscount port)))
          else Ok (put (ptick st) p port2)
        else Fault FAssert
      else Ok (unlocked (ptick st) p port1)
    else Fault FAssert.
Proof.
  intros Hp Hl. unfold ipc_port_release_send. destruct (IP_VALID p); ostep; [|done].
  rewrite (ip_lock_quiet st p port) by done. ostep.
  rewrite (release_eq _ _ _ (put_get _ _ _)). simpl ip_references.
  destruct ((0 <? ip_references port) && (ip_references port <=? IO_MAX_REFERENCES)); ostep; [|done].
  rewrite put_put. unfold pget at 1. rewrite put_get. ostep. cbv zeta.
  destruct (ip_active port) eqn:Ha; cbn [ip_active referenced set_ip_references set_ip_locked];
    rewrite Ha; ostep.
  - cbn [ip_srights ip_nsrequest ip_mscount referenced set_ip_references set_ip_locked]. destruct (0 <? ip_srights port); ostep; [|done].
    rewrite (pmod_spec _ _ _ _ (put_get _ _ _)), put_put. ostep.
    destruct (_ && _).
    + rewrite (pmod_spec _ _ _ _ (put_get _ _ _)), put_put. ostep.
      rewrite (ip_unlock_spec _ _ _ (put_get _ _ _)), put_put by done. ostep.
      destruct port; simpl in *; by subst.
    + rewrite (ip_unlock_spec _ _ _ (put_get _ _ _)), put_put by done.
      destruct port; simpl in *; by subst.
  - rewrite (ip_check_unlock_spec _ _ _ (put_get _ _ _)) by done. simpl ip_references. unfold unlocked.
    simpl ip_references. case_match.
    + unfold put, with_ports. simpl. by rewrite delete_insert_eq.
    + rewrite put_put. destruct port; simpl in *; by subst.
Qed.

Lemma make_sonce_eq st p port :
  ps_ports st !! p = Some port → ip_locked port = false →
  ipc_port_make_sonce st p =
    if IP_VALID p && ip_active port && (ip_references port <? IO_MAX_REFERENCES)
    then Ok (put (ptick st) p
      (referenced (set_ip_sorights port (u32 (ip_sorights port + 1))) 1))
    else Fault FAssert.
Proof.
  intros Hp Hl. unfold ipc_port_make_sonce. destruct (IP_VALID p); ostep; [|done].
  rewrite (ip_lock_quiet st p port) by done. ostep. unfold pget at 1. rewrite put_get. ostep.
  destruct (ip_active port) eqn:Ha; cbn [ip_active set_ip_locked]; rewrite Ha; ostep; [|done].
  rewrite (pmod_spec _ _ _ _ (put_get _ _ _)), put_put. ostep.
  rewrite (reference_eq _ _ _ (put_get _ _ _)). simpl ip_references.
  destruct (ip_references port <? IO_MAX_REFERENCES); ostep; [|done].
  rewrite put_put, (ip_unlock_spec _ _ _ (put_get _ _ _)), put_put by done.
  destruct port; simpl in *; by subst.
Qed.

Lemma release_sonce_eq st p port :
  ps_ports st !! p = Some port → ip_locked port = false →
  ipc_port_release_sonce st p =
    if IP_VALID p && (0 <? ip_sorights port) &&
       ((0 <? ip_references port) && (ip_references port <=? IO_MAX_REFERENCES)) then
      let port1 := referenced (set_ip_sorights port (ip_sorights port - 1)) (-1) in
      Ok (if ip_active port then put (ptick st) p port1 else unlocked (ptick st) p port1)
    else Fault FAssert.
Proof.
  intros Hp Hl. unfold ipc_port_release_sonce. destruct (IP_VALID p); ostep; [|done].
  rewrite (ip_lock_quiet st p port) by done. ostep. unfold pget at 1. rewrite put_get. ostep.
  cbn [ip_sorights ip_active set_ip_locked]. destruct (0 <? ip_sorights port); ostep; [|done].
  rewrite (pmod_spec _ _ _ _ (put_get _ _ _)), put_put. ostep.
  rewrite (release_eq _ _ _ (put_get _ _ _)). simpl ip_references.
  destruct ((0 <? ip_references port) && (ip_references port <=? IO_MAX_REFERENCES)); ostep; [|done].
  rewrite put_put. destruct (ip_active port) eqn:Ha; ostep.
  - rewrite (ip_unlock_spec _ _ _ (put_get _ _ _)), put_put by done. destruct port; simpl in *; by subst.
  - rewrite (ip_check_unlock_spec _ _ _ (put_get _ _ _)) by done. unfold unlocked.
    simpl ip_references. case_match.
    + unfold put, with_ports. simpl. by rewrite delete_insert_eq.
    + rewrite put_put. destruct port; simpl in *; by subst.
Qed.

Lemma nsrequest_eq st p port sync nreq :
  ps_ports st !! p = Some port → ip_locked port = true →
  ipc_port_nsrequest st p sync nreq =
    if ip_active port then
      if (ip_srights port =? 0) && (sync <=? ip_mscount port) && negb (nreq =? IP_NULL)
      then Ok (notify (put st p (set_ip_locked (answered port) false))
        (ipc_notify_no_senders nreq (ip_mscount port)), ip_nsrequest port)
      else Ok (put st p (set_ip_locked (set_ip_nsrequest port nreq) false), ip_nsrequest port)
    else Fault FAssert.
Proof.
  intros Hp Hl. unfold ipc_port_nsrequest. unfold pget at 1. rewrite Hp. ostep.
  destruct (ip_active port); ostep; [|done]. destruct (_ && _ && _).
  - rewrite (pmod_spec _ _ port) by done. ostep.
    rewrite (ip_unlock_spec _ _ _ (put_get _ _ _)), put_put by done. done.
  - rewrite (pmod_spec _ _ port) by done. ostep.
    rewrite (ip_unlock_spec _ _ _ (put_get _ _ _)), put_put by done. done.
Qed.

(** ** The protocol

    The state of the ports, and the [sync] of the no-senders request that is
    registered. *)

Inductive port_step (p : Z) : pstate * Z → pstate * Z → Prop :=
  | step_make_send st st' y :
      ipc_port_make_send st p = Ok st' → port_step p (st, y) (st', y)
  | step_copy_send st st' r y :
      ipc_port_copy_send st p = Ok (st', r) → port_step p (st, y) (st', y)
  | step_release_send st st' y :
      ipc_port_release_send st p = Ok st' → port_step p (st, y) (st', y)
  | step_make_sonce st st' y :
      ipc_port_make_sonce st p = Ok st' → port_step p (st, y) (st', y)
  | step_release_sonce st st' y :
      ipc_port_release_sonce st p = Ok st' → port_step p (st, y) (st', y)
  | step_nsrequest st st1 st' r y sync nreq :
      ip_lock st p = Ok st1 → ipc_port_nsrequest st1 p sync nreq = Ok (st', r) →
      port_step p (st, y) (st', sync).

(** Rights are backed by references, and a request that is pending waits for
    send rights to go or for the make-send count to reach [sync]. *)
Record port_ok (port : ipc_port) (sync : Z) : Prop := {
  po_srights : 0 ≤ ip_srights port;
  po_sorights : 0 ≤ ip_sorights port;
  po_refs : ip_srights port + ip_sorights port ≤ ip_references port ≤ IO_MAX_REFERENCES;
  po_pending : ip_nsrequest port ≠ IP_NULL → 0 < ip_srights port ∨ ip_mscount port < sync;
}.

Definition port_inv (sync : Z) (port : ipc_port) : Prop :=
  ip_locked port = false ∧ (ip_active port = true → port_ok port sync).

Definition ports_inv (p : Z) (s : pstate * Z) : Prop :=
  ∀ port, ps_ports s.1 !! p = Some port → port_inv s.2 port.

Lemma put_inv st p port y : port_inv y port → ports_inv p (put st p port, y).
Proof. intros Hi port' Hp'. cbn [fst snd] in *. rewrite put_get in Hp'. by injection Hp' as <-. Qed.

Lemma notify_inv st p n y : ports_inv p (st, y) → ports_inv p (notify st n, y).
Proof. done. Qed.

Lemma unlocked_inv st p port y : port_inv y port → ports_inv p (unlocked st p port, y).
Proof.
  intros Hi. unfold unlocked. case_match; [|by apply put_inv]. intros port' Hp'. simpl in Hp'.
  by rewrite lookup_delete_eq in Hp'.
Qed.

Lemma u32_succ x : 0 ≤ x < IO_MAX_REFERENCES → u32 (x + 1) = x + 1.
Proof. unfold IO_MAX_REFERENCES. intros. apply u32_small. unfold is_u32. lia. Qed.

(** One more right of a kind, one less, and another request. *)
Lemma sent_more_inv y port m :
  port_inv y port → ip_references port < IO_MAX_REFERENCES →
  port_inv y (referenced (sent_more (set_ip_mscount port m)) 1).
Proof.
  intros [Hl Hok] Hr. split; [done|]. intros Ha. destruct (Hok Ha) as [Hs Hso Hrf Hpe].
  split; simpl in *; rewrite ?u32_succ by lia; lia.
Qed.

Lemma sent_less_inv y port :
  port_inv y port → ip_active port = true → 0 < ip_srights port →
  (ip_srights port - 1 = 0 → ip_nsrequest port = IP_NULL) →
  port_inv y (set_ip_srights (referenced port (-1)) (ip_srights port - 1)).
Proof.
  intros [Hl Hok] Ha Hpos Hns. split; [done|]. intros _. destruct (Hok Ha) as [Hs Hso Hrf Hpe].
  split; simpl in *; lia.
Qed.

Lemma answered_inv y port :
  ip_locked port = false →
  (ip_active port = true → 0 ≤ ip_srights port ∧ 0 ≤ ip_sorights port ∧
     ip_srights port + ip_sorights port ≤ ip_references port ≤ IO_MAX_REFERENCES) →
  port_inv y (answered port).
Proof.
  intros Hl Hok. split; [done|]. intros Ha. destruct (Hok Ha) as (? & ? & ?). split; simpl; done.
Qed.

Lemma sonce_inv y port k :
  port_inv y port → -1 ≤ k ≤ 1 → (ip_active port = true → 0 ≤ ip_sorights port + k) →
  ip_references port + k ≤ IO_MAX_REFERENCES →
  port_inv y (referenced (set_ip_sorights port (ip_sorights port + k)) k).
Proof.
  intros [Hl Hok] Hk Hso Hr. split; [done|]. intros Ha. specialize (Hso Ha).
  destruct (Hok Ha) as [Hs Hso' Hrf Hpe]. split; simpl in *; lia.
Qed.

Lemma dead_inv y port port' :
  port_inv y port → ip_active port = false → ip_locked port' = ip_locked port →
  ip_active port' = ip_active port → port_inv y port'.
Proof. intros [Hl _] Ha Hl' Ha'. split; [congruence|]. intros. congruence. Qed.

Lemma lock_None st p : ps_ports st !! p = None → ip_lock st p = Fault FDeref.
Proof. intros Hn. unfold ip_lock, pget. by rewrite Hn. Qed.

(** *** The steps *)

Section steps.
Context (p : Z) (y : Z) (st : pstate).
Hypothesis Hv : IP_VALID p = true.
Hypothesis Hinv : ports_inv p (st, y).

Lemma make_send_inv st' : ipc_port_make_send st p = Ok st' → ports_inv p (st', y).
Proof.
  destruct (ps_ports st !! p) as [port|] eqn:Hp.
  2:{ unfold ipc_port_make_send. rewrite Hv, lock_None by done. done. }
  pose proof (Hinv port Hp) as [Hl Hok]. rewrite (make_send_eq st p port) by done.
  destruct (_ && _ && _) eqn:E; [|done]. apply andb_prop in E as [_ Hr%Z.ltb_lt].
  intros [= <-]. by apply put_inv, sent_more_inv.
Qed.

Lemma copy_send_inv st' r : ipc_port_copy_send st p = Ok (st', r) → ports_inv p (st', y).
Proof.
  destruct (ps_ports st !! p) as [port|] eqn:Hp.
  2:{ unfold ipc_port_copy_send. rewrite Hv, lock_None by done. done. }
  pose proof (Hinv port Hp) as Hi. rewrite (copy_send_eq st p port) by (done || apply Hi).
  destruct (ip_active port).
  - destruct (_ && _) eqn:E; [|done]. apply andb_prop in E as [_ Hr%Z.ltb_lt].
    intros [= <- _]. apply put_inv. pose proof (sent_more_inv y port (ip_mscount port) Hi Hr) as Hx.
    by destruct port.
  - intros [= <- _]. by apply put_inv.
Qed.

Lemma release_send_inv st' : ipc_port_release_send st p = Ok st' → ports_inv p (st', y).
Proof.
  destruct (ps_ports st !! p) as [port|] eqn:Hp.
  2:{ unfold ipc_port_release_send. rewrite Hv, lock_None by done. done. }
  pose proof (Hinv port Hp) as Hi. rewrite (release_send_eq st p port) by (done || apply Hi).
  destruct (_ && _ && _); [|done]. cbv zeta. destruct (ip_active port) eqn:Ha.
  2:{ intros [= <-]. by eapply unlocked_inv, dead_inv. }
  destruct (Z.ltb_spec 0 (ip_srights port)) as [Hpos|]; [|done].
  destruct (Z.eqb_spec (ip_srights port - 1) 0) as [Hz|Hz].
  - destruct (Z.eqb_spec (ip_nsrequest port) IP_NULL) as [Hn|Hn]; simpl andb; intros [= <-].
    + by apply put_inv, sent_less_inv.
    + apply notify_inv, put_inv, answered_inv; [apply Hi|]. intros _.
      destruct (proj2 Hi Ha) as [? ? ? _]. simpl. lia.
  - intros [= <-]. by apply put_inv, sent_less_inv.
Qed.

Lemma make_sonce_inv st' : ipc_port_make_sonce st p = Ok st' → ports_inv p (st', y).
Proof.
  destruct (ps_ports st !! p) as [port|] eqn:Hp.
  2:{ unfold ipc_port_make_sonce. rewrite Hv, lock_None by done. done. }
  pose proof (Hinv port Hp) as Hi. rewrite (make_sonce_eq st p port) by (done || apply Hi).
  destruct (_ && _ && _) eqn:E; [|done]. apply andb_prop in E as [[_ Ha]%andb_prop Hr%Z.ltb_lt].
  destruct (proj2 Hi Ha) as [? ? ? _]. rewrite u32_succ by lia.
  intros [= <-]. apply put_inv, sonce_inv; [done|lia|lia|lia].
Qed.

Lemma release_sonce_inv st' : ipc_port_release_sonce st p = Ok st' → ports_inv p (st', y).
Proof.
  destruct (ps_ports st !! p) as [port|] eqn:Hp.
  2:{ unfold ipc_port_release_sonce. rewrite Hv, lock_None by done. done. }
  pose proof (Hinv port Hp) as Hi. rewrite (release_sonce_eq st p port) by (done || apply Hi).
  destruct (_ && _) eqn:E; [|done].
  apply andb_prop in E as [[_ Hs%Z.ltb_lt]%andb_prop [_ Hr%Z.leb_le]%andb_prop].
  cbv zeta. destruct (ip_active port) eqn:Ha; intros [= <-].
  - apply put_inv, (sonce_inv y port (-1)); [done|lia|lia|lia].
  - by eapply unlocked_inv, dead_inv.
Qed.

Lemma nsrequest_inv st1 st' r sync nreq :
  ip_lock st p = Ok st1 → ipc_port_nsrequest st1 p sync nreq = Ok (st', r) → ports_inv p (st', sync).
Proof.
  destruct (ps_ports st !! p) as [port|] eqn:Hp; [|by rewrite lock_None].
  pose proof (Hinv port Hp) as [Hl Hok]. rewrite (ip_lock_quiet st p port) by done.
  intros [= <-]. rewrite (nsrequest_eq _ _ _ _ _ (put_get _ _ _)) by done.
  cbn [ip_active ip_srights ip_mscount ip_nsrequest set_ip_locked].
  destruct (ip_active port) eqn:Ha; [|done]. destruct (Hok eq_refl) as [Hs Hso Hrf _].
  destruct (_ && _ && _) eqn:E; intros [= <- _]; rewrite put_put.
  - apply notify_inv, put_inv, (answered_inv _ (set_ip_locked port false)); [done|]. by intros _.
  - apply put_inv. split; [done|]. intros _. split; simpl; try done. intros Hn.
    destruct (Z.eqb_spec (ip_srights port) 0); [|lia]. simpl in E.
    destruct (Z.leb_spec sync (ip_mscount port)); [|by right]. simpl in E.
    by apply negb_false_iff, Z.eqb_eq in E.
Qed.
End steps.

(** C25. Along any sequence of make-send, copy-send, release-send,
    make-send-once, release-send-once and no-senders requests, the counts
    of rights are backed by references and a pending no-senders request
    waits for a send right or for the make-send count to reach its sync
    value. *)
Theorem port_rights_invariant p s s' :
  IP_VALID p = true → ports_inv p s → rtc (port_step p) s s' → ports_inv p s'.
Proof.
  intros Hv Hi Hr. induction Hr as [|s s1 s' Hs _ IH]; [done|]. apply IH.
  destruct Hs; [by eapply make_send_inv|by eapply copy_send_inv|by eapply release_send_inv
    |by eapply make_sonce_inv|by eapply release_sonce_inv|by eapply nsrequest_inv].
Qed.

(** ** When the notification is sent *)

(** The operations by name. *)
Inductive port_op := Make_send | Copy_send | Release_send | Make_sonce | Release_sonce | Request (sync nreq : Z).

Definition perform (op : port_op) (st : pstate) (p : Z) : outcome pstate :=
  match op with
  | Make_send => ipc_port_make_send st p
  | Copy_send => '(st, _) ← ipc_port_copy_send st p; Ok st
  | Release_send => ipc_port_release_send st p
  | Make_sonce => ipc_port_make_sonce st p
  | Release_sonce => ipc_port_release_sonce st p
  | Request sync nreq => st ← ip_lock st p; '(st, _) ← ipc_port_nsrequest st p sync nreq; Ok st
  end.

(** What the caller has: a right to give up, a port to make rights for. *)
Definition may_perform (op : port_op) (port : ipc_port) : Prop :=
  0 < ip_references port < IO_MAX_REFERENCES ∧
  match op with
  | Make_send | Make_sonce | Request _ _ => ip_active port = true
  | Copy_send | Release_send => ip_active port = true → 0 < ip_srights port
  | Release_sonce => 0 < ip_sorights port
  end.

(** The notification that is due: to the request on record when the last
    send right is released, to the new request when it need not wait. *)
Definition no_senders_due (op : port_op) (port : ipc_port) : list notification :=
  match op with
  | Release_send =>
    if ip_active port && (ip_srights port =? 1) && negb (ip_nsrequest port =? IP_NULL)
    then [ipc_notify_no_senders (ip_nsrequest port) (ip_mscount port)] else []
  | Request sync nreq =>
    if (ip_srights port =? 0) && (sync <=? ip_mscount port) && negb (nreq =? IP_NULL)
    then [ipc_notify_no_senders nreq (ip_mscount port)] else []
  | _ => []
  end.

(** The request on record afterwards. *)
Definition request_left (op : port_op) (port : ipc_port) : Z :=
  match no_senders_due op port, op with
  | _ :: _, _ => IP_NULL
  | [], Request _ nreq => nreq
  | [], _ => ip_nsrequest port
  end.


(** A send right made and released again. *)
Theorem send_right_roundtrip st p port :
  IP_VALID p = true → ps_ports st !! p = Some port → ip_locked port = false →
  ip_active port = true → 0 ≤ ip_srights port → 0 ≤ ip_references port < IO_MAX_REFERENCES →
  ip_srights port ≤ ip_references port →
  ∃ st1 st2, ipc_port_make_send st p = Ok st1 ∧ ipc_port_release_send st1 p = Ok st2 ∧
    let port' := set_ip_mscount port (u32 (ip_mscount port + 1)) in
    if (ip_srights port =? 0) && negb (ip_nsrequest port =? IP_NULL)
    then ps_ports st2 = <[p := answered port']> (ps_ports st) ∧
      ps_notes st2 = ipc_notify_no_senders (ip_nsrequest port) (ip_mscount port') :: ps_notes st
    else ps_ports st2 = <[p := port']> (ps_ports st) ∧ ps_notes st2 = ps_notes st.
Proof.
  intros Hv Hp Hl Ha Hs Hr Hsr. rewrite (make_send_eq st p port), Hv, Ha by done.
  rewrite (proj2 (Z.ltb_lt _ _)) by lia. simpl andb. eexists. 
  set (port1 := referenced _ 1). set (st1 := put (ptick st) p port1).
  assert (ps_ports st1 !! p = Some port1) as Hp1 by apply put_get.
  assert (ip_srights port1 = ip_srights port + 1) as Hs1 by (apply u32_succ; lia).
  rewrite (release_send_eq st1 p port1), Hv by done. cbv zeta.
  change (ip_references port1) with (ip_references port + 1). rewrite Hs1.
  change (ip_active port1) with (ip_active port). rewrite Ha.
  change (ip_nsrequest port1) with (ip_nsrequest port).
  rewrite (proj2 (Z.ltb_lt 0 (ip_references port + 1))), (proj2 (Z.leb_le _ _)) by lia. simpl andb.
  rewrite (proj2 (Z.ltb_lt 0 (ip_srights port + 1))) by lia.
  replace (ip_srights port + 1 - 1) with (ip_srights port) by lia.
  assert (set_ip_srights (referenced port1 (-1)) (ip_srights port) =
    set_ip_mscount port (u32 (ip_mscount port + 1))) as ->.
  { unfold port1, referenced, sent_more, set_ip_references, set_ip_srights, set_ip_mscount. simpl.
    f_equal. lia. }
  destruct (_ && _); eexists; (split; [done|]); (split; [done|]); simpl; by rewrite insert_insert_eq.
Qed.

(** ** Timestamps *)

Theorem timestamp_order t d :
  is_u32 t → 0 < d < 2 ^ 31 →
  IP_TIMESTAMP_ORDER t (u32 (t + d)) = true ∧ IP_TIMESTAMP_ORDER (u32 (t + d)) t = false.
Proof.
  unfold is_u32, IP_TIMESTAMP_ORDER, u32. intros Ht Hd. rewrite Z.leb_le, Z.leb_gt.
  Z.div_mod_to_equations. lia.
Qed.

(** ** The queue limit *)

(** A sender that may try again. *)
Definition resumed (th : Z) : wakeup := WK th MACH_MSG_SUCCESS None.

Lemma qlimit_wakeup_eq n st blocked :
  let '(st', blocked') := qlimit_wakeup n st blocked in
  ps_ports st' = ps_ports st ∧ ps_woken st' = reverse (resumed <$> take n blocked) ++ ps_woken st ∧
  blocked' = drop n blocked.
Proof.
  revert st blocked. induction n as [|n IH]; intros st [|th blocked]; simpl; try done.
  specialize (IH (thread_go st (resumed th)) blocked). destruct (qlimit_wakeup _ _ _) as [st' blocked'].
  destruct IH as (-> & -> & ->). split_and!; [done| |done]. simpl.
  by rewrite reverse_cons, <-app_assoc.
Qed.

Theorem set_qlimit_correct st p port qlimit :
  ps_ports st !! p = Some port → ip_active port = true →
  let k := Z.to_nat (qlimit - ip_qlimit port) in
  ∃ st', ipc_port_set_qlimit st p qlimit = Ok st' ∧
    ps_ports st' = <[p := set_ip_qlimit (set_ip_blocked port (drop k (ip_blocked port))) qlimit]> (ps_ports st) ∧
    ps_woken st' = reverse (resumed <$> take k (ip_blocked port)) ++ ps_woken st.
Proof.
  intros Hp Ha k. unfold ipc_port_set_qlimit. unfold pget at 1. rewrite Hp. ostep. rewrite Ha. ostep.
  destruct (Z.ltb_spec (ip_qlimit port) qlimit) as [Hlt|Hge].
  - fold k. pose proof (qlimit_wakeup_eq k st (ip_blocked port)) as Hq.
    destruct (qlimit_wakeup k st (ip_blocked port)) as [st1 blocked]. destruct Hq as (Hp1 & Hw & ->).
    rewrite (pmod_spec st1 p port) by (by rewrite Hp1). eexists. split; [done|]. simpl. by rewrite Hp1.
  - assert (k = 0%nat) as -> by lia. rewrite (pmod_spec st p port) by done. eexists. split; [done|].
    simpl. by destruct port.
Qed.
End rights.
