(* ===== verification/IpcCircular.v ===== *)
(** * Ports in transit never form a circle (ipc/ipc_port.c)

    [ipc_port_check_circularity] locks the chain of destinations that starts
    at [dest], and makes [port] point to [dest] unless that would close a
    circle.  The locks it takes are released on every path. *)

From stdpp Require Import prelude list gmap.
From S2P Require Import Prelude MachPort IpcTypes IpcTable IpcPort IpcDnreq IpcPortRights.

(** ** Destinations *)

Section graph.
Context (ports : gmap Z ipc_port).

Definition edge (a b : Z) : Prop :=
  ∃ port, ports !! a = Some port ∧ in_transit port = true ∧ ip_destination port = b.

Definition acyclic : Prop := ∀ a, ¬ tc edge a a.

(** A port in transit holds a reference for its destination. *)
Definition closed : Prop := ∀ a b, edge a b → is_Some (ports !! b).

(** The chain from [a] to its end [b]. *)
Inductive chain : Z → list Z → Z → Prop :=
  | chain_end a port : ports !! a = Some port → in_transit port = false → chain a [a] a
  | chain_step a port l b : ports !! a = Some port → in_transit port = true →
      chain (ip_destination port) l b → chain a (a :: l) b.

Inductive path : Z → list Z → Prop :=
  | path_one a : is_Some (ports !! a) → path a [a]
  | path_cons a b l : edge a b → path b l → path a (a :: l).

Lemma path_reach a l x : path a l → x ∈ l → rtc edge a x.
Proof.
  induction 1 as [a Ha|a b l Hab Hp IH].
  - intros ->%list_elem_of_singleton. done.
  - intros [->|Hx]%elem_of_cons; [done|]. eapply rtc_l; [done|by apply IH].
Qed.

Lemma path_dom a l x : path a l → x ∈ l → is_Some (ports !! x).
Proof.
  induction 1 as [a Ha|a b l (port & Ha & _) Hp IH].
  - by intros ->%list_elem_of_singleton.
  - intros [->|Hx]%elem_of_cons; [by eexists|by apply IH].
Qed.

Lemma path_NoDup a l : acyclic → path a l → NoDup l.
Proof.
  intros Hac. induction 1 as [a Ha|a b l Hab Hp IH]; [apply NoDup_singleton|].
  constructor; [|done]. intros Hin. apply (Hac a). eapply tc_rtc_r; [by apply tc_once|].
  by eapply path_reach.
Qed.

Lemma path_length a l : acyclic → path a l → (length l ≤ size ports)%nat.
Proof.
  intros Hac Hp. rewrite <-(size_dom (D := gset Z)).
  rewrite <-(size_list_to_set (C := gset Z) l) by (by eapply path_NoDup).
  apply subseteq_size. intros x Hx%elem_of_list_to_set. apply elem_of_dom. by eapply path_dom.
Qed.

Lemma path_or_chain n : ∀ a, closed → is_Some (ports !! a) →
  (∃ l b, chain a l b ∧ (length l ≤ n)%nat) ∨ ∃ l, path a l ∧ length l = S n.
Proof.
  induction n as [|n IH]; intros a Hcl Ha; [right; exists [a]; by split; [apply path_one|]|].
  destruct Ha as (port & Hp). destruct (in_transit port) eqn:Ht.
  - assert (edge a (ip_destination port)) as He by (by exists port).
    destruct (IH (ip_destination port) Hcl (Hcl _ _ He)) as [(l & b & Hc & Hn)|(l & Hl & Hn)].
    + left. exists (a :: l), b. split; [by eapply chain_step|simpl; lia].
    + right. exists (a :: l). split; [by eapply path_cons|simpl; lia].
  - left. exists [a], a. split; [by eapply chain_end|simpl; lia].
Qed.

(** Every chain ends. *)
Lemma chain_exists a :
  acyclic → closed → is_Some (ports !! a) →
  ∃ l b, chain a l b ∧ (length l ≤ size ports)%nat.
Proof.
  intros Hac Hcl Ha. destruct (path_or_chain (size ports) a Hcl Ha) as [?|(l & Hl & Hn)]; [done|].
  pose proof (path_length _ _ Hac Hl). lia.
Qed.

Lemma chain_path a l b : chain a l b → path a l.
Proof.
  induction 1 as [a port Hp Ht|a port l b Hp Ht Hc IH]; [apply path_one; by eexists|].
  eapply path_cons; [|done]. by exists port.
Qed.

Lemma chain_last a l b : chain a l b → b ∈ l ∧ ∃ port, ports !! b = Some port ∧ in_transit port = false.
Proof.
  induction 1 as [a port Hp Ht|a port l b Hp Ht Hc IH].
  - split; [by left|eauto].
  - destruct IH as [? ?]. split; [by right|done].
Qed.

Lemma chain_head a l b : chain a l b → a ∈ l.
Proof. destruct 1; by left. Qed.

(** A member that is not in transit is the end. *)
Lemma chain_stop a l b x port :
  chain a l b → x ∈ l → ports !! x = Some port → in_transit port = false → x = b.
Proof.
  induction 1 as [a port' Hp Ht|a port' l b Hp Ht Hc IH].
  - by intros ->%list_elem_of_singleton.
  - intros [->|Hx]%elem_of_cons Hp' Ht'; [congruence|auto].
Qed.

(** The chain is what can be reached. *)
Lemma chain_closed a l b x y : chain a l b → x ∈ l → edge x y → y ∈ l.
Proof.
  induction 1 as [a port Hp Ht|a port l b Hp Ht Hc IH].
  - intros ->%list_elem_of_singleton (port' & Hp' & Ht' & _). congruence.
  - intros [->|Hx]%elem_of_cons He.
    + destruct He as (port' & Hp' & _ & <-). assert (port' = port) as -> by congruence.
      right. by eapply chain_head.
    + right. auto.
Qed.

Lemma chain_reach a l b x : chain a l b → rtc edge a x ↔ x ∈ l.
Proof.
  intros Hc. split; [|intros; eapply path_reach; [by eapply chain_path|done]].
  intros Hr. pose proof (chain_head _ _ _ Hc) as Ha. revert Ha.
  assert (∀ y z, y ∈ l → edge y z → z ∈ l) as Hcl by (intros y z; by eapply chain_closed).
  clear Hc. induction Hr as [|y z x Hyz _ IH]; [done|]. intros Hy. eauto.
Qed.
End graph.

(** ** Locks *)

(** The ports with exactly [L] locked. *)
Definition locked_in (L : gset Z) (ports : gmap Z ipc_port) : gmap Z ipc_port :=
  map_imap (λ q port, Some (set_ip_locked port (bool_decide (q ∈ L)))) ports.

Lemma locked_in_lookup L ports q :
  locked_in L ports !! q = (λ port, set_ip_locked port (bool_decide (q ∈ L))) <$> ports !! q.
Proof. unfold locked_in. rewrite map_lookup_imap. by destruct (ports !! q). Qed.

Lemma locked_in_insert L L' ports q port b :
  ports !! q = Some port → bool_decide (q ∈ L') = b →
  (∀ x, x ≠ q → x ∈ L' ↔ x ∈ L) →
  <[q := set_ip_locked (set_ip_locked port (bool_decide (q ∈ L))) b]> (locked_in L ports) = locked_in L' ports.
Proof.
  intros Hq Hb Hx. apply map_eq. intros x. rewrite locked_in_lookup.
  destruct (decide (x = q)) as [->|Hne].
  - rewrite lookup_insert_eq, Hq. simpl. by rewrite Hb.
  - rewrite lookup_insert_ne, locked_in_lookup by done.
    assert (bool_decide (x ∈ L') = bool_decide (x ∈ L)) as -> by (apply bool_decide_ext; auto). done.
Qed.

Lemma locked_in_none ports :
  (∀ q port, ports !! q = Some port → ip_locked port = false) → locked_in ∅ ports = ports.
Proof.
  intros Hu. apply map_eq. intros x. rewrite locked_in_lookup.
  destruct (ports !! x) as [port|] eqn:E; [|done]. simpl. f_equal.
  rewrite bool_decide_false by set_solver. specialize (Hu x port E). destruct port; simpl in *; by subst.
Qed.

Lemma size_locked_in L ports : size (locked_in L ports) = size ports.
Proof.
  rewrite <-!(size_dom (D := gset Z)). f_equal. apply set_eq. intros x.
  rewrite !elem_of_dom, locked_in_lookup, fmap_is_Some. done.
Qed.

(** The state up to the ports and the clock. *)
Definition same_rest (st st' : pstate) : Prop :=
  ps_timestamp st' = ps_timestamp st ∧ ps_multiple st' = ps_multiple st ∧
  ps_notes st' = ps_notes st ∧ ps_woken st' = ps_woken st.

#[export] Instance same_rest_preorder : PreOrder same_rest.
Proof.
  split; [done|]. intros st1 st2 st3 (? & ? & ? & ?) (? & ? & ? & ?). split_and!; congruence.
Qed.

(** A step that leaves [L] locked. *)
Definition steps_to (st : pstate) (L : gset Z) (ports : gmap Z ipc_port) (st' : pstate) : Prop :=
  ps_ports st' = locked_in L ports ∧ same_rest st st'.

Section circular.
Context `{W : pworld, !quiet}.

Lemma lock_step st L ports q port :
  ps_ports st = locked_in L ports → ports !! q = Some port → q ∉ L →
  ∃ st', ip_lock st q = Ok st' ∧ steps_to st ({[q]} ∪ L) ports st' .
Proof.
  intros Hst Hq Hn. rewrite (ip_lock_quiet st q (set_ip_locked port (bool_decide (q ∈ L)))).
  - eexists. split; [done|]. split; [|done]. simpl. rewrite Hst. apply locked_in_insert; [done| |set_solver].
    apply bool_decide_true. set_solver.
  - by rewrite Hst, locked_in_lookup, Hq.
  - simpl. by rewrite bool_decide_false.
Qed.

Lemma unlock_step st L ports q port :
  ps_ports st = locked_in L ports → ports !! q = Some port → q ∈ L →
  ∃ st', ip_unlock st q = Ok st' ∧ steps_to st (L ∖ {[q]}) ports st'.
Proof.
  intros Hst Hq Hn. rewrite (ip_unlock_spec st q (set_ip_locked port (bool_decide (q ∈ L)))).
  - eexists. split; [done|]. split; [|done]. simpl. rewrite Hst. apply locked_in_insert; [done| |set_solver].
    apply bool_decide_false. set_solver.
  - by rewrite Hst, locked_in_lookup, Hq.
  - simpl. by rewrite bool_decide_true.
Qed.

Lemma pget_locked st L ports q port :
  ps_ports st = locked_in L ports → ports !! q = Some port →
  pget st q = Ok (set_ip_locked port (bool_decide (q ∈ L))).
Proof. intros Hst Hq. unfold pget. by rewrite Hst, locked_in_lookup, Hq. Qed.

(** ** The loops *)

Lemma chain_lock_spec ports a l b :
  chain ports a l b → NoDup l → ∀ fuel st L,
  ps_ports st = locked_in L ports → (∀ q, q ∈ l → q ∉ L) → (length l ≤ fuel)%nat →
  ∃ st', chain_lock fuel st a = Ok (st', b) ∧ steps_to st (list_to_set l ∪ L) ports st'.
Proof.
  induction 1 as [a port Hp Ht|a port l b Hp Ht Hc IH]; intros Hnd fuel st L Hst Hn Hf;
    (destruct fuel as [|fuel]; [simpl in Hf; lia|]); cbn [chain_lock].
  - destruct (lock_step st L ports a port) as (st1 & -> & Hs1 & Hr1); [done..|apply Hn; by left|].
    ostep. rewrite (pget_locked st1 _ ports a port) by done. ostep.
    change (in_transit (set_ip_locked port _)) with (in_transit port). rewrite Ht. ostep.
    eexists. split; [done|]. split; [|done]. rewrite Hs1. f_equal. set_solver.
  - apply NoDup_cons in Hnd as [Hni Hnd].
    destruct (lock_step st L ports a port) as (st1 & -> & Hs1 & Hr1); [done..|apply Hn; by left|].
    ostep. rewrite (pget_locked st1 _ ports a port) by done. ostep.
    change (in_transit (set_ip_locked port _)) with (in_transit port). rewrite Ht. ostep.
    change (ip_destination (set_ip_locked port _)) with (ip_destination port).
    destruct (IH Hnd fuel st1 ({[a]} ∪ L) Hs1) as (st2 & -> & Hs2 & Hr2).
    + intros q Hq Hin. apply elem_of_union in Hin as [->%elem_of_singleton|Hin]; [done|].
      apply (Hn q); [by right|done].
    + simpl in Hf. lia.
    + exists st2. split; [done|]. split; [|by etrans]. rewrite Hs2. f_equal. set_solver.
Qed.

Lemma circle_unlock_spec ports a l b port :
  chain ports a l b → NoDup l → (∀ q, q ∈ l → q ≠ IP_NULL) →
  ports !! b = Some port → ip_active port = true → ip_receiver_name port = MACH_PORT_NULL →
  ip_destination port = IP_NULL → ∀ fuel st L,
  ps_ports st = locked_in (list_to_set l ∪ L) ports → (∀ q, q ∈ l → q ∉ L) → (length l < fuel)%nat →
  ∃ st', circle_unlock fuel st a = Ok st' ∧ steps_to st L ports st'.
Proof.
  intros Hc Hnd H0 Hb Hba Hbr Hbd. induction Hc as [a port' Hp Ht|a port' l b Hp Ht Hc IH];
    intros fuel st L Hst Hn Hf; (destruct fuel as [|fuel]; [simpl in Hf; lia|]); cbn [circle_unlock];
    (rewrite (proj2 (Z.eqb_neq a IP_NULL)) by (apply H0; by left)).
  - assert (port' = port) as -> by congruence. rewrite (pget_locked st _ ports a port) by done. ostep.
    cbn [ip_active ip_receiver_name set_ip_locked]. rewrite Hba, Hbr. ostep.
    destruct (unlock_step st _ ports a port Hst Hp) as (st1 & -> & Hs1 & Hr1); [set_solver|]. ostep.
    change (ip_data (set_ip_locked port _)) with (ip_data port). rewrite Hbd.
    destruct fuel as [|fuel]; [simpl in Hf; lia|]. simpl. eexists. split; [done|]. split; [|done].
    rewrite Hs1. f_equal. specialize (Hn a ltac:(by left)). set_solver.
  - apply NoDup_cons in Hnd as [Hni Hnd]. rewrite (pget_locked st _ ports a port') by done. ostep.
    pose proof Ht as [[Ha' Hr']%andb_prop _]%andb_prop.
    cbn [ip_active ip_receiver_name set_ip_locked]. rewrite Ha', Hr'. ostep.
    destruct (unlock_step st _ ports a port' Hst Hp) as (st1 & -> & Hs1 & Hr1); [set_solver|]. ostep.
    destruct (IH Hnd ltac:(intros q Hq; apply H0; by right) Hb fuel st1 L) as (st2 & Hrun & Hs2 & Hr2).
    + rewrite Hs1. f_equal. specialize (Hn a ltac:(by left)). set_solver.
    + intros q Hq. apply Hn. by right.
    + simpl in Hf. lia.
    + exists st2. split; [exact Hrun|]. split; [done|by etrans].
Qed.

Lemma chain_unlock_spec ports a l b :
  chain ports a l b → NoDup l → ∀ fuel st L,
  ps_ports st = locked_in (list_to_set l ∪ L) ports → (∀ q, q ∈ l → q ∉ L) → (length l ≤ fuel)%nat →
  ∃ st', chain_unlock fuel st a b = Ok st' ∧ steps_to st ({[b]} ∪ L) ports st'.
Proof.
  induction 1 as [a port Hp Ht|a port l b Hp Ht Hc IH]; intros Hnd fuel st L Hst Hn Hf;
    (destruct fuel as [|fuel]; [simpl in Hf; lia|]); cbn [chain_unlock].
  - rewrite Z.eqb_refl. eexists. split; [done|]. split; [|done]. rewrite Hst. f_equal. set_solver.
  - apply NoDup_cons in Hnd as [Hni Hnd]. pose proof (chain_last _ _ _ _ Hc) as [Hbl _].
    rewrite (proj2 (Z.eqb_neq a b)) by (intros ->; done).
    rewrite (pget_locked st _ ports a port) by done. ostep.
    pose proof Ht as [[Ha' Hr']%andb_prop Hd']%andb_prop.
    cbn [ip_active ip_receiver_name ip_data set_ip_locked]. rewrite Ha', Hr', Hd'. ostep.
    destruct (unlock_step st _ ports a port Hst Hp) as (st1 & -> & Hs1 & Hr1); [set_solver|]. ostep.
    destruct (IH Hnd fuel st1 L) as (st2 & Hrun & Hs2 & Hr2).
    + rewrite Hs1. f_equal. specialize (Hn a ltac:(by left)). set_solver.
    + intros q Hq. apply Hn. by right.
    + simpl in Hf. lia.
    + exists st2. split; [exact Hrun|]. split; [done|by etrans].
Qed.

(** ** Joining the chain *)

Lemma locked_in_put L ports q port f b :
  ports !! q = Some port → bool_decide (q ∈ L) = b →
  f (set_ip_locked port b) = set_ip_locked (f port) b →
  <[q := f (set_ip_locked port b)]> (locked_in L ports) = locked_in L (<[q := f port]> ports).
Proof.
  intros Hq <- Hf. apply map_eq. intros x. rewrite locked_in_lookup.
  destruct (decide (x = q)) as [->|Hne]; [by rewrite !lookup_insert_eq, Hf|].
  by rewrite !lookup_insert_ne, locked_in_lookup by done.
Qed.

Lemma pmod_step st L ports q port f :
  ps_ports st = locked_in L ports → ports !! q = Some port →
  (∀ b, f (set_ip_locked port b) = set_ip_locked (f port) b) →
  ∃ st', pmod st q f = Ok st' ∧ steps_to st L (<[q := f port]> ports) st'.
Proof.
  intros Hst Hq Hf. rewrite (pmod_spec st q (set_ip_locked port (bool_decide (q ∈ L)))).
  - eexists. split; [done|]. split; [|done]. simpl. rewrite Hst. by apply locked_in_put.
  - by rewrite Hst, locked_in_lookup, Hq.
Qed.

Lemma chain_ext ports ports' a l b :
  chain ports a l b →
  (∀ q port, q ∈ l → ports !! q = Some port → ∃ port', ports' !! q = Some port' ∧
     in_transit port' = in_transit port ∧ ip_destination port' = ip_destination port) →
  chain ports' a l b.
Proof.
  induction 1 as [a port Hp Ht|a port l b Hp Ht Hc IH]; intros Hx.
  - destruct (Hx a port) as (port' & Hp' & Ht' & _); [by left|done|]. eapply chain_end; [done|congruence].
  - destruct (Hx a port) as (port' & Hp' & Ht' & Hd); [by left|done|].
    eapply chain_step; [done|congruence|]. rewrite Hd. apply IH. intros q port'' Hq. apply Hx. by right.
Qed.

Definition joined (ports : gmap Z ipc_port) (p dest : Z) (port dport : ipc_port) : gmap Z ipc_port :=
  <[p := set_ip_data port dest]> (<[dest := referenced dport 1]> ports).

Definition limbo (port : ipc_port) : Prop :=
  ip_active port = true ∧ ip_receiver_name port = MACH_PORT_NULL ∧ ip_destination port = IP_NULL.

Section join.
Context (ports : gmap Z ipc_port) (p dest b : Z) (port dport : ipc_port) (l : list Z).
Hypothesis Hp : ports !! p = Some port.
Hypothesis Hlimbo : limbo port.
Hypothesis Hdest : ports !! dest = Some dport.
Hypothesis Hd0 : dest ≠ IP_NULL.
Hypothesis Hchain : chain ports dest l b.
Hypothesis Hnd : NoDup l.
Hypothesis Hpl : p ∉ l.
Hypothesis Hrefs : ip_references dport < IO_MAX_REFERENCES.
Hypothesis Hlen : (length l ≤ size ports)%nat.

Lemma join_ne : p ≠ dest.
Proof. intros ->. apply Hpl. by eapply chain_head. Qed.

Lemma join_chain : chain (joined ports p dest port dport) p (p :: l) b.
Proof.
  pose proof join_ne as Hne. destruct Hlimbo as (Ha & Hr & Hdst).
  eapply chain_step; [apply lookup_insert_eq| |].
  - unfold in_transit. cbn [ip_active ip_receiver_name ip_data set_ip_data].
    rewrite Ha, Hr, (proj2 (Z.eqb_neq dest _)) by done. done.
  - simpl. eapply chain_ext; [done|]. intros q port' Hq Hp'. unfold joined.
    rewrite lookup_insert_ne by (by intros ->). destruct (decide (q = dest)) as [->|].
    + rewrite lookup_insert_eq. assert (port' = dport) as -> by congruence. by eexists.
    + rewrite lookup_insert_ne by done. by eexists.
Qed.

(** The only new edge leaves [p], for [dest]. *)
Lemma join_edge x y :
  edge (joined ports p dest port dport) x y → (x = p ∧ y = dest) ∨ (x ≠ p ∧ edge ports x y).
Proof.
  intros (port' & Hx & Ht & Hy). unfold joined in Hx. destruct (decide (x = p)) as [->|Hxp].
  - rewrite lookup_insert_eq in Hx. injection Hx as <-. left. by simpl in Hy.
  - right. split; [done|]. rewrite lookup_insert_ne in Hx by done. destruct (decide (x = dest)) as [->|].
    + rewrite lookup_insert_eq in Hx. injection Hx as <-. by exists dport.
    + rewrite lookup_insert_ne in Hx by done. by exists port'.
Qed.

Lemma join_acyclic : acyclic ports → acyclic (joined ports p dest port dport).
Proof.
  intros Hac a Hcyc. set (E := edge (joined ports p dest port dport)) in *.
  assert (∀ x y, rtc E x y → x ∈ l → y ∈ l) as Hin.
  { intros x y Hr. induction Hr as [|x z y Hxz _ IH]; [done|]. intros Hx. apply IH.
    apply join_edge in Hxz as [[-> _]|[_ Hxz]]; [done|]. by eapply (chain_closed ports). }
  assert (∀ x y, tc E x y → tc (edge ports) x y ∨ (rtc E x p ∧ rtc E dest y)) as Hsplit.
  { intros x y Ht. induction Ht as [x y Hxy|x z y Hxz Ht IH].
    - apply join_edge in Hxy as [[-> ->]|[_ Hxy]]; [by right|left; by apply tc_once].
    - pose proof Hxz as [[-> ->]|[_ Hxz']]%join_edge; [right; split; [done|by apply tc_rtc]|].
      destruct IH as [IH|[IH1 IH2]]; [left; by eapply tc_l|right]. split; [by eapply rtc_l|done]. }
  destruct (Hsplit a a Hcyc) as [Hc|[Hap Hda]]; [by apply (Hac a)|].
  apply Hpl, (Hin dest); [by etrans|by eapply chain_head].
Qed.

Lemma not_circular_spec st :
  ps_ports st = locked_in ({[p]} ∪ list_to_set l) ports →
  ∃ st', not_circular st p dest b = Ok (st', false) ∧
    steps_to st ∅ (joined ports p dest port dport) st'.
Proof.
  intros Hst. pose proof join_ne as Hne. pose proof (chain_head _ _ _ _ Hchain) as Hdl.
  pose proof join_chain as Hj. unfold not_circular.
  rewrite (pget_locked st _ ports p port) by done. ostep.
  destruct Hlimbo as (Ha & Hr & Hdst). unfold assert_limbo.
  cbn [ip_active ip_receiver_name ip_data set_ip_locked]. rewrite Ha, Hr, Hdst. ostep.
  change (IP_NULL =? IP_NULL) with true. ostep.
  assert (∃ st1, ip_reference st dest = Ok st1 ∧
    steps_to st ({[p]} ∪ list_to_set l) (<[dest := referenced dport 1]> ports) st1)
    as (st1 & -> & Hs1 & Hr1).
  { unfold ip_reference. rewrite (pget_locked st _ ports dest dport) by done. ostep.
    cbn [ip_references set_ip_locked]. rewrite (proj2 (Z.ltb_lt _ _) Hrefs). ostep.
    by apply (pmod_step st _ ports dest dport (λ port, referenced port 1)). }
  ostep. destruct (pmod_step st1 _ _ p port (λ port, set_ip_data port dest) Hs1)
    as (st2 & -> & Hs2 & Hr2); [by rewrite lookup_insert_ne|done|]. ostep.
  fold (joined ports p dest port dport) in Hs2.
  destruct (chain_unlock_spec _ _ _ _ Hj ltac:(by constructor) (S (size (ps_ports st2))) st2 ∅)
    as (st3 & -> & Hs3 & Hr3).
  { rewrite Hs2. f_equal. set_solver. }
  { set_solver. }
  { rewrite Hs2, size_locked_in. unfold joined. simpl.
    rewrite !map_size_insert_Some; [lia|done|]. by rewrite lookup_insert_ne. }
  ostep. destruct (chain_last _ _ _ _ Hj) as [_ (bport & Hb & Hbt)].
  rewrite (pget_locked st3 _ _ b bport Hs3 Hb). ostep.
  change (in_transit (set_ip_locked bport _)) with (in_transit bport). rewrite Hbt. ostep.
  destruct (unlock_step st3 _ _ b bport Hs3 Hb) as (st4 & -> & Hs4 & Hr4); [set_solver|]. ostep.
  eexists. split; [done|]. split; [rewrite Hs4; f_equal; set_solver|]. by do 3 (etrans; [done|]).
Qed.
End join.

(** The part that takes [ipc_port_multiple_lock], with [p] locked. *)
Definition slow_check (st : pstate) (p dest : Z) : outcome (pstate * bool) :=
  st ← ip_unlock st p;
  let st := set_multiple st true in
  '(st, base) ← chain_lock (S (size (ps_ports st))) st dest;
  if p =? base then
    let st := set_multiple st false in
    port ← pget st p;
    assert_limbo port;;
    st ← circle_unlock (S (S (size (ps_ports st)))) st dest;
    Ok (st, true)
  else
    st ← ip_lock st p;
    let st := set_multiple st false in
    not_circular st p dest base.

Lemma multiple_steps st st' L ports :
  steps_to (set_multiple st true) L ports st' → ps_multiple st = false →
  steps_to st L ports (set_multiple st' false).
Proof. intros [Hs (? & ? & ? & ?)] Hm. split; [done|]. split_and!; simpl in *; congruence. Qed.

Lemma slow_check_spec st ports p dest b port dport l :
  ps_ports st = locked_in {[p]} ports → ps_multiple st = false →
  ports !! p = Some port → limbo port → ports !! dest = Some dport →
  (∀ q, q ∈ l → q ≠ IP_NULL) → chain ports dest l b → NoDup l → (p ∈ l ↔ p = b) →
  ip_references dport < IO_MAX_REFERENCES → (length l ≤ size ports)%nat →
  ∃ st', slow_check st p dest = Ok (st', bool_decide (p = b)) ∧
    steps_to st ∅ (if decide (p = b) then ports else joined ports p dest port dport) st'.
Proof.
  intros Hst Hm Hp Hlim Hd H0 Hch Hnd Hpb Hrefs Hlen. unfold slow_check.
  destruct (unlock_step st _ ports p port Hst Hp) as (st1 & -> & Hs1 & Hr1); [set_solver|]. ostep.
  replace ({[p]} ∖ {[p]} : gset Z) with (∅ : gset Z) in Hs1 by set_solver.
  assert (ps_multiple st1 = false) as Hm1 by (destruct Hr1 as (_ & -> & _); done).
  destruct (chain_lock_spec _ _ _ _ Hch Hnd (S (size (ps_ports (set_multiple st1 true))))
    (set_multiple st1 true) ∅) as (st2 & -> & Hs2); [done|set_solver| |].
  { simpl. rewrite Hs1, size_locked_in. lia. }
  ostep. pose proof (multiple_steps _ _ _ _ Hs2 Hm1) as [Hs2' Hr2']. destruct Hs2 as [Hs2 Hr2].
  destruct (Z.eqb_spec p b) as [Heq|Hne].
  - rewrite bool_decide_true, decide_True by done.
    rewrite (pget_locked (set_multiple st2 false) _ ports p port) by done. ostep.
    pose proof Hlim as (Ha & Hr & Hdst). unfold assert_limbo.
    cbn [ip_active ip_receiver_name ip_data set_ip_locked]. rewrite Ha, Hr, Hdst. ostep.
    change (IP_NULL =? IP_NULL) with true. ostep. subst b.
    destruct (circle_unlock_spec _ _ _ _ port Hch Hnd H0 Hp Ha Hr Hdst
      (S (S (size (ps_ports (set_multiple st2 false))))) (set_multiple st2 false) ∅)
      as (st3 & -> & Hs3 & Hr3); [done|set_solver| |].
    { rewrite Hs2', size_locked_in. lia. }
    ostep. eexists. split; [done|]. split; [done|]. by do 2 (etrans; [done|]).
  - rewrite bool_decide_false, decide_False by done.
    destruct (lock_step st2 _ ports p port Hs2 Hp) as (st3 & -> & Hs3 & Hr3).
    { rewrite elem_of_union, elem_of_list_to_set. set_solver. }
    ostep. destruct (not_circular_spec ports p dest b port dport l Hp Hlim Hd) with (st := set_multiple st3 false)
      as (st4 & -> & Hs4 & Hr4); [apply H0; by eapply chain_head|done|done|tauto|done|done| |].
    { simpl. rewrite Hs3. f_equal. set_solver. }
    exists st4. split; [done|]. split; [done|].
    assert (same_rest st1 (set_multiple st3 false)) as Hr13.
    { destruct Hr2 as (? & _ & ? & ?), Hr3 as (? & _ & ? & ?). split_and!; simpl in *; congruence. }
    by do 2 (etrans; [done|]).
Qed.

Lemma joined_unlocked ports p dest port dport :
  (∀ q port, ports !! q = Some port → ip_locked port = false) →
  ports !! p = Some port → ports !! dest = Some dport →
  locked_in ∅ (joined ports p dest port dport) = joined ports p dest port dport.
Proof.
  intros Hall Hp Hd. apply locked_in_none. intros q port' Hq. unfold joined in Hq.
  apply lookup_insert_Some in Hq as [[<- <-]|[_ Hq]]; [exact (Hall p port Hp)|].
  apply lookup_insert_Some in Hq as [[<- <-]|[_ Hq]]; [exact (Hall dest dport Hd)|].
  exact (Hall q port' Hq).
Qed.

(** The quick check, which runs in parallel with others. *)
Lemma check_quick st p dest port dport :
  (∀ q port, ps_ports st !! q = Some port → ip_locked port = false) →
  ps_ports st !! p = Some port → ps_ports st !! dest = Some dport →
  p ≠ IP_NULL → dest ≠ IP_NULL → p ≠ dest →
  ∃ st1,
    (in_transit dport = false ∧ steps_to st ({[dest]} ∪ {[p]}) (ps_ports st) st1 ∧
      ipc_port_check_circularity st p dest = not_circular st1 p dest dest) ∨
    (steps_to st {[p]} (ps_ports st) st1 ∧
      ipc_port_check_circularity st p dest = slow_check st1 p dest).
Proof.
  intros Hall Hp Hd Hp0 Hd0 Hne. pose proof (locked_in_none _ Hall) as Hu.
  unfold ipc_port_check_circularity. rewrite !(proj2 (Z.eqb_neq _ _)) by done. ostep.
  destruct (lock_step st ∅ (ps_ports st) p port (eq_sym Hu) Hp) as (st1 & -> & Hs1 & Hr1); [set_solver|].
  rewrite (right_id_L ∅ (∪)) in Hs1. ostep. unfold ip_lock_try.
  rewrite (pget_locked st1 _ _ dest dport Hs1 Hd). ostep. cbn [ip_locked set_ip_locked].
  rewrite bool_decide_false by set_solver. ostep. destruct (pw_try (ps_clock st1) st1); ostep.
  2:{ exists (ptick st1). right. split; [by split|]. done. }
  destruct (lock_step st1 _ _ dest dport Hs1 Hd) as (st2 & -> & Hs2 & Hr2); [set_solver|]. ostep.
  rewrite (pget_locked st2 _ _ dest dport Hs2 Hd). ostep.
  change (in_transit (set_ip_locked dport _)) with (in_transit dport).
  destruct (in_transit dport) eqn:Ht; ostep.
  - destruct (unlock_step st2 _ _ dest dport Hs2 Hd) as (st3 & -> & Hs3 & Hr3); [set_solver|]. ostep.
    exists st3. right. split; [|done]. split; [|by do 2 (etrans; [done|])]. rewrite Hs3. f_equal. set_solver.
  - exists st2. left. split_and!; [done| |done]. split; [done|by etrans].
Qed.

(** C24. ipc_port_check_circularity terminates and answers TRUE exactly
    when the port is reachable from the destination along ports in transit;
    otherwise it enqueues the port after the destination with one more
    reference, and the destinations stay acyclic; every lock it takes is
    released. *)
Theorem circularity_correct st p dest port dport :
  let ports := ps_ports st in
  (∀ q port, ports !! q = Some port → q ≠ IP_NULL ∧ ip_locked port = false) →
  acyclic ports → closed ports → ports !! p = Some port → limbo port →
  ports !! dest = Some dport → ip_references dport < IO_MAX_REFERENCES →
  ps_multiple st = false →
  ∃ st' b, ipc_port_check_circularity st p dest = Ok (st', b) ∧
    (b = true ↔ rtc (edge ports) dest p) ∧ same_rest st st' ∧ acyclic (ps_ports st') ∧
    ps_ports st' = if b then ports else joined ports p dest port dport.
Proof.
  intros ports Hall Hac Hcl Hp Hlim Hd Hrefs Hm. subst ports.
  destruct (Hall p port Hp) as [Hp0 _]. destruct (Hall dest dport Hd) as [Hd0 _].
  assert (locked_in ∅ (ps_ports st) = ps_ports st) as Hu 
    by (apply locked_in_none; intros q port' Hq; by destruct (Hall q port' Hq)).
  destruct (chain_exists (ps_ports st) dest) as (l & b & Hch & Hlen); [done|done|by eexists|].
  pose proof (path_NoDup _ _ _ Hac (chain_path _ _ _ _ Hch)) as Hnd.
  pose proof (λ x, chain_reach _ _ _ _ x Hch) as Hreach.
  assert (in_transit port = false) as Hpt.
  { destruct Hlim as (Ha & Hr & Hdst). unfold in_transit. rewrite Hdst. by rewrite andb_false_r. }
  assert (p ∈ l ↔ p = b) as Hpb.
  { split; [intros; by eapply (chain_stop (ps_ports st))|intros ->; by eapply chain_last]. }
  destruct (decide (p = dest)) as [<-|Hne].
  { unfold ipc_port_check_circularity. rewrite (proj2 (Z.eqb_neq _ IP_NULL)), Z.eqb_refl by done.
    eexists _, _. split; [done|]. split_and!; done. }
  assert (∀ q port, ps_ports st !! q = Some port → ip_locked port = false) as Hall' by
    (intros q port' Hq; by destruct (Hall q port' Hq)).
  pose proof (joined_unlocked _ _ _ _ _ Hall' Hp Hd) as Hju.
  assert (∀ q, q ∈ l → q ≠ IP_NULL) as Hl0.
  { intros q Hq. destruct (path_dom _ _ _ q (chain_path _ _ _ _ Hch) Hq) as (port' & Hq').
    by destruct (Hall q port' Hq'). }
  destruct (check_quick st p dest port dport) as (st1 & [(Ht & [Hs1 Hr1] & ->)|([Hs1 Hr1] & ->)]); [done..| |].
  - assert (chain (ps_ports st) dest [dest] dest) as Hch1 by (by eapply chain_end).
    destruct (not_circular_spec (ps_ports st) p dest dest port dport [dest] Hp Hlim Hd Hd0 Hch1)
      with (st := st1) as (st2 & -> & Hs2 & Hr2); [apply NoDup_singleton|set_solver|done| | |].
    { apply (path_length _ dest); [done|by eapply chain_path]. }
    { rewrite Hs1. f_equal. set_solver. }
    rewrite Hju in Hs2. exists st2, false. split; [done|]. split_and!; [|apply (transitivity Hr1 Hr2)..| |done].
    + rewrite (chain_reach _ _ _ _ p Hch1). set_solver.
    + rewrite Hs2. eapply (join_acyclic _ _ _ dest); [done|exact Hch1|set_solver|done].
  - destruct (slow_check_spec st1 (ps_ports st) p dest b port dport l) as (st2 & -> & Hs2 & Hr2);
      [done|by destruct Hr1 as (_ & -> & _)|done..|].
    exists st2, (bool_decide (p = b)). split; [done|].
    split_and!; [|apply (transitivity Hr1 Hr2)..| |].
    + rewrite bool_decide_eq_true, Hreach. tauto.
    + rewrite Hs2. case_decide as Hd'; [by rewrite Hu|]. rewrite Hju.
      eapply (join_acyclic _ _ _ b); [done|exact Hch|tauto|done].
    + rewrite Hs2. case_decide as Hd'; [by rewrite bool_decide_true, Hu|].
      by rewrite bool_decide_false, Hju.
Qed.
End circular.
