(* ===== verification/IpcPset.v ===== *)
(** * Port sets (ipc/ipc_pset.c) and the queues of ports and sets (ipc/ipc_mqueue.c)

    A port in a set has its messages in the queue of the set.  Both queues
    have a lock of their own below the locks of the port and of the set;
    receivers and senders change a queue under that lock alone, so the world
    acts when it is granted, too. *)

From stdpp Require Import prelude list gmap.
From S2P Require Import Prelude MachPort IpcTypes IpcTable IpcPort IpcDnreq IpcPortRights.

(** ** Definitions *)

Definition sget (st : pstate) (s : Z) : outcome ipc_pset := deref (ps_psets st !! s).

(** [*pset = f( *pset)] *)
Definition smod (st : pstate) (s : Z) (f : ipc_pset → ipc_pset) : outcome pstate :=
  pset ← sget st s;
  Ok (with_psets st (<[s := f pset]>)).

(** An [ipc_mqueue_t]: [&port->ip_messages] or [&pset->ips_messages]. *)
Inductive mqptr :=
  | MQ_port (p : Z)
  | MQ_pset (s : Z).

#[export] Instance mqptr_eq_dec : EqDecision mqptr.
Proof. solve_decision. Defined.

Definition mqget (st : pstate) (q : mqptr) : outcome ipc_mqueue :=
  match q with
  | MQ_port p => port ← pget st p; Ok (ip_messages port)
  | MQ_pset s => pset ← sget st s; Ok (ips_messages pset)
  end.

Definition mqmod (st : pstate) (q : mqptr) (f : ipc_mqueue → ipc_mqueue) : outcome pstate :=
  match q with
  | MQ_port p => pmod st p (λ port, set_ip_messages port (f (ip_messages port)))
  | MQ_pset s => smod st s (λ pset, set_ips_messages pset (f (ips_messages pset)))
  end.

(** [kmsg_rmqueue] *)
Fixpoint kmsg_rmqueue (kmsg : ipc_kmsg) (l : list ipc_kmsg) : list ipc_kmsg :=
  match l with
  | [] => []
  | k :: l' => if ikm_addr k =? ikm_addr kmsg then l' else k :: kmsg_rmqueue kmsg l'
  end.

Section pset.
Context {W : pworld}.

Definition ips_lock (st : pstate) (s : Z) : outcome pstate :=
  pset ← sget st s;
  if ips_locked pset then Fault FLock
  else smod (ptick (pw_other (ps_clock st) st)) s (λ pset, set_ips_locked pset true).

Definition ips_unlock (st : pstate) (s : Z) : outcome pstate :=
  pset ← sget st s;
  if ips_locked pset then smod st s (λ pset, set_ips_locked pset false) else Fault FLock.

Definition ips_check_unlock (st : pstate) (s : Z) : outcome pstate :=
  pset ← sget st s;
  let refs := ips_references pset in
  st ← ips_unlock st s;
  if refs =? 0 then Ok (with_psets st (delete s)) else Ok st.

Definition ips_reference (st : pstate) (s : Z) : outcome pstate :=
  pset ← sget st s;
  kassert (ips_references pset <? IO_MAX_REFERENCES);;
  smod st s (λ pset, set_ips_references pset (ips_references pset + 1)).

Definition ips_release (st : pstate) (s : Z) : outcome pstate :=
  pset ← sget st s;
  kassert ((0 <? ips_references pset) && (ips_references pset <=? IO_MAX_REFERENCES));;
  smod st s (λ pset, set_ips_references pset (ips_references pset - 1)).

Definition imq_lock (st : pstate) (q : mqptr) : outcome pstate :=
  mq ← mqget st q;
  if imq_locked mq then Fault FLock
  else mqmod (ptick (pw_other (ps_clock st) st)) q (λ mq, set_imq_locked mq true).

Definition imq_unlock (st : pstate) (q : mqptr) : outcome pstate :=
  mq ← mqget st q;
  if imq_locked mq then mqmod st q (λ mq, set_imq_locked mq false) else Fault FLock.

(** ** ipc_mqueue_move, ipc_mqueue_changed *)

(** One message of the old queue. *)
Definition mqueue_move_one (dest source : mqptr) (port : Z) (st : pstate) (kmsg : ipc_kmsg) :
    outcome pstate :=
  if negb (ikm_remote_port kmsg =? port) then Ok st
  else
    st ← mqmod st source (λ q, set_imq_messages q (kmsg_rmqueue kmsg (imq_messages q)));
    newq ← mqget st dest;
    match imq_threads newq with
    | th :: ths =>
      st ← mqmod st dest (λ q, set_imq_threads q ths);
      kassert (bool_decide (imq_messages newq = []));;
      p ← pget st port;
      st ← pmod st port (λ p, set_ip_seqno p (u32 (ip_seqno p + 1)));
      Ok (thread_go st (WK th MACH_MSG_SUCCESS (Some (kmsg, ip_seqno p))))
    | [] => mqmod st dest (λ q, set_imq_messages q (imq_messages q ++ [kmsg]))
    end.

Definition ipc_mqueue_move (st : pstate) (dest source : mqptr) (port : Z) : outcome pstate :=
  oldq ← mqget st source;
  ofold (mqueue_move_one dest source port) st (imq_messages oldq).

(** Wake every receiver of a queue with [mr]. *)
Definition wake_all (mr : mach_msg_return) (st : pstate) (ths : list Z) : pstate :=
  foldl (λ st th, thread_go st (WK th mr None)) st ths.

Definition ipc_mqueue_changed (st : pstate) (q : mqptr) (mr : mach_msg_return) : outcome pstate :=
  mq ← mqget st q;
  st ← mqmod st q (λ q, set_imq_threads q []);
  Ok (wake_all mr st (imq_threads mq)).

(** ** ipc_mqueue_deliver

    The port is locked on entry and unlocked on exit. *)

Definition ipc_mqueue_deliver (st : pstate) (p : Z) (kmsg : ipc_kmsg) : outcome pstate :=
  kassert (IP_VALID p);;
  port ← pget st p;
  kassert (ip_active port);;
  let mqueue := if ip_pset port =? IPS_NULL then MQ_port p else MQ_pset (ip_pset port) in
  st ← imq_lock st mqueue;
  st ← pmod st p (λ port, set_ip_msgcount port (u32 (ip_msgcount port + 1)));
  port ← pget st p;
  kassert (0 <? ip_msgcount port);;
  st ← ip_unlock st p;
  mq ← mqget st mqueue;
  match imq_threads mq with
  | [] =>
    st ← mqmod st mqueue (λ q, set_imq_messages q (imq_messages q ++ [kmsg]));
    imq_unlock st mqueue
  | receiver :: receivers =>
    st ← mqmod st mqueue (λ q, set_imq_threads q receivers);
    kassert (bool_decide (imq_messages mq = []));;
    port ← pget st p;
    st ← pmod st p (λ port, set_ip_seqno port (u32 (ip_seqno port + 1)));
    st ← imq_unlock st mqueue;
    Ok (thread_go st (WK receiver MACH_MSG_SUCCESS (Some (kmsg, ip_seqno port))))
  end.

(** ** Adding and removing ports *)

Definition ipc_pset_add (st : pstate) (s p : Z) : outcome pstate :=
  pset ← sget st s;
  kassert (ips_active pset);;
  port ← pget st p;
  kassert (ip_active port);;
  kassert (ip_pset port =? IPS_NULL);;
  st ← pmod st p (λ port, set_ip_pset port s);
  st ← ips_reference st s;
  st ← imq_lock st (MQ_port p);
  st ← imq_lock st (MQ_pset s);
  st ← ipc_mqueue_move st (MQ_pset s) (MQ_port p) p;
  st ← imq_unlock st (MQ_pset s);
  mq ← mqget st (MQ_port p);
  kassert (bool_decide (imq_messages mq = []));;
  st ← ipc_mqueue_changed st (MQ_port p) MACH_RCV_PORT_CHANGED;
  mq ← mqget st (MQ_port p);
  kassert (bool_decide (imq_threads mq = []));;
  imq_unlock st (MQ_port p).

Definition ipc_pset_remove (st : pstate) (s p : Z) : outcome pstate :=
  port ← pget st p;
  kassert (ip_active port);;
  kassert (ip_pset port =? s);;
  st ← pmod st p (λ port, set_ip_pset port IPS_NULL);
  st ← ips_release st s;
  st ← imq_lock st (MQ_port p);
  st ← imq_lock st (MQ_pset s);
  st ← ipc_mqueue_move st (MQ_port p) (MQ_pset s) p;
  st ← imq_unlock st (MQ_pset s);
  imq_unlock st (MQ_port p).

Definition ipc_pset_destroy (st : pstate) (s : Z) : outcome pstate :=
  pset ← sget st s;
  kassert (ips_active pset);;
  st ← smod st s (λ pset, set_ips_active pset false);
  st ← imq_lock st (MQ_pset s);
  st ← ipc_mqueue_changed st (MQ_pset s) MACH_RCV_PORT_DIED;
  st ← imq_unlock st (MQ_pset s);
  st ← ips_release st s;
  ips_check_unlock st s.

(** With the port locked; the space is locked, and unlocked on the way.  The
    result is [oset]. *)
Definition pset_move_body (sp : istate) (st : pstate) (p oset nset : Z) :
    outcome (istate * pstate * Z) :=
  if oset =? nset then
    sp ← is_write_unlock sp;
    Ok (sp, st, oset)
  else if oset =? IPS_NULL then
    st ← ips_lock st nset;
    set ← sget st nset;
    kassert (ips_active set);;
    sp ← is_write_unlock sp;
    st ← ipc_pset_add st nset p;
    st ← ips_unlock st nset;
    Ok (sp, st, oset)
  else if nset =? IPS_NULL then
    sp ← is_write_unlock sp;
    st ← ips_lock st oset;
    st ← ipc_pset_remove st oset p;
    set ← sget st oset;
    if ips_active set then
      st ← ips_unlock st oset;
      Ok (sp, st, oset)
    else
      st ← ips_check_unlock st oset;
      Ok (sp, st, IPS_NULL)
  else
    st ← (if oset <? nset then st ← ips_lock st oset; ips_lock st nset
          else st ← ips_lock st nset; ips_lock st oset);
    sp ← is_write_unlock sp;
    set ← sget st nset;
    kassert (ips_active set);;
    st ← ipc_pset_remove st oset p;
    st ← ipc_pset_add st nset p;
    st ← ips_unlock st nset;
    st ← ips_check_unlock st oset;
    Ok (sp, st, oset).
Definition ipc_pset_move (sp : istate) (st : pstate) (p nset : Z) :
    outcome (istate * pstate * kern_return) :=
  st ← ip_lock st p;
  port ← pget st p;
  kassert (ip_active port);;
  '(sp, st, oset) ← pset_move_body sp st p (ip_pset port) nset;
  st ← ip_unlock st p;
  Ok (sp, st, if (nset =? IPS_NULL) && (oset =? IPS_NULL) then KERN_NOT_IN_SET
              else KERN_SUCCESS).

(** ** The receiver's side of a port (ipc/ipc_port.c) *)

Definition set_seqno_in (st : pstate) (q : mqptr) (p seqno : Z) : outcome pstate :=
  st ← imq_lock st q;
  st ← pmod st p (λ port, set_ip_seqno port seqno);
  imq_unlock st q.

Definition ipc_port_set_seqno (st : pstate) (p seqno : Z) : outcome pstate :=
  port ← pget st p;
  let s := ip_pset port in
  if negb (s =? IPS_NULL) then
    st ← ips_lock st s;
    pset ← sget st s;
    if negb (ips_active pset) then
      st ← ipc_pset_remove st s p;
      st ← ips_check_unlock st s;
      set_seqno_in st (MQ_port p) p seqno
    else set_seqno_in st (MQ_pset s) p seqno
  else set_seqno_in st (MQ_port p) p seqno.

Definition ipc_port_set_mscount (st : pstate) (p mscount : Z) : outcome pstate :=
  port ← pget st p;
  kassert (ip_active port);;
  pmod st p (λ port, set_ip_mscount port mscount).

Definition ipc_port_clear_receiver (st : pstate) (p : Z) : outcome pstate :=
  port ← pget st p;
  kassert (ip_active port);;
  let s := ip_pset port in
  st ← (if negb (s =? IPS_NULL) then
          st ← ips_lock st s;
          st ← ipc_pset_remove st s p;
          ips_check_unlock st s
        else
          st ← imq_lock st (MQ_port p);
          st ← ipc_mqueue_changed st (MQ_port p) MACH_RCV_PORT_DIED;
          imq_unlock st (MQ_port p));
  st ← ipc_port_set_mscount st p 0;
  set_seqno_in st (MQ_port p) p 0.
End pset.

(** ** The queues as they are changed *)

Definition sput (st : pstate) (s : Z) (pset : ipc_pset) : pstate := with_psets st (<[s := pset]>).

Lemma sput_get st s pset : ps_psets (sput st s pset) !! s = Some pset.
Proof. apply lookup_insert_eq. Qed.

Lemma sput_sput st s pset pset' : sput (sput st s pset) s pset' = sput st s pset'.
Proof. unfold sput, with_psets. simpl. by rewrite insert_insert_eq. Qed.

Lemma smod_spec st s pset f : ps_psets st !! s = Some pset → smod st s f = Ok (sput st s (f pset)).
Proof. intros Hs. unfold smod, sget. by rewrite Hs. Qed.

Definition set_woken (st : pstate) (w : list wakeup) : pstate :=
  PST (ps_ports st) (ps_psets st) (ps_timestamp st) (ps_multiple st) (ps_notes st) w (ps_clock st).

(** The messages that waiting receivers get, with their sequence numbers. *)
Fixpoint handed (ths : list Z) (seqno : Z) (ms : list ipc_kmsg) : list wakeup :=
  match ths, ms with
  | th :: ths', m :: ms' =>
    WK th MACH_MSG_SUCCESS (Some (m, seqno)) :: handed ths' (u32 (seqno + 1)) ms'
  | _, _ => []
  end.

(** The sequence number after that. *)
Fixpoint seqno_after (ths : list Z) (seqno : Z) (ms : list ipc_kmsg) : Z :=
  match ths, ms with
  | _ :: ths', _ :: ms' => seqno_after ths' (u32 (seqno + 1)) ms'
  | _, _ => seqno
  end.

(** A queue that gets the messages [ms]. *)
Definition mq_accept (q : ipc_mqueue) (ms : list ipc_kmsg) : ipc_mqueue :=
  IMQ (imq_locked q) (imq_messages q ++ drop (length (imq_threads q)) ms)
    (drop (length ms) (imq_threads q)).

(** Receivers wait only for an empty queue. *)
Definition mq_calm (q : ipc_mqueue) : Prop := imq_threads q = [] ∨ imq_messages q = [].

Definition mine (p : Z) : list ipc_kmsg → list ipc_kmsg := filter (λ m, ikm_remote_port m = p).
Definition others (p : Z) : list ipc_kmsg → list ipc_kmsg := filter (λ m, ikm_remote_port m ≠ p).

Lemma mine_here p m l : ikm_remote_port m = p → mine p (m :: l) = m :: mine p l.
Proof. intros. unfold mine. by rewrite filter_cons_True. Qed.
Lemma mine_other p m l : ikm_remote_port m ≠ p → mine p (m :: l) = mine p l.
Proof. intros. unfold mine. by rewrite filter_cons_False. Qed.
Lemma others_here p m l : ikm_remote_port m = p → others p (m :: l) = others p l.
Proof. intros. unfold others. rewrite filter_cons_False; tauto. Qed.
Lemma others_other p m l : ikm_remote_port m ≠ p → others p (m :: l) = m :: others p l.
Proof. intros. unfold others. by rewrite filter_cons_True. Qed.

Lemma rmqueue_mid kmsg l1 l2 :
  NoDup (ikm_addr <$> l1 ++ kmsg :: l2) → kmsg_rmqueue kmsg (l1 ++ kmsg :: l2) = l1 ++ l2.
Proof.
  induction l1 as [|k l1 IH]; simpl; [by rewrite Z.eqb_refl|].
  intros [Hk Hnd]%NoDup_cons. destruct (Z.eqb_spec (ikm_addr k) (ikm_addr kmsg)) as [Heq|]; [|by rewrite IH].
  exfalso. apply Hk. rewrite Heq. apply list_elem_of_fmap. exists kmsg. set_solver.
Qed.

(** A state in which two queues, a sequence number and the threads woken
    vary; the source and the destination of a move. *)
Section move.
Context {W : pworld} (dest source : mqptr) (p : Z) (C : ipc_mqueue → ipc_mqueue → Z → list wakeup → pstate).
Hypothesis get_source : ∀ a b n w, mqget (C a b n w) source = Ok a.
Hypothesis get_dest : ∀ a b n w, mqget (C a b n w) dest = Ok b.
Hypothesis mod_source : ∀ a b n w f, mqmod (C a b n w) source f = Ok (C (f a) b n w).
Hypothesis mod_dest : ∀ a b n w f, mqmod (C a b n w) dest f = Ok (C a (f b) n w).
Hypothesis get_seqno : ∀ a b n w, ∃ port, pget (C a b n w) p = Ok port ∧ ip_seqno port = n.
Hypothesis mod_seqno : ∀ a b n w,
  pmod (C a b n w) p (λ port, set_ip_seqno port (u32 (ip_seqno port + 1))) = Ok (C a b (u32 (n + 1)) w).
Hypothesis go_woken : ∀ a b n w x, thread_go (C a b n w) x = C a b n (x :: w).

Lemma move_loop_spec l kept a b n w :
  imq_messages a = kept ++ l → NoDup (ikm_addr <$> imq_messages a) → mq_calm b →
  ofold (mqueue_move_one dest source p) (C a b n w) l =
  Ok (C (set_imq_messages a (kept ++ others p l)) (mq_accept b (mine p l))
        (seqno_after (imq_threads b) n (mine p l))
        (reverse (handed (imq_threads b) n (mine p l)) ++ w)).
Proof.
  revert kept a b n w. induction l as [|m l IH]; intros kept a b n w Ha Hnd Hb; cbn [ofold].
  - rewrite app_nil_r in *. unfold mq_accept. destruct a, b as [? ? []]; simpl in *; subst; by rewrite ?app_nil_r.
  - unfold mqueue_move_one at 2. destruct (Z.eqb_spec (ikm_remote_port m) p) as [Hm|Hm]; ostep.
    + rewrite mine_here, others_here by done. rewrite mod_source. ostep. rewrite get_dest. ostep.
      assert (kmsg_rmqueue m (imq_messages a) = kept ++ l) as ->.
      { rewrite Ha in *. by apply rmqueue_mid. }
      assert (NoDup (ikm_addr <$> kept ++ l)) as Hnd'.
      { rewrite Ha, fmap_app, fmap_cons in Hnd. rewrite fmap_app.
        by rewrite <-Permutation_middle, NoDup_cons in Hnd; destruct Hnd. }
      destruct b as [lk bm [|th ths]]; simpl.
      * rewrite mod_dest. ostep. rewrite (IH kept); [|done..|by left]. unfold mq_accept. simpl.
        by rewrite drop_nil, <-app_assoc.
      * destruct Hb as [|Hb]; [done|]. simpl in Hb. subst bm. rewrite mod_dest. ostep. rewrite bool_decide_true by done. ostep.
        destruct (get_seqno (set_imq_messages a (kept ++ l)) (set_imq_threads (IMQ lk [] (th :: ths)) ths) n w)
          as (port & -> & Hn). ostep. rewrite mod_seqno. ostep. rewrite go_woken, Hn.
        rewrite (IH kept); [|done..|by right]. simpl. by rewrite reverse_cons, <-app_assoc.
    + rewrite mine_other, others_other by done.
      rewrite (IH (kept ++ [m])); [|by rewrite <-app_assoc|done..]. by rewrite <-app_assoc.
Qed.

Lemma mqueue_move_spec a b n w :
  NoDup (ikm_addr <$> imq_messages a) → mq_calm b →
  ipc_mqueue_move (C a b n w) dest source p =
  Ok (C (set_imq_messages a (others p (imq_messages a))) (mq_accept b (mine p (imq_messages a)))
        (seqno_after (imq_threads b) n (mine p (imq_messages a)))
        (reverse (handed (imq_threads b) n (mine p (imq_messages a))) ++ w)).
Proof.
  intros Hnd Hb. unfold ipc_mqueue_move. rewrite get_source. ostep. by apply (move_loop_spec _ []).
Qed.
End move.

(** ** The operations, when no other thread acts *)

Section pset_spec.
Context `{W : pworld, !quiet}.

(** The port [p] and the set [s] of [st], with queues [a] and [b]. *)
Definition at_queues (p s : Z) (port : ipc_port) (pset : ipc_pset) (st : pstate)
    (a b : ipc_mqueue) (n : Z) (w : list wakeup) : pstate :=
  set_woken (put (sput st s (set_ips_messages pset b)) p (set_ip_seqno (set_ip_messages port a) n)) w.

Section at_queues.
Context (p s : Z) (port : ipc_port) (pset : ipc_pset) (st : pstate).
Local Abbreviation C := (at_queues p s port pset).

Lemma at_pget a b n w : pget (C st a b n w) p = Ok (set_ip_seqno (set_ip_messages port a) n).
Proof. unfold pget. simpl. by rewrite lookup_insert_eq. Qed.
Lemma at_sget a b n w : sget (C st a b n w) s = Ok (set_ips_messages pset b).
Proof. unfold sget. simpl. by rewrite lookup_insert_eq. Qed.
Lemma at_pmod a b n w f :
  pmod (C st a b n w) p f = Ok (with_ports (C st a b n w) (<[p := f (set_ip_seqno (set_ip_messages port a) n)]>)).
Proof. unfold pmod. by rewrite at_pget. Qed.
Lemma at_smod a b n w f :
  smod (C st a b n w) s f = Ok (with_psets (C st a b n w) (<[s := f (set_ips_messages pset b)]>)).
Proof. unfold smod. by rewrite at_sget. Qed.

Lemma at_get_port a b n w : mqget (C st a b n w) (MQ_port p) = Ok a.
Proof. unfold mqget. by rewrite at_pget. Qed.
Lemma at_get_pset a b n w : mqget (C st a b n w) (MQ_pset s) = Ok b.
Proof. unfold mqget. by rewrite at_sget. Qed.
Lemma at_mod_port a b n w f : mqmod (C st a b n w) (MQ_port p) f = Ok (C st (f a) b n w).
Proof.
  unfold mqmod. rewrite at_pmod. unfold at_queues, set_woken, put, with_ports. simpl. by rewrite insert_insert_eq.
Qed.
Lemma at_mod_pset a b n w f : mqmod (C st a b n w) (MQ_pset s) f = Ok (C st a (f b) n w).
Proof.
  unfold mqmod. rewrite at_smod. unfold at_queues, set_woken, sput, with_psets. simpl. by rewrite insert_insert_eq.
Qed.
Lemma at_mod_seqno a b n w f :
  pmod (C st a b n w) p (λ port, set_ip_seqno port (f (ip_seqno port))) = Ok (C st a b (f n) w).
Proof. rewrite at_pmod. unfold at_queues, set_woken, put, with_ports. simpl. by rewrite insert_insert_eq. Qed.

(** Locks of the queues. *)
Lemma at_lock_port a b n w :
  imq_locked a = false → imq_lock (C st a b n w) (MQ_port p) = Ok (C (ptick st) (set_imq_locked a true) b n w).
Proof.
  intros Ha. unfold imq_lock. rewrite at_get_port. ostep. rewrite Ha, other_id.
  change (ptick (C st a b n w)) with (at_queues p s port pset (ptick st) a b n w).
  unfold mqmod. rewrite (pmod_spec _ _ (set_ip_seqno (set_ip_messages port a) n)) by (simpl; apply lookup_insert_eq).
  unfold at_queues, set_woken, put, with_ports. simpl. by rewrite insert_insert_eq.
Qed.
Lemma at_lock_pset a b n w :
  imq_locked b = false → imq_lock (C st a b n w) (MQ_pset s) = Ok (C (ptick st) a (set_imq_locked b true) n w).
Proof.
  intros Hb. unfold imq_lock. rewrite at_get_pset. ostep. rewrite Hb, other_id.
  change (ptick (C st a b n w)) with (at_queues p s port pset (ptick st) a b n w).
  unfold mqmod. rewrite (smod_spec _ _ (set_ips_messages pset b)) by (simpl; apply lookup_insert_eq).
  unfold at_queues, set_woken, sput, with_psets. simpl. by rewrite insert_insert_eq.
Qed.
Lemma at_unlock_port a b n w :
  imq_locked a = true → imq_unlock (C st a b n w) (MQ_port p) = Ok (C st (set_imq_locked a false) b n w).
Proof. intros Ha. unfold imq_unlock. rewrite at_get_port. ostep. by rewrite Ha, at_mod_port. Qed.
Lemma at_unlock_pset a b n w :
  imq_locked b = true → imq_unlock (C st a b n w) (MQ_pset s) = Ok (C st a (set_imq_locked b false) n w).
Proof. intros Hb. unfold imq_unlock. rewrite at_get_pset. ostep. by rewrite Hb, at_mod_pset. Qed.

Lemma wake_all_eq mr ths st0 :
  wake_all mr st0 ths = set_woken st0 (reverse ((λ th, WK th mr None) <$> ths) ++ ps_woken st0).
Proof.
  revert st0. induction ths as [|th ths IH]; intros st0; simpl; [by destruct st0|].
  unfold wake_all in *. rewrite IH. unfold set_woken. simpl. by rewrite reverse_cons, <-app_assoc.
Qed.

Lemma at_changed_port a b n w mr :
  ipc_mqueue_changed (C st a b n w) (MQ_port p) mr =
  Ok (C st (set_imq_threads a []) b n (reverse ((λ th, WK th mr None) <$> imq_threads a) ++ w)).
Proof. unfold ipc_mqueue_changed. rewrite at_get_port. ostep. rewrite at_mod_port. ostep. by rewrite wake_all_eq. Qed.

Lemma at_move_in a b n w :
  NoDup (ikm_addr <$> imq_messages a) → mq_calm b →
  ipc_mqueue_move (C st a b n w) (MQ_pset s) (MQ_port p) p =
  Ok (C st (set_imq_messages a (others p (imq_messages a))) (mq_accept b (mine p (imq_messages a)))
        (seqno_after (imq_threads b) n (mine p (imq_messages a)))
        (reverse (handed (imq_threads b) n (mine p (imq_messages a))) ++ w)).
Proof.
  apply (mqueue_move_spec (MQ_pset s) (MQ_port p) p (C st)).
  - apply at_get_port.
  - apply at_get_pset.
  - apply at_mod_port.
  - apply at_mod_pset.
  - intros. eexists. split; [apply at_pget|done].
  - intros. apply (at_mod_seqno a0 b0 n0 w0 (λ k, u32 (k + 1))).
  - done.
Qed.

Lemma at_move_out a b n w :
  NoDup (ikm_addr <$> imq_messages b) → mq_calm a →
  ipc_mqueue_move (C st a b n w) (MQ_port p) (MQ_pset s) p =
  Ok (C st (mq_accept a (mine p (imq_messages b))) (set_imq_messages b (others p (imq_messages b)))
        (seqno_after (imq_threads a) n (mine p (imq_messages b)))
        (reverse (handed (imq_threads a) n (mine p (imq_messages b))) ++ w)).
Proof.
  apply (mqueue_move_spec (MQ_port p) (MQ_pset s) p (λ b a, C st a b)).
  - intros. apply at_get_pset.
  - intros. apply at_get_port.
  - intros. apply at_mod_pset.
  - intros. apply at_mod_port.
  - intros. eexists. split; [apply at_pget|done].
  - intros. apply (at_mod_seqno b0 a0 n0 w0 (λ k, u32 (k + 1))).
  - done.
Qed.
End at_queues.

Lemma at_queues_id p s port pset st :
  ps_ports st !! p = Some port → ps_psets st !! s = Some pset →
  st = at_queues p s port pset st (ip_messages port) (ips_messages pset) (ip_seqno port) (ps_woken st).
Proof.
  intros Hp Hs. unfold at_queues, set_woken, put, sput, with_ports, with_psets. simpl.
  destruct st, port, pset. simpl in *. by rewrite !insert_id.
Qed.

Lemma others_mine p l : Forall (λ m, ikm_remote_port m = p) l → others p l = [] ∧ mine p l = l.
Proof.
  induction 1 as [|m l Hm _ [IH1 IH2]]; [done|]. by rewrite others_here, mine_here, IH1, IH2.
Qed.

(** What the two operations need of the port, the set and their queues. *)
Record queues_ready (p : Z) (port : ipc_port) (pset : ipc_pset) : Prop := {
  qr_port_unlocked : imq_locked (ip_messages port) = false;
  qr_pset_unlocked : imq_locked (ips_messages pset) = false;
  qr_port_nodup : NoDup (ikm_addr <$> imq_messages (ip_messages port));
  qr_pset_nodup : NoDup (ikm_addr <$> imq_messages (ips_messages pset));
  qr_port_calm : mq_calm (ip_messages port);
  qr_pset_calm : mq_calm (ips_messages pset);
}.

Definition moved (th : Z) : wakeup := WK th MACH_RCV_PORT_CHANGED None.

(** The port and the set after the port has been added. *)
Definition joined_port (s : Z) (port : ipc_port) (pset : ipc_pset) : ipc_port :=
  set_ip_seqno (set_ip_messages (set_ip_pset port s) ipc_mqueue_init)
    (seqno_after (imq_threads (ips_messages pset)) (ip_seqno port) (imq_messages (ip_messages port))).
Definition joined_pset (port : ipc_port) (pset : ipc_pset) : ipc_pset :=
  set_ips_messages (set_ips_references pset (ips_references pset + 1))
    (mq_accept (ips_messages pset) (imq_messages (ip_messages port))).

Lemma pset_add_eq st p s port pset :
  ps_ports st !! p = Some port → ps_psets st !! s = Some pset → queues_ready p port pset →
  ip_active port = true → ips_active pset = true → ip_pset port = IPS_NULL →
  ips_references pset < IO_MAX_REFERENCES →
  Forall (λ m, ikm_remote_port m = p) (imq_messages (ip_messages port)) →
  ipc_pset_add st s p = Ok (set_woken
    (put (sput (ptick (ptick st)) s (joined_pset port pset)) p (joined_port s port pset))
    (reverse (moved <$> imq_threads (ip_messages port)) ++
     reverse (handed (imq_threads (ips_messages pset)) (ip_seqno port) (imq_messages (ip_messages port))) ++
     ps_woken st)).
Proof.
  intros Hp Hs [Hpl Hsl Hpn Hsn Hpc Hsc] Hpa Hsa Hnull Hr Hmine.
  destruct (others_mine _ _ Hmine) as [Ho Hm].
  unfold ipc_pset_add. unfold sget at 1, pget at 1. rewrite Hp, Hs. ostep. rewrite Hsa, Hpa, Hnull. ostep.
  rewrite (pmod_spec st p port) by done. ostep. unfold ips_reference, sget.
  change (ps_psets (put st p (set_ip_pset port s))) with (ps_psets st). rewrite Hs. ostep.
  rewrite (proj2 (Z.ltb_lt _ _) Hr). ostep. rewrite (smod_spec _ _ pset) by done. ostep.
  assert (sput (put st p (set_ip_pset port s)) s (set_ips_references pset (ips_references pset + 1)) =
    at_queues p s (set_ip_pset port s) (set_ips_references pset (ips_references pset + 1)) st
      (ip_messages port) (ips_messages pset) (ip_seqno port) (ps_woken st)) as ->.
  { by destruct st, port, pset. }
  rewrite at_lock_port by done. ostep. rewrite at_lock_pset by done. ostep.
  rewrite at_move_in by done. ostep. rewrite at_unlock_pset by done. ostep.
  rewrite at_get_port. ostep. simpl imq_messages. rewrite Ho. rewrite bool_decide_true by done. ostep.
  rewrite at_changed_port. ostep. rewrite at_get_port. ostep. rewrite bool_decide_true by done. ostep.
  rewrite at_unlock_port by done. f_equal. simpl. rewrite Hm. unfold at_queues, mq_accept. simpl.
  unfold joined_pset, joined_port, mq_accept, set_imq_locked. simpl. by rewrite Hsl.
Qed.

(** After it has been removed: the messages in the set that were sent to it
    are its own again. *)
Definition left_port (p : Z) (port : ipc_port) (pset : ipc_pset) : ipc_port :=
  set_ip_seqno (set_ip_messages (set_ip_pset port IPS_NULL)
      (mq_accept (ip_messages port) (mine p (imq_messages (ips_messages pset)))))
    (seqno_after (imq_threads (ip_messages port)) (ip_seqno port) (mine p (imq_messages (ips_messages pset)))).
Definition left_pset (p : Z) (pset : ipc_pset) : ipc_pset :=
  set_ips_messages (set_ips_references pset (ips_references pset - 1))
    (set_imq_messages (ips_messages pset) (others p (imq_messages (ips_messages pset)))).

Lemma pset_remove_eq st p s port pset :
  ps_ports st !! p = Some port → ps_psets st !! s = Some pset → queues_ready p port pset →
  ip_active port = true → ip_pset port = s → 0 < ips_references pset ≤ IO_MAX_REFERENCES →
  ipc_pset_remove st s p = Ok (set_woken
    (put (sput (ptick (ptick st)) s (left_pset p pset)) p (left_port p port pset))
    (reverse (handed (imq_threads (ip_messages port)) (ip_seqno port) (mine p (imq_messages (ips_messages pset)))) ++
     ps_woken st)).
Proof.
  intros Hp Hs [Hpl Hsl Hpn Hsn Hpc Hsc] Hpa Hset [Hr1 Hr2].
  unfold ipc_pset_remove. unfold pget at 1. rewrite Hp. ostep. rewrite Hpa, Hset, Z.eqb_refl. ostep.
  rewrite (pmod_spec st p port) by done. ostep. unfold ips_release, sget.
  change (ps_psets (put st p (set_ip_pset port IPS_NULL))) with (ps_psets st). rewrite Hs. ostep.
  rewrite (proj2 (Z.ltb_lt _ _) Hr1), (proj2 (Z.leb_le _ _) Hr2). ostep. rewrite (smod_spec _ _ pset) by done. ostep.
  assert (sput (put st p (set_ip_pset port IPS_NULL)) s (set_ips_references pset (ips_references pset - 1)) =
    at_queues p s (set_ip_pset port IPS_NULL) (set_ips_references pset (ips_references pset - 1)) st
      (ip_messages port) (ips_messages pset) (ip_seqno port) (ps_woken st)) as ->.
  { by destruct st, port, pset. }
  rewrite at_lock_port by done. ostep. rewrite at_lock_pset by done. ostep.
  rewrite at_move_out by done. ostep. rewrite at_unlock_pset by done. ostep.
  rewrite at_unlock_port by done. f_equal. unfold at_queues, left_pset, left_port, mq_accept, set_imq_locked, set_imq_messages.
  simpl. by rewrite Hsl, Hpl.
Qed.
End pset_spec.
