(* ===== verification/IpcPsetInv.v ===== *)
(** * The queues of ports and port sets: invariant and abstraction

    Each port has a queue of messages, whether it is in a set or not:
    [port_messages].  Messages of a member are kept in the queue of its set.
    Putting a port into a set, taking it out and moving it keep every port's
    queue in order; only messages handed to waiting receivers leave it. *)

From stdpp Require Import prelude list gmap.
From S2P Require Import Prelude MachPort IpcTypes IpcTable IpcPort IpcDnreq IpcPortRights IpcPset.

Abbreviation ports_t := (gmap Z ipc_port) (only parsing).
Abbreviation psets_t := (gmap Z ipc_pset) (only parsing).

(** The number of members of a set. *)
Definition members (ports : ports_t) (s : Z) : nat :=
  size (filter (λ kv : Z * Z, kv.2 = s) (ip_pset <$> ports)).

Definition count (P : Prop) `{Decision P} : nat := if decide P then 1 else 0.

Lemma members_insert ports p port port' s :
  ports !! p = Some port →
  (members (<[p := port']> ports) s + count (ip_pset port = s) =
   members ports s + count (ip_pset port' = s))%nat.
Proof.
  intros Hp. unfold members, count.
  assert (ports = <[p := port]> (delete p ports)) as Hx by (by rewrite insert_delete_id).
  set (rest := delete p ports) in *.
  assert ((ip_pset <$> rest) !! p = None) as Hn by (by rewrite lookup_fmap; unfold rest; rewrite lookup_delete_eq).
  assert (∀ q : Z, size (filter (λ kv : Z * Z, kv.2 = s) (<[p := q]> (ip_pset <$> rest))) =
    (size (filter (λ kv : Z * Z, kv.2 = s) (ip_pset <$> rest)) + if decide (q = s) then 1 else 0)%nat) as Hq.
  { intros q. case_decide as Hd.
    - rewrite map_filter_insert_True by done. rewrite map_size_insert_None; [lia|].
      apply map_lookup_filter_None. by left.
    - rewrite map_filter_insert_False by done. rewrite delete_id by done. lia. }
  rewrite Hx, insert_insert_eq, !fmap_insert, !Hq. lia.
Qed.

(** [m] is in the queue [q]. *)
Definition queue_of (ports : ports_t) (psets : psets_t) (q : mqptr) : option ipc_mqueue :=
  match q with
  | MQ_port p => ip_messages <$> ports !! p
  | MQ_pset s => ips_messages <$> psets !! s
  end.

Record queues_wf (ports : ports_t) (psets : psets_t) : Prop := {
  qw_unlocked q mq : queue_of ports psets q = Some mq → imq_locked mq = false;
  qw_calm q mq : queue_of ports psets q = Some mq → mq_calm mq;
  qw_nodup q mq : queue_of ports psets q = Some mq → NoDup (ikm_addr <$> imq_messages mq);
  (** a message is in one queue *)
  qw_apart q q' mq mq' m m' :
    queue_of ports psets q = Some mq → queue_of ports psets q' = Some mq' →
    m ∈ imq_messages mq → m' ∈ imq_messages mq' → ikm_addr m = ikm_addr m' → q = q';
  (** the queue of a port outside of sets holds messages sent to the port *)
  qw_own p port : ports !! p = Some port → ip_pset port = IPS_NULL →
    Forall (λ m, ikm_remote_port m = p) (imq_messages (ip_messages port));
  (** a member has no messages or receivers of its own *)
  qw_member p port : ports !! p = Some port → ip_pset port ≠ IPS_NULL →
    ip_active port = true ∧ ip_messages port = ipc_mqueue_init ∧ is_Some (psets !! ip_pset port);
  (** the queue of a set holds messages sent to members *)
  qw_set s pset m : psets !! s = Some pset → m ∈ imq_messages (ips_messages pset) →
    ∃ port, ports !! ikm_remote_port m = Some port ∧ ip_pset port = s;
  (** members, and the name of a live set, hold references *)
  qw_refs s pset : psets !! s = Some pset → s ≠ IPS_NULL ∧
    Z.of_nat (members ports s) + (if ips_active pset then 1 else 0) ≤ ips_references pset ≤ IO_MAX_REFERENCES;
}.

(** ** The queue of a port, wherever it is kept *)

Definition port_messages (st : pstate) (p : Z) : list ipc_kmsg :=
  match ps_ports st !! p with
  | None => []
  | Some port =>
    if ip_pset port =? IPS_NULL then imq_messages (ip_messages port)
    else match ps_psets st !! ip_pset port with
         | Some pset => mine p (imq_messages (ips_messages pset))
         | None => []
         end
  end.

Lemma mine_app p l1 l2 : mine p (l1 ++ l2) = mine p l1 ++ mine p l2.
Proof. apply filter_app. Qed.

Lemma mine_nil p l : (∀ m, m ∈ l → ikm_remote_port m ≠ p) → mine p l = [].
Proof.
  induction l as [|m l IH]; intros Hl; [done|]. rewrite mine_other by (apply Hl; by left).
  apply IH. intros x Hx. apply Hl. by right.
Qed.

Lemma mine_others p q l : q ≠ p → mine q (others p l) = mine q l.
Proof.
  intros Hne. induction l as [|m l IH]; [done|].
  destruct (decide (ikm_remote_port m = p)) as [Hm|Hm].
  - rewrite others_here, IH by done. rewrite mine_other; congruence.
  - rewrite others_other by done. destruct (decide (ikm_remote_port m = q)).
    + by rewrite !mine_here, IH.
    + by rewrite !mine_other.
Qed.

Lemma mine_split p l : mine p l ++ others p l ≡ₚ l.
Proof.
  induction l as [|m l IH]; [done|]. destruct (decide (ikm_remote_port m = p)).
  - by rewrite mine_here, others_here, <-app_comm_cons, IH.
  - by rewrite mine_other, others_other, <-Permutation_middle, IH.
Qed.

Lemma mine_forall p l : Forall (λ m, ikm_remote_port m = p) (mine p l).
Proof. apply Forall_forall. intros m Hm. by apply list_elem_of_filter in Hm as [? _]. Qed.

(** ** One port and one set change *)

Section update.
Context (ports : ports_t) (psets : psets_t) (p s : Z) (port port' : ipc_port) (pset pset' : ipc_pset).
Hypothesis Hwf : queues_wf ports psets.
Hypothesis Hp : ports !! p = Some port.
Hypothesis Hs : psets !! s = Some pset.

Local Abbreviation msgs port := (imq_messages (ip_messages port)).
Local Abbreviation smsgs pset := (imq_messages (ips_messages pset)).
Local Abbreviation ports' := (<[p := port']> ports).
Local Abbreviation psets' := (<[s := pset']> psets).

Lemma queues_nodup2 : NoDup (ikm_addr <$> msgs port ++ smsgs pset).
Proof.
  rewrite fmap_app. apply NoDup_app. split_and!.
  - apply (qw_nodup _ _ Hwf (MQ_port p)). simpl. by rewrite Hp.
  - intros a (m & -> & Hm)%list_elem_of_fmap (m' & Heq & Hm')%list_elem_of_fmap.
    assert (MQ_port p = MQ_pset s); [|done].
    eapply (qw_apart _ _ Hwf); [| |exact Hm|exact Hm'|done]; simpl; [by rewrite Hp|by rewrite Hs].
  - apply (qw_nodup _ _ Hwf (MQ_pset s)). simpl. by rewrite Hs.
Qed.

Hypothesis Hsub : msgs port' ++ smsgs pset' ⊆+ msgs port ++ smsgs pset.

Lemma queues_nodup2' : NoDup (ikm_addr <$> msgs port' ++ smsgs pset').
Proof.
  pose proof queues_nodup2 as Hnd. apply submseteq_Permutation in Hsub as (k & Hk).
  rewrite Hk, fmap_app, NoDup_app in Hnd. by destruct Hnd.
Qed.

(** Where the messages of the new queues come from. *)
Lemma queue_origin q mq m :
  queue_of ports' psets' q = Some mq → m ∈ imq_messages mq →
  ∃ q0 mq0, queue_of ports psets q0 = Some mq0 ∧ m ∈ imq_messages mq0 ∧
    (q0 = q ∨ ((q0 = MQ_port p ∨ q0 = MQ_pset s) ∧ (q = MQ_port p ∨ q = MQ_pset s))).
Proof.
  intros Hq Hm.
  assert ((q = MQ_port p ∧ mq = ip_messages port') ∨ (q = MQ_pset s ∧ mq = ips_messages pset') ∨
    queue_of ports psets q = Some mq) as Hcase.
  { destruct q as [x|x]; simpl in Hq; destruct (decide (x = p)), (decide (x = s)); subst;
      rewrite ?lookup_insert_eq, ?lookup_insert_ne in Hq by done; naive_solver. }
  assert (m ∈ msgs port' ++ smsgs pset' → m ∈ msgs port ∨ m ∈ smsgs pset) as Hin.
  { intros Hx. apply elem_of_app. by eapply elem_of_submseteq. }
  destruct Hcase as [[-> ->]|[[-> ->]|Hq0]]; [| |by exists q, mq; eauto].
  - destruct Hin as [Hx|Hx]; [set_solver| |].
    + exists (MQ_port p), (ip_messages port). simpl. rewrite Hp. eauto.
    + exists (MQ_pset s), (ips_messages pset). simpl. rewrite Hs. split_and!; eauto.
  - destruct Hin as [Hx|Hx]; [set_solver| |].
    + exists (MQ_port p), (ip_messages port). simpl. rewrite Hp. split_and!; eauto.
    + exists (MQ_pset s), (ips_messages pset). simpl. rewrite Hs. eauto.
Qed.

Lemma queues_apart' q q' mq mq' m m' :
  queue_of ports' psets' q = Some mq → queue_of ports' psets' q' = Some mq' →
  m ∈ imq_messages mq → m' ∈ imq_messages mq' → ikm_addr m = ikm_addr m' → q = q'.
Proof.
  intros Hq Hq' Hm Hm' Ha.
  destruct (queue_origin q mq m) as (q0 & mq0 & Hq0 & Hm0 & Ho); [done..|].
  destruct (queue_origin q' mq' m') as (q1 & mq1 & Hq1 & Hm1 & Ho'); [done..|].
  assert (q0 = q1) as <- by (eapply (qw_apart _ _ Hwf); eauto).
  pose proof queues_nodup2' as Hnd. rewrite fmap_app, NoDup_app in Hnd. destruct Hnd as (_ & Hd & _).
  destruct Ho as [->|[H0 Hc]], Ho' as [->|[H1 Hc']]; [done|..].
  all: assert ((q = MQ_port p ∨ q = MQ_pset s) ∧ (q' = MQ_port p ∨ q' = MQ_pset s)) as [[-> | ->] [-> | ->]]
    by naive_solver; try done; exfalso; simpl in Hq, Hq'; rewrite lookup_insert_eq in Hq; rewrite lookup_insert_eq in Hq'; simplify_eq/=.
  all: eapply Hd; apply list_elem_of_fmap; eauto.
Qed.

Hypothesis Hqueues : imq_locked (ip_messages port') = false ∧ imq_locked (ips_messages pset') = false ∧
  mq_calm (ip_messages port') ∧ mq_calm (ips_messages pset').
Hypothesis Hbefore : ip_pset port = IPS_NULL ∨ ip_pset port = s.
Hypothesis Hafter : (ip_pset port' = IPS_NULL ∧ Forall (λ m, ikm_remote_port m = p) (msgs port')) ∨
  (ip_pset port' = s ∧ ip_active port' = true ∧ ip_messages port' = ipc_mqueue_init).
Hypothesis Hset : ∀ m, m ∈ smsgs pset' →
  (ikm_remote_port m = p ∧ ip_pset port' = s) ∨ (ikm_remote_port m ≠ p ∧ m ∈ smsgs pset).
Hypothesis Hrefs : ips_active pset' = ips_active pset ∧ ips_references pset' ≤ IO_MAX_REFERENCES ∧
  ips_references pset' + Z.of_nat (count (ip_pset port = s)) =
  ips_references pset + Z.of_nat (count (ip_pset port' = s)).

Lemma queue_changed q mq :
  queue_of ports' psets' q = Some mq →
  (q = MQ_port p ∧ mq = ip_messages port') ∨ (q = MQ_pset s ∧ mq = ips_messages pset') ∨
  queue_of ports psets q = Some mq.
Proof.
  destruct q as [x|x]; simpl; destruct (decide (x = p)), (decide (x = s)); subst;
    rewrite ?lookup_insert_eq, ?lookup_insert_ne by done; naive_solver.
Qed.

Lemma queues_refs' x setx :
  psets' !! x = Some setx → x ≠ IPS_NULL ∧
  Z.of_nat (members ports' x) + (if ips_active setx then 1 else 0) ≤ ips_references setx ≤ IO_MAX_REFERENCES.
Proof.
  destruct (qw_refs _ _ Hwf s pset Hs) as [Hnz Hrs]. destruct Hrefs as (Ha & Hmax & Hr).
  destruct (decide (x = s)) as [->|Hne].
  - rewrite lookup_insert_eq. intros [= <-]. split; [done|].
    pose proof (members_insert ports p port port' s Hp) as Hm. rewrite Ha. lia.
  - rewrite lookup_insert_ne by done. intros Hx. destruct (qw_refs _ _ Hwf x setx Hx) as [Hxz Hxr].
    split; [done|]. pose proof (members_insert ports p port port' x Hp) as Hm.
    assert (∀ q : ipc_port, ip_pset q = IPS_NULL ∨ ip_pset q = s → count (ip_pset q = x) = 0%nat) as Hc.
    { intros q Hq. unfold count. rewrite decide_False; [done|]. destruct Hq; congruence. }
    rewrite !Hc in Hm by naive_solver. lia.
Qed.

Lemma queues_update : queues_wf ports' psets'.
Proof.
  pose proof (qw_refs _ _ Hwf s pset Hs) as [Hnz _]. pose proof queues_nodup2' as Hnd.
  rewrite fmap_app, NoDup_app in Hnd. split.
  - intros q mq [[-> ->]|[[-> ->]|Hq]]%queue_changed; [naive_solver..|by apply (qw_unlocked _ _ Hwf q)].
  - intros q mq [[-> ->]|[[-> ->]|Hq]]%queue_changed; [naive_solver..|by apply (qw_calm _ _ Hwf q)].
  - intros q mq [[-> ->]|[[-> ->]|Hq]]%queue_changed; [naive_solver..|by apply (qw_nodup _ _ Hwf q)].
  - apply queues_apart'.
  - intros x px. destruct (decide (x = p)) as [->|].
    + rewrite lookup_insert_eq. intros [= <-] Hx. destruct Hafter as [[_ ?]|[? _]]; congruence.
    + rewrite lookup_insert_ne by done. apply (qw_own _ _ Hwf).
  - intros x px. destruct (decide (x = p)) as [->|].
    + rewrite lookup_insert_eq. intros [= <-] Hx. destruct Hafter as [[? _]|(-> & ? & ?)]; [done|].
      split_and!; [done..|]. rewrite lookup_insert_eq. by eexists.
    + rewrite lookup_insert_ne by done. intros Hx Hn. destruct (qw_member _ _ Hwf x px Hx Hn) as (? & ? & ?).
      split_and!; [done..|]. by rewrite lookup_insert_is_Some'; right.
  - intros x setx m. destruct (decide (x = s)) as [->|].
    + rewrite lookup_insert_eq. intros [= <-] Hm. destruct (Hset m Hm) as [[Hmp ?]|[Hne Hm0]].
      * exists port'. by rewrite Hmp, lookup_insert_eq.
      * destruct (qw_set _ _ Hwf s pset m Hs Hm0) as (q & Hq & ?). exists q. by rewrite lookup_insert_ne.
    + rewrite lookup_insert_ne by done. intros Hx Hm. destruct (qw_set _ _ Hwf x setx m Hx Hm) as (q & Hq & Hqs).
      exists q. rewrite lookup_insert_ne; [done|]. intros Heq. rewrite <-Heq, Hp in Hq. injection Hq as <-.
      destruct Hbefore as [Hn|Hn]; rewrite Hn in Hqs; [|done]. by apply (proj1 (qw_refs _ _ Hwf x setx Hx)).
  - apply queues_refs'.
Qed.
End update.

(** ** A port joins a set, and leaves it *)

Lemma queues_wf_ready ports psets p s port pset :
  queues_wf ports psets → ports !! p = Some port → psets !! s = Some pset → queues_ready p port pset.
Proof.
  intros Hw Hp Hs.
  assert (queue_of ports psets (MQ_port p) = Some (ip_messages port)) as H1 by (simpl; by rewrite Hp).
  assert (queue_of ports psets (MQ_pset s) = Some (ips_messages pset)) as H2 by (simpl; by rewrite Hs).
  split; first [by eapply (qw_unlocked _ _ Hw)|by eapply (qw_nodup _ _ Hw)|by eapply (qw_calm _ _ Hw)].
Qed.

Lemma mq_accept_calm q ms : mq_calm q → mq_calm (mq_accept q ms).
Proof.
  destruct q as [lk qm ths]. unfold mq_calm, mq_accept. simpl. intros [->| ->]; [left; apply drop_nil|].
  destruct (decide (length ms ≤ length ths)%nat); [right; by rewrite drop_ge|left; rewrite drop_ge; [done|lia]].
Qed.

(** Messages of members only are in the queue of a set. *)
Lemma not_member_mine ports psets p s port pset :
  queues_wf ports psets → ports !! p = Some port → psets !! s = Some pset → ip_pset port ≠ s →
  mine p (imq_messages (ips_messages pset)) = [].
Proof.
  intros Hw Hp Hs Hn. apply mine_nil. intros m Hm Heq.
  destruct (qw_set _ _ Hw s pset m Hs Hm) as (q & Hq & Hqs). rewrite Heq in Hq. congruence.
Qed.

Section steps.
Context (ports : ports_t) (psets : psets_t) (p s : Z) (port : ipc_port) (pset : ipc_pset).
Hypothesis Hwf : queues_wf ports psets.
Hypothesis Hp : ports !! p = Some port.
Hypothesis Hs : psets !! s = Some pset.
Hypothesis Hact : ip_active port = true.

Lemma joined_wf :
  ip_pset port = IPS_NULL → ips_references pset < IO_MAX_REFERENCES →
  queues_wf (<[p := joined_port s port pset]> ports) (<[s := joined_pset port pset]> psets).
Proof.
  intros Hn Hr. destruct (queues_wf_ready _ _ _ _ _ _ Hwf Hp Hs) as [Hpl Hsl Hpn Hsn Hpc Hsc].
  pose proof (qw_refs _ _ Hwf s pset Hs) as [Hnz _]. pose proof (qw_own _ _ Hwf p port Hp Hn) as Hown.
  apply (queues_update _ _ _ _ port _ pset); try done.
  - simpl. rewrite (Permutation_app_comm (imq_messages (ip_messages port))). apply submseteq_skips_l.
    apply sublist_submseteq, sublist_drop.
  - split_and!; [done..|by left|by apply mq_accept_calm].
  - by left.
  - right. done.
  - simpl. intros m [Hm|Hm]%elem_of_app.
    + right. split; [|done]. intros Heq. destruct (qw_set _ _ Hwf s pset m Hs Hm) as (q & Hq & Hqs).
      rewrite Heq in Hq. congruence.
    + left. split; [|done]. eapply Forall_forall in Hown; [done|].
      eapply elem_of_sublist; [done|]. apply sublist_drop.
  - simpl. unfold count. rewrite decide_False, decide_True by congruence.
    split_and!; [done|lia..].
Qed.

Lemma left_wf :
  ip_pset port = s →
  queues_wf (<[p := left_port p port pset]> ports) (<[s := left_pset p pset]> psets).
Proof.
  intros Hset. destruct (queues_wf_ready _ _ _ _ _ _ Hwf Hp Hs) as [Hpl Hsl Hpn Hsn Hpc Hsc].
  pose proof (qw_refs _ _ Hwf s pset Hs) as [Hnz Hrs].
  destruct (qw_member _ _ Hwf p port Hp) as (_ & Hq & _); [congruence|].
  apply (queues_update _ _ _ _ port _ pset); try done.
  - simpl. rewrite Hq. simpl. rewrite drop_0. apply Permutation_submseteq, mine_split.
  - split_and!; [done..| |].
    + by apply mq_accept_calm.
    + destruct Hsc as [?|Hsc]; [by left|right]. simpl. by rewrite Hsc.
  - by right.
  - left. split; [done|]. simpl. rewrite Hq. simpl. rewrite drop_0. apply mine_forall.
  - simpl. intros m [Hne Hm]%list_elem_of_filter. by right.
  - simpl. unfold count. rewrite decide_True, decide_False by congruence.
    destruct (ips_active pset); split_and!; try done; lia.
Qed.

(** Other ports see no change. *)
Lemma joined_messages st q :
  ps_ports st = <[p := joined_port s port pset]> ports →
  ps_psets st = <[s := joined_pset port pset]> psets → ip_pset port = IPS_NULL →
  port_messages st q =
    if decide (q = p) then drop (length (imq_threads (ips_messages pset))) (imq_messages (ip_messages port))
    else port_messages (PST ports psets 0 false [] [] 0) q.
Proof.
  intros H1 H2 Hn. pose proof (qw_refs _ _ Hwf s pset Hs) as [Hnz _].
  pose proof (qw_own _ _ Hwf p port Hp Hn) as Hown.
  unfold port_messages. rewrite H1, H2. simpl ps_ports. simpl ps_psets. case_decide as Hq.
  - subst q. rewrite lookup_insert_eq. simpl. rewrite (proj2 (Z.eqb_neq _ _) Hnz), lookup_insert_eq. simpl.
    rewrite mine_app, (not_member_mine ports psets p s port pset) by congruence. simpl.
    apply others_mine. by apply Forall_drop.
  - rewrite lookup_insert_ne by done. destruct (ports !! q) as [pq|] eqn:Hpq; [|done].
    destruct (Z.eqb_spec (ip_pset pq) IPS_NULL); [done|].
    destruct (decide (ip_pset pq = s)) as [->|Hne]; [|by rewrite lookup_insert_ne].
    rewrite lookup_insert_eq, Hs. simpl. rewrite mine_app, (mine_nil q (drop _ _)); [by rewrite app_nil_r|].
    intros m Hm. eapply Forall_forall in Hown; [|eapply elem_of_sublist; [done|apply sublist_drop]].
    simpl in Hown. congruence.
Qed.

Lemma left_messages st q :
  ps_ports st = <[p := left_port p port pset]> ports →
  ps_psets st = <[s := left_pset p pset]> psets → ip_pset port = s →
  port_messages st q = port_messages (PST ports psets 0 false [] [] 0) q.
Proof.
  intros H1 H2 Hset. pose proof (qw_refs _ _ Hwf s pset Hs) as [Hnz _].
  destruct (qw_member _ _ Hwf p port Hp) as (_ & Hq & _); [congruence|].
  unfold port_messages. rewrite H1, H2. simpl ps_ports. simpl ps_psets. destruct (decide (q = p)) as [->|Hne].
  - rewrite lookup_insert_eq, Hp, Hset. simpl. rewrite (proj2 (Z.eqb_neq _ _) Hnz), Hs, Hq. simpl. by rewrite drop_0.
  - rewrite lookup_insert_ne by done. destruct (ports !! q) as [pq|] eqn:Hpq; [|done].
    destruct (Z.eqb_spec (ip_pset pq) IPS_NULL); [done|].
    destruct (decide (ip_pset pq = s)) as [->|Hn]; [|by rewrite lookup_insert_ne].
    rewrite lookup_insert_eq, Hs. simpl. by rewrite mine_others.
Qed.
End steps.

(** ** Locks and the rest of the state do not matter *)

Definition port_core (port : ipc_port) : Z * bool * ipc_mqueue :=
  (ip_pset port, ip_active port, ip_messages port).
Definition pset_core (pset : ipc_pset) : Z * bool * ipc_mqueue :=
  (ips_references pset, ips_active pset, ips_messages pset).

Definition same_queues (st st' : pstate) : Prop :=
  port_core <$> ps_ports st' = port_core <$> ps_ports st ∧
  pset_core <$> ps_psets st' = pset_core <$> ps_psets st.

Lemma core_lookup {A B} (f : A → B) (m m' : gmap Z A) k x' :
  f <$> m' = f <$> m → m' !! k = Some x' → ∃ x, m !! k = Some x ∧ f x = f x'.
Proof.
  intros Hf Hk. apply (f_equal (lookup k)) in Hf. rewrite !lookup_fmap, Hk in Hf. simpl in Hf.
  destruct (m !! k) as [x|]; [|done]. exists x. split; [done|]. simpl in Hf. congruence.
Qed.

Lemma core_insert {A B} (f : A → B) (m : gmap Z A) k x x' :
  m !! k = Some x → f x' = f x → f <$> <[k := x']> m = f <$> m.
Proof. intros Hk Hf. rewrite fmap_insert, Hf. apply insert_id. by rewrite lookup_fmap, Hk. Qed.

Section same_queues.
Context (st st' : pstate).
Hypothesis Hsame : same_queues st st'.

Lemma same_queues_port p port' :
  ps_ports st' !! p = Some port' →
  ∃ port, ps_ports st !! p = Some port ∧ port_core port = port_core port'.
Proof. apply core_lookup, Hsame. Qed.
Lemma same_queues_pset s pset' :
  ps_psets st' !! s = Some pset' →
  ∃ pset, ps_psets st !! s = Some pset ∧ pset_core pset = pset_core pset'.
Proof. apply core_lookup, Hsame. Qed.

Lemma same_queues_of q :
  queue_of (ps_ports st') (ps_psets st') q = queue_of (ps_ports st) (ps_psets st) q.
Proof.
  destruct Hsame as [H1 H2]. destruct q as [p|s]; simpl.
  - apply (f_equal (lookup p)) in H1. rewrite !lookup_fmap in H1.
    destruct (ps_ports st' !! p), (ps_ports st !! p); simpl in *; unfold port_core in *; congruence.
  - apply (f_equal (lookup s)) in H2. rewrite !lookup_fmap in H2.
    destruct (ps_psets st' !! s), (ps_psets st !! s); simpl in *; unfold pset_core in *; congruence.
Qed.

Lemma same_queues_members s : members (ps_ports st') s = members (ps_ports st) s.
Proof.
  unfold members. assert (∀ st, ip_pset <$> ps_ports st = (λ c : Z * bool * ipc_mqueue, c.1.1) <$> (port_core <$> ps_ports st)) as Hx.
  { intros. by rewrite <-map_fmap_compose. }
  rewrite !Hx. by destruct Hsame as [-> _].
Qed.

Lemma same_queues_messages p : port_messages st' p = port_messages st p.
Proof.
  unfold port_messages. destruct Hsame as [H1 H2].
  apply (f_equal (lookup p)) in H1. rewrite !lookup_fmap in H1.
  destruct (ps_ports st' !! p) as [port'|], (ps_ports st !! p) as [port|]; try done.
  injection H1 as Hp _ Hq. rewrite Hp, Hq. case_match; [done|].
  apply (f_equal (lookup (ip_pset port))) in H2. rewrite !lookup_fmap in H2.
  destruct (ps_psets st' !! _) as [pset'|], (ps_psets st !! _) as [pset|]; try done.
  by injection H2 as _ _ ->.
Qed.

Lemma same_queues_wf : queues_wf (ps_ports st) (ps_psets st) → queues_wf (ps_ports st') (ps_psets st').
Proof.
  intros Hw. split.
  - intros q mq. rewrite same_queues_of. apply Hw.
  - intros q mq. rewrite same_queues_of. apply Hw.
  - intros q mq. rewrite same_queues_of. apply (qw_nodup _ _ Hw).
  - intros q q' mq mq' m m'. rewrite !same_queues_of. apply Hw.
  - intros p port' (port & Hp & Hc)%same_queues_port. injection Hc as <- _ <-.
    by apply (qw_own _ _ Hw).
  - intros p port' (port & Hp & Hc)%same_queues_port Hn. injection Hc as Hc1 Hc2 Hc3.
    rewrite <-Hc1, <-Hc2, <-Hc3 in *. destruct (qw_member _ _ Hw p port Hp Hn) as (? & ? & (x & Hx)).
    split_and!; [done..|]. destruct Hsame as [_ H2]. apply (f_equal (lookup (ip_pset port))) in H2.
    rewrite !lookup_fmap, Hx in H2. destruct (ps_psets st' !! _); [by eexists|done].
  - intros s pset' m (pset & Hs & Hc)%same_queues_pset Hm. injection Hc as _ _ Hc.
    rewrite <-Hc in Hm. destruct (qw_set _ _ Hw s pset m Hs Hm) as (port & Hp & Hps).
    destruct Hsame as [H1 _]. symmetry in H1. destruct (core_lookup _ _ _ _ _ H1 Hp) as (port' & ? & Hc').
    exists port'. split; [done|]. injection Hc' as -> _ _. done.
  - intros s pset' (pset & Hs & Hc)%same_queues_pset. rewrite same_queues_members.
    injection Hc as <- <- _. by apply (qw_refs _ _ Hw).
Qed.
End same_queues.

(** A dead set without members can be freed. *)
Lemma pset_free_wf st s pset :
  queues_wf (ps_ports st) (ps_psets st) → ps_psets st !! s = Some pset → ips_references pset = 0 →
  queues_wf (ps_ports st) (delete s (ps_psets st)) ∧
  ∀ p, port_messages (with_psets st (delete s)) p = port_messages st p.
Proof.
  intros Hw Hs Hr. pose proof (qw_refs _ _ Hw s pset Hs) as [Hnz Hm]. rewrite Hr in Hm.
  assert (members (ps_ports st) s = 0%nat) as H0 by (destruct (ips_active pset); lia).
  assert (∀ p port, ps_ports st !! p = Some port → ip_pset port ≠ s) as Hno.
  { intros p port Hp <-. apply map_size_empty_inv in H0. apply (f_equal (lookup p)) in H0.
    rewrite lookup_empty, map_lookup_filter_None, lookup_fmap, Hp in H0. naive_solver. }
  assert (∀ q mq, queue_of (ps_ports st) (delete s (ps_psets st)) q = Some mq →
    queue_of (ps_ports st) (ps_psets st) q = Some mq) as Hq.
  { intros [x|x] mq; simpl; [done|]. destruct (decide (x = s)) as [->|].
    - by rewrite lookup_delete_eq. - by rewrite lookup_delete_ne. }
  split.
  - split.
    + intros q mq ?%Hq. by apply (qw_unlocked _ _ Hw q).
    + intros q mq ?%Hq. by apply (qw_calm _ _ Hw q).
    + intros q mq ?%Hq. by apply (qw_nodup _ _ Hw q).
    + intros q q' mq mq' m m' ?%Hq ?%Hq. by apply (qw_apart _ _ Hw q q' mq mq').
    + apply (qw_own _ _ Hw).
    + intros p port Hp Hn. destruct (qw_member _ _ Hw p port Hp Hn) as (? & ? & ?).
      split_and!; [done..|]. rewrite lookup_delete_ne; [done|]. by apply not_eq_sym, (Hno p).
    + intros x setx m (_ & Hx)%lookup_delete_Some. by apply (qw_set _ _ Hw).
    + intros x setx (_ & Hx)%lookup_delete_Some. by apply (qw_refs _ _ Hw).
  - intros p. unfold port_messages. simpl. destruct (ps_ports st !! p) as [port|] eqn:Hp; [|done].
    destruct (ip_pset port =? IPS_NULL); [done|].
    by rewrite lookup_delete_ne by (by apply not_eq_sym, (Hno p)).
Qed.

(** ** ipc_pset_move *)

(** Messages the threads of [ws] (latest first) have been given. *)
Definition delivered (ws : list wakeup) : list ipc_kmsg :=
  omap (λ w, fst <$> wk_message w) (reverse ws).

Lemma delivered_app ws ws' : delivered (ws' ++ ws) = delivered ws ++ delivered ws'.
Proof. unfold delivered. by rewrite reverse_app, omap_app. Qed.

Lemma delivered_handed ths n ms : delivered (reverse (handed ths n ms)) = take (length ths) ms.
Proof.
  unfold delivered. rewrite reverse_involutive. revert n ms.
  induction ths as [|th ths IH]; intros n [|m ms]; try done. simpl. by rewrite IH.
Qed.

Lemma delivered_moved ths : delivered (reverse (moved <$> ths)) = [].
Proof. unfold delivered. rewrite reverse_involutive. by induction ths. Qed.

(** No message of any port is lost, repeated or overtaken: what [p] had is
    what threads were handed, then what it has. *)
Definition conserved (p : Z) (st st' : pstate) : Prop :=
  ∃ ws, ps_woken st' = ws ++ ps_woken st ∧
    port_messages st p = delivered ws ++ port_messages st' p ∧
    ∀ q, q ≠ p → port_messages st' q = port_messages st q.

Lemma conserved_same p st st' :
  ps_woken st' = ps_woken st → same_queues st st' → conserved p st st'.
Proof.
  intros Hw Hs. exists []. split; [done|]. split; [|intros q _]; simpl; by rewrite (same_queues_messages st st').
Qed.

Lemma conserved_trans p st1 st2 st3 : conserved p st1 st2 → conserved p st2 st3 → conserved p st1 st3.
Proof.
  intros (w1 & Hw1 & Hp1 & Hq1) (w2 & Hw2 & Hp2 & Hq2). exists (w2 ++ w1). split_and!.
  - by rewrite Hw2, Hw1, app_assoc.
  - by rewrite delivered_app, <-app_assoc, Hp1, Hp2.
  - intros q Hq. by rewrite Hq2, Hq1.
Qed.

(** ** Who is waiting, and who gets what *)

Definition seqno_of (st : pstate) (p : Z) : Z := default 0 (ip_seqno <$> ps_ports st !! p).

(** The threads that wait at a queue. *)
Definition receivers (st : pstate) (q : mqptr) : option (list Z) :=
  imq_threads <$> queue_of (ps_ports st) (ps_psets st) q.

(** Nobody is given anything; sets may go. *)
Record undelivered (p : Z) (st st' : pstate) : Prop := {
  ud_woken : ps_woken st' = ps_woken st;
  ud_messages q : port_messages st' q = port_messages st q;
  ud_seqno : seqno_of st' p = seqno_of st p;
  ud_receivers q ths : receivers st' q = Some ths → receivers st q = Some ths;
}.

(** The port has come into the set [s], where [rs] waited; [own] waited at
    the port.  The messages of the port are handed to [rs], one to each, with
    consecutive sequence numbers, and who has got one no longer waits; [own]
    are told that the port has moved. *)
Record came_into (p s : Z) (rs own : list Z) (st st' : pstate) : Prop := {
  ci_receivers : receivers st (MQ_pset s) = Some rs ∧ receivers st (MQ_port p) = Some own;
  ci_woken : ps_woken st' =
    reverse (handed rs (seqno_of st p) (port_messages st p) ++ (moved <$> own)) ++ ps_woken st;
  ci_messages : port_messages st' p = drop (length rs) (port_messages st p);
  ci_others q : q ≠ p → port_messages st' q = port_messages st q;
  ci_seqno : seqno_of st' p = seqno_after rs (seqno_of st p) (port_messages st p);
  ci_waiting : receivers st' (MQ_pset s) = Some (drop (length (port_messages st p)) rs) ∧
    receivers st' (MQ_port p) = Some [];
  ci_elsewhere q ths : q ≠ MQ_pset s → q ≠ MQ_port p → receivers st' q = Some ths → receivers st q = Some ths;
}.

Lemma undelivered_conserved p st st' : undelivered p st st' → conserved p st st'.
Proof. intros [Hw Hm _ _]. exists []. split_and!; [done|by rewrite Hm|done]. Qed.

Lemma came_conserved p s rs own st st' : came_into p s rs own st st' → conserved p st st'.
Proof.
  intros [_ Hw Hm Ho _ _ _]. eexists. split_and!; [exact Hw| |done].
  rewrite reverse_app, delivered_app, delivered_handed, delivered_moved, app_nil_r, Hm. by rewrite take_drop.
Qed.

Lemma undelivered_trans p st1 st2 st3 : undelivered p st1 st2 → undelivered p st2 st3 → undelivered p st1 st3.
Proof. intros [H1 H2 H3 H4] [G1 G2 G3 G4]. split; [congruence|intros q; by rewrite G2|congruence|auto]. Qed.

Lemma came_after p s rs own st1 st2 st3 : undelivered p st1 st2 → came_into p s rs own st2 st3 → came_into p s rs own st1 st3.
Proof.
  intros [H1 H2 H3 H4] [[G1 G1'] G2 G3 G4 G5 G6 G7]. rewrite H1, H2, H3 in *.
  split; [by split; apply H4|done|done|intros q ?; by rewrite G4|done|done|auto].
Qed.

Lemma came_before p s rs own st1 st2 st3 :
  came_into p s rs own st1 st2 → undelivered p st2 st3 → is_Some (ps_psets st3 !! s) → is_Some (ps_ports st3 !! p) →
  came_into p s rs own st1 st3.
Proof.
  intros [G1 G2 G3 G4 G5 [G6 G6'] G7] [H1 H2 H3 H4] [ps Hs] [pt Hp].
  split; [done|congruence|by rewrite H2|intros q ?; rewrite H2; auto|congruence| |auto].
  assert (∀ q ths, is_Some (queue_of (ps_ports st3) (ps_psets st3) q) → receivers st2 q = Some ths → receivers st3 q = Some ths) as Hx.
  { intros q ths [mq Hq] Hr. unfold receivers in *. rewrite Hq in *. by rewrite (H4 q (imq_threads mq)) in Hr by (by rewrite Hq). }
  split; apply Hx; simpl; rewrite ?Hs, ?Hp; done.
Qed.

Lemma undelivered_same p st st' :
  ps_woken st' = ps_woken st → same_queues st st' → seqno_of st' p = seqno_of st p → undelivered p st st'.
Proof.
  intros Hw Hs Hn. split; [done| |done|].
  - intros q. by rewrite (same_queues_messages st st').
  - intros q ths. unfold receivers. by rewrite (same_queues_of st st').
Qed.

Section pset_move.
Context `{W : pworld, !quiet}.

Lemma ips_lock_quiet st s pset :
  ps_psets st !! s = Some pset → ips_locked pset = false →
  ips_lock st s = Ok (sput (ptick st) s (set_ips_locked pset true)).
Proof.
  intros Hs Hl. unfold ips_lock, sget. rewrite Hs. ostep. rewrite Hl, other_id.
  by rewrite (smod_spec _ _ pset).
Qed.

Lemma ips_unlock_spec st s pset :
  ps_psets st !! s = Some pset → ips_locked pset = true →
  ips_unlock st s = Ok (sput st s (set_ips_locked pset false)).
Proof. intros Hs Hl. unfold ips_unlock, sget. rewrite Hs. ostep. by rewrite Hl, (smod_spec _ _ pset). Qed.

Lemma ips_check_unlock_spec st s pset :
  ps_psets st !! s = Some pset → ips_locked pset = true →
  ips_check_unlock st s = Ok (if ips_references pset =? 0 then with_psets st (delete s)
    else sput st s (set_ips_locked pset false)).
Proof.
  intros Hs Hl. unfold ips_check_unlock, sget. rewrite Hs. ostep. rewrite (ips_unlock_spec _ _ pset) by done. ostep.
  case_match; [|done]. unfold sput, with_psets. simpl. by rewrite delete_insert_eq.
Qed.

(** The state of the queues, one port and the sets during an operation. *)
Record at_port (st : pstate) (p : Z) (port : ipc_port) : Prop := {
  ap_wf : queues_wf (ps_ports st) (ps_psets st);
  ap_port : ps_ports st !! p = Some port;
  ap_active : ip_active port = true;
  ap_locked : ip_locked port = true;
}.

Lemma ap_lock_pset st p port s pset b :
  at_port st p port → ps_psets st !! s = Some pset →
  let st' := sput st s (set_ips_locked pset b) in
  at_port st' p port ∧ at_port (ptick st') p port ∧ same_queues st st'.
Proof.
  intros [Hw Hp Ha Hl] Hs st'.
  assert (same_queues st st') as Hsame by (split; [done|by apply (core_insert _ _ _ pset)]).
  pose proof (same_queues_wf _ _ Hsame Hw). done.
Qed.

Lemma add_step st p port s pset :
  at_port st p port → ps_psets st !! s = Some pset → ip_pset port = IPS_NULL →
  ips_active pset = true → ips_references pset < IO_MAX_REFERENCES →
  ∃ st' port', ipc_pset_add st s p = Ok st' ∧ at_port st' p port' ∧ ip_pset port' = s ∧
    (∃ rs own, came_into p s rs own st st') ∧ ps_psets st' = <[s := joined_pset port pset]> (ps_psets st).
Proof.
  intros [Hw Hp Ha Hl] Hs Hn Hsa Hr. pose proof (queues_wf_ready _ _ _ _ _ _ Hw Hp Hs) as Hrdy.
  rewrite (pset_add_eq st p s port pset); try done; [|by apply (qw_own _ _ Hw)].
  eexists _, (joined_port s port pset). split; [done|]. set (st' := set_woken _ _). split_and!.
  - split; [|apply lookup_insert_eq|done..]. by apply joined_wf.
  - done.
  - exists (imq_threads (ips_messages pset)), (imq_threads (ip_messages port)).
    assert (port_messages st p = imq_messages (ip_messages port)) as Hm by (unfold port_messages; by rewrite Hp, Hn).
    assert (seqno_of st p = ip_seqno port) as Hsq by (unfold seqno_of; by rewrite Hp).
    pose proof (joined_messages _ _ p s port pset Hw Hp Hs st') as Hj.
    split; rewrite ?Hm, ?Hsq; unfold receivers.
    + simpl. by rewrite Hs, Hp.
    + simpl. by rewrite reverse_app, app_assoc.
    + rewrite Hj by done. by rewrite decide_True.
    + intros q Hq. rewrite Hj by done. by rewrite decide_False.
    + unfold seqno_of. simpl. by rewrite lookup_insert_eq.
    + simpl. by rewrite !lookup_insert_eq.
    + intros [x|x] ths Hx1 Hx2; simpl; rewrite lookup_insert_ne by congruence; done.
  - done.
Qed.

Lemma remove_step st p port s pset :
  at_port st p port → ps_psets st !! s = Some pset → ip_pset port = s →
  ∃ st' port', ipc_pset_remove st s p = Ok st' ∧ at_port st' p port' ∧ ip_pset port' = IPS_NULL ∧
    undelivered p st st' ∧ ps_psets st' = <[s := left_pset p pset]> (ps_psets st).
Proof.
  intros [Hw Hp Ha Hl] Hs Hset. pose proof (queues_wf_ready _ _ _ _ _ _ Hw Hp Hs) as Hrdy.
  pose proof (qw_refs _ _ Hw s pset Hs) as [Hnz Hr].
  pose proof (left_wf _ _ p s port pset Hw Hp Hs Hset) as Hw'.
  pose proof (qw_refs _ _ Hw' s (left_pset p pset) (lookup_insert_eq _ _ _)) as [_ Hr'].
  destruct (qw_member _ _ Hw p port Hp) as (_ & Hq & _); [congruence|].
  rewrite (pset_remove_eq st p s port pset); try done; [|simpl in Hr'; destruct (ips_active pset); lia].
  eexists _, (left_port p port pset). split; [done|]. set (st' := set_woken _ _). split_and!.
  - split; [done|apply lookup_insert_eq|done..].
  - done.
  - split.
    + unfold st'. by rewrite Hq.
    + intros q. by rewrite (left_messages _ _ p s port pset Hw Hp Hs st').
    + unfold seqno_of. simpl. rewrite lookup_insert_eq, Hp. cbn. by rewrite Hq.
    + unfold receivers. intros [x|x] ths; simpl.
      * destruct (decide (x = p)) as [->|]; [|by rewrite lookup_insert_ne]. rewrite lookup_insert_eq, Hp. cbn. rewrite Hq. cbn. by rewrite drop_nil.
      * destruct (decide (x = s)) as [->|]; [|by rewrite lookup_insert_ne]. by rewrite lookup_insert_eq, Hs.
  - done.
Qed.

(** Only the sets have changed. *)
Definition only_psets (st st' : pstate) : Prop :=
  ps_ports st' = ps_ports st ∧ ps_notes st' = ps_notes st ∧ ps_timestamp st' = ps_timestamp st ∧
  ps_woken st' = ps_woken st.

(** Unlocking a set that has lost a member. *)
Lemma check_unlock_step st p port s pset :
  at_port st p port → ps_psets st !! s = Some pset → ips_locked pset = true →
  ∃ st', ips_check_unlock st s = Ok st' ∧ at_port st' p port ∧ undelivered p st st' ∧ only_psets st st'.
Proof.
  intros Hap Hs Hl. rewrite (ips_check_unlock_spec _ _ pset) by done. eexists. split; [done|].
  rewrite (assoc (∧)). split; [|by case_match]. destruct (Z.eqb_spec (ips_references pset) 0) as [H0|H0].
  - destruct Hap as [Hw Hp Ha Hpl]. destruct (pset_free_wf st s pset) as [Hw' Hm]; [done..|].
    split; [done|]. split; [done|done|done|]. unfold receivers. intros [x|x] ths; simpl; [done|].
    destruct (decide (x = s)) as [->|]; [by rewrite lookup_delete_eq|by rewrite lookup_delete_ne].
  - destruct (ap_lock_pset st p port s pset false) as (Hap' & _ & Hsame); [done..|].
    split; [done|]. by apply undelivered_same.
Qed.

Lemma pset_unlock_step st p port s pset :
  at_port st p port → ps_psets st !! s = Some pset → ips_locked pset = true →
  ∃ st', ips_unlock st s = Ok st' ∧ at_port st' p port ∧ undelivered p st st' ∧
    ps_psets st' = <[s := set_ips_locked pset false]> (ps_psets st).
Proof.
  intros Hap Hs Hl. rewrite (ips_unlock_spec _ _ pset) by done. eexists. split; [done|].
  destruct (ap_lock_pset st p port s pset false) as (Hap' & _ & Hsame); [done..|].
  split; [done|]. split; [by apply undelivered_same|done].
Qed.

Lemma pset_lock_step st p port s pset :
  at_port st p port → ps_psets st !! s = Some pset → ips_locked pset = false →
  ∃ st', ips_lock st s = Ok st' ∧ at_port st' p port ∧ undelivered p st st' ∧
    ps_psets st' = <[s := set_ips_locked pset true]> (ps_psets st).
Proof.
  intros Hap Hs Hl. rewrite (ips_lock_quiet _ _ pset) by done. eexists. split; [done|].
  destruct (ap_lock_pset st p port s pset true) as (Hap' & Hap'' & Hsame); [done..|].
  split; [done|]. split; [by apply undelivered_same|done].
Qed.

Lemma space_unlock sp :
  is_locked (st_space sp) = true →
  ∃ sp', is_write_unlock sp = Ok sp' ∧ sp' = with_space sp (λ s, set_is_locked s false).
Proof. intros Hl. unfold is_write_unlock. rewrite Hl. by eexists. Qed.

(** The outcome of the case analysis: the port is in [nset]. *)
Definition in_set (st st' : pstate) (p nset : Z) : Prop :=
  ∃ port', at_port st' p port' ∧ ip_pset port' = nset ∧ undelivered p st st'.

Definition into_set (st st' : pstate) (p nset : Z) : Prop :=
  ∃ port' rs own, at_port st' p port' ∧ ip_pset port' = nset ∧ came_into p nset rs own st st'.

(** Into a set, from none. *)
Lemma move_in_step st p port s pset :
  at_port st p port → ps_psets st !! s = Some pset → ips_locked pset = true → ip_pset port = IPS_NULL →
  ips_active pset = true → ips_references pset < IO_MAX_REFERENCES →
  ∃ st1 st', ipc_pset_add st s p = Ok st1 ∧ ips_unlock st1 s = Ok st' ∧ into_set st st' p s ∧
    ∀ x, x ≠ s → ps_psets st' !! x = ps_psets st !! x.
Proof.
  intros Hap Hs Hl Hn Ha Hr.
  destruct (add_step st p port s pset) as (st1 & port1 & Hrun & Hap1 & Hp1 & (rs & own & Hc1) & Hs1); [done..|].
  destruct (pset_unlock_step st1 p port1 s (joined_pset port pset)) as (st' & Hrun' & Hap' & Hc' & Hs');
    [done|by rewrite Hs1, lookup_insert_eq|done|].
  exists st1, st'. split_and!; [done..| |].
  - exists port1, rs, own. split_and!; [done..|]. eapply came_before; [done|done|by rewrite Hs', lookup_insert_eq|].
    rewrite (ap_port _ _ _ Hap'). by eexists.
  - intros x Hx. by rewrite Hs', Hs1, !lookup_insert_ne.
Qed.

(** Out of a set that is locked. *)
Lemma move_out_step st p port s pset :
  at_port st p port → ps_psets st !! s = Some pset → ips_locked pset = true → ip_pset port = s →
  ∃ st', ipc_pset_remove st s p = Ok st' ∧ in_set st st' p IPS_NULL ∧
    ps_psets st' = <[s := left_pset p pset]> (ps_psets st).
Proof.
  intros Hap Hs Hl Hset.
  destruct (remove_step st p port s pset) as (st1 & port1 & Hrun & Hap1 & Hp1 & Hc1 & Hs1); [done..|].
  exists st1. split_and!; [done| |done]. by exists port1.
Qed.

(** Both sets are locked, in the order of their addresses. *)
Lemma lock_two st p port s s' pset pset' :
  at_port st p port → s ≠ s' → ps_psets st !! s = Some pset → ps_psets st !! s' = Some pset' →
  ips_locked pset = false → ips_locked pset' = false →
  ∃ st', (if s <? s' then st ← ips_lock st s; ips_lock st s'
          else st ← ips_lock st s'; ips_lock st s) = Ok st' ∧
    at_port st' p port ∧ undelivered p st st' ∧
    ps_psets st' !! s = Some (set_ips_locked pset true) ∧
    ps_psets st' !! s' = Some (set_ips_locked pset' true).
Proof.
  intros Hap Hne Hs Hs' Hl Hl'. case_match.
  - destruct (pset_lock_step st p port s pset) as (st1 & -> & Hap1 & Hc1 & Hs1); [done..|]. ostep.
    destruct (pset_lock_step st1 p port s' pset') as (st2 & -> & Hap2 & Hc2 & Hs2); [done|by rewrite Hs1, lookup_insert_ne|done|].
    exists st2. split_and!; [done..|by eapply undelivered_trans| |]; rewrite Hs2.
    + by rewrite lookup_insert_ne, Hs1, lookup_insert_eq.
    + by rewrite lookup_insert_eq.
  - destruct (pset_lock_step st p port s' pset') as (st1 & -> & Hap1 & Hc1 & Hs1); [done..|]. ostep.
    destruct (pset_lock_step st1 p port s pset) as (st2 & -> & Hap2 & Hc2 & Hs2); [done|by rewrite Hs1, lookup_insert_ne|done|].
    exists st2. split_and!; [done..|by eapply undelivered_trans| |]; rewrite Hs2.
    + by rewrite lookup_insert_eq.
    + by rewrite lookup_insert_ne, Hs1, lookup_insert_eq.
Qed.

Lemma in_set_trans st1 st2 st3 p s : undelivered p st1 st2 → in_set st2 st3 p s → in_set st1 st3 p s.
Proof. intros Hc (port & ? & ? & ?). exists port. split_and!; [done..|by eapply undelivered_trans]. Qed.

Lemma into_set_trans st1 st2 st3 p s : undelivered p st1 st2 → into_set st2 st3 p s → into_set st1 st3 p s.
Proof. intros Hc (port & rs & own & ? & ? & ?). exists port, rs, own. split_and!; [done..|by eapply came_after]. Qed.

(** What a move from the set [oset] to the set [nset] is: nothing is
    delivered but when the port comes into a set. *)
Definition moved_to (st st' : pstate) (p oset nset : Z) : Prop :=
  if bool_decide (nset = IPS_NULL ∨ nset = oset) then undelivered p st st'
  else ∃ rs own, came_into p nset rs own st st'.

Definition in_new_set (st st' : pstate) (p oset nset : Z) : Prop :=
  ∃ port', at_port st' p port' ∧ ip_pset port' = nset ∧ moved_to st st' p oset nset.

Lemma in_set_new st st' p oset nset : nset = IPS_NULL ∨ nset = oset → in_set st st' p nset → in_new_set st st' p oset nset.
Proof. intros Hn (port & ? & ? & ?). exists port. split_and!; [done..|]. unfold moved_to. by rewrite bool_decide_true. Qed.

Lemma into_set_new st st' p oset nset :
  nset ≠ IPS_NULL → nset ≠ oset → into_set st st' p nset → in_new_set st st' p oset nset.
Proof.
  intros Hn Hne (port & rs & own & ? & ? & ?). exists port. split_and!; [done..|]. unfold moved_to.
  rewrite bool_decide_false by naive_solver. by exists rs, own.
Qed.

(** Is the port in a set that is alive? *)
Definition in_live_set (st : pstate) (port : ipc_port) : bool :=
  match ps_psets st !! ip_pset port with
  | Some pset => ips_active pset
  | None => false
  end.

(** Finally the port is unlocked. *)
Lemma unlock_port_step st st' p oset nset :
  in_new_set st st' p oset nset → ∃ st2 port2, ip_unlock st' p = Ok st2 ∧
    queues_wf (ps_ports st2) (ps_psets st2) ∧ ps_ports st2 !! p = Some port2 ∧
    ip_locked port2 = false ∧ ip_pset port2 = nset ∧ moved_to st st2 p oset nset.
Proof.
  intros (port' & [Hw Hp Ha Hl] & Hset & Hc). rewrite (ip_unlock_spec _ _ port') by done.
  eexists _, (set_ip_locked port' false). split; [done|].
  assert (same_queues st' (put st' p (set_ip_locked port' false))) as Hsame
    by (split; [by apply (core_insert _ _ _ port')|done]).
  assert (undelivered p st' (put st' p (set_ip_locked port' false))) as Hu.
  { apply undelivered_same; [done|done|]. unfold seqno_of. by rewrite put_get, Hp. }
  split_and!; [by eapply same_queues_wf|apply lookup_insert_eq|done..|].
  unfold moved_to in *. case_bool_decide as Hn; [by eapply undelivered_trans|].
  destruct Hc as (rs & own & Hc). exists rs, own. eapply came_before; [done|done| |rewrite put_get; by eexists].
  simpl. destruct (qw_member _ _ Hw p port' Hp) as (_ & _ & ?); [naive_solver|by rewrite <-Hset].
Qed.

(** What is known of the new set. *)
Definition nset_ok (st : pstate) (nset : Z) : Prop :=
  nset = IPS_NULL ∨ ∃ pset, ps_psets st !! nset = Some pset ∧
    ips_active pset = true ∧ ips_references pset < IO_MAX_REFERENCES.

Definition psets_unlocked (st : pstate) : Prop :=
  ∀ s pset, ps_psets st !! s = Some pset → ips_locked pset = false.

Definition move_done (sp sp' : istate) (st st' : pstate) (p nset oset : Z) (port_set : Z) (live : bool) : Prop :=
  sp' = with_space sp (λ s, set_is_locked s false) ∧ in_new_set st st' p port_set nset ∧
  (nset = IPS_NULL → (oset =? IPS_NULL) = negb live).

(** From no set. *)
Lemma pset_move_in sp st p port nset :
  is_locked (st_space sp) = true → at_port st p port → psets_unlocked st → nset_ok st nset →
  ip_pset port = IPS_NULL → nset ≠ IPS_NULL →
  ∃ sp' st' o, pset_move_body sp st p (ip_pset port) nset = Ok (sp', st', o) ∧
    move_done sp sp' st st' p nset o (ip_pset port) (in_live_set st port).
Proof.
  intros Hsp Hap Hun [->|(pset & Hs & Ha & Hr)] Hn Hnz; [done|]. unfold pset_move_body. rewrite Hn.
  rewrite (proj2 (Z.eqb_neq _ _)) by done. rewrite Z.eqb_refl.
  destruct (pset_lock_step st p port nset pset) as (st1 & -> & Hap1 & Hc1 & Hs1); [done..|by eapply Hun|]. ostep.
  assert (ps_psets st1 !! nset = Some (set_ips_locked pset true)) as Hg by (by rewrite Hs1, lookup_insert_eq).
  unfold sget at 1. rewrite Hg. ostep. simpl ips_active. rewrite Ha. ostep.
  destruct (space_unlock sp) as (sp' & -> & Hsp'); [done|]. ostep.
  destruct (move_in_step st1 p port nset (set_ips_locked pset true)) as (st2 & st3 & -> & Hu & Hin & _); [done..|].
  ostep. rewrite Hu. ostep. eexists _, _, _. split; [done|]. split_and!; [done| |done].
  apply into_set_new; [done|congruence|by eapply into_set_trans].
Qed.

(** Out of a set. *)
Lemma pset_move_out sp st p port :
  is_locked (st_space sp) = true → at_port st p port → psets_unlocked st → ip_pset port ≠ IPS_NULL →
  ∃ sp' st' o, pset_move_body sp st p (ip_pset port) IPS_NULL = Ok (sp', st', o) ∧
    move_done sp sp' st st' p IPS_NULL o (ip_pset port) (in_live_set st port).
Proof.
  intros Hsp Hap Hun Hnz. unfold pset_move_body. rewrite (proj2 (Z.eqb_neq _ _)) by done.
  rewrite Z.eqb_refl. destruct (space_unlock sp) as (sp' & -> & Hsp'); [done|]. ostep.
  destruct (qw_member _ _ (ap_wf _ _ _ Hap) p port) as (_ & _ & pset & Hs); [apply Hap|done|].
  destruct (pset_lock_step st p port (ip_pset port) pset) as (st1 & -> & Hap1 & Hc1 & Hs1); [done..|by eapply Hun|]. ostep.
  destruct (move_out_step st1 p port (ip_pset port) (set_ips_locked pset true)) as (st2 & -> & Hin & Hs2);
    [done|by rewrite Hs1, lookup_insert_eq|done..|]. ostep.
  assert (ps_psets st2 !! ip_pset port = Some (left_pset p (set_ips_locked pset true))) as Hg
    by (by rewrite Hs2, lookup_insert_eq).
  unfold sget at 1. rewrite Hg. ostep. simpl ips_active. unfold in_live_set. rewrite Hs.
  destruct Hin as (port2 & Hap2 & Hp2 & Hc2). destruct (ips_active pset).
  - destruct (pset_unlock_step st2 p port2 _ _ Hap2 Hg) as (st3 & -> & Hap3 & Hc3 & _); [done|]. ostep.
    eexists _, _, _. split; [done|]. split_and!; [done| |intros _; by apply Z.eqb_neq].
    apply in_set_new; [by left|]. exists port2. split_and!; [done..|]. eapply undelivered_trans; [done|by eapply undelivered_trans].
  - destruct (check_unlock_step st2 p port2 _ _ Hap2 Hg) as (st3 & -> & Hap3 & Hc3 & _); [done|]. ostep.
    eexists _, _, _. split; [done|]. split_and!; [done| |done].
    apply in_set_new; [by left|]. exists port2. split_and!; [done..|]. eapply undelivered_trans; [done|by eapply undelivered_trans].
Qed.

(** From one set to another. *)
Lemma pset_move_between sp st p port nset :
  is_locked (st_space sp) = true → at_port st p port → psets_unlocked st → nset_ok st nset →
  ip_pset port ≠ IPS_NULL → nset ≠ IPS_NULL → ip_pset port ≠ nset →
  ∃ sp' st' o, pset_move_body sp st p (ip_pset port) nset = Ok (sp', st', o) ∧
    move_done sp sp' st st' p nset o (ip_pset port) (in_live_set st port).
Proof.
  intros Hsp Hap Hun [->|(npset & Hns & Ha & Hr)] Hnz Hnn Hne; [done|]. unfold pset_move_body.
  rewrite !(proj2 (Z.eqb_neq _ _)) by done.
  destruct (qw_member _ _ (ap_wf _ _ _ Hap) p port) as (_ & _ & pset & Hs); [apply Hap|done|].
  destruct (lock_two st p port (ip_pset port) nset pset npset) as (st1 & -> & Hap1 & Hc1 & Hs1 & Hn1);
    [done..|by eapply Hun|by eapply Hun|]. ostep.
  destruct (space_unlock sp) as (sp' & -> & Hsp'); [done|]. ostep.
  unfold sget at 1. rewrite Hn1. ostep. simpl ips_active. rewrite Ha. ostep.
  destruct (move_out_step st1 p port (ip_pset port) (set_ips_locked pset true)) as (st2 & -> & Hin & Hs2); [done..|].
  ostep. destruct Hin as (port2 & Hap2 & Hp2 & Hc2).
  destruct (move_in_step st2 p port2 nset (set_ips_locked npset true)) as (st3 & st4 & -> & Hu & Hin & Hs4);
    [done|by rewrite Hs2, lookup_insert_ne|done..|]. ostep. rewrite Hu. ostep.
  destruct Hin as (port4 & rs & own & Hap4 & Hp4 & Hc4).
  destruct (check_unlock_step st4 p port4 (ip_pset port) (left_pset p (set_ips_locked pset true)))
    as (st5 & -> & Hap5 & Hc5 & _); [done|by rewrite Hs4, Hs2, lookup_insert_eq|done|]. ostep.
  eexists _, _, _. split; [done|]. split_and!; [done| |done].
  apply into_set_new; [done|congruence|]. exists port4, rs, own. split_and!; [done..|].
  eapply came_after; [done|]. eapply came_after; [done|]. eapply came_before; [done|done| |rewrite (ap_port _ _ _ Hap5); by eexists].
  destruct (qw_member _ _ (ap_wf _ _ _ Hap5) p port4 (ap_port _ _ _ Hap5)) as (_ & _ & ?); [congruence|by rewrite <-Hp4].
Qed.

Lemma pset_move_body_spec sp st p port nset :
  is_locked (st_space sp) = true → at_port st p port → psets_unlocked st → nset_ok st nset →
  ∃ sp' st' o, pset_move_body sp st p (ip_pset port) nset = Ok (sp', st', o) ∧
    move_done sp sp' st st' p nset o (ip_pset port) (in_live_set st port).
Proof.
  intros Hsp Hap Hun Hok. destruct (decide (ip_pset port = nset)) as [Heq|Hne].
  - unfold pset_move_body. rewrite Heq, Z.eqb_refl. destruct (space_unlock sp) as (sp' & -> & Hsp'); [done|]. ostep.
    eexists _, _, _. split; [done|]. split_and!; [done| |].
    + apply in_set_new; [by right|]. exists port. split_and!; [done..|]. by apply undelivered_same.
    + intros ->. rewrite Z.eqb_refl. unfold in_live_set. rewrite Heq.
      destruct (ps_psets st !! IPS_NULL) as [pset|] eqn:Hx; [|done].
      by destruct (qw_refs _ _ (ap_wf _ _ _ Hap) _ _ Hx).
  - destruct (decide (ip_pset port = IPS_NULL)); [by apply pset_move_in; [..|congruence]|].
    destruct (decide (nset = IPS_NULL)) as [->|]; [by apply pset_move_out|by apply pset_move_between].
Qed.

(** ipc_pset_move puts an active port into the set asked for, or takes it
    out of its set: the queues of ports and sets stay well-formed, no message
    of any port is lost, repeated or overtaken (those of the port itself may
    be handed to receivers waiting on the new set), the space and the port
    are left unlocked, and KERN_NOT_IN_SET says that there was no live set to
    take the port out of. *)
(** C27. ipc_pset_move puts a port into another port set, into none or from
    one to another: the invariant of queues and sets holds afterwards, the
    port is a member of exactly the set asked for, the space is unlocked,
    and the messages sent to each port are neither lost, duplicated nor
    reordered: each is still queued for its port, or has been handed to a
    receiver that waited on the set; the receivers are taken in order, each
    gets one message with the next sequence number of the port and leaves
    the queue of waiting threads, and no other thread is woken with a
    message; KERN_NOT_IN_SET is returned exactly when the port was in no
    live set and is to be in none. *)
Theorem pset_move_correct sp st p port nset :
  is_locked (st_space sp) = true → queues_wf (ps_ports st) (ps_psets st) → psets_unlocked st →
  ps_ports st !! p = Some port → ip_locked port = false → ip_active port = true → nset_ok st nset →
  ∃ st' port', ipc_pset_move sp st p nset =
      Ok (with_space sp (λ s, set_is_locked s false), st',
          if (nset =? IPS_NULL) && negb (in_live_set st port) then KERN_NOT_IN_SET else KERN_SUCCESS) ∧
    queues_wf (ps_ports st') (ps_psets st') ∧ ps_ports st' !! p = Some port' ∧
    ip_locked port' = false ∧ ip_pset port' = nset ∧ conserved p st st' ∧ moved_to st st' p (ip_pset port) nset.
Proof.
  intros Hsp Hw Hun Hp Hl Ha Hok. unfold ipc_pset_move. rewrite (ip_lock_quiet st p port) by done. ostep.
  unfold pget at 1. rewrite put_get. ostep. simpl ip_active. rewrite Ha. ostep. simpl ip_pset.
  set (st1 := put (ptick st) p (set_ip_locked port true)).
  assert (same_queues st st1) as Hsame by (split; [by apply (core_insert _ _ _ port)|done]).
  assert (at_port st1 p (set_ip_locked port true)) as Hap
    by (split; [by eapply same_queues_wf|apply put_get|done..]).
  destruct (pset_move_body_spec sp st1 p (set_ip_locked port true) nset) as (sp' & st2 & o & Hrun & -> & Hin & Hkr);
    [done..|]. simpl ip_pset in Hrun. rewrite Hrun. ostep.
  destruct (unlock_port_step st1 st2 p _ nset Hin) as (st3 & port3 & -> & Hw3 & Hp3 & Hl3 & Hs3 & Hc3). ostep.
  assert (undelivered p st st1) as Hu1 by (apply undelivered_same; [done|done|]; unfold seqno_of, st1; by rewrite put_get, Hp).
  assert (moved_to st st3 p (ip_pset port) nset) as Hm.
  { change (ip_pset (set_ip_locked port true)) with (ip_pset port) in Hc3. unfold moved_to in *.
    case_bool_decide; [by eapply undelivered_trans|]. destruct Hc3 as (rs & own & Hc3). exists rs, own. by eapply came_after. }
  exists st3, port3. split_and!; [|done..| |done].
  - do 2 f_equal. destruct (Z.eqb_spec nset IPS_NULL) as [->|]; [|done]. simpl andb. by rewrite Hkr.
  - unfold moved_to in Hm. case_bool_decide; [by apply undelivered_conserved|].
    destruct Hm as (rs & own & Hm). by eapply came_conserved.
Qed.

(** ** The receiver lets go of a port *)

(** The port outside of any set, with its messages, and no receivers. *)
Definition cleared (st : pstate) (p : Z) (port : ipc_port) : ipc_port :=
  set_ip_seqno (set_ip_mscount (set_ip_messages (set_ip_pset port IPS_NULL)
    (IMQ false (port_messages st p) [])) 0) 0.

Lemma same_port_id st p port : ps_ports st !! p = Some port → put st p port = st.
Proof. intros Hp. unfold put, with_ports. destruct st. simpl in *. by rewrite insert_id. Qed.

Lemma put_queue_lock st p port :
  imq_locked (ip_messages port) = false →
  imq_lock (put st p port) (MQ_port p) =
    Ok (put (ptick st) p (set_ip_messages port (set_imq_locked (ip_messages port) true))).
Proof.
  intros Hl. unfold imq_lock, mqget, pget. rewrite put_get. ostep. rewrite Hl, other_id.
  change (ptick (put st p port)) with (put (ptick st) p port). unfold mqmod.
  by rewrite (pmod_spec _ _ _ _ (put_get _ _ _)), put_put.
Qed.

Lemma put_queue_unlock st p port :
  imq_locked (ip_messages port) = true →
  imq_unlock (put st p port) (MQ_port p) =
    Ok (put st p (set_ip_messages port (set_imq_locked (ip_messages port) false))).
Proof.
  intros Hl. unfold imq_unlock, mqget, pget. rewrite put_get. ostep. rewrite Hl. unfold mqmod.
  by rewrite (pmod_spec _ _ _ _ (put_get _ _ _)), put_put.
Qed.

(** The end: the counts are reset. *)
Lemma clear_counts st p port :
  ip_active port = true → imq_locked (ip_messages port) = false →
  (st ← ipc_port_set_mscount (put st p port) p 0; set_seqno_in st (MQ_port p) p 0) =
  Ok (put (ptick st) p (set_ip_seqno (set_ip_mscount port 0) 0)).
Proof.
  intros Ha Hl. unfold ipc_port_set_mscount, pget. rewrite put_get. ostep. rewrite Ha. ostep.
  rewrite (pmod_spec _ _ _ _ (put_get _ _ _)), put_put. ostep. unfold set_seqno_in.
  rewrite put_queue_lock by done. ostep. rewrite (pmod_spec _ _ _ _ (put_get _ _ _)), put_put. ostep.
  rewrite put_queue_unlock by done. f_equal. apply (f_equal (put _ p)). apply port_ext; simpl; try done.
  unfold set_imq_locked. destruct (ip_messages port). simpl in *. by subst.
Qed.

Definition died (th : Z) : wakeup := WK th MACH_RCV_PORT_DIED None.

Lemma cleared_wf st p port :
  queues_wf (ps_ports st) (ps_psets st) → ps_ports st !! p = Some port → ip_pset port = IPS_NULL →
  queues_wf (<[p := cleared st p port]> (ps_ports st)) (ps_psets st).
Proof.
  intros Hw Hp Hn. pose proof (qw_own _ _ Hw p port Hp Hn) as Hown.
  assert (port_messages st p = imq_messages (ip_messages port)) as Hm.
  { unfold port_messages. by rewrite Hp, Hn. }
  assert (∀ q mq, queue_of (<[p := cleared st p port]> (ps_ports st)) (ps_psets st) q = Some mq →
    ∃ mq0, queue_of (ps_ports st) (ps_psets st) q = Some mq0 ∧ imq_messages mq = imq_messages mq0 ∧
      imq_locked mq = false ∧ mq_calm mq) as Hq.
  { intros q mq Hq. destruct (decide (q = MQ_port p)) as [->|Hne].
    - simpl in Hq. rewrite lookup_insert_eq in Hq. injection Hq as <-. exists (ip_messages port).
      simpl. rewrite Hp. split_and!; [done..|by left].
    - assert (queue_of (ps_ports st) (ps_psets st) q = Some mq) as Hq'.
      { destruct q as [x|x]; [|done]. simpl in *. by rewrite lookup_insert_ne in Hq by congruence. }
      exists mq. split_and!; [done..|by apply (qw_unlocked _ _ Hw q)|by apply (qw_calm _ _ Hw q)]. }
  split.
  - intros q mq (? & ? & ? & ? & ?)%Hq. done.
  - intros q mq (? & ? & ? & ? & ?)%Hq. done.
  - intros q mq (mq0 & Hq0 & -> & _)%Hq. by apply (qw_nodup _ _ Hw q).
  - intros q q' mq mq' m m' (mq0 & Hq0 & -> & _)%Hq (mq1 & Hq1 & -> & _)%Hq. by apply (qw_apart _ _ Hw q q' mq0 mq1).
  - intros x px. destruct (decide (x = p)) as [->|]; [|rewrite lookup_insert_ne by done; apply (qw_own _ _ Hw)].
    rewrite lookup_insert_eq. intros [= <-] _. simpl. by rewrite Hm.
  - intros x px. destruct (decide (x = p)) as [->|]; [|rewrite lookup_insert_ne by done; apply (qw_member _ _ Hw)].
    rewrite lookup_insert_eq. by intros [= <-].
  - intros s pset m Hs Hin. destruct (qw_set _ _ Hw s pset m Hs Hin) as (q & Hq' & Hqs). exists q.
    rewrite lookup_insert_ne; [done|]. intros Heq. rewrite <-Heq, Hp in Hq'. injection Hq' as <-.
    destruct (qw_refs _ _ Hw s pset Hs). congruence.
  - intros s pset Hs. destruct (qw_refs _ _ Hw s pset Hs) as [Hnz Hr]. split; [done|].
    pose proof (members_insert _ p port (cleared st p port) s Hp) as Hmem. simpl in Hmem. rewrite Hn in Hmem. lia.
Qed.

(** The result: the port cleared, the other ports as they were. *)
Definition cleared_state (st st' : pstate) (p : Z) (port : ipc_port) : Prop :=
  at_port st' p (cleared st p port) ∧ ps_ports st' = <[p := cleared st p port]> (ps_ports st) ∧
  ps_notes st' = ps_notes st ∧ ps_timestamp st' = ps_timestamp st ∧ conserved p st st'.

Lemma delivered_died ths : delivered (reverse (died <$> ths)) = [].
Proof. unfold delivered. rewrite reverse_involutive. by induction ths. Qed.

Lemma cleared_conserved st st' p port ws :
  ps_ports st !! p = Some port → ps_ports st' = <[p := cleared st p port]> (ps_ports st) →
  ps_woken st' = ws ++ ps_woken st → delivered ws = [] →
  (∀ q, q ≠ p → port_messages st' q = port_messages st q) → conserved p st st'.
Proof.
  intros Hp Hports Hw Hd Hq. exists ws. split_and!; [done| |done]. rewrite Hd. simpl.
  unfold port_messages at 2. by rewrite Hports, lookup_insert_eq.
Qed.

Lemma accept_init ms : mq_accept ipc_mqueue_init ms = IMQ false ms [].
Proof. unfold mq_accept. simpl. by rewrite drop_0, drop_nil. Qed.

Lemma clear_alone st p port :
  at_port st p port → ip_pset port = IPS_NULL →
  ∃ st', ipc_port_clear_receiver st p = Ok st' ∧ cleared_state st st' p port.
Proof.
  intros [Hw Hp Ha Hl] Hn. unfold ipc_port_clear_receiver. unfold pget at 1. rewrite Hp. ostep.
  rewrite Ha, Hn, Z.eqb_refl. ostep.
  assert (imq_locked (ip_messages port) = false) as Hql.
  { apply (qw_unlocked _ _ Hw (MQ_port p)). simpl. by rewrite Hp. }
  assert (port_messages st p = imq_messages (ip_messages port)) as Hm.
  { unfold port_messages. by rewrite Hp, Hn. }
  replace (imq_lock st (MQ_port p)) with (imq_lock (put st p port) (MQ_port p)) by (by rewrite same_port_id).
  rewrite put_queue_lock by done. ostep.
  unfold ipc_mqueue_changed, mqget, pget. rewrite put_get. ostep. unfold mqmod.
  rewrite (pmod_spec _ _ _ _ (put_get _ _ _)), put_put. ostep. rewrite wake_all_eq.
  change (set_woken (put ?s p ?x) ?w) with (put (set_woken s w) p x).
  rewrite put_queue_unlock by done. ostep. rewrite clear_counts by done.
  eexists. split; [done|].
  match goal with |- cleared_state _ (put ?s p ?x) _ _ => assert (x = cleared st p port) as -> end.
  { unfold cleared. rewrite Hm. apply port_ext; simpl; try done. }
  assert (∀ s x, ps_ports (put s p x) = <[p := x]> (ps_ports s)) as Hputs by done.
  split_and!.
  - split; [|apply put_get|done..]. exact (cleared_wf st p port Hw Hp Hn).
  - done.
  - done.
  - done.
  - apply (cleared_conserved _ _ p port (reverse (died <$> imq_threads (ip_messages port)))); [done..| |].
    + apply delivered_died.
    + intros q Hq. unfold port_messages. simpl. by rewrite lookup_insert_ne.
Qed.

Lemma clear_member st p port pset :
  at_port st p port → ip_pset port ≠ IPS_NULL → ps_psets st !! ip_pset port = Some pset →
  ips_locked pset = false →
  ∃ st', ipc_port_clear_receiver st p = Ok st' ∧ cleared_state st st' p port.
Proof.
  intros Hap Hn Hs Hsl. pose proof Hap as [Hw Hp Ha Hl]. unfold ipc_port_clear_receiver. unfold pget at 1. rewrite Hp. ostep.
  rewrite Ha, (proj2 (Z.eqb_neq _ _) Hn). ostep.
  destruct (pset_lock_step st p port (ip_pset port) pset Hap Hs Hsl) as (st1 & Hlk & Hap1 & Hc1 & Hs1).
  rewrite (ips_lock_quiet _ _ pset) in Hlk |- * by done. injection Hlk as <-. ostep.
  set (st1 := sput _ _ _) in *. set (pset1 := set_ips_locked pset true) in *.
  assert (ps_psets st1 !! ip_pset port = Some pset1) as Hg1 by apply lookup_insert_eq.
  destruct Hap1 as [Hw1 Hp1 _ _].
  pose proof (qw_refs _ _ (left_wf _ _ p _ port pset1 Hw1 Hp1 Hg1 eq_refl) _ (left_pset p pset1) (lookup_insert_eq _ _ _)) as [_ Hr'].
  pose proof (qw_refs _ _ Hw1 _ _ Hg1) as [_ Hr1].
  destruct (qw_member _ _ Hw1 p port Hp1 Hn) as (_ & Hq & _).
  rewrite (pset_remove_eq st1 p (ip_pset port) port pset1); try done;
    [|by eapply queues_wf_ready|simpl in Hr', Hr1 |- *; destruct (ips_active pset); lia]. ostep.
  set (st2 := set_woken _ _).
  assert (at_port st2 p (left_port p port pset1)) as Hap2
    by (split; [by apply left_wf|apply lookup_insert_eq|done..]).
  assert (ps_psets st2 !! ip_pset port = Some (left_pset p pset1)) as Hg2 by apply lookup_insert_eq.
  destruct (check_unlock_step st2 p _ _ _ Hap2 Hg2 eq_refl) as (st3 & Hu & Hap3 & Hc3 & (Ho1 & Ho2 & Ho3 & Ho4)).
  rewrite Hu. ostep. rewrite <-(same_port_id st3 p _ (ap_port _ _ _ Hap3)), clear_counts;
    [|done|simpl; by rewrite Hq]. eexists. split; [done|].
  assert (port_messages st p = mine p (imq_messages (ips_messages pset))) as Hm.
  { unfold port_messages. by rewrite Hp, (proj2 (Z.eqb_neq _ _) Hn), Hs. }
  match goal with |- cleared_state _ (put ?s p ?x) _ _ => assert (x = cleared st p port) as -> end.
  { unfold cleared. rewrite Hm. apply port_ext; simpl; try done. by rewrite Hq, accept_init. }
  set (st4 := put (ptick st3) p (cleared st p port)).
  assert (ps_ports st4 = <[p := cleared st p port]> (ps_ports st)) as Hports.
  { unfold st4. simpl. rewrite Ho1. simpl. by rewrite insert_insert_eq. }
  assert (same_queues st3 st4) as Hsame.
  { split; [|done]. apply (core_insert _ _ _ (left_port p port pset1)); [apply Hap3|].
    unfold port_core, cleared. simpl. by rewrite Hm, Hq, accept_init. }
  split_and!.
  - split; [apply (same_queues_wf _ _ Hsame), Hap3|apply put_get|done..].
  - done.
  - unfold st4. simpl. by rewrite Ho2.
  - unfold st4. simpl. by rewrite Ho3.
  - apply (cleared_conserved _ _ p port []); [done..| |done|].
    + unfold st4. simpl. rewrite Ho4. unfold st2. simpl. by rewrite Hq.
    + intros q Hne. rewrite (same_queues_messages _ _ Hsame).
      rewrite (ud_messages _ _ _ Hc3). rewrite <-(ud_messages _ _ _ Hc1). by rewrite (left_messages _ _ p (ip_pset port) port pset1 Hw1 Hp1 Hg1 st2).
Qed.

(** ipc_port_clear_receiver takes an active port out of its set, with all of
    its messages in order, or wakes its receivers, and resets its make-send
    count and its sequence number. *)
Lemma clear_receiver_spec st p port :
  at_port st p port → psets_unlocked st →
  ∃ st', ipc_port_clear_receiver st p = Ok st' ∧ cleared_state st st' p port.
Proof.
  intros Hap Hun. destruct (decide (ip_pset port = IPS_NULL)) as [|Hn]; [by apply clear_alone|].
  destruct (qw_member _ _ (ap_wf _ _ _ Hap) p port) as (_ & _ & pset & Hs); [apply Hap|done|].
  apply (clear_member _ _ _ pset); [done..|by eapply Hun].
Qed.

(** ** ipc_port_set_seqno *)

(** When the port is in a live set, the set is still locked when
    ipc_port_set_seqno returns, so that the next thread to lock it waits for
    ever. *)
(** C38. ipc_port_set_seqno on a member of a live port set returns with the
    set still locked, so that the next attempt to lock the set deadlocks. *)
Theorem set_seqno_keeps_set_locked st p port pset seqno :
  at_port st p port → ip_pset port ≠ IPS_NULL → ps_psets st !! ip_pset port = Some pset →
  ips_locked pset = false → ips_active pset = true →
  ∃ st', ipc_port_set_seqno st p seqno = Ok st' ∧
    ps_ports st' !! p = Some (set_ip_seqno port seqno) ∧
    ps_psets st' !! ip_pset port = Some (set_ips_locked pset true) ∧
    ips_lock st' (ip_pset port) = Fault FLock.
Proof.
  intros Hap Hn Hs Hsl Hsa. pose proof Hap as [Hw Hp Ha Hl]. unfold ipc_port_set_seqno. unfold pget at 1.
  rewrite Hp. ostep. rewrite (proj2 (Z.eqb_neq _ _) Hn). ostep.
  rewrite (ips_lock_quiet _ _ pset) by done. ostep. unfold sget at 1. rewrite sput_get. ostep.
  simpl ips_active. rewrite Hsa. ostep.
  assert (imq_locked (ips_messages pset) = false) as Hql.
  { apply (qw_unlocked _ _ Hw (MQ_pset (ip_pset port))). simpl. by rewrite Hs. }
  set (s := ip_pset port) in *. set (pset1 := set_ips_locked pset true).
  rewrite (at_queues_id p s port pset1 (sput (ptick st) s pset1)) by (done || apply sput_get).
  unfold set_seqno_in. rewrite at_lock_pset by done. ostep.
  rewrite (at_mod_seqno p s port pset1 _ _ _ _ _ (λ _, seqno)). ostep. rewrite at_unlock_pset by done.
  eexists. split; [done|].
  assert (set_ips_messages pset1 (set_imq_locked (set_imq_locked (ips_messages pset1) true) false) = pset1) as Hset.
  { destruct pset as [? ? ? ? []]. simpl in *. by subst. }
  assert (∀ st0 n w, ps_psets (at_queues p s port pset1 st0 (ip_messages port)
    (set_imq_locked (set_imq_locked (ips_messages pset1) true) false) n w) !! s = Some pset1) as Hget.
  { intros. simpl. rewrite lookup_insert_eq. by rewrite <-Hset at 2. }
  split_and!.
  - simpl. rewrite lookup_insert_eq. by destruct port.
  - apply Hget.
  - unfold ips_lock, sget. by rewrite Hget.
Qed.
End pset_move.
