(* ===== verification/IpcDestroy.v ===== *)
(** * Death of a port (ipc/ipc_port.c: ipc_port_destroy and its callers)

    A port with a backup is sent there instead.  Otherwise its blocked
    senders are woken, it becomes a dead port with the time of its death, its
    no-senders request is thrown away, its messages are destroyed, everyone
    who asked is told that its name is dead, and its kernel object is told. *)

From stdpp Require Import prelude list gmap.
From S2P Require Import Prelude MachPort IpcTypes IpcTable IpcPort IpcDnreq IpcPortRights IpcPset.

Definition IKOT_NONE : Z := 0.

Section destroy.
Context {W : pworld}.

(** [thread_pool_wakeup(&port->ip_thread_pool)] (kern/thread_pool.c). *)
Definition thread_pool_wakeup (st : pstate) (p : Z) : outcome pstate :=
  port ← pget st p;
  if negb (ip_waiting port =? 0) then
    pmod (notify st (thread_wakeup p)) p (λ port, set_ip_waiting port 0)
  else Ok st.

(** What is asserted on entry, and again after a backup was refused. *)
Definition assert_detached (port : ipc_port) : outcome unit :=
  kassert (ip_active port);;
  kassert (ip_pset port =? IPS_NULL);;
  kassert (ip_mscount port =? 0);;
  kassert (ip_seqno port =? 0).

(** The port has a backup: [true] if the port has been sent there. *)
Definition destroy_backup (st : pstate) (p pdrequest : Z) : outcome (pstate * bool) :=
  st ← pmod st p (λ port, set_ip_pdrequest port IP_NULL);
  st ← pmod st p (λ port, set_ip_receiver_name port MACH_PORT_NULL);
  st ← pmod st p (λ port, set_ip_data port IP_NULL);
  st ← ip_unlock st p;
  '(st, circular) ← ipc_port_check_circularity st p pdrequest;
  if negb (circular : bool) then
    Ok (notify st (ipc_notify_port_destroyed pdrequest p), true)
  else
    st ← ipc_port_release_sonce st pdrequest;
    st ← ip_lock st p;
    port ← pget st p;
    assert_detached port;;
    kassert (ip_pdrequest port =? IP_NULL);;
    kassert (ip_receiver_name port =? MACH_PORT_NULL);;
    kassert (ip_destination port =? IP_NULL);;
    Ok (st, false).

(** Rouse all blocked senders and mark the port dead.  The table of
    dead-name requests is returned. *)
Definition destroy_mark (st : pstate) (p : Z) : outcome (pstate * option dntable) :=
  port ← pget st p;
  let st := foldl (λ st th, thread_go st (WK th MACH_MSG_SUCCESS None)) st (ip_blocked port) in
  st ← pmod st p (λ port, set_ip_blocked port []);
  st ← pmod st p (λ port, set_ip_active port false);
  let '(st, now) := ipc_port_timestamp st in
  st ← pmod st p (λ port, set_ip_data port now);
  port ← pget st p;
  st ← pmod st p (λ port, set_ip_dnrequests port None);
  st ← ip_unlock st p;
  Ok (st, ip_dnrequests port).

(** [while ((kmsg = ipc_kmsg_dequeue(kmqueue)) != IKM_NULL)], with the queue
    locked.  A sender checks that the port is active and locks its queue
    before it unlocks the port, so no message is added any more: the length
    of the queue bounds the loop. *)
Fixpoint destroy_messages (fuel : nat) (st : pstate) (p : Z) : outcome pstate :=
  match fuel with
  | O => Fault FLoop
  | S fuel' =>
    mq ← mqget st (MQ_port p);
    match imq_messages mq with
    | [] => Ok st
    | kmsg :: kmsgs =>
      st ← mqmod st (MQ_port p) (λ q, set_imq_messages q kmsgs);
      st ← imq_unlock st (MQ_port p);
      kassert (ikm_remote_port kmsg =? p);;
      st ← ipc_port_release st p;
      let st := notify st (ipc_kmsg_destroy (set_ikm_remote_port kmsg MACH_PORT_NULL)) in
      st ← imq_lock st (MQ_port p);
      destroy_messages fuel' st p
    end
  end.

(** Once the port is dead and unlocked. *)
Definition destroy_contents (st : pstate) (p : Z) (dnrequests : option dntable) : outcome pstate :=
  st ← thread_pool_wakeup st p;
  port ← pget st p;
  let st := if negb (ip_nsrequest port =? IP_NULL)
            then notify st (ipc_notify_send_once (ip_nsrequest port)) else st in
  st ← imq_lock st (MQ_port p);
  mq ← mqget st (MQ_port p);
  kassert (bool_decide (imq_threads mq = []));;
  st ← destroy_messages (S (length (imq_messages mq))) st p;
  st ← imq_unlock st (MQ_port p);
  st ← match dnrequests with
       | Some t => ipc_port_dnnotify st (dn_table t)
       | None => Ok st
       end;
  port ← pget st p;
  let st := if negb (ip_kotype port =? IKOT_NONE) then notify st (ipc_kobject_destroy p) else st in
  ipc_port_release st p.

Definition ipc_port_destroy (st : pstate) (p : Z) : outcome pstate :=
  port ← pget st p;
  assert_detached port;;
  '(st, sent) ←
    (if negb (ip_pdrequest port =? IP_NULL) then destroy_backup st p (ip_pdrequest port)
     else Ok (st, false));
  if sent : bool then Ok st
  else
    '(st, dnrequests) ← destroy_mark st p;
    destroy_contents st p dnrequests.

(** ** Its callers in ipc_port.c *)

Definition ipc_port_release_receive (st : pstate) (p : Z) : outcome pstate :=
  kassert (IP_VALID p);;
  st ← ip_lock st p;
  port ← pget st p;
  kassert (ip_active port);;
  kassert (ip_receiver_name port =? MACH_PORT_NULL);;
  let dest := ip_destination port in
  st ← ipc_port_destroy st p;
  if negb (dest =? IP_NULL) then ipc_port_release st dest else Ok st.

Definition ipc_port_dealloc_special (st : pstate) (p space : Z) : outcome pstate :=
  st ← ip_lock st p;
  port ← pget st p;
  kassert (ip_active port);;
  kassert (negb (ip_receiver_name port =? MACH_PORT_NULL));;
  kassert (ip_receiver port =? space);;
  st ← pmod st p (λ port, set_ip_receiver_name port MACH_PORT_NULL);
  st ← pmod st p (λ port, set_ip_data port 0);
  st ← ipc_port_set_mscount st p 0;
  st ← pmod st p (λ port, set_ip_seqno port 0);
  ipc_port_destroy st p.
End destroy.

(** ** The port that dies *)

Section destroy_spec.
Context `{W : pworld, !quiet}.

(** Notifications and wakeups added, and [k] events of the world. *)
Definition out (st : pstate) (ns : list notification) (ws : list wakeup) (k : nat) : pstate :=
  PST (ps_ports st) (ps_psets st) (ps_timestamp st) (ps_multiple st) (reverse ns ++ ps_notes st)
    (reverse ws ++ ps_woken st) (k + ps_clock st).

Lemma out_out st ns ws k ns' ws' k' :
  out (out st ns ws k) ns' ws' k' = out st (ns ++ ns') (ws ++ ws') (k' + k).
Proof. unfold out. simpl. by rewrite !reverse_app, <-!app_assoc, Nat.add_assoc. Qed.

Lemma put_out st p port ns ws k : out (put st p port) ns ws k = put (out st ns ws k) p port.
Proof. done. Qed.

Lemma port_release_quiet st p port :
  ps_ports st !! p = Some port → ip_locked port = false → 0 < ip_references port ≤ IO_MAX_REFERENCES →
  ipc_port_release st p = Ok (unlocked (ptick st) p (referenced port (-1))).
Proof.
  intros Hp Hl [Hr1 Hr2]. unfold ipc_port_release. rewrite (ip_lock_quiet st p port) by done. ostep.
  rewrite (release_eq _ _ _ (put_get _ _ _)). simpl ip_references.
  rewrite (proj2 (Z.ltb_lt _ _) Hr1), (proj2 (Z.leb_le _ _) Hr2). ostep. rewrite put_put.
  rewrite (ip_check_unlock_spec _ _ _ (put_get _ _ _)) by done. unfold unlocked. simpl ip_references.
  case_match.
  - unfold put, with_ports. simpl. by rewrite delete_insert_eq.
  - rewrite put_put. destruct port; simpl in *; by subst.
Qed.

Lemma put_mqget st p port : mqget (put st p port) (MQ_port p) = Ok (ip_messages port).
Proof. unfold mqget, pget. by rewrite put_get. Qed.
Lemma put_mqmod st p port f :
  mqmod (put st p port) (MQ_port p) f = Ok (put st p (set_ip_messages port (f (ip_messages port)))).
Proof. unfold mqmod. by rewrite (pmod_spec _ _ _ _ (put_get _ _ _)), put_put. Qed.
Lemma put_imq_unlock st p port :
  imq_locked (ip_messages port) = true →
  imq_unlock (put st p port) (MQ_port p) =
    Ok (put st p (set_ip_messages port (set_imq_locked (ip_messages port) false))).
Proof. intros Hl. unfold imq_unlock. rewrite put_mqget. ostep. by rewrite Hl, put_mqmod. Qed.
Lemma put_imq_lock st p port :
  imq_locked (ip_messages port) = false →
  imq_lock (put st p port) (MQ_port p) =
    Ok (put (ptick st) p (set_ip_messages port (set_imq_locked (ip_messages port) true))).
Proof.
  intros Hl. unfold imq_lock. rewrite put_mqget. ostep. rewrite Hl, other_id.
  change (ptick (put st p port)) with (put (ptick st) p port). by rewrite put_mqmod.
Qed.
Lemma put_pmod st p port f : pmod (put st p port) p f = Ok (put st p (f port)).
Proof. by rewrite (pmod_spec _ _ _ _ (put_get _ _ _)), put_put. Qed.
Lemma put_pget st p port : pget (put st p port) p = Ok port.
Proof. unfold pget. by rewrite put_get. Qed.

(** What is said of a message that is destroyed. *)
Definition kmsg_gone (m : ipc_kmsg) : notification := ipc_kmsg_destroy (set_ikm_remote_port m MACH_PORT_NULL).

(** Each message destroyed gives a reference back. *)
Definition emptied (port : ipc_port) : ipc_port :=
  set_ip_references (set_ip_messages port (IMQ true [] []))
    (ip_references port - Z.of_nat (length (imq_messages (ip_messages port)))).

Lemma destroy_messages_spec ms st p port :
  ip_messages port = IMQ true ms [] → ip_locked port = false →
  Forall (λ m, ikm_remote_port m = p) ms →
  Z.of_nat (length ms) < ip_references port ≤ IO_MAX_REFERENCES →
  destroy_messages (S (length ms)) (put st p port) p =
    Ok (put (out st (kmsg_gone <$> ms) [] (2 * length ms)) p (emptied port)).
Proof.
  revert st port. induction ms as [|m ms IH]; intros st port Hq Hl Hms Hr.
  - cbn [destroy_messages length]. rewrite put_mqget. ostep. rewrite Hq. simpl imq_messages. cbv iota.
    unfold emptied. rewrite Hq. simpl. rewrite Z.sub_0_r. destruct port. simpl in *. subst. by destruct st.
  - apply Forall_cons in Hms as [Hm Hms]. cbn [length] in Hr |- *.
    remember (S (length ms)) as fuel eqn:Hf. cbn [destroy_messages]. subst fuel.
    rewrite put_mqget. ostep. rewrite Hq. cbn [imq_messages]. cbv iota. rewrite put_mqmod. ostep.
    rewrite put_imq_unlock by (simpl; by rewrite ?Hq). ostep. rewrite Hm, Z.eqb_refl. ostep.
    erewrite port_release_quiet; [|apply put_get|done|simpl; lia]. ostep. unfold unlocked. simpl ip_references.
    rewrite (proj2 (Z.eqb_neq _ _)) by lia.
    change (ptick (put st p ?x)) with (put (ptick st) p x). rewrite put_put.
    change (notify (put (ptick st) p ?x) ?n) with (put (notify (ptick st) n) p x).
    rewrite put_imq_lock by (simpl; by rewrite ?Hq). ostep.
    rewrite IH; [|by simpl; rewrite ?Hq|done..|simpl; lia].
    f_equal. f_equal.
    + unfold out. simpl. rewrite reverse_cons, <-app_assoc. simpl. f_equal. lia.
    + unfold emptied. simpl. rewrite Hq. simpl. destruct port. simpl in *. f_equal. lia.
Qed.

Definition marked (port : ipc_port) (now : Z) : ipc_port :=
  set_ip_locked (set_ip_dnrequests (set_ip_data (set_ip_active (set_ip_blocked port []) false) now) None) false.

Lemma destroy_mark_spec st p port :
  ip_locked port = true →
  destroy_mark (put st p port) p =
    Ok (put (set_timestamp (out st [] (resumed <$> ip_blocked port) 0) (u32 (ps_timestamp st + 1))) p
          (marked port (ps_timestamp st)), ip_dnrequests port).
Proof.
  intros Hl. unfold destroy_mark. rewrite put_pget. ostep.
  change (foldl _ (put st p port) (ip_blocked port)) with (wake_all MACH_MSG_SUCCESS (put st p port) (ip_blocked port)).
  rewrite wake_all_eq. change (set_woken (put st p port) ?w) with (put (set_woken st w) p port).
  rewrite put_pmod. ostep. rewrite put_pmod. ostep. cbn [ipc_port_timestamp]. cbv beta iota.
  change (set_timestamp (put ?s p ?x) ?t) with (put (set_timestamp s t) p x). rewrite put_pmod. ostep.
  rewrite put_pget. ostep. rewrite put_pmod. ostep.
  rewrite (ip_unlock_spec _ _ _ (put_get _ _ _)), put_put by done. done.
Qed.

(** Notifications, in the order in which they are made. *)
Definition last_words (p : Z) (port : ipc_port) (dnrequests : option dntable) : list notification :=
  (if ip_waiting port =? 0 then [] else [thread_wakeup p]) ++
  (if ip_nsrequest port =? IP_NULL then [] else [ipc_notify_send_once (ip_nsrequest port)]) ++
  (kmsg_gone <$> imq_messages (ip_messages port)) ++
  (match dnrequests with
   | Some t => dead_name_note <$> dn_requests (dn_table t)
   | None => []
   end) ++
  (if ip_kotype port =? IKOT_NONE then [] else [ipc_kobject_destroy p]).

(** The port without its contents. *)
Definition gutted (port : ipc_port) : ipc_port :=
  set_ip_references (set_ip_messages (set_ip_waiting port 0) ipc_mqueue_init)
    (ip_references port - Z.of_nat (length (imq_messages (ip_messages port))) - 1).

(** The port, dead. *)
Definition corpse (port : ipc_port) (now : Z) : ipc_port := gutted (marked port now).

(** What has to hold of a port to be destroyed: it is detached, each queued
    message holds a reference, and the caller one more. *)
Record destroyable (p : Z) (port : ipc_port) : Prop := {
  de_locked : ip_locked port = true;
  de_active : ip_active port = true;
  de_pset : ip_pset port = IPS_NULL;
  de_mscount : ip_mscount port = 0;
  de_seqno : ip_seqno port = 0;
  de_queue : imq_locked (ip_messages port) = false ∧ imq_threads (ip_messages port) = [];
  de_messages : Forall (λ m, ikm_remote_port m = p) (imq_messages (ip_messages port));
  de_references : Z.of_nat (length (imq_messages (ip_messages port))) < ip_references port ≤ IO_MAX_REFERENCES;
  de_requests : port_dn_wf port;
}.

Lemma thread_pool_wakeup_spec st p port :
  thread_pool_wakeup (put st p port) p =
    Ok (put (out st (if ip_waiting port =? 0 then [] else [thread_wakeup p]) [] 0) p (set_ip_waiting port 0)).
Proof.
  unfold thread_pool_wakeup. rewrite put_pget. ostep. destruct (Z.eqb_spec (ip_waiting port) 0) as [H0|H0]; ostep.
  - destruct st, port. simpl in *. by subst.
  - change (notify (put st p port) ?n) with (put (notify st n) p port). rewrite put_pmod. by destruct st.
Qed.

(** The end of ipc_port_destroy: who asked is told, and the caller's
    reference goes. *)
Lemma destroy_tell st p port dnrequests :
  match dnrequests with Some t => dn_wf (dn_table t) | None => True end →
  ip_locked port = false → 0 < ip_references port ≤ IO_MAX_REFERENCES →
  (st ← match dnrequests with
        | Some t => ipc_port_dnnotify (put st p port) (dn_table t)
        | None => Ok (put st p port)
        end;
   port ← pget st p;
   ipc_port_release (if negb (ip_kotype port =? IKOT_NONE) then notify st (ipc_kobject_destroy p) else st) p) =
  Ok (unlocked (out st
      (match dnrequests with Some t => dead_name_note <$> dn_requests (dn_table t) | None => [] end ++
       if ip_kotype port =? IKOT_NONE then [] else [ipc_kobject_destroy p]) [] 1) p (referenced port (-1))).
Proof.
  intros Hdn Hl Hr. set (ns := match dnrequests with Some _ => _ | None => [] end).
  assert (match dnrequests with
      | Some t => ipc_port_dnnotify (put st p port) (dn_table t)
      | None => Ok (put st p port)
      end = Ok (put (out st ns [] 0) p port)) as ->.
  { unfold ns. destruct dnrequests as [t|]; [by rewrite dnnotify_spec|by destruct st]. }
  ostep. rewrite put_pget. ostep. set (ks := if ip_kotype port =? IKOT_NONE then [] else _).
  assert ((if negb (ip_kotype port =? IKOT_NONE) then notify (put (out st ns [] 0) p port) (ipc_kobject_destroy p)
    else put (out st ns [] 0) p port) = put (out st (ns ++ ks) [] 0) p port) as ->.
  { unfold ks. destruct (ip_kotype port =? IKOT_NONE); ostep; [by rewrite app_nil_r|].
    unfold out, notify, put, with_ports. simpl. by rewrite reverse_app. }
  rewrite (port_release_quiet _ _ port) by (done || apply put_get). unfold unlocked.
  destruct (ip_references (referenced port (-1)) =? 0).
  - unfold put, with_ports. simpl. by rewrite delete_insert_eq.
  - by change (ptick (put ?s p port)) with (put (ptick s) p port); rewrite put_put.
Qed.

Lemma contents_spec st p port dnrequests :
  ip_locked port = false → imq_locked (ip_messages port) = false → imq_threads (ip_messages port) = [] →
  Forall (λ m, ikm_remote_port m = p) (imq_messages (ip_messages port)) →
  Z.of_nat (length (imq_messages (ip_messages port))) < ip_references port ≤ IO_MAX_REFERENCES →
  match dnrequests with Some t => dn_wf (dn_table t) | None => True end →
  destroy_contents (put st p port) p dnrequests =
    Ok (unlocked (out st (last_words p port dnrequests) []
      (2 + 2 * length (imq_messages (ip_messages port)))) p (gutted port)).
Proof.
  intros Hl Hql Hqt Hmm Hr Hdn. unfold destroy_contents. rewrite thread_pool_wakeup_spec. ostep.
  rewrite put_pget. ostep. cbn [ip_nsrequest set_ip_waiting].
  set (ns := if ip_nsrequest port =? IP_NULL then [] else [ipc_notify_send_once (ip_nsrequest port)]).
  assert (∀ s x, (if negb (ip_nsrequest port =? IP_NULL)
    then notify (put s p x) (ipc_notify_send_once (ip_nsrequest port)) else put s p x) =
    put (out s ns [] 0) p x) as ->.
  { intros s x. unfold ns. by destruct s, (ip_nsrequest port =? IP_NULL). }
  rewrite put_imq_lock by done. ostep. rewrite put_mqget. ostep.
  rewrite bool_decide_true by exact Hqt. ostep.
  cbn [ip_messages set_ip_messages set_ip_waiting imq_messages set_imq_locked].
  rewrite destroy_messages_spec; [|unfold set_imq_locked; simpl; by rewrite Hqt|done..].
  ostep. rewrite put_imq_unlock by done. ostep. rewrite destroy_tell; [|exact Hdn|done|simpl; lia].
  assert (∀ s1 s2 x1 x2, s1 = s2 → x1 = x2 → unlocked s1 p x1 = unlocked s2 p x2) as Hcong by (by intros; subst).
  apply (f_equal Ok), Hcong; [|apply port_ext; done]. change (ptick ?x) with (out x [] [] 1).
  cbn [ip_kotype emptied set_ip_messages set_ip_references set_ip_waiting].
  rewrite !out_out, ?app_nil_r, <-?app_assoc. apply (f_equal (out _ _ _)). lia.
Qed.

Lemma destroy_spec st p port :
  destroyable p port → ip_pdrequest port = IP_NULL →
  ipc_port_destroy (put st p port) p = Ok (unlocked (set_timestamp
      (out st (last_words p port (ip_dnrequests port)) (resumed <$> ip_blocked port)
        (2 + 2 * length (imq_messages (ip_messages port)))) (u32 (ps_timestamp st + 1))) p
      (corpse port (ps_timestamp st))).
Proof.
  intros [Hl Ha Hps Hms Hsq [Hql Hqt] Hmm Hr Hdn] Hpd. unfold ipc_port_destroy. rewrite put_pget. ostep.
  unfold assert_detached. rewrite Ha, Hps, Hms, Hsq, Hpd, !Z.eqb_refl. ostep.
  rewrite destroy_mark_spec by done. ostep. rewrite contents_spec; [|done..].
  apply (f_equal Ok). apply (f_equal (λ s, unlocked s p _)). unfold out, set_timestamp. done.
Qed.

(** ipc_port_destroy, of a port without a backup: the blocked senders are
    woken, the port is dead and carries the time of its death, its queue is
    empty, and in this order the threads waiting for its pool, its no-senders
    request, each of its messages, everyone who asked for a dead-name
    notification and its kernel object are told; the references of the
    messages and of the caller are gone, and the port with the last one. *)
(** C28. ipc_port_destroy of a detached port without backup wakes every
    blocked sender, then rejects the no-senders request, destroys every
    queued message, notifies every dead-name request and destroys the
    kernel object, in that order, leaves a dead port stamped with the time
    of death, or frees it with its last reference, and touches no other
    port or set. *)
Theorem port_destroy_correct st p port :
  ps_ports st !! p = Some port → destroyable p port → ip_pdrequest port = IP_NULL →
  ∃ st', ipc_port_destroy st p = Ok st' ∧
    ps_ports st' = (if ip_references (corpse port (ps_timestamp st)) =? 0 then delete p (ps_ports st)
      else <[p := corpse port (ps_timestamp st)]> (ps_ports st)) ∧
    ps_psets st' = ps_psets st ∧
    ps_notes st' = reverse (last_words p port (ip_dnrequests port)) ++ ps_notes st ∧
    ps_woken st' = reverse (resumed <$> ip_blocked port) ++ ps_woken st ∧
    ps_timestamp st' = u32 (ps_timestamp st + 1).
Proof.
  intros Hp Hd Hb. pose proof (destroy_spec st p port Hd Hb) as Hrun.
  assert (put st p port = st) as Hid.
  { unfold put, with_ports. destruct st. simpl in *. by rewrite insert_id. }
  rewrite Hid in Hrun. eexists. split; [done|]. unfold unlocked.
  by destruct (ip_references (corpse port (ps_timestamp st)) =? 0).
Qed.
End destroy_spec.
