(* ===== verification/IpcRight.v ===== *)
(** * Rights (ipc/ipc_right.c)

    The operations on one entry of a space and the port or port set it names:
    the space [sp] and the ports [st] change together.  The space is locked
    unless noted. *)

From stdpp Require Import prelude list gmap.
From S2P Require Import Prelude MachPort IpcSplay IpcTypes IpcHash IpcTable IpcEntry IpcPort IpcPset IpcDestroy.

(** mach/message.h *)
Definition MACH_MSG_TYPE_MOVE_RECEIVE : Z := 16.
Definition MACH_MSG_TYPE_MOVE_SEND : Z := 17.
Definition MACH_MSG_TYPE_MOVE_SEND_ONCE : Z := 18.
Definition MACH_MSG_TYPE_COPY_SEND : Z := 19.
Definition MACH_MSG_TYPE_MAKE_SEND : Z := 20.
Definition MACH_MSG_TYPE_MAKE_SEND_ONCE : Z := 21.
Abbreviation MACH_MSG_TYPE_PORT_RECEIVE := MACH_MSG_TYPE_MOVE_RECEIVE (only parsing).
Abbreviation MACH_MSG_TYPE_PORT_SEND := MACH_MSG_TYPE_MOVE_SEND (only parsing).
Abbreviation MACH_MSG_TYPE_PORT_SEND_ONCE := MACH_MSG_TYPE_MOVE_SEND_ONCE (only parsing).

(** [bits & mask] as a condition. *)
Definition has (bits mask : Z) : bool := negb (Z.land bits mask =? 0).

Section right.
Context {IW : iworld} {PW : pworld}.

Definition set_bits (sp : istate) (entry : eptr) (bits : Z) : istate :=
  eset sp entry (λ e, set_ie_bits e bits).
Definition set_object (sp : istate) (entry : eptr) (object : Z) : istate :=
  eset sp entry (λ e, set_ie_object e object).
Definition set_request (sp : istate) (entry : eptr) (request : Z) : istate :=
  eset sp entry (λ e, set_ie_request e request).
Definition eread (sp : istate) (entry : eptr) : outcome ipc_entry := deref (eget sp entry).

(** ** ipc_right_lookup_write *)

Definition ipc_right_lookup_write (sp : istate) (name : Z) :
    outcome (istate * (kern_return * option eptr)) :=
  sp ← is_write_lock sp;
  if negb (is_active (st_space sp)) then
    sp ← is_write_unlock sp;
    Ok (sp, (KERN_INVALID_TASK, None))
  else
    '(sp, entry) ← ipc_entry_lookup sp name;
    match entry with
    | None => sp ← is_write_unlock sp; Ok (sp, (KERN_INVALID_NAME, None))
    | Some entry => Ok (sp, (KERN_SUCCESS, Some entry))
    end.

(** ** ipc_right_reverse: if an entry is found, the port is locked. *)

Definition ipc_right_reverse (sp : istate) (st : pstate) (object : Z) :
    outcome (istate * pstate * option (Z * eptr)) :=
  kassert (is_active (st_space sp));;
  st ← ip_lock st object;
  port ← pget st object;
  if negb (ip_active port) then
    st ← ip_unlock st object;
    Ok (sp, st, None)
  else if ip_receiver port =? space_addr then
    let name := ip_receiver_name port in
    kassert (negb (name =? MACH_PORT_NULL));;
    '(sp, entry) ← ipc_entry_lookup sp name;
    match entry with
    | None => Fault FAssert
    | Some entry =>
      e ← eread sp entry;
      kassert (has (ie_bits e) MACH_PORT_TYPE_RECEIVE);;
      kassert (ie_object e =? object);;
      Ok (sp, st, Some (name, entry))
    end
  else
    '(sp, found) ← ipc_hash_lookup sp object;
    match found with
    | Some (name, entry) =>
      e ← eread sp entry;
      kassert (IE_BITS_TYPE (ie_bits e) =? MACH_PORT_TYPE_SEND);;
      kassert (ie_object e =? object);;
      Ok (sp, st, Some (name, entry))
    | None =>
      st ← ip_unlock st object;
      Ok (sp, st, None)
    end.

(** ** ipc_right_dncancel *)

Definition ipc_right_dncancel (sp : istate) (st : pstate) (p name : Z) (entry : eptr) :
    outcome (istate * pstate * Z) :=
  port ← pget st p;
  kassert (ip_active port);;
  e ← eread sp entry;
  kassert (ie_object e =? p);;
  '(st, dnrequest) ← ipc_port_dncancel st p name (ie_request e);
  Ok (set_request sp entry 0, st, dnrequest).

Definition ipc_right_dncancel_macro (sp : istate) (st : pstate) (p name : Z) (entry : eptr) :
    outcome (istate * pstate * Z) :=
  e ← eread sp entry;
  if ie_request e =? 0 then Ok (sp, st, IP_NULL) else ipc_right_dncancel sp st p name entry.

(** ** ipc_right_inuse: the space is unlocked if the entry is in use. *)

Definition ipc_right_inuse (sp : istate) (entry : eptr) : outcome (istate * bool) :=
  e ← eread sp entry;
  if negb (IE_BITS_TYPE (ie_bits e) =? MACH_PORT_TYPE_NONE) then
    sp ← is_write_unlock sp;
    Ok (sp, true)
  else Ok (sp, false).

(** ** ipc_right_check *)

Definition ipc_right_check (sp : istate) (st : pstate) (p name : Z) (entry : eptr) :
    outcome (istate * pstate * bool) :=
  kassert (is_active (st_space sp));;
  e ← eread sp entry;
  kassert (ie_object e =? p);;
  st ← ip_lock st p;
  port ← pget st p;
  if ip_active port then Ok (sp, st, false)
  else
    st ← ip_unlock st p;
    let bits := ie_bits e in
    kassert (negb (has bits MACH_PORT_TYPE_RECEIVE));;
    kassert (0 <? IE_BITS_UREFS bits);;
    sp ← (if has bits MACH_PORT_TYPE_SEND then
            kassert (IE_BITS_TYPE bits =? MACH_PORT_TYPE_SEND);;
            ipc_hash_delete sp p name entry
          else
            kassert (IE_BITS_TYPE bits =? MACH_PORT_TYPE_SEND_ONCE);;
            kassert (IE_BITS_UREFS bits =? 1);;
            Ok sp);
    st ← ipc_port_release st p;
    let bits := Z.lor (Z.land bits (Z.lnot IE_BITS_TYPE_MASK)) MACH_PORT_TYPE_DEAD_NAME in
    '(sp, bits) ←
      (if negb (ie_request e =? 0) then
         kassert (IE_BITS_UREFS bits <? MACH_PORT_UREFS_MAX);;
         Ok (set_request sp entry 0, u32 (bits + 1))
       else Ok (sp, bits));
    Ok (set_object (set_bits sp entry bits) entry IO_NULL, st, true).

(** ** Fragments that several operations share *)

(** [if (--port->ip_srights == 0) ...]: the no-senders request to answer, if
    any, with the make-send count. *)
Definition drop_send_right (st : pstate) (p : Z) : outcome (pstate * (Z * Z)) :=
  st ← pmod st p (λ port, set_ip_srights port (u32 (ip_srights port - 1)));
  port ← pget st p;
  if (ip_srights port =? 0) && negb (ip_nsrequest port =? IP_NULL) then
    st ← pmod st p (λ port, set_ip_nsrequest port IP_NULL);
    Ok (st, (ip_nsrequest port, ip_mscount port))
  else Ok (st, (IP_NULL, 0)).

Definition notify_no_senders (st : pstate) (ns : Z * Z) : pstate :=
  if negb (ns.1 =? IP_NULL) then notify st (ipc_notify_no_senders ns.1 ns.2) else st.

Definition notify_port_deleted (st : pstate) (dnrequest name : Z) : pstate :=
  if negb (dnrequest =? IP_NULL) then notify st (ipc_notify_port_deleted dnrequest name) else st.

(** The right is the receive right of this space for [name]. *)
Definition assert_receiver (port : ipc_port) (name : Z) : outcome unit :=
  kassert (ip_receiver_name port =? name);;
  kassert (ip_receiver port =? space_addr).

(** Locking the port of a receive right. *)
Definition lock_receiver (st : pstate) (p name : Z) : outcome (pstate * ipc_port) :=
  st ← ip_lock st p;
  port ← pget st p;
  kassert (ip_active port);;
  assert_receiver port name;;
  Ok (st, port).

(** ** ipc_right_dnrequest

    Nothing is locked.  The table of dead-name requests may have to grow,
    with everything unlocked, so the lookup starts again; [fuel] bounds the
    number of times it does. *)

Fixpoint ipc_right_dnrequest (fuel : nat) (sp : istate) (st : pstate) (name : Z) (immediate : bool)
    (notify_port : Z) : outcome (istate * pstate * (kern_return * Z)) :=
  match fuel with
  | O => Fault FLoop
  | S fuel' =>
    '(sp, (kr, found)) ← ipc_right_lookup_write sp name;
    match found with
    | None => Ok (sp, st, (kr, IP_NULL))
    | Some entry =>
      e ← eread sp entry;
      let bits := ie_bits e in
      let p := ie_object e in
      '(sp, st, dead) ←
        (if has bits MACH_PORT_TYPE_PORT_RIGHTS then
           kassert (negb (p =? IP_NULL));;
           '(sp, st, dead) ← ipc_right_check sp st p name entry;
           e ← eread sp entry;
           kassert (negb dead || has (ie_bits e) MACH_PORT_TYPE_DEAD_NAME);;
           Ok (sp, st, dead)
         else Ok (sp, st, true));
      if negb (dead : bool) then
        if notify_port =? IP_NULL then
          '(sp, st, previous) ← ipc_right_dncancel_macro sp st p name entry;
          st ← ip_unlock st p;
          sp ← is_write_unlock sp;
          Ok (sp, st, (KERN_SUCCESS, previous))
        else
          '(sp, st, previous) ← ipc_right_dncancel_macro sp st p name entry;
          '(st, (kr, request)) ← ipc_port_dnrequest st p name notify_port;
          match request with
          | None =>
            kassert (previous =? IP_NULL);;
            sp ← is_write_unlock sp;
            '(st, kr) ← ipc_port_dngrow st p ITS_SIZE_NONE;
            if negb (bool_decide (kr = KERN_SUCCESS)) then Ok (sp, st, (kr, IP_NULL))
            else ipc_right_dnrequest fuel' sp st name immediate notify_port
          | Some request =>
            kassert (negb (request =? 0));;
            st ← ip_unlock st p;
            sp ← is_write_unlock (set_request sp entry request);
            Ok (sp, st, (KERN_SUCCESS, previous))
          end
      else
        e ← eread sp entry;
        let bits := ie_bits e in
        if has bits MACH_PORT_TYPE_DEAD_NAME && immediate && negb (notify_port =? IP_NULL) then
          let urefs := IE_BITS_UREFS bits in
          kassert (IE_BITS_TYPE bits =? MACH_PORT_TYPE_DEAD_NAME);;
          kassert (0 <? urefs);;
          if MACH_PORT_UREFS_OVERFLOW urefs 1 then
            sp ← is_write_unlock sp;
            Ok (sp, st, (KERN_UREFS_OVERFLOW, IP_NULL))
          else
            sp ← is_write_unlock (set_bits sp entry (u32 (bits + 1)));
            Ok (sp, notify st (ipc_notify_dead_name notify_port name), (KERN_SUCCESS, IP_NULL))
        else
          sp ← is_write_unlock sp;
          Ok (sp, st, (if has bits MACH_PORT_TYPE_PORT_OR_DEAD then KERN_INVALID_ARGUMENT
                       else KERN_INVALID_RIGHT, IP_NULL))
    end
  end.

(** ** ipc_right_clean: the space is dead and unlocked. *)

(** The port of the right is locked and active. *)
Definition clean_active (sp : istate) (st : pstate) (p name : Z) (entry : eptr) (type : Z) :
    outcome (istate * pstate) :=
  '(sp, st, dnrequest) ← ipc_right_dncancel_macro sp st p name entry;
  '(st, ns) ←
    (if has type MACH_PORT_TYPE_SEND then
       port ← pget st p;
       kassert (0 <? ip_srights port);;
       drop_send_right st p
     else Ok (st, (IP_NULL, 0)));
  st ←
    (if has type MACH_PORT_TYPE_RECEIVE then
       port ← pget st p;
       assert_receiver port name;;
       st ← ipc_port_clear_receiver st p;
       ipc_port_destroy st p
     else if has type MACH_PORT_TYPE_SEND_ONCE then
       port ← pget st p;
       kassert (0 <? ip_sorights port);;
       st ← ip_unlock st p;
       Ok (notify st (ipc_notify_send_once p))
     else
       port ← pget st p;
       kassert (negb (ip_receiver port =? space_addr));;
       st ← ip_release st p;
       ip_unlock st p);
  Ok (sp, notify_port_deleted (notify_no_senders st ns) dnrequest name).

Definition ipc_right_clean (sp : istate) (st : pstate) (name : Z) (entry : eptr) :
    outcome (istate * pstate) :=
  e ← eread sp entry;
  let type := IE_BITS_TYPE (ie_bits e) in
  kassert (negb (is_active (st_space sp)));;
  if type =? MACH_PORT_TYPE_DEAD_NAME then
    kassert (ie_request e =? 0);;
    kassert (ie_object e =? IO_NULL);;
    Ok (sp, st)
  else if type =? MACH_PORT_TYPE_PORT_SET then
    let s := ie_object e in
    kassert (ie_request e =? 0);;
    kassert (negb (s =? IPS_NULL));;
    st ← ips_lock st s;
    pset ← sget st s;
    kassert (ips_active pset);;
    st ← ipc_pset_destroy st s;
    Ok (sp, st)
  else if (type =? MACH_PORT_TYPE_SEND) || (type =? MACH_PORT_TYPE_RECEIVE) ||
          (type =? MACH_PORT_TYPE_SEND_RECEIVE) || (type =? MACH_PORT_TYPE_SEND_ONCE) then
    let p := ie_object e in
    kassert (negb (p =? IP_NULL));;
    st ← ip_lock st p;
    port ← pget st p;
    if negb (ip_active port) then
      st ← ip_release st p;
      st ← ip_check_unlock st p;
      Ok (sp, st)
    else clean_active sp st p name entry type
  else Fault FPanic.

(** ** ipc_right_destroy: the space is unlocked. *)

(** [entry->ie_object = IO_NULL; ipc_entry_dealloc(space, name, entry)] *)
Definition entry_drop (sp : istate) (name : Z) (entry : eptr) : outcome istate :=
  ipc_entry_dealloc (set_object sp entry IO_NULL) name entry.

(** Destroying a port set's entry and the set. *)
Definition destroy_pset (sp : istate) (st : pstate) (name : Z) (entry : eptr) (s : Z) :
    outcome (istate * pstate) :=
  kassert (negb (s =? IPS_NULL));;
  sp ← entry_drop sp name entry;
  st ← ips_lock st s;
  pset ← sget st s;
  kassert (ips_active pset);;
  sp ← is_write_unlock sp;
  st ← ipc_pset_destroy st s;
  Ok (sp, st).

(** The port of the right is locked and active. *)
Definition destroy_active (sp : istate) (st : pstate) (p name : Z) (entry : eptr) (type : Z) :
    outcome (istate * pstate) :=
  '(sp, st, dnrequest) ← ipc_right_dncancel_macro sp st p name entry;
  sp ← entry_drop sp name entry;
  sp ← is_write_unlock sp;
  '(st, ns) ←
    (if has type MACH_PORT_TYPE_SEND then
       port ← pget st p;
       kassert (0 <? ip_srights port);;
       drop_send_right st p
     else Ok (st, (IP_NULL, 0)));
  st ←
    (if has type MACH_PORT_TYPE_RECEIVE then
       port ← pget st p;
       kassert (ip_active port);;
       kassert (ip_receiver port =? space_addr);;
       let st := if negb (ip_subsystem port =? 0)
                 then notify st (subsystem_deallocate (ip_subsystem port)) else st in
       st ← ipc_port_clear_receiver st p;
       ipc_port_destroy st p
     else if has type MACH_PORT_TYPE_SEND_ONCE then
       port ← pget st p;
       kassert (0 <? ip_sorights port);;
       st ← ip_unlock st p;
       Ok (notify st (ipc_notify_send_once p))
     else
       port ← pget st p;
       kassert (negb (ip_receiver port =? space_addr));;
       st ← ip_release st p;
       ip_unlock st p);
  Ok (sp, notify_port_deleted (notify_no_senders st ns) dnrequest name).

Definition ipc_right_destroy (sp : istate) (st : pstate) (name : Z) (entry : eptr) :
    outcome (istate * pstate * kern_return) :=
  e ← eread sp entry;
  let type := IE_BITS_TYPE (ie_bits e) in
  kassert (is_active (st_space sp));;
  '(sp, st) ←
    (if type =? MACH_PORT_TYPE_DEAD_NAME then
       kassert (ie_request e =? 0);;
       kassert (ie_object e =? IO_NULL);;
       sp ← ipc_entry_dealloc sp name entry;
       sp ← is_write_unlock sp;
       Ok (sp, st)
     else if type =? MACH_PORT_TYPE_PORT_SET then
       kassert (ie_request e =? 0);;
       destroy_pset sp st name entry (ie_object e)
     else if (type =? MACH_PORT_TYPE_SEND) || (type =? MACH_PORT_TYPE_RECEIVE) ||
             (type =? MACH_PORT_TYPE_SEND_RECEIVE) || (type =? MACH_PORT_TYPE_SEND_ONCE) then
       let p := ie_object e in
       kassert (negb (p =? IP_NULL));;
       sp ← (if type =? MACH_PORT_TYPE_SEND then ipc_hash_delete sp p name entry else Ok sp);
       st ← ip_lock st p;
       port ← pget st p;
       if negb (ip_active port) then
         kassert (negb (has type MACH_PORT_TYPE_RECEIVE));;
         st ← ip_release st p;
         st ← ip_check_unlock st p;
         sp ← entry_drop (set_request sp entry 0) name entry;
         sp ← is_write_unlock sp;
         Ok (sp, st)
       else destroy_active sp st p name entry type
     else Fault FPanic);
  Ok (sp, st, KERN_SUCCESS).

(** ** ipc_right_dealloc: the space is unlocked. *)

(** The label [dead_name]. *)
Definition dealloc_dead_name (sp : istate) (name : Z) (entry : eptr) : outcome istate :=
  e ← eread sp entry;
  let bits := ie_bits e in
  kassert (0 <? IE_BITS_UREFS bits);;
  kassert (ie_request e =? 0);;
  kassert (ie_object e =? IO_NULL);;
  sp ← (if IE_BITS_UREFS bits =? 1 then ipc_entry_dealloc sp name entry
        else Ok (set_bits sp entry (u32 (bits - 1))));
  is_write_unlock sp.

(** The port died: the right has become a dead name. *)
Definition dealloc_died (sp : istate) (name : Z) (entry : eptr) : outcome istate :=
  e ← eread sp entry;
  kassert (IE_BITS_TYPE (ie_bits e) =? MACH_PORT_TYPE_DEAD_NAME);;
  dealloc_dead_name sp name entry.

Definition dealloc_send_once (sp : istate) (st : pstate) (name : Z) (entry : eptr) (e : ipc_entry) :
    outcome (istate * pstate) :=
  kassert (IE_BITS_UREFS (ie_bits e) =? 1);;
  let p := ie_object e in
  kassert (negb (p =? IP_NULL));;
  '(sp, st, dead) ← ipc_right_check sp st p name entry;
  if dead : bool then
    sp ← dealloc_died sp name entry;
    Ok (sp, st)
  else
    port ← pget st p;
    kassert (0 <? ip_sorights port);;
    '(sp, st, dnrequest) ← ipc_right_dncancel_macro sp st p name entry;
    st ← ip_unlock st p;
    sp ← entry_drop sp name entry;
    sp ← is_write_unlock sp;
    let st := notify st (ipc_notify_send_once p) in
    Ok (sp, notify_port_deleted st dnrequest name).

Definition dealloc_send (sp : istate) (st : pstate) (name : Z) (entry : eptr) (e : ipc_entry) :
    outcome (istate * pstate) :=
  let bits := ie_bits e in
  kassert (0 <? IE_BITS_UREFS bits);;
  let p := ie_object e in
  kassert (negb (p =? IP_NULL));;
  '(sp, st, dead) ← ipc_right_check sp st p name entry;
  if dead : bool then
    sp ← dealloc_died sp name entry;
    Ok (sp, st)
  else
    port ← pget st p;
    kassert (0 <? ip_srights port);;
    '(sp, st, ns, dnrequest) ←
      (if IE_BITS_UREFS bits =? 1 then
         '(st, ns) ← drop_send_right st p;
         '(sp, st, dnrequest) ← ipc_right_dncancel_macro sp st p name entry;
         sp ← ipc_hash_delete sp p name entry;
         st ← ip_release st p;
         sp ← entry_drop sp name entry;
         Ok (sp, st, ns, dnrequest)
       else Ok (set_bits sp entry (u32 (bits - 1)), st, (IP_NULL, 0), IP_NULL));
    st ← ip_unlock st p;
    sp ← is_write_unlock sp;
    Ok (sp, notify_port_deleted (notify_no_senders st ns) dnrequest name).

Definition dealloc_send_receive (sp : istate) (st : pstate) (name : Z) (entry : eptr) (e : ipc_entry) :
    outcome (istate * pstate) :=
  let bits := ie_bits e in
  kassert (0 <? IE_BITS_UREFS bits);;
  let p := ie_object e in
  kassert (negb (p =? IP_NULL));;
  '(st, port) ← lock_receiver st p name;
  kassert (0 <? ip_srights port);;
  '(sp, st, ns) ←
    (if IE_BITS_UREFS bits =? 1 then
       '(st, ns) ← drop_send_right st p;
       Ok (set_bits sp entry (Z.land bits (Z.lnot (Z.lor IE_BITS_UREFS_MASK MACH_PORT_TYPE_SEND))), st, ns)
     else Ok (set_bits sp entry (u32 (bits - 1)), st, (IP_NULL, 0)));
  st ← ip_unlock st p;
  sp ← is_write_unlock sp;
  Ok (sp, notify_no_senders st ns).

Definition ipc_right_dealloc (sp : istate) (st : pstate) (name : Z) (entry : eptr) :
    outcome (istate * pstate * kern_return) :=
  e ← eread sp entry;
  let type := IE_BITS_TYPE (ie_bits e) in
  kassert (is_active (st_space sp));;
  if type =? MACH_PORT_TYPE_DEAD_NAME then
    sp ← dealloc_dead_name sp name entry;
    Ok (sp, st, KERN_SUCCESS)
  else if type =? MACH_PORT_TYPE_SEND_ONCE then
    '(sp, st) ← dealloc_send_once sp st name entry e;
    Ok (sp, st, KERN_SUCCESS)
  else if type =? MACH_PORT_TYPE_SEND then
    '(sp, st) ← dealloc_send sp st name entry e;
    Ok (sp, st, KERN_SUCCESS)
  else if type =? MACH_PORT_TYPE_SEND_RECEIVE then
    '(sp, st) ← dealloc_send_receive sp st name entry e;
    Ok (sp, st, KERN_SUCCESS)
  else
    sp ← is_write_unlock sp;
    Ok (sp, st, KERN_INVALID_RIGHT).

(** ** ipc_right_delta: the space is unlocked. *)

(** The labels [success], [invalid_right], [invalid_value] and
    [urefs_overflow]. *)
Definition delta_return (sp : istate) (st : pstate) (kr : kern_return) :
    outcome (istate * pstate * kern_return) :=
  sp ← is_write_unlock sp;
  Ok (sp, st, kr).

Definition delta_port_set (sp : istate) (st : pstate) (name : Z) (entry : eptr) (e : ipc_entry) (delta : Z) :
    outcome (istate * pstate * kern_return) :=
  let bits := ie_bits e in
  if negb (has bits MACH_PORT_TYPE_PORT_SET) then delta_return sp st KERN_INVALID_RIGHT
  else
    kassert (IE_BITS_TYPE bits =? MACH_PORT_TYPE_PORT_SET);;
    kassert (IE_BITS_UREFS bits =? 0);;
    kassert (ie_request e =? 0);;
    if delta =? 0 then delta_return sp st KERN_SUCCESS
    else if negb (delta =? -1) then delta_return sp st KERN_INVALID_VALUE
    else
      '(sp, st) ← destroy_pset sp st name entry (ie_object e);
      Ok (sp, st, KERN_SUCCESS).

Definition delta_receive (sp : istate) (st : pstate) (name : Z) (entry : eptr) (e : ipc_entry) (delta : Z) :
    outcome (istate * pstate * kern_return) :=
  let bits := ie_bits e in
  if negb (has bits MACH_PORT_TYPE_RECEIVE) then delta_return sp st KERN_INVALID_RIGHT
  else if delta =? 0 then delta_return sp st KERN_SUCCESS
  else if negb (delta =? -1) then delta_return sp st KERN_INVALID_VALUE
  else
    let p := ie_object e in
    kassert (negb (p =? IP_NULL));;
    '(st, port) ← lock_receiver st p name;
    '(sp, st, dnrequest) ←
      (if has bits MACH_PORT_TYPE_SEND then
         kassert (IE_BITS_TYPE bits =? MACH_PORT_TYPE_SEND_RECEIVE);;
         kassert (0 <? IE_BITS_UREFS bits);;
         kassert (IE_BITS_UREFS bits <? MACH_PORT_UREFS_MAX);;
         kassert (0 <? ip_srights port);;
         let bits := Z.lor (Z.land bits (Z.lnot IE_BITS_TYPE_MASK)) MACH_PORT_TYPE_DEAD_NAME in
         let '(sp, bits) :=
           if negb (ie_request e =? 0) then (set_request sp entry 0, u32 (bits + 1)) else (sp, bits) in
         Ok (set_object (set_bits sp entry bits) entry IO_NULL, st, IP_NULL)
       else
         kassert (IE_BITS_TYPE bits =? MACH_PORT_TYPE_RECEIVE);;
         kassert (IE_BITS_UREFS bits =? 0);;
         '(sp, st, dnrequest) ← ipc_right_dncancel_macro sp st p name entry;
         sp ← entry_drop sp name entry;
         Ok (sp, st, dnrequest));
    sp ← is_write_unlock sp;
    st ← ipc_port_clear_receiver st p;
    st ← ipc_port_destroy st p;
    Ok (sp, notify_port_deleted st dnrequest name, KERN_SUCCESS).

Definition delta_send_once (sp : istate) (st : pstate) (name : Z) (entry : eptr) (e : ipc_entry) (delta : Z) :
    outcome (istate * pstate * kern_return) :=
  let bits := ie_bits e in
  if negb (has bits MACH_PORT_TYPE_SEND_ONCE) then delta_return sp st KERN_INVALID_RIGHT
  else
    kassert (IE_BITS_TYPE bits =? MACH_PORT_TYPE_SEND_ONCE);;
    kassert (IE_BITS_UREFS bits =? 1);;
    let p := ie_object e in
    kassert (negb (p =? IP_NULL));;
    '(sp, st, dead) ← ipc_right_check sp st p name entry;
    if dead : bool then
      e ← eread sp entry;
      kassert (negb (has (ie_bits e) MACH_PORT_TYPE_SEND_ONCE));;
      delta_return sp st KERN_INVALID_RIGHT
    else
      port ← pget st p;
      kassert (0 <? ip_sorights port);;
      if (0 <? delta) || (delta <? -1) then
        st ← ip_unlock st p;
        delta_return sp st KERN_INVALID_VALUE
      else if delta =? 0 then
        st ← ip_unlock st p;
        delta_return sp st KERN_SUCCESS
      else
        '(sp, st, dnrequest) ← ipc_right_dncancel_macro sp st p name entry;
        st ← ip_unlock st p;
        sp ← entry_drop sp name entry;
        sp ← is_write_unlock sp;
        let st := notify st (ipc_notify_send_once p) in
        Ok (sp, notify_port_deleted st dnrequest name, KERN_SUCCESS).

Definition delta_dead_name (sp : istate) (st : pstate) (name : Z) (entry : eptr) (e : ipc_entry) (delta : Z) :
    outcome (istate * pstate * kern_return) :=
  let bits := ie_bits e in
  '(sp, st, dead) ←
    (if has bits MACH_PORT_TYPE_SEND_RIGHTS then
       let p := ie_object e in
       kassert (negb (p =? IP_NULL));;
       '(sp, st, dead) ← ipc_right_check sp st p name entry;
       if negb dead then st ← ip_unlock st p; Ok (sp, st, false) else Ok (sp, st, true)
     else Ok (sp, st, has bits MACH_PORT_TYPE_DEAD_NAME));
  if negb (dead : bool) then delta_return sp st KERN_INVALID_RIGHT
  else
    e ← eread sp entry;
    let bits := ie_bits e in
    kassert (IE_BITS_TYPE bits =? MACH_PORT_TYPE_DEAD_NAME);;
    kassert (0 <? IE_BITS_UREFS bits);;
    kassert (ie_object e =? IO_NULL);;
    kassert (ie_request e =? 0);;
    let urefs := IE_BITS_UREFS bits in
    if MACH_PORT_UREFS_UNDERFLOW urefs delta then delta_return sp st KERN_INVALID_VALUE
    else if MACH_PORT_UREFS_OVERFLOW urefs delta then delta_return sp st KERN_UREFS_OVERFLOW
    else
      sp ← (if u32 (urefs + delta) =? 0 then ipc_entry_dealloc sp name entry
            else Ok (set_bits sp entry (u32 (bits + delta))));
      delta_return sp st KERN_SUCCESS.

(** The last user reference of a send right goes. *)
Definition delta_send_last (sp : istate) (st : pstate) (p name : Z) (entry : eptr) (bits : Z) :
    outcome (istate * pstate * (Z * Z) * Z) :=
  '(st, ns) ← drop_send_right st p;
  if has bits MACH_PORT_TYPE_RECEIVE then
    port ← pget st p;
    assert_receiver port name;;
    kassert (IE_BITS_TYPE bits =? MACH_PORT_TYPE_SEND_RECEIVE);;
    Ok (set_bits sp entry (Z.land bits (Z.lnot (Z.lor IE_BITS_UREFS_MASK MACH_PORT_TYPE_SEND))),
        st, ns, IP_NULL)
  else
    kassert (IE_BITS_TYPE bits =? MACH_PORT_TYPE_SEND);;
    '(sp, st, dnrequest) ← ipc_right_dncancel_macro sp st p name entry;
    sp ← ipc_hash_delete sp p name entry;
    st ← ip_release st p;
    sp ← entry_drop sp name entry;
    Ok (sp, st, ns, dnrequest).

Definition delta_send (sp : istate) (st : pstate) (name : Z) (entry : eptr) (e : ipc_entry) (delta : Z) :
    outcome (istate * pstate * kern_return) :=
  let bits := ie_bits e in
  if negb (has bits MACH_PORT_TYPE_SEND) then delta_return sp st KERN_INVALID_RIGHT
  else
    let p := ie_object e in
    kassert (negb (p =? IP_NULL));;
    '(sp, st, dead) ← ipc_right_check sp st p name entry;
    if dead : bool then
      e ← eread sp entry;
      kassert (negb (has (ie_bits e) MACH_PORT_TYPE_SEND));;
      delta_return sp st KERN_INVALID_RIGHT
    else
      port ← pget st p;
      kassert (0 <? ip_srights port);;
      let urefs := IE_BITS_UREFS bits in
      if MACH_PORT_UREFS_UNDERFLOW urefs delta then
        st ← ip_unlock st p;
        delta_return sp st KERN_INVALID_VALUE
      else if MACH_PORT_UREFS_OVERFLOW (urefs + 1) delta then
        st ← ip_unlock st p;
        delta_return sp st KERN_UREFS_OVERFLOW
      else
        '(sp, st, ns, dnrequest) ←
          (if u32 (urefs + delta) =? 0 then delta_send_last sp st p name entry bits
           else Ok (set_bits sp entry (u32 (bits + delta)), st, (IP_NULL, 0), IP_NULL));
        st ← ip_unlock st p;
        sp ← is_write_unlock sp;
        Ok (sp, notify_port_deleted (notify_no_senders st ns) dnrequest name, KERN_SUCCESS).

Definition ipc_right_delta (sp : istate) (st : pstate) (name : Z) (entry : eptr) (right delta : Z) :
    outcome (istate * pstate * kern_return) :=
  e ← eread sp entry;
  kassert (is_active (st_space sp));;
  kassert (right <? MACH_PORT_RIGHT_NUMBER);;
  if right =? MACH_PORT_RIGHT_PORT_SET then delta_port_set sp st name entry e delta
  else if right =? MACH_PORT_RIGHT_RECEIVE then delta_receive sp st name entry e delta
  else if right =? MACH_PORT_RIGHT_SEND_ONCE then delta_send_once sp st name entry e delta
  else if right =? MACH_PORT_RIGHT_DEAD_NAME then delta_dead_name sp st name entry e delta
  else if right =? MACH_PORT_RIGHT_SEND then delta_send sp st name entry e delta
  else Fault FPanic.

(** ** ipc_right_info: the type and the user references. *)

Definition ipc_right_info (sp : istate) (st : pstate) (name : Z) (entry : eptr) :
    outcome (istate * pstate * (Z * Z)) :=
  e ← eread sp entry;
  '(sp, st) ←
    (if has (ie_bits e) MACH_PORT_TYPE_SEND_RIGHTS then
       let p := ie_object e in
       '(sp, st, dead) ← ipc_right_check sp st p name entry;
       if dead : bool then
         e ← eread sp entry;
         kassert (IE_BITS_TYPE (ie_bits e) =? MACH_PORT_TYPE_DEAD_NAME);;
         Ok (sp, st)
       else
         st ← ip_unlock st p;
         Ok (sp, st)
     else Ok (sp, st));
  e ← eread sp entry;
  let type := IE_BITS_TYPE (ie_bits e) in
  let type := if negb (ie_request e =? 0) then Z.lor type MACH_PORT_TYPE_DNREQUEST else type in
  Ok (sp, st, (type, IE_BITS_UREFS (ie_bits e))).

(** ** ipc_right_copyin_check *)

Definition ipc_right_copyin_check (sp : istate) (st : pstate) (entry : eptr) (msgt_name : Z) :
    outcome (pstate * bool) :=
  e ← eread sp entry;
  let bits := ie_bits e in
  kassert (is_active (st_space sp));;
  if (msgt_name =? MACH_MSG_TYPE_MAKE_SEND) || (msgt_name =? MACH_MSG_TYPE_MAKE_SEND_ONCE) ||
     (msgt_name =? MACH_MSG_TYPE_MOVE_RECEIVE) then
    Ok (st, has bits MACH_PORT_TYPE_RECEIVE)
  else if (msgt_name =? MACH_MSG_TYPE_COPY_SEND) || (msgt_name =? MACH_MSG_TYPE_MOVE_SEND) ||
          (msgt_name =? MACH_MSG_TYPE_MOVE_SEND_ONCE) then
    if has bits MACH_PORT_TYPE_DEAD_NAME then Ok (st, true)
    else if negb (has bits MACH_PORT_TYPE_SEND_RIGHTS) then Ok (st, false)
    else
      let p := ie_object e in
      kassert (negb (p =? IP_NULL));;
      st ← ip_lock st p;
      port ← pget st p;
      let active := ip_active port in
      st ← ip_unlock st p;
      if negb active then Ok (st, true)
      else if msgt_name =? MACH_MSG_TYPE_MOVE_SEND_ONCE then
        Ok (st, has bits MACH_PORT_TYPE_SEND_ONCE)
      else Ok (st, has bits MACH_PORT_TYPE_SEND)
  else Fault FPanic.

(** ** ipc_right_copyin

    On success, the object and a send-once right for a port-deleted
    notification. *)

Definition copyin_result : Type := istate * pstate * option (Z * Z).

(** The label [invalid_right]. *)
Definition copyin_invalid (sp : istate) (st : pstate) : outcome copyin_result := Ok (sp, st, None).

(** The labels [copy_dead] and [move_dead]. *)
Definition copyin_dead (sp : istate) (st : pstate) (entry : eptr) (move deadok : bool) :
    outcome copyin_result :=
  e ← eread sp entry;
  let bits := ie_bits e in
  kassert (IE_BITS_TYPE bits =? MACH_PORT_TYPE_DEAD_NAME);;
  kassert (0 <? IE_BITS_UREFS bits);;
  kassert (ie_request e =? 0);;
  kassert (ie_object e =? 0);;
  if negb deadok then copyin_invalid sp st
  else
    let sp :=
      if negb move then sp
      else if IE_BITS_UREFS bits =? 1 then
        set_bits sp entry (Z.land bits (Z.lnot MACH_PORT_TYPE_DEAD_NAME))
      else set_bits sp entry (u32 (bits - 1)) in
    Ok (sp, st, Some (IO_DEAD, IP_NULL)).

(** [MAKE_SEND] and [MAKE_SEND_ONCE] differ in the counts of the port. *)
Definition copyin_make (sp : istate) (st : pstate) (name : Z) (e : ipc_entry)
    (make : ipc_port → ipc_port) : outcome copyin_result :=
  if negb (has (ie_bits e) MACH_PORT_TYPE_RECEIVE) then copyin_invalid sp st
  else
    let p := ie_object e in
    kassert (negb (p =? IP_NULL));;
    '(st, _) ← lock_receiver st p name;
    st ← pmod st p make;
    st ← ip_reference st p;
    st ← ip_unlock st p;
    Ok (sp, st, Some (p, IP_NULL)).

Definition make_send_counts (port : ipc_port) : ipc_port :=
  set_ip_srights (set_ip_mscount port (u32 (ip_mscount port + 1))) (u32 (ip_srights port + 1)).
Definition make_send_once_counts (port : ipc_port) : ipc_port :=
  set_ip_sorights port (u32 (ip_sorights port + 1)).

Definition copyin_move_receive (sp : istate) (st : pstate) (name : Z) (entry : eptr) (e : ipc_entry) :
    outcome copyin_result :=
  let bits := ie_bits e in
  if negb (has bits MACH_PORT_TYPE_RECEIVE) then copyin_invalid sp st
  else
    let p := ie_object e in
    kassert (negb (p =? IP_NULL));;
    '(st, port) ← lock_receiver st p name;
    '(sp, st, dnrequest) ←
      (if has bits MACH_PORT_TYPE_SEND then
         kassert (IE_BITS_TYPE bits =? MACH_PORT_TYPE_SEND_RECEIVE);;
         kassert (0 <? IE_BITS_UREFS bits);;
         kassert (0 <? ip_srights port);;
         sp ← ipc_hash_insert sp p name entry;
         st ← ip_reference st p;
         Ok (sp, st, IP_NULL)
       else
         kassert (IE_BITS_TYPE bits =? MACH_PORT_TYPE_RECEIVE);;
         kassert (IE_BITS_UREFS bits =? 0);;
         '(sp, st, dnrequest) ← ipc_right_dncancel_macro sp st p name entry;
         Ok (set_object sp entry IO_NULL, st, dnrequest));
    let sp := set_bits sp entry (Z.land bits (Z.lnot MACH_PORT_TYPE_RECEIVE)) in
    st ← ipc_port_clear_receiver st p;
    st ← pmod st p (λ port, set_ip_receiver_name port MACH_PORT_NULL);
    st ← pmod st p (λ port, set_ip_data port IP_NULL);
    st ← ip_unlock st p;
    Ok (sp, st, Some (p, dnrequest)).

(** A send or send-once right is wanted ([once]): [Some p] if the port [p] of
    the right is alive, and then locked; [None] if the right is dead.  The
    name may denote no such right. *)
Definition copyin_send_check (sp : istate) (st : pstate) (name : Z) (entry : eptr) (e : ipc_entry)
    (once : bool) : outcome (istate * pstate * option (option Z)) :=
  let bits := ie_bits e in
  if has bits MACH_PORT_TYPE_DEAD_NAME then Ok (sp, st, Some None)
  else if negb (has bits MACH_PORT_TYPE_SEND_RIGHTS) then Ok (sp, st, None)
  else
    kassert (0 <? IE_BITS_UREFS bits);;
    let p := ie_object e in
    kassert (negb (p =? IP_NULL));;
    '(sp, st, dead) ← ipc_right_check sp st p name entry;
    if dead : bool then Ok (sp, st, Some None)
    else
      port ← pget st p;
      if once then
        if negb (has bits MACH_PORT_TYPE_SEND_ONCE) then
          kassert (has bits MACH_PORT_TYPE_SEND);;
          kassert (0 <? ip_srights port);;
          st ← ip_unlock st p;
          Ok (sp, st, None)
        else Ok (sp, st, Some (Some p))
      else
        if negb (has bits MACH_PORT_TYPE_SEND) then
          kassert (IE_BITS_TYPE bits =? MACH_PORT_TYPE_SEND_ONCE);;
          kassert (0 <? ip_sorights port);;
          st ← ip_unlock st p;
          Ok (sp, st, None)
        else Ok (sp, st, Some (Some p)).

Definition copyin_copy_send (sp : istate) (st : pstate) (name : Z) (entry : eptr) (e : ipc_entry)
    (deadok : bool) : outcome copyin_result :=
  '(sp, st, found) ← copyin_send_check sp st name entry e false;
  match found with
  | None => copyin_invalid sp st
  | Some None => copyin_dead sp st entry false deadok
  | Some (Some p) =>
    port ← pget st p;
    kassert (0 <? ip_srights port);;
    st ← pmod st p (λ port, set_ip_srights port (u32 (ip_srights port + 1)));
    st ← ip_reference st p;
    st ← ip_unlock st p;
    Ok (sp, st, Some (p, IP_NULL))
  end.

Definition copyin_move_send (sp : istate) (st : pstate) (name : Z) (entry : eptr) (e : ipc_entry)
    (deadok : bool) : outcome copyin_result :=
  let bits := ie_bits e in
  '(sp, st, found) ← copyin_send_check sp st name entry e false;
  match found with
  | None => copyin_invalid sp st
  | Some None => copyin_dead sp st entry true deadok
  | Some (Some p) =>
    port ← pget st p;
    kassert (0 <? ip_srights port);;
    '(sp, st, dnrequest) ←
      (if IE_BITS_UREFS bits =? 1 then
         '(sp, st, dnrequest) ←
           (if has bits MACH_PORT_TYPE_RECEIVE then
              assert_receiver port name;;
              kassert (IE_BITS_TYPE bits =? MACH_PORT_TYPE_SEND_RECEIVE);;
              st ← ip_reference st p;
              Ok (sp, st, IP_NULL)
            else
              kassert (IE_BITS_TYPE bits =? MACH_PORT_TYPE_SEND);;
              '(sp, st, dnrequest) ← ipc_right_dncancel_macro sp st p name entry;
              sp ← ipc_hash_delete sp p name entry;
              Ok (set_object sp entry IO_NULL, st, dnrequest));
         Ok (set_bits sp entry (Z.land bits (Z.lnot (Z.lor IE_BITS_UREFS_MASK MACH_PORT_TYPE_SEND))),
             st, dnrequest)
       else
         st ← pmod st p (λ port, set_ip_srights port (u32 (ip_srights port + 1)));
         st ← ip_reference st p;
         Ok (set_bits sp entry (u32 (bits - 1)), st, IP_NULL));
    st ← ip_unlock st p;
    Ok (sp, st, Some (p, dnrequest))
  end.

Definition copyin_move_send_once (sp : istate) (st : pstate) (name : Z) (entry : eptr) (e : ipc_entry)
    (deadok : bool) : outcome copyin_result :=
  let bits := ie_bits e in
  '(sp, st, found) ← copyin_send_check sp st name entry e true;
  match found with
  | None => copyin_invalid sp st
  | Some None => copyin_dead sp st entry true deadok
  | Some (Some p) =>
    port ← pget st p;
    kassert (IE_BITS_TYPE bits =? MACH_PORT_TYPE_SEND_ONCE);;
    kassert (IE_BITS_UREFS bits =? 1);;
    kassert (0 <? ip_sorights port);;
    '(sp, st, dnrequest) ← ipc_right_dncancel_macro sp st p name entry;
    st ← ip_unlock st p;
    let sp := set_object sp entry IO_NULL in
    Ok (set_bits sp entry (Z.land bits (Z.lnot MACH_PORT_TYPE_SEND_ONCE)), st, Some (p, dnrequest))
  end.

Definition ipc_right_copyin (sp : istate) (st : pstate) (name : Z) (entry : eptr) (msgt_name : Z)
    (deadok : bool) : outcome copyin_result :=
  e ← eread sp entry;
  kassert (is_active (st_space sp));;
  if msgt_name =? MACH_MSG_TYPE_MAKE_SEND then copyin_make sp st name e make_send_counts
  else if msgt_name =? MACH_MSG_TYPE_MAKE_SEND_ONCE then copyin_make sp st name e make_send_once_counts
  else if msgt_name =? MACH_MSG_TYPE_MOVE_RECEIVE then copyin_move_receive sp st name entry e
  else if msgt_name =? MACH_MSG_TYPE_COPY_SEND then copyin_copy_send sp st name entry e deadok
  else if msgt_name =? MACH_MSG_TYPE_MOVE_SEND then copyin_move_send sp st name entry e deadok
  else if msgt_name =? MACH_MSG_TYPE_MOVE_SEND_ONCE then copyin_move_send_once sp st name entry e deadok
  else Fault FPanic.

(** ** ipc_right_copyin_undo *)

Definition ipc_right_copyin_undo (sp : istate) (st : pstate) (name : Z) (entry : eptr)
    (msgt_name object soright : Z) : outcome (istate * pstate) :=
  e ← eread sp entry;
  let bits := ie_bits e in
  let moves := (msgt_name =? MACH_MSG_TYPE_MOVE_SEND) || (msgt_name =? MACH_MSG_TYPE_MOVE_SEND_ONCE) in
  let copies := msgt_name =? MACH_MSG_TYPE_COPY_SEND in
  kassert (is_active (st_space sp));;
  kassert (moves || copies);;
  '(sp, st) ←
    (if negb (soright =? IP_NULL) then
       kassert moves;;
       kassert (IE_BITS_TYPE bits =? MACH_PORT_TYPE_NONE);;
       kassert (ie_object e =? IO_NULL);;
       kassert (negb (object =? IO_DEAD));;
       Ok (set_bits sp entry (Z.lor (Z.lor (Z.land bits (Z.lnot IE_BITS_RIGHT_MASK))
         MACH_PORT_TYPE_DEAD_NAME) 2), st)
     else if IE_BITS_TYPE bits =? MACH_PORT_TYPE_NONE then
       kassert moves;;
       kassert (ie_object e =? IO_NULL);;
       Ok (set_bits sp entry (Z.lor (Z.lor (Z.land bits (Z.lnot IE_BITS_RIGHT_MASK))
         MACH_PORT_TYPE_DEAD_NAME) 1), st)
     else if IE_BITS_TYPE bits =? MACH_PORT_TYPE_DEAD_NAME then
       kassert (ie_object e =? IO_NULL);;
       kassert (object =? IO_DEAD);;
       kassert (0 <? IE_BITS_UREFS bits);;
       if negb copies then
         kassert (IE_BITS_UREFS bits <? MACH_PORT_UREFS_MAX);;
         Ok (set_bits sp entry (u32 (bits + 1)), st)
       else Ok (sp, st)
     else
       kassert ((msgt_name =? MACH_MSG_TYPE_MOVE_SEND) || copies);;
       kassert (IE_BITS_TYPE bits =? MACH_PORT_TYPE_SEND);;
       kassert (negb (object =? IO_DEAD));;
       kassert (ie_object e =? object);;
       kassert (0 <? IE_BITS_UREFS bits);;
       sp ← (if negb copies then
               kassert (IE_BITS_UREFS bits <? MACH_PORT_UREFS_MAX - 1);;
               Ok (set_bits sp entry (u32 (bits + 1)))
             else Ok sp);
       '(sp, st, _) ← ipc_right_check sp st object name entry;
       Ok (sp, st));
  st ← (if negb (object =? IO_DEAD) then ipc_port_release st object else Ok st);
  Ok (sp, st).

(** ** ipc_right_copyin_two *)

Definition ipc_right_copyin_two (sp : istate) (st : pstate) (name : Z) (entry : eptr) :
    outcome copyin_result :=
  e ← eread sp entry;
  let bits := ie_bits e in
  kassert (is_active (st_space sp));;
  if negb (has bits MACH_PORT_TYPE_SEND) then copyin_invalid sp st
  else
    let urefs := IE_BITS_UREFS bits in
    if urefs <? 2 then copyin_invalid sp st
    else
      let p := ie_object e in
      kassert (negb (p =? IP_NULL));;
      '(sp, st, dead) ← ipc_right_check sp st p name entry;
      if dead : bool then copyin_invalid sp st
      else
        port ← pget st p;
        kassert (0 <? ip_srights port);;
        '(sp, st, dnrequest) ←
          (if urefs =? 2 then
             '(sp, st, dnrequest) ←
               (if has bits MACH_PORT_TYPE_RECEIVE then
                  assert_receiver port name;;
                  kassert (IE_BITS_TYPE bits =? MACH_PORT_TYPE_SEND_RECEIVE);;
                  st ← pmod st p (λ port, set_ip_srights port (u32 (ip_srights port + 1)));
                  st ← ip_reference st p;
                  st ← ip_reference st p;
                  Ok (sp, st, IP_NULL)
                else
                  kassert (IE_BITS_TYPE bits =? MACH_PORT_TYPE_SEND);;
                  '(sp, st, dnrequest) ← ipc_right_dncancel_macro sp st p name entry;
                  sp ← ipc_hash_delete sp p name entry;
                  st ← pmod st p (λ port, set_ip_srights port (u32 (ip_srights port + 1)));
                  st ← ip_reference st p;
                  Ok (set_object sp entry IO_NULL, st, dnrequest));
             Ok (set_bits sp entry (Z.land bits (Z.lnot (Z.lor IE_BITS_UREFS_MASK MACH_PORT_TYPE_SEND))),
                 st, dnrequest)
           else
             st ← pmod st p (λ port, set_ip_srights port (u32 (ip_srights port + 2)));
             st ← ip_reference st p;
             st ← ip_reference st p;
             Ok (set_bits sp entry (u32 (bits - 2)), st, IP_NULL));
        st ← ip_unlock st p;
        Ok (sp, st, Some (p, dnrequest)).

(** ** ipc_right_copyout: the port is locked, and unlocked on return. *)

(** [MACH_MSG_TYPE_PORT_SEND] *)
Definition copyout_send (sp : istate) (st : pstate) (name : Z) (entry : eptr) (bits p : Z) (overflow : bool) :
    outcome (istate * pstate * kern_return) :=
  port ← pget st p;
  kassert (0 <? ip_srights port);;
  let taken := set_bits sp entry (u32 (Z.lor bits MACH_PORT_TYPE_SEND + 1)) in
  if has bits MACH_PORT_TYPE_SEND then
    let urefs := IE_BITS_UREFS bits in
    kassert (1 <? ip_srights port);;
    kassert (0 <? urefs);;
    kassert (urefs <? MACH_PORT_UREFS_MAX);;
    if urefs + 1 =? MACH_PORT_UREFS_MAX then
      if overflow then
        st ← pmod st p (λ port, set_ip_srights port (u32 (ip_srights port - 1)));
        st ← ip_release st p;
        st ← ip_unlock st p;
        Ok (sp, st, KERN_SUCCESS)
      else
        st ← ip_unlock st p;
        Ok (sp, st, KERN_UREFS_OVERFLOW)
    else
      st ← pmod st p (λ port, set_ip_srights port (u32 (ip_srights port - 1)));
      st ← ip_release st p;
      st ← ip_unlock st p;
      Ok (taken, st, KERN_SUCCESS)
  else if has bits MACH_PORT_TYPE_RECEIVE then
    kassert (IE_BITS_TYPE bits =? MACH_PORT_TYPE_RECEIVE);;
    kassert (IE_BITS_UREFS bits =? 0);;
    st ← ip_release st p;
    st ← ip_unlock st p;
    Ok (taken, st, KERN_SUCCESS)
  else
    kassert (IE_BITS_TYPE bits =? MACH_PORT_TYPE_NONE);;
    kassert (IE_BITS_UREFS bits =? 0);;
    st ← ip_unlock st p;
    sp ← ipc_hash_insert sp p name entry;
    Ok (set_bits sp entry (u32 (Z.lor bits MACH_PORT_TYPE_SEND + 1)), st, KERN_SUCCESS).

(** [MACH_MSG_TYPE_PORT_RECEIVE] *)
Definition copyout_receive (sp : istate) (st : pstate) (name : Z) (entry : eptr) (bits p : Z) :
    outcome (istate * pstate * kern_return) :=
  port ← pget st p;
  kassert (ip_mscount port =? 0);;
  kassert (ip_receiver_name port =? MACH_PORT_NULL);;
  let dest := ip_destination port in
  st ← pmod st p (λ port, set_ip_receiver_name port name);
  st ← pmod st p (λ port, set_ip_data port space_addr);
  kassert (negb (has bits MACH_PORT_TYPE_RECEIVE));;
  '(sp, st) ←
    (if has bits MACH_PORT_TYPE_SEND then
       kassert (IE_BITS_TYPE bits =? MACH_PORT_TYPE_SEND);;
       kassert (0 <? IE_BITS_UREFS bits);;
       kassert (0 <? ip_srights port);;
       st ← ip_release st p;
       st ← ip_unlock st p;
       sp ← ipc_hash_delete sp p name entry;
       Ok (sp, st)
     else
       kassert (IE_BITS_TYPE bits =? MACH_PORT_TYPE_NONE);;
       kassert (IE_BITS_UREFS bits =? 0);;
       st ← ip_unlock st p;
       Ok (sp, st));
  let sp := set_bits sp entry (Z.lor bits MACH_PORT_TYPE_RECEIVE) in
  st ← (if negb (dest =? IP_NULL) then ipc_port_release st dest else Ok st);
  Ok (sp, st, KERN_SUCCESS).

Definition ipc_right_copyout (sp : istate) (st : pstate) (name : Z) (entry : eptr) (msgt_name : Z)
    (overflow : bool) (object : Z) : outcome (istate * pstate * kern_return) :=
  e ← eread sp entry;
  let bits := ie_bits e in
  kassert (IO_VALID object);;
  port ← pget st object;
  kassert (ip_active port);;
  kassert (ie_object e =? object);;
  if msgt_name =? MACH_MSG_TYPE_PORT_SEND_ONCE then
    kassert (IE_BITS_TYPE bits =? MACH_PORT_TYPE_NONE);;
    kassert (0 <? ip_sorights port);;
    st ← ip_unlock st object;
    Ok (set_bits sp entry (Z.lor bits (Z.lor MACH_PORT_TYPE_SEND_ONCE 1)), st, KERN_SUCCESS)
  else if msgt_name =? MACH_MSG_TYPE_PORT_SEND then copyout_send sp st name entry bits object overflow
  else if msgt_name =? MACH_MSG_TYPE_PORT_RECEIVE then copyout_receive sp st name entry bits object
  else Fault FPanic.

(** ** ipc_right_rename: the space is unlocked. *)

(** The dead-name request goes with the right. *)
Definition rename_request (sp : istate) (st : pstate) (oname : Z) (oentry : eptr) (nname : Z) (e : ipc_entry) :
    outcome (istate * pstate * (Z * Z * Z)) :=
  let bits := ie_bits e in
  let request := ie_request e in
  let object := ie_object e in
  if negb (request =? 0) then
    kassert (has bits MACH_PORT_TYPE_PORT_RIGHTS);;
    kassert (negb (object =? IP_NULL));;
    '(sp, st, dead) ← ipc_right_check sp st object oname oentry;
    if dead : bool then
      e ← eread sp oentry;
      kassert (IE_BITS_TYPE (ie_bits e) =? MACH_PORT_TYPE_DEAD_NAME);;
      kassert (ie_request e =? 0);;
      kassert (ie_object e =? IO_NULL);;
      Ok (sp, st, (ie_bits e, 0, IO_NULL))
    else
      st ← ipc_port_dnrename st object request oname nname;
      st ← ip_unlock st object;
      Ok (set_request sp oentry 0, st, (bits, request, object))
  else Ok (sp, st, (bits, request, object)).

Definition ipc_right_rename (sp : istate) (st : pstate) (oname : Z) (oentry : eptr) (nname : Z)
    (nentry : eptr) : outcome (istate * pstate * kern_return) :=
  e ← eread sp oentry;
  kassert (is_active (st_space sp));;
  kassert (negb (oname =? nname));;
  '(sp, st, (bits, request, object)) ← rename_request sp st oname oentry nname e;
  ne ← eread sp nentry;
  kassert (Z.land (ie_bits ne) IE_BITS_RIGHT_MASK =? 0);;
  let sp := set_bits sp nentry (Z.lor (ie_bits ne) (Z.land bits IE_BITS_RIGHT_MASK)) in
  let sp := set_request sp nentry request in
  let sp := set_object sp nentry object in
  let type := IE_BITS_TYPE bits in
  '(sp, st) ←
    (if type =? MACH_PORT_TYPE_SEND then
       kassert (negb (object =? IP_NULL));;
       sp ← ipc_hash_delete sp object oname oentry;
       sp ← ipc_hash_insert sp object nname nentry;
       Ok (sp, st)
     else if (type =? MACH_PORT_TYPE_RECEIVE) || (type =? MACH_PORT_TYPE_SEND_RECEIVE) then
       kassert (negb (object =? IP_NULL));;
       '(st, _) ← lock_receiver st object oname;
       st ← pmod st object (λ port, set_ip_receiver_name port nname);
       st ← ip_unlock st object;
       Ok (sp, st)
     else if type =? MACH_PORT_TYPE_PORT_SET then
       kassert (negb (object =? IPS_NULL));;
       st ← ips_lock st object;
       pset ← sget st object;
       kassert (ips_active pset);;
       kassert (ips_local_name pset =? oname);;
       st ← smod st object (λ pset, set_ips_local_name pset nname);
       st ← ips_unlock st object;
       Ok (sp, st)
     else if (type =? MACH_PORT_TYPE_SEND_ONCE) || (type =? MACH_PORT_TYPE_DEAD_NAME) then Ok (sp, st)
     else Fault FPanic);
  e ← eread sp oentry;
  kassert (ie_request e =? 0);;
  sp ← entry_drop sp oname oentry;
  sp ← is_write_unlock sp;
  Ok (sp, st, KERN_SUCCESS).
End right.
