(* ===== verification/IpcRightEq.v ===== *)
(** * How the operations on rights relate to each other

    [ipc_right_dealloc] is [ipc_right_delta] by -1 with the right the entry
    turns out to have. *)

From stdpp Require Import prelude list gmap.
From S2P Require Import Prelude MachPort IpcSplay IpcTypes IpcHash IpcTable IpcEntry IpcPort IpcDnreq IpcPset IpcDestroy IpcRight.

(** ** The type of a right *)

Lemma has_type bits m : Z.land IE_BITS_TYPE_MASK m = m → has bits m = has (IE_BITS_TYPE bits) m.
Proof. intros Hm. unfold has, IE_BITS_TYPE. by rewrite <-Z.land_assoc, Hm. Qed.

(** Rewrite [has bits m] when the type of [bits] is known. *)
Ltac has_simpl Ht :=
  repeat match goal with
  | |- context [has ?b ?m] =>
    rewrite (has_type b m) by reflexivity; rewrite Ht;
    let r := eval vm_compute in (has ltac:(match type of Ht with _ = ?t => exact t end) m) in
    match type of Ht with _ = ?t => change (has t m) with r end
  end; cbn [negb andb orb].

(** Two programs that run the same commands: step through them together. *)
Ltac bind_head t :=
  lazymatch t with
  | ?m ≫= _ => bind_head m
  | _ => t
  end.
Ltac same_steps :=
  repeat (first [done | progress ostep |
    match goal with
    | |- context [match ?x with (_, _) => _ end] => is_var x; destruct x
    | |- ?l ≫= ?k = _ => let m := bind_head l in destruct m as [?|?]
    end]).

Lemma UREFS_range bits : 0 ≤ IE_BITS_UREFS bits < 2 ^ 16.
Proof. rewrite IE_BITS_UREFS_arith. by apply Z.mod_pos_bound. Qed.

Lemma underflow_one urefs : 0 < urefs → MACH_PORT_UREFS_UNDERFLOW urefs (-1) = false.
Proof.
  intros Hu. unfold MACH_PORT_UREFS_UNDERFLOW. change (u32 (- -1)) with 1.
  rewrite Z.gtb_ltb, (proj2 (Z.ltb_ge urefs 1)) by lia. done.
Qed.

Lemma overflow_down urefs delta : delta ≤ 0 → MACH_PORT_UREFS_OVERFLOW urefs delta = false.
Proof.
  intros Hd. unfold MACH_PORT_UREFS_OVERFLOW. by rewrite Z.gtb_ltb, (proj2 (Z.ltb_ge _ _)) by lia.
Qed.

Lemma urefs_last bits : 0 < IE_BITS_UREFS bits →
  (u32 (IE_BITS_UREFS bits + -1) =? 0) = (IE_BITS_UREFS bits =? 1).
Proof.
  intros Hu. pose proof (UREFS_range bits). rewrite u32_small by (unfold is_u32; lia).
  destruct (Z.eqb_spec (IE_BITS_UREFS bits) 1), (Z.eqb_spec (IE_BITS_UREFS bits + -1) 0); lia || done.
Qed.

Section right_eq.
Context {IW : iworld} {PW : pworld}.

(** The right [ipc_right_dealloc] acts on. *)
Definition dealloc_right (sp : istate) (st : pstate) (name : Z) (ep : eptr) (e : ipc_entry) : Z :=
  let type := IE_BITS_TYPE (ie_bits e) in
  if type =? MACH_PORT_TYPE_DEAD_NAME then MACH_PORT_RIGHT_DEAD_NAME
  else match ipc_right_check sp st (ie_object e) name ep with
       | Ok (_, _, true) => MACH_PORT_RIGHT_DEAD_NAME
       | _ => if type =? MACH_PORT_TYPE_SEND_ONCE then MACH_PORT_RIGHT_SEND_ONCE else MACH_PORT_RIGHT_SEND
       end.

(** A dead name. *)
Lemma dead_name_dealloc_delta sp st name ep :
  (sp ← dealloc_died sp name ep; Ok (sp, st, KERN_SUCCESS)) =
  (e ← eread sp ep;
   let bits := ie_bits e in
   kassert (IE_BITS_TYPE bits =? MACH_PORT_TYPE_DEAD_NAME);;
   kassert (0 <? IE_BITS_UREFS bits);;
   kassert (ie_object e =? IO_NULL);;
   kassert (ie_request e =? 0);;
   let urefs := IE_BITS_UREFS bits in
   if MACH_PORT_UREFS_UNDERFLOW urefs (-1) then delta_return sp st KERN_INVALID_VALUE
   else if MACH_PORT_UREFS_OVERFLOW urefs (-1) then delta_return sp st KERN_UREFS_OVERFLOW
   else
     sp ← (if u32 (urefs + -1) =? 0 then ipc_entry_dealloc sp name ep
           else Ok (set_bits sp ep (u32 (bits + -1))));
     delta_return sp st KERN_SUCCESS).
Proof.
  unfold dealloc_died, dealloc_dead_name. destruct (eread sp ep) as [e|]; ostep; [|done].
  destruct (IE_BITS_TYPE (ie_bits e) =? _); ostep; [|done].
  destruct (Z.ltb_spec 0 (IE_BITS_UREFS (ie_bits e))); ostep; [|done].
  rewrite underflow_one, overflow_down, urefs_last by lia.
  destruct (ie_object e =? _), (ie_request e =? _); ostep; try done.
  unfold delta_return. by destruct (if _ =? 1 then _ else _).
Qed.

(** What the invariant of rights says of an entry that has user references. *)
Record urefs_ok (st : pstate) (name : Z) (e : ipc_entry) : Prop := {
  uo_some : 0 < IE_BITS_UREFS (ie_bits e);
  uo_once : IE_BITS_TYPE (ie_bits e) = MACH_PORT_TYPE_SEND_ONCE → IE_BITS_UREFS (ie_bits e) = 1;
  uo_object : IE_BITS_TYPE (ie_bits e) ≠ MACH_PORT_TYPE_DEAD_NAME → ie_object e ≠ IP_NULL;
  uo_receiver st' port : IE_BITS_TYPE (ie_bits e) = MACH_PORT_TYPE_SEND_RECEIVE →
    ip_lock st (ie_object e) = Ok st' → ps_ports st' !! ie_object e = Some port →
    ip_receiver_name port = name ∧ ip_receiver port = space_addr;
}.

Lemma ip_lock_locked st p st' :
  ip_lock st p = Ok st' → ∃ port, ps_ports st' !! p = Some port ∧ ip_locked port = true.
Proof.
  unfold ip_lock, pmod, pget. destruct (ps_ports st !! p) as [port|]; [|done]. ostep.
  destruct (ip_locked port); [done|]. set (st1 := ptick _). destruct (ps_ports st1 !! p) as [port1|]; [|done].
  ostep. intros [= <-]. eexists. simpl. by rewrite lookup_insert_eq.
Qed.

(** Dropping a send right leaves the receiver alone. *)
Lemma drop_send_receiver st p port st' ns :
  ps_ports st !! p = Some port → drop_send_right st p = Ok (st', ns) →
  ∃ port', ps_ports st' !! p = Some port' ∧ ip_receiver_name port' = ip_receiver_name port ∧
    ip_receiver port' = ip_receiver port.
Proof.
  intros Hp. unfold drop_send_right. rewrite (pmod_spec st p port) by done. ostep.
  unfold pget. rewrite put_get. ostep. destruct (_ && _).
  - rewrite put_pmod. ostep. intros [= <- _]. eexists. by rewrite put_get.
  - intros [= <- _]. eexists. by rewrite put_get.
Qed.

Section dealloc_delta.
Context (sp : istate) (st : pstate) (name : Z) (ep : eptr) (e : ipc_entry).
Hypothesis He : eget sp ep = Some e.
Hypothesis Hact : is_active (st_space sp) = true.
Hypothesis Hok : urefs_ok st name e.

Lemma eread_e : eread sp ep = Ok e.
Proof. unfold eread. by rewrite He. Qed.

(** The cases of the two switches. *)
Lemma delta_case right delta :
  ipc_right_delta sp st name ep right delta =
    if right <? MACH_PORT_RIGHT_NUMBER then
      if right =? MACH_PORT_RIGHT_PORT_SET then delta_port_set sp st name ep e delta
      else if right =? MACH_PORT_RIGHT_RECEIVE then delta_receive sp st name ep e delta
      else if right =? MACH_PORT_RIGHT_SEND_ONCE then delta_send_once sp st name ep e delta
      else if right =? MACH_PORT_RIGHT_DEAD_NAME then delta_dead_name sp st name ep e delta
      else if right =? MACH_PORT_RIGHT_SEND then delta_send sp st name ep e delta
      else Fault FPanic
    else Fault FAssert.
Proof.
  unfold ipc_right_delta. rewrite eread_e. ostep. rewrite Hact. ostep.
  by destruct (right <? MACH_PORT_RIGHT_NUMBER).
Qed.

Lemma delta_is_send delta :
  ipc_right_delta sp st name ep MACH_PORT_RIGHT_SEND delta = delta_send sp st name ep e delta.
Proof. by rewrite delta_case. Qed.
Lemma delta_is_send_once delta :
  ipc_right_delta sp st name ep MACH_PORT_RIGHT_SEND_ONCE delta = delta_send_once sp st name ep e delta.
Proof. by rewrite delta_case. Qed.
Lemma delta_is_dead_name delta :
  ipc_right_delta sp st name ep MACH_PORT_RIGHT_DEAD_NAME delta = delta_dead_name sp st name ep e delta.
Proof. by rewrite delta_case. Qed.

Lemma dealloc_case :
  ipc_right_dealloc sp st name ep =
    let type := IE_BITS_TYPE (ie_bits e) in
    if type =? MACH_PORT_TYPE_DEAD_NAME then
      sp ← dealloc_dead_name sp name ep; Ok (sp, st, KERN_SUCCESS)
    else if type =? MACH_PORT_TYPE_SEND_ONCE then
      '(sp, st) ← dealloc_send_once sp st name ep e; Ok (sp, st, KERN_SUCCESS)
    else if type =? MACH_PORT_TYPE_SEND then
      '(sp, st) ← dealloc_send sp st name ep e; Ok (sp, st, KERN_SUCCESS)
    else if type =? MACH_PORT_TYPE_SEND_RECEIVE then
      '(sp, st) ← dealloc_send_receive sp st name ep e; Ok (sp, st, KERN_SUCCESS)
    else sp ← is_write_unlock sp; Ok (sp, st, KERN_INVALID_RIGHT).
Proof. unfold ipc_right_dealloc. rewrite eread_e. ostep. by rewrite Hact. Qed.

Lemma object_neq : IE_BITS_TYPE (ie_bits e) ≠ MACH_PORT_TYPE_DEAD_NAME → (ie_object e =? IP_NULL) = false.
Proof. intros Ht. by apply Z.eqb_neq, Hok. Qed.

(** The port has died: both act on a dead name. *)
Lemma died_delta sp1 st1 :
  has (ie_bits e) MACH_PORT_TYPE_SEND_RIGHTS = true → (ie_object e =? IP_NULL) = false →
  ipc_right_check sp st (ie_object e) name ep = Ok (sp1, st1, true) →
  (sp ← dealloc_died sp1 name ep; Ok (sp, st1, KERN_SUCCESS)) = delta_dead_name sp st name ep e (-1).
Proof.
  intros Hs Ho Hc. unfold delta_dead_name. rewrite Hs, Ho. ostep. rewrite Hc. ostep.
  apply dead_name_dealloc_delta.
Qed.

Lemma dealloc_send_delta :
  IE_BITS_TYPE (ie_bits e) = MACH_PORT_TYPE_SEND →
  ipc_right_dealloc sp st name ep =
  ipc_right_delta sp st name ep (dealloc_right sp st name ep e) (-1).
Proof.
  intros Ht. rewrite dealloc_case. unfold dealloc_right. cbv zeta. rewrite !Ht. simpl Z.eqb. cbv iota.
  pose proof (object_neq ltac:(by rewrite Ht)) as Ho.
  unfold dealloc_send. rewrite (proj2 (Z.ltb_lt _ _) (uo_some _ _ _ Hok)), Ho. ostep.
  destruct (ipc_right_check sp st (ie_object e) name ep) as [[[sp1 st1] [|]]|f] eqn:Hc; ostep.
  - rewrite delta_is_dead_name, <-(died_delta sp1 st1); [|by has_simpl Ht|done..]. same_steps.
  - rewrite delta_is_send. unfold delta_send. has_simpl Ht. rewrite Ho. ostep.
    rewrite Hc. ostep. destruct (pget st1 (ie_object e)) as [port|]; ostep; [|done].
    destruct (0 <? ip_srights port); ostep; [|done].
    rewrite underflow_one, overflow_down, urefs_last by (lia || apply Hok).
    change (ie_bits e + -1) with (ie_bits e - 1).
    destruct (IE_BITS_UREFS (ie_bits e) =? 1); [|same_steps].
    unfold delta_send_last. has_simpl Ht. rewrite ?Ht. simpl Z.eqb. same_steps.
  - rewrite delta_is_send. unfold delta_send. has_simpl Ht. rewrite Ho. ostep. by rewrite Hc.
Qed.

Lemma dealloc_send_once_delta :
  IE_BITS_TYPE (ie_bits e) = MACH_PORT_TYPE_SEND_ONCE →
  ipc_right_dealloc sp st name ep =
  ipc_right_delta sp st name ep (dealloc_right sp st name ep e) (-1).
Proof.
  intros Ht. rewrite dealloc_case. unfold dealloc_right. cbv zeta. rewrite !Ht. simpl Z.eqb. cbv iota.
  pose proof (object_neq ltac:(by rewrite Ht)) as Ho.
  unfold dealloc_send_once. rewrite (uo_once _ _ _ Hok Ht), Ho. change (1 =? 1) with true. ostep.
  destruct (ipc_right_check sp st (ie_object e) name ep) as [[[sp1 st1] [|]]|f] eqn:Hc; ostep.
  - rewrite delta_is_dead_name, <-(died_delta sp1 st1); [|by has_simpl Ht|done..]. same_steps.
  - rewrite delta_is_send_once. unfold delta_send_once. has_simpl Ht. rewrite (uo_once _ _ _ Hok Ht), Ho. change (1 =? 1) with true. ostep.
    rewrite Hc. change (0 <? -1) with false. change (-1 <? -1) with false. change (-1 =? 0) with false. same_steps.
  - rewrite delta_is_send_once. unfold delta_send_once. has_simpl Ht. rewrite (uo_once _ _ _ Hok Ht), Ho. change (1 =? 1) with true. ostep.
    by rewrite Hc.
Qed.

Lemma dealloc_dead_name_delta :
  IE_BITS_TYPE (ie_bits e) = MACH_PORT_TYPE_DEAD_NAME →
  ipc_right_dealloc sp st name ep =
  ipc_right_delta sp st name ep (dealloc_right sp st name ep e) (-1).
Proof.
  intros Ht. rewrite dealloc_case. unfold dealloc_right. cbv zeta. rewrite !Ht. simpl Z.eqb. cbv iota.
  rewrite delta_is_dead_name. unfold delta_dead_name. has_simpl Ht. ostep.
  rewrite <-dead_name_dealloc_delta. unfold dealloc_died. rewrite eread_e. ostep. by rewrite Ht.
Qed.

(** The port of a receive right is not dead: the assertions of the two
    functions fail together. *)
Lemma check_receive st1 port :
  IE_BITS_TYPE (ie_bits e) = MACH_PORT_TYPE_SEND_RECEIVE →
  ip_lock st (ie_object e) = Ok st1 → ps_ports st1 !! ie_object e = Some port → ip_locked port = true →
  ipc_right_check sp st (ie_object e) name ep = (kassert (ip_active port);; Ok (sp, st1, false)).
Proof.
  intros Ht Hl Hp Hk. unfold ipc_right_check. rewrite Hact, eread_e. ostep. rewrite Z.eqb_refl. ostep.
  rewrite Hl. ostep. unfold pget. rewrite Hp. ostep. destruct (ip_active port); ostep; [done|].
  rewrite (ip_unlock_spec st1 _ port) by done. ostep. by has_simpl Ht.
Qed.

Lemma dealloc_send_receive_delta :
  IE_BITS_TYPE (ie_bits e) = MACH_PORT_TYPE_SEND_RECEIVE →
  ipc_right_dealloc sp st name ep =
  ipc_right_delta sp st name ep (dealloc_right sp st name ep e) (-1).
Proof.
  intros Ht. rewrite dealloc_case. unfold dealloc_right. cbv zeta. rewrite !Ht. simpl Z.eqb. cbv iota.
  pose proof (object_neq ltac:(by rewrite Ht)) as Ho.
  unfold dealloc_send_receive, lock_receiver, assert_receiver.
  rewrite (proj2 (Z.ltb_lt _ _) (uo_some _ _ _ Hok)), Ho. ostep.
  destruct (ip_lock st (ie_object e)) as [st1|f] eqn:Hl; ostep.
  2: { assert (ipc_right_check sp st (ie_object e) name ep = Fault f) as Hc.
       { unfold ipc_right_check. rewrite Hact, eread_e. ostep. by rewrite Z.eqb_refl, Hl. }
       rewrite Hc, delta_is_send. unfold delta_send. has_simpl Ht. rewrite Ho. ostep. by rewrite Hc. }
  destruct (ip_lock_locked _ _ _ Hl) as (port & Hp & Hk).
  destruct (uo_receiver _ _ _ Hok st1 port Ht Hl Hp) as [Hn Hr].
  pose proof (check_receive st1 port Ht Hl Hp Hk) as Hc.
  rewrite Hc. unfold pget at 1. rewrite Hp. ostep. rewrite Hn, Hr, !Z.eqb_refl.
  destruct (ip_active port); ostep; rewrite delta_is_send; unfold delta_send; has_simpl Ht; rewrite Ho;
    ostep; rewrite Hc; ostep; [|done].
  unfold pget at 1. rewrite Hp. ostep. destruct (0 <? ip_srights port); ostep; [|done].
  rewrite underflow_one, overflow_down, urefs_last by (lia || apply Hok).
  change (ie_bits e + -1) with (ie_bits e - 1).
  destruct (IE_BITS_UREFS (ie_bits e) =? 1); [|same_steps].
  unfold delta_send_last. has_simpl Ht. destruct (drop_send_right st1 (ie_object e)) as [[st2 ns]|] eqn:Hd; ostep; [|done].
  destruct (drop_send_receiver _ _ _ _ _ Hp Hd) as (port2 & Hp2 & Hn2 & Hr2).
  unfold pget at 1, assert_receiver. rewrite Hp2. ostep. rewrite Hn2, Hr2, Hn, Hr, !Z.eqb_refl. same_steps.
Qed.
End dealloc_delta.

(** C29. ipc_right_dealloc and ipc_right_delta by -1 are the same operation
    on a send, send-once, send-receive or dead name entry, where the right
    named to ipc_right_delta is the one that the entry has once its port
    has been checked - a dead name when the port has died - and whatever
    other threads do to the port while its lock is waited for: the same
    resulting space, ports, notifications and return code, and the same
    assertions. *)
Theorem right_dealloc_delta sp st name ep e :
  eget sp ep = Some e → is_active (st_space sp) = true → urefs_ok st name e →
  IE_BITS_TYPE (ie_bits e) ∈ [MACH_PORT_TYPE_SEND; MACH_PORT_TYPE_SEND_ONCE;
    MACH_PORT_TYPE_SEND_RECEIVE; MACH_PORT_TYPE_DEAD_NAME] →
  ipc_right_dealloc sp st name ep =
  ipc_right_delta sp st name ep (dealloc_right sp st name ep e) (-1).
Proof.
  intros He Hact Hok Ht. repeat rewrite elem_of_cons in Ht. destruct Ht as [Ht|[Ht|[Ht|[Ht|[]%elem_of_nil]]]].
  - by apply dealloc_send_delta.
  - by apply dealloc_send_once_delta.
  - by apply dealloc_send_receive_delta.
  - by apply dealloc_dead_name_delta.
Qed.
End right_eq.
