(* ===== verification/IpcRightInv.v ===== *)
(** * What a space holds, and what backs it

    The rights layer of a space: a finite map from names to rights
    ([rights_t]), which the entries of the space represent, and the account
    of rights between the names of a space, the rights in transit and the
    counts of the ports ([rights_ok]).  A name whose entry an operation is
    working on is in hand ([hand]); the lemmas on [hand] say what each write
    to the entry does. *)

From stdpp Require Import prelude list gmap.
From S2P Require Import Prelude MachPort IpcSplay IpcTypes IpcHash IpcTable IpcEntry IpcInv.
From S2P Require Import IpcDealloc IpcUpdate IpcPort IpcDnreq IpcPortRights IpcPset IpcDestroy IpcRight.

(** ** The bits of an entry *)

(** [b'] is [b] with another type and other user references. *)
Record rebits (b b' type urefs : Z) : Prop := {
  rb_high : same_high b b';
  rb_type : IE_BITS_TYPE b' = type;
  rb_urefs : IE_BITS_UREFS b' = urefs;
}.

(** [(b & ~k) | s] *)
Lemma rebits_mask b k s :
  Z.land (Z.lnot k) IE_BITS_GEN_MASK = IE_BITS_GEN_MASK → Z.land s IE_BITS_GEN_MASK = 0 →
  Z.land (Z.lnot k) IE_BITS_COLLISION = IE_BITS_COLLISION → Z.land s IE_BITS_COLLISION = 0 →
  Z.land s IE_BITS_RIGHT_MASK = s →
  rebits b (Z.lor (Z.land b (Z.lnot k)) s)
    (Z.lor (Z.land (IE_BITS_TYPE b) (Z.lnot k)) (IE_BITS_TYPE s))
    (Z.lor (Z.land (IE_BITS_UREFS b) (Z.lnot k)) (IE_BITS_UREFS s)).
Proof.
  intros Hg Hg' Hc Hc' Hr.
  assert (∀ m, Z.land (Z.lor (Z.land b (Z.lnot k)) s) m =
    Z.lor (Z.land (Z.land b m) (Z.lnot k)) (Z.land s m)) as Hm.
  { intros m. rewrite Z.land_lor_distr_l. f_equal. rewrite <-!Z.land_assoc. f_equal. apply Z.land_comm. }
  split; [|apply Hm..]. split.
  - unfold IE_BITS_GEN. by rewrite Hm, Hg', Z.lor_0_r, <-Z.land_assoc, (Z.land_comm _ (Z.lnot k)), Hg.
  - unfold collides. by rewrite Hm, Hc', Z.lor_0_r, <-Z.land_assoc, (Z.land_comm _ (Z.lnot k)), Hc.
  - intros Hb. by rewrite Hm, Hb, Hr.
Qed.

Lemma rebits_clear b k :
  Z.land (Z.lnot k) IE_BITS_GEN_MASK = IE_BITS_GEN_MASK →
  Z.land (Z.lnot k) IE_BITS_COLLISION = IE_BITS_COLLISION →
  rebits b (Z.land b (Z.lnot k)) (Z.land (IE_BITS_TYPE b) (Z.lnot k)) (Z.land (IE_BITS_UREFS b) (Z.lnot k)).
Proof. intros Hg Hc. pose proof (rebits_mask b k 0 Hg eq_refl Hc eq_refl eq_refl) as Hx. by rewrite !Z.lor_0_r in Hx. Qed.

Lemma rebits_set b s :
  Z.land s IE_BITS_GEN_MASK = 0 → Z.land s IE_BITS_COLLISION = 0 → Z.land s IE_BITS_RIGHT_MASK = s →
  rebits b (Z.lor b s) (Z.lor (IE_BITS_TYPE b) (IE_BITS_TYPE s)) (Z.lor (IE_BITS_UREFS b) (IE_BITS_UREFS s)).
Proof.
  intros Hg Hc Hr. pose proof (rebits_mask b 0 s eq_refl Hg eq_refl Hc Hr) as Hx.
  change (Z.lnot 0) with (-1) in Hx. by rewrite !Z.land_m1_r in Hx.
Qed.

(** [b + d], when only the user references change *)
Lemma land_u32 x m : Z.land (Z.ones 32) m = m → Z.land (u32 x) m = Z.land x m.
Proof. intros Hm. unfold u32. by rewrite <-Z.land_ones, <-Z.land_assoc, Hm by lia. Qed.

Lemma land_above x y m :
  x / 2 ^ 16 = y / 2 ^ 16 → Z.land (Z.lnot (Z.ones 16)) m = m → Z.land x m = Z.land y m.
Proof.
  intros Hxy Hm. rewrite <-Hm, !Z.land_assoc, <-!Z.ldiff_land. f_equal.
  by rewrite !Z.ldiff_ones_r, !Z.shiftr_div_pow2, Hxy by lia.
Qed.

Lemma rebits_add b d :
  0 ≤ IE_BITS_UREFS b + d < 2 ^ 16 → rebits b (u32 (b + d)) (IE_BITS_TYPE b) (IE_BITS_UREFS b + d).
Proof.
  rewrite IE_BITS_UREFS_arith. intros Hd.
  assert (b + d = b / 2 ^ 16 * 2 ^ 16 + (b mod 2 ^ 16 + d)) as Hb
    by (pose proof (Z.div_mod b (2 ^ 16) ltac:(lia)); lia).
  assert ((b + d) / 2 ^ 16 = b / 2 ^ 16) as Hq by (rewrite Hb, Z.div_add_l, (Z.div_small (_ + _)); lia).
  assert (∀ m, Z.land (Z.ones 32) m = m → Z.land (Z.lnot (Z.ones 16)) m = m →
    Z.land (u32 (b + d)) m = Z.land b m) as Hm.
  { intros m H1 H2. rewrite land_u32 by done. by apply land_above. }
  split; [split|..].
  - by apply Hm.
  - unfold collides. by rewrite Hm.
  - intros Hr. change IE_BITS_RIGHT_MASK with (Z.ones 23) in *.
    rewrite Z.land_ones in Hr |- * by lia. apply Z.mod_small_iff in Hr; [|lia].
    destruct Hr as [Hr|]; [|lia]. assert (0 ≤ b + d < 2 ^ 23) as Hx.
    { rewrite Hb. assert (0 ≤ b / 2 ^ 16 < 2 ^ 7) by (split; [apply Z.div_pos; lia|apply Z.div_lt_upper_bound; lia]).
      lia. }
    unfold u32. by rewrite (Z.mod_small _ (2 ^ 32)), Z.mod_small by lia.
  - by apply Hm.
  - rewrite IE_BITS_UREFS_arith. unfold u32.
    rewrite <-(Z.mod_small (b mod 2 ^ 16 + d) (2 ^ 16)), Z.add_mod_idemp_l by lia.
    rewrite Z.mod_mod_divide; [done|by exists (2 ^ 16)].
Qed.

(** ** The state of the space's lock *)


(** Decompose a successful run. *)
Ltac run_inv :=
  repeat (cbv beta iota zeta in *; match goal with
  | H : Fault _ = Ok _ |- _ => discriminate H
  | H : Ok _ = Ok _ |- _ => injection H as ?; subst
  | H : _ ≫= _ = Ok _ |- _ => apply outcome_bind_ok in H as (? & ? & ?)
  | H : (if ?b then _ else _) = Ok _ |- _ => destruct b
  | H : match ?x with _ => _ end = Ok _ |- _ => destruct x; try discriminate H
  end).

Lemma eset_flags sp ep f : flags (eset sp ep f) = flags sp.
Proof. by destruct ep. Qed.

(** Decompose the run, use the lemma for the calls in it. *)
Ltac flags_by lem :=
  intros; run_inv; repeat match goal with H : _ |- _ => apply lem in H end;
  unfold flags in *; simpl in *; congruence.

Section flags.
Context {IW : iworld}.

Lemma free_push_flags sp i sp' : entry_free_push sp i = Ok sp' → flags sp' = flags sp.
Proof. unfold entry_free_push. intros. by run_inv. Qed.

Lemma collision_flags sp name sp' b : ipc_entry_tree_collision sp name = Ok (sp', b) → flags sp' = flags sp.
Proof. unfold ipc_entry_tree_collision. intros. by run_inv. Qed.

Lemma uncollide_flags sp name sp' : entry_uncollide sp name = Ok sp' → flags sp' = flags sp.
Proof. unfold entry_uncollide. flags_by collision_flags. Qed.

Lemma global_delete_flags sp o n p sp' : ipc_hash_global_delete sp o n p = Ok sp' → flags sp' = flags sp.
Proof. unfold ipc_hash_global_delete, bucket_get. intros. by run_inv. Qed.

Lemma entry_move_flags sp i n p t sp' : entry_move sp i n p t = Ok sp' → flags sp' = flags sp.
Proof. unfold entry_move. flags_by global_delete_flags. Qed.

Lemma rejoin_flags sp c s i sp' : entry_rejoin sp c s i = Ok sp' → flags sp' = flags sp.
Proof. unfold entry_rejoin. intros. by run_inv. Qed.

Lemma dealloc_collision_flags sp i sp' : entry_dealloc_collision sp i = Ok sp' → flags sp' = flags sp.
Proof.
  unfold entry_dealloc_collision, tree_delete, is_tree_total_decr. intros. run_inv.
  repeat match goal with H : _ |- _ => apply entry_move_flags in H || apply rejoin_flags in H end.
  unfold flags in *. simpl in *. congruence.
Qed.

Lemma dealloc_tree_flags sp name p sp' : entry_dealloc_tree sp name p = Ok sp' → flags sp' = flags sp.
Proof. unfold entry_dealloc_tree, tree_delete, is_tree_total_decr. flags_by uncollide_flags. Qed.

Lemma dealloc_flags sp name ep sp' : ipc_entry_dealloc sp name ep = Ok sp' → flags sp' = flags sp.
Proof.
  unfold ipc_entry_dealloc. intros. run_inv;
    eauto using free_push_flags, dealloc_collision_flags, dealloc_tree_flags.
Qed.
End flags.

(** ** The rights of a space *)

Record right := Right {
  r_type : Z;
  r_urefs : Z;
  r_object : Z;
  r_request : Z;
}.

Abbreviation rights_t := (gmap Z right) (only parsing).

Definition entry_right (e : ipc_entry) : right :=
  Right (IE_BITS_TYPE (ie_bits e)) (IE_BITS_UREFS (ie_bits e)) (ie_object e) (ie_request e).

Definition cap_right (c : cap) : right :=
  Right (IE_BITS_TYPE (cap_bits c)) (IE_BITS_UREFS (cap_bits c)) (cap_object c) (cap_request c).

Lemma cap_right_of e : cap_right (cap_of e) = entry_right e.
Proof.
  unfold cap_right, entry_right, cap_of. simpl. unfold IE_BITS_TYPE, IE_BITS_UREFS.
  by rewrite <-!Z.land_assoc.
Qed.

Section space_rights.
Context {IW : iworld}.

(** The name is not one of those in hand. *)
Class outside (name : Z) (hs : gset Z) : Prop := is_outside : name ∉ hs.
#[export] Instance outside_empty name : outside name ∅ := not_elem_of_empty name.

(** The space represents the map, but for the names in hand, and is locked. *)
Record spaced (H : gset Z) (sp : istate) (caps : rights_t) : Prop := {
  sd_wf : space_wf H sp;
  sd_active : is_active (st_space sp) = true;
  sd_locked : is_locked (st_space sp) = true;
  sd_growing : is_growing (st_space sp) = false;
  sd_view n : is_u32 n → n ∉ H → cap_right <$> space_view sp n = caps !! n;
  sd_dom n : is_Some (caps !! n) → is_u32 n ∧ n ∉ H;
}.

(** The entry [e] at [ep] of a name in hand; [b] says whether it is in a
    reverse hash table. *)
Record hand (H : gset Z) (sp : istate) (caps : rights_t) (name : Z) (ep : eptr) (e : ipc_entry) (b : bool) :
    Prop := {
  hd_spaced : spaced H sp caps;
  hd_in : name ∈ H;
  hd_denotes : denotes H sp name ep;
  hd_get : eget sp ep = Some e;
  hd_reversed : reversed sp ep ↔ b = true;
}.

Lemma hand_eread H sp caps name ep e b : hand H sp caps name ep e b → eread sp ep = Ok e.
Proof. intros Hh. unfold eread. by rewrite (hd_get _ _ _ _ _ _ _ Hh). Qed.

Lemma spaced_entry H sp caps name ep e :
  spaced H sp caps → denotes H sp name ep → name ∉ H → eget sp ep = Some e →
  caps !! name = Some (entry_right e) ∧ IE_BITS_TYPE (ie_bits e) ≠ 0.
Proof.
  intros Hs Hd Hn He. pose proof (sd_wf _ _ _ Hs) as Hw.
  pose proof (denotes_typed _ _ _ _ _ Hw Hd Hn He) as Ht.
  rewrite <-(sd_view _ _ _ Hs) by (done || by eapply denotes_u32).
  rewrite (view_denotes _ _ _ _ _ Hw Hd He), (proj2 (Z.eqb_neq _ _) Ht). simpl. by rewrite cap_right_of.
Qed.

(** A name is taken in hand. *)
Lemma spaced_take H sp caps name ep e :
  spaced H sp caps → denotes H sp name ep → name ∉ H → eget sp ep = Some e →
  hand ({[name]} ∪ H) sp (delete name caps) name ep e (IE_BITS_TYPE (ie_bits e) =? MACH_PORT_TYPE_SEND).
Proof.
  intros Hs Hd Hn He. pose proof Hs as [Hw Ha Hl Hgr Hv Hdom]. split.
  - split; [by eapply take_in_hand|done..| |].
    + intros n Hu Hni. rewrite lookup_delete_ne by set_solver. apply Hv; set_solver.
    + intros n. destruct (decide (n = name)) as [->|]; [by rewrite lookup_delete_eq; intros []|].
      rewrite lookup_delete_ne by done. intros [? ?]%Hdom. set_solver.
  - set_solver.
  - destruct ep as [i|p]; [|done]. simpl in *. destruct Hd as (? & ? & _). split; [done|]. split; [done|]. right. set_solver.
  - done.
  - rewrite Z.eqb_eq. by eapply reversed_type.
Qed.

(** The entry is written. *)
Lemma hand_set H sp caps name ep e b f bits obj req :
  hand H sp caps name ep e b → f e = IE bits obj req (ie_index e) → same_high (ie_bits e) bits →
  (b = true → obj = ie_object e) →
  hand H (eset sp ep f) caps name ep (IE bits obj req (ie_index e)) b.
Proof.
  intros [[Hw Ha Hl Hgr Hv Hdom] Hn Hd He Hr] Hf Hh Ho.
  assert (eset sp ep f = eset sp ep (rewrite_entry bits obj req)) as ->.
  { destruct ep as [i|p]; simpl in *.
    - unfold set_table, with_space. do 2 f_equal. unfold tmod, tget in *. destruct (0 <=? i); [|done].
      apply list_alter_ext; [|done]. intros x Hx. rewrite Hx in He. injection He as ->. by rewrite Hf.
    - unfold with_ites. f_equal. apply map_eq. intros q. destruct (decide (q = p)) as [->|].
      + rewrite !lookup_alter_eq. destruct (st_ites sp !! p) as [t|]; [|done]. simpl in *. injection He as ->.
        by rewrite Hf.
      + by rewrite !lookup_alter_ne. }
  destruct (rewrite_spec H H sp name ep e bits obj req) as [Hw' Hd' He' Hv'];
    [done..|by intros Hx%Hr; apply Ho|by intros []|].
  split; [|done..|].
  - split; [done|by destruct ep..| |done]. intros n Hu Hni. rewrite Hv'; [by apply Hv|done|]. by intros ->.
  - rewrite <-Hr. destruct ep as [i|p]; [|done]. simpl. apply hashed_ext; [apply tsize_tmod|].
    intros j. by apply slot_keep.
Qed.

(** Only the hash tables change. *)
Lemma spaced_rehash H sp caps sp' :
  spaced H sp caps → space_wf H sp' → rehashed sp sp' → spaced H sp' caps.
Proof.
  intros [Hw Ha Hl Hgr Hv Hdom] Hw' Hre. pose proof Hre as (t & h & bs & -> & _).
  split; [done..| |done]. intros n Hu Hn. rewrite (rehashed_view _ _ _ Hre). by apply Hv.
Qed.

(** The send right leaves the reverse hash table. *)
Lemma hand_unhash H sp caps name ep e :
  hand H sp caps name ep e true →
  ∃ sp' x, ipc_hash_delete sp (ie_object e) name ep = Ok sp' ∧
    hand H sp' caps name ep (set_ie_index e x) false.
Proof.
  intros [Hs Hn Hd He Hr]. destruct (hash_delete_spec H sp name ep e) as (sp' & Hrun & Hw' & Hre & Hrev);
    [by apply Hs|done..|by apply Hr|].
  destruct (rehashed_get _ _ _ _ Hre He) as (x & Hx). exists sp', x. split; [done|].
  split; [by eapply spaced_rehash|done|by rewrite (rehashed_denotes _ _ _ _ _ Hre)|done|].
  specialize (Hrev ep). by rewrite decide_True in Hrev.
Qed.

(** A send right for an object that the space has no other one for enters it. *)
Lemma hand_hash H sp caps name ep e :
  hand H sp caps name ep e false → ie_object e ≠ IO_NULL →
  (∀ n ep', denotes H sp n ep' → reversed sp ep' → entry_object sp ep' ≠ ie_object e) →
  ∃ sp' x, ipc_hash_insert sp (ie_object e) name ep = Ok sp' ∧
    hand H sp' caps name ep (set_ie_index e x) true.
Proof.
  intros [Hs Hn Hd He Hr] Ho Hfresh.
  destruct (hash_insert_spec H sp name ep e) as (sp' & Hrun & Hw' & Hre & Hrev);
    [by apply Hs|done..|intros Hx; by apply Hr in Hx|done|].
  destruct (rehashed_get _ _ _ _ Hre He) as (x & Hx). exists sp', x. split; [done|].
  split; [by eapply spaced_rehash|done|by rewrite (rehashed_denotes _ _ _ _ _ Hre)|done|].
  specialize (Hrev ep). by rewrite decide_True in Hrev.
Qed.

(** The name is done with. *)
Lemma hand_put H sp caps name ep e :
  hand H sp caps name ep e (IE_BITS_TYPE (ie_bits e) =? MACH_PORT_TYPE_SEND) →
  IE_BITS_TYPE (ie_bits e) ≠ 0 →
  spaced (H ∖ {[name]}) sp (<[name := entry_right e]> caps) ∧ denotes (H ∖ {[name]}) sp name ep.
Proof.
  intros [[Hw Ha Hl Hgr Hv Hdom] Hn Hd He Hr] Ht. rewrite Z.eqb_eq in Hr.
  destruct (rewrite_spec H (H ∖ {[name]}) sp name ep e (ie_bits e) (ie_object e) (ie_request e))
    as [Hw' Hd' _ _]; [done..|intros n ?; set_solver|done|done|done|]. rewrite rewrite_id in * by done.
  pose proof (denotes_u32 _ _ _ _ Hw Hd) as Hu.
  split; [|done]. split; [done..| |].
  - intros n Hun Hni. destruct (decide (n = name)) as [->|].
    + rewrite (view_denotes _ _ _ _ _ Hw' Hd' He), (proj2 (Z.eqb_neq _ _) Ht), lookup_insert_eq. simpl.
      by rewrite cap_right_of.
    + rewrite lookup_insert_ne by done. apply Hv; [done|set_solver].
  - intros n. destruct (decide (n = name)) as [->|]; [intros _; set_solver|].
    rewrite lookup_insert_ne by done. intros [? ?]%Hdom. set_solver.
Qed.

(** The other names in hand stay there. *)
Lemma hand_put_out hs sp caps name ep e `{!outside name hs} :
  hand ({[name]} ∪ hs) sp caps name ep e (IE_BITS_TYPE (ie_bits e) =? MACH_PORT_TYPE_SEND) →
  IE_BITS_TYPE (ie_bits e) ≠ 0 →
  spaced hs sp (<[name := entry_right e]> caps) ∧ denotes hs sp name ep.
Proof.
  intros Hh Ht. apply hand_put in Hh; [|done]. assert (({[name]} ∪ hs) ∖ {[name]} = hs) as Hx; [|by rewrite Hx in Hh].
  pose proof (is_outside : name ∉ hs). set_solver.
Qed.

(** The last name in hand. *)
Lemma hand_put_last sp caps name ep e :
  hand {[name]} sp caps name ep e (IE_BITS_TYPE (ie_bits e) =? MACH_PORT_TYPE_SEND) →
  IE_BITS_TYPE (ie_bits e) ≠ 0 →
  spaced ∅ sp (<[name := entry_right e]> caps) ∧ denotes ∅ sp name ep.
Proof. intros Hh Ht. apply hand_put in Hh; [|done]. by rewrite difference_diag_L in Hh. Qed.

(** A new name is in hand. *)
Lemma reversed_object H sp name ep :
  space_wf H sp → denotes H sp name ep → reversed sp ep → entry_object sp ep ≠ IO_NULL.
Proof.
  intros Hw Hd Hr. pose proof (sw_hash _ _ Hw) as Hh. destruct (denotes_eget _ _ _ _ Hw Hd) as [e He].
  rewrite (entry_object_get _ _ _ He). destruct ep as [i|p]; simpl in *.
  - destruct Hr as (Hi & j & Hj & Hs).
    pose proof (lh_object _ (hw_local _ _ _ _ _ Hh) j) as Hx. rewrite Hs in Hx. unfold object_at in Hx. rewrite He in Hx.
    apply Hx. lia.
  - destruct (st_ites sp !! p) as [te|] eqn:Hp; [|done]. injection He as <-. simpl.
    destruct (tree_elem_ok _ _ _ _ Hw Hd) as (te' & Hp' & _ & Hsp & _).
    eapply (gh_own _ _ _ (hw_global _ _ _ _ _ Hh)); [done..|]. congruence.
Qed.

Lemma hand_fresh sp sp' (caps : rights_t) name ep e :
  (∀ n, is_u32 n → cap_right <$> space_view sp n = caps !! n) → (∀ n, is_Some (caps !! n) → is_u32 n) →
  same_view sp sp' → space_view sp name = None → space_wf {[name]} sp' → denotes {[name]} sp' name ep →
  eget sp' ep = Some e → ie_object e = IO_NULL →
  is_active (st_space sp') = true → is_locked (st_space sp') = true → is_growing (st_space sp') = false →
  hand {[name]} sp' caps name ep e false.
Proof.
  intros Hv Hdom Hsv Hn Hw Hd He Ho Ha Hl Hgr. pose proof (denotes_u32 _ _ _ _ Hw Hd) as Hu. split; [|set_solver|done..|].
  - split; [done..| |].
    + intros n Hnu _. rewrite (Hsv n Hnu). by apply Hv.
    + intros n Hc. split; [by apply Hdom|]. intros ->%elem_of_singleton. rewrite <-Hv, Hn in Hc by done. by destruct Hc.
  - split; [|done]. intros Hr. exfalso. apply (reversed_object _ _ _ _ Hw Hd Hr). by rewrite (entry_object_get _ _ _ He).
Qed.

(** The name goes; the entries of the other names in hand stay where they are. *)
Lemma hand_drop_out hs sp caps name ep e b `{!outside name hs} :
  hand ({[name]} ∪ hs) sp caps name ep e b → apart hs name → ie_object e = IO_NULL → ie_request e = 0 →
  ∃ sp', ipc_entry_dealloc sp name ep = Ok sp' ∧ spaced hs sp' caps ∧ gone ({[name]} ∪ hs) sp sp' name.
Proof.
  intros [[Hw Ha Hl Hgr Hv Hdom] Hn Hd He Hr] Hap Ho Hq. pose proof (is_outside : name ∉ hs) as Hout.
  assert (apart ({[name]} ∪ hs) name) as Hap' by (intros n [->%elem_of_singleton|?]%elem_of_union ?; [done|auto]).
  destruct (dealloc_spec ({[name]} ∪ hs) sp name ep e) as (sp' & Hrun & Hg); [done..|].
  exists sp'. split; [done|]. split; [|done]. pose proof Hg as [Hw' Hnone Hother _].
  assert (({[name]} ∪ hs) ∖ {[name]} = hs) as Hx by set_solver. rewrite Hx in Hw'.
  apply dealloc_flags in Hrun. unfold flags in Hrun. injection Hrun as Ha' Hl' Hgr'. split; [done|congruence..| |].
  - intros n Hu Hnh. destruct (decide (n = name)) as [->|].
    + rewrite Hnone. simpl. destruct (caps !! name) eqn:Hc; [|done].
      destruct (Hdom name) as [_ Hy]; [by rewrite Hc|set_solver].
    + rewrite Hother by done. apply Hv; [done|set_solver].
  - intros n [? ?]%Hdom. set_solver.
Qed.

Lemma hand_drop sp caps name ep e b :
  hand {[name]} sp caps name ep e b → ie_object e = IO_NULL → ie_request e = 0 →
  ∃ sp', ipc_entry_dealloc sp name ep = Ok sp' ∧ spaced ∅ sp' caps.
Proof.
  rewrite <-(union_empty_r_L {[name]}). intros Hh Ho Hq.
  destruct (hand_drop_out ∅ sp caps name ep e b Hh) as (sp' & ? & ? & _); [set_solver|done..|eauto].
Qed.

(** The space is unlocked. *)
Record released (sp : istate) (caps : rights_t) : Prop := {
  rl_wf : space_wf ∅ sp;
  rl_active : is_active (st_space sp) = true;
  rl_locked : is_locked (st_space sp) = false;
  rl_growing : is_growing (st_space sp) = false;
  rl_view n : is_u32 n → cap_right <$> space_view sp n = caps !! n;
  rl_dom n : is_Some (caps !! n) → is_u32 n;
}.

Lemma spaced_unlock sp caps :
  spaced ∅ sp caps → ∃ sp', is_write_unlock sp = Ok sp' ∧ released sp' caps.
Proof.
  intros [Hw Ha Hl Hgr Hv Hdom]. unfold is_write_unlock. rewrite Hl. eexists. split; [done|].
  split; [by destruct Hw|done..| |].
  - intros n Hu. by apply Hv.
  - intros n Hn. by apply Hdom.
Qed.
End space_rights.

(** ** The account of rights

    The rights for a port that the names of the space and the rights in
    transit stand for are covered by the references and the counts of the
    port.  Others may hold more. *)

Definition has_port (type : Z) : bool := has type MACH_PORT_TYPE_PORT_RIGHTS.
Definition has_send (type : Z) : bool := has type MACH_PORT_TYPE_SEND.
Definition has_once (type : Z) : bool := has type MACH_PORT_TYPE_SEND_ONCE.

(** Rights in transit: type and port. *)
Abbreviation transit_t := (list (Z * Z)) (only parsing).

Definition covers (f : Z → bool) (p : Z) (type object : Z) : Z := if f type && (object =? p) then 1 else 0.
Definition tally (f : Z → bool) (caps : rights_t) (p : Z) : Z :=
  Z.of_nat (size (filter (λ kv : Z * right, f (r_type kv.2) && (r_object kv.2 =? p) = true) caps)).
Fixpoint carried (f : Z → bool) (tr : transit_t) (p : Z) : Z :=
  match tr with
  | [] => 0
  | (type, object) :: tr' => covers f p type object + carried f tr' p
  end.

Lemma tally_nonneg f caps p : 0 ≤ tally f caps p.
Proof. unfold tally. lia. Qed.
Lemma carried_nonneg f tr p : 0 ≤ carried f tr p.
Proof. induction tr as [|[t o] tr IH]; simpl; [done|]. unfold covers. case_match; lia. Qed.

Lemma tally_insert f caps p n r :
  caps !! n = None → tally f (<[n := r]> caps) p = tally f caps p + covers f p (r_type r) (r_object r).
Proof.
  intros Hn. unfold tally, covers. case_match eqn:Hr.
  - rewrite map_filter_insert_True, map_size_insert_None; [lia| |done].
    apply map_lookup_filter_None. by left.
  - rewrite map_filter_insert_False by (simpl; by rewrite Hr). rewrite delete_id by done. lia.
Qed.

Lemma tally_take f caps p n r :
  caps !! n = Some r → tally f caps p = tally f (delete n caps) p + covers f p (r_type r) (r_object r).
Proof.
  intros Hn. rewrite <-(tally_insert f (delete n caps) p n r) by apply lookup_delete_eq.
  by rewrite insert_delete_id.
Qed.

Section account.
Context {IW : iworld}.

(** Arithmetic on the counts of a port that may be active. *)
Ltac count_lia :=
  try (intros ?Ha); repeat match goal with
  | H : ip_active ?p = true → _, H' : ip_active ?p = true |- _ => specialize (H H')
  end; lia.

(** The counts of a port cover what is held. *)
Record port_ok (caps : rights_t) (tr : transit_t) (p : Z) (port : ipc_port) : Prop := {
  po_dn : port_dn_wf port;
  po_refs : tally has_port caps p + carried has_port tr p ≤ ip_references port ≤ IO_MAX_REFERENCES;
  po_send : ip_active port = true →
    tally has_send caps p + carried has_send tr p ≤ ip_srights port < 2 ^ 32;
  po_once : ip_active port = true →
    tally has_once caps p + carried has_once tr p ≤ ip_sorights port < 2 ^ 32;
}.

(** The dead-name request of a name is registered with the port. *)
Definition registered (port : ipc_port) (name req : Z) : Prop :=
  req ≠ 0 → ip_active port = true → ∃ soright, request port req = Some (name, soright).

(** What the port has to be for a right. *)
Definition names_port (name : Z) (r : right) (port : ipc_port) : Prop :=
  registered port name (r_request r) ∧
  if has (r_type r) MACH_PORT_TYPE_RECEIVE
  then ip_active port = true ∧ ip_receiver_name port = name ∧ ip_receiver port = space_addr
  else ip_active port = true → r_type r = MACH_PORT_TYPE_SEND → ip_receiver port ≠ space_addr.

(** What is known of the user references of a right. *)
Definition urefs_of (r : right) : Prop :=
  let t := r_type r in
  (t = MACH_PORT_TYPE_SEND ∨ t = MACH_PORT_TYPE_SEND_RECEIVE) ∧ 0 < r_urefs r < MACH_PORT_UREFS_MAX ∨
  t = MACH_PORT_TYPE_RECEIVE ∧ r_urefs r = 0 ∨
  t = MACH_PORT_TYPE_SEND_ONCE ∧ r_urefs r = 1.

Definition right_ok (name : Z) (r : right) (st : pstate) : Prop :=
  (has_port (r_type r) = true ∧ urefs_of r ∧ r_object r ≠ IO_NULL ∧
     ∃ port, ps_ports st !! r_object r = Some port ∧ names_port name r port) ∨
  (r_type r = MACH_PORT_TYPE_DEAD_NAME ∧ 0 < r_urefs r ≤ MACH_PORT_UREFS_MAX ∧
     r_object r = IO_NULL ∧ r_request r = 0) ∨
  (r_type r = MACH_PORT_TYPE_PORT_SET ∧ r_urefs r = 0 ∧ r_object r ≠ IO_NULL ∧ r_request r = 0 ∧
     ∃ pset, ps_psets st !! r_object r = Some pset ∧ ips_active pset = true ∧ ips_local_name pset = name).

Record rights_ok (caps : rights_t) (tr : transit_t) (st : pstate) : Prop := {
  ra_right n r : caps !! n = Some r → right_ok n r st;
  ra_port p port : ps_ports st !! p = Some port → port_ok caps tr p port;
  ra_transit t p : (t, p) ∈ tr → has_port t = true → p ≠ IO_NULL ∧ is_Some (ps_ports st !! p);
}.

(** The order of the rights in transit does not matter. *)
Lemma carried_perm f tr tr' p : tr ≡ₚ tr' → carried f tr p = carried f tr' p.
Proof. induction 1 as [|[t o]|[t o] [t' o']|]; simpl; lia || congruence. Qed.

Lemma rights_perm caps tr tr' st : tr ≡ₚ tr' → rights_ok caps tr st → rights_ok caps tr' st.
Proof.
  intros Hp [Hr Hport Ht]. split; [done| |].
  - intros p port Hq. destruct (Hport p port Hq) as [Hdn Hrefs Hs Ho].
    pose proof (λ f, carried_perm f tr tr' p Hp) as Hx. by split; rewrite <-?Hx.
  - intros t p. rewrite <-Hp. apply Ht.
Qed.

(** A right leaves its name. *)
Lemma rights_take caps tr st n r :
  rights_ok caps tr st → caps !! n = Some r →
  rights_ok (delete n caps) ((r_type r, r_object r) :: tr) st.
Proof.
  intros [Hr Hp Ht] Hn. split.
  - intros m r' [_ Hm]%lookup_delete_Some. by apply Hr.
  - intros p port Hport. destruct (Hp p port Hport) as [Hd Hrefs Hs Ho]. simpl.
    rewrite (tally_take _ _ _ _ _ Hn) in Hrefs. setoid_rewrite (tally_take _ _ _ _ _ Hn) in Hs.
    setoid_rewrite (tally_take _ _ _ _ _ Hn) in Ho.
    split; simpl; [done|count_lia..].
  - intros t p [[= -> ->]|Hin]%elem_of_cons Hhas; [|by apply (Ht t)].
    destruct (Hr n r Hn) as [(_ & _ & Hz & port & Hport & _)|[(Hx & _)|(Hx & _)]];
      [by rewrite Hport|by rewrite Hx in Hhas..].
Qed.

(** A right goes to a name. *)
Lemma rights_put caps tr st n r :
  rights_ok caps ((r_type r, r_object r) :: tr) st → caps !! n = None → right_ok n r st →
  rights_ok (<[n := r]> caps) tr st.
Proof.
  intros [Hr Hp Ht] Hn Hok. split.
  - intros m r' [[<- <-]|[_ Hm]]%lookup_insert_Some; [done|by apply Hr].
  - intros p port Hport. destruct (Hp p port Hport) as [Hd Hrefs Hs Ho]. simpl in *.
    split; [done|..]; rewrite tally_insert by done; count_lia.
  - intros t p Hin. apply Ht. by right.
Qed.

(** What stands for no port counts for nothing. *)
Lemma has_mono t m m' : Z.land m' m = m → has t m = true → has t m' = true.
Proof.
  intros Hm. unfold has. rewrite !negb_true_iff, !Z.eqb_neq. intros Hx Hy. apply Hx.
  by rewrite <-Hm, Z.land_assoc, Hy.
Qed.

Lemma covers_none f p t o : (f = has_port ∨ f = has_send ∨ f = has_once) → has_port t = false → covers f p t o = 0.
Proof.
  intros Hf Ht. unfold covers. destruct (f t) eqn:Hft; [|done]. exfalso.
  destruct Hf as [->|[->| ->]]; [congruence|..]; by apply (has_mono _ _ MACH_PORT_TYPE_PORT_RIGHTS) in Hft;
    [unfold has_port in Ht; congruence|].
Qed.

Lemma rights_skip caps tr st t o :
  has_port t = false → rights_ok caps ((t, o) :: tr) st ↔ rights_ok caps tr st.
Proof.
  intros Ht.
  assert (∀ p port, port_ok caps ((t, o) :: tr) p port ↔ port_ok caps tr p port) as Hport.
  { intros p port. pose proof (covers_none has_port p t o ltac:(tauto) Ht).
    pose proof (covers_none has_send p t o ltac:(tauto) Ht). pose proof (covers_none has_once p t o ltac:(tauto) Ht).
    split; intros [Hd Hrefs Hs Ho]; simpl in *; (split; simpl; [done|count_lia..]). }
  split; intros [Hr Hp Hx]; (split; [done|by intros p port Hq; apply Hport, Hp|]).
  - intros t' p' Hin. apply Hx. by right.
  - intros t' p' [[= -> ->]|Hin]%elem_of_cons Hhas; [congruence|by apply (Hx t')].
Qed.

(** ** One port changes *)

(** The port is the same to the names of the space. *)
Record keeps (caps : rights_t) (port port' : ipc_port) : Prop := {
  kp_active : ip_active port' = ip_active port;
  kp_name : ip_receiver_name port' = ip_receiver_name port;
  kp_receiver : ip_receiver port' = ip_receiver port;
  kp_request n r : caps !! n = Some r → registered port n (r_request r) → registered port' n (r_request r);
}.

Lemma keeps_right caps n r port port' :
  keeps caps port port' → caps !! n = Some r → names_port n r port → names_port n r port'.
Proof.
  intros [Ha Hn Hr Hq] Hc [Hreg Hx]. split; [by eapply Hq|]. by rewrite Ha, Hn, Hr.
Qed.

(** Requests that are kept as they are. *)
Lemma keeps_same caps port port' :
  ip_active port' = ip_active port → ip_receiver_name port' = ip_receiver_name port →
  ip_receiver port' = ip_receiver port → ip_dnrequests port' = ip_dnrequests port → keeps caps port port'.
Proof.
  intros Ha Hn Hr Hd. split; [done..|]. intros n r _ Hreg Hne Hact. rewrite Ha in Hact.
  unfold request in *. rewrite Hd. by apply Hreg.
Qed.

(** Rights are as before but for those for one port. *)
Lemma right_ok_other name r st st' p :
  right_ok name r st → r_object r ≠ p → (∀ q, q ≠ p → ps_ports st' !! q = ps_ports st !! q) →
  ps_psets st' = ps_psets st → right_ok name r st'.
Proof.
  intros Hok Hne Hq Hs. unfold right_ok. rewrite Hs. rewrite Hq by done. done.
Qed.

Lemma rights_port caps tr tr' st st' p port port' :
  rights_ok caps tr st → ps_ports st !! p = Some port → keeps caps port port' →
  ps_ports st' = <[p := port']> (ps_ports st) → ps_psets st' = ps_psets st →
  port_ok caps tr' p port' →
  (∀ f q, q ≠ p → carried f tr' q = carried f tr q) →
  (∀ t q, (t, q) ∈ tr' → q = p ∨ (t, q) ∈ tr) → p ≠ IO_NULL →
  rights_ok caps tr' st'.
Proof.
  intros [Hr Hp Ht] Hport Hk Hps Hss Hok Hcar Hin Hnz.
  assert (∀ q, q ≠ p → ps_ports st' !! q = ps_ports st !! q) as Hne.
  { intros q Hq. by rewrite Hps, lookup_insert_ne. }
  split.
  - intros n r Hn. pose proof (Hr n r Hn) as Hrok. destruct (decide (r_object r = p)) as [<-|];
      [|by eapply right_ok_other].
    destruct Hrok as [(Hh & Hu & Hz & port0 & Hp0 & Hnp)|[Hx|Hx]]; [left|by right; left|right; right].
    + split_and!; [done..|]. exists port'. rewrite Hps, lookup_insert_eq. split; [done|].
      assert (port0 = port) as -> by congruence. by eapply keeps_right.
    + by rewrite Hss.
  - intros q port0 Hq. destruct (decide (q = p)) as [->|Hqp].
    + rewrite Hps, lookup_insert_eq in Hq. by injection Hq as <-.
    + rewrite Hne in Hq by done. destruct (Hp q port0 Hq) as [Hd Hrefs Hs Ho].
      split; [done|..]; rewrite Hcar; done.
  - intros t q [->|Hq]%Hin Hh.
    + rewrite Hps, lookup_insert_eq. done.
    + destruct (Ht t q Hq Hh) as [? Hsome]. split; [done|]. rewrite Hps. apply lookup_insert_is_Some'. by right.
Qed.

(** *** Rights for the port that are in transit change with its counts. *)

Definition tagged (p : Z) (l : list Z) : transit_t := (λ t, (t, p)) <$> l.
Fixpoint count_of (f : Z → bool) (l : list Z) : Z :=
  match l with
  | [] => 0
  | t :: l' => (if f t then 1 else 0) + count_of f l'
  end.

Lemma carried_tagged f p l tr : carried f (tagged p l ++ tr) p = count_of f l + carried f tr p.
Proof.
  induction l as [|t l IH]; simpl; [done|]. unfold covers. rewrite IH, Z.eqb_refl, andb_true_r. lia.
Qed.
Lemma carried_tagged_ne f p l tr q : q ≠ p → carried f (tagged p l ++ tr) q = carried f tr q.
Proof.
  intros Hq. induction l as [|t l IH]; simpl; [done|]. unfold covers.
  by rewrite IH, (proj2 (Z.eqb_neq p q)), andb_false_r by done.
Qed.

(** [l] rights become [l'] rights. *)
Record recounted (l l' : list Z) (port port' : ipc_port) : Prop := {
  rc_refs : ip_references port + count_of has_port l' ≤ ip_references port' + count_of has_port l;
  rc_max : ip_references port' ≤ IO_MAX_REFERENCES;
  rc_send : ip_active port = true →
    ip_srights port + count_of has_send l' ≤ ip_srights port' + count_of has_send l ∧ ip_srights port' < 2 ^ 32;
  rc_once : ip_active port = true →
    ip_sorights port + count_of has_once l' ≤ ip_sorights port' + count_of has_once l ∧ ip_sorights port' < 2 ^ 32;
}.

Lemma rights_recount caps tr l l' st st' p port port' :
  rights_ok caps (tagged p l ++ tr) st → ps_ports st !! p = Some port → p ≠ IO_NULL → keeps caps port port' →
  port_dn_wf port' → recounted l l' port port' →
  ps_ports st' = <[p := port']> (ps_ports st) → ps_psets st' = ps_psets st →
  rights_ok caps (tagged p l' ++ tr) st'.
Proof.
  intros Hok Hp Hz Hk Hdn [Hrefs Hmax Hs Ho] Hps Hss.
  apply (rights_port caps (tagged p l ++ tr) (tagged p l' ++ tr) st st' p port port'); try done.
  - destruct (ra_port _ _ _ Hok p port Hp) as [_ Hrefs0 Hs0 Ho0].
    rewrite carried_tagged in Hrefs0. setoid_rewrite carried_tagged in Hs0.
    setoid_rewrite carried_tagged in Ho0.
    split; [done|..]; rewrite carried_tagged; rewrite ?(kp_active _ _ _ Hk); count_lia.
  - intros f q Hq. by rewrite !carried_tagged_ne.
  - intros t q [(t' & [= -> ->] & _)%list_elem_of_fmap|Hin]%elem_of_app; [by left|].
    right. apply elem_of_app. by right.
Qed.

(** A port without references goes. *)
Lemma tally_some f caps n r p : caps !! n = Some r → covers f p (r_type r) (r_object r) = 1 → 0 < tally f caps p.
Proof. intros Hn Hc. rewrite (tally_take _ _ _ _ _ Hn), Hc. pose proof (tally_nonneg f (delete n caps) p). lia. Qed.

Lemma carried_some f tr p t : (t, p) ∈ tr → f t = true → 0 < carried f tr p.
Proof.
  intros Hin Ht. induction tr as [|[t' o] tr IH]; [by apply elem_of_nil in Hin|]. simpl.
  pose proof (carried_nonneg f tr p). apply elem_of_cons in Hin as [[= <- <-]|Hin].
  - unfold covers. rewrite Ht, Z.eqb_refl. simpl. lia.
  - specialize (IH Hin). unfold covers. case_match; lia.
Qed.

Lemma rights_free caps tr st st' p port :
  rights_ok caps tr st → ps_ports st !! p = Some port → ip_references port = 0 →
  ps_ports st' = delete p (ps_ports st) → ps_psets st' = ps_psets st → rights_ok caps tr st'.
Proof.
  intros [Hr Hp Ht] Hport H0 Hps Hss. destruct (Hp p port Hport) as [_ Hrefs _ _].
  pose proof (tally_nonneg has_port caps p). pose proof (carried_nonneg has_port tr p).
  assert (∀ q, q ≠ p → ps_ports st' !! q = ps_ports st !! q) as Hne.
  { intros q Hq. by rewrite Hps, lookup_delete_ne. }
  split.
  - intros n r Hn. pose proof (Hr n r Hn) as Hrok. destruct (decide (r_object r = p)) as [<-|];
      [|by eapply right_ok_other].
    destruct Hrok as [(Hh & _)|[Hx|Hx]]; [|by right; left|right; right; by rewrite Hss].
    assert (0 < tally has_port caps (r_object r)); [|lia]. apply (tally_some _ _ n r); [done|].
    unfold covers. by rewrite Hh, Z.eqb_refl.
  - intros q port0 Hq. apply Hp. rewrite <-Hne; [done|]. intros ->. by rewrite Hps, lookup_delete_eq in Hq.
  - intros t q Hq Hh. destruct (Ht t q Hq Hh) as [? Hsome]. split; [done|]. rewrite Hne; [done|]. intros ->.
    pose proof (carried_some has_port tr p t Hq Hh). lia.
Qed.

Lemma rights_unlocked caps tr st p port :
  rights_ok caps tr (put st p port) → rights_ok caps tr (unlocked st p port).
Proof.
  intros Hok. unfold unlocked. destruct (Z.eqb_spec (ip_references port) 0) as [H0|]; [|done].
  apply (rights_free caps tr (put st p port) _ p port); [done|apply put_get|done| |done].
  simpl. by rewrite delete_insert_eq.
Qed.

(** A reference held for a dead port goes. *)
Lemma rights_release caps tr st st' t p port :
  rights_ok caps ((t, p) :: tr) st → has_port t = true → ps_ports st !! p = Some port → ip_active port = false →
  ps_ports st' = ps_ports st → ps_psets st' = ps_psets st →
  rights_ok caps tr (unlocked st' p (referenced port (-1))).
Proof.
  intros Hok Ht Hp Ha Hps Hss. apply rights_unlocked.
  destruct (ra_port _ _ _ Hok p port Hp) as [Hdn Hrefs _ _].
  apply (rights_recount caps tr [t] [] st _ p port (referenced port (-1)));
    [done|done| |by apply keeps_same|done| |by simpl; rewrite Hps|done].
  - eapply ra_transit; [done|by left|done].
  - split; simpl; rewrite ?Ht, ?Ha; [lia|lia|done..].
Qed.
End account.
