(* ===== verification/IpcFrame.v ===== *)
(** * An operation on one entry leaves the others alone

    What an operation of the rights layer writes is the entry that it is
    given, and the hash indices that share a table with the entries.  This
    is read off the code, so the operations need not have a specification:
    whenever one returns, [framed] holds. *)

From stdpp Require Import prelude list gmap.
From S2P Require Import Prelude MachPort IpcSplay IpcTypes IpcHash IpcTable IpcEntry IpcInv IpcUpdate IpcPort.
From S2P Require Import IpcPortRights IpcPset IpcDestroy IpcRight IpcRightInv.

(** The entries but for the one at [ep] are the same, up to hash indices. *)
Record framed (ep : eptr) (sp sp' : istate) : Prop := {
  fr_get ep' e : ep' ≠ ep → eget sp ep' = Some e → ∃ x, eget sp' ep' = Some (set_ie_index e x);
  fr_denotes H n ep' : ep' ≠ ep → denotes H sp n ep' → denotes H sp' n ep';
}.

#[export] Instance framed_preorder ep : PreOrder (framed ep).
Proof.
  split.
  - intros sp. split; [|done]. intros ep' e _ He. exists (ie_index e). rewrite He. by destruct e.
  - intros sp1 sp2 sp3 [G1 D1] [G2 D2]. split; [|eauto].
    intros ep' e Hne He. destruct (G1 ep' e Hne He) as [x Hx]. destruct (G2 ep' _ Hne Hx) as [y Hy]. by exists y.
Qed.

Section frame.
Context {IW : iworld}.

Lemma framed_set sp ep f : framed ep sp (eset sp ep f).
Proof.
  split.
  - intros ep' e Hne He. exists (ie_index e). replace (set_ie_index e (ie_index e)) with e by (by destruct e).
    rewrite <-He. destruct ep as [i|p], ep' as [j|q]; simpl.
    + apply tget_tmod_ne. congruence.
    + done.
    + done.
    + rewrite lookup_alter_ne; [done|congruence].
  - intros H n ep' Hne. destruct ep as [i|p], ep' as [j|q]; simpl; try done.
    intros (Hj & Hn & Ht). assert (tget (tmod (st_table sp) i f) j = tget (st_table sp) j) as Hg
      by (apply tget_tmod_ne; congruence).
    change (st_table _) with (tmod (st_table sp) i f). rewrite tsize_tmod.
    unfold name_at, type_at, bits_at in *. by rewrite Hg.
Qed.

Lemma framed_rehashed ep sp sp' : rehashed sp sp' → framed ep sp sp'.
Proof.
  intros Hr. split; [|by intros H n ep' _ Hd; apply (rehashed_denotes _ _ _ _ _ Hr)].
  intros ep' e _. by apply rehashed_get.
Qed.

(** ** The hash tables *)

Lemma local_fill_entries fuel t size h i t' :
  local_fill_loop fuel t size h i = Ok t' → same_entries t t' ∧ tsize t' = tsize t.
Proof.
  revert t h i. induction fuel as [|fuel IH]; intros t h i; [done|]. cbn [local_fill_loop].
  destruct (i =? 0); [intros [= ->]; split; [apply same_entries_refl|done]|]. intros Hr. apply outcome_bind_ok in Hr as ([d j] & _ & Hr).
  destruct (IH _ _ _ Hr) as [Hs Hz]. split; [eapply same_entries_trans; [apply same_entries_set|done]|].
  by rewrite Hz, tsize_tmod.
Qed.

Lemma hash_delete_rehashed sp o n ep sp' : ipc_hash_delete sp o n ep = Ok sp' → rehashed sp sp'.
Proof.
  unfold ipc_hash_delete. case_match.
  - intros Hr. apply outcome_bind_ok in Hr as (t & Hr & [= <-]). unfold ipc_hash_local_delete in Hr. run_inv.
    destruct (local_fill_entries _ _ _ _ _ _ ltac:(eassumption)) as [Hs Hz].
    exists t, (is_tree_hash (st_space sp)), (st_buckets sp). split; [|done]. destruct sp as [[] ? ? ?]. reflexivity.
  - intros Hr. destruct ep as [i|p]; [run_inv|]. unfold ipc_hash_global_delete, bucket_get in Hr. run_inv.
    eexists (st_table sp), (is_tree_hash (st_space sp) - 1), _. split; [|split; [apply same_entries_refl|done]].
    destruct sp as [[] ? ? ?]. reflexivity.
Qed.

(** ** The operations on rights *)

Context {PW : pworld}.

(** The state of the space that an operation returns is framed. *)
Ltac frame :=
  repeat match goal with
  | H : ipc_hash_delete _ _ _ _ = Ok _ |- _ => apply hash_delete_rehashed in H
  end;
  unfold set_bits, set_object, set_request;
  repeat first
    [ reflexivity
    | match goal with |- framed ?ep _ (eset ?s ?ep _) => transitivity s; [|apply framed_set] end
    | match goal with H : rehashed ?s ?s' |- framed _ _ ?s' => transitivity s; [|by apply framed_rehashed] end
    | match goal with H : framed ?ep ?s ?s' |- framed ?ep _ ?s' => transitivity s; [|exact H] end ].

Lemma dncancel_macro_framed sp st p name ep sp' st' r :
  ipc_right_dncancel_macro sp st p name ep = Ok (sp', st', r) → framed ep sp sp'.
Proof. unfold ipc_right_dncancel_macro, ipc_right_dncancel. intros. run_inv; frame. Qed.

Lemma right_check_framed sp st p name ep sp' st' b :
  ipc_right_check sp st p name ep = Ok (sp', st', b) → framed ep sp sp'.
Proof. unfold ipc_right_check. intros. run_inv; frame. Qed.

Lemma send_check_framed sp st name ep e once sp' st' r :
  copyin_send_check sp st name ep e once = Ok (sp', st', r) → framed ep sp sp'.
Proof.
  unfold copyin_send_check. intros. run_inv; try (by frame); by eapply right_check_framed.
Qed.

Lemma copyin_dead_framed sp st ep move deadok sp' st' r :
  copyin_dead sp st ep move deadok = Ok (sp', st', r) → framed ep sp sp'.
Proof. unfold copyin_dead, copyin_invalid. intros. run_inv; repeat case_match; frame. Qed.

(** The send types. *)
Lemma copyin_framed sp st name ep msgt deadok sp' st' r :
  msgt ≠ MACH_MSG_TYPE_MOVE_RECEIVE → ipc_right_copyin sp st name ep msgt deadok = Ok (sp', st', r) → framed ep sp sp'.
Proof.
  unfold ipc_right_copyin. intros Hm Hr. apply outcome_bind_ok in Hr as (e & _ & Hr). apply outcome_bind_ok in Hr as (_ & _ & Hr).
  rewrite (proj2 (Z.eqb_neq _ _) Hm) in Hr.
  unfold copyin_make, copyin_copy_send, copyin_move_send, copyin_move_send_once, copyin_invalid in Hr.
  run_inv; repeat match goal with
  | H : copyin_send_check _ _ _ _ _ _ = Ok _ |- _ => apply send_check_framed in H
  | H : copyin_dead _ _ _ _ _ = Ok _ |- _ => apply copyin_dead_framed in H
  | H : ipc_right_dncancel_macro _ _ _ _ _ = Ok _ |- _ => apply dncancel_macro_framed in H
  end; frame.
Qed.
(** ** The counts of ports *)

(** The counts grow by at most [r] references, [s] send rights and [o]
    send-once rights. *)
Record bounded (r s o : Z) (port port' : ipc_port) : Prop := {
  bd_refs : ip_references port' ≤ ip_references port + r;
  bd_send : 0 ≤ ip_srights port → 0 ≤ ip_srights port' ≤ ip_srights port + s;
  bd_once : 0 ≤ ip_sorights port → 0 ≤ ip_sorights port' ≤ ip_sorights port + o;
}.

Definition grown (r s o : Z) (st st' : pstate) : Prop :=
  ∀ p port', ps_ports st' !! p = Some port' → ∃ port, ps_ports st !! p = Some port ∧ bounded r s o port port'.

Lemma bounded_refl port : bounded 0 0 0 port port.
Proof. split; lia. Qed.

Lemma grown_refl st : grown 0 0 0 st st.
Proof. intros p port Hp. exists port. split; [done|apply bounded_refl]. Qed.

Lemma grown_trans r1 s1 o1 r2 s2 o2 st1 st2 st3 :
  grown r1 s1 o1 st1 st2 → grown r2 s2 o2 st2 st3 → grown (r1 + r2) (s1 + s2) (o1 + o2) st1 st3.
Proof.
  intros H1 H2 p port3 Hp. destruct (H2 p port3 Hp) as (port2 & Hp2 & [? ? ?]).
  destruct (H1 p port2 Hp2) as (port1 & Hp1 & [? ? ?]). exists port1. split; [done|]. split; lia.
Qed.

Lemma grown_le r s o r' s' o' st st' : grown r s o st st' → r ≤ r' → s ≤ s' → o ≤ o' → grown r' s' o' st st'.
Proof.
  intros H1 Hr Hs Ho p port' Hp. destruct (H1 p port' Hp) as (port & ? & [? ? ?]). exists port. split; [done|]. split; lia.
Qed.

Lemma grown_pmod r s o st p f st' :
  (∀ port, ps_ports st !! p = Some port → bounded r s o port (f port)) → 0 ≤ r → 0 ≤ s → 0 ≤ o →
  pmod st p f = Ok st' → grown r s o st st'.
Proof.
  intros Hf Hr Hs Ho Hrun. unfold pmod, pget in Hrun. destruct (ps_ports st !! p) as [port|] eqn:Hp; [|done].
  injection Hrun as <-. intros q port' Hq. simpl in Hq. apply lookup_insert_Some in Hq as [[<- <-]|[_ Hq]].
  - exists port. auto.
  - exists port'. split; [done|]. split; lia.
Qed.

Lemma grown_delete st p : grown 0 0 0 st (with_ports st (delete p)).
Proof. intros q port Hq. simpl in Hq. apply lookup_delete_Some in Hq as [_ Hq]. exists port. split; [done|apply bounded_refl]. Qed.

(** Chain the growth of the steps of a run. *)
Ltac chain :=
  repeat match goal with
  | H1 : grown _ _ _ ?a ?b, H2 : grown _ _ _ ?b _ |- _ => pose proof (grown_trans _ _ _ _ _ _ _ _ _ H1 H2); clear H1 H2
  end;
  solve [ eapply grown_le; [eassumption|lia..] | eapply grown_le; [apply grown_refl|lia..] ].

Lemma u32_next_bounds x : 0 ≤ x → 0 ≤ u32 (x + 1) ≤ x + 1.
Proof.
  intros Hx. unfold u32. pose proof (Z.mod_pos_bound (x + 1) (2 ^ 32) ltac:(lia)).
  pose proof (Z.mod_le (x + 1) (2 ^ 32) ltac:(lia) ltac:(lia)). lia.
Qed.

Context `{!quiet}.

Lemma lock_grown st p st' : ip_lock st p = Ok st' → grown 0 0 0 st st'.
Proof.
  unfold ip_lock. intros. run_inv. rewrite other_id in *. eapply (grown_pmod _ _ _ (ptick st)); [|lia..|eassumption].
  intros port _; split; simpl; lia.
Qed.

Lemma unlock_grown st p st' : ip_unlock st p = Ok st' → grown 0 0 0 st st'.
Proof. unfold ip_unlock. intros. run_inv. eapply grown_pmod; [|lia..|eassumption]. intros port _; split; simpl; lia. Qed.

Lemma reference_grown st p st' : ip_reference st p = Ok st' → grown 1 0 0 st st'.
Proof. unfold ip_reference. intros. run_inv. eapply grown_pmod; [|lia..|eassumption]. intros port _; split; simpl; lia. Qed.

Lemma release_grown st p st' : ip_release st p = Ok st' → grown 0 0 0 st st'.
Proof. unfold ip_release. intros. run_inv. eapply grown_pmod; [|lia..|eassumption]. intros port _; split; simpl; lia. Qed.

Lemma check_unlock_grown st p st' : ip_check_unlock st p = Ok st' → grown 0 0 0 st st'.
Proof.
  unfold ip_check_unlock. intros. run_inv; repeat match goal with H : ip_unlock _ _ = Ok _ |- _ => apply unlock_grown in H end.
  - eapply (grown_trans 0 0 0 0 0 0); [eassumption|apply grown_delete].
  - done.
Qed.

Lemma make_send_grown st p st' : pmod st p make_send_counts = Ok st' → grown 0 1 0 st st'.
Proof.
  intros. eapply grown_pmod; [|lia..|eassumption]. intros port _.
  split; simpl; [lia|intros Hx; by apply u32_next_bounds|lia].
Qed.
Lemma make_once_grown st p st' : pmod st p make_send_once_counts = Ok st' → grown 0 0 1 st st'.
Proof.
  intros. eapply grown_pmod; [|lia..|eassumption]. intros port _.
  split; simpl; [lia..|intros Hx; by apply u32_next_bounds].
Qed.
Lemma srights_grown st p st' :
  pmod st p (λ port, set_ip_srights port (u32 (ip_srights port + 1))) = Ok st' → grown 0 1 0 st st'.
Proof.
  intros. eapply grown_pmod; [|lia..|eassumption]. intros port _.
  split; simpl; [lia|intros Hx; by apply u32_next_bounds|lia].
Qed.
Lemma dnrequests_grown st p d st' : pmod st p (λ port, set_ip_dnrequests port d) = Ok st' → grown 0 0 0 st st'.
Proof. intros. eapply grown_pmod; [|lia..|eassumption]. intros port _; split; simpl; lia. Qed.

Ltac grow :=
  run_inv; repeat match goal with
  | H : ip_lock _ _ = Ok _ |- _ => apply lock_grown in H
  | H : ip_unlock _ _ = Ok _ |- _ => apply unlock_grown in H
  | H : ip_reference _ _ = Ok _ |- _ => apply reference_grown in H
  | H : ip_release _ _ = Ok _ |- _ => apply release_grown in H
  | H : ip_check_unlock _ _ = Ok _ |- _ => apply check_unlock_grown in H
  | H : pmod _ _ make_send_counts = Ok _ |- _ => apply make_send_grown in H
  | H : pmod _ _ make_send_once_counts = Ok _ |- _ => apply make_once_grown in H
  | H : pmod _ _ (λ port, set_ip_srights port _) = Ok _ |- _ => apply srights_grown in H
  | H : pmod _ _ (λ port, set_ip_dnrequests port _) = Ok _ |- _ => apply dnrequests_grown in H
  end.

Lemma port_reference_grown st p st' : ipc_port_reference st p = Ok st' → grown 1 0 0 st st'.
Proof. unfold ipc_port_reference. intros. grow. chain. Qed.
Lemma port_release_grown st p st' : ipc_port_release st p = Ok st' → grown 0 0 0 st st'.
Proof. unfold ipc_port_release. intros. grow. chain. Qed.
Lemma dncancel_macro_grown sp st p name ep sp' st' r :
  ipc_right_dncancel_macro sp st p name ep = Ok (sp', st', r) → grown 0 0 0 st st'.
Proof. unfold ipc_right_dncancel_macro, ipc_right_dncancel, ipc_port_dncancel. intros. grow; chain. Qed.
Lemma right_check_grown sp st p name ep sp' st' b :
  ipc_right_check sp st p name ep = Ok (sp', st', b) → grown 0 0 0 st st'.
Proof.
  unfold ipc_right_check. intros. grow; repeat match goal with
  | H : ipc_port_release _ _ = Ok _ |- _ => apply port_release_grown in H
  end; chain.
Qed.
Lemma send_check_grown sp st name ep e once sp' st' r :
  copyin_send_check sp st name ep e once = Ok (sp', st', r) → grown 0 0 0 st st'.
Proof.
  unfold copyin_send_check. intros. grow; repeat match goal with
  | H : ipc_right_check _ _ _ _ _ = Ok _ |- _ => apply right_check_grown in H
  end; chain.
Qed.
Lemma copyin_dead_grown sp st ep move deadok sp' st' r :
  copyin_dead sp st ep move deadok = Ok (sp', st', r) → grown 0 0 0 st st'.
Proof. unfold copyin_dead, copyin_invalid. intros. grow; chain. Qed.

(** The send types take one reference and one right. *)
Lemma copyin_grown sp st name ep msgt deadok sp' st' r :
  msgt ≠ MACH_MSG_TYPE_MOVE_RECEIVE → ipc_right_copyin sp st name ep msgt deadok = Ok (sp', st', r) → grown 1 1 1 st st'.
Proof.
  unfold ipc_right_copyin. intros Hm Hr. apply outcome_bind_ok in Hr as (e & _ & Hr). apply outcome_bind_ok in Hr as (_ & _ & Hr).
  rewrite (proj2 (Z.eqb_neq _ _) Hm) in Hr.
  unfold copyin_make, lock_receiver, copyin_copy_send, copyin_move_send, copyin_move_send_once, copyin_invalid in Hr.
  grow; repeat match goal with
  | H : copyin_send_check _ _ _ _ _ _ = Ok _ |- _ => apply send_check_grown in H
  | H : copyin_dead _ _ _ _ _ = Ok _ |- _ => apply copyin_dead_grown in H
  | H : ipc_right_dncancel_macro _ _ _ _ _ = Ok _ |- _ => apply dncancel_macro_grown in H
  end; chain.
Qed.
End frame.
