(* ===== verification/IpcRightDealloc.v ===== *)
(** * Giving up a right

    [ipc_right_check] turns the right for a dead port into a dead name, and
    [ipc_right_dealloc] gives up one user reference: what the space holds
    afterwards, which notifications are sent, and that the account of rights
    still balances. *)

From stdpp Require Import prelude list gmap.
From S2P Require Import Prelude MachPort IpcSplay IpcTypes IpcHash IpcTable IpcEntry IpcInv IpcUpdate.
From S2P Require Import IpcPort IpcDnreq IpcPortRights IpcPset IpcDestroy IpcRight IpcRightEq IpcRightInv.

Section dealloc.
Context {IW : iworld}.
Context `{PW : pworld, !quiet}.

Definition unlocked_ports (st : pstate) : Prop :=
  ∀ p port, ps_ports st !! p = Some port → ip_locked port = false.

(** The space is locked, no port is, and the account balances, but for the
    names [hs] in hand. *)
Record standing_but (hs : gset Z) (sp : istate) (st : pstate) (caps : rights_t) (tr : transit_t) : Prop := {
  sg_space : spaced hs sp caps;
  sg_rights : rights_ok caps tr st;
  sg_ports : unlocked_ports st;
}.

(** What the operations on rights leave alone in a port. *)
Record same_port (port port' : ipc_port) : Prop := {
  sp_active : ip_active port' = ip_active port;
  sp_name : ip_receiver_name port' = ip_receiver_name port;
  sp_data : ip_data port' = ip_data port;
}.

#[export] Instance same_port_preorder : PreOrder same_port.
Proof. split; [done|]. intros p1 p2 p3 [] []. split; congruence. Qed.

(** The ports but for [p] are as before, and [p] is the same port if it is
    still there; [ns] has been sent. *)
Record touched (p : Z) (st st' : pstate) (ns : list notification) : Prop := {
  to_ports q : q ≠ p → ps_ports st' !! q = ps_ports st !! q;
  to_same port' : ps_ports st' !! p = Some port' → ∃ port, ps_ports st !! p = Some port ∧ same_port port port';
  to_psets : ps_psets st' = ps_psets st;
  to_woken : ps_woken st' = ps_woken st;
  to_notes : ps_notes st' = reverse ns ++ ps_notes st;
}.

(** ** Rights for dead ports *)

Definition alive (st : pstate) (r : right) : bool :=
  match ps_ports st !! r_object r with
  | Some port => ip_active port
  | None => false
  end.

(** What [ipc_right_check] makes of a right for a dead port. *)
Definition dead_right (r : right) : right :=
  Right MACH_PORT_TYPE_DEAD_NAME (r_urefs r + if r_request r =? 0 then 0 else 1) IO_NULL 0.

Lemma unlocked_idem port : ip_locked port = false → set_ip_locked (set_ip_locked port true) false = port.
Proof. intros Hl. apply port_ext; simpl; done. Qed.

Lemma unlocked_ports_but st st' p port' :
  unlocked_ports st → (∀ q, q ≠ p → ps_ports st' !! q = ps_ports st !! q) →
  (ps_ports st' !! p = None ∨ ps_ports st' !! p = Some port' ∧ ip_locked port' = false) → unlocked_ports st'.
Proof.
  intros Hu Hne Hp q port Hq. destruct (decide (q = p)) as [->|].
  - destruct Hp as [Hx|[Hx Hl]]; congruence.
  - apply (Hu q). by rewrite <-Hne.
Qed.

(** The port is put back, or freed. *)
Lemma unlocked_touched st st' p port0 port ns :
  touched p st st' ns → ps_ports st !! p = Some port0 → same_port port0 port → touched p st (unlocked st' p port) ns.
Proof.
  intros [Hp Hsm Hs Hw Hn] H0 Hport. unfold unlocked. case_match; (split; [| |done..]); simpl.
  - intros q Hq. rewrite lookup_delete_ne by done. by apply Hp.
  - intros port'. by rewrite lookup_delete_eq.
  - intros q Hq. rewrite lookup_insert_ne by done. by apply Hp.
  - intros port'. rewrite lookup_insert_eq. intros [= <-]. eauto.
Qed.

Lemma put_touched st st' p port0 port ns :
  touched p st st' ns → ps_ports st !! p = Some port0 → same_port port0 port → touched p st (put st' p port) ns.
Proof.
  intros [Hp Hsm Hs Hw Hn] H0 Hport. split; [| |done..]; simpl.
  - intros q Hq. rewrite lookup_insert_ne by done. by apply Hp.
  - intros port'. rewrite lookup_insert_eq. intros [= <-]. eauto.
Qed.

Lemma tick_touched p st st' ns : touched p st st' ns → touched p st (ptick st') ns.
Proof. intros [Hp Hsm Hs Hw Hn]. by split. Qed.
Lemma out_touched p st st' ns ns' k : touched p st st' ns → touched p st (out st' ns' [] k) (ns ++ ns').
Proof. intros [Hp Hsm Hs Hw Hn]. split; [done..|]. simpl. by rewrite Hn, reverse_app, <-app_assoc. Qed.
Lemma touched_refl p st : touched p st st [].
Proof. split; [done| |done..]. intros port Hp. by exists port. Qed.
Lemma touched_trans p st1 st2 st3 ns ns' : touched p st1 st2 ns → touched p st2 st3 ns' → touched p st1 st3 (ns ++ ns').
Proof.
  intros [H1 H1' H2 H3 H4] [G1 G1' G2 G3 G4]. split; [by intros q Hq; rewrite G1, H1| |congruence..|].
  - intros port3 (port2 & (port1 & ? & ?)%H1' & ?)%G1'. exists port1. split; [done|by etrans].
  - by rewrite G4, H4, reverse_app, app_assoc.
Qed.

(** One port is put back. *)
Lemma keeps_same_port caps port port' b : keeps caps port port' → same_port port (set_ip_locked port' b).
Proof. intros [Ha Hn Hr _]. by split. Qed.

End dealloc.

#[global] Arguments sg_space {IW hs} sp st caps tr _.
#[global] Arguments sg_rights {IW hs} sp st caps tr _.
#[global] Arguments sg_ports {IW hs} sp st caps tr _.
Abbreviation standing := (standing_but ∅).

Ltac same_port := solve [assumption | split; done | subst; split; done | eapply keeps_same_port; eassumption].
Ltac touch :=
  repeat ((eapply put_touched; [|eassumption|same_port]) || (eapply unlocked_touched; [|eassumption|same_port]) ||
    apply tick_touched); apply touched_refl.

Section dealloc.
Context {IW : iworld}.
Context `{PW : pworld, !quiet}.

Lemma unlocked_ports_unlocked st st' p port ns :
  unlocked_ports st → touched p st st' ns → ip_locked port = false → unlocked_ports (unlocked st' p port).
Proof.
  intros Hu Ht Hl. apply (unlocked_ports_but st _ p port Hu); [|].
  - intros q Hq. rewrite <-(to_ports _ _ _ _ Ht q Hq). unfold unlocked. case_match; simpl;
      [by apply lookup_delete_ne|by apply lookup_insert_ne].
  - unfold unlocked. case_match; simpl; [left; apply lookup_delete_eq|right; by rewrite lookup_insert_eq].
Qed.
Lemma unlocked_ports_put st st' p port ns :
  unlocked_ports st → touched p st st' ns → ip_locked port = false → unlocked_ports (put st' p port).
Proof.
  intros Hu Ht Hl. apply (unlocked_ports_but st _ p port Hu); [|].
  - intros q Hq. rewrite <-(to_ports _ _ _ _ Ht q Hq). simpl. by apply lookup_insert_ne.
  - right. simpl. by rewrite lookup_insert_eq.
Qed.

(** ** The account afterwards *)

Record settled (sp : istate) (st : pstate) (caps : rights_t) (tr : transit_t) : Prop := {
  sl_space : released sp caps;
  sl_rights : rights_ok caps tr st;
  sl_ports : unlocked_ports st;
}.

(** The name has the right, or nothing. *)
Definition set_right (caps : rights_t) (name : Z) (o : option right) : rights_t :=
  match o with
  | Some r => <[name := r]> (delete name caps)
  | None => delete name caps
  end.

Lemma set_right_again caps name r o : set_right (<[name := r]> (delete name caps)) name o = set_right caps name o.
Proof. unfold set_right. rewrite delete_insert_eq, delete_delete_eq. by destruct o. Qed.

Lemma set_right_twice caps name o' o : set_right (set_right caps name o') name o = set_right caps name o.
Proof. destruct o' as [r|]; [apply set_right_again|]. simpl. unfold set_right. by rewrite delete_delete_eq. Qed.

(** One user reference less. *)
Definition less_one (r : right) : option right :=
  if r_urefs r =? 1 then
    if r_type r =? MACH_PORT_TYPE_SEND_RECEIVE
    then Some (Right MACH_PORT_TYPE_RECEIVE 0 (r_object r) (r_request r)) else None
  else Some (Right (r_type r) (r_urefs r - 1) (r_object r) (r_request r)).

Lemma rights_ext caps tr st st' :
  rights_ok caps tr st → ps_ports st' = ps_ports st → ps_psets st' = ps_psets st → rights_ok caps tr st'.
Proof.
  intros [Hr Hp Ht] Hps Hss. split.
  - intros n r Hn. unfold right_ok. rewrite Hps, Hss. by apply Hr.
  - intros p port. rewrite Hps. apply Hp.
  - intros t p. rewrite Hps. apply Ht.
Qed.

(** The right of a name changes, but not what it counts for. *)
Lemma rights_same caps tr st n r r' :
  rights_ok caps tr st → caps !! n = Some r → r_type r' = r_type r → r_object r' = r_object r →
  right_ok n r' st → rights_ok (set_right caps n (Some r')) tr st.
Proof.
  intros Hok Hn Ht Ho Hr'. apply rights_put; [|apply lookup_delete_eq|done]. rewrite Ht, Ho. by apply rights_take.
Qed.

(** The right of a name and the counts of its port change together: [l]
    are the rights that are now in transit. *)
Lemma rights_change caps tr l st st' n r o port port' :
  let p := r_object r in
  rights_ok caps tr st → caps !! n = Some r → ps_ports st !! p = Some port → p ≠ IO_NULL →
  keeps (delete n caps) port port' → port_dn_wf port' →
  recounted [r_type r] (match o with Some r' => [r_type r'] | None => [] end ++ l) port port' →
  ps_ports st' = <[p := port']> (ps_ports st) → ps_psets st' = ps_psets st →
  (∀ r', o = Some r' → r_object r' = p ∧ right_ok n r' st') →
  rights_ok (set_right caps n o) (tagged p l ++ tr) st'.
Proof.
  intros p Hok Hn Hp Hz Hk Hdn Hc Hps Hss Ho.
  apply (rights_recount (delete n caps) tr _ _ st st' p port port') in Hc; [|by apply (rights_take _ _ _ n)|done..].
  destruct o as [r'|]; [|done]. destruct (Ho r' eq_refl) as [Hobj Hr']. simpl in *. rewrite <-Hobj in *.
  apply rights_put; [done|apply lookup_delete_eq|done].
Qed.

(** ** The port gives up a send right *)

Definition dropped (port : ipc_port) : ipc_port :=
  set_ip_nsrequest (set_ip_srights port (ip_srights port - 1))
    (if ip_srights port =? 1 then IP_NULL else ip_nsrequest port).

Definition no_senders_note (port : ipc_port) : list notification :=
  if (ip_srights port =? 1) && negb (ip_nsrequest port =? IP_NULL)
  then [ipc_notify_no_senders (ip_nsrequest port) (ip_mscount port)] else [].

Lemma drop_send_spec st p port :
  ps_ports st !! p = Some port → 0 < ip_srights port < 2 ^ 32 →
  ∃ ns, drop_send_right st p = Ok (put st p (dropped port), ns) ∧
    ∀ st', notify_no_senders st' ns = out st' (no_senders_note port) [] 0.
Proof.
  intros Hp Hs. unfold drop_send_right. rewrite (pmod_spec _ _ _ _ Hp). ostep. rewrite put_pget. ostep.
  simpl ip_srights. simpl ip_nsrequest. simpl ip_mscount. rewrite u32_small by (unfold is_u32; lia).
  unfold dropped, no_senders_note.
  replace (ip_srights port - 1 =? 0) with (ip_srights port =? 1) by (apply eq_bool_prop_intro; rewrite !Is_true_true, !Z.eqb_eq; lia).
  destruct (ip_srights port =? 1), (Z.eqb_spec (ip_nsrequest port) IP_NULL) as [H0|H0]; ostep.
  2: { rewrite put_pmod. ostep. eexists. split; [done|]. intros st'. unfold notify_no_senders. simpl.
       rewrite (proj2 (Z.eqb_neq _ _) H0). by destruct st'. }
  all: eexists; split; [do 3 f_equal; apply port_ext; simpl; done|]; by intros [].
Qed.

(** ** A dead-name request is cancelled *)

(** The send-once right registered, if any. *)
Definition notify_right (port : ipc_port) (req : Z) : Z :=
  if req =? 0 then IP_NULL else default IP_NULL (snd <$> request port req).

Definition deleted_note (port : ipc_port) (name req : Z) : list notification :=
  if notify_right port req =? IP_NULL then [] else [ipc_notify_port_deleted (notify_right port req) name].

Lemma notify_deleted st port name req :
  notify_port_deleted st (notify_right port req) name = out st (deleted_note port name req) [] 0.
Proof. unfold notify_port_deleted, deleted_note. by destruct st, (notify_right port req =? IP_NULL). Qed.

(** The port without the request. *)
Record cancelled (port port' : ipc_port) (req : Z) : Prop := {
  cn_port : ∃ d, port' = set_ip_dnrequests port d;
  cn_wf : port_dn_wf port';
  cn_request j : j ≠ req → request port' j = request port j;
}.

Lemma cancelled_keeps caps port port' name req :
  cancelled port port' req → registered port name req → ip_active port = true → caps !! name = None →
  keeps caps port port'.
Proof.
  intros [[d ->] _ Hq] Hreg Ha Hn. split; [done..|]. intros m r Hm Hr Hne _.
  destruct (Hr Hne Ha) as (so & Hso). exists so. rewrite Hq; [done|]. intros Heq.
  destruct (Hreg ltac:(congruence) Ha) as (so' & Hso'). rewrite <-Heq, Hso in Hso'. injection Hso' as <- _. congruence.
Qed.

Lemma dncancel_macro_spec hs sp caps name ep e b st port :
  hand hs sp caps name ep e b → ps_ports st !! ie_object e = Some port → ip_active port = true →
  port_dn_wf port → registered port name (ie_request e) →
  ∃ sp' port', ipc_right_dncancel_macro sp st (ie_object e) name ep =
      Ok (sp', put st (ie_object e) port', notify_right port (ie_request e)) ∧
    hand hs sp' caps name ep (set_ie_request e 0) b ∧ cancelled port port' (ie_request e).
Proof.
  intros Hh Hp Ha Hw Hreg. unfold ipc_right_dncancel_macro. rewrite (hand_eread _ _ _ _ _ _ _ Hh). ostep.
  unfold notify_right. destruct (Z.eqb_spec (ie_request e) 0) as [H0|H0].
  - exists sp, port. split_and!.
    + do 3 f_equal. unfold put, with_ports. rewrite insert_id by done. by destruct st.
    + destruct e. simpl in *. by subst.
    + split; [|done..]. exists (ip_dnrequests port). by apply port_ext.
  - destruct (Hreg H0 Ha) as (so & Hso). unfold ipc_right_dncancel, pget. rewrite Hp. ostep. rewrite Ha. ostep.
    rewrite (hand_eread _ _ _ _ _ _ _ Hh). ostep. rewrite Z.eqb_refl. ostep.
    destruct (dncancel_spec st (ie_object e) port name (ie_request e) so) as (d & -> & Hw' & _ & Hj); [done..|]. ostep.
    rewrite Hso. eexists _, _. split; [done|]. split.
    + by apply (hand_set _ _ _ _ _ e _ _ (ie_bits e) (ie_object e) 0).
    + split; [by eexists|done|]. intros j Hne. rewrite Hj. by rewrite decide_False.
Qed.

Lemma keeps_trans caps port1 port2 port3 :
  keeps caps port1 port2 → keeps caps port2 port3 → keeps caps port1 port3.
Proof.
  intros [Ha Hn Hr Hq] [Ha' Hn' Hr' Hq']. split; [congruence..|]. intros n r Hc Hreg. eapply Hq', Hq; done.
Qed.

Section entry.
Context {hs : gset Z} (sp : istate) (st : pstate) (caps : rights_t) (tr : transit_t) (name : Z) (ep : eptr) (e : ipc_entry).
Context {Hout : outside name hs}.
Hypothesis Hst : standing_but hs sp st caps tr.
Hypothesis Hd : denotes hs sp name ep.
Hypothesis He : eget sp ep = Some e.

Let r := entry_right e.

Lemma entry_held : caps !! name = Some r.
Proof. by eapply spaced_entry; [apply Hst|..|apply Hout|]. Qed.

Lemma entry_ok : right_ok name r st.
Proof. eapply ra_right; [apply Hst|apply entry_held]. Qed.

Lemma entry_hand :
  hand ({[name]} ∪ hs) sp (delete name caps) name ep e (IE_BITS_TYPE (ie_bits e) =? MACH_PORT_TYPE_SEND).
Proof.
  by apply spaced_take; [apply Hst|..|apply Hout|].
Qed.

(** The right is for a port. *)
Lemma entry_port : has_port (r_type r) = true →
  ∃ port, ps_ports st !! ie_object e = Some port ∧ names_port name r port ∧ urefs_of r ∧
    ie_object e ≠ IO_NULL ∧ ip_locked port = false ∧
    0 < ip_references port ≤ IO_MAX_REFERENCES ∧ port_dn_wf port.
Proof.
  intros Hh. destruct entry_ok as [(_ & Hu & Hz & port & Hp & Hn)|[(Hx & _)|(Hx & _)]];
    [|by rewrite Hx in Hh..].
  exists port. destruct (ra_port _ _ _ (sg_rights _ _ _ _ Hst) _ _ Hp) as [Hdn Hrefs _ _].
  split_and!; [done..|by eapply sg_ports| |by apply Hrefs|done].
  pose proof (carried_nonneg has_port tr (r_object r)).
  assert (0 < tally has_port caps (r_object r)); [|lia]. apply (tally_some _ _ name r); [apply entry_held|].
  unfold covers. by rewrite Hh, Z.eqb_refl.
Qed.

(** The port is alive. *)
Lemma check_alive port :
  ps_ports st !! ie_object e = Some port → ip_active port = true →
  ipc_right_check sp st (ie_object e) name ep =
    Ok (sp, put (ptick st) (ie_object e) (set_ip_locked port true), false).
Proof.
  intros Hp Ha. unfold ipc_right_check, eread. rewrite He, (sd_active _ _ _ (sg_space _ _ _ _ Hst)). ostep.
  rewrite Z.eqb_refl. ostep. rewrite (ip_lock_quiet st _ port) by (done || by eapply sg_ports). ostep.
  rewrite put_pget. ostep. simpl. by rewrite Ha.
Qed.

(** The port is dead. *)
Lemma dead_type port :
  ps_ports st !! ie_object e = Some port → ip_active port = false → has_port (r_type r) = true →
  IE_BITS_TYPE (ie_bits e) = MACH_PORT_TYPE_SEND ∧ 0 < IE_BITS_UREFS (ie_bits e) < MACH_PORT_UREFS_MAX ∨
  IE_BITS_TYPE (ie_bits e) = MACH_PORT_TYPE_SEND_ONCE ∧ IE_BITS_UREFS (ie_bits e) = 1.
Proof.
  intros Hp Ha Hh. destruct (entry_port Hh) as (port' & Hp' & [_ Hn] & Hu & _).
  assert (port' = port) as -> by congruence. simpl in Hn. rewrite Ha in Hn.
  destruct Hu as [[[Ht|Ht] Hu]|[[Ht Hu]|[Ht Hu]]]; simpl in Ht, Hu; rewrite Ht in *; [by left| | |by right];
    by destruct Hn.
Qed.

(** A send right leaves the reverse hash table; there is no other. *)
Lemma check_unhash :
  IE_BITS_TYPE (ie_bits e) = MACH_PORT_TYPE_SEND ∨
    IE_BITS_TYPE (ie_bits e) = MACH_PORT_TYPE_SEND_ONCE ∧ IE_BITS_UREFS (ie_bits e) = 1 →
  ∃ sp' x, (if has (ie_bits e) MACH_PORT_TYPE_SEND then
      kassert (IE_BITS_TYPE (ie_bits e) =? MACH_PORT_TYPE_SEND);; ipc_hash_delete sp (ie_object e) name ep
    else
      kassert (IE_BITS_TYPE (ie_bits e) =? MACH_PORT_TYPE_SEND_ONCE);;
      kassert (IE_BITS_UREFS (ie_bits e) =? 1);; Ok sp) = Ok sp' ∧
    hand ({[name]} ∪ hs) sp' (delete name caps) name ep (set_ie_index e x) false.
Proof.
  pose proof entry_hand as Hh. intros [Ht|[Ht Hu]]; has_simpl Ht; rewrite ?Hu, Ht in *; ostep.
  - by apply hand_unhash.
  - exists sp, (ie_index e). split; [done|]. destruct e. by simpl in *.
Qed.

(** The entry becomes a dead name. *)
Lemma check_rewrite sp1 x :
  hand ({[name]} ∪ hs) sp1 (delete name caps) name ep (set_ie_index e x) false →
  0 < IE_BITS_UREFS (ie_bits e) < MACH_PORT_UREFS_MAX →
  let bits := Z.lor (Z.land (ie_bits e) (Z.lnot IE_BITS_TYPE_MASK)) MACH_PORT_TYPE_DEAD_NAME in
  ∃ sp2 bits2 e2,
    (if negb (ie_request e =? 0) then
       kassert (IE_BITS_UREFS bits <? MACH_PORT_UREFS_MAX);; Ok (set_request sp1 ep 0, u32 (bits + 1))
     else Ok (sp1, bits)) = Ok (sp2, bits2) ∧
    hand ({[name]} ∪ hs) (set_object (set_bits sp2 ep bits2) ep IO_NULL) (delete name caps) name ep e2 false ∧
    entry_right e2 = dead_right r.
Proof.
  intros Hh Hu bits.
  assert (rebits (ie_bits e) bits MACH_PORT_TYPE_DEAD_NAME (IE_BITS_UREFS (ie_bits e))) as [Hhigh Ht Hur].
  { destruct (rebits_mask (ie_bits e) IE_BITS_TYPE_MASK MACH_PORT_TYPE_DEAD_NAME) as [Hx Hy Hw]; [done..|].
    split; [done| |].
    - unfold bits. rewrite Hy. unfold IE_BITS_TYPE. by rewrite <-Z.land_assoc, Z.land_0_r.
    - unfold bits. rewrite Hw. unfold IE_BITS_UREFS. rewrite <-Z.land_assoc. change (IE_BITS_UREFS MACH_PORT_TYPE_DEAD_NAME) with 0.
      by rewrite Z.lor_0_r. }
  unfold dead_right, r. simpl r_request. simpl r_urefs.
  destruct (Z.eqb_spec (ie_request e) 0) as [Hq|Hq].
  - eexists _, _, _. split; [done|]. split.
    + apply (hand_set _ _ _ _ _ (IE bits (ie_object e) (ie_request e) x) _ _ bits IO_NULL 0);
        [|by rewrite <-Hq|done|done].
      apply (hand_set _ _ _ _ _ (set_ie_index e x)); [done| |done|done]. by destruct e.
    + unfold entry_right. simpl. by rewrite Ht, Hur, Z.add_0_r.
  - rewrite Hur, (proj2 (Z.ltb_lt _ _)) by lia. ostep. eexists _, _, _. split; [done|].
    destruct (rebits_add bits 1) as [Hhigh' Ht' Hu']; [rewrite Hur; unfold MACH_PORT_UREFS_MAX in *; lia|]. split.
    + apply (hand_set _ _ _ _ _ (IE (u32 (bits + 1)) (ie_object e) 0 x) _ _ (u32 (bits + 1)) IO_NULL 0); [|done..].
      apply (hand_set _ _ _ _ _ (IE (ie_bits e) (ie_object e) 0 x)); [|done| |done].
      * apply (hand_set _ _ _ _ _ (set_ie_index e x)); [done| |done|done]. by destruct e.
      * split; [by rewrite (same_high_GEN _ _ Hhigh'), (same_high_GEN _ _ Hhigh)| |].
        -- by rewrite (same_high_collides _ _ Hhigh'), (same_high_collides _ _ Hhigh).
        -- intros Hr. by apply (same_high_right _ _ Hhigh'), (same_high_right _ _ Hhigh).
    + unfold entry_right. simpl. by rewrite Ht', Hu', Ht, Hur.
Qed.

Lemma check_dead port :
  ps_ports st !! ie_object e = Some port → ip_active port = false → has_port (r_type r) = true →
  ∃ sp' st' e', ipc_right_check sp st (ie_object e) name ep = Ok (sp', st', true) ∧
    standing_but hs sp' st' (<[name := dead_right r]> (delete name caps)) tr ∧ denotes hs sp' name ep ∧
    eget sp' ep = Some e' ∧ entry_right e' = dead_right r ∧ touched (ie_object e) st st' [].
Proof.
  intros Hp Ha Hh. destruct (entry_port Hh) as (port' & Hp' & Hn & Hu & Hz & Hl & Hrefs & Hdn).
  assert (port' = port) as -> by congruence. clear Hp'.
  pose proof (dead_type port Hp Ha Hh) as Ht.
  unfold ipc_right_check. unfold eread at 1. rewrite He, (sd_active _ _ _ (sg_space _ _ _ _ Hst)). ostep.
  rewrite Z.eqb_refl. ostep. rewrite (ip_lock_quiet st _ port) by done. ostep. rewrite put_pget. ostep.
  simpl ip_active. rewrite Ha. rewrite (ip_unlock_spec _ _ _ (put_get _ _ _)), put_put, unlocked_idem by done. ostep.
  assert (has (ie_bits e) MACH_PORT_TYPE_RECEIVE = false ∧ (0 <? IE_BITS_UREFS (ie_bits e)) = true) as [-> ->].
  { destruct Ht as [[Ht Hx]|[Ht Hx]]; split; (by has_simpl Ht) || (apply Z.ltb_lt; lia). }
  ostep. destruct check_unhash as (sp1 & x & Hrun & Hhand); [tauto|].
  rewrite Hrun. ostep. rewrite (port_release_quiet _ _ _ (put_get _ _ _)) by done. ostep.
  destruct (check_rewrite sp1 x Hhand) as (sp2 & bits2 & e2 & -> & Hhand2 & He2);
    [unfold MACH_PORT_UREFS_MAX in *; lia|]. ostep.
  eexists _, _, e2. split; [done|]. set (sp3 := set_object _ _ _) in *.
  assert (IE_BITS_TYPE (ie_bits e2) = MACH_PORT_TYPE_DEAD_NAME) as Ht2
    by (change (r_type (entry_right e2) = MACH_PORT_TYPE_DEAD_NAME); by rewrite He2).
  destruct (hand_put_out hs sp3 (delete name caps) name ep e2) as [Hs3 Hd3]; [by rewrite Ht2|by rewrite Ht2|].
  rewrite He2 in Hs3. split_and!; [|done|apply Hhand2|done|touch].
  split; [done| |].
  2: { eapply unlocked_ports_unlocked; [apply Hst|touch|done]. }
  apply rights_put; [|apply lookup_delete_eq|].
  - apply rights_skip; [done|].
    apply (rights_release _ tr st _ (r_type r) (ie_object e) port); [|done..|simpl; by rewrite insert_id|done].
    apply (rights_take caps tr st name r); [apply Hst|apply entry_held].
  - right; left. unfold MACH_PORT_UREFS_MAX in *. simpl.
    split; [done|]. split; [destruct (ie_request e =? 0); lia|done].
Qed.

(** ** One user reference less *)

(** Fewer user references, at least one. *)
Lemma fewer_spec :
  1 < IE_BITS_UREFS (ie_bits e) → 
  let sp' := set_bits sp ep (u32 (ie_bits e - 1)) in
  spaced hs sp' (set_right caps name (Some (Right (r_type r) (r_urefs r - 1) (r_object r) (r_request r)))) ∧
  denotes hs sp' name ep.
Proof.
  intros Hu sp'. pose proof (UREFS_range (ie_bits e)).
  destruct (rebits_add (ie_bits e) (-1)) as [Hh Ht Hx]; [lia|]. change (ie_bits e + -1) with (ie_bits e - 1) in *.
  assert (hand ({[name]} ∪ hs) sp' (delete name caps) name ep (IE (u32 (ie_bits e - 1)) (ie_object e) (ie_request e) (ie_index e))
    (IE_BITS_TYPE (u32 (ie_bits e - 1)) =? MACH_PORT_TYPE_SEND)) as Hhand.
  { rewrite Ht. apply (hand_set _ _ _ _ _ e); [apply entry_hand|done..]. }
  destruct (hand_put_out _ _ _ _ _ _ Hhand) as [Hs Hd'].
  - simpl. rewrite Ht. by eapply spaced_entry; [apply Hst|..|apply Hout|].
  - unfold entry_right in Hs. simpl in Hs. by rewrite Ht, Hx in Hs.
Qed.

(** The counts of a live port are positive. *)
Lemma live_counts port :
  ps_ports st !! ie_object e = Some port → ip_active port = true →
  ip_srights port < 2 ^ 32 ∧ ip_sorights port < 2 ^ 32 ∧
  (has_send (r_type r) = true → 0 < ip_srights port) ∧ (has_once (r_type r) = true → 0 < ip_sorights port).
Proof.
  intros Hp Ha. pose proof (ra_port _ _ _ (sg_rights _ _ _ _ Hst) _ _ Hp) as [_ _ Hs Ho].
  specialize (Hs Ha). specialize (Ho Ha).
  pose proof (carried_nonneg has_send tr (ie_object e)). pose proof (carried_nonneg has_once tr (ie_object e)).
  pose proof entry_held as Hn.
  split; [lia|]. split; [lia|]. split; intros Hh.
  - assert (0 < tally has_send caps (ie_object e)); [|lia]. apply (tally_some _ _ name r _ Hn).
    unfold covers. by rewrite Hh, Z.eqb_refl.
  - assert (0 < tally has_once caps (ie_object e)); [|lia]. apply (tally_some _ _ name r _ Hn).
    unfold covers. by rewrite Hh, Z.eqb_refl.
Qed.

(** The send right next to a receive right goes. *)
Lemma less_send_spec :
  IE_BITS_TYPE (ie_bits e) = MACH_PORT_TYPE_SEND_RECEIVE →
  let sp' := set_bits sp ep (Z.land (ie_bits e) (Z.lnot (Z.lor IE_BITS_UREFS_MASK MACH_PORT_TYPE_SEND))) in
  spaced hs sp' (set_right caps name (Some (Right MACH_PORT_TYPE_RECEIVE 0 (r_object r) (r_request r)))) ∧
  denotes hs sp' name ep.
Proof.
  intros Ht sp'. set (b := Z.land _ _) in *.
  assert (rebits (ie_bits e) b MACH_PORT_TYPE_RECEIVE 0) as [Hh Hx Hy].
  { destruct (rebits_clear (ie_bits e) (Z.lor IE_BITS_UREFS_MASK MACH_PORT_TYPE_SEND)) as [Hh Hx Hy]; [done..|].
    split; [done|unfold b; rewrite Hx, Ht; done|]. unfold b. rewrite Hy. unfold IE_BITS_UREFS.
    by rewrite <-Z.land_assoc, Z.land_0_r. }
  assert (hand ({[name]} ∪ hs) sp' (delete name caps) name ep (IE b (ie_object e) (ie_request e) (ie_index e))
    (IE_BITS_TYPE b =? MACH_PORT_TYPE_SEND)) as Hhand.
  { rewrite Hx. change (_ =? _) with (MACH_PORT_TYPE_SEND_RECEIVE =? MACH_PORT_TYPE_SEND). rewrite <-Ht.
    apply (hand_set _ _ _ _ _ e); [by eapply entry_hand|done..]. }
  destruct (hand_put_out _ _ _ _ _ _ Hhand) as [Hs Hd']; [simpl; by rewrite Hx|].
  unfold entry_right in Hs. simpl in Hs. by rewrite Hx, Hy in Hs.
Qed.

End entry.

Lemma entry_hand1 sp st caps tr name ep e :
  standing sp st caps tr → denotes ∅ sp name ep → eget sp ep = Some e →
  hand {[name]} sp (delete name caps) name ep e (IE_BITS_TYPE (ie_bits e) =? MACH_PORT_TYPE_SEND).
Proof. intros Hst Hd He. pose proof (entry_hand _ _ _ _ _ _ _ Hst Hd He) as Hh. by rewrite union_empty_r_L in Hh. Qed.

Section dead.
Context (sp : istate) (st : pstate) (caps : rights_t) (tr : transit_t) (name : Z) (ep : eptr) (e : ipc_entry).
Hypothesis Hst : standing sp st caps tr.
Hypothesis Hd : denotes ∅ sp name ep.
Hypothesis He : eget sp ep = Some e.

Let r := entry_right e.

Lemma dealloc_dead_spec :
  IE_BITS_TYPE (ie_bits e) = MACH_PORT_TYPE_DEAD_NAME →
  ∃ sp', dealloc_dead_name sp name ep = Ok sp' ∧ settled sp' st (set_right caps name (less_one r)) tr.
Proof.
  intros Ht. destruct (entry_ok _ _ _ _ _ _ _ Hst Hd He) as [(Hx & _)|[(_ & Hu & Ho & Hq)|(Hx & _)]]; [by simpl in Hx; rewrite Ht in Hx| |by simpl in Hx; rewrite Ht in Hx].
  simpl in Hu, Ho, Hq. unfold dealloc_dead_name, eread. rewrite He. ostep.
  rewrite (proj2 (Z.ltb_lt _ _)), Ho, Hq by lia. ostep. unfold less_one. simpl r_urefs. simpl r_type.
  destruct (Z.eqb_spec (IE_BITS_UREFS (ie_bits e)) 1) as [H1|H1].
  - rewrite Ht. simpl. destruct (hand_drop _ _ _ _ _ _ (entry_hand1 sp st caps tr name ep e Hst Hd He) Ho Hq) as (sp1 & -> & Hs1). ostep.
    destruct (spaced_unlock _ _ Hs1) as (sp2 & -> & Hr). exists sp2. split; [done|]. split; [done| |apply Hst].
    apply (rights_skip _ _ _ (r_type r) (r_object r)); [simpl; by rewrite Ht|].
    apply rights_take; [apply Hst|apply (entry_held _ _ _ _ _ _ _ Hst Hd He)].
  - ostep. destruct (spaced_unlock _ _ (proj1 (fewer_spec _ _ _ _ _ _ _ Hst Hd He ltac:(lia)))) as (sp2 & -> & Hr). exists sp2. split; [done|].
    split; [done| |apply Hst]. apply (rights_same _ _ _ _ r); [apply Hst|apply (entry_held _ _ _ _ _ _ _ Hst Hd He)|done..|].
    right; left. simpl. split_and!; [done|lia..|done|done].
Qed.

End dead.

Section live.
Context (sp : istate) (st : pstate) (caps : rights_t) (tr : transit_t) (name : Z) (ep : eptr) (e : ipc_entry).
Hypothesis Hst : standing sp st caps tr.
Hypothesis Hd : denotes ∅ sp name ep.
Hypothesis He : eget sp ep = Some e.

Let r := entry_right e.

(** The port has died. *)
Lemma died_spec port :
  ps_ports st !! ie_object e = Some port → ip_active port = false → has_port (r_type r) = true →
  ∃ sp1 st1 sp' , ipc_right_check sp st (ie_object e) name ep = Ok (sp1, st1, true) ∧
    dealloc_died sp1 name ep = Ok sp' ∧ touched (ie_object e) st st1 [] ∧
    settled sp' st1 (set_right caps name (less_one (dead_right r))) tr.
Proof.
  intros Hp Ha Hh. destruct (check_dead _ _ _ _ _ _ _ Hst Hd He port Hp Ha Hh)
    as (sp1 & st1 & e1 & Hrun & Hst1 & Hd1 & He1 & Her & Hto).
  assert (IE_BITS_TYPE (ie_bits e1) = MACH_PORT_TYPE_DEAD_NAME) as Ht1.
  { change (r_type (entry_right e1) = MACH_PORT_TYPE_DEAD_NAME). by rewrite Her. }
  destruct (dealloc_dead_spec _ _ _ _ _ _ _ Hst1 Hd1 He1 Ht1) as (sp2 & Hrun2 & Hs2).
  exists sp1, st1, sp2. split_and!; [done| |done|].
  - unfold dealloc_died, eread. rewrite He1. ostep. by rewrite Ht1.
  - rewrite Her in Hs2. fold r in Hs2. by rewrite set_right_again in Hs2.
Qed.

Lemma dropped_unlock port :
  ip_locked port = false → set_ip_locked (dropped (set_ip_locked port true)) false = dropped port.
Proof. intros Hl. by apply port_ext. Qed.

(** Another user reference stays. *)
Lemma fewer_settled port sp' :
  r_type r = MACH_PORT_TYPE_SEND ∨ r_type r = MACH_PORT_TYPE_SEND_RECEIVE →
  ps_ports st !! ie_object e = Some port → r_urefs r ≠ 1 →
  released sp' (set_right caps name (Some (Right (r_type r) (r_urefs r - 1) (r_object r) (r_request r)))) →
  settled sp' (put (ptick st) (ie_object e) port) (set_right caps name (less_one r)) tr.
Proof.
  intros Ht Hp H1 Hr. unfold less_one. rewrite (proj2 (Z.eqb_neq _ _) H1).
  assert (has_port (r_type r) = true) as Hh by (by destruct Ht as [-> | ->]).
  destruct (entry_port _ _ _ _ _ _ _ Hst Hd He Hh) as (port0 & Hp0 & Hn & Hu & Hz & Hl & _).
  assert (port0 = port) as -> by congruence. fold r in Hu, Hn.
  assert (0 < r_urefs r < MACH_PORT_UREFS_MAX) as Hur
    by (destruct Hu as [[_ ?]|[[Hx _]|[Hx _]]]; [done|destruct Ht as [Hy|Hy]; rewrite Hy in Hx; done..]).
  split; [done| |by eapply unlocked_ports_put; [apply Hst|apply tick_touched, touched_refl|]].
  eapply rights_ext; [|simpl; apply insert_id, Hp|done].
  apply (rights_same caps tr st name r); [apply Hst|apply (entry_held _ _ _ _ _ _ _ Hst Hd He)|done..|].
  left. split_and!; [done|left; simpl in *; split; [done|lia]|done|]. exists port. split; [done|].
  by destruct Hn.
Qed.

Lemma dealloc_send_receive_spec port :
  IE_BITS_TYPE (ie_bits e) = MACH_PORT_TYPE_SEND_RECEIVE → ps_ports st !! ie_object e = Some port →
  ∃ sp' st', dealloc_send_receive sp st name ep e = Ok (sp', st') ∧
    settled sp' st' (set_right caps name (less_one r)) tr ∧
    touched (ie_object e) st st' (if r_urefs r =? 1 then no_senders_note port else []).
Proof.
  intros Ht Hp. destruct (entry_port _ _ _ _ _ _ _ Hst Hd He) as (port' & Hp' & Hn & Hu & Hz & Hl & Hrefs & Hdn);
    [simpl; by rewrite Ht|]. assert (port' = port) as -> by congruence. clear Hp'.
  pose proof Hn as [Hreg Hrcv]. simpl r_type in Hrcv. rewrite Ht in Hrcv. destruct Hrcv as (Ha & Hname & Hspace).
  destruct (live_counts _ _ _ _ _ _ _ Hst Hd He port Hp Ha) as (Hsm & Hom & Hs & _). specialize (Hs ltac:(simpl; by rewrite Ht)).
  destruct Hu as [[_ Hu]|[[Hx _]|[Hx _]]]; [|by simpl in Hx; rewrite Ht in Hx..]. simpl in Hu.
  unfold dealloc_send_receive, lock_receiver, assert_receiver.
  rewrite (proj2 (Z.ltb_lt _ _)), (proj2 (Z.eqb_neq _ _) Hz) by lia. ostep.
  rewrite (ip_lock_quiet st _ port) by done. ostep. rewrite put_pget. ostep. simpl ip_active. simpl ip_receiver_name.
  simpl ip_data. rewrite Ha, Hname, Hspace, !Z.eqb_refl. ostep. simpl ip_srights. rewrite (proj2 (Z.ltb_lt _ _)) by lia. ostep. simpl r_urefs.
  destruct (Z.eqb_spec (IE_BITS_UREFS (ie_bits e)) 1) as [H1|H1].
  - unfold less_one. simpl r_urefs. simpl r_type. rewrite H1, Ht.
    destruct (drop_send_spec (put (ptick st) (ie_object e) (set_ip_locked port true)) (ie_object e) (set_ip_locked port true))
      as (ns & -> & Hns); [apply put_get|done|]. ostep. rewrite put_put.
    rewrite (ip_unlock_spec _ _ _ (put_get _ _ _)), put_put, dropped_unlock by done. ostep.
    destruct (spaced_unlock _ _ (proj1 (less_send_spec _ _ _ _ _ _ _ Hst Hd He Ht))) as (sp2 & -> & Hr). ostep. rewrite Hns.
    eexists _, _. split; [done|]. split; [|apply (out_touched _ _ _ []); touch].
    split; [done| |by eapply unlocked_ports_put; [apply Hst|apply tick_touched, touched_refl|]].
    apply (rights_change caps tr [] st _ name r _ port (dropped port));
      [apply Hst|apply (entry_held _ _ _ _ _ _ _ Hst Hd He)|done..|by apply keeps_same|done| |done|done|].
    + split; simpl; rewrite ?Ht; simpl; lia.
    + intros r' [= <-]. split; [done|]. left. split_and!; [done|by right; left|done|]. exists (dropped port).
      simpl. rewrite lookup_insert_eq. by split_and!.
  - ostep. rewrite (ip_unlock_spec _ _ _ (put_get _ _ _)), put_put, unlocked_idem by done. ostep.
    destruct (spaced_unlock _ _ (proj1 (fewer_spec _ _ _ _ _ _ _ Hst Hd He ltac:(lia)))) as (sp2 & -> & Hr). ostep.
    eexists _, _. split; [done|]. split; [|touch].
    apply fewer_settled; [by right|done..].
Qed.

(** The send right goes with its name. *)
Lemma send_last_spec port sp1 st1 :
  IE_BITS_TYPE (ie_bits e) = MACH_PORT_TYPE_SEND → ps_ports st !! ie_object e = Some port → ip_active port = true →
  sp1 = sp → st1 = put (ptick st) (ie_object e) (set_ip_locked port true) →
  ∃ sp' st' ns dn, ('(st, ns) ← drop_send_right st1 (ie_object e);
      '(sp, st, dnrequest) ← ipc_right_dncancel_macro sp1 st (ie_object e) name ep;
      sp ← ipc_hash_delete sp (ie_object e) name ep;
      st ← ip_release st (ie_object e);
      sp ← entry_drop sp name ep;
      Ok (sp, st, ns, dnrequest)) = Ok (sp', st', ns, dn) ∧
    spaced ∅ sp' (delete name caps) ∧
    (∃ port', st' = put (ptick st) (ie_object e) port' ∧ ip_locked port' = true ∧
      keeps (delete name caps) port port' ∧ port_dn_wf port' ∧ recounted [MACH_PORT_TYPE_SEND] [] port port') ∧
    ∀ st', notify_port_deleted (notify_no_senders st' ns) dn name =
      out st' (no_senders_note port ++ deleted_note port name (ie_request e)) [] 0.
Proof.
  intros Ht Hp Ha -> ->.
  destruct (entry_port _ _ _ _ _ _ _ Hst Hd He) as (port0 & Hp' & [Hreg _] & _ & Hz & Hl & Hrefs & Hdn);
    [simpl; by rewrite Ht|]. assert (port0 = port) as -> by congruence. clear Hp'.
  destruct (live_counts _ _ _ _ _ _ _ Hst Hd He port Hp Ha) as (Hsm & Hom & Hs & _). specialize (Hs ltac:(simpl; by rewrite Ht)).
  set (st1 := put _ _ _). destruct (drop_send_spec st1 (ie_object e) (set_ip_locked port true))
    as (ns & -> & Hns); [apply put_get|done|]. ostep. unfold st1. rewrite put_put.
  set (port2 := dropped _).
  pose proof (entry_hand1 _ _ _ _ _ _ _ Hst Hd He) as Hh0. rewrite Ht in Hh0.
  destruct (dncancel_macro_spec _ _ _ _ _ _ _ (put (ptick st) (ie_object e) port2) port2 Hh0)
    as (sp2 & port3 & -> & Hh1 & Hcn); [apply put_get|done..|]. ostep. rewrite put_put.
  destruct (hand_unhash _ _ _ _ _ _ Hh1) as (sp3 & x & Hrun & Hh2). simpl ie_object in Hrun. rewrite Hrun. ostep.
  pose proof Hcn as [[d Hd3] Hw3 _].
  rewrite (ip_release_spec _ _ _ (put_get _ _ _)), put_put by (by rewrite Hd3). ostep. unfold entry_drop.
  assert (hand {[name]} (set_object sp3 ep IO_NULL) (delete name caps) name ep (IE (ie_bits e) IO_NULL 0 x) false) as Hh3
    by (by apply (hand_set _ _ _ _ _ _ _ _ (ie_bits e) IO_NULL 0 Hh2)).
  destruct (hand_drop _ _ _ _ _ _ Hh3) as (sp4 & -> & Hs4); [done..|]. ostep.
  eexists _, _, _, _. split; [done|]. split; [done|]. split.
  - eexists. split; [done|]. rewrite Hd3 in *. split; [done|]. split.
    + eapply keeps_trans; [by apply (keeps_same _ port port2)|].
      eapply keeps_trans; [by eapply cancelled_keeps; [..|apply lookup_delete_eq]|by apply keeps_same].
    + split; [done|]. split; simpl; rewrite ?Ha; simpl; lia.
  - intros st'. rewrite Hns, notify_deleted. by rewrite out_out.
Qed.

Lemma dealloc_send_spec port :
  IE_BITS_TYPE (ie_bits e) = MACH_PORT_TYPE_SEND → ps_ports st !! ie_object e = Some port → ip_active port = true →
  ∃ sp' st', dealloc_send sp st name ep e = Ok (sp', st') ∧
    settled sp' st' (set_right caps name (less_one r)) tr ∧
    touched (ie_object e) st st' (if r_urefs r =? 1
      then no_senders_note port ++ deleted_note port name (r_request r) else []).
Proof.
  intros Ht Hp Ha. destruct (entry_port _ _ _ _ _ _ _ Hst Hd He) as (port' & Hp' & _ & Hu & Hz & Hl & _);
    [simpl; by rewrite Ht|]. assert (port' = port) as -> by congruence. clear Hp'.
  destruct (live_counts _ _ _ _ _ _ _ Hst Hd He port Hp Ha) as (Hsm & Hom & Hs & _). specialize (Hs ltac:(simpl; by rewrite Ht)).
  destruct Hu as [[_ Hu]|[[Hx _]|[Hx _]]]; [|by simpl in Hx; rewrite Ht in Hx..]. simpl in Hu.
  unfold dealloc_send. rewrite (proj2 (Z.ltb_lt _ _)), (proj2 (Z.eqb_neq _ _) Hz) by lia. ostep.
  rewrite (check_alive _ _ _ _ _ _ _ Hst He port) by done. ostep. rewrite put_pget. ostep. simpl ip_srights.
  rewrite (proj2 (Z.ltb_lt _ _) Hs). ostep. simpl r_urefs.
  destruct (Z.eqb_spec (IE_BITS_UREFS (ie_bits e)) 1) as [H1|H1].
  - destruct (send_last_spec port sp _ Ht Hp Ha eq_refl eq_refl)
      as (sp1 & st1 & ns & dn & -> & Hs1 & (port1 & -> & Hl1 & Hk & Hw & Hrc) & Hout). ostep.
    rewrite (ip_unlock_spec _ _ _ (put_get _ _ _)), put_put by done. ostep.
    destruct (spaced_unlock _ _ Hs1) as (sp2 & -> & Hr). ostep. rewrite Hout. eexists _, _. split; [done|].
    split; [|apply (out_touched _ _ _ []); touch].
    unfold less_one. simpl r_urefs. simpl r_type. rewrite H1, Ht. change (1 =? 1) with true. simpl set_right.
    split; [done| |by eapply unlocked_ports_put; [apply Hst|apply tick_touched, touched_refl|]].
    apply (rights_change caps tr [] st _ name r None port (set_ip_locked port1 false));
      [apply Hst|apply (entry_held _ _ _ _ _ _ _ Hst Hd He)|done..| |done| |done|done|done].
    + eapply keeps_trans; [done|by apply keeps_same].
    + simpl r_type. rewrite Ht. by destruct Hrc.
  - ostep. rewrite (ip_unlock_spec _ _ _ (put_get _ _ _)), put_put, unlocked_idem by done. ostep.
    destruct (spaced_unlock _ _ (proj1 (fewer_spec _ _ _ _ _ _ _ Hst Hd He ltac:(lia)))) as (sp2 & -> & Hr). ostep.
    eexists _, _. split; [done|]. split; [|touch].
    apply fewer_settled; [by left|done..].
Qed.

Lemma dealloc_send_once_spec port :
  IE_BITS_TYPE (ie_bits e) = MACH_PORT_TYPE_SEND_ONCE → ps_ports st !! ie_object e = Some port → ip_active port = true →
  ∃ sp' st', dealloc_send_once sp st name ep e = Ok (sp', st') ∧
    settled sp' st' (delete name caps) ((MACH_PORT_TYPE_SEND_ONCE, ie_object e) :: tr) ∧
    touched (ie_object e) st st' (ipc_notify_send_once (ie_object e) :: deleted_note port name (r_request r)).
Proof.
  intros Ht Hp Ha. destruct (entry_port _ _ _ _ _ _ _ Hst Hd He) as (port' & Hp' & [Hreg _] & Hu & Hz & Hl & Hrefs & Hdn);
    [simpl; by rewrite Ht|]. assert (port' = port) as -> by congruence. clear Hp'.
  destruct (live_counts _ _ _ _ _ _ _ Hst Hd He port Hp Ha) as (Hsm & Hom & _ & Ho). specialize (Ho ltac:(simpl; by rewrite Ht)).
  destruct Hu as [[[Hx|Hx] _]|[[Hx _]|[_ Hu]]]; [by simpl in Hx; rewrite Ht in Hx..|]. simpl in Hu.
  unfold dealloc_send_once. rewrite Hu, (proj2 (Z.eqb_neq _ _) Hz). change (1 =? 1) with true. ostep.
  rewrite (check_alive _ _ _ _ _ _ _ Hst He port) by done. ostep. rewrite put_pget. ostep. simpl ip_sorights.
  rewrite (proj2 (Z.ltb_lt _ _) Ho). ostep. set (port1 := set_ip_locked port true).
  pose proof (entry_hand1 _ _ _ _ _ _ _ Hst Hd He) as Hh0. rewrite Ht in Hh0.
  destruct (dncancel_macro_spec _ _ _ _ _ _ _ (put (ptick st) (ie_object e) port1) port1 Hh0)
    as (sp2 & port2 & -> & Hh1 & Hcn); [apply put_get|done..|]. ostep. rewrite put_put.
  pose proof Hcn as [[d Hd2] Hw2 _].
  rewrite (ip_unlock_spec _ _ _ (put_get _ _ _)), put_put by (by rewrite Hd2). ostep. unfold entry_drop.
  assert (hand {[name]} (set_object sp2 ep IO_NULL) (delete name caps) name ep (IE (ie_bits e) IO_NULL 0 (ie_index e)) false)
    as Hh2 by (by apply (hand_set _ _ _ _ _ _ _ _ (ie_bits e) IO_NULL 0 Hh1)).
  destruct (hand_drop _ _ _ _ _ _ Hh2) as (sp3 & -> & Hs3); [done..|]. ostep.
  destruct (spaced_unlock _ _ Hs3) as (sp4 & -> & Hr). ostep. rewrite notify_deleted.
  eexists _, _. split; [done|]. split.
  2: { change (notify ?s ?n) with (out s [n] [] 0). rewrite out_out.
       apply (out_touched _ _ _ []); touch. }
  split; [done| |by eapply unlocked_ports_put; [apply Hst|apply tick_touched, touched_refl|]].
  apply (rights_change caps tr [MACH_PORT_TYPE_SEND_ONCE] st _ name r None port (set_ip_locked port2 false));
    [apply Hst|apply (entry_held _ _ _ _ _ _ _ Hst Hd He)|done..| |done| |done|done|done].
  - eapply keeps_trans; [by apply (keeps_same _ port port1)|].
    eapply keeps_trans; [by eapply cancelled_keeps; [..|apply lookup_delete_eq]|by apply keeps_same].
  - rewrite Hd2. split; simpl; rewrite ?Ht; simpl; lia.
Qed.
End live.

(** ** ipc_right_dealloc *)

(** The right as [ipc_right_check] leaves it. *)
Definition checked (st : pstate) (r : right) : right :=
  if has_port (r_type r) && negb (alive st r) then dead_right r else r.

(** A send-once right goes with the notification that says it was destroyed. *)
Definition given_up (st : pstate) (r : right) : transit_t :=
  if (r_type r =? MACH_PORT_TYPE_SEND_ONCE) && alive st r then [(r_type r, r_object r)] else [].

Definition dealloc_notes (st : pstate) (name : Z) (r : right) : list notification :=
  match ps_ports st !! r_object r with
  | None => []
  | Some port =>
    if negb (has_port (r_type r)) || negb (ip_active port) then []
    else if r_type r =? MACH_PORT_TYPE_SEND_ONCE then
      ipc_notify_send_once (r_object r) :: deleted_note port name (r_request r)
    else if negb (r_urefs r =? 1) then []
    else if r_type r =? MACH_PORT_TYPE_SEND then no_senders_note port ++ deleted_note port name (r_request r)
    else no_senders_note port
  end.

Section main.
Context (sp : istate) (st : pstate) (caps : rights_t) (tr : transit_t) (name : Z) (ep : eptr) (e : ipc_entry).
Hypothesis Hst : standing sp st caps tr.
Hypothesis Hd : denotes ∅ sp name ep.
Hypothesis He : eget sp ep = Some e.

Let r := entry_right e.

Definition dealloc_done (sp' : istate) (st' : pstate) : Prop :=
  settled sp' st' (set_right caps name (less_one (checked st r))) (given_up st r ++ tr) ∧
  touched (r_object r) st st' (dealloc_notes st name r).

(** A port right. *)
Lemma dealloc_port_spec :
  IE_BITS_TYPE (ie_bits e) ∈ [MACH_PORT_TYPE_SEND; MACH_PORT_TYPE_SEND_ONCE; MACH_PORT_TYPE_SEND_RECEIVE] →
  ∃ sp' st', ipc_right_dealloc sp st name ep = Ok (sp', st', KERN_SUCCESS) ∧ dealloc_done sp' st'.
Proof.
  intros Ht. assert (has_port (r_type r) = true) as Hh.
  { simpl. repeat rewrite elem_of_cons in Ht. by destruct Ht as [-> |[-> |[-> |[]%elem_of_nil]]]. }
  destruct (entry_port _ _ _ _ _ _ _ Hst Hd He Hh) as (port & Hp & Hn & Hu & Hz & Hl & _). fold r in Hn, Hu.
  rewrite (dealloc_case sp st name ep e He (sd_active _ _ _ (sg_space _ _ _ _ Hst))). cbv zeta.
  unfold dealloc_done, checked, given_up, dealloc_notes, alive. rewrite Hh. simpl r_object. rewrite Hp. simpl r_type.
  destruct (ip_active port) eqn:Ha; simpl negb; simpl andb; simpl orb; cbv iota.
  - repeat rewrite elem_of_cons in Ht. destruct Ht as [Ht|[Ht|[Ht|[]%elem_of_nil]]].
    + destruct (dealloc_send_spec _ _ _ _ _ _ _ Hst Hd He port Ht Hp Ha) as (sp' & st' & Hrun & Hs & Hto).
      rewrite Ht in *. simpl Z.eqb. cbv iota. rewrite Hrun. ostep. eexists _, _. split; [done|].
      split; [done|]. simpl r_urefs in *. simpl r_request in *. by destruct (_ =? 1).
    + destruct (dealloc_send_once_spec _ _ _ _ _ _ _ Hst Hd He port Ht Hp Ha) as (sp' & st' & Hrun & Hs & Hto).
      rewrite Ht in *. simpl Z.eqb. cbv iota. rewrite Hrun. ostep. eexists _, _. split; [done|].
      split; [|done]. destruct Hu as [[[Hx|Hx] _]|[[Hx _]|[_ Hu]]]; [by simpl in Hx; rewrite Ht in Hx..|].
      unfold less_one. rewrite Hu. change (r_type r) with (IE_BITS_TYPE (ie_bits e)). by rewrite Ht.
    + destruct (dealloc_send_receive_spec _ _ _ _ _ _ _ Hst Hd He port Ht Hp) as (sp' & st' & Hrun & Hs & Hto).
      rewrite Ht in *. simpl Z.eqb. cbv iota. rewrite Hrun. ostep. eexists _, _. split; [done|].
      split; [done|]. simpl r_urefs in *. by destruct (_ =? 1).
  - destruct (died_spec _ _ _ _ _ _ _ Hst Hd He port Hp Ha Hh) as (sp1 & st1 & sp' & Hc & Hrun & Hto & Hs).
    rewrite andb_false_r. destruct (dead_type _ _ _ _ _ _ _ Hst Hd He port Hp Ha Hh) as [[Hty Hur]|[Hty Hur]];
      rewrite Hty; simpl Z.eqb; cbv iota; unfold dealloc_send, dealloc_send_once;
      rewrite ?Hur, (proj2 (Z.eqb_neq _ _) Hz), ?(proj2 (Z.ltb_lt _ _) (proj1 Hur)); try change (1 =? 1) with true; ostep;
      rewrite Hc; ostep; rewrite Hrun; ostep; by eexists _, _.
Qed.
End main.


Lemma right_dealloc_spec sp st caps tr name ep e :
  standing sp st caps tr → denotes ∅ sp name ep → eget sp ep = Some e →
  let r := entry_right e in
  ∃ sp' st' kr, ipc_right_dealloc sp st name ep = Ok (sp', st', kr) ∧
    if (r_type r =? MACH_PORT_TYPE_RECEIVE) || (r_type r =? MACH_PORT_TYPE_PORT_SET)
    then kr = KERN_INVALID_RIGHT ∧ st' = st ∧ released sp' caps
    else kr = KERN_SUCCESS ∧
      settled sp' st' (set_right caps name (less_one (checked st r))) (given_up st r ++ tr) ∧
      touched (r_object r) st st' (dealloc_notes st name r).
Proof.
  intros Hst Hd He r. pose proof (entry_ok _ _ _ _ _ _ _ Hst Hd He) as Hr. fold r in Hr.
  pose proof (dealloc_case sp st name ep e He (sd_active _ _ _ (sg_space _ _ _ _ Hst))) as Hcase. cbv zeta in Hcase.
  destruct (spaced_unlock _ _ (sg_space _ _ _ _ Hst)) as (sp0 & Hun & Hrel).
  assert (IE_BITS_TYPE (ie_bits e) = r_type r) as Hty by done.
  destruct Hr as [(Hh & Hu & _)|[(Ht & _ & Ho & Hq)|(Ht & _)]].
  - destruct Hu as [[[Ht|Ht] _]|[[Ht _]|[Ht _]]].
    3: { rewrite Hcase, Hty, Ht. simpl Z.eqb. cbv iota. rewrite Hun. ostep. by eexists _, _, _. }
    all: destruct (dealloc_port_spec _ _ _ _ _ _ _ Hst Hd He) as (sp' & st' & Hrun & Hs & Hto);
      [rewrite Hty, Ht; set_solver|];
      rewrite Hrun, Ht; by eexists _, _, _.
  - destruct (dealloc_dead_spec _ _ _ _ _ _ _ Hst Hd He) as (sp' & Hrun & Hs); [by rewrite Hty|].
    rewrite Hcase, Hty, Ht. simpl Z.eqb. cbv iota. rewrite Hrun. ostep. eexists _, _, _. split; [done|].
    unfold checked, given_up, dealloc_notes. fold r in Hs. rewrite Ht. simpl. split; [done|]. split; [done|].
    destruct (ps_ports st !! _); apply touched_refl.
  - rewrite Hcase, Hty, Ht. simpl Z.eqb. cbv iota. rewrite Hun. ostep. by eexists _, _, _.
Qed.

(** C3. ipc_right_dealloc, on a locked active space whose rights and ports
    are in account with each other, never fails an assertion and does what
    the abstract map of rights says: one user reference less or the name
    gone, a right for a port that has died first turned into a dead name,
    receive rights and port sets refused with KERN_INVALID_RIGHT; the
    notifications it sends are exactly the no-senders, send-once and
    port-deleted ones that are due, in order, and the account of rights,
    references and dead-name requests holds afterwards. *)
Theorem right_dealloc_correct sp st caps tr name ep e :
  standing sp st caps tr → denotes ∅ sp name ep → eget sp ep = Some e →
  let r := entry_right e in
  ∃ sp' st' kr, ipc_right_dealloc sp st name ep = Ok (sp', st', kr) ∧
    if (r_type r =? MACH_PORT_TYPE_RECEIVE) || (r_type r =? MACH_PORT_TYPE_PORT_SET)
    then kr = KERN_INVALID_RIGHT ∧ st' = st ∧ released sp' caps
    else kr = KERN_SUCCESS ∧
      settled sp' st' (set_right caps name (less_one (checked st r))) (given_up st r ++ tr) ∧
      touched (r_object r) st st' (dealloc_notes st name r).
Proof. apply right_dealloc_spec. Qed.
End dealloc.
