(* ===== verification/IpcRightCopy.v ===== *)
(** * Moving rights between a space and messages

    [ipc_right_copyin] takes a right out of a space, or makes or copies one,
    and [ipc_right_copyout] puts a right into a space: which right goes into
    transit, what the name keeps, and that the account of rights balances. *)

From stdpp Require Import prelude list gmap.
From S2P Require Import Prelude MachPort IpcSplay IpcTypes IpcHash IpcTable IpcEntry IpcInv IpcUpdate.
From S2P Require Import IpcPort IpcDnreq IpcPortRights IpcPset IpcDestroy IpcRight IpcRightEq IpcRightInv IpcRightDealloc.

(** ** What copyin is meant to do *)

Definition makes (msgt : Z) : bool := (msgt =? MACH_MSG_TYPE_MAKE_SEND) || (msgt =? MACH_MSG_TYPE_MAKE_SEND_ONCE).
Definition moves (msgt : Z) : bool := (msgt =? MACH_MSG_TYPE_MOVE_SEND) || (msgt =? MACH_MSG_TYPE_MOVE_SEND_ONCE).
Definition sends_once (msgt : Z) : bool :=
  (msgt =? MACH_MSG_TYPE_MAKE_SEND_ONCE) || (msgt =? MACH_MSG_TYPE_MOVE_SEND_ONCE).

(** The type of the right carried. *)
Definition carried_type (msgt : Z) : Z :=
  if sends_once msgt then MACH_PORT_TYPE_SEND_ONCE else MACH_PORT_TYPE_SEND.

Definition is_dead (r : right) : bool := r_type r =? MACH_PORT_TYPE_DEAD_NAME.

(** The right as it is seen: [MAKE_SEND] and [MAKE_SEND_ONCE] do not look at
    rights that are not receive rights. *)
Definition seen (msgt : Z) (st : pstate) (r : right) : right := if makes msgt then r else checked st r.

Definition legal (msgt : Z) (deadok : bool) (r : right) : bool :=
  if makes msgt then has (r_type r) MACH_PORT_TYPE_RECEIVE
  else if is_dead r then deadok
  else if sends_once msgt then has_once (r_type r) else has_send (r_type r).

(** What the name keeps. *)
Definition remains (msgt : Z) (r : right) : option right := if moves msgt then less_one r else Some r.

(** What is carried. *)
Definition copied_object (r : right) : Z := if is_dead r then IO_DEAD else r_object r.
Definition copied (msgt : Z) (r : right) : transit_t :=
  if is_dead r then [] else [(carried_type msgt, r_object r)].

(** The send-once right to be told that the name is gone. *)
Definition copied_soright (msgt : Z) (st : pstate) (r : right) : Z :=
  match remains msgt r with
  | None => match ps_ports st !! r_object r with
            | Some port => if is_dead r then IP_NULL else notify_right port (r_request r)
            | None => IP_NULL
            end
  | Some _ => IP_NULL
  end.

Section copy.
Context {IW : iworld}.
Context `{PW : pworld, !quiet}.

(** The entry of the name is still there when the right has gone; the caller
    frees it. *)
Definition left_with (hs : gset Z) (sp : istate) (caps : rights_t) (name : Z) (ep : eptr) (o : option right) : Prop :=
  match o with
  | Some _ => spaced hs sp (set_right caps name o) ∧ denotes hs sp name ep
  | None => ∃ e, hand ({[name]} ∪ hs) sp (delete name caps) name ep e false ∧
      IE_BITS_TYPE (ie_bits e) = MACH_PORT_TYPE_NONE ∧ ie_object e = IO_NULL ∧ ie_request e = 0
  end.

(** There is room for one more reference and right. *)
Definition has_room (port : ipc_port) : Prop :=
  ip_references port < IO_MAX_REFERENCES ∧ ip_srights port < 2 ^ 32 - 1 ∧ ip_sorights port < 2 ^ 32 - 1.

(** The right has become a dead name, or was one. *)
Lemma copyin_dead_spec hs sp st caps tr name ep e msgt deadok `{!outside name hs} :
  standing_but hs sp st caps tr → denotes hs sp name ep → eget sp ep = Some e →
  let r := entry_right e in r_type r = MACH_PORT_TYPE_DEAD_NAME →
  ∃ sp', copyin_dead sp st ep (moves msgt) deadok =
      Ok (sp', st, if deadok then Some (IO_DEAD, IP_NULL) else None) ∧
    if deadok then left_with hs sp' caps name ep (remains msgt r) ∧ rights_ok (set_right caps name (remains msgt r)) tr st
    else sp' = sp.
Proof.
  intros Hst Hd He r Ht. pose proof (entry_held _ _ _ _ _ _ _ Hst Hd He) as Hn. fold r in Hn.
  destruct (entry_ok _ _ _ _ _ _ _ Hst Hd He) as [(Hx & _)|[(_ & Hu & Ho & Hq)|(Hx & _)]];
    [fold r in Hx; by rewrite Ht in Hx| |fold r in Hx; by rewrite Ht in Hx].
  simpl in Ht, Hu, Ho, Hq. unfold copyin_dead, eread. rewrite He. ostep.
  rewrite Ht, (proj2 (Z.ltb_lt _ _) (proj1 Hu)), Ho, Hq. change (_ =? 0) with true at 1. ostep.
  destruct deadok; simpl negb; cbv iota; [|by eexists]. unfold remains.
  destruct (moves msgt); simpl negb; cbv iota.
  2: { exists sp. split; [done|]. simpl set_right. rewrite insert_delete_id by done. split; [|apply Hst].
       simpl. rewrite insert_delete_id by done. split; [apply Hst|done]. }
  unfold less_one. simpl r_urefs. simpl r_type. rewrite Ht.
  destruct (Z.eqb_spec (IE_BITS_UREFS (ie_bits e)) 1) as [H1|H1].
  - eexists. split; [done|]. simpl. split.
    + destruct (rebits_clear (ie_bits e) MACH_PORT_TYPE_DEAD_NAME) as [Hh Hx _]; [done..|].
      pose proof (entry_hand _ _ _ _ _ _ _ Hst Hd He) as Hhand. rewrite Ht in Hhand.
      set (bits := Z.land _ _) in *. eexists.
      split; [by apply (hand_set _ _ _ _ _ _ _ _ bits (ie_object e) (ie_request e) Hhand)|].
      simpl. by rewrite Hx, Ht.
    + apply (rights_skip _ _ _ (r_type r) (r_object r)); [simpl; by rewrite Ht|].
      apply rights_take; [apply Hst|done].
  - destruct (fewer_spec _ _ _ _ _ _ _ Hst Hd He) as [Hs' Hd']; [lia|].
    eexists. split; [done|]. simpl in Hs'. rewrite Ht in Hs'. split; [done|].
    apply (rights_same _ _ _ _ r); [apply Hst|done|done|done|].
    right; left. simpl. split; [done|]. split; [lia|done].
Qed.

Section copyin.
Context {hs : gset Z} (sp : istate) (st : pstate) (caps : rights_t) (tr : transit_t) (name : Z) (ep : eptr) (e : ipc_entry).
Context {Hout : outside name hs}.
Hypothesis Hst : standing_but hs sp st caps tr.
Hypothesis Hd : denotes hs sp name ep.
Hypothesis He : eget sp ep = Some e.
Hypothesis Hroom : ∀ port, ps_ports st !! ie_object e = Some port → has_room port.

Let r := entry_right e.

(** Success. *)
Definition copyin_ok (msgt : Z) (r : right) (sp' : istate) (st' : pstate) : Prop :=
  left_with hs sp' caps name ep (remains msgt r) ∧
  rights_ok (set_right caps name (remains msgt r)) (copied msgt r ++ tr) st' ∧
  unlocked_ports st' ∧ touched (ie_object e) st st' [].

Lemma set_right_same : set_right caps name (Some r) = caps.
Proof. simpl. apply insert_delete_id. by eapply entry_held. Qed.

Lemma left_same : left_with hs sp caps name ep (Some r).
Proof. simpl. rewrite insert_delete_id by (by eapply entry_held). split; [apply Hst|done]. Qed.

(** One more right of a kind, and a reference. *)
Lemma rights_more t port port' st' :
  ps_ports st !! ie_object e = Some port → ie_object e ≠ IO_NULL →
  ip_active port' = ip_active port → ip_receiver_name port' = ip_receiver_name port →
  ip_receiver port' = ip_receiver port → ip_dnrequests port' = ip_dnrequests port →
  recounted [] [t] port port' →
  ps_ports st' = <[ie_object e := port']> (ps_ports st) → ps_psets st' = ps_psets st →
  rights_ok caps ((t, ie_object e) :: tr) st'.
Proof.
  intros Hp Hz Ha Hn Hr Hdn Hrc Hps Hss.
  destruct (ra_port _ _ _ (sg_rights _ _ _ _ Hst) _ _ Hp) as [Hw _ _ _].
  apply (rights_recount caps tr [] [t] st st' (ie_object e) port port'); try done.
  - apply Hst.
  - by apply keeps_same.
  - unfold port_dn_wf. by rewrite Hdn.
Qed.

(** The port of the right, alive. *)
Lemma port_facts :
  has_port (r_type r) = true →
  ∃ port, ps_ports st !! ie_object e = Some port ∧ names_port name r port ∧ urefs_of r ∧
    ie_object e ≠ IO_NULL ∧ ip_locked port = false ∧ 0 < ip_references port < IO_MAX_REFERENCES ∧ port_dn_wf port ∧
    (ip_active port = true → 0 ≤ ip_srights port < 2 ^ 32 - 1 ∧ 0 ≤ ip_sorights port < 2 ^ 32 - 1 ∧
      (has_send (r_type r) = true → 0 < ip_srights port) ∧ (has_once (r_type r) = true → 0 < ip_sorights port)).
Proof.
  intros Hh. destruct (entry_port _ _ _ _ _ _ _ Hst Hd He Hh) as (port & Hp & Hn & Hu & Hz & Hl & Hr & Hdn).
  destruct (Hroom port Hp) as (H1 & H2 & H3). exists port. split_and!; try done; try lia.
  intros Ha. destruct (live_counts _ _ _ _ _ _ _ Hst Hd He port Hp Ha) as (_ & _ & Hs & Ho).
  destruct (ra_port _ _ _ (sg_rights _ _ _ _ Hst) _ _ Hp) as [_ _ Hs' Ho'].
  specialize (Hs' Ha). specialize (Ho' Ha).
  pose proof (tally_nonneg has_send caps (ie_object e)). pose proof (carried_nonneg has_send tr (ie_object e)).
  pose proof (tally_nonneg has_once caps (ie_object e)). pose proof (carried_nonneg has_once tr (ie_object e)).
  split_and!; lia || done.
Qed.

Lemma u32_next x : 0 ≤ x < 2 ^ 32 - 1 → u32 (x + 1) = x + 1.
Proof. intros. apply u32_small. unfold is_u32. lia. Qed.

(** [MAKE_SEND], [MAKE_SEND_ONCE] *)
Lemma copyin_make_spec msgt make :
  (msgt = MACH_MSG_TYPE_MAKE_SEND ∧ make = make_send_counts) ∨
    (msgt = MACH_MSG_TYPE_MAKE_SEND_ONCE ∧ make = make_send_once_counts) →
  has (r_type r) MACH_PORT_TYPE_RECEIVE = true →
  ∃ st', copyin_make sp st name e make = Ok (sp, st', Some (ie_object e, IP_NULL)) ∧ copyin_ok msgt r sp st'.
Proof.
  intros Hm Hrcv. assert (has_port (r_type r) = true) as Hh by (by eapply has_mono; [|done]).
  destruct (port_facts Hh) as (port & Hp & [_ Hn] & Hu & Hz & Hl & Hr & Hdn & Hc).
  rewrite Hrcv in Hn. destruct Hn as (Ha & Hname & Hspace). destruct (Hc Ha) as (Hs & Ho & _).
  assert (is_dead r = false ∧ has (ie_bits e) MACH_PORT_TYPE_RECEIVE = true) as [Hnd Hb].
  { destruct Hu as [[[Ht|Ht] _]|[[Ht _]|[Ht _]]]; rewrite Ht in Hrcv; try done;
      (split; [unfold is_dead; by rewrite Ht|]); rewrite has_type by done;
      change (IE_BITS_TYPE (ie_bits e)) with (r_type r); by rewrite Ht. }
  unfold copyin_make, lock_receiver, assert_receiver. rewrite Hb, (proj2 (Z.eqb_neq _ _) Hz). ostep.
  rewrite (ip_lock_quiet st _ port) by done. ostep. rewrite put_pget. ostep. simpl ip_active. simpl ip_receiver_name.
  simpl ip_data. rewrite Ha, Hname, Hspace, !Z.eqb_refl. ostep. rewrite put_pmod. ostep.
  set (port1 := make (set_ip_locked port true)).
  assert (ip_references port1 = ip_references port ∧ ip_locked port1 = true) as [Hr1 Hl1]
    by (unfold port1; by destruct Hm as [[_ ->]|[_ ->]]).
  rewrite (ip_reference_spec _ _ _ (put_get _ _ _)), put_put by (rewrite Hr1; lia). ostep.
  rewrite (ip_unlock_spec _ _ _ (put_get _ _ _)), put_put by done. ostep.
  eexists. split; [done|]. unfold copyin_ok, remains, copied. rewrite Hnd.
  assert (moves msgt = false) as -> by (by destruct Hm as [[-> _]|[-> _]]). rewrite set_right_same.
  split_and!; [apply left_same| | |unfold port1; destruct Hm as [[_ ->]|[_ ->]]; touch].
  - apply (rights_more _ port (set_ip_locked (set_ip_references port1 (ip_references port1 + 1)) false)); try done;
      destruct Hm as [[-> ->]|[-> ->]]; try done; split; simpl; rewrite ?u32_next; simpl; lia.
  - by eapply unlocked_ports_put; [apply Hst|apply tick_touched, touched_refl|].
Qed.

(** The port is alive and the right is of the kind wanted. *)
Lemma send_check_live port (once : bool) :
  ps_ports st !! ie_object e = Some port → ip_active port = true →
  (if once then has_once else has_send) (r_type r) = true →
  copyin_send_check sp st name ep e once =
    Ok (sp, put (ptick st) (ie_object e) (set_ip_locked port true), Some (Some (ie_object e))).
Proof.
  intros Hp Ha Hk. assert (has_port (r_type r) = true ∧ r_type r ≠ MACH_PORT_TYPE_RECEIVE) as [Hh Hnr].
  { destruct once; (split; [by eapply has_mono; [|done]|]); by intros Hx; rewrite Hx in Hk. }
  destruct (port_facts Hh) as (port' & Hp' & _ & Hu & Hz & _).
  assert (0 < IE_BITS_UREFS (ie_bits e)) as Hpos by (destruct Hu as [[_ ?]|[[Hx _]|[_ Hx]]]; simpl in *; [lia|done|lia]).
  unfold copyin_send_check.
  destruct Hu as [[[Ht|Ht] _]|[[Ht _]|[Ht _]]]; [| |done|]; simpl in Ht; has_simpl Ht;
    rewrite (proj2 (Z.ltb_lt _ _) Hpos), (proj2 (Z.eqb_neq _ _) Hz); ostep;
    rewrite (check_alive _ _ _ _ _ _ _ Hst He port) by done; ostep; rewrite put_pget; ostep;
    simpl in Hk; rewrite Ht in Hk; by destruct once.
Qed.

(** [COPY_SEND] *)
Lemma copyin_copy_live port deadok :
  ps_ports st !! ie_object e = Some port → ip_active port = true → has_send (r_type r) = true →
  ∃ st', copyin_copy_send sp st name ep e deadok = Ok (sp, st', Some (ie_object e, IP_NULL)) ∧
    copyin_ok MACH_MSG_TYPE_COPY_SEND r sp st'.
Proof.
  intros Hp Ha Hs. assert (has_port (r_type r) = true) as Hh by (by eapply has_mono; [|done]).
  destruct (port_facts Hh) as (port' & Hp' & _ & Hu & Hz & Hl & Hr & _ & Hc).
  assert (port' = port) as -> by congruence. clear Hp'. destruct (Hc Ha) as (Hsr & Hor & Hs0 & _). specialize (Hs0 Hs).
  unfold copyin_copy_send. rewrite (send_check_live port) by done. ostep. rewrite put_pget. ostep. simpl ip_srights.
  rewrite (proj2 (Z.ltb_lt _ _) Hs0). ostep. rewrite put_pmod. ostep.
  rewrite (ip_reference_spec _ _ _ (put_get _ _ _)), put_put by (simpl; lia). ostep.
  rewrite (ip_unlock_spec _ _ _ (put_get _ _ _)), put_put by done. ostep. simpl.
  eexists. split; [done|]. unfold copyin_ok, remains, copied.
  assert (is_dead r = false) as -> by (unfold is_dead; destruct Hu as [[[-> | ->] _]|[[-> _]|[-> _]]]; done).
  change (moves MACH_MSG_TYPE_COPY_SEND) with false. cbv iota. rewrite set_right_same.
  split_and!; [apply left_same| | |touch].
  - match goal with |- rights_ok _ _ (put _ _ ?x) => apply (rights_more _ port x); try done end.
    split; simpl; rewrite ?u32_next; lia.
  - by eapply unlocked_ports_put; [apply Hst|apply tick_touched, touched_refl|].
Qed.

(** [MOVE_SEND], of several user references *)
Lemma move_fewer port :
  ps_ports st !! ie_object e = Some port → ip_active port = true → has_send (r_type r) = true → r_urefs r ≠ 1 →
  ∃ st', (st ← pmod (put (ptick st) (ie_object e) (set_ip_locked port true)) (ie_object e)
        (λ port, set_ip_srights port (u32 (ip_srights port + 1)));
      st ← ip_reference st (ie_object e);
      st ← ip_unlock st (ie_object e); Ok st) = Ok st' ∧
    copyin_ok MACH_MSG_TYPE_MOVE_SEND r (set_bits sp ep (u32 (ie_bits e - 1))) st'.
Proof.
  intros Hp Ha Hs H1. assert (has_port (r_type r) = true) as Hh by (by eapply has_mono; [|done]).
  destruct (port_facts Hh) as (port' & Hp' & Hn & Hu & Hz & Hl & Hr & Hdn & Hc).
  assert (port' = port) as -> by congruence. clear Hp'. destruct (Hc Ha) as (Hsr & Hor & _).
  rewrite put_pmod. ostep.
  rewrite (ip_reference_spec _ _ _ (put_get _ _ _)), put_put by (simpl; lia). ostep.
  rewrite (ip_unlock_spec _ _ _ (put_get _ _ _)), put_put by done. ostep. simpl.
  eexists. split; [done|]. unfold copyin_ok, remains, copied.
  assert ((r_type r = MACH_PORT_TYPE_SEND ∨ r_type r = MACH_PORT_TYPE_SEND_RECEIVE) ∧ 0 < r_urefs r < MACH_PORT_UREFS_MAX)
    as [Ht Hur] by (destruct Hu as [Hx|[[Hx _]|[Hx _]]]; [done|by rewrite Hx in Hs..]).
  assert (is_dead r = false) as -> by (unfold is_dead; by destruct Ht as [-> | ->]).
  change (moves MACH_MSG_TYPE_MOVE_SEND) with true. unfold less_one. rewrite (proj2 (Z.eqb_neq _ _) H1).
  destruct (fewer_spec _ _ _ _ _ _ _ Hst Hd He) as [Hs' Hd']; [simpl in *; lia|].
  split_and!; [done| | |touch].
  - match goal with |- rights_ok _ _ (put _ _ ?x) =>
      apply (rights_change caps tr [MACH_PORT_TYPE_SEND] st _ name r (Some _) port x) end;
      [apply Hst|by eapply entry_held|done..|by apply keeps_same|done| |done|done|].
    + split; simpl; rewrite ?u32_next; destruct Ht as [Ht|Ht]; simpl in Ht; rewrite ?Ht; simpl; lia.
    + intros r' [= <-]. split; [done|]. left. split_and!; [done|left; simpl in *; split; [done|lia]|done|].
      eexists. simpl. rewrite lookup_insert_eq. split; [done|]. by destruct Hn.
  - by eapply unlocked_ports_put; [apply Hst|apply tick_touched, touched_refl|].
Qed.

(** The last user reference next to a receive right *)
Lemma move_last_receive port :
  ps_ports st !! ie_object e = Some port → r_type r = MACH_PORT_TYPE_SEND_RECEIVE → r_urefs r = 1 →
  ∃ st', (st ← ip_reference (put (ptick st) (ie_object e) (set_ip_locked port true)) (ie_object e);
      ip_unlock st (ie_object e)) = Ok st' ∧
    copyin_ok MACH_MSG_TYPE_MOVE_SEND r
      (set_bits sp ep (Z.land (ie_bits e) (Z.lnot (Z.lor IE_BITS_UREFS_MASK MACH_PORT_TYPE_SEND)))) st'.
Proof.
  intros Hp Ht H1. assert (has_port (r_type r) = true) as Hh by (by rewrite Ht).
  destruct (port_facts Hh) as (port' & Hp' & Hn & Hu & Hz & Hl & Hr & Hdn & Hc).
  assert (port' = port) as -> by congruence. clear Hp'.
  pose proof Hn as [_ Hx]. rewrite Ht in Hx. destruct Hx as (Ha & _). destruct (Hc Ha) as (Hsr & Hor & _).
  rewrite (ip_reference_spec _ _ _ (put_get _ _ _)), put_put by (simpl; lia). ostep.
  rewrite (ip_unlock_spec _ _ _ (put_get _ _ _)), put_put by done. ostep. simpl.
  eexists. split; [done|]. unfold copyin_ok, remains, copied, less_one, is_dead. rewrite Ht, H1.
  destruct (less_send_spec _ _ _ _ _ _ _ Hst Hd He Ht) as [Hs' Hd']. simpl.
  split_and!; [done|done| | |touch].
  - match goal with |- rights_ok _ _ (put _ _ ?x) =>
      apply (rights_change caps tr [MACH_PORT_TYPE_SEND] st _ name r (Some _) port x) end;
      [apply Hst|by eapply entry_held|done..|by apply keeps_same|done| |done|done|].
    + split; simpl; simpl in Ht; rewrite ?Ht; simpl; lia.
    + intros r' [= <-]. split; [done|]. left. split_and!; [done|by right; left|done|].
      eexists. simpl. rewrite lookup_insert_eq. split; [done|].
      destruct Hn as [Hreg Hx]. rewrite Ht in Hx. by split.
  - by eapply unlocked_ports_put; [apply Hst|apply tick_touched, touched_refl|].
Qed.

(** The user references go with the name: the request is cancelled. *)
Lemma move_last t port hashed bits :
  ps_ports st !! ie_object e = Some port → ip_active port = true → r_type r = t →
  (t = MACH_PORT_TYPE_SEND ∧ hashed = true ∨ t = MACH_PORT_TYPE_SEND_ONCE ∧ hashed = false) →
  same_high (ie_bits e) bits → IE_BITS_TYPE bits = MACH_PORT_TYPE_NONE →
  ∃ sp1 sp' port', ipc_right_dncancel_macro sp (put (ptick st) (ie_object e) (set_ip_locked port true))
      (ie_object e) name ep = Ok (sp1, put (ptick st) (ie_object e) port', notify_right port (r_request r)) ∧
    (if hashed : bool then ipc_hash_delete sp1 (ie_object e) name ep else Ok sp1) = Ok sp' ∧
    ip_locked port' = true ∧ left_with hs (set_bits (set_object sp' ep IO_NULL) ep bits) caps name ep None ∧
    rights_ok (delete name caps) ((t, ie_object e) :: tr) (put (ptick st) (ie_object e) (set_ip_locked port' false)) ∧
    same_port port (set_ip_locked port' false).
Proof.
  intros Hp Ha Ht Hcase Hhigh Hb.
  assert (has_port (r_type r) = true) as Hh by (by rewrite Ht; destruct Hcase as [[-> _]|[-> _]]).
  destruct (port_facts Hh) as (port0 & Hp' & [Hreg _] & Hu & Hz & Hl & Hr & Hdn & Hc).
  assert (port0 = port) as -> by congruence. clear Hp'. destruct (Hc Ha) as (Hsr & Hor & _).
  set (port1 := set_ip_locked port true).
  pose proof (entry_hand _ _ _ _ _ _ _ Hst Hd He) as Hh0. change (IE_BITS_TYPE (ie_bits e)) with (r_type r) in Hh0.
  destruct (dncancel_macro_spec _ _ _ _ _ _ _ (put (ptick st) (ie_object e) port1) port1 Hh0)
    as (sp2 & port2 & -> & Hh1 & Hcn); [apply put_get|done..|]. rewrite put_put. pose proof Hcn as [[d Hd2] Hw2 _].
  assert (∃ sp3 x, (if hashed then ipc_hash_delete sp2 (ie_object e) name ep else Ok sp2) = Ok sp3 ∧
    hand ({[name]} ∪ hs) sp3 (delete name caps) name ep (IE (ie_bits e) (ie_object e) 0 x) false) as (sp3 & x & Hrun & Hh2).
  { rewrite Ht in Hh1. destruct Hcase as [[-> ->]|[-> ->]].
    - destruct (hand_unhash _ _ _ _ _ _ Hh1) as (sp3 & x & Hrun & Hh2). by exists sp3, x.
    - exists sp2, (ie_index e). split; [done|]. by destruct e. }
  exists sp2, sp3, port2. split_and!; [done|done|by rewrite Hd2| | |by rewrite Hd2].
  - exists (IE bits IO_NULL 0 x). split; [|done].
    apply (hand_set _ _ _ _ _ (IE (ie_bits e) IO_NULL 0 x)); [|done..].
    by apply (hand_set _ _ _ _ _ _ _ _ (ie_bits e) IO_NULL 0 Hh2).
  - apply (rights_change caps tr [t] st _ name r None port (set_ip_locked port2 false));
      [apply Hst|by eapply entry_held|done..| |done| |done|done|done].
    + eapply keeps_trans; [by apply (keeps_same _ port port1)|].
      eapply keeps_trans; [by eapply cancelled_keeps; [..|apply lookup_delete_eq]|by apply keeps_same].
    + rewrite Hd2, Ht. split; simpl; lia.
Qed.

Lemma live_soright msgt port :
  ps_ports st !! ie_object e = Some port → is_dead r = false →
  copied_soright msgt st r = match remains msgt r with Some _ => IP_NULL | None => notify_right port (r_request r) end.
Proof.
  intros Hp Hnd. unfold copied_soright. change (r_object r) with (ie_object e). rewrite Hp, Hnd. by destruct (remains msgt r).
Qed.

Lemma copyin_move_live port deadok :
  ps_ports st !! ie_object e = Some port → ip_active port = true → has_send (r_type r) = true →
  ∃ sp' st', copyin_move_send sp st name ep e deadok =
      Ok (sp', st', Some (ie_object e, copied_soright MACH_MSG_TYPE_MOVE_SEND st r)) ∧
    copyin_ok MACH_MSG_TYPE_MOVE_SEND r sp' st'.
Proof.
  intros Hp Ha Hs. assert (has_port (r_type r) = true) as Hh by (by eapply has_mono; [|done]).
  destruct (port_facts Hh) as (port' & Hp' & [_ Hn] & Hu & _ & Hl & _ & _ & Hc).
  assert (port' = port) as -> by congruence. clear Hp'. destruct (Hc Ha) as (_ & _ & Hs0 & _). specialize (Hs0 Hs).
  assert (r_type r = MACH_PORT_TYPE_SEND ∨ r_type r = MACH_PORT_TYPE_SEND_RECEIVE)
    as Ht by (destruct Hu as [[Hx _]|[[Hx _]|[Hx _]]]; [done|by rewrite Hx in Hs..]).
  assert (is_dead r = false) as Hnd by (unfold is_dead; by destruct Ht as [-> | ->]).
  unfold copyin_move_send. rewrite (send_check_live port) by done. ostep. rewrite put_pget. ostep. simpl ip_srights.
  rewrite (proj2 (Z.ltb_lt _ _) Hs0). ostep. rewrite (live_soright _ port) by done. unfold remains, less_one.
  change (moves MACH_MSG_TYPE_MOVE_SEND) with true. change (IE_BITS_UREFS (ie_bits e)) with (r_urefs r).
  destruct (Z.eqb_spec (r_urefs r) 1) as [H1|H1].
  2: { destruct (move_fewer port Hp Ha Hs H1) as (st' & Hrun & Hok). rewrite put_pmod in *. ostep.
       cbn [mbind outcome_bind] in Hrun. destruct (ip_reference _ _) as [st1|]; [|done]. ostep. simpl in Hrun.
       destruct (ip_unlock st1 _) as [st2|]; [|done]. injection Hrun as ->. ostep. by eexists _, _. }
  destruct Ht as [Ht|Ht].
  - destruct (rebits_clear (ie_bits e) (Z.lor IE_BITS_UREFS_MASK MACH_PORT_TYPE_SEND)) as [Hhigh Hx _]; [done..|].
    destruct (move_last _ port true _ Hp Ha Ht ltac:(by left) Hhigh) as (sp1 & sp2 & port2 & Hcan & Hdel & Hl2 & Hleft & Hok & Hsame).
    { rewrite Hx. change (IE_BITS_TYPE (ie_bits e)) with (r_type r). by rewrite Ht. }
    rewrite !Ht. simpl in Ht. has_simpl Ht. rewrite Hcan. ostep. rewrite Hdel. ostep.
    simpl Z.eqb. ostep. rewrite (ip_unlock_spec _ _ _ (put_get _ _ _)), put_put by done. ostep. cbv iota.
    eexists _, _. split; [done|]. unfold copyin_ok, remains, less_one, copied. rewrite Hnd, H1.
    change (r_type r) with (IE_BITS_TYPE (ie_bits e)). rewrite Ht.
    split_and!; [done|done|by eapply unlocked_ports_put; [apply Hst|apply tick_touched, touched_refl|]|].
    touch.
  - rewrite Ht in Hn. destruct Hn as (_ & Hname & Hspace).
    destruct (move_last_receive port Hp Ht H1) as (st' & Hrun & Hok). rewrite Ht. simpl in Ht. has_simpl Ht.
    unfold assert_receiver. simpl ip_receiver_name. simpl ip_data. rewrite Hname, Hspace, !Z.eqb_refl. ostep.
    destruct (ip_reference _ _) as [st1|]; [|done]. ostep. simpl in Hrun. rewrite Hrun. ostep. by eexists _, _.
Qed.

(** What moving one of several references is to the port. *)
Lemma move_many_run port deadok :
  ps_ports st !! ie_object e = Some port → ip_active port = true → has_send (r_type r) = true → r_urefs r ≠ 1 →
  ∃ sp', copyin_move_send sp st name ep e deadok = Ok (sp', put (ptick st) (ie_object e)
    (set_ip_locked (set_ip_references (set_ip_srights port (ip_srights port + 1)) (ip_references port + 1)) false),
    Some (ie_object e, IP_NULL)).
Proof.
  intros Hp Ha Hs H1. assert (has_port (r_type r) = true) as Hh by (by eapply has_mono; [|done]).
  destruct (port_facts Hh) as (port' & Hp' & _ & _ & _ & Hl & Hr & _ & Hc).
  assert (port' = port) as -> by congruence. clear Hp'. destruct (Hc Ha) as (Hsr & _ & Hs0 & _). specialize (Hs0 Hs).
  unfold copyin_move_send. rewrite (send_check_live port) by done. ostep. rewrite put_pget. ostep. simpl ip_srights.
  rewrite (proj2 (Z.ltb_lt _ _) Hs0). ostep. change (IE_BITS_UREFS (ie_bits e)) with (r_urefs r).
  rewrite (proj2 (Z.eqb_neq _ _) H1), put_pmod. ostep.
  rewrite (ip_reference_spec _ _ _ (put_get _ _ _)), put_put by (simpl; lia). ostep.
  rewrite (ip_unlock_spec _ _ _ (put_get _ _ _)), put_put by done. ostep. simpl. rewrite u32_next by lia. by eexists.
Qed.

(** [MOVE_SEND_ONCE] *)
Lemma copyin_once_live port deadok :
  ps_ports st !! ie_object e = Some port → ip_active port = true → has_once (r_type r) = true →
  ∃ sp' st', copyin_move_send_once sp st name ep e deadok =
      Ok (sp', st', Some (ie_object e, copied_soright MACH_MSG_TYPE_MOVE_SEND_ONCE st r)) ∧
    copyin_ok MACH_MSG_TYPE_MOVE_SEND_ONCE r sp' st'.
Proof.
  intros Hp Ha Hs. assert (has_port (r_type r) = true) as Hh by (by eapply has_mono; [|done]).
  destruct (port_facts Hh) as (port' & Hp' & _ & Hu & _ & _ & _ & _ & Hc).
  assert (port' = port) as -> by congruence. clear Hp'. destruct (Hc Ha) as (_ & _ & _ & Ho). specialize (Ho Hs).
  assert (r_type r = MACH_PORT_TYPE_SEND_ONCE ∧ r_urefs r = 1) as [Ht H1]
    by (destruct Hu as [[[Hx|Hx] _]|[[Hx _]|?]]; [by rewrite Hx in Hs..|done]).
  assert (is_dead r = false) as Hnd by (unfold is_dead; by rewrite Ht).
  unfold copyin_move_send_once. rewrite (send_check_live port) by done. ostep. rewrite put_pget. ostep. simpl ip_sorights.
  rewrite (live_soright _ port) by done. unfold remains, less_one.
  change (moves MACH_MSG_TYPE_MOVE_SEND_ONCE) with true. cbv iota. rewrite H1, Ht.
  destruct (rebits_clear (ie_bits e) MACH_PORT_TYPE_SEND_ONCE) as [Hhigh Hx _]; [done..|].
  destruct (move_last _ port false _ Hp Ha Ht ltac:(by right) Hhigh) as (sp1 & sp2 & port2 & Hcan & [= ->] & Hl2 & Hleft & Hok & Hsame).
  { rewrite Hx. change (IE_BITS_TYPE (ie_bits e)) with (r_type r). by rewrite Ht. }
  simpl in Ht, H1. rewrite Ht, H1, (proj2 (Z.ltb_lt _ _) Ho). simpl Z.eqb. ostep. rewrite Hcan. ostep.
  rewrite (ip_unlock_spec _ _ _ (put_get _ _ _)), put_put by done. ostep.
  eexists _, _. split; [done|]. unfold copyin_ok, remains, less_one, copied. rewrite Hnd.
  change (r_urefs r) with (IE_BITS_UREFS (ie_bits e)). change (r_type r) with (IE_BITS_TYPE (ie_bits e)). rewrite H1, Ht.
  split_and!; [done|done|by eapply unlocked_ports_put; [apply Hst|apply tick_touched, touched_refl|]|].
  touch.
Qed.

(** The cases that do not end with a live port. *)
Lemma copyin_unfold msgt deadok :
  ipc_right_copyin sp st name ep msgt deadok =
    if msgt =? MACH_MSG_TYPE_MAKE_SEND then copyin_make sp st name e make_send_counts
    else if msgt =? MACH_MSG_TYPE_MAKE_SEND_ONCE then copyin_make sp st name e make_send_once_counts
    else if msgt =? MACH_MSG_TYPE_MOVE_RECEIVE then copyin_move_receive sp st name ep e
    else if msgt =? MACH_MSG_TYPE_COPY_SEND then copyin_copy_send sp st name ep e deadok
    else if msgt =? MACH_MSG_TYPE_MOVE_SEND then copyin_move_send sp st name ep e deadok
    else if msgt =? MACH_MSG_TYPE_MOVE_SEND_ONCE then copyin_move_send_once sp st name ep e deadok
    else Fault FPanic.
Proof. unfold ipc_right_copyin, eread. rewrite He. ostep. by rewrite (sd_active _ _ _ (sg_space _ _ _ _ Hst)). Qed.

Definition send_type (msgt : Z) : Prop :=
  msgt = MACH_MSG_TYPE_COPY_SEND ∨ msgt = MACH_MSG_TYPE_MOVE_SEND ∨ msgt = MACH_MSG_TYPE_MOVE_SEND_ONCE.

Lemma copyin_not_live msgt deadok sp1 st1 (o : bool) :
  send_type msgt →
  copyin_send_check sp st name ep e (sends_once msgt) = Ok (sp1, st1, if o then Some None else None) →
  ipc_right_copyin sp st name ep msgt deadok =
    if o then copyin_dead sp1 st1 ep (moves msgt) deadok else Ok (sp1, st1, None).
Proof.
  intros Hm Hc. rewrite copyin_unfold.
  destruct Hm as [-> |[-> | ->]]; simpl Z.eqb; cbv iota;
    unfold copyin_copy_send, copyin_move_send, copyin_move_send_once;
    change (sends_once _) with false in Hc || change (sends_once _) with true in Hc; rewrite Hc; by destruct o.
Qed.

Lemma send_check_none msgt :
  send_type msgt → is_dead r = false → has (r_type r) MACH_PORT_TYPE_SEND_RIGHTS = false →
  copyin_send_check sp st name ep e (sends_once msgt) = Ok (sp, st, None).
Proof.
  intros Hm Hnd Hs. unfold copyin_send_check.
  assert (has (ie_bits e) MACH_PORT_TYPE_DEAD_NAME = false ∧ has (ie_bits e) MACH_PORT_TYPE_SEND_RIGHTS = false) as [-> ->];
    [|done].
  rewrite !(has_type (ie_bits e)) by done. change (IE_BITS_TYPE (ie_bits e)) with (r_type r). split; [|done].
  pose proof (entry_ok _ _ _ _ _ _ _ Hst Hd He) as Hr. fold r in Hr.
  destruct Hr as [(_ & Hu & _)|[(Ht & _)|(Ht & _)]].
  - by destruct Hu as [[[-> | ->] _]|[[-> _]|[-> _]]].
  - unfold is_dead in Hnd. by rewrite Ht in Hnd.
  - by rewrite Ht.
Qed.

Lemma send_check_wrong port msgt :
  send_type msgt → ps_ports st !! ie_object e = Some port → ip_active port = true →
  has (r_type r) MACH_PORT_TYPE_SEND_RIGHTS = true →
  (if sends_once msgt then has_once (r_type r) else has_send (r_type r)) = false →
  copyin_send_check sp st name ep e (sends_once msgt) = Ok (sp, put (ptick st) (ie_object e) port, None).
Proof.
  intros Hm Hp Ha Hsr Hk. assert (has_port (r_type r) = true) as Hh by (by eapply has_mono; [|done]).
  destruct (port_facts Hh) as (port' & Hp' & _ & Hu & Hz & Hl & _ & _ & Hc).
  assert (port' = port) as -> by congruence. destruct (Hc Ha) as (_ & _ & Hs & Ho).
  assert (0 < IE_BITS_UREFS (ie_bits e)) as Hpos.
  { destruct Hu as [[_ ?]|[[Hx _]|[_ Hx]]]; [simpl in *; lia|by rewrite Hx in Hsr|simpl in *; lia]. }
  unfold copyin_send_check.
  destruct Hu as [[[Ht|Ht] _]|[[Ht _]|[Ht _]]]; [| |by rewrite Ht in Hsr|];
    rewrite Ht in Hk; rewrite Ht in Hs, Ho; simpl in Ht; has_simpl Ht;
    rewrite (proj2 (Z.ltb_lt _ _) Hpos), (proj2 (Z.eqb_neq _ _) Hz); ostep;
    rewrite (check_alive _ _ _ _ _ _ _ Hst He port) by done; ostep; rewrite put_pget; ostep;
    destruct (sends_once msgt); try done; simpl ip_srights; simpl ip_sorights;
    rewrite ?(proj2 (Z.ltb_lt _ _) (Hs eq_refl)), ?(proj2 (Z.ltb_lt _ _) (Ho eq_refl)); ostep; simpl Z.eqb; ostep;
    by rewrite (ip_unlock_spec _ _ _ (put_get _ _ _)), put_put, unlocked_idem.
Qed.

Lemma send_check_died port msgt :
  send_type msgt → ps_ports st !! ie_object e = Some port → ip_active port = false → has_port (r_type r) = true →
  ∃ sp1 st1 e1, copyin_send_check sp st name ep e (sends_once msgt) = Ok (sp1, st1, Some None) ∧
    standing_but hs sp1 st1 (set_right caps name (Some (dead_right r))) tr ∧ denotes hs sp1 name ep ∧
    eget sp1 ep = Some e1 ∧ entry_right e1 = dead_right r ∧ touched (ie_object e) st st1 [].
Proof.
  intros Hm Hp Ha Hh. destruct (port_facts Hh) as (_ & _ & _ & _ & Hz & _).
  destruct (check_dead _ _ _ _ _ _ _ Hst Hd He port Hp Ha Hh) as (sp1 & st1 & e1 & Hc & Hrest).
  exists sp1, st1, e1. split; [|done]. unfold copyin_send_check.
  destruct (dead_type _ _ _ _ _ _ _ Hst Hd He port Hp Ha Hh) as [[Ht Hu]|[Ht Hu]]; has_simpl Ht;
    rewrite (proj2 (Z.ltb_lt 0 _)), (proj2 (Z.eqb_neq _ _) Hz) by lia; ostep; by rewrite Hc.
Qed.

(** ** ipc_right_copyin *)

Lemma checked_alive port :
  ps_ports st !! ie_object e = Some port → ip_active port = true → checked st r = r.
Proof.
  intros Hp Ha. unfold checked, alive. change (r_object r) with (ie_object e). rewrite Hp, Ha. by rewrite andb_false_r.
Qed.

Lemma checked_none : has_port (r_type r) = false → checked st r = r.
Proof. intros Hh. unfold checked. by rewrite Hh. Qed.

Definition copyin_post (msgt : Z) (deadok : bool) (run : outcome copyin_result) : Prop :=
  let r' := seen msgt st r in
  ∃ sp' st', run = Ok (sp', st', if legal msgt deadok r' then Some (copied_object r', copied_soright msgt st r') else None) ∧
    touched (ie_object e) st st' [] ∧ unlocked_ports st' ∧
    if legal msgt deadok r' then
      left_with hs sp' caps name ep (remains msgt r') ∧
      rights_ok (set_right caps name (remains msgt r')) (copied msgt r' ++ tr) st'
    else standing_but hs sp' st' (set_right caps name (Some r')) tr ∧ denotes hs sp' name ep.

(** Nothing is done. *)
Lemma post_refused msgt deadok st' :
  seen msgt st r = r → legal msgt deadok r = false →
  touched (ie_object e) st st' [] → unlocked_ports st' → ps_ports st' = ps_ports st →
  copyin_post msgt deadok (Ok (sp, st', None)).
Proof.
  intros Hs Hl Ht Hu Hp. unfold copyin_post. rewrite Hs, Hl. eexists _, _. split; [done|]. split; [done|]. split; [done|].
  rewrite set_right_same. split; [|apply Hd]. split; [apply Hst| |done]. eapply rights_ext; [apply Hst|done|apply Ht].
Qed.

Lemma post_ok msgt deadok sp' st' :
  seen msgt st r = r → legal msgt deadok r = true → is_dead r = false → copyin_ok msgt r sp' st' →
  copyin_post msgt deadok (Ok (sp', st', Some (ie_object e, copied_soright msgt st r))).
Proof.
  intros Hs Hl Hnd (H1 & H2 & H3 & H4). unfold copyin_post. rewrite Hs, Hl. eexists _, _.
  unfold copied_object. rewrite Hnd. done.
Qed.

Lemma post_dead msgt deadok sp1 st1 e1 :
  send_type msgt → let r' := checked st r in
  standing_but hs sp1 st1 (set_right caps name (Some r')) tr → denotes hs sp1 name ep → eget sp1 ep = Some e1 →
  entry_right e1 = r' → is_dead r' = true → touched (ie_object e) st st1 [] →
  copyin_post msgt deadok (copyin_dead sp1 st1 ep (moves msgt) deadok).
Proof.
  intros Hm r' Hst1 Hd1 He1 Her Hdead Hto. unfold is_dead in Hdead. apply Z.eqb_eq in Hdead.
  destruct (copyin_dead_spec _ _ _ _ _ _ _ _ msgt deadok Hst1 Hd1 He1) as (sp2 & -> & Hpost); [by rewrite Her|].
  rewrite Her in Hpost. unfold copyin_post.
  assert (seen msgt st r = r') as -> by (unfold seen; by destruct Hm as [-> |[-> | ->]]).
  assert (legal msgt deadok r' = deadok) as ->.
  { unfold legal, is_dead. rewrite Hdead. by destruct Hm as [-> |[-> | ->]]. }
  unfold copied_object, copied, copied_soright, is_dead. rewrite Hdead.
  eexists _, st1. split.
  { destruct deadok; [|done]. change (MACH_PORT_TYPE_DEAD_NAME =? MACH_PORT_TYPE_DEAD_NAME) with true. cbv iota.
    by destruct (remains msgt r'), (ps_ports st !! r_object r'). }
  split_and!; [done|apply Hst1|]. destruct deadok; [|by subst sp2].
  destruct Hpost as [Hleft Hok]. rewrite set_right_twice in Hok. split; [|done].
  unfold left_with in *. destruct (remains msgt r'); [by rewrite set_right_twice in Hleft|].
  simpl set_right in Hleft. by rewrite delete_insert_eq, delete_delete_eq in Hleft.
Qed.

Lemma copyin_send_spec msgt deadok :
  send_type msgt → copyin_post msgt deadok (ipc_right_copyin sp st name ep msgt deadok).
Proof.
  intros Hm. assert (seen msgt st r = checked st r ∧ makes msgt = false) as [Hseen Hmk]
    by (by destruct Hm as [-> |[-> | ->]]).
  pose proof (entry_ok _ _ _ _ _ _ _ Hst Hd He) as Hr. fold r in Hr.
  destruct (is_dead r) eqn:Hdead.
  { assert (r_type r = MACH_PORT_TYPE_DEAD_NAME) as Ht by (by apply Z.eqb_eq).
    assert (checked st r = r) as Hck by (apply checked_none; by rewrite Ht).
    rewrite (copyin_not_live msgt deadok sp st true Hm).
    - apply (post_dead msgt deadok sp st e Hm); rewrite ?Hck, ?set_right_same; done || apply touched_refl.
    - unfold copyin_send_check. simpl in Ht. by has_simpl Ht. }
  destruct (has_port (r_type r)) eqn:Hh.
  2: { assert (has (r_type r) MACH_PORT_TYPE_SEND_RIGHTS = false) as Hns
         by (apply not_true_is_false; intros Hx%(has_mono _ _ MACH_PORT_TYPE_PORT_RIGHTS); [by unfold has_port in Hh; rewrite Hh in Hx|done]).
       rewrite (copyin_not_live msgt deadok sp st false Hm) by (by apply send_check_none).
       apply post_refused; [by rewrite Hseen, checked_none| |apply touched_refl|apply Hst|done].
       unfold legal. rewrite Hmk, Hdead. destruct (sends_once msgt); apply not_true_is_false; intros Hx;
         by apply (has_mono _ _ MACH_PORT_TYPE_PORT_RIGHTS) in Hx; [unfold has_port in Hh; rewrite Hh in Hx|]. }
  destruct (port_facts Hh) as (port & Hp & _ & _ & _ & Hl & _). destruct (ip_active port) eqn:Ha.
  2: { destruct (send_check_died port msgt Hm Hp Ha Hh) as (sp1 & st1 & e1 & Hc & Hst1 & Hd1 & He1 & Her & Hto).
       rewrite (copyin_not_live msgt deadok sp1 st1 true Hm Hc).
       assert (checked st r = dead_right r) as Hck.
       { unfold checked, alive. rewrite Hh. change (r_object r) with (ie_object e). by rewrite Hp, Ha. }
       apply (post_dead msgt deadok sp1 st1 e1 Hm); by rewrite ?Hck. }
  pose proof (checked_alive port Hp Ha) as Hck. rewrite Hck in Hseen.
  assert (legal msgt deadok r = if sends_once msgt then has_once (r_type r) else has_send (r_type r)) as Hlegal
    by (unfold legal; by rewrite Hmk, Hdead).
  destruct (if sends_once msgt then has_once (r_type r) else has_send (r_type r)) eqn:Hk.
  - rewrite copyin_unfold. destruct Hm as [-> |[-> | ->]]; simpl Z.eqb; cbv iota; simpl in Hk.
    + destruct (copyin_copy_live port deadok Hp Ha Hk) as (st' & -> & Hok).
      change IP_NULL with (copied_soright MACH_MSG_TYPE_COPY_SEND st r) at 1. by apply post_ok.
    + destruct (copyin_move_live port deadok Hp Ha Hk) as (sp' & st' & -> & Hok). by apply post_ok.
    + destruct (copyin_once_live port deadok Hp Ha Hk) as (sp' & st' & -> & Hok). by apply post_ok.
  - destruct (has (r_type r) MACH_PORT_TYPE_SEND_RIGHTS) eqn:Hsr.
    + rewrite (copyin_not_live msgt deadok sp _ false Hm) by (by apply (send_check_wrong port)).
      apply post_refused; [done..|touch| |simpl; by apply insert_id].
      by eapply unlocked_ports_put; [apply Hst|apply tick_touched, touched_refl|].
    + rewrite (copyin_not_live msgt deadok sp st false Hm) by (by apply send_check_none).
      apply post_refused; [done..|apply touched_refl|apply Hst|done].
Qed.

Lemma copyin_make_post msgt deadok :
  msgt = MACH_MSG_TYPE_MAKE_SEND ∨ msgt = MACH_MSG_TYPE_MAKE_SEND_ONCE →
  copyin_post msgt deadok (ipc_right_copyin sp st name ep msgt deadok).
Proof.
  intros Hm. assert (seen msgt st r = r ∧ legal msgt deadok r = has (r_type r) MACH_PORT_TYPE_RECEIVE) as [Hs Hl]
    by (by destruct Hm as [-> | ->]).
  assert (∃ make, ipc_right_copyin sp st name ep msgt deadok = copyin_make sp st name e make ∧
    ((msgt = MACH_MSG_TYPE_MAKE_SEND ∧ make = make_send_counts) ∨
     (msgt = MACH_MSG_TYPE_MAKE_SEND_ONCE ∧ make = make_send_once_counts))) as (make & -> & Hmake).
  { rewrite copyin_unfold. destruct Hm as [-> | ->]; simpl Z.eqb; eexists; (split; [done|]); tauto. }
  destruct (has (r_type r) MACH_PORT_TYPE_RECEIVE) eqn:Hrcv.
  - destruct (copyin_make_spec msgt make Hmake Hrcv) as (st' & -> & Hok).
    assert (copied_soright msgt st r = IP_NULL) as <- by (by destruct Hm as [-> | ->]). apply post_ok; try done.
    apply not_true_is_false. intros Hx%Z.eqb_eq. by rewrite Hx in Hrcv.
  - unfold copyin_make. rewrite has_type by done. change (IE_BITS_TYPE (ie_bits e)) with (r_type r). rewrite Hrcv.
    apply post_refused; [done..|apply touched_refl|apply Hst|done].
Qed.
End copyin.

Lemma right_copyin_spec hs sp st caps tr name ep e msgt deadok `{!outside name hs} :
  standing_but hs sp st caps tr → denotes hs sp name ep → eget sp ep = Some e →
  (∀ port, ps_ports st !! ie_object e = Some port → has_room port) →
  msgt ∈ [MACH_MSG_TYPE_MAKE_SEND; MACH_MSG_TYPE_MAKE_SEND_ONCE; MACH_MSG_TYPE_COPY_SEND;
    MACH_MSG_TYPE_MOVE_SEND; MACH_MSG_TYPE_MOVE_SEND_ONCE] →
  let r := seen msgt st (entry_right e) in
  ∃ sp' st', ipc_right_copyin sp st name ep msgt deadok =
      Ok (sp', st', if legal msgt deadok r then Some (copied_object r, copied_soright msgt st r) else None) ∧
    touched (ie_object e) st st' [] ∧ unlocked_ports st' ∧
    if legal msgt deadok r then
      left_with hs sp' caps name ep (remains msgt r) ∧
      rights_ok (set_right caps name (remains msgt r)) (copied msgt r ++ tr) st'
    else standing_but hs sp' st' (set_right caps name (Some r)) tr ∧ denotes hs sp' name ep.
Proof.
  intros Hst Hd He Hroom Hm. change (copyin_post (hs:=hs) st caps tr name ep e msgt deadok (ipc_right_copyin sp st name ep msgt deadok)).
  repeat rewrite elem_of_cons in Hm.
  destruct Hm as [Hm|[Hm|[Hm|[Hm|[Hm|[]%elem_of_nil]]]]].
  1, 2: by apply (copyin_make_post sp); [..|subst; tauto].
  all: apply (copyin_send_spec sp); [done..|unfold send_type; tauto].
Qed.

(** C4. ipc_right_copyin of the send types (make, copy and move a send
    right, make and move a send-once right) never fails an assertion; it is
    refused exactly when the right under the name does not allow it, and
    otherwise puts one right into transit, leaves the name with what is
    left of it, returns the dead-name request that went, and keeps the
    account of rights, references and counts. *)
Theorem right_copyin_correct sp st caps tr name ep e msgt deadok :
  standing sp st caps tr → denotes ∅ sp name ep → eget sp ep = Some e →
  (∀ port, ps_ports st !! ie_object e = Some port → has_room port) →
  msgt ∈ [MACH_MSG_TYPE_MAKE_SEND; MACH_MSG_TYPE_MAKE_SEND_ONCE; MACH_MSG_TYPE_COPY_SEND;
    MACH_MSG_TYPE_MOVE_SEND; MACH_MSG_TYPE_MOVE_SEND_ONCE] →
  let r := seen msgt st (entry_right e) in
  ∃ sp' st', ipc_right_copyin sp st name ep msgt deadok =
      Ok (sp', st', if legal msgt deadok r then Some (copied_object r, copied_soright msgt st r) else None) ∧
    touched (ie_object e) st st' [] ∧ unlocked_ports st' ∧
    if legal msgt deadok r then
      left_with ∅ sp' caps name ep (remains msgt r) ∧
      rights_ok (set_right caps name (remains msgt r)) (copied msgt r ++ tr) st'
    else standing sp' st' (set_right caps name (Some r)) tr ∧ denotes ∅ sp' name ep.
Proof. intros Hst Hd He Hr Hm. exact (right_copyin_spec ∅ _ _ _ _ _ _ _ _ _ Hst Hd He Hr Hm). Qed.

(** ** ipc_right_copyout *)

(** The entry a right goes to: a new one, or the one the space has for the
    port already. *)
Definition target (sp : istate) (caps : rights_t) (name : Z) (ep : eptr) (e : ipc_entry) (p : Z) (o : option right) : Prop :=
  match o with
  | None => hand {[name]} sp caps name ep e false ∧ entry_right e = Right MACH_PORT_TYPE_NONE 0 p 0
  | Some r => spaced ∅ sp caps ∧ denotes ∅ sp name ep ∧ eget sp ep = Some e ∧ entry_right e = r ∧ r_object r = p
  end.

(** No more user references fit. *)
Definition pegged (o : option right) : bool :=
  match o with
  | Some r => has_send (r_type r) && (r_urefs r + 1 =? MACH_PORT_UREFS_MAX)
  | None => false
  end.

(** The right afterwards. *)
Definition gains (t p : Z) (o : option right) : right :=
  match o with
  | None => Right t 1 p 0
  | Some r => if pegged o then r
              else Right (Z.lor (r_type r) MACH_PORT_TYPE_SEND) (r_urefs r + 1) (r_object r) (r_request r)
  end.

Section copyout.
Context (sp : istate) (st : pstate) (caps : rights_t) (tr : transit_t) (name : Z) (ep : eptr) (e : ipc_entry).
Context (p t : Z) (port : ipc_port) (o : option right).
Hypothesis Htarget : target sp caps name ep e p o.
Hypothesis Hok : rights_ok caps ((t, p) :: tr) st.
Hypothesis Hp : ps_ports st !! p = Some port.
Hypothesis Hlock : ip_locked port = true.
Hypothesis Hact : ip_active port = true.
Hypothesis Hvalid : IO_VALID p = true.
Hypothesis Hothers : ∀ q port, q ≠ p → ps_ports st !! q = Some port → ip_locked port = false.
Hypothesis Ht : t = MACH_PORT_TYPE_SEND ∨ t = MACH_PORT_TYPE_SEND_ONCE ∧ o = None.

(** The right goes nowhere: only the lock is given back. *)
Lemma out_has : has_port t = true ∧ p ≠ IO_NULL.
Proof.
  assert (has_port t = true) as Hh by (by destruct Ht as [-> |[-> _]]). split; [done|].
  by eapply ra_transit; [apply Hok|left|].
Qed.

Lemma out_counts :
  1 ≤ ip_references port ≤ IO_MAX_REFERENCES ∧ port_dn_wf port ∧ (t = MACH_PORT_TYPE_SEND → 1 ≤ ip_srights port) ∧
  (t = MACH_PORT_TYPE_SEND_ONCE → 1 ≤ ip_sorights port) ∧ ip_srights port < 2 ^ 32 ∧ ip_sorights port < 2 ^ 32.
Proof.
  destruct (ra_port _ _ _ Hok _ _ Hp) as [Hdn Hrefs Hs Ho]. specialize (Hs Hact). specialize (Ho Hact). simpl in *.
  destruct out_has as [Hh _]. unfold covers in *. rewrite Hh, Z.eqb_refl in *. simpl in *.
  pose proof (tally_nonneg has_port caps p). pose proof (carried_nonneg has_port tr p).
  pose proof (tally_nonneg has_send caps p). pose proof (carried_nonneg has_send tr p).
  pose proof (tally_nonneg has_once caps p). pose proof (carried_nonneg has_once tr p).
  split_and!; try done; try lia; intros ->; simpl in *; lia.
Qed.

Lemma out_touched_put port' : same_port port port' → touched p st (put st p port') [].
Proof. intros Hs. by eapply put_touched; [apply touched_refl|..]. Qed.

Lemma out_unlocked port' : ip_locked port' = false → unlocked_ports (put st p port').
Proof.
  intros Hl q port0 Hq. simpl in Hq. destruct (decide (q = p)) as [->|].
  - rewrite lookup_insert_eq in Hq. by injection Hq as <-.
  - rewrite lookup_insert_ne in Hq by done. by apply (Hothers q).
Qed.

(** The lock is given back. *)
Lemma out_unlock : rights_ok caps ((t, p) :: tr) (put st p (set_ip_locked port false)).
Proof.
  destruct out_counts as (Hrefs & Hdn & _ & _ & Hs & Ho).
  apply (rights_recount caps tr [t] [t] st _ p port (set_ip_locked port false)); try done.
  - apply out_has.
  - split; simpl; lia.
Qed.

Definition out_done (sp' : istate) (st' : pstate) : Prop :=
  spaced ∅ sp' (set_right caps name (Some (gains t p o))) ∧
  rights_ok (set_right caps name (Some (gains t p o))) tr st' ∧ unlocked_ports st' ∧ touched p st st' [].

(** A new name. *)
Lemma out_new bits sp1 x :
  o = None → hand {[name]} sp1 caps name ep (set_ie_index e x) (t =? MACH_PORT_TYPE_SEND) →
  rebits (ie_bits e) bits t 1 → (t = MACH_PORT_TYPE_SEND → ip_receiver port ≠ space_addr) →
  out_done (set_bits sp1 ep bits) (put st p (set_ip_locked port false)).
Proof.
  intros Ho Hh1 [Hhigh Hty Hur] Hrcv. unfold out_done, gains. rewrite Ho in Htarget |- *. destruct Htarget as [Hh Her].
  assert (ie_object e = p ∧ ie_request e = 0) as [Hob Hrq] by (by injection Her).
  assert (caps !! name = None) as Hn.
  { destruct (caps !! name) eqn:Hc; [|done].
    destruct (sd_dom _ _ _ (hd_spaced _ _ _ _ _ _ _ Hh) name) as [_ Hx]; [by rewrite Hc|set_solver]. }
  assert (delete name caps = caps) as Hdel by (by apply delete_id).
  simpl set_right. rewrite Hdel.
  assert (hand {[name]} (set_bits sp1 ep bits) caps name ep (IE bits p 0 x) (t =? MACH_PORT_TYPE_SEND)) as Hh2
    by (apply (hand_set _ _ _ _ _ _ _ _ bits p 0 Hh1); [by destruct e; simpl in *; subst|done|done]).
  rewrite <-Hty in Hh2 at 1. apply hand_put_last in Hh2 as [Hs _].
  2: { simpl. rewrite Hty. by destruct Ht as [-> |[-> _]]. }
  unfold entry_right in Hs. simpl in Hs. rewrite Hty, Hur in Hs.
  destruct out_has as [Hhas Hz].
  split_and!; [done| |by apply out_unlocked|by apply out_touched_put].
  apply rights_put; [by apply out_unlock|done|]. left. split_and!; [done| |done|].
  - destruct Ht as [-> |[-> _]]; [left; split; [by left|]; unfold MACH_PORT_UREFS_MAX; simpl; lia|by right; right].
  - eexists. simpl. rewrite lookup_insert_eq. split; [done|]. split; [by intros []|].
    destruct Ht as [-> |[-> _]]; simpl; [|done]. intros _ _. by apply Hrcv.
Qed.

(** The name has the send right already, or the receive right. *)
Lemma out_more bits port' r :
  o = Some r → rebits (ie_bits e) bits (Z.lor (r_type r) MACH_PORT_TYPE_SEND) (r_urefs r + 1) →
  pegged o = false → has_port (r_type r) = true → r_type r ≠ MACH_PORT_TYPE_SEND_ONCE →
  keeps caps port port' → ip_locked port' = false → port_dn_wf port' →
  recounted [r_type r; MACH_PORT_TYPE_SEND] [Z.lor (r_type r) MACH_PORT_TYPE_SEND] port port' →
  out_done (set_bits sp ep bits) (put st p port').
Proof.
  intros Ho [Hhigh Hty Hur] Hpeg Hh Hno Hk Hl Hdn Hrc. pose proof Htarget as Htg. rewrite Ho in Htg.
  destruct Htg as (Hs & Hd & He & Her & Hob).
  assert (t = MACH_PORT_TYPE_SEND) as Hts by (by destruct Ht as [? |[_ Hx]]; [|rewrite Hx in Ho]).
  destruct (spaced_entry _ _ _ _ _ _ Hs Hd (not_elem_of_empty name) He) as [Hn _]. rewrite Her in Hn.
  destruct (ra_right _ _ _ Hok name r Hn) as [(_ & Hu & Hz & port0 & Hp0 & Hnp)|[(Hx & _)|(Hx & _)]];
    [|by rewrite Hx in Hh..].
  assert (port0 = port) as -> by congruence. unfold out_done. rewrite Ho in Hpeg |- *. unfold gains. rewrite Hpeg.
  set (r' := Right _ _ _ _).
  assert (r_type r = MACH_PORT_TYPE_RECEIVE ∨ has_send (r_type r) = true) as Hcase
    by (destruct Hu as [[[-> | ->] _]|[[? _]|[? _]]]; [by right|by right|by left|done]).
  assert (urefs_of r') as Hu'.
  { unfold pegged in Hpeg. destruct Hu as [[Hc Hlt]|[[Hc H0]|[Hc _]]]; [| |done].
    - left. assert (has_send (r_type r) = true) as Hx by (by destruct Hc as [-> | ->]). rewrite Hx in Hpeg.
      simpl in *. apply Z.eqb_neq in Hpeg. split; [by destruct Hc as [-> | ->]; [left|right]|lia].
    - left. unfold r', MACH_PORT_UREFS_MAX. rewrite Hc, H0. simpl. split; [by right|lia]. }
  split_and!; [| |by apply out_unlocked|by apply out_touched_put; destruct Hk].
  - assert (hand {[name]} (set_bits sp ep bits) (delete name caps) name ep (IE bits p (r_request r) (ie_index e))
      (Z.lor (r_type r) MACH_PORT_TYPE_SEND =? MACH_PORT_TYPE_SEND)) as Hh2.
    { assert ((Z.lor (r_type r) MACH_PORT_TYPE_SEND =? MACH_PORT_TYPE_SEND) = (IE_BITS_TYPE (ie_bits e) =? MACH_PORT_TYPE_SEND)) as ->.
      { change (IE_BITS_TYPE (ie_bits e)) with (r_type (entry_right e)). rewrite Her.
        by destruct Hu as [[[-> | ->] _]|[[-> _]|[? _]]]. }
      pose proof (spaced_take ∅ sp caps name ep e Hs Hd (not_elem_of_empty name) He) as Hh1. rewrite union_empty_r_L in Hh1.
      apply (hand_set _ _ _ _ _ _ _ _ bits p (r_request r) Hh1); [|done|].
      - rewrite <-Hob, <-Her. by destruct e.
      - intros _. by rewrite <-Hob, <-Her. }
    rewrite <-Hty in Hh2 at 1. apply hand_put_last in Hh2 as [Hs2 _].
    2: { simpl. rewrite Hty. by destruct Hu as [[[-> | ->] _]|[[-> _]|[? _]]]. }
    unfold entry_right in Hs2. simpl in Hs2. rewrite Hty, Hur in Hs2. simpl set_right. unfold r'. by rewrite Hob.
  - apply (rights_put _ _ _ _ r'); [|apply lookup_delete_eq|].
    + simpl. rewrite Hob. apply (rights_recount (delete name caps) tr [r_type r; MACH_PORT_TYPE_SEND]
        [Z.lor (r_type r) MACH_PORT_TYPE_SEND] st _ p port port'); try done.
      * simpl. rewrite <-Hob at 1. rewrite <-Hts. by apply rights_take.
      * by rewrite <-Hob.
      * destruct Hk as [H1 H2 H3 H4]. split; [done..|]. intros m r0 [_ Hm]%lookup_delete_Some. by eapply H4.
    + left. split_and!; [|done|done|].
      * unfold r'. simpl r_type. by destruct Hu as [[[-> | ->] _]|[[-> _]|[? _]]].
      * exists port'. simpl. rewrite Hob, lookup_insert_eq. split; [done|].
        apply (keeps_right _ _ _ _ _ Hk Hn) in Hnp. destruct Hnp as [Hreg Hx]. split; [done|].
        unfold r'. simpl r_type. destruct Hu as [[[Hc|Hc] _]|[[Hc _]|[? _]]]; rewrite ?Hc in *; try done.
Qed.

Lemma same_high_trans b1 b2 b3 : same_high b1 b2 → same_high b2 b3 → same_high b1 b3.
Proof. intros [? ? ?] [? ? ?]. split; [congruence..|auto]. Qed.

(** [(bits | MACH_PORT_TYPE_SEND) + 1] *)
Lemma rebits_gain b :
  IE_BITS_UREFS b + 1 < 2 ^ 16 →
  rebits b (u32 (Z.lor b MACH_PORT_TYPE_SEND + 1)) (Z.lor (IE_BITS_TYPE b) MACH_PORT_TYPE_SEND) (IE_BITS_UREFS b + 1).
Proof.
  intros Hu. destruct (rebits_set b MACH_PORT_TYPE_SEND) as [H1 H2 H3]; [done..|].
  rewrite (eq_refl : IE_BITS_UREFS MACH_PORT_TYPE_SEND = 0), Z.lor_0_r in H3.
  destruct (rebits_add (Z.lor b MACH_PORT_TYPE_SEND) 1) as [G1 G2 G3];
    [rewrite H3; assert (0 ≤ Z.land b IE_BITS_UREFS_MASK) by (apply Z.land_nonneg; by right); unfold IE_BITS_UREFS in *; lia|].
  split; [by eapply same_high_trans|by rewrite G2|by rewrite G3, H3].
Qed.

(** The way to the case of the type. *)
Lemma copyout_unfold msgt overflow :
  ipc_right_copyout sp st name ep msgt overflow p =
    if msgt =? MACH_MSG_TYPE_PORT_SEND_ONCE then
      kassert (IE_BITS_TYPE (ie_bits e) =? MACH_PORT_TYPE_NONE);;
      kassert (0 <? ip_sorights port);;
      st' ← ip_unlock st p;
      Ok (set_bits sp ep (Z.lor (ie_bits e) (Z.lor MACH_PORT_TYPE_SEND_ONCE 1)), st', KERN_SUCCESS)
    else if msgt =? MACH_MSG_TYPE_PORT_SEND then copyout_send sp st name ep (ie_bits e) p overflow
    else if msgt =? MACH_MSG_TYPE_PORT_RECEIVE then copyout_receive sp st name ep (ie_bits e) p
    else Fault FPanic.
Proof.
  assert (eget sp ep = Some e ∧ ie_object e = p) as [He Hob].
  { destruct o; simpl in Htarget; [destruct Htarget as (_ & _ & ? & <- & ?)|destruct Htarget as [Hh Her]; injection Her as ? ? ? ?];
      [done|by split; [apply Hh|]]. }
  unfold ipc_right_copyout, eread, pget. rewrite He. ostep. rewrite Hvalid, Hp. ostep. by rewrite Hact, Hob, Z.eqb_refl.
Qed.

Lemma out_ip_unlock : ip_unlock st p = Ok (put st p (set_ip_locked port false)).
Proof. by apply ip_unlock_spec. Qed.

(** A send-once right. *)
Lemma copyout_once overflow :
  t = MACH_PORT_TYPE_SEND_ONCE → o = None →
  ∃ sp' st', ipc_right_copyout sp st name ep MACH_MSG_TYPE_PORT_SEND_ONCE overflow p = Ok (sp', st', KERN_SUCCESS) ∧
    out_done sp' st'.
Proof.
  intros Hto Ho. pose proof Htarget as Htg. rewrite Ho in Htg. destruct Htg as [Hh Her]. injection Her as Hty Hur Hob Hrq.
  destruct out_counts as (_ & _ & _ & Hso & _). specialize (Hso Hto).
  rewrite copyout_unfold, Hty, (proj2 (Z.ltb_lt _ _)), out_ip_unlock by lia. simpl Z.eqb. ostep. cbv iota.
  eexists _, _. split; [done|]. apply (out_new _ sp (ie_index e)); [done| | |by rewrite Hto].
  - rewrite Hto. by destruct e.
  - destruct (rebits_set (ie_bits e) (Z.lor MACH_PORT_TYPE_SEND_ONCE 1)) as [H1 H2 H3]; [done..|].
    rewrite Hty in H2. rewrite Hur in H3. by rewrite Hto.
Qed.

(** A send right, under a new name. *)
Lemma copyout_send_new overflow :
  t = MACH_PORT_TYPE_SEND → o = None → ip_receiver port ≠ space_addr →
  (∀ n r, caps !! n = Some r → r_object r = p → r_type r ≠ MACH_PORT_TYPE_SEND) →
  ∃ sp' st', ipc_right_copyout sp st name ep MACH_MSG_TYPE_PORT_SEND overflow p = Ok (sp', st', KERN_SUCCESS) ∧
    out_done sp' st'.
Proof.
  intros Hto Ho Hrcv Hfresh. pose proof Htarget as Htg. rewrite Ho in Htg. destruct Htg as [Hh Her].
  injection Her as Hty Hur Hob Hrq. destruct out_counts as (_ & _ & Hs & _). specialize (Hs Hto). destruct out_has as [_ Hz].
  destruct (hand_hash _ _ _ _ _ _ Hh) as (sp1 & x & Hins & Hh1); [by rewrite Hob| |].
  { intros n ep' Hd' Hrev Hobj.
    pose proof (sd_wf _ _ _ (hd_spaced _ _ _ _ _ _ _ Hh)) as Hw. destruct (decide (n = name)) as [->|Hn].
    { pose proof (denotes_unique _ _ _ _ _ Hw Hd' (hd_denotes _ _ _ _ _ _ _ Hh)) as ->.
      by apply (hd_reversed _ _ _ _ _ _ _ Hh) in Hrev. }
    destruct (denotes_eget _ _ _ _ Hw Hd') as [e' He']. rewrite (entry_object_get _ _ _ He') in Hobj.
    assert (n ∉ ({[name]} : gset Z)) as Hni by set_solver.
    destruct (spaced_entry _ _ _ _ _ _ (hd_spaced _ _ _ _ _ _ _ Hh) Hd' Hni He') as [Hc _].
    apply (Hfresh _ _ Hc); [simpl; congruence|]. by apply (reversed_type _ _ _ _ _ Hw Hd' He' Hni). }
  rewrite copyout_unfold. simpl Z.eqb. cbv iota. unfold copyout_send, pget. rewrite Hp. ostep.
  rewrite (proj2 (Z.ltb_lt 0 (ip_srights port))) by lia. ostep. has_simpl Hty. rewrite ?Hty, ?Hur. simpl Z.eqb. ostep. rewrite out_ip_unlock. ostep.
  rewrite Hob in Hins. rewrite Hins. ostep. eexists _, _. split; [done|].
  apply (out_new _ sp1 x); [done|by rewrite Hto| |done].
  pose proof (rebits_gain (ie_bits e)) as Hg. rewrite Hty, Hur in Hg. rewrite Hto. apply Hg. lia.
Qed.

(** The right the name has already. *)
Lemma out_existing r :
  o = Some r → has_port (r_type r) = true →
  target sp caps name ep e p (Some r) ∧ r = entry_right e ∧ caps !! name = Some r ∧ urefs_of r ∧ right_ok name r st.
Proof.
  intros Ho Hh. pose proof Htarget as Htg. rewrite Ho in Htg. split; [done|]. destruct Htg as (Hs & Hd & He & Her & Hob).
  destruct (spaced_entry _ _ _ _ _ _ Hs Hd (not_elem_of_empty name) He) as [Hn _]. rewrite Her in Hn.
  pose proof (ra_right _ _ _ Hok name r Hn) as Hr. split_and!; [done..| |done].
  by destruct Hr as [(_ & Hu & _)|[(Hx & _)|(Hx & _)]]; [|rewrite Hx in Hh..].
Qed.

(** The name has the receive right, and gets the send right. *)
Lemma copyout_send_receive overflow r :
  o = Some r → r_type r = MACH_PORT_TYPE_RECEIVE →
  ∃ sp' st', ipc_right_copyout sp st name ep MACH_MSG_TYPE_PORT_SEND overflow p = Ok (sp', st', KERN_SUCCESS) ∧
    out_done sp' st'.
Proof.
  intros Ho Hty. destruct (out_existing r Ho) as (Htg & -> & Hn & Hu & Hr); [by rewrite Hty|].
  destruct out_counts as (Hrefs & Hdn & Hs & _ & Hsm & Hom).
  assert (t = MACH_PORT_TYPE_SEND) as Hto by (by destruct Ht as [? |[_ Hx]]; [|rewrite Hx in Ho]). specialize (Hs Hto).
  assert (IE_BITS_UREFS (ie_bits e) = 0) as Hur by (by destruct Hu as [[[Hc|Hc] _]|[[_ ?]|[Hc _]]]; [rewrite Hc in Hty..| |rewrite Hc in Hty]).
  rewrite copyout_unfold. simpl Z.eqb. cbv iota. unfold copyout_send, pget. rewrite Hp. ostep.
  rewrite (proj2 (Z.ltb_lt 0 (ip_srights port))) by lia. ostep. simpl in Hty. has_simpl Hty. rewrite ?Hty, ?Hur. simpl Z.eqb. ostep.
  rewrite (ip_release_spec _ _ _ Hp) by lia. ostep.
  rewrite (ip_unlock_spec _ _ _ (put_get _ _ _)), put_put by done. ostep. eexists _, _. split; [done|].
  apply (out_more _ _ _ Ho); try done; simpl; rewrite ?Hty, ?Hur; try done.
  - pose proof (rebits_gain (ie_bits e)) as Hg. rewrite Hty, Hur in Hg. apply Hg. lia.
  - unfold pegged. rewrite Ho. simpl. by rewrite Hty.
  - split; simpl; lia.
Qed.

(** The name has the send right with all the references that fit: the right
    is given up. *)
Lemma out_pegged r :
  o = Some r → pegged o = true → caps !! name = Some r → t = MACH_PORT_TYPE_SEND → 1 < ip_srights port →
  out_done sp (put st p (set_ip_locked (set_ip_references (set_ip_srights port (ip_srights port - 1)) (ip_references port - 1)) false)).
Proof.
  intros Ho Hpeg Hn Hto Hs1. destruct out_counts as (Hrefs & Hdn & _ & _ & Hsm & Hom). unfold out_done, gains.
  rewrite Ho in Hpeg, Htarget |- *. rewrite Hpeg. simpl set_right. rewrite insert_delete_id by done.
  split_and!; [apply Htarget| |by apply out_unlocked|by apply out_touched_put].
  match goal with |- rights_ok _ _ (put _ _ ?x) => apply (rights_recount caps tr [t] [] st _ p port x) end; try done.
  - apply out_has.
  - rewrite Hto. split; simpl; lia.
Qed.

(** The name has the send right. *)
Lemma more_facts r :
  o = Some r → has_send (r_type r) = true →
  r = entry_right e ∧ caps !! name = Some r ∧ t = MACH_PORT_TYPE_SEND ∧ 1 < ip_srights port < 2 ^ 32 ∧
  0 < IE_BITS_UREFS (ie_bits e) < MACH_PORT_UREFS_MAX ∧ has (ie_bits e) MACH_PORT_TYPE_SEND = true ∧
  (r_type r = MACH_PORT_TYPE_SEND ∨ r_type r = MACH_PORT_TYPE_SEND_RECEIVE).
Proof.
  intros Ho Hsend. destruct (out_existing r Ho) as (Htg & -> & Hn & Hu & Hr); [by eapply has_mono; [|done]|].
  destruct out_counts as (Hrefs & Hdn & Hs & _ & Hsm & Hom).
  assert (t = MACH_PORT_TYPE_SEND) as Hto by (by destruct Ht as [? |[_ Hx]]; [|rewrite Hx in Ho]). specialize (Hs Hto).
  assert (1 < ip_srights port) as Hs1.
  { destruct (ra_port _ _ _ Hok _ _ Hp) as [_ _ Hx _]. specialize (Hx Hact). rewrite Hto in Hx. simpl in Hx.
    pose proof (tally_some has_send caps name (entry_right e) p Hn). destruct Htg as (_ & _ & _ & _ & Hob).
    pose proof (carried_nonneg has_send tr p). unfold covers in *. rewrite Hsend, Hob, Z.eqb_refl in *. simpl in *. lia. }
  assert ((r_type (entry_right e) = MACH_PORT_TYPE_SEND ∨ r_type (entry_right e) = MACH_PORT_TYPE_SEND_RECEIVE) ∧
    0 < IE_BITS_UREFS (ie_bits e) < MACH_PORT_UREFS_MAX) as [Hty Hpos].
  { destruct Hu as [?|[[Hc _]|[Hc _]]]; [done|by rewrite Hc in Hsend..]. }
  split_and!; [done|done|done|lia|lia|lia|lia|by rewrite has_type|done].
Qed.

Lemma copyout_more_run overflow r :
  o = Some r → has_send (r_type r) = true →
  ipc_right_copyout sp st name ep MACH_MSG_TYPE_PORT_SEND overflow p =
    if pegged o && negb overflow then Ok (sp, put st p (set_ip_locked port false), KERN_UREFS_OVERFLOW)
    else Ok (if pegged o then sp else set_bits sp ep (u32 (Z.lor (ie_bits e) MACH_PORT_TYPE_SEND + 1)),
      put st p (set_ip_locked (set_ip_references (set_ip_srights port (ip_srights port - 1)) (ip_references port - 1)) false),
      KERN_SUCCESS).
Proof.
  intros Ho Hsend. destruct (more_facts r Ho Hsend) as (-> & Hn & Hto & Hs1 & Hpos & Hbit & _).
  destruct out_counts as (Hrefs & _).
  rewrite copyout_unfold. simpl Z.eqb. cbv iota. unfold copyout_send, pget. rewrite Hp. ostep. rewrite Hbit.
  rewrite (proj2 (Z.ltb_lt 0 (ip_srights port))), (proj2 (Z.ltb_lt 1 (ip_srights port))) by lia. ostep.
  rewrite (proj2 (Z.ltb_lt 0 _) (proj1 Hpos)), (proj2 (Z.ltb_lt _ _) (proj2 Hpos)). ostep.
  assert (pegged o = (IE_BITS_UREFS (ie_bits e) + 1 =? MACH_PORT_UREFS_MAX)) as Hpeg
    by (unfold pegged; rewrite Ho, Hsend; done).
  set (port' := set_ip_locked (set_ip_references (set_ip_srights port (ip_srights port - 1)) (ip_references port - 1)) false).
  assert (∀ sp' : istate, (st ← pmod st p (λ port, set_ip_srights port (u32 (ip_srights port - 1)));
    st ← ip_release st p; st ← ip_unlock st p; Ok (sp', st, KERN_SUCCESS)) = Ok (sp', put st p port', KERN_SUCCESS)) as Hrun.
  { intros sp'. rewrite (pmod_spec _ _ _ _ Hp), u32_small by (unfold is_u32; lia). ostep.
    rewrite (ip_release_spec _ _ _ (put_get _ _ _)) by (simpl; lia). ostep.
    by rewrite put_put, (ip_unlock_spec _ _ _ (put_get _ _ _)), put_put. }
  rewrite Hpeg, out_ip_unlock, !Hrun. by destruct (_ =? MACH_PORT_UREFS_MAX), overflow.
Qed.

Lemma copyout_send_more overflow r :
  o = Some r → has_send (r_type r) = true →
  ∃ sp' st', ipc_right_copyout sp st name ep MACH_MSG_TYPE_PORT_SEND overflow p =
      Ok (sp', st', if pegged o && negb overflow then KERN_UREFS_OVERFLOW else KERN_SUCCESS) ∧
    if pegged o && negb overflow then standing sp' st' caps ((t, p) :: tr) ∧ sp' = sp ∧ touched p st st' []
    else out_done sp' st'.
Proof.
  intros Ho Hsend. destruct (more_facts r Ho Hsend) as (-> & Hn & Hto & [Hs1 _] & Hpos & Hbit & Hty).
  destruct out_counts as (Hrefs & Hdn & Hs & _ & Hsm & Hom). specialize (Hs Hto).
  assert (target sp caps name ep e p (Some (entry_right e))) as Htg by (by rewrite <-Ho).
  assert (pegged o = (IE_BITS_UREFS (ie_bits e) + 1 =? MACH_PORT_UREFS_MAX)) as Hpeg
    by (unfold pegged; rewrite Ho, Hsend; done).
  rewrite (copyout_more_run overflow _ Ho Hsend).
  destruct (pegged o) eqn:Hpg; [destruct overflow|]; cbn [andb negb]; cbv iota; eexists _, _; (split; [done|]).
  - by apply (out_pegged _ Ho).
  - split; [|split; [done|by apply out_touched_put]]. split; [apply Htg|apply out_unlock|by apply out_unlocked].
  - symmetry in Hpeg. apply Z.eqb_neq in Hpeg. apply (out_more _ _ _ Ho); try done.
    + apply rebits_gain. unfold MACH_PORT_UREFS_MAX in *. lia.
    + by eapply has_mono; [|done].
    + intros Hc. by rewrite Hc in Hsend.
    + destruct Hty as [-> | ->]; split; simpl; lia.
Qed.
End copyout.

(** A name that can take the right: a new one for a port that the space has
    no right for, or the name of the receive right or of the send rights. *)
Definition takes (caps : rights_t) (t p : Z) (port : ipc_port) (o : option right) : Prop :=
  match o with
  | None => t = MACH_PORT_TYPE_SEND → ip_receiver port ≠ space_addr ∧
      ∀ n r, caps !! n = Some r → r_object r = p → r_type r ≠ MACH_PORT_TYPE_SEND
  | Some r => t = MACH_PORT_TYPE_SEND ∧ (r_type r = MACH_PORT_TYPE_RECEIVE ∨ has_send (r_type r) = true)
  end.

Lemma right_copyout_spec sp st caps tr name ep e p t port o overflow :
  target sp caps name ep e p o → rights_ok caps ((t, p) :: tr) st →
  ps_ports st !! p = Some port → ip_locked port = true → ip_active port = true → IO_VALID p = true →
  (∀ q port, q ≠ p → ps_ports st !! q = Some port → ip_locked port = false) →
  t = MACH_PORT_TYPE_SEND ∨ t = MACH_PORT_TYPE_SEND_ONCE → takes caps t p port o →
  ∃ sp' st',
    ipc_right_copyout sp st name ep
      (if t =? MACH_PORT_TYPE_SEND then MACH_MSG_TYPE_PORT_SEND else MACH_MSG_TYPE_PORT_SEND_ONCE) overflow p =
      Ok (sp', st', if pegged o && negb overflow then KERN_UREFS_OVERFLOW else KERN_SUCCESS) ∧
    touched p st st' [] ∧
    if pegged o && negb overflow then standing sp' st' caps ((t, p) :: tr)
    else standing sp' st' (set_right caps name (Some (gains t p o))) tr.
Proof.
  intros Htg Hok Hp Hlock Hact Hv Hothers Ht Htk.
  assert (t = MACH_PORT_TYPE_SEND ∨ t = MACH_PORT_TYPE_SEND_ONCE ∧ o = None) as Ht'.
  { destruct Ht; [by left|right]. destruct o; [|done]. destruct Htk. by subst. }
  destruct o as [r|]; simpl in Htk.
  - destruct Htk as [-> [Hr|Hs]]; simpl Z.eqb; cbv iota.
    + destruct (copyout_send_receive sp st caps tr name ep e p _ port _ Htg Hok Hp Hlock Hact Hv Hothers Ht' overflow r eq_refl Hr)
        as (sp' & st' & Hrun & (H1 & H2 & H3 & H4)).
      assert (pegged (Some r) = false) as -> by (unfold pegged; by rewrite Hr). by exists sp', st'.
    + destruct (copyout_send_more sp st caps tr name ep e p _ port _ Htg Hok Hp Hlock Hact Hv Hothers Ht' overflow r eq_refl Hs)
        as (sp' & st' & Hrun & Hdone). exists sp', st'. split; [done|].
      destruct (pegged _ && _); [by destruct Hdone as (? & _ & ?)|]. by destruct Hdone as (H1 & H2 & H3 & H4).
  - destruct Ht' as [-> |[-> _]]; simpl Z.eqb; cbv iota; simpl pegged.
    + destruct (Htk eq_refl) as [Hrcv Hfresh].
      destruct (copyout_send_new sp st caps tr name ep e p _ port _ Htg Hok Hp Hlock Hact Hv Hothers ltac:(by left) overflow eq_refl eq_refl Hrcv Hfresh)
        as (sp' & st' & Hrun & (H1 & H2 & H3 & H4)). by exists sp', st'.
    + destruct (copyout_once sp st caps tr name ep e p _ port _ Htg Hok Hp Hlock Hact Hv Hothers ltac:(by right) overflow eq_refl eq_refl)
        as (sp' & st' & Hrun & (H1 & H2 & H3 & H4)). by exists sp', st'.
Qed.

(** C5. ipc_right_copyout of a send or send-once right in transit never
    fails an assertion: a new name gets the right with one user reference,
    a name that has the send right one more reference, a receive right the
    send right too; when the references are at the limit the right is given
    up or KERN_UREFS_OVERFLOW returned as asked; the port is unlocked and
    the account of rights holds. *)
Theorem right_copyout_correct sp st caps tr name ep e p t port o overflow :
  target sp caps name ep e p o → rights_ok caps ((t, p) :: tr) st →
  ps_ports st !! p = Some port → ip_locked port = true → ip_active port = true → IO_VALID p = true →
  (∀ q port, q ≠ p → ps_ports st !! q = Some port → ip_locked port = false) →
  t = MACH_PORT_TYPE_SEND ∨ t = MACH_PORT_TYPE_SEND_ONCE → takes caps t p port o →
  ∃ sp' st',
    ipc_right_copyout sp st name ep
      (if t =? MACH_PORT_TYPE_SEND then MACH_MSG_TYPE_PORT_SEND else MACH_MSG_TYPE_PORT_SEND_ONCE) overflow p =
      Ok (sp', st', if pegged o && negb overflow then KERN_UREFS_OVERFLOW else KERN_SUCCESS) ∧
    touched p st st' [] ∧
    if pegged o && negb overflow then standing sp' st' caps ((t, p) :: tr)
    else standing sp' st' (set_right caps name (Some (gains t p o))) tr.
Proof. apply right_copyout_spec. Qed.
End copy.
