(* ===== verification/IpcObject.v ===== *)
(** * Objects (ipc/ipc_object.c, and the allocation in ipc_port.c, ipc_pset.c)

    The operations of a space on the objects that its names denote: each one
    finds or allocates an entry, works on the right in it and on the object,
    and unlocks the space again.  Nothing is locked before or after unless
    noted. *)

From stdpp Require Import prelude list gmap.
From S2P Require Import Prelude MachPort IpcSplay IpcTypes IpcHash IpcTable IpcEntry IpcPort IpcPset IpcDestroy IpcRight.

Definition IOT_PORT : Z := 0.
Definition IOT_PORT_SET : Z := 1.
Definition IOT_NUMBER : Z := 2.

(** mach/port.h *)
Definition MACH_PORT_TYPE_ALL_RIGHTS : Z :=
  Eval cbv in Z.lor MACH_PORT_TYPE_PORT_OR_DEAD MACH_PORT_TYPE_PORT_SET.

(** [bzero] of a port set *)
Definition ips_zero : ipc_pset := IPS 0 false false 0 ipc_mqueue_init.

(** [io_free] *)
Definition io_free (st : pstate) (otype object : Z) : pstate :=
  if otype =? IOT_PORT then with_ports st (delete object) else with_psets st (delete object).

(** [object->io_references = 1; object->io_bits = io_makebits(TRUE, otype, 0)] *)
Definition object_start (st : pstate) (otype object : Z) : outcome pstate :=
  if otype =? IOT_PORT then
    pmod st object (λ port, set_ip_kotype (set_ip_active (set_ip_references port 1) true) 0)
  else smod st object (λ pset, set_ips_active (set_ips_references pset 1) true).

Section object.
Context {IW : iworld} {PW : pworld}.

(** [io_alloc], with the [bzero] and [io_lock_init] that follow it. *)
Definition io_alloc (st : pstate) (otype : Z) : pstate * option Z :=
  match pw_alloc (ps_clock st) st with
  | None => (ptick st, None)
  | Some object =>
    (if otype =? IOT_PORT then with_ports (ptick st) (<[object := ip_zero]>)
     else with_psets (ptick st) (<[object := ips_zero]>), Some object)
  end.

(** [io_lock] of an object of a known type *)
Definition io_lock (st : pstate) (otype object : Z) : outcome pstate :=
  if otype =? IOT_PORT then ip_lock st object else ips_lock st object.

(** [io_otype]: ports and port sets are in zones of their own. *)
Definition io_otype (st : pstate) (object : Z) : Z :=
  match ps_psets st !! object with Some _ => IOT_PORT_SET | None => IOT_PORT end.

(** ** ipc_object_translate: the object is returned locked. *)

Definition ipc_object_translate (sp : istate) (st : pstate) (name right : Z) :
    outcome (istate * pstate * (kern_return * option Z)) :=
  '(sp, (kr, found)) ← ipc_right_lookup_write sp name;
  match found with
  | None => Ok (sp, st, (kr, None))
  | Some entry =>
    e ← eread sp entry;
    if Z.land (ie_bits e) (MACH_PORT_TYPE right) =? 0 then
      sp ← is_write_unlock sp;
      Ok (sp, st, (KERN_INVALID_RIGHT, None))
    else
      let object := ie_object e in
      kassert (negb (object =? IO_NULL));;
      st ← io_lock st (io_otype st object) object;
      sp ← is_write_unlock sp;
      Ok (sp, st, (KERN_SUCCESS, Some object))
  end.

(** ** Dead names *)

(** [entry->ie_bits |= MACH_PORT_TYPE_DEAD_NAME | 1] *)
Definition entry_dead (sp : istate) (entry : eptr) : outcome istate :=
  e ← eread sp entry;
  kassert (ie_object e =? IO_NULL);;
  Ok (set_bits sp entry (Z.lor (ie_bits e) (Z.lor MACH_PORT_TYPE_DEAD_NAME 1))).

Definition ipc_object_alloc_dead (sp : istate) : outcome (istate * (kern_return * option Z)) :=
  '(sp, (kr, res)) ← ipc_entry_alloc sp;
  match res with
  | None => Ok (sp, (kr, None))
  | Some (name, entry) =>
    sp ← entry_dead sp entry;
    sp ← is_write_unlock sp;
    Ok (sp, (KERN_SUCCESS, Some name))
  end.

Definition ipc_object_alloc_dead_name (sp : istate) (name : Z) : outcome (istate * kern_return) :=
  '(sp, (kr, res)) ← ipc_entry_alloc_name sp name;
  match res with
  | None => Ok (sp, kr)
  | Some entry =>
    '(sp, inuse) ← ipc_right_inuse sp entry;
    if inuse : bool then Ok (sp, KERN_NAME_EXISTS)
    else
      sp ← entry_dead sp entry;
      sp ← is_write_unlock sp;
      Ok (sp, KERN_SUCCESS)
  end.

(** ** ipc_object_alloc: the object is returned locked. *)

(** The assertions at the beginning. *)
Definition assert_alloc (otype type urefs : Z) : outcome unit :=
  kassert (otype <? IOT_NUMBER);;
  kassert (Z.land type MACH_PORT_TYPE_ALL_RIGHTS =? type);;
  kassert (negb (type =? MACH_PORT_TYPE_NONE));;
  kassert (urefs <=? MACH_PORT_UREFS_MAX).

(** The end: the space is locked, and the entry is blank. *)
Definition object_enter (sp : istate) (st : pstate) (otype type urefs object : Z) (entry : eptr) :
    outcome (istate * pstate) :=
  e ← eread sp entry;
  let sp := set_bits sp entry (Z.lor (ie_bits e) (Z.lor type urefs)) in
  let sp := set_object sp entry object in
  st ← io_lock st otype object;
  sp ← is_write_unlock sp;
  st ← object_start st otype object;
  Ok (sp, st).

Definition ipc_object_alloc (sp : istate) (st : pstate) (otype type urefs : Z) :
    outcome (istate * pstate * (kern_return * option (Z * Z))) :=
  assert_alloc otype type urefs;;
  let '(st, object) := io_alloc st otype in
  match object with
  | None => Ok (sp, st, (KERN_RESOURCE_SHORTAGE, None))
  | Some object =>
    '(sp, (kr, res)) ← ipc_entry_alloc sp;
    match res with
    | None => Ok (sp, io_free st otype object, (kr, None))
    | Some (name, entry) =>
      '(sp, st) ← object_enter sp st otype type urefs object entry;
      Ok (sp, st, (KERN_SUCCESS, Some (name, object)))
    end
  end.

Definition ipc_object_alloc_name (sp : istate) (st : pstate) (otype type urefs name : Z) :
    outcome (istate * pstate * (kern_return * option Z)) :=
  assert_alloc otype type urefs;;
  let '(st, object) := io_alloc st otype in
  match object with
  | None => Ok (sp, st, (KERN_RESOURCE_SHORTAGE, None))
  | Some object =>
    '(sp, (kr, res)) ← ipc_entry_alloc_name sp name;
    match res with
    | None => Ok (sp, io_free st otype object, (kr, None))
    | Some entry =>
      '(sp, inuse) ← ipc_right_inuse sp entry;
      if inuse : bool then Ok (sp, io_free st otype object, (KERN_NAME_EXISTS, None))
      else
        '(sp, st) ← object_enter sp st otype type urefs object entry;
        Ok (sp, st, (KERN_SUCCESS, Some object))
    end
  end.

(** ** ipc_port_alloc, ipc_pset_alloc: the object is returned locked. *)

Definition ipc_port_alloc (sp : istate) (st : pstate) :
    outcome (istate * pstate * (kern_return * option (Z * Z))) :=
  '(sp, st, (kr, res)) ← ipc_object_alloc sp st IOT_PORT MACH_PORT_TYPE_RECEIVE 0;
  match res with
  | None => Ok (sp, st, (kr, None))
  | Some (name, port) =>
    st ← ipc_port_init st port space_addr name;
    Ok (sp, st, (KERN_SUCCESS, Some (name, port)))
  end.

Definition ipc_port_alloc_name (sp : istate) (st : pstate) (name : Z) :
    outcome (istate * pstate * (kern_return * option Z)) :=
  '(sp, st, (kr, res)) ← ipc_object_alloc_name sp st IOT_PORT MACH_PORT_TYPE_RECEIVE 0 name;
  match res with
  | None => Ok (sp, st, (kr, None))
  | Some port =>
    st ← ipc_port_init st port space_addr name;
    Ok (sp, st, (KERN_SUCCESS, Some port))
  end.

Definition ipc_pset_alloc (sp : istate) (st : pstate) :
    outcome (istate * pstate * (kern_return * option (Z * Z))) :=
  '(sp, st, (kr, res)) ← ipc_object_alloc sp st IOT_PORT_SET MACH_PORT_TYPE_PORT_SET 0;
  match res with
  | None => Ok (sp, st, (kr, None))
  | Some (name, pset) =>
    st ← smod st pset (λ s, set_ips_messages (set_ips_local_name s name) ipc_mqueue_init);
    Ok (sp, st, (KERN_SUCCESS, Some (name, pset)))
  end.

Definition ipc_pset_alloc_name (sp : istate) (st : pstate) (name : Z) :
    outcome (istate * pstate * (kern_return * option Z)) :=
  '(sp, st, (kr, res)) ← ipc_object_alloc_name sp st IOT_PORT_SET MACH_PORT_TYPE_PORT_SET 0 name;
  match res with
  | None => Ok (sp, st, (kr, None))
  | Some pset =>
    st ← smod st pset (λ s, set_ips_messages (set_ips_local_name s name) ipc_mqueue_init);
    Ok (sp, st, (KERN_SUCCESS, Some pset))
  end.

(** ** Copyin *)

Definition ipc_object_copyin_type (msgt_name : Z) : outcome Z :=
  if msgt_name =? 0 then Ok 0
  else if msgt_name =? MACH_MSG_TYPE_MOVE_RECEIVE then Ok MACH_MSG_TYPE_PORT_RECEIVE
  else if (msgt_name =? MACH_MSG_TYPE_MOVE_SEND_ONCE) || (msgt_name =? MACH_MSG_TYPE_MAKE_SEND_ONCE)
  then Ok MACH_MSG_TYPE_PORT_SEND_ONCE
  else if (msgt_name =? MACH_MSG_TYPE_MOVE_SEND) || (msgt_name =? MACH_MSG_TYPE_MAKE_SEND) ||
          (msgt_name =? MACH_MSG_TYPE_COPY_SEND)
  then Ok MACH_MSG_TYPE_PORT_SEND
  else Fault FPanic.

Definition ipc_object_copyin (sp : istate) (st : pstate) (name msgt_name : Z) :
    outcome (istate * pstate * (kern_return * option Z)) :=
  '(sp, (kr, found)) ← ipc_right_lookup_write sp name;
  match found with
  | None => Ok (sp, st, (kr, None))
  | Some entry =>
    '(sp, st, res) ← ipc_right_copyin sp st name entry msgt_name true;
    e ← eread sp entry;
    sp ← (if IE_BITS_TYPE (ie_bits e) =? MACH_PORT_TYPE_NONE then ipc_entry_dealloc sp name entry else Ok sp);
    sp ← is_write_unlock sp;
    match res with
    | Some (object, soright) =>
      Ok (sp, notify_port_deleted st soright name, (KERN_SUCCESS, Some object))
    | None => Ok (sp, st, (KERN_INVALID_RIGHT, None))
    end
  end.

(** [ipc_space_kernel] is the space of the receive rights that the kernel
    has. *)
Definition ipc_object_copyin_from_kernel (ipc_space_kernel : Z) (st : pstate) (object msgt_name : Z) :
    outcome pstate :=
  kassert (IO_VALID object);;
  if msgt_name =? MACH_MSG_TYPE_MOVE_RECEIVE then
    st ← ip_lock st object;
    port ← pget st object;
    kassert (ip_active port);;
    kassert (negb (ip_receiver_name port =? MACH_PORT_NULL));;
    kassert (ip_receiver port =? ipc_space_kernel);;
    st ← ipc_port_set_mscount st object 0;
    st ← pmod st object (λ port, set_ip_receiver_name port MACH_PORT_NULL);
    st ← pmod st object (λ port, set_ip_data port IP_NULL);
    ip_unlock st object
  else if msgt_name =? MACH_MSG_TYPE_COPY_SEND then
    st ← ip_lock st object;
    port ← pget st object;
    st ← (if ip_active port then
            kassert (0 <? ip_srights port);;
            pmod st object (λ port, set_ip_srights port (u32 (ip_srights port + 1)))
          else Ok st);
    st ← ip_reference st object;
    ip_unlock st object
  else if msgt_name =? MACH_MSG_TYPE_MAKE_SEND then
    st ← ip_lock st object;
    port ← pget st object;
    kassert (ip_active port);;
    kassert (negb (ip_receiver_name port =? MACH_PORT_NULL));;
    kassert (ip_receiver port =? ipc_space_kernel);;
    st ← ip_reference st object;
    st ← pmod st object (λ port, set_ip_mscount port (u32 (ip_mscount port + 1)));
    st ← pmod st object (λ port, set_ip_srights port (u32 (ip_srights port + 1)));
    ip_unlock st object
  else if msgt_name =? MACH_MSG_TYPE_MOVE_SEND then Ok st
  else if msgt_name =? MACH_MSG_TYPE_MAKE_SEND_ONCE then
    st ← ip_lock st object;
    port ← pget st object;
    kassert (ip_active port);;
    kassert (negb (ip_receiver_name port =? MACH_PORT_NULL));;
    st ← ip_reference st object;
    st ← pmod st object (λ port, set_ip_sorights port (u32 (ip_sorights port + 1)));
    ip_unlock st object
  else if msgt_name =? MACH_MSG_TYPE_MOVE_SEND_ONCE then Ok st
  else Fault FPanic.

(** ** Rights in transit that are destroyed *)

Definition ipc_object_destroy (st : pstate) (object msgt_name : Z) : outcome pstate :=
  kassert (IO_VALID object);;
  kassert (io_otype st object =? IOT_PORT);;
  if msgt_name =? MACH_MSG_TYPE_PORT_SEND then ipc_port_release_send st object
  else if msgt_name =? MACH_MSG_TYPE_PORT_SEND_ONCE then Ok (notify st (ipc_notify_send_once object))
  else if msgt_name =? MACH_MSG_TYPE_PORT_RECEIVE then ipc_port_release_receive st object
  else Fault FPanic.

(** ** Copyout *)

(** A blank entry gets the object, which is returned locked, unless it is
    dead. *)
Definition copyout_blank (sp : istate) (st : pstate) (name : Z) (entry : eptr) (object : Z) :
    outcome (istate * pstate * bool) :=
  e ← eread sp entry;
  kassert (IE_BITS_TYPE (ie_bits e) =? MACH_PORT_TYPE_NONE);;
  kassert (ie_object e =? IO_NULL);;
  st ← ip_lock st object;
  port ← pget st object;
  if negb (ip_active port) then
    st ← ip_unlock st object;
    sp ← ipc_entry_dealloc sp name entry;
    sp ← is_write_unlock sp;
    Ok (sp, st, false)
  else Ok (set_object sp entry object, st, true).

(** The part of [ipc_right_reverse] that depends on the type of the right:
    send-once rights always get a name of their own. *)
Definition copyout_reverse (sp : istate) (st : pstate) (object msgt_name : Z) :
    outcome (istate * pstate * option (Z * eptr)) :=
  if negb (msgt_name =? MACH_MSG_TYPE_PORT_SEND_ONCE) then ipc_right_reverse sp st object
  else Ok (sp, st, None).

(** The [for] loop: the name and the entry for the object. *)
Fixpoint copyout_loop (fuel : nat) (sp : istate) (st : pstate) (object msgt_name : Z) :
    outcome (istate * pstate * (kern_return * option (Z * eptr))) :=
  match fuel with
  | O => Fault FLoop
  | S fuel' =>
    if negb (is_active (st_space sp)) then
      sp ← is_write_unlock sp;
      Ok (sp, st, (KERN_INVALID_TASK, None))
    else
      '(sp, st, found) ← copyout_reverse sp st object msgt_name;
      match found with
      | Some (name, entry) =>
        e ← eread sp entry;
        kassert (has (ie_bits e) MACH_PORT_TYPE_SEND_RECEIVE);;
        Ok (sp, st, (KERN_SUCCESS, Some (name, entry)))
      | None =>
        '(sp, (kr, res)) ← ipc_entry_get sp;
        match res with
        | None =>
          '(sp, kr) ← ipc_entry_grow_table sp ITS_SIZE_NONE;
          if negb (bool_decide (kr = KERN_SUCCESS)) then Ok (sp, st, (kr, None))
          else copyout_loop fuel' sp st object msgt_name
        | Some (name, entry) =>
          '(sp, st, live) ← copyout_blank sp st name entry object;
          Ok (sp, st, if live : bool then (KERN_SUCCESS, Some (name, entry))
                      else (KERN_INVALID_CAPABILITY, None))
        end
      end
  end.

Definition ipc_object_copyout (sp : istate) (st : pstate) (object msgt_name : Z) (overflow : bool) :
    outcome (istate * pstate * (kern_return * option Z)) :=
  kassert (IO_VALID object);;
  kassert (io_otype st object =? IOT_PORT);;
  sp ← is_write_lock sp;
  '(sp, st, (kr, found)) ← copyout_loop (S ipc_table_entries_size) sp st object msgt_name;
  match found with
  | None => Ok (sp, st, (kr, None))
  | Some (name, entry) =>
    '(sp, st, kr) ← ipc_right_copyout sp st name entry msgt_name overflow object;
    sp ← is_write_unlock sp;
    Ok (sp, st, (kr, if bool_decide (kr = KERN_SUCCESS) then Some name else None))
  end.

Definition ipc_object_copyout_name (sp : istate) (st : pstate) (object msgt_name : Z) (overflow : bool)
    (name : Z) : outcome (istate * pstate * kern_return) :=
  kassert (IO_VALID object);;
  kassert (io_otype st object =? IOT_PORT);;
  '(sp, (kr, res)) ← ipc_entry_alloc_name sp name;
  match res with
  | None => Ok (sp, st, kr)
  | Some entry =>
    '(sp, st, found) ← copyout_reverse sp st object msgt_name;
    '(sp, st, (kr, ready)) ←
      match found with
      | Some (oname, oentry) =>
        e ← eread sp entry;
        if negb (name =? oname) then
          st ← ip_unlock st object;
          sp ← (if IE_BITS_TYPE (ie_bits e) =? MACH_PORT_TYPE_NONE then ipc_entry_dealloc sp name entry else Ok sp);
          sp ← is_write_unlock sp;
          Ok (sp, st, (KERN_RIGHT_EXISTS, false))
        else
          kassert (bool_decide (entry = oentry));;
          kassert (has (ie_bits e) MACH_PORT_TYPE_SEND_RECEIVE);;
          Ok (sp, st, (KERN_SUCCESS, true))
      | None =>
        '(sp, inuse) ← ipc_right_inuse sp entry;
        if inuse : bool then Ok (sp, st, (KERN_NAME_EXISTS, false))
        else
          '(sp, st, live) ← copyout_blank sp st name entry object;
          Ok (sp, st, if live : bool then (KERN_SUCCESS, true) else (KERN_INVALID_CAPABILITY, false))
      end;
    if negb (ready : bool) then Ok (sp, st, kr)
    else
      '(sp, st, kr) ← ipc_right_copyout sp st name entry msgt_name overflow object;
      sp ← is_write_unlock sp;
      Ok (sp, st, kr)
  end.

(** The destination right of a message that [space] received: the object is
    locked and active, and is unlocked.  Returns the name that the receiver
    sees. *)
Definition ipc_object_copyout_dest (space : Z) (st : pstate) (object msgt_name : Z) : outcome (pstate * Z) :=
  kassert (IO_VALID object);;
  port ← pget st object;
  kassert (ip_active port);;
  st ← ip_release st object;
  if msgt_name =? MACH_MSG_TYPE_PORT_SEND then
    let name := if ip_receiver port =? space then ip_receiver_name port else MACH_PORT_NULL in
    kassert (0 <? ip_srights port);;
    '(st, ns) ← drop_send_right st object;
    st ← ip_unlock st object;
    Ok (notify_no_senders st ns, name)
  else if msgt_name =? MACH_MSG_TYPE_PORT_SEND_ONCE then
    kassert (0 <? ip_sorights port);;
    if ip_receiver port =? space then
      st ← pmod st object (λ port, set_ip_sorights port (u32 (ip_sorights port - 1)));
      st ← ip_unlock st object;
      Ok (st, ip_receiver_name port)
    else
      st ← ip_reference st object;
      st ← ip_unlock st object;
      Ok (notify st (ipc_notify_send_once object), MACH_PORT_NULL)
  else Fault FPanic.

(** ** ipc_object_rename *)

Definition ipc_object_rename (sp : istate) (st : pstate) (oname nname : Z) :
    outcome (istate * pstate * kern_return) :=
  '(sp, (kr, res)) ← ipc_entry_alloc_name sp nname;
  match res with
  | None => Ok (sp, st, kr)
  | Some nentry =>
    '(sp, inuse) ← ipc_right_inuse sp nentry;
    if inuse : bool then Ok (sp, st, KERN_NAME_EXISTS)
    else
      '(sp, oentry) ← (if oname =? nname then Ok (sp, None) else ipc_entry_lookup sp oname);
      match oentry with
      | None =>
        sp ← ipc_entry_dealloc sp nname nentry;
        sp ← is_write_unlock sp;
        Ok (sp, st, KERN_INVALID_NAME)
      | Some oentry => ipc_right_rename sp st oname oentry nname nentry
      end
  end.
End object.
