(* ===== verification/IpcMqueue.v ===== *)
(** * Sending and receiving messages (ipc/ipc_mqueue.c)

    A sender whose port has its queue full waits in the port's queue of
    blocked senders; a receiver that finds no message waits in the message
    queue.  Threads block while other threads run, so an operation is cut at
    [thread_block]: what a thread does up to there, and what it does when it
    runs again, with its [ith_state] and [wait_result] as they are then.
    Messages to kernel ports are handled by [ipc_kobject_server], a
    parameter, as is [ipc_kmsg_check_scatter]. *)

From stdpp Require Import prelude list gmap.
From S2P Require Import Prelude MachPort IpcSplay IpcTypes IpcHash IpcTable IpcEntry IpcPort IpcPset IpcDestroy IpcRight IpcObject.

(** mach/message.h *)
Definition MACH_SEND_TIMEOUT : Z := 0x10.
Definition MACH_SEND_ALWAYS : Z := 0x10000.
Definition MACH_RCV_TIMEOUT : Z := 0x100.
Definition MACH_MSG_TIMEOUT_NONE : Z := 0.
Definition MACH_MSGH_BITS_CIRCULAR : Z := 0x40000000.
Definition MACH_MSGH_BITS_REMOTE (bits : Z) : Z := Z.land bits 0xff.
Definition GET_RCV_ELEMENTS (y : Z) : Z := Z.land (Z.shiftr y 24) 0xf.

(** ipc/mach_msg.c: the sizes of the trailers, in bytes *)
Definition trailer_size : list Z := [8; 12; 20].
Definition REQUESTED_TRAILER_SIZE (y : Z) : outcome Z := deref (trailer_size !! Z.to_nat (GET_RCV_ELEMENTS y)).

(** kern/sched_prim.h: why a thread runs again *)
Inductive wait_result :=
  | THREAD_AWAKENED
  | THREAD_TIMED_OUT
  | THREAD_INTERRUPTED
  | THREAD_RESTART.

(** Why a call of a thread stops: it returns, or the thread blocks. *)
Inductive send_status :=
  | Returned (mr : mach_msg_return)
  | Blocked.

Inductive receive_status :=
  | Got (kmsg : ipc_kmsg) (seqno : Z)
  | Failed (mr : mach_msg_return)
  | Waiting.

Section mqueue.
Context {IW : iworld} {PW : pworld}.
Context (ipc_space_kernel : Z) (server : ipc_kmsg → option ipc_kmsg).

(** ** ipc_mqueue_send *)

(** The port is dead: the message is destroyed as if it had been sent. *)
Definition send_dead (st : pstate) (kmsg : ipc_kmsg) : outcome pstate :=
  let p := ikm_remote_port kmsg in
  st ← ip_release st p;
  st ← ip_check_unlock st p;
  Ok (notify st (ipc_kmsg_destroy (set_ikm_remote_port kmsg MACH_PORT_NULL))).

(** One round of the loop, with the port locked. *)
Definition send_round (st : pstate) (kmsg : ipc_kmsg) (opt timeout self : Z) : outcome (pstate * send_status) :=
  let p := ikm_remote_port kmsg in
  port ← pget st p;
  if negb (ip_active port) then
    st ← send_dead st kmsg;
    Ok (st, Returned MACH_MSG_SUCCESS)
  else if (ip_msgcount port <? ip_qlimit port) || has opt MACH_SEND_ALWAYS ||
          (MACH_MSGH_BITS_REMOTE (ikm_bits kmsg) =? MACH_MSG_TYPE_PORT_SEND_ONCE) then
    st ← ipc_mqueue_deliver st p kmsg;
    Ok (st, Returned MACH_MSG_SUCCESS)
  else if has opt MACH_SEND_TIMEOUT && (timeout =? 0) then
    st ← ip_unlock st p;
    Ok (st, Returned MACH_SEND_TIMED_OUT)
  else
    st ← pmod st p (λ port, set_ip_blocked port (ip_blocked port ++ [self]));
    st ← ip_unlock st p;
    Ok (st, Blocked).

(** [fuel] bounds the replies of the kernel to its own replies. *)
Fixpoint ipc_mqueue_send (fuel : nat) (st : pstate) (kmsg : ipc_kmsg) (opt timeout self : Z) :
    outcome (pstate * send_status) :=
  match fuel with
  | O => Fault FLoop
  | S fuel' =>
    let p := ikm_remote_port kmsg in
    kassert (IP_VALID p);;
    st ← ip_lock st p;
    port ← pget st p;
    if ip_receiver port =? ipc_space_kernel then
      kassert (ip_active port);;
      st ← ip_unlock st p;
      let st := notify st (ipc_kobject_server kmsg) in
      match server kmsg with
      | None => Ok (st, Returned MACH_MSG_SUCCESS)
      | Some reply =>
        '(st, status) ← ipc_mqueue_send fuel' st reply MACH_SEND_ALWAYS MACH_MSG_TIMEOUT_NONE self;
        match status with
        | Returned MACH_MSG_SUCCESS => Ok (st, Returned MACH_MSG_SUCCESS)
        | _ => Fault FAssert
        end
      end
    else if has (ikm_bits kmsg) MACH_MSGH_BITS_CIRCULAR then
      st ← ip_unlock st p;
      Ok (notify st (ipc_kmsg_destroy kmsg), Returned MACH_MSG_SUCCESS)
    else send_round st kmsg opt timeout self
  end.

(** After [thread_block]. *)
Definition send_resume (st : pstate) (kmsg : ipc_kmsg) (opt timeout self : Z) (ith_state : mach_msg_return)
    (result : wait_result) : outcome (pstate * send_status) :=
  let p := ikm_remote_port kmsg in
  st ← ip_lock st p;
  match ith_state with
  | MACH_MSG_SUCCESS => send_round st kmsg opt timeout self
  | MACH_SEND_IN_PROGRESS =>
    match result with
    | THREAD_INTERRUPTED =>
      st ← ip_unlock st p;
      Ok (st, Returned MACH_SEND_INTERRUPTED)
    | THREAD_TIMED_OUT =>
      kassert (has opt MACH_SEND_TIMEOUT);;
      send_round st kmsg opt 0 self
    | _ => Fault FPanic
    end
  | _ => Fault FAssert
  end.

(** ** ipc_mqueue_copyin *)

Definition copyin_port (sp : istate) (st : pstate) (name p : Z) :
    outcome (istate * pstate * (mach_msg_return * option mqptr)) :=
  kassert (negb (p =? IP_NULL));;
  st ← ip_lock st p;
  port ← pget st p;
  kassert (ip_active port);;
  kassert (ip_receiver_name port =? name);;
  kassert (ip_receiver port =? space_addr);;
  sp ← is_write_unlock sp;
  let s := ip_pset port in
  if negb (s =? IPS_NULL) then
    st ← ips_lock st s;
    pset ← sget st s;
    if ips_active pset then
      st ← ips_unlock st s;
      st ← ip_unlock st p;
      Ok (sp, st, (MACH_RCV_IN_SET, None))
    else
      st ← ipc_pset_remove st s p;
      st ← ips_check_unlock st s;
      port ← pget st p;
      kassert (ip_pset port =? IPS_NULL);;
      Ok (sp, st, (MACH_MSG_SUCCESS, Some (MQ_port p)))
  else Ok (sp, st, (MACH_MSG_SUCCESS, Some (MQ_port p))).

Definition copyin_pset (sp : istate) (st : pstate) (name s : Z) :
    outcome (istate * pstate * (mach_msg_return * option mqptr)) :=
  kassert (negb (s =? IPS_NULL));;
  st ← ips_lock st s;
  pset ← sget st s;
  kassert (ips_active pset);;
  kassert (ips_local_name pset =? name);;
  sp ← is_write_unlock sp;
  Ok (sp, st, (MACH_MSG_SUCCESS, Some (MQ_pset s))).

(** A reference to the object, and its queue instead of the object locked. *)
Definition copyin_lock (st : pstate) (q : mqptr) : outcome pstate :=
  match q with
  | MQ_port p => st ← ip_reference st p; st ← imq_lock st q; ip_unlock st p
  | MQ_pset s => st ← ips_reference st s; st ← imq_lock st q; ips_unlock st s
  end.

Definition ipc_mqueue_copyin (sp : istate) (st : pstate) (name : Z) :
    outcome (istate * pstate * (mach_msg_return * option mqptr)) :=
  sp ← is_write_lock sp;
  if negb (is_active (st_space sp)) then
    sp ← is_write_unlock sp;
    Ok (sp, st, (MACH_RCV_INVALID_NAME, None))
  else
    '(sp, entry) ← ipc_entry_lookup sp name;
    match entry with
    | None =>
      sp ← is_write_unlock sp;
      Ok (sp, st, (MACH_RCV_INVALID_NAME, None))
    | Some entry =>
      e ← eread sp entry;
      '(sp, st, (mr, q)) ←
        (if has (ie_bits e) MACH_PORT_TYPE_RECEIVE then copyin_port sp st name (ie_object e)
         else if has (ie_bits e) MACH_PORT_TYPE_PORT_SET then copyin_pset sp st name (ie_object e)
         else
           sp ← is_write_unlock sp;
           Ok (sp, st, (MACH_RCV_INVALID_NAME, None)));
      match q with
      | None => Ok (sp, st, (mr, None))
      | Some q =>
        st ← copyin_lock st q;
        Ok (sp, st, (MACH_MSG_SUCCESS, Some q))
      end
    end.

(** ** ipc_mqueue_receive *)

(** One round of the loop, with the queue locked. *)
Definition receive_round (st : pstate) (q : mqptr) (opt timeout self : Z) : outcome (pstate * receive_status) :=
  mq ← mqget st q;
  match imq_messages mq with
  | kmsg :: kmsgs =>
    st ← mqmod st q (λ mq, set_imq_messages mq kmsgs);
    let p := ikm_remote_port kmsg in
    port ← pget st p;
    st ← pmod st p (λ port, set_ip_seqno port (u32 (ip_seqno port + 1)));
    st ← imq_unlock st q;
    Ok (st, Got kmsg (ip_seqno port))
  | [] =>
    if has opt MACH_RCV_TIMEOUT && (timeout =? 0) then
      st ← imq_unlock st q;
      Ok (st, Failed MACH_RCV_TIMED_OUT)
    else
      st ← mqmod st q (λ mq, set_imq_threads mq (imq_threads mq ++ [self]));
      st ← imq_unlock st q;
      Ok (st, Waiting)
  end.

(** [ipc_thread_rmqueue(&mqueue->imq_threads, self)] *)
Definition thread_rmqueue (st : pstate) (q : mqptr) (self : Z) : outcome pstate :=
  mq ← mqget st q;
  kassert (bool_decide (self ∈ imq_threads mq));;
  mqmod st q (λ mq, set_imq_threads mq (filter (λ th, th ≠ self) (imq_threads mq))).

(** After [thread_block]; [handed] is what is in [ith_kmsg] and [ith_seqno]. *)
Definition receive_resume (st : pstate) (q : mqptr) (opt timeout self : Z) (ith_state : mach_msg_return)
    (handed : option (ipc_kmsg * Z)) (result : wait_result) : outcome (pstate * receive_status) :=
  st ← imq_lock st q;
  match ith_state with
  | MACH_MSG_SUCCESS =>
    '(kmsg, seqno) ← deref handed;
    st ← imq_unlock st q;
    Ok (st, Got kmsg seqno)
  | MACH_RCV_PORT_DIED | MACH_RCV_PORT_CHANGED =>
    st ← imq_unlock st q;
    Ok (st, Failed ith_state)
  | MACH_RCV_IN_PROGRESS | MACH_RCV_IN_PROGRESS_TIMED =>
    st ← thread_rmqueue st q self;
    match result with
    | THREAD_INTERRUPTED =>
      st ← imq_unlock st q;
      Ok (st, Failed MACH_RCV_INTERRUPTED)
    | THREAD_TIMED_OUT =>
      kassert (has opt MACH_RCV_TIMEOUT);;
      kassert (bool_decide (ith_state = MACH_RCV_IN_PROGRESS_TIMED));;
      receive_round st q opt 0 self
    | _ => Fault FPanic
    end
  | _ => Fault FPanic
  end.

(** The receiver has a message: the rest of [ipc_mqueue_receive].  [scatter]
    is [ipc_kmsg_check_scatter] with the scatter list of the thread, if the
    thread has one. *)
Definition finish_wake (st : pstate) (p : Z) : outcome pstate :=
  port ← pget st p;
  match ip_blocked port with
  | sender :: senders =>
    if ip_msgcount port <? ip_qlimit port then
      st ← pmod st p (λ port, set_ip_blocked port senders);
      Ok (thread_go st (WK sender MACH_MSG_SUCCESS None))
    else Ok st
  | [] => Ok st
  end.

Definition receive_check (kmsg : ipc_kmsg) (opt max_size : Z) (scatter : option (ipc_kmsg → mach_msg_return)) :
    outcome mach_msg_return :=
  trailer ← REQUESTED_TRAILER_SIZE opt;
  Ok (if u32 (max_size - trailer) <? ikm_msgh_size kmsg then MACH_RCV_TOO_LARGE
      else match scatter with Some check => check kmsg | None => MACH_MSG_SUCCESS end).

Definition ipc_mqueue_finish_receive (st : pstate) (kmsg : ipc_kmsg) (p opt max_size : Z)
    (scatter : option (ipc_kmsg → mach_msg_return)) : outcome (pstate * mach_msg_return) :=
  mr ← receive_check kmsg opt max_size scatter;
  (if bool_decide (mr = MACH_MSG_SUCCESS) then
     kassert (negb (has (ikm_bits kmsg) MACH_MSGH_BITS_CIRCULAR));;
     kassert (p =? ikm_remote_port kmsg)
   else Ok ());;
  st ← ip_lock st p;
  port ← pget st p;
  st ← (if ip_active port then
          kassert (0 <? ip_msgcount port);;
          st ← pmod st p (λ port, set_ip_msgcount port (ip_msgcount port - 1));
          finish_wake st p
        else Ok st);
  st ← ip_unlock st p;
  Ok (st, mr).
End mqueue.
