(* ===== verification/IpcKmsg.v ===== *)
(** * The rights in messages (ipc/ipc_kmsg.c)

    A message carries rights: in its header a right for the destination and
    one for the reply port, in its body the rights of its descriptors.
    [ipc_kmsg_copyin_header] takes the rights of the header out of the space
    of the sender, [ipc_kmsg_copyout_header] puts them into the space of the
    receiver, [ipc_kmsg_clean] destroys the rights of a message that is not
    received.  Memory that a message carries is an address and a size; what
    is done to it is an event. *)

From stdpp Require Import prelude list gmap.
From S2P Require Import Prelude MachPort IpcSplay IpcTypes IpcHash IpcTable IpcEntry IpcPort IpcPset IpcDestroy IpcRight IpcObject IpcMqueue.

(** ** mach/message.h *)

Definition MACH_MSGH_BITS_REMOTE_MASK : Z := 0xff.
Definition MACH_MSGH_BITS_LOCAL_MASK : Z := 0xff00.
Definition MACH_MSGH_BITS_COMPLEX : Z := 0x80000000.
Definition MACH_MSGH_BITS_PORTS_MASK : Z := Z.lor MACH_MSGH_BITS_REMOTE_MASK MACH_MSGH_BITS_LOCAL_MASK.
Definition MACH_MSGH_BITS (remote local : Z) : Z := Z.lor remote (Z.shiftl local 8).
Definition MACH_MSGH_BITS_LOCAL (bits : Z) : Z := Z.shiftr (Z.land bits MACH_MSGH_BITS_LOCAL_MASK) 8.
Definition MACH_MSGH_BITS_OTHER (bits : Z) : Z := Z.land bits (Z.lnot MACH_MSGH_BITS_PORTS_MASK).
Definition MACH_MSG_TYPE_PORT_ANY_SEND (x : Z) : bool :=
  (MACH_MSG_TYPE_MOVE_SEND <=? x) && (x <=? MACH_MSG_TYPE_MAKE_SEND_ONCE).
Definition MACH_MSG_IPC_SPACE : Z := 0x2000.
Definition MACH_MSG_IPC_KERNEL : Z := 0x800.

Record mach_msg_header := MSGH {
  msgh_bits : Z;
  msgh_remote_port : Z;
  msgh_local_port : Z;
}.

#[export] Instance mach_msg_header_eq_dec : EqDecision mach_msg_header.
Proof. solve_decision. Defined.

(** What a descriptor of the body is, once the message is in the kernel. *)
Inductive mach_msg_descriptor :=
  | MACH_MSG_PORT_DESCRIPTOR (name disposition : Z)
  | MACH_MSG_OOL_DESCRIPTOR (address size : Z) (physical : bool)
  | MACH_MSG_OOL_PORTS_DESCRIPTOR (address : Z) (objects : list Z) (disposition : Z).

(** A message with its contents: the header and the descriptors. *)
Record message := MSG {
  msg_header : mach_msg_header;
  msg_descriptors : list mach_msg_descriptor;
}.

(** The destination and the reply port of a message, each with a send-once
    right for a port-deleted notification. *)
Record header_rights := HR {
  hr_dest_port : Z;
  hr_dest_soright : Z;
  hr_reply_port : Z;
  hr_reply_soright : Z;
}.

(** How a case of [ipc_kmsg_copyin_header] ends: with the rights; at the
    label [invalid_dest] or [invalid_reply], the space still locked; or with
    a return. *)
Inductive header_result :=
  | Copied (r : header_rights)
  | Invalid (mr : mach_msg_return)
  | Return (mr : mach_msg_return).

Section kmsg.
Context {IW : iworld} {PW : pworld}.

Abbreviation header_outcome := (outcome (istate * pstate * header_result)) (only parsing).

(** ** ipc_kmsg_copyin_header *)

(** "the entry might need to be deallocated" *)
Definition entry_defunct (sp : istate) (name : Z) (entry : eptr) : outcome istate :=
  e ← eread sp entry;
  if IE_BITS_TYPE (ie_bits e) =? MACH_PORT_TYPE_NONE then ipc_entry_dealloc sp name entry else Ok sp.

(** The port of the receive right [notify]. *)
Definition header_notify (sp : istate) (notify : Z) : outcome (istate * option Z) :=
  if notify =? MACH_PORT_NULL then Ok (sp, Some IP_NULL)
  else
    '(sp, entry) ← ipc_entry_lookup sp notify;
    match entry with
    | None => Ok (sp, None)
    | Some entry =>
      e ← eread sp entry;
      Ok (sp, if has (ie_bits e) MACH_PORT_TYPE_RECEIVE then Some (ie_object e) else None)
    end.

(** [entry->ie_bits & type] *)
Definition assert_type (sp : istate) (entry : eptr) (type : Z) : outcome unit :=
  e ← eread sp entry;
  kassert (has (ie_bits e) type).

(** One of the two types makes a right from the receive right. *)
Definition header_same_make (sp : istate) (st : pstate) (name : Z) (entry : eptr) (dest_type reply_type : Z) :
    header_outcome :=
  '(sp, st, res) ← ipc_right_copyin sp st name entry dest_type false;
  match res with
  | None => Ok (sp, st, Invalid MACH_SEND_INVALID_DEST)
  | Some (dest_port, dest_soright) =>
    kassert (IO_VALID dest_port);;
    assert_type sp entry MACH_PORT_TYPE_RECEIVE;;
    kassert (dest_soright =? IP_NULL);;
    '(sp, st, res) ← ipc_right_copyin sp st name entry reply_type true;
    match res with
    | None => Fault FAssert
    | Some (reply_port, reply_soright) =>
      kassert (reply_port =? dest_port);;
      assert_type sp entry MACH_PORT_TYPE_RECEIVE;;
      kassert (reply_soright =? IP_NULL);;
      Ok (sp, st, Copied (HR dest_port dest_soright reply_port reply_soright))
    end
  end.

(** Two send rights are copied. *)
Definition header_same_copy (sp : istate) (st : pstate) (name : Z) (entry : eptr) : header_outcome :=
  '(sp, st, res) ← ipc_right_copyin sp st name entry MACH_MSG_TYPE_COPY_SEND false;
  match res with
  | None => Ok (sp, st, Invalid MACH_SEND_INVALID_DEST)
  | Some (dest_port, dest_soright) =>
    assert_type sp entry MACH_PORT_TYPE_SEND;;
    kassert (dest_soright =? IP_NULL);;
    '(st, reply_port) ← ipc_port_copy_send st dest_port;
    Ok (sp, st, Copied (HR dest_port dest_soright reply_port IP_NULL))
  end.

(** Two send rights are moved. *)
Definition header_same_move (sp : istate) (st : pstate) (name : Z) (entry : eptr) : header_outcome :=
  '(sp, st, res) ← ipc_right_copyin_two sp st name entry;
  match res with
  | None => Ok (sp, st, Invalid MACH_SEND_INVALID_DEST)
  | Some (dest_port, dest_soright) =>
    sp ← entry_defunct sp name entry;
    Ok (sp, st, Copied (HR dest_port dest_soright dest_port IP_NULL))
  end.

(** One send right is moved and one copied. *)
Definition header_same_both (sp : istate) (st : pstate) (name : Z) (entry : eptr) (dest_type reply_type : Z) :
    header_outcome :=
  kassert ((dest_type =? MACH_MSG_TYPE_COPY_SEND) && (reply_type =? MACH_MSG_TYPE_MOVE_SEND) ||
           (dest_type =? MACH_MSG_TYPE_MOVE_SEND) && (reply_type =? MACH_MSG_TYPE_COPY_SEND));;
  '(sp, st, res) ← ipc_right_copyin sp st name entry MACH_MSG_TYPE_MOVE_SEND false;
  match res with
  | None => Ok (sp, st, Invalid MACH_SEND_INVALID_DEST)
  | Some (dest_port, soright) =>
    sp ← entry_defunct sp name entry;
    '(st, reply_port) ← ipc_port_copy_send st dest_port;
    Ok (sp, st, Copied (if dest_type =? MACH_MSG_TYPE_MOVE_SEND
                        then HR dest_port soright reply_port IP_NULL
                        else HR dest_port IP_NULL reply_port soright))
  end.

(** [dest_name == reply_name] *)
Definition header_same (sp : istate) (st : pstate) (name dest_type reply_type : Z) : header_outcome :=
  '(sp, entry) ← ipc_entry_lookup sp name;
  match entry with
  | None => Ok (sp, st, Invalid MACH_SEND_INVALID_DEST)
  | Some entry =>
    kassert (negb (reply_type =? 0));;
    '(st, ok) ← ipc_right_copyin_check sp st entry reply_type;
    if negb ok then Ok (sp, st, Invalid MACH_SEND_INVALID_REPLY)
    else if (dest_type =? MACH_MSG_TYPE_MOVE_SEND_ONCE) || (reply_type =? MACH_MSG_TYPE_MOVE_SEND_ONCE)
    then Ok (sp, st, Invalid MACH_SEND_INVALID_DEST)
    else if (dest_type =? MACH_MSG_TYPE_MAKE_SEND) || (dest_type =? MACH_MSG_TYPE_MAKE_SEND_ONCE) ||
            (reply_type =? MACH_MSG_TYPE_MAKE_SEND) || (reply_type =? MACH_MSG_TYPE_MAKE_SEND_ONCE)
    then header_same_make sp st name entry dest_type reply_type
    else if (dest_type =? MACH_MSG_TYPE_COPY_SEND) && (reply_type =? MACH_MSG_TYPE_COPY_SEND)
    then header_same_copy sp st name entry
    else if (dest_type =? MACH_MSG_TYPE_MOVE_SEND) && (reply_type =? MACH_MSG_TYPE_MOVE_SEND)
    then header_same_move sp st name entry
    else header_same_both sp st name entry dest_type reply_type
  end.

(** No reply port. *)
Definition header_no_reply (sp : istate) (st : pstate) (dest_name dest_type reply_name : Z) : header_outcome :=
  '(sp, entry) ← ipc_entry_lookup sp dest_name;
  match entry with
  | None => Ok (sp, st, Invalid MACH_SEND_INVALID_DEST)
  | Some entry =>
    '(sp, st, res) ← ipc_right_copyin sp st dest_name entry dest_type false;
    match res with
    | None => Ok (sp, st, Invalid MACH_SEND_INVALID_DEST)
    | Some (dest_port, dest_soright) =>
      sp ← entry_defunct sp dest_name entry;
      Ok (sp, st, Copied (HR dest_port dest_soright reply_name IP_NULL))
    end
  end.

(** The reply port died before its copyin: did the destination die before? *)
Definition header_must_undo (st : pstate) (saved_reply dest : Z) : outcome (pstate * bool) :=
  st ← ip_lock st saved_reply;
  reply ← pget st saved_reply;
  kassert (negb (ip_active reply));;
  let timestamp := ip_timestamp reply in
  st ← ip_unlock st saved_reply;
  st ← ip_lock st dest;
  port ← pget st dest;
  let must_undo := negb (ip_active port) && IP_TIMESTAMP_ORDER (ip_timestamp port) timestamp in
  st ← ip_unlock st dest;
  Ok (st, must_undo).

Definition header_undo (sp : istate) (st : pstate) (dest_name dest_type : Z) (dest_entry : eptr) (dest_port dest_soright : Z)
    (reply_name reply_type : Z) (reply_entry : eptr) (reply_port reply_soright saved_reply : Z) : header_outcome :=
  '(sp, st) ← ipc_right_copyin_undo sp st dest_name dest_entry dest_type dest_port dest_soright;
  '(sp, st) ← ipc_right_copyin_undo sp st reply_name reply_entry reply_type reply_port reply_soright;
  sp ← is_write_unlock sp;
  let st := if negb (dest_soright =? IP_NULL) then notify st (ipc_notify_dead_name dest_soright dest_name) else st in
  kassert (reply_soright =? IP_NULL);;
  st ← ipc_port_release st saved_reply;
  Ok (sp, st, Return MACH_SEND_INVALID_DEST).

(** The entries of both names are known, and the reply right is checked. *)
Definition header_two_copyin (sp : istate) (st : pstate) (dest_name dest_type : Z) (dest_entry : eptr)
    (reply_name reply_type : Z) (reply_entry : eptr) : header_outcome :=
  '(sp, st, res) ← ipc_right_copyin sp st dest_name dest_entry dest_type false;
  match res with
  | None => Ok (sp, st, Invalid MACH_SEND_INVALID_DEST)
  | Some (dest_port, dest_soright) =>
    kassert (IO_VALID dest_port);;
    e ← eread sp reply_entry;
    let saved_reply := ie_object e in
    st ← (if negb (saved_reply =? IP_NULL) then ipc_port_reference st saved_reply else Ok st);
    '(sp, st, res) ← ipc_right_copyin sp st reply_name reply_entry reply_type true;
    match res with
    | None => Fault FAssert
    | Some (reply_port, reply_soright) =>
      '(st, must_undo) ← (if negb (saved_reply =? IP_NULL) && (reply_port =? IO_DEAD)
                          then header_must_undo st saved_reply dest_port else Ok (st, false));
      if must_undo : bool
      then header_undo sp st dest_name dest_type dest_entry dest_port dest_soright
             reply_name reply_type reply_entry reply_port reply_soright saved_reply
      else
        sp ← entry_defunct sp reply_name reply_entry;
        sp ← entry_defunct sp dest_name dest_entry;
        st ← (if negb (saved_reply =? IP_NULL) then ipc_port_release st saved_reply else Ok st);
        Ok (sp, st, Copied (HR dest_port dest_soright reply_port reply_soright))
    end
  end.

(** Two names. *)
Definition header_two (sp : istate) (st : pstate) (dest_name dest_type reply_name reply_type : Z) : header_outcome :=
  '(sp, dest_entry) ← ipc_entry_lookup sp dest_name;
  match dest_entry with
  | None => Ok (sp, st, Invalid MACH_SEND_INVALID_DEST)
  | Some dest_entry =>
    '(sp, reply_entry) ← ipc_entry_lookup sp reply_name;
    match reply_entry with
    | None => Ok (sp, st, Invalid MACH_SEND_INVALID_REPLY)
    | Some reply_entry =>
      kassert (bool_decide (dest_entry ≠ reply_entry));;
      kassert (negb (reply_type =? 0));;
      '(st, ok) ← ipc_right_copyin_check sp st reply_entry reply_type;
      if negb ok then Ok (sp, st, Invalid MACH_SEND_INVALID_REPLY)
      else header_two_copyin sp st dest_name dest_type dest_entry reply_name reply_type reply_entry
    end
  end.

(** The rights are there, the space is locked: [MACH_SEND_CANCEL], the
    notifications and the new header. *)
Definition header_finish (sp : istate) (st : pstate) (r : header_rights) (mbits dest_name dest_type reply_name reply_type : Z)
    (notify notify_port : Z) : outcome (istate * pstate * mach_msg_header) :=
  '(st, dest_soright) ←
    (if negb (notify =? MACH_PORT_NULL) && (hr_dest_soright r =? notify_port) then
       st ← ipc_port_release_sonce st (hr_dest_soright r);
       Ok (st, IP_NULL)
     else Ok (st, hr_dest_soright r));
  sp ← is_write_unlock sp;
  let st := notify_port_deleted st dest_soright dest_name in
  let st := notify_port_deleted st (hr_reply_soright r) reply_name in
  dest_type ← ipc_object_copyin_type dest_type;
  reply_type ← ipc_object_copyin_type reply_type;
  Ok (sp, st, MSGH (Z.lor (MACH_MSGH_BITS_OTHER mbits) (MACH_MSGH_BITS dest_type reply_type))
                (hr_dest_port r) (hr_reply_port r)).

Definition ipc_kmsg_copyin_header (sp : istate) (st : pstate) (msg : mach_msg_header) (notify : Z) :
    outcome (istate * pstate * (mach_msg_return * mach_msg_header)) :=
  let mbits := Z.land (msgh_bits msg) (Z.lnot MACH_MSGH_BITS_CIRCULAR) in
  let dest_name := msgh_remote_port msg in
  let reply_name := msgh_local_port msg in
  let dest_type := MACH_MSGH_BITS_REMOTE mbits in
  let reply_type := MACH_MSGH_BITS_LOCAL mbits in
  if negb (MACH_MSG_TYPE_PORT_ANY_SEND dest_type) then Ok (sp, st, (MACH_SEND_INVALID_HEADER, msg))
  else if (if reply_type =? 0 then negb (reply_name =? MACH_PORT_NULL)
           else negb (MACH_MSG_TYPE_PORT_ANY_SEND reply_type))
  then Ok (sp, st, (MACH_SEND_INVALID_HEADER, msg))
  else
    sp ← is_write_lock sp;
    if negb (is_active (st_space sp)) then
      sp ← is_write_unlock sp;
      Ok (sp, st, (MACH_SEND_INVALID_DEST, msg))
    else
      '(sp, np) ← header_notify sp notify;
      match np with
      | None =>
        sp ← is_write_unlock sp;
        Ok (sp, st, (MACH_SEND_INVALID_NOTIFY, msg))
      | Some notify_port =>
        '(sp, st, res) ←
          (if dest_name =? reply_name then header_same sp st dest_name dest_type reply_type
           else if negb (MACH_PORT_VALID reply_name) then header_no_reply sp st dest_name dest_type reply_name
           else header_two sp st dest_name dest_type reply_name reply_type);
        match res with
        | Invalid mr =>
          sp ← is_write_unlock sp;
          Ok (sp, st, (mr, msg))
        | Return mr => Ok (sp, st, (mr, msg))
        | Copied r =>
          '(sp, st, msg) ← header_finish sp st r mbits dest_name dest_type reply_name reply_type notify notify_port;
          Ok (sp, st, (MACH_MSG_SUCCESS, msg))
        end
      end.
(** ** ipc_kmsg_copyout_header *)

Definition ipc_port_lookup_notify (sp : istate) (st : pstate) (name : Z) : outcome (istate * pstate * Z) :=
  kassert (is_active (st_space sp));;
  '(sp, entry) ← ipc_entry_lookup sp name;
  match entry with
  | None => Ok (sp, st, IP_NULL)
  | Some entry =>
    e ← eread sp entry;
    if negb (has (ie_bits e) MACH_PORT_TYPE_RECEIVE) then Ok (sp, st, IP_NULL)
    else
      let p := ie_object e in
      kassert (negb (p =? IP_NULL));;
      st ← ip_lock st p;
      port ← pget st p;
      kassert (ip_active port);;
      assert_receiver port name;;
      st ← ip_reference st p;
      st ← pmod st p (λ port, set_ip_sorights port (u32 (ip_sorights port + 1)));
      st ← ip_unlock st p;
      Ok (sp, st, p)
  end.

(** [if (notify_port != IP_NULL) ipc_port_release_sonce(notify_port)] *)
Definition release_notify (st : pstate) (notify_port : Z) : outcome pstate :=
  if negb (notify_port =? IP_NULL) then ipc_port_release_sonce st notify_port else Ok st.

(** How a round of the loop for the reply port ends: with a name, its entry
    and the send-once right that is not needed, the space and the reply port
    locked; with a reply port that is dead, the space and the destination
    locked; with an error, the space unlocked; or it starts over. *)
Inductive reply_result :=
  | Named (name : Z) (entry : eptr) (notify_port : Z)
  | Dead
  | Refused (mr : mach_msg_return)
  | Again.

Abbreviation reply_outcome := (outcome (istate * pstate * reply_result)) (only parsing).

(** No memory for the dead-name request: the port's table has to grow. *)
Definition reply_dngrow (sp : istate) (st : pstate) (reply name : Z) (entry : eptr) (notify_port : Z) : reply_outcome :=
  st ← ip_unlock st reply;
  st ← ipc_port_release_sonce st notify_port;
  sp ← ipc_entry_dealloc sp name entry;
  sp ← is_write_unlock sp;
  st ← ip_lock st reply;
  port ← pget st reply;
  if negb (ip_active port) then
    st ← ip_unlock st reply;
    sp ← is_write_lock sp;
    Ok (sp, st, Again)
  else
    '(st, kr) ← ipc_port_dngrow st reply ITS_SIZE_NONE;
    if negb (bool_decide (kr = KERN_SUCCESS)) then Ok (sp, st, Refused (MACH_RCV_HEADER_ERROR MACH_MSG_IPC_KERNEL))
    else
      sp ← is_write_lock sp;
      Ok (sp, st, Again).

(** The reply port is locked: a new entry for it, if it is alive. *)
Definition reply_entry (sp : istate) (st : pstate) (reply dest notify_port : Z) : reply_outcome :=
  port ← pget st reply;
  if negb (ip_active port) then
    st ← ip_release st reply;
    st ← ip_check_unlock st reply;
    st ← release_notify st notify_port;
    st ← ip_lock st dest;
    sp ← is_write_unlock sp;
    Ok (sp, st, Dead)
  else
    '(sp, (kr, got)) ← ipc_entry_get sp;
    match got with
    | None =>
      st ← ip_unlock st reply;
      st ← release_notify st notify_port;
      '(sp, kr) ← ipc_entry_grow_table sp ITS_SIZE_NONE;
      if negb (bool_decide (kr = KERN_SUCCESS)) then
        Ok (sp, st, Refused (MACH_RCV_HEADER_ERROR
          (if bool_decide (kr = KERN_RESOURCE_SHORTAGE) then MACH_MSG_IPC_KERNEL else MACH_MSG_IPC_SPACE)))
      else Ok (sp, st, Again)
    | Some (name, entry) =>
      e ← eread sp entry;
      kassert (IE_BITS_TYPE (ie_bits e) =? MACH_PORT_TYPE_NONE);;
      kassert (ie_object e =? IO_NULL);;
      if notify_port =? IP_NULL then Ok (set_object sp entry reply, st, Named name entry notify_port)
      else
        '(st, (kr, request)) ← ipc_port_dnrequest st reply name notify_port;
        match request with
        | None => reply_dngrow sp st reply name entry notify_port
        | Some request => Ok (set_request (set_object sp entry reply) entry request, st, Named name entry IP_NULL)
        end
    end.

(** One round, with the space locked. *)
Definition reply_round (sp : istate) (st : pstate) (reply reply_type dest notify : Z) : reply_outcome :=
  if negb (is_active (st_space sp)) then
    sp ← is_write_unlock sp;
    Ok (sp, st, Refused (MACH_RCV_HEADER_ERROR MACH_MSG_IPC_SPACE))
  else
    '(sp, st, notify_port) ← (if negb (notify =? MACH_PORT_NULL) then ipc_port_lookup_notify sp st notify
                              else Ok (sp, st, IP_NULL));
    if negb (notify =? MACH_PORT_NULL) && (notify_port =? IP_NULL) then
      sp ← is_write_unlock sp;
      Ok (sp, st, Refused MACH_RCV_INVALID_NOTIFY)
    else
      '(sp, st, found) ← copyout_reverse sp st reply reply_type;
      match found with
      | Some (name, entry) =>
        assert_type sp entry MACH_PORT_TYPE_SEND_RECEIVE;;
        Ok (sp, st, Named name entry notify_port)
      | None =>
        st ← ip_lock st reply;
        reply_entry sp st reply dest notify_port
      end.

Fixpoint reply_loop (fuel : nat) (sp : istate) (st : pstate) (reply reply_type dest notify : Z) : reply_outcome :=
  match fuel with
  | O => Fault FLoop
  | S fuel' =>
    '(sp, st, res) ← reply_round sp st reply reply_type dest notify;
    match res with
    | Again => reply_loop fuel' sp st reply reply_type dest notify
    | _ => Ok (sp, st, res)
    end
  end.

(** The reply port is valid: its name, or an error; the reply port is held
    unless it is dead, and the destination is locked. *)
Definition header_reply (fuel : nat) (sp : istate) (st : pstate) (reply reply_type dest notify : Z) :
    outcome (istate * pstate * (mach_msg_return * (Z * Z))) :=
  sp ← is_write_lock sp;
  '(sp, st, res) ← reply_loop fuel sp st reply reply_type dest notify;
  match res with
  | Again => Fault FLoop
  | Refused mr => Ok (sp, st, (mr, (reply, MACH_PORT_NULL)))
  | Dead => Ok (sp, st, (MACH_MSG_SUCCESS, (IP_DEAD, MACH_PORT_DEAD)))
  | Named name entry notify_port =>
    st ← ip_reference st reply;
    '(sp, st, kr) ← ipc_right_copyout sp st name entry reply_type true reply;
    kassert (bool_decide (kr = KERN_SUCCESS));;
    st ← release_notify st notify_port;
    st ← ip_lock st dest;
    sp ← is_write_unlock sp;
    Ok (sp, st, (MACH_MSG_SUCCESS, (reply, name)))
  end.

(** No reply port. *)
Definition header_no_reply_out (sp : istate) (st : pstate) (reply dest notify : Z) :
    outcome (istate * pstate * (mach_msg_return * (Z * Z))) :=
  sp ← is_write_lock sp;
  if negb (is_active (st_space sp)) then
    sp ← is_write_unlock sp;
    Ok (sp, st, (MACH_RCV_HEADER_ERROR MACH_MSG_IPC_SPACE, (reply, MACH_PORT_NULL)))
  else
    '(sp, np) ← header_notify sp notify;
    match np with
    | None =>
      sp ← is_write_unlock sp;
      Ok (sp, st, (MACH_RCV_INVALID_NOTIFY, (reply, MACH_PORT_NULL)))
    | Some _ =>
      st ← ip_lock st dest;
      sp ← is_write_unlock sp;
      Ok (sp, st, (MACH_MSG_SUCCESS, (reply, reply)))
    end.

(** The label [copyout_dest]: the destination is locked. *)
Definition header_dest (st : pstate) (dest dest_type reply : Z) : outcome (pstate * Z) :=
  port ← pget st dest;
  if ip_active port then ipc_object_copyout_dest space_addr st dest dest_type
  else
    let timestamp := ip_timestamp port in
    st ← ip_release st dest;
    st ← ip_check_unlock st dest;
    if IP_VALID reply then
      st ← ip_lock st reply;
      r ← pget st reply;
      let name := if ip_active r || IP_TIMESTAMP_ORDER timestamp (ip_timestamp r) then MACH_PORT_DEAD else MACH_PORT_NULL in
      st ← ip_unlock st reply;
      Ok (st, name)
    else Ok (st, MACH_PORT_DEAD).

Definition ipc_kmsg_copyout_header (fuel : nat) (sp : istate) (st : pstate) (msg : mach_msg_header) (notify : Z) :
    outcome (istate * pstate * (mach_msg_return * mach_msg_header)) :=
  let mbits := msgh_bits msg in
  let dest := msgh_remote_port msg in
  kassert (IP_VALID dest);;
  let dest_type := MACH_MSGH_BITS_REMOTE mbits in
  let reply_type := MACH_MSGH_BITS_LOCAL mbits in
  '(sp, st, (mr, (reply, reply_name))) ←
    (if IP_VALID (msgh_local_port msg) then header_reply fuel sp st (msgh_local_port msg) reply_type dest notify
     else header_no_reply_out sp st (msgh_local_port msg) dest notify);
  if negb (bool_decide (mr = MACH_MSG_SUCCESS)) then Ok (sp, st, (mr, msg))
  else
    '(st, dest_name) ← header_dest st dest dest_type reply;
    st ← (if IP_VALID reply then ipc_port_release st reply else Ok st);
    Ok (sp, st, (MACH_MSG_SUCCESS, MSGH (Z.lor (MACH_MSGH_BITS_OTHER mbits) (MACH_MSGH_BITS reply_type dest_type))
                                     reply_name dest_name)).

(** ** ipc_kmsg_copyout_object *)

Definition ipc_kmsg_copyout_object (sp : istate) (st : pstate) (object msgt_name : Z) :
    outcome (istate * pstate * (mach_msg_return * Z)) :=
  if negb (IO_VALID object) then Ok (sp, st, (MACH_MSG_SUCCESS, object))
  else
    '(sp, st, (kr, name)) ← ipc_object_copyout sp st object msgt_name true;
    match name with
    | Some name => Ok (sp, st, (MACH_MSG_SUCCESS, name))
    | None =>
      st ← ipc_object_destroy st object msgt_name;
      Ok (sp, st,
        if bool_decide (kr = KERN_INVALID_CAPABILITY) then (MACH_MSG_SUCCESS, MACH_PORT_DEAD)
        else (MACH_MSG_IPC_ERROR (if bool_decide (kr = KERN_RESOURCE_SHORTAGE) then MACH_MSG_IPC_KERNEL
                                  else MACH_MSG_IPC_SPACE), MACH_PORT_NULL))
    end.

(** ** ipc_kmsg_clean *)

(** The largest out-of-line data that is copied into a buffer, set by
    [ipc_init]. *)
Context (msg_ool_size_small : Z).

(** A right in the message, if it is one. *)
Definition clean_right (st : pstate) (object disposition : Z) : outcome pstate :=
  if IO_VALID object then ipc_object_destroy st object disposition else Ok st.

Definition clean_descriptor (st : pstate) (d : mach_msg_descriptor) : outcome pstate :=
  match d with
  | MACH_MSG_PORT_DESCRIPTOR name disposition => clean_right st name disposition
  | MACH_MSG_OOL_DESCRIPTOR address size physical =>
    if size =? 0 then kassert (address =? 0);; Ok st
    else if physical && (size <? msg_ool_size_small) then Ok (notify st (kfree address size))
    else Ok (notify st (vm_map_copy_discard address))
  | MACH_MSG_OOL_PORTS_DESCRIPTOR address objects disposition =>
    match objects with
    | [] => Ok st
    | _ =>
      kassert (negb (address =? 0));;
      st ← ofold (λ st object, clean_right st object disposition) st objects;
      Ok (notify st (kfree address (u32 (Z.of_nat (length objects) * 4))))
    end
  end.

Definition ipc_kmsg_clean_body (st : pstate) (ds : list mach_msg_descriptor) (number : nat) : outcome pstate :=
  ofold clean_descriptor st (take number ds).

(** [paddr] and [length] are the room for copies that is left over. *)
Definition ipc_kmsg_clean_partial (st : pstate) (m : message) (number : nat) (paddr length : Z) : outcome pstate :=
  let h := msg_header m in
  kassert (IO_VALID (msgh_remote_port h));;
  st ← ipc_object_destroy st (msgh_remote_port h) (MACH_MSGH_BITS_REMOTE (msgh_bits h));
  st ← clean_right st (msgh_local_port h) (MACH_MSGH_BITS_LOCAL (msgh_bits h));
  let st := if negb (paddr =? 0) then notify st (vm_deallocate paddr length) else st in
  ipc_kmsg_clean_body st (msg_descriptors m) number.

Definition ipc_kmsg_clean (st : pstate) (m : message) : outcome pstate :=
  let h := msg_header m in
  st ← clean_right st (msgh_remote_port h) (MACH_MSGH_BITS_REMOTE (msgh_bits h));
  st ← clean_right st (msgh_local_port h) (MACH_MSGH_BITS_LOCAL (msgh_bits h));
  if has (msgh_bits h) MACH_MSGH_BITS_COMPLEX
  then ipc_kmsg_clean_body st (msg_descriptors m) (length (msg_descriptors m)) else Ok st.

(** ** ipc_kmsg_copyout_dest *)

Definition ipc_kmsg_copyout_dest (st : pstate) (m : message) : outcome (pstate * message) :=
  let h := msg_header m in
  let mbits := msgh_bits h in
  let dest := msgh_remote_port h in
  let reply := msgh_local_port h in
  let dest_type := MACH_MSGH_BITS_REMOTE mbits in
  let reply_type := MACH_MSGH_BITS_LOCAL mbits in
  kassert (IO_VALID dest);;
  st ← ip_lock st dest;
  port ← pget st dest;
  '(st, dest_name) ←
    (if ip_active port then ipc_object_copyout_dest space_addr st dest dest_type
     else
       st ← ip_release st dest;
       st ← ip_check_unlock st dest;
       Ok (st, MACH_PORT_DEAD));
  '(st, reply_name) ←
    (if IO_VALID reply then
       st ← ipc_object_destroy st reply reply_type;
       Ok (st, MACH_PORT_NULL)
     else Ok (st, reply));
  st ← (if has mbits MACH_MSGH_BITS_COMPLEX
        then ipc_kmsg_clean_body st (msg_descriptors m) (length (msg_descriptors m)) else Ok st);
  Ok (st, MSG (MSGH (Z.lor (MACH_MSGH_BITS_OTHER mbits) (MACH_MSGH_BITS reply_type dest_type)) reply_name dest_name)
            (msg_descriptors m)).
End kmsg.
