(* ===== verification/IpcMqueueInv.v ===== *)
(** * What the operations on message queues do

    With no other thread running, an operation changes one port and one
    queue, which is the port's own or that of the set it is in.  [at_queue]
    is the state after such a change; delivery, receipt and waiting are
    equations for it.  The invariant of the queues holds in the new state if
    the new queue is sensible. *)

From stdpp Require Import prelude list gmap.
From S2P Require Import Prelude MachPort IpcSplay IpcTypes IpcHash IpcTable IpcEntry IpcPort IpcDnreq IpcPortRights IpcPset IpcPsetInv.
From S2P Require Import IpcDestroy IpcRight IpcObject IpcMqueue.

(** ** One port and one queue *)

(** The queue [q] of the port [p] becomes [mq], its port changes by [g],
    threads are woken by [ws]. *)
Definition at_queue (st : pstate) (p : Z) (g : ipc_port → ipc_port) (q : mqptr) (mq : ipc_mqueue) (ws : list wakeup)
    (c : nat) : pstate :=
  PST (alter (λ port, match q with MQ_port _ => set_ip_messages (g port) mq | MQ_pset _ => g port end) p (ps_ports st))
    (match q with MQ_port _ => ps_psets st | MQ_pset s => alter (λ pset, set_ips_messages pset mq) s (ps_psets st) end)
    (ps_timestamp st) (ps_multiple st) (ps_notes st) (ws ++ ps_woken st) c.

(** [q] is the queue of [p], or one that [p] has nothing to do with. *)
Definition queue_at (st : pstate) (p : Z) (q : mqptr) (mq : ipc_mqueue) : Prop :=
  queue_of (ps_ports st) (ps_psets st) q = Some mq ∧
  match q with MQ_port p' => p' = p | MQ_pset _ => True end.

(** [g] changes neither the lock, the queue, the set nor the life of a port. *)
Record gentle (g : ipc_port → ipc_port) : Prop := {
  ge_locked port : ip_locked (g port) = ip_locked port;
  ge_messages port : ip_messages (g port) = ip_messages port;
  ge_pset port : ip_pset (g port) = ip_pset port;
  ge_active port : ip_active (g port) = ip_active port;
  ge_data port : ip_data (g port) = ip_data port;
}.

Lemma gentle_id : gentle (λ port, port).
Proof. done. Qed.

#[export] Hint Resolve gentle_id : core.

Section at_queue.
Context (st : pstate) (p : Z) (g : ipc_port → ipc_port) (q : mqptr) (mq' : ipc_mqueue) (ws : list wakeup) (c : nat).

Local Abbreviation st' := (at_queue st p g q mq' ws c).

Lemma at_queue_port x :
  x ≠ p → ps_ports st' !! x = ps_ports st !! x.
Proof. intros Hx. simpl. by rewrite lookup_alter_ne. Qed.

Lemma at_queue_fmap {A} (f : ipc_port → A) :
  (∀ port mq, f (set_ip_messages port mq) = f port) → (∀ port, f (g port) = f port) → f <$> ps_ports st' = f <$> ps_ports st.
Proof.
  intros Hf Hfg. apply map_eq. intros x. rewrite !lookup_fmap. simpl. destruct (decide (x = p)) as [->|].
  - rewrite lookup_alter_eq. destruct (ps_ports st !! p); [|done]. simpl. destruct q; by rewrite ?Hf, Hfg.
  - by rewrite lookup_alter_ne.
Qed.

Lemma at_queue_psets {A} (f : ipc_pset → A) :
  (∀ pset mq, f (set_ips_messages pset mq) = f pset) → f <$> ps_psets st' = f <$> ps_psets st.
Proof.
  intros Hf. apply map_eq. intros x. rewrite !lookup_fmap. simpl. destruct q as [|s]; [done|].
  destruct (decide (x = s)) as [->|].
  - rewrite lookup_alter_eq. destruct (ps_psets st !! s); [|done]. simpl. by rewrite Hf.
  - by rewrite lookup_alter_ne.
Qed.

(** What is kept of every port. *)
Lemma at_queue_kept {A} (f : ipc_port → A) x port' :
  (∀ port mq, f (set_ip_messages port mq) = f port) → (∀ port, f (g port) = f port) →
  ps_ports st' !! x = Some port' → ∃ port, ps_ports st !! x = Some port ∧ f port = f port'.
Proof.
  intros Hf Hfg Hx. pose proof (at_queue_fmap f Hf Hfg) as Heq. apply (f_equal (.!! x)) in Heq.
  rewrite !lookup_fmap, Hx in Heq. destruct (ps_ports st !! x) as [port|]; [|done]. simpl in Heq. exists port. split; congruence.
Qed.

Context (mq : ipc_mqueue).
Hypothesis Hq : queue_at st p q mq.

Lemma at_queue_same : queue_of (ps_ports st') (ps_psets st') q = Some mq'.
Proof.
  destruct Hq as [Hmq Hh]. destruct q as [p'|s]; simpl in *.
  - subst p'. rewrite lookup_alter_eq. by destruct (ps_ports st !! p).
  - rewrite lookup_alter_eq. by destruct (ps_psets st !! s).
Qed.

Lemma at_queue_other q' :
  gentle g → q' ≠ q → queue_of (ps_ports st') (ps_psets st') q' = queue_of (ps_ports st) (ps_psets st) q'.
Proof.
  destruct Hq as [Hmq Hh]. intros Hg Hne. destruct q as [p'|s], q' as [p1|s1]; simpl in *; subst; try done.
  - by rewrite lookup_alter_ne by congruence.
  - destruct (decide (p1 = p)) as [->|]; [|by rewrite lookup_alter_ne].
    rewrite lookup_alter_eq. destruct (ps_ports st !! p) as [port|]; [|done]. simpl. by rewrite (ge_messages _ Hg).
  - by rewrite lookup_alter_ne by congruence.
Qed.

End at_queue.

(** ** The invariant of the queues *)

(** A message that may be in the queue [q]. *)
Definition belongs (ports : gmap Z ipc_port) (q : mqptr) (m : ipc_kmsg) : Prop :=
  match q with
  | MQ_port p => ikm_remote_port m = p
  | MQ_pset s => ∃ port, ports !! ikm_remote_port m = Some port ∧ ip_pset port = s
  end.

(** A message that is in no queue. *)
Definition unqueued (st : pstate) (m : ipc_kmsg) : Prop :=
  ∀ q mq m', queue_of (ps_ports st) (ps_psets st) q = Some mq → m' ∈ imq_messages mq → ikm_addr m' ≠ ikm_addr m.

Lemma own_message ports psets p port m :
  queues_wf ports psets → ports !! p = Some port → ip_pset port = IPS_NULL → m ∈ imq_messages (ip_messages port) →
  ikm_remote_port m = p.
Proof. intros Hw Hp Hn Hm. pose proof (qw_own _ _ Hw p port Hp Hn) as Ho. by rewrite Forall_forall in Ho; apply Ho. Qed.

Section wf.
Context (st : pstate) (p : Z) (g : ipc_port → ipc_port) (q : mqptr) (mq mq' : ipc_mqueue) (ws : list wakeup) (c : nat).
Hypothesis Hq : queue_at st p q mq.
Hypothesis Hg : gentle g.
Hypothesis Hw : queues_wf (ps_ports st) (ps_psets st).
(** The new queue: at most one new message. *)
Hypothesis Hlock : imq_locked mq' = false.
Hypothesis Hcalm : mq_calm mq'.
Hypothesis Hnd : NoDup (ikm_addr <$> imq_messages mq').
Hypothesis Hms : ∀ m, m ∈ imq_messages mq' →
  m ∈ imq_messages mq ∨ (unqueued st m ∧ belongs (ps_ports st) q m).
Hypothesis Hmember : match q with
  | MQ_port p => ∀ port, ps_ports st !! p = Some port → ip_pset port = IPS_NULL
  | MQ_pset _ => True end.

Local Abbreviation st' := (at_queue st p g q mq' ws c).
Local Abbreviation Q' := (queue_of (ps_ports st') (ps_psets st')).
Local Abbreviation Q := (queue_of (ps_ports st) (ps_psets st)).

Lemma at_queue_cases q0 mq0 : Q' q0 = Some mq0 → (q0 = q ∧ mq0 = mq') ∨ (q0 ≠ q ∧ Q q0 = Some mq0).
Proof.
  intros H0. destruct (decide (q0 = q)) as [->|Hne].
  - left. rewrite (at_queue_same _ _ _ _ _ _ _ mq) in H0 by done. naive_solver.
  - right. by rewrite (at_queue_other _ _ _ _ _ _ _ mq) in H0.
Qed.

Lemma belongs_pset m : m ∈ imq_messages mq → ∀ s, q = MQ_pset s → belongs (ps_ports st) q m.
Proof.
  intros Hm s ->. destruct Hq as [Hs _]. simpl in Hs. destruct (ps_psets st !! s) as [pset|] eqn:Hps; [|done].
  injection Hs as <-. by apply (qw_set _ _ Hw s pset m).
Qed.

Lemma kept_pset x port' :
  ps_ports st' !! x = Some port' → ∃ port, ps_ports st !! x = Some port ∧ ip_pset port = ip_pset port' ∧ ip_active port = ip_active port'.
Proof.
  intros Hx. destruct (at_queue_kept st p g q mq' ws c (λ port, (ip_pset port, ip_active port)) x port') as (port & Hp & [= ? ?]);
    [done| |done|by exists port]. intros port. by rewrite (ge_pset _ Hg), (ge_active _ Hg).
Qed.

Lemma new_pset x port : ps_ports st !! x = Some port → ∃ port', ps_ports st' !! x = Some port' ∧ ip_pset port' = ip_pset port.
Proof.
  intros Hx. assert (is_Some (ps_ports st' !! x)) as [port' Hx'].
  { simpl. destruct (decide (x = p)) as [->|]; [rewrite lookup_alter_eq|rewrite lookup_alter_ne by done]; rewrite Hx; by eexists. }
  exists port'. destruct (kept_pset x port' Hx') as (port0 & Hx0 & ? & _). split; [done|congruence].
Qed.

Lemma new_psets s pset' : ps_psets st' !! s = Some pset' →
  ∃ pset, ps_psets st !! s = Some pset ∧ ips_references pset' = ips_references pset ∧ ips_active pset' = ips_active pset.
Proof.
  intros Hs. pose proof (at_queue_psets st p g q mq' ws c (λ s, (ips_references s, ips_active s))) as Heq.
  specialize (Heq ltac:(done)). apply (f_equal (.!! s)) in Heq. rewrite !lookup_fmap, Hs in Heq.
  destruct (ps_psets st !! s) as [pset|]; [|done]. injection Heq as ? ?. by exists pset.
Qed.

Lemma at_queue_wf : queues_wf (ps_ports st') (ps_psets st').
Proof.
  split.
  - intros q0 mq0 [[-> ->]|[_ H0]]%at_queue_cases; [done|by apply (qw_unlocked _ _ Hw q0)].
  - intros q0 mq0 [[-> ->]|[_ H0]]%at_queue_cases; [done|by apply (qw_calm _ _ Hw q0)].
  - intros q0 mq0 [[-> ->]|[_ H0]]%at_queue_cases; [done|by apply (qw_nodup _ _ Hw q0)].
  - intros q1 q2 mq1 mq2 m1 m2 [[-> ->]|[Hn1 H1]]%at_queue_cases [[-> ->]|[Hn2 H2]]%at_queue_cases; [done|..].
    + intros [Hm1|[Hu _]]%Hms Hm2 Ha; [by eapply (qw_apart _ _ Hw q q2); [apply Hq|..]|].
      exfalso. by apply (Hu q2 mq2 m2).
    + intros Hm1 [Hm2|[Hu _]]%Hms Ha; [by eapply (qw_apart _ _ Hw q1 q); [|apply Hq|..]|].
      exfalso. by apply (Hu q1 mq1 m1).
    + by apply (qw_apart _ _ Hw q1 q2 mq1 mq2).
  - intros x port' Hx Hn. apply Forall_forall. intros m Hm.
    assert (Q' (MQ_port x) = Some (ip_messages port')) as Hqx by (simpl in *; by rewrite Hx).
    destruct (kept_pset x port' Hx) as (port & Hport & Hps & _). apply at_queue_cases in Hqx as [[Heq Hmq]|[Hne Hqx]].
    + rewrite Hmq in Hm. apply Hms in Hm as [Hm|[_ Hb]]; [|by rewrite <-Heq in Hb].
      rewrite <-Heq in Hq. destruct Hq as [Hqq _]. simpl in Hqq. rewrite Hport in Hqq. injection Hqq as Hqq. rewrite <-Hqq in Hm.
      by apply (own_message _ _ x port m Hw Hport); [congruence|].
    + simpl in Hqx. rewrite Hport in Hqx. injection Hqx as Hqx. rewrite <-Hqx in Hm.
      by apply (own_message _ _ x port m Hw Hport); [congruence|].
  - intros x port' Hx Hn. destruct (kept_pset x port' Hx) as (port & Hport & Hps & Ha).
    destruct (qw_member _ _ Hw x port Hport) as (Ha' & Hm & Hs); [congruence|].
    assert (Q' (MQ_port x) = Some (ip_messages port')) as Hqx by (simpl in *; by rewrite Hx).
    apply at_queue_cases in Hqx as [[Heq Hmq]|[Hne Hqx]].
    + exfalso. rewrite <-Heq in Hmember. specialize (Hmember port Hport). congruence.
    + simpl in Hqx. rewrite Hport in Hqx. injection Hqx as Hqx. split_and!; [congruence..|].
      pose proof (at_queue_psets st p g q mq' ws c (λ _, ())) as Heq. specialize (Heq ltac:(done)).
      apply (f_equal (.!! ip_pset port')) in Heq. rewrite !lookup_fmap, <-Hps in Heq. rewrite <-Hps.
      destruct Hs as [s Hs]. rewrite Hs in Heq. by destruct (ps_psets st' !! ip_pset port).
  - intros s pset' m Hs Hm. destruct (new_psets s pset' Hs) as (pset & Hpset & _).
    assert (∃ port, ps_ports st !! ikm_remote_port m = Some port ∧ ip_pset port = s) as (port & Hport & Hps).
    { assert (Q' (MQ_pset s) = Some (ips_messages pset')) as Hqs by (simpl in *; by rewrite Hs).
      apply at_queue_cases in Hqs as [[Heq Hmq]|[Hne Hqs]].
      - rewrite Hmq in Hm. assert (belongs (ps_ports st) q m) as Hb; [|by rewrite <-Heq in Hb].
        apply Hms in Hm as [Hm|[_ Hb]]; [by eapply belongs_pset|done].
      - simpl in Hqs. rewrite Hpset in Hqs. injection Hqs as Hqs. rewrite <-Hqs in Hm. by apply (qw_set _ _ Hw s pset). }
    destruct (new_pset _ _ Hport) as (port' & Hport' & ?). exists port'. split; [done|congruence].
  - intros s pset' Hs. destruct (new_psets s pset' Hs) as (pset & Hpset & Hr & Ha). rewrite Hr, Ha.
    destruct (qw_refs _ _ Hw s pset Hpset) as [Hz Hrefs]. split; [done|].
    unfold members. rewrite (at_queue_fmap st p g q mq' ws c ip_pset) by (done || apply Hg). exact Hrefs.
Qed.
End wf.

(** ** Running code on one port and one queue *)

(** The port, as it is in the state. *)
Definition port_at (port : ipc_port) (q : mqptr) (g : ipc_port → ipc_port) (mq : ipc_mqueue) : ipc_port :=
  match q with MQ_port _ => set_ip_messages (g port) mq | MQ_pset _ => g port end.

Lemma port_at_read port q {A} (f : ipc_port → A) g mq :
  (∀ port mq, f (set_ip_messages port mq) = f port) → f (port_at port q g mq) = f (g port).
Proof. intros Hf. unfold port_at. by destruct q. Qed.

Lemma at_queue_start st p q mq0 :
  queue_at st p q mq0 → st = at_queue st p (λ port, port) q mq0 [] (ps_clock st).
Proof.
  intros Hq. destruct st as [ports psets ts mu ns wo cl]. destruct Hq as [Hmq Hh]. unfold at_queue. simpl in *. f_equal.
  - apply map_eq. intros x. destruct (decide (x = p)) as [->|]; [|by rewrite lookup_alter_ne].
    rewrite lookup_alter_eq. destruct (ports !! p) as [port|] eqn:Hp; [|done].
    destruct q as [p'|s]; [|done]. simpl in Hmq. subst p'. rewrite Hp in Hmq. injection Hmq as <-. by destruct port.
  - destruct q as [p'|s]; [done|]. apply map_eq. intros x. destruct (decide (x = s)) as [->|]; [|by rewrite lookup_alter_ne].
    rewrite lookup_alter_eq. simpl in Hmq. destruct (psets !! s) as [pset|]; [|done]. injection Hmq as <-. by destruct pset.
Qed.

Section run.
Context `{PW : pworld, !quiet}.
Context (st : pstate) (p : Z) (q : mqptr) (mq0 : ipc_mqueue).
Hypothesis Hq : queue_at st p q mq0.

Local Abbreviation C := (at_queue st p).

Lemma run_mqget g mq ws c : mqget (C g q mq ws c) q = Ok mq.
Proof using All.
  pose proof (at_queue_same st p g q mq ws c mq0 Hq) as Hs. unfold mqget. destruct q as [p'|s]; simpl in *.
  - unfold pget. simpl. destruct Hq as [_ Hh]. simpl in Hh. subst p'. destruct (alter _ _ _ !! p); [|done]. by injection Hs as <-.
  - unfold sget. simpl. destruct (alter _ _ _ !! s); [|done]. by injection Hs as <-.
Qed.

Lemma run_mqmod g mq ws c f : mqmod (C g q mq ws c) q f = Ok (C g q (f mq) ws c).
Proof using All.
  destruct Hq as [Hmq Hh]. unfold mqmod. destruct q as [p'|s] eqn:Hqq; simpl in Hh.
  - subst p'. simpl in Hmq. unfold pmod, pget. simpl. rewrite lookup_alter_eq.
    destruct (ps_ports st !! p) as [port|] eqn:Hp; [|done]. simpl. ostep. unfold with_ports, at_queue. simpl. do 2 f_equal.
    apply map_eq. intros x. destruct (decide (x = p)) as [->|].
    + by rewrite lookup_insert_eq, lookup_alter_eq, Hp.
    + by rewrite lookup_insert_ne, !lookup_alter_ne.
  - simpl in Hmq. unfold smod, sget. simpl. rewrite lookup_alter_eq. destruct (ps_psets st !! s) as [pset|] eqn:Hs; [|done].
    simpl. ostep. unfold with_psets, at_queue. simpl. do 2 f_equal. apply map_eq. intros x. destruct (decide (x = s)) as [->|].
    + by rewrite lookup_insert_eq, lookup_alter_eq, Hs.
    + by rewrite lookup_insert_ne, !lookup_alter_ne.
Qed.

Lemma run_tick g mq ws c : ptick (pw_other c (C g q mq ws c)) = C g q mq ws (S c).
Proof using All. by rewrite other_id. Qed.

Lemma run_imq_lock g mq ws c :
  imq_locked mq = false → imq_lock (C g q mq ws c) q = Ok (C g q (set_imq_locked mq true) ws (S c)).
Proof using All. intros Hl. unfold imq_lock. rewrite run_mqget. ostep. by rewrite Hl, run_tick, run_mqmod. Qed.

Lemma run_imq_unlock g mq ws c :
  imq_locked mq = true → imq_unlock (C g q mq ws c) q = Ok (C g q (set_imq_locked mq false) ws c).
Proof using All. intros Hl. unfold imq_unlock. rewrite run_mqget. ostep. by rewrite Hl, run_mqmod. Qed.

Lemma run_go g mq ws c w : thread_go (C g q mq ws c) w = C g q mq (w :: ws) c.
Proof using All. done. Qed.

Context (port : ipc_port).
Hypothesis Hp : ps_ports st !! p = Some port.

Lemma run_pget g mq ws c : pget (C g q mq ws c) p = Ok (port_at port q g mq).
Proof using All. unfold pget. simpl. by rewrite lookup_alter_eq, Hp. Qed.

Lemma run_pmod g mq ws c f :
  (∀ port mq, f (set_ip_messages port mq) = set_ip_messages (f port) mq) →
  pmod (C g q mq ws c) p f = Ok (C (λ port, f (g port)) q mq ws c).
Proof using All.
  intros Hf. unfold pmod. rewrite run_pget. ostep. unfold with_ports, at_queue. simpl. do 2 f_equal.
  apply map_eq. intros x. destruct (decide (x = p)) as [->|].
  - rewrite lookup_insert_eq, lookup_alter_eq, Hp. simpl. unfold port_at. destruct q; by rewrite ?Hf.
  - by rewrite lookup_insert_ne, !lookup_alter_ne.
Qed.

Lemma run_ip_lock g mq ws c :
  ip_locked (g port) = false → ip_lock (C g q mq ws c) p = Ok (C (λ port, set_ip_locked (g port) true) q mq ws (S c)).
Proof using All.
  intros Hl. unfold ip_lock. rewrite run_pget. ostep. by rewrite (port_at_read port q ip_locked), Hl, run_tick, run_pmod.
Qed.

Lemma run_ip_unlock g mq ws c :
  ip_locked (g port) = true → ip_unlock (C g q mq ws c) p = Ok (C (λ port, set_ip_locked (g port) false) q mq ws c).
Proof using All.
  intros Hl. unfold ip_unlock. rewrite run_pget. ostep. by rewrite (port_at_read port q ip_locked), Hl, run_pmod.
Qed.

(** What is done to the port is what matters of it. *)
Lemma at_queue_ext g g' mq ws c : g port = g' port → C g q mq ws c = C g' q mq ws c.
Proof using All.
  intros Hg. unfold at_queue. f_equal. apply map_eq. intros x. destruct (decide (x = p)) as [->|].
  - rewrite !lookup_alter_eq, Hp. simpl. by rewrite Hg.
  - by rewrite !lookup_alter_ne.
Qed.
End run.

(** ** Delivery *)

(** The queue that has the messages of a port. *)
Definition home (p : Z) (port : ipc_port) : mqptr :=
  if ip_pset port =? IPS_NULL then MQ_port p else MQ_pset (ip_pset port).

Lemma home_queue st p port :
  queues_wf (ps_ports st) (ps_psets st) → ps_ports st !! p = Some port →
  ∃ mq, queue_at st p (home p port) mq ∧ imq_locked mq = false ∧ mq_calm mq.
Proof.
  intros Hw Hp. assert (∃ mq, queue_at st p (home p port) mq) as (mq & Hmq).
  { unfold home, queue_at. destruct (Z.eqb_spec (ip_pset port) IPS_NULL) as [Hn|Hn]; simpl.
    - exists (ip_messages port). by rewrite Hp.
    - destruct (qw_member _ _ Hw p port Hp Hn) as (_ & _ & pset & Hs). exists (ips_messages pset). by rewrite Hs. }
  exists mq. split_and!; [done|..]; [eapply (qw_unlocked _ _ Hw), Hmq|eapply (qw_calm _ _ Hw), Hmq].
Qed.

Definition counted (n : Z) (port : ipc_port) : ipc_port := set_ip_msgcount port (ip_msgcount port + n).
Definition numbered (port : ipc_port) : ipc_port := set_ip_seqno port (u32 (ip_seqno port + 1)).
Definition waits (self : Z) (port : ipc_port) : ipc_port := set_ip_blocked port (ip_blocked port ++ [self]).

Lemma gentle_counted n : gentle (counted n).
Proof. done. Qed.
Lemma gentle_numbered : gentle numbered.
Proof. done. Qed.
Lemma gentle_waits self : gentle (waits self).
Proof. done. Qed.
Lemma gentle_compose g g' : gentle g → gentle g' → gentle (λ port, g (g' port)).
Proof.
  intros [] [] ; split; intros port;
    repeat match goal with H : ∀ _, ?f (g _) = _ |- ?f (g _) = _ => rewrite H end; auto.
Qed.
#[export] Hint Resolve gentle_counted gentle_numbered gentle_waits gentle_compose : core.

(** A message is handed to the first receiver or queued. *)
Definition receiver_of (mq : ipc_mqueue) : option Z := head (imq_threads mq).

Definition deliver_port (mq : ipc_mqueue) (port : ipc_port) : ipc_port :=
  match receiver_of mq with Some _ => numbered (counted 1 port) | None => counted 1 port end.
Definition deliver_queue (mq : ipc_mqueue) (kmsg : ipc_kmsg) : ipc_mqueue :=
  match receiver_of mq with
  | Some _ => set_imq_threads mq (tail (imq_threads mq))
  | None => set_imq_messages mq (imq_messages mq ++ [kmsg])
  end.
Definition deliver_woken (mq : ipc_mqueue) (kmsg : ipc_kmsg) (port : ipc_port) : list wakeup :=
  match receiver_of mq with
  | Some th => [WK th MACH_MSG_SUCCESS (Some (kmsg, ip_seqno port))]
  | None => []
  end.

Lemma unlock_relock mq : imq_locked mq = false → set_imq_locked (set_imq_locked mq true) false = mq.
Proof. destruct mq. simpl. by intros ->. Qed.

Section ops.
Context `{IW : iworld} `{PW : pworld, !quiet}.
Context (st : pstate) (p : Z) (port : ipc_port) (q : mqptr) (mq : ipc_mqueue).
Hypothesis Hp : ps_ports st !! p = Some port.
Hypothesis Hq : queue_at st p q mq.
Hypothesis Hul : ip_locked port = false.
Hypothesis Hqul : imq_locked mq = false.

Local Abbreviation C := (at_queue st p).
Local Abbreviation locked := (λ port : ipc_port, set_ip_locked port true).

Lemma deliver_spec kmsg c :
  q = home p port → mq_calm mq → ip_active port = true → IP_VALID p = true → 0 ≤ ip_msgcount port → ip_msgcount port + 1 < 2 ^ 32 →
  ipc_mqueue_deliver (C locked q mq [] c) p kmsg =
    Ok (C (deliver_port mq) q (deliver_queue mq kmsg) (deliver_woken mq kmsg port) (S c)).
Proof.
  intros Hh Hc Ha Hv Hn Hn'. unfold ipc_mqueue_deliver. rewrite Hv. ostep.
  rewrite (run_pget st p q mq Hq port Hp). ostep.
  rewrite (port_at_read port q ip_active), (port_at_read port q ip_pset) by done. cbn [ip_active set_ip_locked ip_pset]. rewrite Ha. ostep.
  fold (home p port). rewrite <-Hh.
  rewrite (run_imq_lock st p q mq Hq) by done. ostep. rewrite (run_pmod st p q mq Hq port Hp) by done. ostep.
  rewrite (run_pget st p q mq Hq port Hp). ostep. rewrite (port_at_read port q ip_msgcount) by done. cbn [ip_msgcount set_ip_locked set_ip_msgcount].
  rewrite u32_small by (unfold is_u32; lia). rewrite (proj2 (Z.ltb_lt 0 _)) by lia. ostep.
  rewrite (run_ip_unlock st p q mq Hq port Hp) by done. ostep. rewrite (run_mqget st p q mq Hq). ostep.
  cbn [imq_threads set_imq_locked]. unfold deliver_port, deliver_queue, deliver_woken, receiver_of.
  destruct (imq_threads mq) as [|th ths] eqn:Hth; cbn [head tail].
  - rewrite (run_mqmod st p q mq Hq). ostep. rewrite (run_imq_unlock st p q mq Hq) by done.
    rewrite (at_queue_ext st p q mq Hq port Hp _ (counted 1)); [|apply port_ext; simpl; rewrite ?u32_small by (unfold is_u32; lia); done].
    f_equal. f_equal. destruct mq. simpl in *. by subst.
  - rewrite (run_mqmod st p q mq Hq). ostep. cbn [imq_messages set_imq_locked].
    destruct Hc as [Hc|Hc]; [by rewrite Hth in Hc|]. rewrite bool_decide_true by done. ostep.
    rewrite (run_pget st p q mq Hq port Hp). ostep. rewrite (run_pmod st p q mq Hq port Hp) by done. ostep.
    rewrite (run_imq_unlock st p q mq Hq) by done. ostep. rewrite (port_at_read port q ip_seqno) by done. rewrite (run_go st p q mq Hq).
    rewrite (at_queue_ext st p q mq Hq port Hp _ (λ port, numbered (counted 1 port))); [|apply port_ext; simpl; rewrite ?u32_small by (unfold is_u32; lia); done].
    f_equal. f_equal. destruct mq. simpl in *. by subst.
Qed.

(** ** Sending *)

(** The port takes the message now. *)
Definition accepts (opt : Z) (kmsg : ipc_kmsg) (port : ipc_port) : bool :=
  (ip_msgcount port <? ip_qlimit port) || has opt MACH_SEND_ALWAYS ||
  (MACH_MSGH_BITS_REMOTE (ikm_bits kmsg) =? MACH_MSG_TYPE_PORT_SEND_ONCE).

(** What a round of a send to an active port does. *)
Definition send_state (kmsg : ipc_kmsg) (opt timeout self : Z) (c : nat) : pstate * send_status :=
  if accepts opt kmsg port then
    (C (deliver_port mq) q (deliver_queue mq kmsg) (deliver_woken mq kmsg port) (S c), Returned MACH_MSG_SUCCESS)
  else if has opt MACH_SEND_TIMEOUT && (timeout =? 0) then
    (C (λ port, port) q mq [] c, Returned MACH_SEND_TIMED_OUT)
  else (C (waits self) q mq [] c, Blocked).

Hypothesis Hh : q = home p port.
Hypothesis Hc : mq_calm mq.
Hypothesis Ha : ip_active port = true.
Hypothesis Hv : IP_VALID p = true.
Hypothesis Hn : 0 ≤ ip_msgcount port ∧ ip_msgcount port + 1 < 2 ^ 32.

Lemma send_round_spec kmsg opt timeout self c :
  ikm_remote_port kmsg = p →
  send_round (C locked q mq [] c) kmsg opt timeout self = Ok (send_state kmsg opt timeout self c).
Proof.
  intros Hk. unfold send_round. rewrite Hk, (run_pget st p q mq Hq port Hp). ostep.
  rewrite (port_at_read port q ip_active), (port_at_read port q ip_msgcount), (port_at_read port q ip_qlimit) by done.
  cbn [ip_active set_ip_locked ip_msgcount ip_qlimit]. rewrite Ha. ostep. fold (accepts opt kmsg port). unfold send_state.
  destruct (accepts opt kmsg port).
  { destruct Hn. by rewrite deliver_spec. }
  destruct (has opt MACH_SEND_TIMEOUT && (timeout =? 0)).
  - rewrite (run_ip_unlock st p q mq Hq port Hp) by done. ostep.
    by rewrite (at_queue_ext st p q mq Hq port Hp _ (λ port, port)) by (by destruct port; simpl in *; subst).
  - rewrite (run_pmod st p q mq Hq port Hp) by done. ostep. rewrite (run_ip_unlock st p q mq Hq port Hp) by done. ostep.
    by rewrite (at_queue_ext st p q mq Hq port Hp _ (waits self)) by (by destruct port; simpl in *; subst).
Qed.

Lemma send_spec kernel server fuel kmsg opt timeout self :
  ikm_remote_port kmsg = p → ip_receiver port ≠ kernel → has (ikm_bits kmsg) MACH_MSGH_BITS_CIRCULAR = false →
  ipc_mqueue_send kernel server (S fuel) st kmsg opt timeout self =
    Ok (send_state kmsg opt timeout self (S (ps_clock st))).
Proof.
  intros Hk Hr Hb. cbn [ipc_mqueue_send]. rewrite Hk, Hv. ostep.
  rewrite (at_queue_start st p q mq Hq) at 1. rewrite (run_ip_lock st p q mq Hq port Hp) by done. ostep.
  rewrite (run_pget st p q mq Hq port Hp). ostep. rewrite (port_at_read port q ip_data) by done. cbn [ip_data set_ip_locked].
  rewrite (proj2 (Z.eqb_neq _ _) Hr), Hb. by rewrite send_round_spec.
Qed.

Lemma send_resume_spec kmsg opt timeout self result :
  ikm_remote_port kmsg = p →
  send_resume st kmsg opt timeout self MACH_MSG_SUCCESS result =
    Ok (send_state kmsg opt timeout self (S (ps_clock st))).
Proof.
  intros Hk. unfold send_resume. rewrite Hk, (at_queue_start st p q mq Hq) at 1.
  rewrite (run_ip_lock st p q mq Hq port Hp) by done. ostep. by rewrite send_round_spec.
Qed.
End ops.

(** ** Receiving *)

Section receive.
Context `{IW : iworld} `{PW : pworld, !quiet}.
Context (st : pstate) (p : Z) (q : mqptr) (mq : ipc_mqueue).
Hypothesis Hq : queue_at st p q mq.
Hypothesis Hqul : imq_locked mq = false.

Local Abbreviation C := (at_queue st p).

Definition added (self : Z) (mq : ipc_mqueue) : ipc_mqueue := set_imq_threads mq (imq_threads mq ++ [self]).
Definition removed (self : Z) (mq : ipc_mqueue) : ipc_mqueue :=
  set_imq_threads mq (filter (λ th, th ≠ self) (imq_threads mq)).

(** There is no message. *)
Definition wait_state (mq : ipc_mqueue) (opt timeout self : Z) (c : nat) : pstate * receive_status :=
  if has opt MACH_RCV_TIMEOUT && (timeout =? 0) then (C (λ port, port) q mq [] c, Failed MACH_RCV_TIMED_OUT)
  else (C (λ port, port) q (added self mq) [] c, Waiting).

Lemma wait_round_spec mq1 opt timeout self c :
  imq_locked mq1 = false → imq_messages mq1 = [] →
  receive_round (C (λ port, port) q (set_imq_locked mq1 true) [] c) q opt timeout self =
    Ok (wait_state mq1 opt timeout self c).
Proof.
  intros Hl1 Hm. unfold receive_round, wait_state. rewrite (run_mqget st p q mq Hq). ostep.
  destruct mq1 as [lk ms ths]. cbn [imq_locked imq_messages set_imq_locked imq_threads] in *. subst lk ms.
  destruct (has opt MACH_RCV_TIMEOUT && (timeout =? 0)).
  - by rewrite (run_imq_unlock st p q mq Hq).
  - rewrite (run_mqmod st p q mq Hq). ostep. by rewrite (run_imq_unlock st p q mq Hq).
Qed.

Lemma wait_spec opt timeout self :
  imq_messages mq = [] →
  (st ← imq_lock st q; receive_round st q opt timeout self) = Ok (wait_state mq opt timeout self (S (ps_clock st))).
Proof.
  intros Hm. rewrite (at_queue_start st p q mq Hq) at 1. rewrite (run_imq_lock st p q mq Hq) by done. ostep.
  by apply wait_round_spec.
Qed.

(** There is one, for the port [p]. *)
Lemma got_spec port kmsg kmsgs opt timeout self :
  ps_ports st !! p = Some port → imq_messages mq = kmsg :: kmsgs → ikm_remote_port kmsg = p →
  (st ← imq_lock st q; receive_round st q opt timeout self) =
    Ok (C numbered q (set_imq_messages mq kmsgs) [] (S (ps_clock st)), Got kmsg (ip_seqno port)).
Proof.
  intros Hp Hm Hk. rewrite (at_queue_start st p q mq Hq) at 1. rewrite (run_imq_lock st p q mq Hq) by done. ostep.
  unfold receive_round. rewrite (run_mqget st p q mq Hq). ostep. cbn [imq_messages set_imq_locked]. rewrite Hm, Hk.
  rewrite (run_mqmod st p q mq Hq). ostep. rewrite (run_pget st p q mq Hq port Hp). ostep.
  rewrite (run_pmod st p q mq Hq port Hp) by done. ostep. rewrite (run_imq_unlock st p q mq Hq) by done. ostep.
  rewrite (port_at_read port q ip_seqno) by done. do 3 f_equal. destruct mq. simpl in *. by subst.
Qed.

Lemma thread_rmqueue_spec mq1 self c :
  self ∈ imq_threads mq1 →
  thread_rmqueue (C (λ port, port) q mq1 [] c) q self = Ok (C (λ port, port) q (removed self mq1) [] c).
Proof.
  intros Hin. unfold thread_rmqueue. rewrite (run_mqget st p q mq Hq). ostep. rewrite bool_decide_true by done. ostep.
  by rewrite (run_mqmod st p q mq Hq).
Qed.

(** The thread was woken. *)
Lemma receive_woken_spec opt timeout self ith_state handed result :
  (ith_state = MACH_MSG_SUCCESS ∧ is_Some handed) ∨ ith_state = MACH_RCV_PORT_DIED ∨ ith_state = MACH_RCV_PORT_CHANGED →
  receive_resume st q opt timeout self ith_state handed result =
    Ok (C (λ port, port) q mq [] (S (ps_clock st)),
        match handed with
        | Some (kmsg, seqno) => if bool_decide (ith_state = MACH_MSG_SUCCESS) then Got kmsg seqno else Failed ith_state
        | None => Failed ith_state
        end).
Proof.
  intros Hi. unfold receive_resume. rewrite (at_queue_start st p q mq Hq) at 1.
  rewrite (run_imq_lock st p q mq Hq) by done. ostep.
  destruct Hi as [[-> [[kmsg seqno] ->]]|[-> | ->]]; ostep; rewrite (run_imq_unlock st p q mq Hq) by done; ostep;
    rewrite unlock_relock by done; [done|by destruct handed as [[]|]..].
Qed.

(** The thread was not woken, but interrupted, or its time was up. *)
Lemma receive_interrupted_spec opt timeout self ith_state handed :
  ith_state = MACH_RCV_IN_PROGRESS ∨ ith_state = MACH_RCV_IN_PROGRESS_TIMED → self ∈ imq_threads mq →
  receive_resume st q opt timeout self ith_state handed THREAD_INTERRUPTED =
    Ok (C (λ port, port) q (removed self mq) [] (S (ps_clock st)), Failed MACH_RCV_INTERRUPTED).
Proof.
  intros Hi Hin. unfold receive_resume. rewrite (at_queue_start st p q mq Hq) at 1.
  rewrite (run_imq_lock st p q mq Hq) by done. ostep.
  assert (set_imq_locked (removed self (set_imq_locked mq true)) false = removed self mq) as Hr.
  { destruct mq. simpl in *. by subst. }
  destruct Hi as [-> | ->]; ostep; rewrite thread_rmqueue_spec by done; ostep;
    rewrite (run_imq_unlock st p q mq Hq) by done; by rewrite Hr.
Qed.

Lemma receive_timeout_spec opt timeout self handed :
  has opt MACH_RCV_TIMEOUT = true → self ∈ imq_threads mq → mq_calm mq →
  receive_resume st q opt timeout self MACH_RCV_IN_PROGRESS_TIMED handed THREAD_TIMED_OUT =
    Ok (C (λ port, port) q (removed self mq) [] (S (ps_clock st)), Failed MACH_RCV_TIMED_OUT).
Proof.
  intros Ho Hin Hc. unfold receive_resume. rewrite (at_queue_start st p q mq Hq) at 1.
  rewrite (run_imq_lock st p q mq Hq) by done. ostep. rewrite thread_rmqueue_spec by done. ostep. rewrite Ho. ostep.
  rewrite bool_decide_true by done. ostep.
  change (removed self (set_imq_locked mq true)) with (set_imq_locked (removed self mq) true).
  assert (imq_messages mq = []) as Hm.
  { destruct Hc as [Hc|Hc]; [|done]. rewrite Hc in Hin. by apply elem_of_nil in Hin. }
  rewrite wait_round_spec by done. unfold wait_state. by rewrite Ho, Z.eqb_refl.
Qed.
End receive.

(** ** The end of a receive *)

(** A blocked sender goes on when there is room again. *)
Definition next_sender (port : ipc_port) : option Z :=
  match ip_blocked port with
  | sender :: _ => if ip_msgcount port - 1 <? ip_qlimit port then Some sender else None
  | [] => None
  end.
Definition finish_port (port : ipc_port) : ipc_port :=
  match next_sender port with
  | Some _ => set_ip_blocked (counted (-1) port) (tail (ip_blocked port))
  | None => counted (-1) port
  end.
Definition finish_woken (port : ipc_port) : list wakeup :=
  match next_sender port with Some sender => [WK sender MACH_MSG_SUCCESS None] | None => [] end.

Lemma gentle_finish : gentle finish_port.
Proof. by split; intros port; unfold finish_port; destruct (next_sender port). Qed.
#[export] Hint Resolve gentle_finish : core.

Section finish.
Context `{PW : pworld, !quiet}.
Context (st : pstate) (p : Z) (port : ipc_port) (q : mqptr) (mq : ipc_mqueue).
Hypothesis Hp : ps_ports st !! p = Some port.
Hypothesis Hq : queue_at st p q mq.
Hypothesis Hul : ip_locked port = false.
Hypothesis Ha : ip_active port = true.
Hypothesis Hn : 0 < ip_msgcount port.

Lemma finish_wake_spec c :
  finish_wake (at_queue st p (λ port, set_ip_msgcount (set_ip_locked port true) (ip_msgcount port - 1)) q mq [] c) p =
    Ok (at_queue st p (λ port, set_ip_locked (finish_port port) true) q mq (finish_woken port) c).
Proof.
  unfold finish_wake, finish_woken. rewrite (run_pget st p q mq Hq port Hp). ostep.
  rewrite (port_at_read port q ip_blocked), (port_at_read port q ip_msgcount), (port_at_read port q ip_qlimit) by done.
  cbn [ip_blocked ip_msgcount ip_qlimit set_ip_msgcount set_ip_locked].
  assert (∀ g ws, g port = set_ip_locked (finish_port port) true →
    at_queue st p g q mq ws c = at_queue st p (λ port, set_ip_locked (finish_port port) true) q mq ws c) as Hext.
  { intros g ws Hg. by apply (at_queue_ext st p q mq Hq port Hp). }
  unfold next_sender. destruct (ip_blocked port) as [|sender senders] eqn:Hb.
  - f_equal. apply Hext. unfold finish_port, next_sender. rewrite Hb. done.
  - destruct (ip_msgcount port - 1 <? ip_qlimit port) eqn:Hlt.
    + rewrite (run_pmod st p q mq Hq port Hp) by done. ostep. rewrite (run_go st p q mq Hq). f_equal. apply Hext.
      unfold finish_port, next_sender. by rewrite Hb, Hlt.
    + f_equal. apply Hext. unfold finish_port, next_sender. by rewrite Hb, Hlt.
Qed.

Lemma finish_receive_spec kmsg opt max_size scatter :
  ikm_remote_port kmsg = p → has (ikm_bits kmsg) MACH_MSGH_BITS_CIRCULAR = false → GET_RCV_ELEMENTS opt < 3 →
  ∃ mr, receive_check kmsg opt max_size scatter = Ok mr ∧
    ipc_mqueue_finish_receive st kmsg p opt max_size scatter =
    Ok (at_queue st p finish_port q mq (finish_woken port) (S (ps_clock st)), mr).
Proof.
  intros Hk Hb He. assert (∃ mr, receive_check kmsg opt max_size scatter = Ok mr) as [mr Hmr].
  { assert (0 ≤ GET_RCV_ELEMENTS opt) as H0 by (apply Z.land_nonneg; right; lia).
    assert (∃ t, REQUESTED_TRAILER_SIZE opt = Ok t) as [t Ht].
    { unfold REQUESTED_TRAILER_SIZE.
      assert (GET_RCV_ELEMENTS opt = 0 ∨ GET_RCV_ELEMENTS opt = 1 ∨ GET_RCV_ELEMENTS opt = 2) as [-> |[-> | ->]] by lia;
        by eexists. }
    unfold receive_check. rewrite Ht. by eexists. }
  exists mr. split; [done|]. unfold ipc_mqueue_finish_receive. rewrite Hmr. ostep.
  assert ((if bool_decide (mr = MACH_MSG_SUCCESS)
    then kassert (negb (has (ikm_bits kmsg) MACH_MSGH_BITS_CIRCULAR));; kassert (p =? ikm_remote_port kmsg) else Ok ()) = Ok ()) as Hchk.
  { case_bool_decide; [|done]. by rewrite Hb, Hk, Z.eqb_refl. }
  rewrite Hchk. ostep. rewrite (at_queue_start st p q mq Hq) at 1.
  rewrite (run_ip_lock st p q mq Hq port Hp) by done. ostep. rewrite (run_pget st p q mq Hq port Hp). ostep.
  rewrite (port_at_read port q ip_active), (port_at_read port q ip_msgcount) by done. cbn [ip_active ip_msgcount set_ip_locked].
  rewrite Ha, (proj2 (Z.ltb_lt 0 _) Hn). ostep. rewrite (run_pmod st p q mq Hq port Hp) by done. ostep.
  rewrite finish_wake_spec. ostep. rewrite (run_ip_unlock st p q mq Hq port Hp) by done. ostep.
  rewrite (at_queue_ext st p q mq Hq port Hp _ finish_port); [done|].
  assert (ip_locked (finish_port port) = false) as Hl by (by rewrite (ge_locked _ gentle_finish)).
  by destruct (finish_port port); simpl in *; subst.
Qed.

(** A blocked sender stops waiting before a wakeup: it is interrupted, or its
    time is up while the port still does not take its message. *)
Definition gives_up (kmsg : ipc_kmsg) (opt : Z) (result : wait_result) (mr : mach_msg_return) : Prop :=
  (result = THREAD_INTERRUPTED ∧ mr = MACH_SEND_INTERRUPTED) ∨
  (result = THREAD_TIMED_OUT ∧ mr = MACH_SEND_TIMED_OUT ∧ has opt MACH_SEND_TIMEOUT = true ∧
   accepts opt kmsg port = false).

Lemma give_up_spec kmsg opt timeout self result mr :
  ikm_remote_port kmsg = p → gives_up kmsg opt result mr →
  send_resume st kmsg opt timeout self MACH_SEND_IN_PROGRESS result =
    Ok (at_queue st p (λ port, port) q mq [] (S (ps_clock st)), Returned mr).
Proof.
  intros Hk Hg. unfold send_resume. rewrite Hk, (at_queue_start st p q mq Hq) at 1.
  rewrite (run_ip_lock st p q mq Hq port Hp) by done. ostep.
  destruct Hg as [[-> ->]|(-> & -> & Ht & Hacc)].
  - rewrite Hk, (run_ip_unlock st p q mq Hq port Hp) by done. ostep.
    by rewrite (at_queue_ext st p q mq Hq port Hp _ (λ port, port)) by (by destruct port; simpl in *; subst).
  - rewrite Ht. ostep. unfold send_round. rewrite Hk, (run_pget st p q mq Hq port Hp). ostep.
    rewrite (port_at_read port q ip_active), (port_at_read port q ip_msgcount), (port_at_read port q ip_qlimit) by done.
    cbn [ip_active set_ip_locked ip_msgcount ip_qlimit]. rewrite Ha. ostep. fold (accepts opt kmsg port). rewrite Hacc, Ht. ostep.
    rewrite (run_ip_unlock st p q mq Hq port Hp) by done. ostep.
    by rewrite (at_queue_ext st p q mq Hq port Hp _ (λ port, port)) by (by destruct port; simpl in *; subst).
Qed.

End finish.

Section gives_up.
Context `{PW : pworld, !quiet}.

(** C39. A blocked sender that is interrupted, or whose time is up while
    the port is still full, returns and stays at its place in the queue of
    blocked senders; when it is the first there, the next receive from the
    port, which makes room for one message, spends its only wakeup on it,
    and the senders behind it stay blocked although there is room. *)
Theorem interrupted_sender_kept st p port kmsg opt timeout th result mr senders :
  ps_ports st !! p = Some port → ip_locked port = false → ip_active port = true →
  0 < ip_msgcount port ≤ ip_qlimit port → ip_blocked port = th :: senders →
  ikm_remote_port kmsg = p → gives_up port kmsg opt result mr →
  ∃ st1, send_resume st kmsg opt timeout th MACH_SEND_IN_PROGRESS result = Ok (st1, Returned mr) ∧
    ps_ports st1 = ps_ports st ∧ ps_woken st1 = ps_woken st ∧
    ∀ kmsg' opt' max_size scatter,
      ikm_remote_port kmsg' = p → has (ikm_bits kmsg') MACH_MSGH_BITS_CIRCULAR = false → GET_RCV_ELEMENTS opt' < 3 →
      ∃ st2 mr', ipc_mqueue_finish_receive st1 kmsg' p opt' max_size scatter = Ok (st2, mr') ∧
        ps_woken st2 = WK th MACH_MSG_SUCCESS None :: ps_woken st1 ∧
        ∃ port', ps_ports st2 !! p = Some port' ∧ ip_blocked port' = senders ∧
          ip_msgcount port' = ip_msgcount port - 1 ∧ ip_msgcount port' < ip_qlimit port'.
Proof.
  intros Hp Hul Ha [Hn Hq] Hb Hk Hg. set (mq := ip_messages port).
  assert (queue_at st p (MQ_port p) mq) as Hmq by (split; [simpl; by rewrite Hp|done]).
  exists (at_queue st p (λ port, port) (MQ_port p) mq [] (S (ps_clock st))). set (st1 := at_queue _ _ _ _ _ _ _).
  assert (ps_ports st1 = ps_ports st) as Hps.
  { pose proof (at_queue_start st p (MQ_port p) mq Hmq) as Heq. by apply (f_equal ps_ports) in Heq. }
  split; [by apply (give_up_spec st p port (MQ_port p) mq)|]. split; [done|]. split; [done|].
  intros kmsg' opt' max_size scatter Hk' Hc He. rewrite <-Hps in Hp.
  assert (queue_at st1 p (MQ_port p) mq) as Hmq1 by (split; [simpl in *; by rewrite Hp|done]).
  destruct (finish_receive_spec st1 p port (MQ_port p) mq Hp Hmq1 Hul Ha Hn kmsg' opt' max_size scatter Hk' Hc He)
    as (mr' & _ & Hrun).
  assert (next_sender port = Some th) as Hnext.
  { unfold next_sender. rewrite Hb. by rewrite (proj2 (Z.ltb_lt _ _)) by lia. }
  eexists _, mr'. split; [exact Hrun|]. unfold finish_woken, finish_port. rewrite Hnext. split; [done|].
  eexists. split; [cbn [ps_ports at_queue]; by rewrite lookup_alter_eq, Hp|]. rewrite Hnext. simpl. rewrite Hb. split_and!; done || lia.
Qed.
End gives_up.

(** ** Messages that are too large

    The room for the message is computed in unsigned arithmetic, so that a
    buffer smaller than the trailer has room for almost everything. *)

(** The room that the code computes. *)
Lemma room_u32 max_size t :
  is_u32 max_size → 0 ≤ t ≤ 20 → u32 (max_size - t) = if t <=? max_size then max_size - t else max_size - t + 2 ^ 32.
Proof.
  intros [H1 H2] Ht. unfold u32. destruct (Z.leb_spec t max_size).
  - apply Z.mod_small. lia.
  - symmetry. apply (Z.mod_unique_pos _ _ (-1)); lia.
Qed.

Lemma trailer_bounds opt t : REQUESTED_TRAILER_SIZE opt = Ok t → 0 ≤ t ≤ 20.
Proof.
  unfold REQUESTED_TRAILER_SIZE. destruct (Z.to_nat _) as [|[|[|n]]]; intros [= <-]; lia.
Qed.

(** C40. The size check of a receive, for every trailer that can be asked
    for and every size of the buffer: when the buffer has room for the
    trailer, a message is refused with MACH_RCV_TOO_LARGE exactly when it
    does not fit in front of the trailer; when the buffer is smaller than
    the trailer, the unsigned room has wrapped around, and a message is
    refused only when it is larger than 2^32 less what the buffer lacks, so
    that every message of less than 2^32 - 20 bytes gets past the size
    check; what is let through is checked against the scatter list of the
    thread, if there is one. *)
Theorem short_buffer_accepted kmsg opt max_size scatter trailer :
  REQUESTED_TRAILER_SIZE opt = Ok trailer → is_u32 max_size →
  receive_check kmsg opt max_size scatter =
    Ok (if (if trailer <=? max_size then max_size - trailer else 2 ^ 32 - (trailer - max_size)) <? ikm_msgh_size kmsg
        then MACH_RCV_TOO_LARGE
        else match scatter with Some check => check kmsg | None => MACH_MSG_SUCCESS end) ∧
  (max_size < trailer → ikm_msgh_size kmsg < 2 ^ 32 - 20 → scatter = None →
   receive_check kmsg opt max_size scatter = Ok MACH_MSG_SUCCESS).
Proof.
  intros Ht Hm. pose proof (trailer_bounds _ _ Ht) as Hb. pose proof (room_u32 max_size trailer Hm Hb) as Hr.
  unfold receive_check. rewrite Ht. ostep. rewrite Hr. split.
  - destruct (trailer <=? max_size); [done|].
    by replace (max_size - trailer + 2 ^ 32) with (2 ^ 32 - (trailer - max_size)) by lia.
  - intros Hlt Hsz ->. rewrite (proj2 (Z.leb_gt _ _) Hlt), (proj2 (Z.ltb_ge _ _)); [done|]. destruct Hm. lia.
Qed.
