(* ===== verification/IpcMsgSystem.v ===== *)
(** * Threads that send and receive

    Many threads send to ports and receive from ports and port sets.  A step
    is what one thread does between two points at which other threads can
    run: up to [thread_block], from there on when it runs again, and the end
    of a receive, which locks the port once more.  Every step is a run of the
    code; the threads that it makes runnable are in [ps_woken] until they run.

    A blocked sender that is interrupted, or whose time is up, stays in the
    queue of blocked senders (see the last theorem), so the system of which
    the invariant is proved lets blocked senders run only when they are woken. *)

From stdpp Require Import prelude list gmap relations.
From S2P Require Import Prelude MachPort IpcSplay IpcTypes IpcHash IpcTable IpcEntry IpcPort IpcDnreq IpcPortRights IpcPset IpcPsetInv.
From S2P Require Import IpcDestroy IpcRight IpcObject IpcMqueue IpcMqueueInv.

(** ** The system *)

(** Where a thread is inside of the code, with its arguments. *)
Inductive thread_state :=
  | Sending (kmsg : ipc_kmsg) (opt timeout : Z)
  | Receiving (q : mqptr) (opt max_size timeout : Z)
  | Finishing (kmsg : ipc_kmsg) (opt max_size : Z).

Abbreviation threads_t := (gmap Z thread_state) (only parsing).

Record system := SYS {
  sy_state : pstate;
  sy_threads : threads_t;
}.

(** A message has been accepted, or received with a sequence number. *)
Inductive event :=
  | Accepted (kmsg : ipc_kmsg)
  | Received (kmsg : ipc_kmsg) (seqno : Z).

Inductive action :=
  | Send (th : Z) (kmsg : ipc_kmsg) (opt timeout : Z)
  | Send_again (th : Z) (result : wait_result)
  | Receive (th : Z) (q : mqptr) (opt max_size timeout : Z)
  | Receive_again (th : Z) (result : wait_result)
  | Finish (th : Z).

(** The thread takes notice that it was woken. *)
Fixpoint take_wakeup (th : Z) (ws : list wakeup) : option (wakeup * list wakeup) :=
  match ws with
  | [] => None
  | w :: ws' =>
    if wk_thread w =? th then Some (w, ws')
    else match take_wakeup th ws' with Some (w', ws'') => Some (w', w :: ws'') | None => None end
  end.

(** [ith_state], [ith_kmsg] and [ith_seqno] of a thread that runs again;
    [waiting] is the state it went to sleep with. *)
Definition woken_state (st : pstate) (th : Z) (waiting : mach_msg_return) :
    pstate * (mach_msg_return * option (ipc_kmsg * Z)) :=
  match take_wakeup th (ps_woken st) with
  | Some (w, ws) => (set_woken st ws, (wk_state w, wk_message w))
  | None => (st, (waiting, None))
  end.

Definition after_send (threads : threads_t) (th : Z) (kmsg : ipc_kmsg) (opt timeout : Z) (x : pstate * send_status) :
    system * list event :=
  match x.2 with
  | Returned mr => (SYS x.1 (delete th threads), if bool_decide (mr = MACH_MSG_SUCCESS) then [Accepted kmsg] else [])
  | Blocked => (SYS x.1 (<[th := Sending kmsg opt timeout]> threads), [])
  end.

Definition after_receive (threads : threads_t) (th : Z) (q : mqptr) (opt max_size timeout : Z)
    (x : pstate * receive_status) : system * list event :=
  match x.2 with
  | Got kmsg seqno => (SYS x.1 (<[th := Finishing kmsg opt max_size]> threads), [Received kmsg seqno])
  | Failed _ => (SYS x.1 (delete th threads), [])
  | Waiting => (SYS x.1 (<[th := Receiving q opt max_size timeout]> threads), [])
  end.

(** [self->ith_state] of a receiver that goes to sleep. *)
Definition receive_waiting (opt : Z) : mach_msg_return :=
  if has opt MACH_RCV_TIMEOUT then MACH_RCV_IN_PROGRESS_TIMED else MACH_RCV_IN_PROGRESS.

Section system.
Context `{IW : iworld} `{PW : pworld}.
Context (kernel : Z) (server : ipc_kmsg → option ipc_kmsg) (scatter : option (ipc_kmsg → mach_msg_return)).

Definition run_action (a : action) (x : system) : outcome (system * list event) :=
  let '(SYS st threads) := x in
  match a with
  | Send th kmsg opt timeout =>
    r ← ipc_mqueue_send kernel server 2 st kmsg opt timeout th;
    Ok (after_send threads th kmsg opt timeout r)
  | Send_again th result =>
    match threads !! th with
    | Some (Sending kmsg opt timeout) =>
      let '(st, (ith_state, _)) := woken_state st th MACH_SEND_IN_PROGRESS in
      r ← send_resume st kmsg opt timeout th ith_state result;
      Ok (after_send threads th kmsg opt timeout r)
    | _ => Fault FDeref
    end
  | Receive th q opt max_size timeout =>
    r ← (st ← imq_lock st q; receive_round st q opt timeout th);
    Ok (after_receive threads th q opt max_size timeout r)
  | Receive_again th result =>
    match threads !! th with
    | Some (Receiving q opt max_size timeout) =>
      let '(st, (ith_state, handed)) := woken_state st th (receive_waiting opt) in
      r ← receive_resume st q opt timeout th ith_state handed result;
      Ok (after_receive threads th q opt max_size timeout r)
    | _ => Fault FDeref
    end
  | Finish th =>
    match threads !! th with
    | Some (Finishing kmsg opt max_size) =>
      '(st, _) ← ipc_mqueue_finish_receive st kmsg (ikm_remote_port kmsg) opt max_size scatter;
      Ok (SYS st (delete th threads), [])
    | _ => Fault FDeref
    end
  end.

(** ** When an action can be taken *)

(** A message is to a live port of a task, and is not circular. *)
Definition sendable (st : pstate) (m : ipc_kmsg) : Prop :=
  IP_VALID (ikm_remote_port m) = true ∧ has (ikm_bits m) MACH_MSGH_BITS_CIRCULAR = false ∧
  ∃ port, ps_ports st !! ikm_remote_port m = Some port ∧ ip_active port = true ∧ ip_data port ≠ kernel.

(** The count of the port's messages does not overflow. *)
Definition has_space (st : pstate) (m : ipc_kmsg) : Prop :=
  ∀ port, ps_ports st !! ikm_remote_port m = Some port → ip_msgcount port + 1 < 2 ^ 32.

(** The queue of a port outside of sets, or of a set. *)
Definition receivable (st : pstate) (q : mqptr) : Prop :=
  match q with
  | MQ_port p => ∃ port, ps_ports st !! p = Some port ∧ ip_pset port = IPS_NULL
  | MQ_pset s => is_Some (ps_psets st !! s)
  end.

Definition is_woken (st : pstate) (th : Z) : Prop := th ∈ wk_thread <$> ps_woken st.

(** No thread is sending the message. *)
Definition unsent (threads : threads_t) (m : ipc_kmsg) : Prop :=
  ∀ th m' opt timeout, threads !! th = Some (Sending m' opt timeout) → ikm_addr m' ≠ ikm_addr m.

Definition enabled_action (a : action) (x : system) : Prop :=
  let '(SYS st threads) := x in
  match a with
  | Send th m opt timeout =>
    threads !! th = None ∧ sendable st m ∧ has_space st m ∧ unqueued st m ∧ unsent threads m
  | Send_again th result =>
    ∃ m opt timeout, threads !! th = Some (Sending m opt timeout) ∧ is_woken st th ∧ has_space st m
  | Receive th q opt max_size timeout => threads !! th = None ∧ receivable st q ∧ GET_RCV_ELEMENTS opt < 3
  | Receive_again th result =>
    ∃ q opt max_size timeout, threads !! th = Some (Receiving q opt max_size timeout) ∧
      (is_woken st th ∨ result = THREAD_INTERRUPTED ∨ result = THREAD_TIMED_OUT ∧ has opt MACH_RCV_TIMEOUT = true)
  | Finish th => ∃ m opt max_size, threads !! th = Some (Finishing m opt max_size)
  end.

(** A run, with what happens on the way. *)
Inductive runs : system → list event → system → Prop :=
  | Runs_none x : runs x [] x
  | Runs_more a x ev y evs z :
      enabled_action a x → run_action a x = Ok (y, ev) → runs y evs z → runs x (ev ++ evs) z.
End system.

(** ** Where threads are parked

    A thread that sleeps is in one queue, and only there; a thread that was
    woken is in none. *)

Inductive park :=
  | In_queue (q : mqptr)
  | In_port (p : Z).

#[export] Instance park_eq_dec : EqDecision park.
Proof. solve_decision. Defined.

Definition park_of (ts : thread_state) : option park :=
  match ts with
  | Sending m _ _ => Some (In_port (ikm_remote_port m))
  | Receiving q _ _ _ => Some (In_queue q)
  | Finishing _ _ _ => None
  end.

Definition parked (st : pstate) (k : park) : list Z :=
  match k with
  | In_queue q => match queue_of (ps_ports st) (ps_psets st) q with Some mq => imq_threads mq | None => [] end
  | In_port p => match ps_ports st !! p with Some port => ip_blocked port | None => [] end
  end.

(** What a thread can be woken with. *)
Definition wake_ok (ts : thread_state) (w : wakeup) : Prop :=
  match ts with
  | Sending _ _ _ => wk_state w = MACH_MSG_SUCCESS ∧ wk_message w = None
  | Receiving _ _ _ _ =>
    (wk_state w = MACH_MSG_SUCCESS ∧ is_Some (wk_message w)) ∨
    ((wk_state w = MACH_RCV_PORT_DIED ∨ wk_state w = MACH_RCV_PORT_CHANGED) ∧ wk_message w = None)
  | Finishing _ _ _ => False
  end.

Record parking (pk : park → list Z) (threads : threads_t) (ws : list wakeup) : Prop := {
  pa_parked k th : th ∈ pk k → ∃ ts, threads !! th = Some ts ∧ park_of ts = Some k ∧ th ∉ wk_thread <$> ws;
  pa_nodup k : NoDup (pk k);
  pa_woken w : w ∈ ws → ∃ ts, threads !! wk_thread w = Some ts ∧ wake_ok ts w;
  pa_woken_nodup : NoDup (wk_thread <$> ws);
  pa_placed th ts k : threads !! th = Some ts → park_of ts = Some k → th ∈ pk k ∨ th ∈ wk_thread <$> ws;
}.

Section parking.
Context (pk pk' : park → list Z) (threads : threads_t) (ws : list wakeup).
Hypothesis Hpa : parking pk threads ws.

(** The queues other than [k] are as they were. *)
Definition others_as (k : park) : Prop := ∀ k', k' ≠ k → pk' k' = pk k'.

Lemma parking_same : (∀ k, pk' k = pk k) → parking pk' threads ws.
Proof.
  intros Hk. destruct Hpa as [H1 H2 H3 H4 H5]. split; [|intros k; by rewrite Hk|done|done|].
  - intros k th. rewrite Hk. apply H1.
  - intros th ts k. rewrite Hk. apply H5.
Qed.

(** A thread goes to sleep. *)
Lemma parking_enter k th ts :
  threads !! th = None → park_of ts = Some k → pk' k = pk k ++ [th] → others_as k →
  parking pk' (<[th := ts]> threads) ws.
Proof.
  intros Hth Hts Hk Ho. destruct Hpa as [H1 H2 H3 H4 H5].
  assert (∀ k, th ∉ pk k) as Hnew by (intros k0 Hin; destruct (H1 _ _ Hin) as (? & ? & _); congruence).
  assert (th ∉ wk_thread <$> ws) as Hnw.
  { intros (w & -> & Hw)%list_elem_of_fmap. destruct (H3 w Hw) as (? & ? & _). congruence. }
  split.
  - intros k0 th0 Hin. destruct (decide (th0 = th)) as [->|Hne].
    + exists ts. rewrite lookup_insert_eq. split_and!; [done| |done]. destruct (decide (k0 = k)) as [->|Hk0]; [done|].
      rewrite Ho in Hin by done. by destruct (Hnew k0).
    + rewrite lookup_insert_ne by done. apply H1. destruct (decide (k0 = k)) as [->|Hk0]; [|by rewrite <-Ho].
      rewrite Hk in Hin. apply elem_of_app in Hin as [?|?%list_elem_of_singleton]; [done|congruence].
  - intros k0. destruct (decide (k0 = k)) as [->|Hk0]; [|by rewrite Ho]. rewrite Hk. apply NoDup_app. split_and!; [done| |apply NoDup_singleton].
    intros y Hy ->%list_elem_of_singleton. by apply (Hnew k).
  - intros w Hw. destruct (H3 w Hw) as (ts0 & Hts0 & Hok). exists ts0. split; [|done].
    rewrite lookup_insert_ne; [done|]. intros ->. congruence.
  - done.
  - intros th0 ts0 k0. destruct (decide (th0 = th)) as [->|Hne].
    + rewrite lookup_insert_eq. intros [= <-] Hk0. left. assert (k0 = k) as -> by congruence. rewrite Hk. set_solver.
    + rewrite lookup_insert_ne by done. intros Hx Hk0. destruct (H5 _ _ _ Hx Hk0) as [Hin|Hin]; [left|by right].
      destruct (decide (k0 = k)) as [->|Hkk]; [rewrite Hk; set_solver|by rewrite Ho].
Qed.

(** A thread runs that sleeps nowhere. *)
Lemma parking_run th ts :
  threads !! th = None → park_of ts = None → parking pk (<[th := ts]> threads) ws.
Proof.
  intros Hth Hts. destruct Hpa as [H1 H2 H3 H4 H5]. split; [|done| |done|].
  - intros k th0 Hin. destruct (H1 k th0 Hin) as (ts0 & Hts0 & ?). exists ts0. rewrite lookup_insert_ne; [done|]. intros ->. congruence.
  - intros w Hw. destruct (H3 w Hw) as (ts0 & Hts0 & Hok). exists ts0. split; [|done].
    rewrite lookup_insert_ne; [done|]. intros ->. congruence.
  - intros th0 ts0 k. destruct (decide (th0 = th)) as [->|Hne]; [rewrite lookup_insert_eq; congruence|].
    rewrite lookup_insert_ne by done. apply H5.
Qed.

Lemma parking_stop th ts : threads !! th = Some ts → park_of ts = None → parking pk (delete th threads) ws.
Proof.
  intros Hth Hts. destruct Hpa as [H1 H2 H3 H4 H5]. split; [|done| |done|].
  - intros k th0 Hin. destruct (H1 k th0 Hin) as (ts0 & Hts0 & ? & ?). exists ts0. rewrite lookup_delete_ne; [done|]. intros ->. congruence.
  - intros w Hw. destruct (H3 w Hw) as (ts0 & Hts0 & Hok). exists ts0. split; [|done].
    rewrite lookup_delete_ne; [done|]. intros ->. assert (ts0 = ts) as -> by congruence. by destruct ts.
  - intros th0 ts0 k [_ Hx]%lookup_delete_Some. by apply H5.
Qed.

(** The first thread of a queue is woken. *)
Lemma parking_wake k th ths ts w :
  pk k = th :: ths → pk' k = ths → others_as k → threads !! th = Some ts → wake_ok ts w → wk_thread w = th →
  parking pk' threads (w :: ws).
Proof.
  intros Hk Hk' Ho Hth Hok Hw. destruct Hpa as [H1 H2 H3 H4 H5].
  pose proof (H2 k) as Hnd. rewrite Hk in Hnd. apply NoDup_cons in Hnd as [Hn Hnd].
  destruct (H1 k th) as (ts0 & Hts0 & Hpk & Hnw); [rewrite Hk; by left|]. assert (ts0 = ts) as -> by congruence.
  assert (∀ k0 th0, th0 ∈ pk' k0 → th0 ∈ pk k0 ∧ th0 ≠ th) as Hsub.
  { intros k0 th0 Hin. destruct (decide (k0 = k)) as [->|Hne].
    - rewrite Hk' in Hin. rewrite Hk. split; [by right|]. by intros ->.
    - rewrite Ho in Hin by done. split; [done|]. intros ->. destruct (H1 k0 th Hin) as (? & ? & ? & _). congruence. }
  split.
  - intros k0 th0 Hin. destruct (Hsub _ _ Hin) as [Hin0 Hne]. destruct (H1 k0 th0 Hin0) as (ts1 & ? & ? & ?).
    exists ts1. split_and!; [done..|]. simpl. rewrite Hw. by apply not_elem_of_cons.
  - intros k0. destruct (decide (k0 = k)) as [->|Hne]; [by rewrite Hk'|by rewrite Ho].
  - intros w0 [->|Hw0]%elem_of_cons; [exists ts; by rewrite Hw|by apply H3].
  - simpl. rewrite Hw. by apply NoDup_cons.
  - intros th0 ts0 k0 Hx Hk0. simpl. destruct (decide (th0 = th)) as [->|Hne]; [right; rewrite Hw; by left|].
    destruct (H5 _ _ _ Hx Hk0) as [Hin|Hin]; [left|by right; right]. destruct (decide (k0 = k)) as [->|Hkk]; [|by rewrite Ho].
    rewrite Hk in Hin. rewrite Hk'. apply elem_of_cons in Hin as [?|?]; [done|done].
Qed.

(** A thread leaves its queue by itself. *)
Lemma parking_leave k th :
  th ∈ pk k → pk' k = filter (λ x, x ≠ th) (pk k) → others_as k → parking pk' (delete th threads) ws.
Proof.
  intros Hin Hk Ho. destruct Hpa as [H1 H2 H3 H4 H5]. destruct (H1 k th Hin) as (ts & Hts & Hpk & Hnw).
  assert (∀ k0 th0, th0 ∈ pk' k0 ↔ th0 ∈ pk k0 ∧ th0 ≠ th) as Hsub.
  { intros k0 th0. destruct (decide (k0 = k)) as [->|Hne].
    - rewrite Hk, list_elem_of_filter. tauto.
    - rewrite Ho by done. split; [|tauto]. intros Hx. split; [done|]. intros ->. destruct (H1 k0 th Hx) as (? & ? & ? & _). congruence. }
  split.
  - intros k0 th0 [Hx Hne]%Hsub. destruct (H1 k0 th0 Hx) as (ts0 & ? & ?). exists ts0. by rewrite lookup_delete_ne.
  - intros k0. destruct (decide (k0 = k)) as [->|Hne]; [rewrite Hk; by apply NoDup_filter|by rewrite Ho].
  - intros w Hw. destruct (H3 w Hw) as (ts0 & ? & ?). exists ts0. rewrite lookup_delete_ne; [done|]. intros ->.
    apply Hnw, list_elem_of_fmap. by exists w.
  - done.
  - intros th0 ts0 k0 [Hne Hx]%lookup_delete_Some Hk0. destruct (H5 _ _ _ Hx Hk0) as [?|?]; [left|by right]. by apply Hsub.
Qed.
End parking.

Lemma take_wakeup_Some th ws w ws' :
  take_wakeup th ws = Some (w, ws') → ∃ ws1 ws2, ws = ws1 ++ w :: ws2 ∧ ws' = ws1 ++ ws2 ∧ wk_thread w = th.
Proof.
  revert ws'. induction ws as [|x ws IH]; intros ws'; simpl; [done|]. destruct (Z.eqb_spec (wk_thread x) th) as [Hx|Hx].
  - intros [= <- <-]. by exists [], ws.
  - destruct (take_wakeup th ws) as [[w0 ws0]|]; [|done]. intros [= <- <-].
    destruct (IH _ eq_refl) as (ws1 & ws2 & -> & -> & ?). by exists (x :: ws1), ws2.
Qed.

Lemma take_wakeup_None th ws : take_wakeup th ws = None ↔ th ∉ wk_thread <$> ws.
Proof.
  induction ws as [|x ws IH]; simpl; [split; [by intros _ ?%elem_of_nil|done]|]. rewrite not_elem_of_cons.
  destruct (Z.eqb_spec (wk_thread x) th) as [Hx|Hx]; [split; [done|intros [? _]; congruence]|].
  destruct (take_wakeup th ws) as [[]|]; [|naive_solver]. split; [done|]. intros [_ Hn]. by apply IH in Hn.
Qed.

(** A thread that was woken runs. *)
Lemma parking_take pk threads ws1 w ws2 :
  parking pk threads (ws1 ++ w :: ws2) → parking pk (delete (wk_thread w) threads) (ws1 ++ ws2).
Proof.
  intros [H1 H2 H3 H4 H5]. rewrite fmap_app, fmap_cons in H1, H4, H5.
  assert (NoDup (wk_thread w :: (wk_thread <$> ws1) ++ (wk_thread <$> ws2))) as [Hnw Hnd]%NoDup_cons by (by rewrite Permutation_middle).
  assert (∀ th, th ∈ wk_thread <$> ws1 ++ ws2 ↔ th ∈ (wk_thread <$> ws1) ++ wk_thread w :: (wk_thread <$> ws2) ∧ th ≠ wk_thread w) as Hin.
  { intros th. rewrite fmap_app, !elem_of_app, elem_of_cons. rewrite elem_of_app in Hnw. split; [|tauto].
    intros Hx. split; [tauto|]. intros ->. tauto. }
  split.
  - intros k th Hx. destruct (H1 k th Hx) as (ts & ? & ? & Hn). exists ts.
    assert (th ≠ wk_thread w) as Hne by (intros ->; apply Hn; set_solver).
    rewrite lookup_delete_ne by done. split_and!; [done..|]. intros [? _]%Hin. done.
  - done.
  - intros w0 Hw0. destruct (H3 w0) as (ts & ? & ?); [set_solver|]. exists ts. rewrite lookup_delete_ne; [done|].
    intros Heq. assert (wk_thread w0 ∈ wk_thread <$> ws1 ++ ws2) as [_ ?]%Hin by (apply list_elem_of_fmap; by exists w0). congruence.
  - by rewrite fmap_app.
  - intros th ts k [Hne Hx]%lookup_delete_Some Hk. destruct (H5 _ _ _ Hx Hk) as [?|?]; [by left|right]. by apply Hin.
Qed.

(** ** The invariant *)

Definition message_to (p : Z) (w : wakeup) : option (ipc_kmsg * Z) :=
  match wk_message w with
  | Some (m, n) => if decide (ikm_remote_port m = p) then Some (m, n) else None
  | None => None
  end.

(** The messages to [p] that threads were woken with, and have not seen. *)
Definition handed_to (p : Z) (ws : list wakeup) : list (ipc_kmsg * Z) := omap (message_to p) ws.

Definition finishes (p : Z) (ts : thread_state) : bool :=
  match ts with Finishing m _ _ => ikm_remote_port m =? p | _ => false end.
Definition sends_to (p : Z) (ts : thread_state) : bool :=
  match ts with Sending m _ _ => ikm_remote_port m =? p | _ => false end.

Definition finishing (p : Z) (threads : threads_t) : nat := size (filter (λ x : Z * thread_state, finishes p x.2 = true) threads).

Definition wakes_sender (p : Z) (threads : threads_t) (w : wakeup) : Prop :=
  from_option (sends_to p) false (threads !! wk_thread w) = true.
#[export] Instance wakes_sender_dec p threads w : Decision (wakes_sender p threads w).
Proof. unfold wakes_sender. apply _. Defined.

(** Senders to [p] that were woken and have not tried again. *)
Definition woken_senders (p : Z) (threads : threads_t) (ws : list wakeup) : nat := length (filter (wakes_sender p threads) ws).

Definition one (p : Z) (o : option Z) : Z := if decide (o = Some p) then 1 else 0.

(** Messages are counted by their port from when they are accepted until the
    receiver is through; senders wait only if the queue is full, or will be
    when those that were woken have tried.  [mh] and [sh] are the ports of the
    message that the running thread has, and that it sends to. *)
Record counts (mh sh : option Z) (st : pstate) (threads : threads_t) : Prop := {
  co_count p port : ps_ports st !! p = Some port → ip_active port = true →
    ip_msgcount port = Z.of_nat (length (port_messages st p) + length (handed_to p (ps_woken st)) + finishing p threads) + one p mh;
  co_progress p port : ps_ports st !! p = Some port → ip_blocked port ≠ [] →
    ip_qlimit port ≤ ip_msgcount port + Z.of_nat (woken_senders p threads (ps_woken st)) + one p sh;
}.

Section invariant.
Context (kernel : Z).

(** Every message around is one that could be sent. *)
Record mail (st : pstate) (threads : threads_t) : Prop := {
  ma_queued q mq m : queue_of (ps_ports st) (ps_psets st) q = Some mq → m ∈ imq_messages mq → sendable kernel st m;
  ma_handed w m n : w ∈ ps_woken st → wk_message w = Some (m, n) → sendable kernel st m;
  ma_sending th m opt timeout : threads !! th = Some (Sending m opt timeout) → sendable kernel st m ∧ unqueued st m;
  ma_apart th th' m m' opt timeout opt' timeout' :
    threads !! th = Some (Sending m opt timeout) → threads !! th' = Some (Sending m' opt' timeout') →
    ikm_addr m = ikm_addr m' → th = th';
  ma_receiving th q opt max_size timeout :
    threads !! th = Some (Receiving q opt max_size timeout) → receivable st q ∧ GET_RCV_ELEMENTS opt < 3;
  ma_finishing th m opt max_size :
    threads !! th = Some (Finishing m opt max_size) → sendable kernel st m ∧ GET_RCV_ELEMENTS opt < 3;
}.

Definition unlocked_ports (st : pstate) : Prop := map_Forall (λ _ port, ip_locked port = false) (ps_ports st).

Record sound_in (mh sh : option Z) (st : pstate) (threads : threads_t) : Prop := {
  so_queues : queues_wf (ps_ports st) (ps_psets st);
  so_unlocked : unlocked_ports st;
  so_parking : parking (parked st) threads (ps_woken st);
  so_mail : mail st threads;
  so_counts : counts mh sh st threads;
}.

Definition sound_system (x : system) : Prop := sound_in None None (sy_state x) (sy_threads x).
End invariant.

(** ** Counting *)

Lemma finishing_insert p threads th ts :
  threads !! th = None →
  finishing p (<[th := ts]> threads) = ((if finishes p ts then 1 else 0) + finishing p threads)%nat.
Proof.
  intros Hth. unfold finishing. destruct (finishes p ts) eqn:Hf.
  - rewrite map_filter_insert_True by done. rewrite map_size_insert_None; [done|]. apply map_lookup_filter_None. by left.
  - rewrite map_filter_insert_False by (simpl; congruence). by rewrite delete_id.
Qed.

Lemma finishing_delete p threads th ts :
  threads !! th = Some ts →
  finishing p threads = ((if finishes p ts then 1 else 0) + finishing p (delete th threads))%nat.
Proof.
  intros Hth. rewrite <-(finishing_insert p (delete th threads) th ts) by apply lookup_delete_eq. by rewrite insert_delete_id.
Qed.

(** Wakeups of other threads count the same. *)
Lemma woken_senders_same p threads threads' ws :
  (∀ w, w ∈ ws → threads' !! wk_thread w = threads !! wk_thread w) →
  woken_senders p threads' ws = woken_senders p threads ws.
Proof.
  intros Hw. unfold woken_senders. f_equal. induction ws as [|w ws IH]; [done|]. rewrite !filter_cons.
  assert (wakes_sender p threads' w ↔ wakes_sender p threads w) as Hiff by (unfold wakes_sender; by rewrite Hw by left).
  rewrite IH by (intros w0 Hw0; apply Hw; by right). by destruct (decide (wakes_sender p threads' w)), (decide (wakes_sender p threads w)); try tauto.
Qed.

Lemma handed_app p ws ws' : handed_to p (ws ++ ws') = handed_to p ws ++ handed_to p ws'.
Proof. apply omap_app. Qed.

Lemma handed_cons p w ws :
  handed_to p (w :: ws) = match message_to p w with Some x => x :: handed_to p ws | None => handed_to p ws end.
Proof. done. Qed.

(** ** Messages of a port *)

Lemma mine_own p l : Forall (λ m, ikm_remote_port m = p) l → mine p l = l.
Proof. intros Hl. by apply others_mine. Qed.

Lemma port_messages_home st p port mq :
  queues_wf (ps_ports st) (ps_psets st) → ps_ports st !! p = Some port →
  queue_of (ps_ports st) (ps_psets st) (home p port) = Some mq → port_messages st p = mine p (imq_messages mq).
Proof.
  intros Hw Hp. unfold home, port_messages. rewrite Hp. destruct (Z.eqb_spec (ip_pset port) IPS_NULL) as [Hn|Hn]; simpl.
  - rewrite Hp. intros [= <-]. symmetry. apply mine_own. by eapply qw_own.
  - destruct (ps_psets st !! ip_pset port); [|done]. by intros [= <-].
Qed.

Section step.
Context (kernel : Z).
Context (st : pstate) (p : Z) (g : ipc_port → ipc_port) (q : mqptr) (mq mq' : ipc_mqueue) (ws : list wakeup) (c : nat).
Hypothesis Hq : queue_at st p q mq.
Hypothesis Hg : gentle g.
Hypothesis Hw : queues_wf (ps_ports st) (ps_psets st).

Local Abbreviation st' := (at_queue st p g q mq' ws c).

Lemma port_after x port' :
  ps_ports st' !! x = Some port' → ∃ port, ps_ports st !! x = Some port ∧ home x port' = home x port ∧
    ip_locked port' = ip_locked port ∧ ip_active port' = ip_active port ∧ ip_data port' = ip_data port ∧ ip_pset port' = ip_pset port.
Proof.
  intros Hx.
  destruct (at_queue_kept st p g q mq' ws c (λ port, (ip_locked port, ip_active port, ip_data port, ip_pset port)) x port')
    as (port & Hp & [= Hl Ha Hd Hs]); [done| |done|].
  { intros port. by rewrite (ge_locked _ Hg), (ge_active _ Hg), (ge_data _ Hg), (ge_pset _ Hg). }
  exists port. unfold home. by rewrite Hl, Ha, Hd, Hs.
Qed.

Lemma port_before x port :
  ps_ports st !! x = Some port → ∃ port', ps_ports st' !! x = Some port' ∧
    ip_locked port' = ip_locked port ∧ ip_active port' = ip_active port ∧ ip_data port' = ip_data port ∧ ip_pset port' = ip_pset port.
Proof.
  intros Hx. assert (is_Some (ps_ports st' !! x)) as [port' Hx'].
  { simpl. destruct (decide (x = p)) as [->|]; [rewrite lookup_alter_eq|rewrite lookup_alter_ne by done]; rewrite Hx; by eexists. }
  exists port'. destruct (port_after x port' Hx') as (port0 & Hx0 & _ & ?). split; [done|]. by assert (port0 = port) as -> by congruence.
Qed.

Lemma sendable_after m : sendable kernel st m → sendable kernel st' m.
Proof.
  intros (Hv & Hb & port & Hp & Ha & Hd). split_and!; [done..|].
  destruct (port_before _ _ Hp) as (port' & Hp' & _ & Ha' & Hd' & _). exists port'. split_and!; congruence.
Qed.

Lemma receivable_after q' : receivable st q' → receivable st' q'.
Proof.
  destruct q' as [x|s]; simpl.
  - intros (port & Hp & Hn). destruct (port_before _ _ Hp) as (port' & Hp' & _ & _ & _ & Hs). exists port'. split; [done|congruence].
  - intros [pset Hs]. destruct q as [|s0]; [by rewrite Hs|]. destruct (decide (s = s0)) as [->|].
    + rewrite lookup_alter_eq, Hs. by eexists.
    + by rewrite lookup_alter_ne, Hs by done.
Qed.

Lemma unlocked_after : unlocked_ports st → unlocked_ports st'.
Proof. intros Hu x port' Hx. destruct (port_after x port' Hx) as (port & Hp & _ & -> & _). by apply (Hu x). Qed.

Lemma unqueued_after m :
  (∀ m', m' ∈ imq_messages mq' → m' ∈ imq_messages mq ∨ ikm_addr m' ≠ ikm_addr m) → unqueued st m → unqueued st' m.
Proof.
  intros Hm Hu q0 mq0 m' H0 Hm'. destruct (decide (q0 = q)) as [->|Hne].
  - rewrite (at_queue_same _ _ _ _ _ _ _ mq) in H0 by done. injection H0 as <-.
    destruct (Hm m' Hm') as [Hx|Hx]; [|done]. by apply (Hu q mq); [apply Hq|].
  - rewrite (at_queue_other _ _ _ _ _ _ _ mq) in H0 by done. by apply (Hu q0 mq0).
Qed.

(** The mail after the step, for the same threads. *)
Lemma mail_after threads :
  mail kernel st threads →
  (∀ m, m ∈ imq_messages mq' → m ∈ imq_messages mq ∨ (sendable kernel st m ∧ unsent threads m)) →
  (∀ w m n, w ∈ ws → wk_message w = Some (m, n) → sendable kernel st m) →
  mail kernel st' threads.
Proof.
  intros [H1 H2 H3 H4 H5 H6] Hm Hws. split.
  - intros q0 mq0 m H0 Hm0. apply sendable_after. destruct (decide (q0 = q)) as [->|Hne].
    + rewrite (at_queue_same _ _ _ _ _ _ _ mq) in H0 by done. injection H0 as <-.
      destruct (Hm m Hm0) as [Hx|[Hx _]]; [|done]. by apply (H1 q mq); [apply Hq|].
    + rewrite (at_queue_other _ _ _ _ _ _ _ mq) in H0 by done. by apply (H1 q0 mq0).
  - intros w m n. simpl. intros [Hx|Hx]%elem_of_app Hwm; apply sendable_after; [by eapply Hws|by eapply H2].
  - intros th m opt timeout Hth. destruct (H3 _ _ _ _ Hth) as [Hs Hu]. split; [by apply sendable_after|].
    apply unqueued_after; [|done]. intros m' Hm'. destruct (Hm m' Hm') as [?|[_ Hx]]; [by left|right].
    intros Heq. by apply (Hx _ _ _ _ Hth).
  - done.
  - intros th q' opt max_size timeout Hth. destruct (H5 _ _ _ _ _ Hth). split; [by apply receivable_after|done].
  - intros th m opt max_size Hth. destruct (H6 _ _ _ _ Hth). split; [by apply sendable_after|done].
Qed.

(** The messages of a port after the step. *)
Lemma messages_after x port :
  queues_wf (ps_ports st') (ps_psets st') → ps_ports st !! x = Some port →
  port_messages st' x = if decide (home x port = q) then mine x (imq_messages mq') else port_messages st x.
Proof.
  intros Hw' Hx. destruct (port_before x port Hx) as (port' & Hx' & _ & _ & _ & Hs).
  assert (home x port' = home x port) as Hh by (unfold home; by rewrite Hs).
  destruct (home_queue st x port Hw Hx) as (mqx & [Hqx _] & _). case_decide as Hd.
  - apply (port_messages_home st' x port'); [done..|]. rewrite Hh, Hd. by apply (at_queue_same _ _ _ _ _ _ _ mq).
  - rewrite (port_messages_home st x port mqx) by done. apply (port_messages_home st' x port'); [done..|].
    by rewrite Hh, (at_queue_other _ _ _ _ _ _ _ mq).
Qed.
End step.

(** ** Threads come and go *)

Section threads.
Context (kernel : Z) (st : pstate) (threads : threads_t).
Hypothesis Hm : mail kernel st threads.

Lemma mail_delete th : mail kernel st (delete th threads).
Proof.
  destruct Hm as [H1 H2 H3 H4 H5 H6]. split; [done..| | | |].
  - intros th0 m opt timeout [_ Hx]%lookup_delete_Some. by eapply H3.
  - intros th1 th2 m m' opt timeout opt' timeout' [_ Hx]%lookup_delete_Some [_ Hy]%lookup_delete_Some. by eapply H4.
  - intros th0 q opt max_size timeout [_ Hx]%lookup_delete_Some. by eapply H5.
  - intros th0 m opt max_size [_ Hx]%lookup_delete_Some. by eapply H6.
Qed.

Definition state_ok (ts : thread_state) : Prop :=
  match ts with
  | Sending m _ _ => sendable kernel st m ∧ unqueued st m ∧ unsent threads m
  | Receiving q opt _ _ => receivable st q ∧ GET_RCV_ELEMENTS opt < 3
  | Finishing m opt _ => sendable kernel st m ∧ GET_RCV_ELEMENTS opt < 3
  end.

Lemma mail_insert th ts : threads !! th = None → state_ok ts → mail kernel st (<[th := ts]> threads).
Proof.
  intros Hth Hts. destruct Hm as [H1 H2 H3 H4 H5 H6].
  assert (∀ th0 ts0, <[th := ts]> threads !! th0 = Some ts0 → (th0 = th ∧ ts0 = ts) ∨ threads !! th0 = Some ts0) as Hc.
  { intros th0 ts0 [[-> ->]|[_ Hx]]%lookup_insert_Some; [by left|by right]. }
  split; [done..| | | |].
  - intros th0 m opt timeout [[-> <-]|Hx]%Hc; [by destruct Hts as (? & ? & _)|by eapply H3].
  - intros th1 th2 m m' opt timeout opt' timeout' [[-> <-]|Hx]%Hc [[-> Heq]|Hy]%Hc Ha; [done|..].
    + exfalso. destruct Hts as (_ & _ & Hu). by apply (Hu _ _ _ _ Hy).
    + exfalso. subst ts. destruct Hts as (_ & _ & Hu). by apply (Hu _ _ _ _ Hx).
    + by eapply H4.
  - intros th0 q opt max_size timeout [[-> <-]|Hx]%Hc; [done|by eapply H5].
  - intros th0 m opt max_size [[-> <-]|Hx]%Hc; [done|by eapply H6].
Qed.
End threads.

(** ** One step of one thread *)

Section sound_step.
Context (kernel : Z).
Context (st : pstate) (p : Z) (g : ipc_port → ipc_port) (q : mqptr) (mq mq' : ipc_mqueue) (ws : list wakeup) (c : nat).
Hypothesis Hq : queue_at st p q mq.
Hypothesis Hg : gentle g.
Hypothesis Hw : queues_wf (ps_ports st) (ps_psets st).

Local Abbreviation st' := (at_queue st p g q mq' ws c).

Lemma parked_queue : parked st' (In_queue q) = imq_threads mq'.
Proof. unfold parked. by rewrite (at_queue_same _ _ _ _ _ _ _ mq). Qed.

Lemma parked_queue_before : parked st (In_queue q) = imq_threads mq.
Proof. unfold parked. by rewrite (proj1 Hq). Qed.

Lemma parked_port port : ps_ports st !! p = Some port → parked st' (In_port p) = ip_blocked (g port).
Proof. intros Hp. unfold parked. simpl. rewrite lookup_alter_eq, Hp. simpl. by destruct q. Qed.

Lemma parked_other k : k ≠ In_queue q → k ≠ In_port p → parked st' k = parked st k.
Proof.
  intros H1 H2. destruct k as [q0|x]; unfold parked.
  - by rewrite (at_queue_other _ _ _ _ _ _ _ mq) by (done || congruence).
  - rewrite at_queue_port by congruence. done.
Qed.

(** If nobody is blocked or woken at the port, only the queue matters. *)
Lemma parked_calm k : (∀ port, ip_blocked (g port) = ip_blocked port) → k ≠ In_queue q → parked st' k = parked st k.
Proof.
  intros Hb Hk. destruct (decide (k = In_port p)) as [->|Hne]; [|by apply parked_other].
  destruct (ps_ports st !! p) as [port|] eqn:Hp.
  - rewrite (parked_port port Hp), Hb. unfold parked. by rewrite Hp.
  - unfold parked. simpl. by rewrite lookup_alter_eq, Hp.
Qed.

Lemma counts_after threads mh sh mh' sh' :
  counts mh sh st threads → queues_wf (ps_ports st') (ps_psets st') →
  (∀ x, x ≠ p → mine x (imq_messages mq') = mine x (imq_messages mq) ∧ handed_to x ws = [] ∧
    one x mh' = one x mh ∧ one x sh ≤ one x sh') →
  (∀ port, ps_ports st !! p = Some port → ip_active port = true →
    ip_msgcount (g port) = Z.of_nat (length (port_messages st' p) + length (handed_to p ws) +
      length (handed_to p (ps_woken st)) + finishing p threads) + one p mh') →
  (∀ port, ps_ports st !! p = Some port → ip_blocked (g port) ≠ [] →
    ip_qlimit (g port) ≤ ip_msgcount (g port) + Z.of_nat (woken_senders p threads (ws ++ ps_woken st)) + one p sh') →
  counts mh' sh' st' threads.
Proof.
  intros [Hc Hpr] Hw' Ho Hcp Hpp.
  assert (∀ x port', ps_ports st' !! x = Some port' → x = p → ∃ port, ps_ports st !! p = Some port ∧
    ip_active port = ip_active port' ∧ ip_msgcount port' = ip_msgcount (g port) ∧ ip_blocked port' = ip_blocked (g port) ∧ ip_qlimit port' = ip_qlimit (g port)) as Hport.
  { intros x port' Hx ->. simpl in Hx. rewrite lookup_alter_eq in Hx. destruct (ps_ports st !! p) as [port|]; [|done].
    injection Hx as <-. exists port. rewrite <-(ge_active _ Hg). by destruct q. }
  split.
  - intros x port' Hx Ha. destruct (decide (x = p)) as [->|Hne].
    + destruct (Hport p port' Hx eq_refl) as (port & Hp & Hac & -> & _). rewrite (Hcp port Hp) by congruence.
      change (ps_woken st') with (ws ++ ps_woken st). rewrite handed_app, length_app. lia.
    + rewrite at_queue_port in Hx by done. destruct (Ho x Hne) as (Hmine & Hh & -> & _).
      rewrite (Hc x port') by done. change (ps_woken st') with (ws ++ ps_woken st). rewrite handed_app, Hh. do 3 f_equal.
      rewrite (messages_after st p g q mq mq' ws c Hq Hg Hw x port' Hw' Hx). case_decide as Hd; [|done].
      rewrite Hmine. destruct (home_queue st x port' Hw Hx) as (mqx & [Hqx _] & _).
      rewrite (port_messages_home st x port' mqx) by done. rewrite Hd, (proj1 Hq) in Hqx. by injection Hqx as ->.
  - intros x port' Hx Hb. change (ps_woken st') with (ws ++ ps_woken st). destruct (decide (x = p)) as [->|Hne].
    + destruct (Hport p port' Hx eq_refl) as (port & Hp & _ & -> & Hbb & ->). apply Hpp; [done|congruence].
    + rewrite at_queue_port in Hx by done. destruct (Ho x Hne) as (_ & _ & _ & Hs). pose proof (Hpr x port' Hx Hb) as Hle.
      unfold woken_senders in *. rewrite filter_app, length_app. lia.
Qed.

End sound_step.

(** Nothing happens to the port and the messages: only the receivers of [q] change. *)
Lemma counts_quiet st p q mq mq' c threads mh sh :
  let st' := at_queue st p (λ port, port) q mq' [] c in
  queue_at st p q mq → queues_wf (ps_ports st) (ps_psets st) → imq_messages mq' = imq_messages mq →
  queues_wf (ps_ports st') (ps_psets st') → counts mh sh st threads → counts mh sh st' threads.
Proof.
  intros st' Hq Hw Hm Hw' Hc. apply (counts_after st p _ q mq mq' [] c Hq gentle_id Hw threads mh sh); [done..| | |].
  - intros x _. by rewrite Hm.
  - intros port Hp Ha. rewrite (co_count _ _ _ _ Hc p port Hp Ha). simpl length.
    assert (port_messages st' p = port_messages st p) as Heq; [|unfold st' in Heq; rewrite Heq; lia].
    unfold st'. rewrite (messages_after st p _ q mq mq' [] c Hq gentle_id Hw p port Hw' Hp). case_decide as Hd; [|done].
    destruct (home_queue st p port Hw Hp) as (mqx & [Hqx _] & _). rewrite (port_messages_home st p port mqx) by done.
    rewrite Hd, (proj1 Hq) in Hqx. injection Hqx as <-. by rewrite Hm.
  - intros port Hp Hb. by apply (co_progress _ _ _ _ Hc).
Qed.

(** A thread of which no wakeup is left does not count. *)
Lemma counts_threads mh sh mh' sh' st threads threads' :
  (∀ p, Z.of_nat (finishing p threads') + one p mh' = Z.of_nat (finishing p threads) + one p mh) → (∀ p, one p sh ≤ one p sh') →
  (∀ w, w ∈ ps_woken st → threads' !! wk_thread w = threads !! wk_thread w) →
  counts mh sh st threads → counts mh' sh' st threads'.
Proof.
  intros Hf Hs Hw [Hc Hp]. split.
  - intros p port Hport Ha. rewrite (Hc p port Hport Ha). specialize (Hf p). lia.
  - intros p port Hport Hb. pose proof (Hp p port Hport Hb). rewrite (woken_senders_same p threads threads') by done. specialize (Hs p). lia.
Qed.

(** A thread that runs again takes its wakeup with it. *)
Lemma set_woken_port st ws p : port_messages (set_woken st ws) p = port_messages st p.
Proof. done. Qed.

Section take.
Context (kernel : Z) (st : pstate) (threads : threads_t) (ws1 ws2 : list wakeup) (w : wakeup) (ts : thread_state).
Hypothesis Hs : sound_in kernel None None st threads.
Hypothesis Hws : ps_woken st = ws1 ++ w :: ws2.
Hypothesis Hth : threads !! wk_thread w = Some ts.

Local Abbreviation st1 := (set_woken st (ws1 ++ ws2)).
Local Abbreviation threads1 := (delete (wk_thread w) threads).

(** The port of the message it was woken with. *)
Definition hand_of (w : wakeup) : option Z := match wk_message w with Some (m, _) => Some (ikm_remote_port m) | None => None end.
Definition sender_of (ts : thread_state) : option Z := match ts with Sending m _ _ => Some (ikm_remote_port m) | _ => None end.

Lemma mail_woken threads0 : mail kernel st threads0 → mail kernel st1 threads0.
Proof.
  intros [H1 H2 H3 H4 H5 H6]. split; [done| |done..]. intros w0 m n Hw0. apply (H2 w0). rewrite Hws.
  simpl in Hw0. apply elem_of_app in Hw0 as [?|?]; apply elem_of_app; [by left|right; by right].
Qed.

Lemma handed_take p : Z.of_nat (length (handed_to p (ws1 ++ w :: ws2))) = Z.of_nat (length (handed_to p (ws1 ++ ws2))) + one p (hand_of w).
Proof.
  rewrite !handed_app, !length_app, handed_cons. unfold message_to, one, hand_of.
  destruct (wk_message w) as [[m n]|]; [|rewrite decide_False by done; lia].
  destruct (decide (ikm_remote_port m = p)) as [->|Hne]; [rewrite decide_True by done; simpl; lia|].
  rewrite decide_False by congruence. lia.
Qed.

Lemma senders_take p :
  Z.of_nat (woken_senders p threads (ws1 ++ w :: ws2)) =
  Z.of_nat (woken_senders p threads1 (ws1 ++ ws2)) + one p (sender_of ts).
Proof.
  pose proof (so_parking _ _ _ _ _ Hs) as [_ _ _ Hnd _]. rewrite Hws, fmap_app, fmap_cons, <-Permutation_middle in Hnd.
  apply NoDup_cons in Hnd as [Hn _]. rewrite <-fmap_app in Hn.
  rewrite (woken_senders_same p threads threads1 (ws1 ++ ws2)).
  - unfold woken_senders. rewrite !filter_app, filter_cons, !length_app.
    assert (wakes_sender p threads w ↔ sender_of ts = Some p) as Hiff.
    { unfold wakes_sender, sender_of. rewrite Hth. simpl. destruct ts; simpl; [|done..].
      rewrite Z.eqb_eq. split; congruence. }
    unfold one. destruct (decide (wakes_sender p threads w)), (decide (sender_of ts = Some p)); try tauto; simpl; lia.
  - intros w0 Hw0. rewrite lookup_delete_ne; [done|]. intros Heq. apply Hn, list_elem_of_fmap. by exists w0.
Qed.

Lemma take_sound : sound_in kernel (hand_of w) (sender_of ts) st1 threads1.
Proof.
  destruct Hs as [Hw Hu Hp Hm [Hc Hpr]]. split; [done|done| | |].
  - apply parking_take. by rewrite <-Hws.
  - by apply mail_woken, mail_delete.
  - assert (∀ p, finishing p threads1 = finishing p threads) as Hf.
    { intros p. rewrite (finishing_delete p threads (wk_thread w) ts Hth).
      destruct (pa_woken _ _ _ Hp w) as (ts0 & Hts0 & Hok); [rewrite Hws; set_solver|].
      assert (ts0 = ts) as -> by congruence. by destruct ts. }
    split.
    + intros p port Hport Ha. rewrite (Hc p port Hport Ha), Hws, set_woken_port, Hf. simpl ps_woken.
      pose proof (handed_take p). unfold one at 1. rewrite decide_False by done. lia.
    + intros p port Hport Hb. pose proof (Hpr p port Hport Hb) as Hle. rewrite Hws in Hle. simpl ps_woken.
      pose proof (senders_take p). unfold one at 1 in Hle. rewrite decide_False in Hle by done. lia.
Qed.
End take.

(** ** Sending keeps the invariant *)

Lemma one_le p o : 0 ≤ one p o ≤ 1.
Proof. unfold one. case_decide; lia. Qed.
Lemma one_none p : one p None = 0.
Proof. done. Qed.
Lemma one_other x p : x ≠ p → one x (Some p) = 0.
Proof. intros Hx. unfold one. rewrite decide_False; [done|congruence]. Qed.
Lemma one_same p : one p (Some p) = 1.
Proof. unfold one. by rewrite decide_True. Qed.

Lemma gentle_deliver mq : gentle (deliver_port mq).
Proof. unfold deliver_port. destruct (receiver_of mq); auto. Qed.
#[export] Hint Resolve gentle_deliver : core.

Section delivering.
Context (st : pstate) (m : ipc_kmsg) (port : ipc_port) (mq : ipc_mqueue) (c : nat).
Let p := ikm_remote_port m.
Let q := home p port.
Hypothesis Hw : queues_wf (ps_ports st) (ps_psets st).
Hypothesis Hu : unqueued st m.
Hypothesis Hp : ps_ports st !! p = Some port.
Hypothesis Hq : queue_at st p q mq.

Local Abbreviation st' := (at_queue st p (deliver_port mq) q (deliver_queue mq m) (deliver_woken mq m port) c).

Lemma home_member : match q with
  | MQ_port p => ∀ port, ps_ports st !! p = Some port → ip_pset port = IPS_NULL
  | MQ_pset _ => True end.
Proof. unfold q, home. destruct (Z.eqb_spec (ip_pset port) IPS_NULL); [|done]. intros port' Hp'. fold p in Hp'. congruence. Qed.

Lemma home_belongs : belongs (ps_ports st) q m.
Proof. unfold q, home. destruct (Z.eqb_spec (ip_pset port) IPS_NULL); [done|]. simpl. by exists port. Qed.

Lemma delivery_wf : queues_wf (ps_ports st') (ps_psets st').
Proof.
  pose proof (qw_calm _ _ Hw q mq (proj1 Hq)) as Hc.
  pose proof (qw_unlocked _ _ Hw q mq (proj1 Hq)) as Hl. pose proof (qw_nodup _ _ Hw q mq (proj1 Hq)) as Hnd.
  unfold deliver_queue, receiver_of. apply (at_queue_wf st p _ q mq); auto; try apply home_member.
  - by destruct (head (imq_threads mq)).
  - destruct (imq_threads mq) as [|th ths] eqn:Hth; simpl; [left; simpl; done|]. right. simpl.
    destruct Hc as [Hc|Hc]; [by rewrite Hth in Hc|done].
  - destruct (head (imq_threads mq)); [done|]. simpl. rewrite fmap_app. apply NoDup_app. split_and!; [done| |apply NoDup_singleton].
    intros a (m' & -> & Hm')%list_elem_of_fmap Ha. apply list_elem_of_singleton in Ha. by apply (Hu q mq m'); [apply Hq|..].
  - intros m'. destruct (head (imq_threads mq)); [by left|]. simpl. intros [?|Hx]%elem_of_app; [by left|right].
    apply list_elem_of_singleton in Hx as ->. split; [done|apply home_belongs].
Qed.

Lemma delivery_messages :
  port_messages st' p = if receiver_of mq is Some _ then port_messages st p else port_messages st p ++ [m].
Proof.
  rewrite (messages_after st p _ q mq _ _ c Hq (gentle_deliver mq) Hw p port delivery_wf Hp). rewrite decide_True by done.
  rewrite (port_messages_home st p port mq Hw Hp (proj1 Hq)). unfold deliver_queue. destruct (receiver_of mq); [done|]. simpl.
  by rewrite mine_app, (mine_here p m []).
Qed.

End delivering.

Section sending.
Context (kernel : Z) (st : pstate) (threads : threads_t) (m : ipc_kmsg) (port : ipc_port) (mq : ipc_mqueue) (c : nat) (sh : option Z).
Let p := ikm_remote_port m.
Let q := home p port.
Hypothesis Hs : sound_in kernel None sh st threads.
Hypothesis Hm : sendable kernel st m.
Hypothesis Hu : unqueued st m.
Hypothesis Hun : unsent threads m.
Hypothesis Hp : ps_ports st !! p = Some port.
Hypothesis Hq : queue_at st p q mq.
Hypothesis Hsh : ∀ x, x ≠ p → one x sh = 0.

Local Abbreviation st' := (at_queue st p (deliver_port mq) q (deliver_queue mq m) (deliver_woken mq m port) c).

Lemma deliver_wf : queues_wf (ps_ports st') (ps_psets st').
Proof. apply delivery_wf; [apply Hs|done..]. Qed.

Lemma deliver_parking : parking (parked st') threads (ps_woken st').
Proof.
  pose proof (so_parking _ _ _ _ _ Hs) as Hpa. pose proof (parked_queue_before _ _ _ _ Hq) as Hb.
  assert (∀ k, k ≠ In_queue q → parked st' k = parked st k) as Ho.
  { intros k Hk. apply (parked_calm st p _ q mq); auto. intros x. unfold deliver_port. by destruct (receiver_of mq). }
  assert (parked st' (In_queue q) = imq_threads (deliver_queue mq m)) as Hk by (by apply (parked_queue st p _ q mq)).
  change (ps_woken st') with (deliver_woken mq m port ++ ps_woken st).
  revert Hk Ho. generalize (parked st') as pk. intros pk. unfold deliver_woken, deliver_queue, receiver_of.
  destruct (imq_threads mq) as [|th ths] eqn:Hth; simpl imq_threads; intros Hk Ho.
  - apply (parking_same _ _ _ _ Hpa). intros k. destruct (decide (k = In_queue q)) as [->|Hne]; [|by apply Ho].
    rewrite Hk, Hb. by destruct mq.
  - destruct (pa_parked _ _ _ Hpa (In_queue q) th) as (ts & Hts & Hpk & _); [rewrite Hb; by left|].
    eapply (parking_wake _ _ _ _ Hpa (In_queue q) th ths ts); try done. destruct ts; try done. left. by split; [|eexists].
Qed.

Lemma deliver_messages :
  port_messages st' p = if receiver_of mq is Some _ then port_messages st p else port_messages st p ++ [m].
Proof. apply delivery_messages; [apply Hs|done..]. Qed.

Lemma deliver_handed x :
  handed_to x (deliver_woken mq m port) = if receiver_of mq is Some _ then if decide (p = x) then [(m, ip_seqno port)] else [] else [].
Proof. unfold deliver_woken. destruct (receiver_of mq); [|done]. rewrite handed_cons. unfold message_to. simpl. fold p. by case_decide. Qed.

Lemma deliver_sound : sound_in kernel None None st' threads.
Proof.
  pose proof Hs as [Hw Hul Hpa Hma Hc]. split.
  - apply deliver_wf.
  - apply unlocked_after; auto.
  - apply deliver_parking.
  - apply (mail_after kernel st p _ q mq); auto.
    + intros m'. unfold deliver_queue. destruct (receiver_of mq); [by left|]. simpl. intros [?|Hx]%elem_of_app; [by left|right].
      by apply list_elem_of_singleton in Hx as ->.
    + intros w m' n. unfold deliver_woken. destruct (receiver_of mq); [|by intros ?%elem_of_nil].
      intros ->%list_elem_of_singleton. by intros [= <- _].
  - apply (counts_after st p _ q mq _ _ c Hq (gentle_deliver mq) Hw threads None sh); auto.
    + apply deliver_wf.
    + intros x Hx. rewrite deliver_handed, Hsh by done. split_and!; [|destruct (receiver_of mq); [by rewrite decide_False|done]|done|done].
      unfold deliver_queue. destruct (receiver_of mq); [done|]. simpl. rewrite mine_app, (mine_other x m []) by done. by rewrite app_nil_r.
    + intros port0 Hp0 Ha. assert (port0 = port) as -> by congruence. rewrite deliver_messages, deliver_handed.
      assert (ip_msgcount (deliver_port mq port) = ip_msgcount port + 1) as -> by (unfold deliver_port; by destruct (receiver_of mq)).
      rewrite (co_count _ _ _ _ Hc p port Hp Ha), one_none. destruct (receiver_of mq).
      * rewrite decide_True by done. simpl length. lia.
      * rewrite length_app. simpl length. lia.
    + intros port0 Hp0 Hb. assert (port0 = port) as -> by congruence. revert Hb.
      assert (ip_blocked (deliver_port mq port) = ip_blocked port ∧ ip_qlimit (deliver_port mq port) = ip_qlimit port ∧
        ip_msgcount (deliver_port mq port) = ip_msgcount port + 1) as (-> & -> & ->)
        by (unfold deliver_port; by destruct (receiver_of mq)).
      intros Hb. pose proof (co_progress _ _ _ _ Hc p port Hp Hb). pose proof (one_le p sh). rewrite one_none.
      unfold woken_senders in *. rewrite filter_app, length_app. lia.
Qed.

(** The queue is full: the sender gives up, or goes to sleep. *)
Lemma full_counts : ip_qlimit port ≤ ip_msgcount port → counts None None st threads.
Proof.
  intros Hfull. destruct (so_counts _ _ _ _ _ Hs) as [Hc Hpr]. split; [done|]. intros x portx Hx Hb.
  pose proof (Hpr x portx Hx Hb). rewrite one_none. destruct (decide (x = p)) as [->|Hne].
  - assert (portx = port) as -> by congruence. lia.
  - by rewrite Hsh in * by done.
Qed.

Lemma full_sound : ip_qlimit port ≤ ip_msgcount port → sound_in kernel None None st threads.
Proof. intros Hfull. destruct Hs as [Hw Hul Hpa Hma Hc]. split; [done..|]. by apply full_counts. Qed.

Lemma block_sound th opt timeout :
  ip_qlimit port ≤ ip_msgcount port → threads !! th = None →
  sound_in kernel None None (at_queue st p (waits th) q mq [] c) (<[th := Sending m opt timeout]> threads).
Proof.
  intros Hfull Hth. pose proof (full_sound Hfull) as [Hw Hul Hpa Hma Hc].
  pose proof (qw_calm _ _ Hw q mq (proj1 Hq)) as Hcalm. pose proof (qw_unlocked _ _ Hw q mq (proj1 Hq)) as Hl.
  pose proof (qw_nodup _ _ Hw q mq (proj1 Hq)) as Hnd.
  set (st1 := at_queue st p (waits th) q mq [] c).
  assert (queues_wf (ps_ports st1) (ps_psets st1)) as Hw1.
  { apply (at_queue_wf st p _ q mq); auto. apply (home_member st m port); done. }
  split; [done| | | |].
  - apply unlocked_after; auto.
  - apply (parking_enter _ _ _ _ Hpa (In_port p)); [done..| |].
    + unfold st1. rewrite (parked_port st p _ q mq mq [] c Hq port Hp). unfold parked. by rewrite Hp.
    + intros k Hk. destruct (decide (k = In_queue q)) as [->|Hne]; [|by apply (parked_other st p _ q mq); auto].
      unfold st1. by rewrite (parked_queue st p _ q mq mq), (parked_queue_before _ _ _ _ Hq).
  - assert (mail kernel st1 threads) as Hma1.
    { apply (mail_after kernel st p _ q mq); auto. by intros w m' n ?%elem_of_nil. }
    apply mail_insert; [done..|]. split_and!; [apply sendable_after; auto| |done].
    eapply (unqueued_after st p _ q mq); eauto.
  - assert (counts None None st1 threads) as Hc1.
    { apply (counts_after st p _ q mq _ _ c Hq (gentle_waits th) Hw threads None None); auto.
      - by intros x Hx.
      - intros port0 Hp0 Ha. simpl. rewrite (co_count _ _ _ _ Hc p port0 Hp0 Ha). simpl.
        rewrite (messages_after st p _ q mq mq [] c Hq (gentle_waits th) Hw p port0 Hw1 Hp0).
        assert (port0 = port) as -> by congruence. rewrite decide_True by done.
        rewrite (port_messages_home st p port mq Hw Hp (proj1 Hq)). lia.
      - intros port0 Hp0 _. assert (port0 = port) as -> by congruence. simpl. rewrite one_none. lia. }
    apply (counts_threads None None None None st1 threads); [|done| |done].
    + intros x. by rewrite (finishing_insert x threads th) by done.
    + intros w Hx. rewrite lookup_insert_ne; [done|]. intros ->.
      destruct (pa_woken _ _ _ Hpa w) as (ts & Hts & _); [done|congruence].
Qed.
End sending.

(** Time does not matter. *)
Lemma sound_clock kernel mh sh st threads p q mq c :
  queue_at st p q mq → sound_in kernel mh sh st threads → sound_in kernel mh sh (at_queue st p (λ port, port) q mq [] c) threads.
Proof.
  intros Hq Hs. rewrite (at_queue_start st p q mq Hq) in Hs. destruct Hs as [Hw Hul Hpa [] []]. by split; [..|split|split].
Qed.

(** ** Receiving keeps the invariant *)

Section receiving.
Context (kernel : Z) (st : pstate) (threads : threads_t) (p : Z) (q : mqptr) (mq : ipc_mqueue) (c : nat).
Hypothesis Hs : sound_in kernel None None st threads.
Hypothesis Hq : queue_at st p q mq.
Hypothesis Hr : receivable st q.

Lemma receivable_member : match q with
  | MQ_port p => ∀ port, ps_ports st !! p = Some port → ip_pset port = IPS_NULL
  | MQ_pset _ => True end.
Proof. destruct q as [x|s]; [|done]. destruct Hr as (port & Hp & Hn). intros port' Hp'. congruence. Qed.

(** The receivers of the queue change. *)
Lemma receivers_wf mq' :
  imq_locked mq' = false → mq_calm mq' → imq_messages mq' = imq_messages mq →
  let st' := at_queue st p (λ port, port) q mq' [] c in
  queues_wf (ps_ports st') (ps_psets st') ∧ mail kernel st' threads ∧ counts None None st' threads ∧
  unlocked_ports st' ∧ ∀ k, k ≠ In_queue q → parked st' k = parked st k.
Proof.
  intros Hl Hc Hm. pose proof Hs as [Hw Hul Hpa Hma Hco]. pose proof (qw_nodup _ _ Hw q mq (proj1 Hq)) as Hnd.
  assert (queues_wf (ps_ports (at_queue st p (λ port, port) q mq' [] c)) (ps_psets (at_queue st p (λ port, port) q mq' [] c))) as Hw1.
  { apply (at_queue_wf st p _ q mq); auto; [by rewrite Hm|rewrite Hm; by left|apply receivable_member]. }
  split_and!; [done| | | |].
  - apply (mail_after kernel st p _ q mq); auto; [rewrite Hm; by left|by intros w m n ?%elem_of_nil].
  - by apply (counts_quiet st p q mq).
  - apply unlocked_after; auto.
  - intros k Hk. by apply (parked_calm st p _ q mq).
Qed.

Lemma wait_sound th opt max_size timeout :
  threads !! th = None → imq_messages mq = [] → GET_RCV_ELEMENTS opt < 3 →
  sound_in kernel None None (at_queue st p (λ port, port) q (added th mq) [] c) (<[th := Receiving q opt max_size timeout]> threads).
Proof.
  intros Hth Hm He. pose proof Hs as [Hw Hul Hpa Hma Hco]. pose proof (qw_unlocked _ _ Hw q mq (proj1 Hq)) as Hl.
  destruct (receivers_wf (added th mq) Hl) as (Hw1 & Hma1 & Hco1 & Hul1 & Ho); [by right|done|]. split; [done|done| | |].
  - apply (parking_enter _ _ _ _ Hpa (In_queue q)); [done..| |done].
    rewrite (parked_queue st p _ q mq) by done. by rewrite (parked_queue_before _ _ _ _ Hq).
  - apply mail_insert; [done..|]. split; [|done]. apply (receivable_after st p _ q mq); auto.
  - apply (counts_threads None None None None _ threads); [|done| |done].
    + intros x. by rewrite (finishing_insert x threads th) by done.
    + intros w Hx. rewrite lookup_insert_ne; [done|]. intros ->.
      destruct (pa_woken _ _ _ Hpa w) as (ts & Hts & _); [done|congruence].
Qed.

Lemma leave_sound th ts :
  threads !! th = Some ts → park_of ts = Some (In_queue q) → th ∈ imq_threads mq →
  sound_in kernel None None (at_queue st p (λ port, port) q (removed th mq) [] c) (delete th threads).
Proof.
  intros Hth Hts Hin. pose proof Hs as [Hw Hul Hpa Hma Hco]. pose proof (qw_unlocked _ _ Hw q mq (proj1 Hq)) as Hl.
  pose proof (qw_calm _ _ Hw q mq (proj1 Hq)) as Hc.
  destruct (receivers_wf (removed th mq) Hl) as (Hw1 & Hma1 & Hco1 & Hul1 & Ho); [|done|].
  { destruct Hc as [Hc|Hc]; [rewrite Hc in Hin; by apply elem_of_nil in Hin|by right]. }
  destruct (pa_parked _ _ _ Hpa (In_queue q) th) as (ts0 & Hts0 & _ & Hnw); [by rewrite (parked_queue_before _ _ _ _ Hq)|].
  split; [done|done| | |].
  - apply (parking_leave _ _ _ _ Hpa (In_queue q) th); [by rewrite (parked_queue_before _ _ _ _ Hq)| |done].
    rewrite (parked_queue st p _ q mq) by done. by rewrite (parked_queue_before _ _ _ _ Hq).
  - by apply mail_delete.
  - apply (counts_threads None None None None _ threads); [|done| |done].
    + intros x. rewrite (finishing_delete x threads th ts Hth). by destruct ts.
    + intros w Hx. rewrite lookup_delete_ne; [done|]. intros ->. apply Hnw, list_elem_of_fmap. by exists w.
Qed.

(** The first message is taken. *)
Lemma got_sound th m ms port opt max_size :
  threads !! th = None → imq_messages mq = m :: ms → ikm_remote_port m = p → ps_ports st !! p = Some port → q = home p port →
  GET_RCV_ELEMENTS opt < 3 →
  let st' := at_queue st p numbered q (set_imq_messages mq ms) [] c in
  sound_in kernel None None st' (<[th := Finishing m opt max_size]> threads) ∧
  port_messages st p = m :: port_messages st' p ∧ (∀ x, x ≠ p → is_Some (ps_ports st !! x) → port_messages st' x = port_messages st x).
Proof.
  intros Hth Hm Hk Hp Hh He st'. pose proof Hs as [Hw Hul Hpa Hma Hco]. pose proof (qw_unlocked _ _ Hw q mq (proj1 Hq)) as Hl.
  pose proof (qw_calm _ _ Hw q mq (proj1 Hq)) as Hc. pose proof (qw_nodup _ _ Hw q mq (proj1 Hq)) as Hnd. rewrite Hm in Hnd.
  assert (queues_wf (ps_ports st') (ps_psets st')) as Hw1.
  { apply (at_queue_wf st p _ q mq); auto; [|by apply NoDup_cons in Hnd as [_ ?]| |apply receivable_member].
    - left. simpl. destruct Hc as [?|Hx]; [done|congruence].
    - simpl. intros m' Hm'. left. rewrite Hm. by right. }
  assert (mine p (imq_messages mq) = m :: mine p ms) as Hmp by (by rewrite Hm, mine_here).
  assert (∀ x, x ≠ p → mine x ms = mine x (imq_messages mq)) as Hmx.
  { intros x Hx. rewrite Hm, mine_other by congruence. done. }
  assert (port_messages st' p = mine p ms) as Hpm.
  { unfold st'. rewrite (messages_after st p _ q mq _ [] c Hq gentle_numbered Hw p port Hw1 Hp). by rewrite decide_True. }
  assert (port_messages st p = m :: mine p ms) as Hpm0.
  { rewrite Hh in Hq. by rewrite (port_messages_home st p port mq Hw Hp (proj1 Hq)). }
  split_and!; [split; [done| | | |]|by rewrite Hpm|].
  - apply unlocked_after; auto.
  - apply parking_run; [|done..]. apply (parking_same _ _ _ _ Hpa). intros k. destruct (decide (k = In_queue q)) as [->|Hne].
    + unfold st'. by rewrite (parked_queue st p _ q mq), (parked_queue_before _ _ _ _ Hq).
    + by apply (parked_calm st p _ q mq); auto.
  - apply mail_insert; [|done|].
    + apply (mail_after kernel st p _ q mq); auto; [|by intros w m' n ?%elem_of_nil]. simpl. intros m' Hm'. left. rewrite Hm. by right.
    + split; [|done]. apply sendable_after; auto. apply (ma_queued _ _ _ Hma q mq); [apply Hq|]. rewrite Hm. by left.
  - apply (counts_threads (Some p) None None None st' threads); [|done| |].
    + intros x. rewrite (finishing_insert x threads th) by done. unfold finishes. rewrite Hk.
      destruct (Z.eqb_spec p x) as [->|Hne]; [rewrite one_same, one_none; lia|rewrite one_other, one_none by done; lia].
    + intros w Hx. rewrite lookup_insert_ne; [done|]. intros ->.
      destruct (pa_woken _ _ _ Hpa w) as (ts & Hts & _); [done|congruence].
    + apply (counts_after st p _ q mq _ _ c Hq gentle_numbered Hw threads None None); auto.
      * intros x Hx. simpl. rewrite one_other by done. by split_and!; [apply Hmx|..].
      * intros port0 Hp0 Ha. simpl ip_msgcount. fold st'. rewrite (co_count _ _ _ _ Hco p port0 Hp0 Ha), Hpm, Hpm0, one_same, one_none.
        simpl length. lia.
      * intros port0 Hp0 Hb. exact (co_progress _ _ _ _ Hco p port0 Hp0 Hb).
  - intros x Hx [portx Hpx]. unfold st'. rewrite (messages_after st p _ q mq _ [] c Hq gentle_numbered Hw x portx Hw1 Hpx).
    case_decide as Hd; [|done]. simpl. rewrite Hmx by done.
    rewrite (port_messages_home st x portx mq Hw Hpx); [done|]. rewrite Hd. apply Hq.
Qed.
End receiving.

(** The message that a woken thread has becomes its own. *)
Lemma hand_sound kernel st threads th m opt max_size :
  sound_in kernel (Some (ikm_remote_port m)) None st threads → threads !! th = None → sendable kernel st m → GET_RCV_ELEMENTS opt < 3 →
  sound_in kernel None None st (<[th := Finishing m opt max_size]> threads).
Proof.
  intros [Hw Hul Hpa Hma Hco] Hth Hsm He. split; [done|done|by apply parking_run|by apply mail_insert|].
  apply (counts_threads (Some (ikm_remote_port m)) None None None st threads); [|done| |done].
  - intros x. rewrite (finishing_insert x threads th) by done. unfold finishes.
    destruct (Z.eqb_spec (ikm_remote_port m) x) as [->|Hne]; [rewrite one_same, one_none; lia|rewrite one_other, one_none by done; lia].
  - intros w Hx. rewrite lookup_insert_ne; [done|]. intros ->. destruct (pa_woken _ _ _ Hpa w) as (ts & Hts & _); [done|congruence].
Qed.

(** The receiver is through: the count goes down, and a sender may go on. *)
Section finishing.
Context (kernel : Z) (st : pstate) (threads : threads_t) (th : Z) (m : ipc_kmsg) (opt max_size : Z) (port : ipc_port) (mq : ipc_mqueue) (c : nat).
Let p := ikm_remote_port m.
Let q := home p port.
Hypothesis Hs : sound_in kernel None None st threads.
Hypothesis Hth : threads !! th = Some (Finishing m opt max_size).
Hypothesis Hp : ps_ports st !! p = Some port.
Hypothesis Ha : ip_active port = true.
Hypothesis Hq : queue_at st p q mq.

Local Abbreviation st' := (at_queue st p finish_port q mq (finish_woken port) c).

Lemma finish_count : 0 < ip_msgcount port.
Proof.
  rewrite (co_count _ _ _ _ (so_counts _ _ _ _ _ Hs) p port Hp Ha), one_none.
  rewrite (finishing_delete p threads th _ Hth). simpl. unfold p. rewrite Z.eqb_refl. lia.
Qed.

Lemma finish_wf : queues_wf (ps_ports st') (ps_psets st').
Proof.
  pose proof (so_queues _ _ _ _ _ Hs) as Hw. pose proof (qw_unlocked _ _ Hw q mq (proj1 Hq)) as Hl.
  apply (at_queue_wf st p _ q mq); auto; [by eapply (qw_calm _ _ Hw), Hq|by eapply (qw_nodup _ _ Hw), Hq|].
  by apply home_member.
Qed.

Lemma finish_messages x : is_Some (ps_ports st !! x) → port_messages st' x = port_messages st x.
Proof.
  intros [portx Hx]. pose proof (so_queues _ _ _ _ _ Hs) as Hw.
  rewrite (messages_after st p _ q mq mq _ c Hq gentle_finish Hw x portx finish_wf Hx). case_decide as Hd; [|done].
  rewrite (port_messages_home st x portx mq Hw Hx); [done|]. rewrite Hd. apply Hq.
Qed.

Lemma finish_handed x : handed_to x (finish_woken port) = [].
Proof. unfold finish_woken. by destruct (next_sender port). Qed.

Lemma blocked_sender sender senders : ip_blocked port = sender :: senders →
  ∃ m' opt' timeout', threads !! sender = Some (Sending m' opt' timeout') ∧ ikm_remote_port m' = p.
Proof.
  intros Hb. destruct (pa_parked _ _ _ (so_parking _ _ _ _ _ Hs) (In_port p) sender) as (ts & Hts & Hpk & _).
  { unfold parked. rewrite Hp, Hb. by left. }
  destruct ts; [|done..]. eexists _, _, _. split; [done|]. by injection Hpk.
Qed.

Lemma finish_parking : parking (parked st') threads (ps_woken st').
Proof.
  pose proof (so_parking _ _ _ _ _ Hs) as Hpa. change (ps_woken st') with (finish_woken port ++ ps_woken st).
  assert (parked st (In_port p) = ip_blocked port) as Hb by (unfold parked; by rewrite Hp).
  assert (parked st' (In_port p) = ip_blocked (finish_port port)) as Hb' by (by apply (parked_port st p _ q mq mq _ c Hq port Hp)).
  assert (∀ k, k ≠ In_port p → parked st' k = parked st k) as Ho.
  { intros k Hk. destruct (decide (k = In_queue q)) as [->|Hne]; [|by apply (parked_other st p _ q mq); auto].
    by rewrite (parked_queue st p _ q mq mq), (parked_queue_before _ _ _ _ Hq). }
  revert Hb' Ho. generalize (parked st') as pk. intros pk. unfold finish_port, finish_woken, next_sender.
  destruct (ip_blocked port) as [|sender senders] eqn:Hbl; [|destruct (ip_msgcount port - 1 <? ip_qlimit port)]; intros Hb' Ho.
  - apply (parking_same _ _ _ _ Hpa). intros k. destruct (decide (k = In_port p)) as [->|]; [|by apply Ho]. rewrite Hb', Hb. simpl. by rewrite Hbl.
  - destruct (blocked_sender _ _ Hbl) as (m' & opt' & timeout' & Hx & Hm').
    by eapply (parking_wake _ _ _ _ Hpa (In_port p) sender senders).
  - apply (parking_same _ _ _ _ Hpa). intros k. destruct (decide (k = In_port p)) as [->|]; [|by apply Ho]. rewrite Hb', Hb. simpl. by rewrite Hbl.
Qed.

Lemma finish_progress :
  ip_blocked (finish_port port) ≠ [] →
  ip_qlimit (finish_port port) ≤ ip_msgcount (finish_port port) + Z.of_nat (woken_senders p threads (finish_woken port ++ ps_woken st)).
Proof.
  pose proof (co_progress _ _ _ _ (so_counts _ _ _ _ _ Hs) p port Hp) as Hpr. rewrite one_none in Hpr.
  unfold finish_port, finish_woken, next_sender. destruct (ip_blocked port) as [|sender senders] eqn:Hbl; simpl.
  - rewrite Hbl. done.
  - intros Hb. destruct (Z.ltb_spec (ip_msgcount port - 1) (ip_qlimit port)) as [Hlt|Hge]; simpl; [|lia].
    destruct (blocked_sender _ _ Hbl) as (m' & opt' & timeout' & Hx & Hm').
    unfold woken_senders in *. rewrite filter_cons_True; [simpl; specialize (Hpr ltac:(done)); lia|].
    unfold wakes_sender. simpl. rewrite Hx. simpl. by rewrite Hm', Z.eqb_refl.
Qed.

Lemma finish_sound : sound_in kernel None None st' (delete th threads).
Proof.
  pose proof Hs as [Hw Hul Hpa Hma Hco]. split.
  - apply finish_wf.
  - apply unlocked_after; auto.
  - apply (parking_stop _ _ _ finish_parking th (Finishing m opt max_size)); done.
  - apply mail_delete. apply (mail_after kernel st p _ q mq); auto. intros w m' n. unfold finish_woken.
    destruct (next_sender port); [|by intros ?%elem_of_nil]. by intros ->%list_elem_of_singleton.
  - assert (∀ w, w ∈ ps_woken st' → delete th threads !! wk_thread w = threads !! wk_thread w) as Hwk.
    { intros w Hx. rewrite lookup_delete_ne; [done|]. intros ->.
      destruct (pa_woken _ _ _ finish_parking w) as (ts & Hts & Hok); [done|].
      by assert (ts = Finishing m opt max_size) as -> by congruence. }
    assert (counts (Some p) None st (delete th threads)) as Hco1.
    { apply (counts_threads None None _ None st threads); [|done| |done].
      - intros x. rewrite (finishing_delete x threads th _ Hth). simpl. fold p.
        destruct (Z.eqb_spec p x) as [->|Hne]; [rewrite one_same, one_none; lia|rewrite one_other, one_none by done; lia].
      - intros w Hx. apply Hwk. simpl. apply elem_of_app. by right. }
    apply (counts_after st p _ q mq _ _ c Hq gentle_finish Hw _ (Some p) None); auto using finish_wf.
    + intros x Hx. by rewrite one_other, finish_handed.
    + intros port0 Hp0 Ha0. assert (port0 = port) as -> by congruence. rewrite finish_messages, finish_handed by (by rewrite Hp).
      assert (ip_msgcount (finish_port port) = ip_msgcount port - 1) as -> by (unfold finish_port; by destruct (next_sender port)).
      rewrite (co_count _ _ _ _ Hco1 p port Hp Ha), one_same, one_none. simpl length. lia.
    + intros port0 Hp0 Hb. assert (port0 = port) as -> by congruence. rewrite one_none, Z.add_0_r.
      rewrite (woken_senders_same p threads) by exact Hwk. by apply finish_progress.
Qed.
End finishing.
