(* ===== verification/IpcMsgOrder.v ===== *)
(** * Messages arrive, once and in order

    The system of threads that send and receive keeps its invariant, none of
    its steps fails an assertion, and each port is a queue: the messages to
    it are received in the order in which they were accepted, with
    consecutive sequence numbers, each by one receiver.  The last part shows
    what goes wrong when a blocked sender gives up. *)

From stdpp Require Import prelude list gmap.
From S2P Require Import Prelude MachPort IpcSplay IpcTypes IpcHash IpcTable IpcEntry IpcPort IpcDnreq IpcPortRights IpcPset IpcPsetInv.
From S2P Require Import IpcDestroy IpcRight IpcObject IpcMqueue IpcMqueueInv IpcMsgSystem.

(** ** What becomes of the messages to a port *)

Definition accepted_by (p : Z) (ev : event) : option ipc_kmsg :=
  match ev with
  | Accepted m => if decide (ikm_remote_port m = p) then Some m else None
  | Received _ _ => None
  end.
Definition received_from (p : Z) (ev : event) : option (ipc_kmsg * Z) :=
  match ev with
  | Accepted _ => None
  | Received m n => if decide (ikm_remote_port m = p) then Some (m, n) else None
  end.

(** The messages to [p] that were accepted, and those received from it. *)
Definition accepted (p : Z) (evs : list event) : list ipc_kmsg := omap (accepted_by p) evs.
Definition received (p : Z) (evs : list event) : list (ipc_kmsg * Z) := omap (received_from p) evs.

(** Messages with sequence numbers from [n] on. *)
Definition number_from (n : Z) (ms : list ipc_kmsg) : list (ipc_kmsg * Z) := imap (λ i m, (m, u32 (n + Z.of_nat i))) ms.

(** From [x] to [y] the messages [taken] have left the queue of [p], in
    order; they have been received, or a woken thread has them. *)
Definition in_order (p : Z) (x y : system) (evs : list event) : Prop :=
  ∀ port, ps_ports (sy_state x) !! p = Some port → is_u32 (ip_seqno port) →
  ∃ taken port',
    port_messages (sy_state x) p ++ accepted p evs = taken ++ port_messages (sy_state y) p ∧
    received p evs ++ handed_to p (ps_woken (sy_state y)) ≡ₚ
      handed_to p (ps_woken (sy_state x)) ++ number_from (ip_seqno port) taken ∧
    ps_ports (sy_state y) !! p = Some port' ∧ ip_seqno port' = u32 (ip_seqno port + Z.of_nat (length taken)).

Lemma number_from_app n ms ms' :
  number_from n (ms ++ ms') = number_from n ms ++ number_from (u32 (n + Z.of_nat (length ms))) ms'.
Proof.
  unfold number_from. rewrite imap_app. f_equal. apply imap_ext. intros i m _. simpl. f_equal.
  unfold u32. rewrite Zplus_mod_idemp_l. f_equal. lia.
Qed.

Lemma number_from_one n m : is_u32 n → number_from n [m] = [(m, n)].
Proof. intros Hn. unfold number_from. simpl. by rewrite Z.add_0_r, u32_small. Qed.

Lemma in_order_refl p x : in_order p x x [].
Proof.
  intros port Hp Hu. exists [], port. simpl. rewrite !app_nil_r, Z.add_0_r. by rewrite u32_small.
Qed.

Lemma in_order_trans p x y z evs evs' : in_order p x y evs → in_order p y z evs' → in_order p x z (evs ++ evs').
Proof.
  intros H1 H2 port Hp Hu. destruct (H1 port Hp Hu) as (t1 & port1 & Hm1 & Hr1 & Hp1 & Hn1).
  destruct (H2 port1 Hp1) as (t2 & port2 & Hm2 & Hr2 & Hp2 & Hn2); [rewrite Hn1; apply u32_range|].
  exists (t1 ++ t2), port2. unfold accepted, received in *. rewrite !omap_app. split_and!; [..|done|].
  - by rewrite app_assoc, Hm1, <-!app_assoc, Hm2.
  - rewrite <-app_assoc, Hr2, (app_assoc (omap (received_from p) evs)), Hr1, <-app_assoc, number_from_app. by rewrite Hn1.
  - rewrite Hn2, Hn1, length_app. unfold u32. rewrite Zplus_mod_idemp_l. f_equal. lia.
Qed.

(** Nothing happens to the messages of [p]. *)
Lemma in_order_same p x y evs :
  accepted p evs = [] → received p evs = [] →
  (∀ port, ps_ports (sy_state x) !! p = Some port → port_messages (sy_state y) p = port_messages (sy_state x) p ∧
    ∃ port', ps_ports (sy_state y) !! p = Some port' ∧ ip_seqno port' = ip_seqno port) →
  handed_to p (ps_woken (sy_state y)) = handed_to p (ps_woken (sy_state x)) → in_order p x y evs.
Proof.
  intros Ha Hr Hp Hh port Hx Hu. destruct (Hp port Hx) as (Hm & port' & Hy & Hn). exists [], port'.
  rewrite Ha, Hr, Hh, Hm. simpl. rewrite !app_nil_r, Z.add_0_r, u32_small by done. done.
Qed.

(** The port of a state after a change of one port and one queue. *)
Lemma at_queue_seqno st p g q mq ws c x port :
  ps_ports st !! x = Some port →
  ∃ port', ps_ports (at_queue st p g q mq ws c) !! x = Some port' ∧ ip_seqno port' = if decide (x = p) then ip_seqno (g port) else ip_seqno port.
Proof.
  intros Hx. simpl. case_decide as Hd.
  - subst x. rewrite lookup_alter_eq, Hx. simpl. eexists. split; [done|]. by destruct q.
  - rewrite lookup_alter_ne by done. by exists port.
Qed.

(** ** Each step *)

Section orders.
Context (kernel : Z).

Lemma deliver_order st threads m port mq c sh ta tb x :
  let p := ikm_remote_port m in
  sound_in kernel None sh st threads → unqueued st m → unsent threads m → ps_ports st !! p = Some port → queue_at st p (home p port) mq →
  in_order x (SYS st ta) (SYS (at_queue st p (deliver_port mq) (home p port) (deliver_queue mq m) (deliver_woken mq m port) c) tb) [Accepted m].
Proof.
  intros p Hs Hu Hun Hp Hq. pose proof (so_queues _ _ _ _ _ Hs) as Hw.
  pose proof (deliver_wf kernel st threads m port mq c sh Hs Hu Hp Hq) as Hw'. pose proof (qw_calm _ _ Hw _ mq (proj1 Hq)) as Hc.
  destruct (decide (x = p)) as [->|Hne].
  - intros port0 Hp0 Hun0. simpl sy_state in Hp0. assert (port0 = port) as -> by congruence.
    destruct (at_queue_seqno st p (deliver_port mq) (home p port) (deliver_queue mq m) (deliver_woken mq m port) c p port Hp)
      as (port' & Hp' & Hn). rewrite decide_True in Hn by done.
    pose proof (deliver_messages kernel st threads m port mq c sh Hs Hu Hp Hq) as Hm. fold p in Hm.
    pose proof (deliver_handed m port mq p) as Hh. fold p in Hh. rewrite decide_True in Hh by done. cbn [sy_state].
    assert (accepted p [Accepted m] = [m]) as -> by (unfold accepted; simpl; by rewrite decide_True).
    change (received p [Accepted m]) with (@nil (ipc_kmsg * Z)). rewrite Hm.
    change (ps_woken (at_queue st p (deliver_port mq) (home p port) (deliver_queue mq m) (deliver_woken mq m port) c))
      with (deliver_woken mq m port ++ ps_woken st). rewrite handed_app, Hh. revert Hn Hp'. unfold deliver_port.
    destruct (receiver_of mq) as [th|] eqn:Hth; intros Hn Hp'.
    + exists [m], port'. assert (port_messages st p = []) as ->.
      { rewrite (port_messages_home st p port mq Hw Hp (proj1 Hq)). destruct Hc as [Hc|Hc]; [|by rewrite Hc].
        unfold receiver_of in Hth. by rewrite Hc in Hth. }
      split_and!; [done| |done|done]. rewrite number_from_one by done. apply (Permutation_app_comm [_]).
    + exists [], port'. simpl. rewrite app_nil_r, Z.add_0_r, u32_small by done. done.
  - apply in_order_same.
    + unfold accepted. simpl. by rewrite decide_False.
    + done.
    + intros portx Hx. cbn [sy_state] in *. split.
      * rewrite (messages_after st p _ _ mq _ _ c Hq (gentle_deliver mq) Hw x portx Hw' Hx). case_decide as Hd; [|done].
        rewrite (port_messages_home st x portx mq Hw Hx) by (rewrite Hd; apply Hq).
        unfold deliver_queue. destruct (receiver_of mq); [done|]. simpl. rewrite mine_app, (mine_other x m []) by done. by rewrite app_nil_r.
      * destruct (at_queue_seqno st p (deliver_port mq) (home p port) (deliver_queue mq m) (deliver_woken mq m port) c x portx Hx)
          as (port' & Hp' & Hn). rewrite decide_False in Hn by done. by exists port'.
    + cbn [sy_state]. simpl ps_woken. rewrite handed_app, (deliver_handed m port mq x). fold p.
      destruct (receiver_of mq); [by rewrite decide_False|done].
Qed.

(** Nobody's messages change. *)
Lemma quiet_order st st' ta tb x :
  (∀ port, ps_ports st !! x = Some port → port_messages st' x = port_messages st x ∧
    ∃ port', ps_ports st' !! x = Some port' ∧ ip_seqno port' = ip_seqno port) →
  handed_to x (ps_woken st') = handed_to x (ps_woken st) → in_order x (SYS st ta) (SYS st' tb) [].
Proof. intros Hp Hh. by apply in_order_same. Qed.

(** The receivers of a queue change, or a sender blocks. *)
Lemma park_order st p g q mq mq' c ta tb x :
  queue_at st p q mq → gentle g → queues_wf (ps_ports st) (ps_psets st) → imq_messages mq' = imq_messages mq →
  (∀ port, ip_seqno (g port) = ip_seqno port) →
  (let st' := at_queue st p g q mq' [] c in queues_wf (ps_ports st') (ps_psets st')) →
  in_order x (SYS st ta) (SYS (at_queue st p g q mq' [] c) tb) [].
Proof.
  intros Hq Hg Hw Hm Hseq Hw'. apply quiet_order; [|done]. intros port Hx. split.
  - rewrite (messages_after st p g q mq mq' [] c Hq Hg Hw x port Hw' Hx). case_decide as Hd; [|done].
    rewrite (port_messages_home st x port mq Hw Hx) by (rewrite Hd; apply Hq). by rewrite Hm.
  - destruct (at_queue_seqno st p g q mq' [] c x port Hx) as (port' & Hp' & Hn). exists port'. split; [done|].
    rewrite Hn. by case_decide.
Qed.

(** A message is taken from a queue. *)
Lemma got_order st p q mq m ms port c ta tb x n :
  let st' := at_queue st p numbered q (set_imq_messages mq ms) [] c in
  ikm_remote_port m = p → ps_ports st !! p = Some port → n = ip_seqno port →
  port_messages st p = m :: port_messages st' p → (∀ x, x ≠ p → is_Some (ps_ports st !! x) → port_messages st' x = port_messages st x) →
  in_order x (SYS st ta) (SYS st' tb) [Received m n].
Proof.
  intros st' Hk Hp -> Hm Ho. destruct (decide (x = p)) as [->|Hne].
  - intros port0 Hp0 Hu. cbn [sy_state] in *. assert (port0 = port) as -> by congruence.
    destruct (at_queue_seqno st p numbered q (set_imq_messages mq ms) [] c p port Hp) as (port' & Hp' & Hn). rewrite decide_True in Hn by done.
    exists [m], port'. rewrite Hm. split_and!; [by rewrite app_nil_r| |done|done].
    assert (received p [Received m (ip_seqno port)] = [(m, ip_seqno port)]) as -> by (unfold received; simpl; by rewrite decide_True).
    rewrite number_from_one by done. apply (Permutation_app_comm [_]).
  - apply in_order_same; [done| | |done].
    + unfold received. simpl. by rewrite decide_False by congruence.
    + intros portx Hx. cbn [sy_state] in *. split; [by apply Ho|].
      destruct (at_queue_seqno st p numbered q (set_imq_messages mq ms) [] c x portx Hx) as (port' & Hp' & Hn). rewrite decide_False in Hn by done.
      by exists port'.
Qed.

(** A woken thread takes its wakeup, and perhaps a message. *)
Lemma take_order st ws1 w ws2 ta tb x :
  ps_woken st = ws1 ++ w :: ws2 →
  in_order x (SYS st ta) (SYS (set_woken st (ws1 ++ ws2)) tb)
    (match wk_message w with Some (m, n) => [Received m n] | None => [] end).
Proof.
  intros Hws port Hp Hu. exists [], port. cbn [sy_state] in *. split_and!; [..|done|simpl; by rewrite Z.add_0_r, u32_small].
  - destruct (wk_message w) as [[m n]|]; by rewrite app_nil_r.
  - rewrite Hws. simpl ps_woken. rewrite !handed_app, handed_cons, app_nil_r. unfold message_to, received.
    destruct (wk_message w) as [[m n]|]; simpl; [|done]. case_decide; simpl; [by rewrite Permutation_middle|done].
Qed.
End orders.

(** ** The actions *)

Section actions.
Context `{IW : iworld} `{PW : pworld, !quiet}.
Context (kernel : Z) (server : ipc_kmsg → option ipc_kmsg) (scatter : option (ipc_kmsg → mach_msg_return)).

Definition good (x y : system) (ev : list event) : Prop := sound_system kernel y ∧ ∀ p, in_order p x y ev.

Section send.
Context (st : pstate) (threads : threads_t) (m : ipc_kmsg) (sh : option Z) (th opt timeout : Z).
Hypothesis Hs : sound_in kernel None sh st threads.
Hypothesis Hth : threads !! th = None.
Hypothesis Hm : sendable kernel st m.
Hypothesis Hsp : has_space st m.
Hypothesis Hu : unqueued st m.
Hypothesis Hun : unsent threads m.
Hypothesis Hsh : ∀ x, x ≠ ikm_remote_port m → one x sh = 0.

(** What the code needs to know of the port. *)
Lemma send_ready :
  ∃ port mq, ps_ports st !! ikm_remote_port m = Some port ∧ queue_at st (ikm_remote_port m) (home (ikm_remote_port m) port) mq ∧
    ip_locked port = false ∧ imq_locked mq = false ∧ mq_calm mq ∧ ip_active port = true ∧ ip_data port ≠ kernel ∧
    (0 ≤ ip_msgcount port ∧ ip_msgcount port + 1 < 2 ^ 32).
Proof.
  destruct Hs as [Hw Hul Hpa Hma Hc]. destruct Hm as (_ & _ & port & Hp & Ha & Hd). exists port.
  destruct (home_queue st _ port Hw Hp) as (mq & Hq & Hl & Hcalm). exists mq. split_and!; try done.
  - by apply (Hul _ _ Hp).
  - rewrite (co_count _ _ _ _ Hc _ port Hp Ha), one_none. lia.
  - by apply Hsp.
Qed.

Lemma send_good port mq c ta :
  ps_ports st !! ikm_remote_port m = Some port → queue_at st (ikm_remote_port m) (home (ikm_remote_port m) port) mq →
  let '(y, ev) := after_send threads th m opt timeout
    (send_state st (ikm_remote_port m) port (home (ikm_remote_port m) port) mq m opt timeout th c) in
  good (SYS st ta) y ev.
Proof.
  intros Hp Hq. unfold send_state. destruct (accepts opt m port) eqn:Hac.
  - unfold after_send. cbn [fst snd]. rewrite bool_decide_true by done. rewrite delete_id by done. split.
    + eapply deliver_sound; eauto.
    + intros x. eapply deliver_order; eauto.
  - assert (ip_qlimit port ≤ ip_msgcount port) as Hfull.
    { unfold accepts in Hac. apply orb_false_elim in Hac as [Hac _]. apply orb_false_elim in Hac as [Hac _]. lia. }
    pose proof (so_queues _ _ _ _ _ Hs) as Hw.
    destruct (has opt MACH_SEND_TIMEOUT && (timeout =? 0)); unfold after_send; cbn [fst snd].
    + rewrite bool_decide_false by done. rewrite delete_id by done.
      assert (sound_in kernel None None (at_queue st (ikm_remote_port m) (λ port, port) (home (ikm_remote_port m) port) mq [] c) threads) as Hs'.
      { apply sound_clock; [done|]. by eapply full_sound. }
      split; [done|]. intros x. eapply park_order; eauto. apply Hs'.
    + assert (sound_in kernel None None (at_queue st (ikm_remote_port m) (waits th) (home (ikm_remote_port m) port) mq [] c)
        (<[th := Sending m opt timeout]> threads)) as Hs' by (by eapply block_sound).
      split; [done|]. intros x. eapply park_order; eauto. apply Hs'.
Qed.
End send.

Lemma send_action th m opt timeout x :
  sound_system kernel x → enabled_action kernel (Send th m opt timeout) x →
  ∃ y ev, run_action kernel server scatter (Send th m opt timeout) x = Ok (y, ev) ∧ good x y ev.
Proof.
  destruct x as [st threads]. intros Hs (Hth & Hm & Hsp & Hu & Hun).
  destruct (send_ready st threads m None Hs Hm Hsp) as (port & mq & Hp & Hq & Hl & Hql & Hcalm & Ha & Hd & Hn).
  unfold run_action. destruct Hm as (Hv & Hb & _).
  rewrite (send_spec st _ port _ mq Hp Hq Hl Hql eq_refl Hcalm Ha Hv Hn kernel server 1 m opt timeout th eq_refl Hd Hb). ostep.
  destruct (after_send _ _ _ _ _ _) as [y ev] eqn:Hy. eexists _, _. split; [done|].
  pose proof (send_good st threads m None th opt timeout Hs Hth) as Hgood.
  specialize (Hgood ltac:(by split_and!; [..|exists port]) Hu Hun ltac:(done) port mq (S (ps_clock st)) threads Hp Hq).
  by rewrite Hy in Hgood.
Qed.

(** A woken thread, and the state without its wakeup. *)
Lemma woken_take st threads th ts :
  sound_system kernel (SYS st threads) → threads !! th = Some ts → is_woken st th →
  ∃ ws1 w ws2, ps_woken st = ws1 ++ w :: ws2 ∧ wk_thread w = th ∧ wake_ok ts w ∧
    (∀ waiting, woken_state st th waiting = (set_woken st (ws1 ++ ws2), (wk_state w, wk_message w))) ∧
    sound_in kernel (hand_of w) (sender_of ts) (set_woken st (ws1 ++ ws2)) (delete th threads).
Proof.
  intros Hs Hth Hw. destruct (take_wakeup th (ps_woken st)) as [[w ws]|] eqn:Ht; [|by apply take_wakeup_None in Ht].
  pose proof Ht as Ht'. apply take_wakeup_Some in Ht' as (ws1 & ws2 & Hws & -> & Hwt). exists ws1, w, ws2.
  destruct (pa_woken _ _ _ (so_parking _ _ _ _ _ Hs) w) as (ts0 & Hts0 & Hok); [simpl; rewrite Hws; set_solver|].
  simpl in Hts0. rewrite Hwt, Hth in Hts0. injection Hts0 as <-. split_and!; try done.
  - intros waiting. unfold woken_state. by rewrite Ht.
  - rewrite <-Hwt in Hth |- *. by apply (take_sound kernel st threads ws1 ws2 w ts Hs Hws Hth).
Qed.

Lemma send_again_action th result x :
  sound_system kernel x → enabled_action kernel (Send_again th result) x →
  ∃ y ev, run_action kernel server scatter (Send_again th result) x = Ok (y, ev) ∧ good x y ev.
Proof.
  destruct x as [st threads]. intros Hs (m & opt & timeout & Hth & Hw & Hsp).
  destruct (woken_take st threads th _ Hs Hth Hw) as (ws1 & w & ws2 & Hws & Hwt & [Hst Hmsg] & Hstate & Hs1).
  destruct (ma_sending _ _ _ (so_mail _ _ _ _ _ Hs) _ _ _ _ Hth) as [Hm Hu].
  assert (hand_of w = None) as Hhand by (unfold hand_of; by rewrite Hmsg). rewrite Hhand in Hs1. simpl sender_of in Hs1.
  set (st1 := set_woken st (ws1 ++ ws2)) in *.
  destruct (send_ready st1 (delete th threads) m _ Hs1 Hm Hsp) as (port & mq & Hp & Hq & Hl & Hql & Hcalm & Ha & Hd & Hn).
  unfold run_action. rewrite Hth, Hstate, Hst. pose proof Hm as (Hv & Hb & _).
  rewrite (send_resume_spec st1 _ port _ mq Hp Hq Hl Hql eq_refl Hcalm Ha Hv Hn m opt timeout th result eq_refl). ostep.
  destruct (after_send threads _ _ _ _ _) as [y ev] eqn:Hy. eexists _, _. split; [done|].
  assert (unsent (delete th threads) m) as Hun.
  { intros th' m' opt' timeout' [Hne Hx]%lookup_delete_Some Heq. apply Hne. symmetry. by eapply (ma_apart _ _ _ (so_mail _ _ _ _ _ Hs)). }
  pose proof (send_good st1 (delete th threads) m _ th opt timeout Hs1 (lookup_delete_eq _ _) Hm Hu Hun) as Hgood.
  specialize (Hgood ltac:(intros x Hx; by apply one_other) port mq (S (ps_clock st1)) (delete th threads) Hp Hq).
  assert (∀ z, after_send (delete th threads) th m opt timeout z = after_send threads th m opt timeout z) as Hafter.
  { intros z. unfold after_send. destruct (z.2); [by rewrite delete_delete_eq|by rewrite insert_delete_eq]. }
  rewrite Hafter, Hy in Hgood. destruct Hgood as [Hsy Hord]. split; [done|]. intros p.
  pose proof (take_order st ws1 w ws2 threads (delete th threads) p Hws) as Htake. rewrite Hmsg in Htake.
  by apply (in_order_trans p _ _ _ [] ev Htake).
Qed.

(** The port whose state a receive from [q] uses: any, if there is no message. *)
Definition port_for (q : mqptr) (mq : ipc_mqueue) : Z :=
  match q with
  | MQ_port p => p
  | MQ_pset _ => match imq_messages mq with m :: _ => ikm_remote_port m | [] => 0 end
  end.

Lemma receive_ready st threads q mh sh :
  sound_in kernel mh sh st threads → receivable st q →
  ∃ mq, queue_at st (port_for q mq) q mq ∧ imq_locked mq = false ∧ mq_calm mq ∧
    ∀ m ms, imq_messages mq = m :: ms → ikm_remote_port m = port_for q mq ∧
      ∃ port, ps_ports st !! port_for q mq = Some port ∧ q = home (port_for q mq) port.
Proof.
  intros Hs Hr. pose proof (so_queues _ _ _ _ _ Hs) as Hw.
  assert (∃ mq, queue_of (ps_ports st) (ps_psets st) q = Some mq) as [mq Hmq].
  { destruct q as [p|s]; simpl in *; [destruct Hr as (port & -> & _)|destruct Hr as [pset ->]]; by eexists. }
  exists mq. split_and!; [by split; [|destruct q]|by eapply (qw_unlocked _ _ Hw)|by eapply (qw_calm _ _ Hw)|].
  intros m ms Hm. assert (m ∈ imq_messages mq) as Hin by (rewrite Hm; by left). destruct q as [p|s]; simpl in *.
  - destruct Hr as (port & Hp & Hn). rewrite Hp in Hmq. injection Hmq as <-. split; [by eapply own_message|].
    exists port. split; [done|]. unfold home. by rewrite Hn.
  - destruct (ps_psets st !! s) as [pset|] eqn:Hps; [|done]. injection Hmq as <-. rewrite Hm. split; [done|].
    destruct (qw_set _ _ Hw s pset m Hps Hin) as (port & Hp & Hs'). exists port. split; [done|]. unfold home. rewrite Hs'.
    destruct (qw_refs _ _ Hw s pset Hps) as [Hz _]. by rewrite (proj2 (Z.eqb_neq s IPS_NULL)).
Qed.

Lemma receive_action th q opt max_size timeout x :
  sound_system kernel x → enabled_action kernel (Receive th q opt max_size timeout) x →
  ∃ y ev, run_action kernel server scatter (Receive th q opt max_size timeout) x = Ok (y, ev) ∧ good x y ev.
Proof.
  destruct x as [st threads]. intros Hs (Hth & Hr & He).
  destruct (receive_ready st threads q None None Hs Hr) as (mq & Hq & Hl & Hc & Hport).
  set (p := port_for q mq) in *. unfold run_action. pose proof (so_queues _ _ _ _ _ Hs) as Hw. simpl in Hw.
  destruct (imq_messages mq) as [|m ms] eqn:Hm.
  - rewrite (wait_spec st p q mq Hq Hl opt timeout th Hm). ostep. unfold wait_state.
    destruct (has opt MACH_RCV_TIMEOUT && (timeout =? 0)); unfold after_receive; cbn [fst snd]; eexists _, _; (split; [done|]).
    + rewrite delete_id by done. pose proof (sound_clock kernel None None st threads p q mq (S (ps_clock st)) Hq Hs) as Hs'.
      split; [done|]. intros x. eapply park_order; eauto. apply Hs'.
    + pose proof (wait_sound kernel st threads p q mq (S (ps_clock st)) Hs Hq Hr th opt max_size timeout Hth Hm He) as Hs'.
      split; [done|]. intros x. eapply park_order; eauto. apply Hs'.
  - destruct (Hport m ms eq_refl) as (Hk & port & Hp & Hh).
    rewrite (got_spec st p q mq Hq Hl port m ms opt timeout th Hp Hm Hk). ostep. eexists _, _. split; [done|].
    destruct (got_sound kernel st threads p q mq (S (ps_clock st)) Hs Hq Hr th m ms port opt max_size Hth Hm Hk Hp Hh He)
      as (Hs' & Hpm & Ho). split; [done|]. intros x. by eapply got_order.
Qed.

(** The thread was woken, with a message or without. *)
Lemma receive_woken_action th result st threads q opt max_size timeout :
  sound_system kernel (SYS st threads) → threads !! th = Some (Receiving q opt max_size timeout) → is_woken st th →
  ∃ y ev, run_action kernel server scatter (Receive_again th result) (SYS st threads) = Ok (y, ev) ∧ good (SYS st threads) y ev.
Proof.
  intros Hs Hth Hwk. destruct (woken_take st threads th _ Hs Hth Hwk) as (ws1 & w & ws2 & Hws & Hwt & Hok & Hstate & Hs1).
  destruct (ma_receiving _ _ _ (so_mail _ _ _ _ _ Hs) _ _ _ _ _ Hth) as [Hr He]. simpl sender_of in Hs1.
  set (st1 := set_woken st (ws1 ++ ws2)) in *.
  destruct (receive_ready st1 _ q _ _ Hs1 Hr) as (mq & Hq & Hl & Hc & _). set (p := port_for q mq) in *.
  unfold run_action. rewrite Hth, Hstate. simpl in Hok.
  rewrite (receive_woken_spec st1 p q mq Hq Hl) by naive_solver. ostep. unfold after_receive. cbn [fst snd].
  set (st2 := at_queue st1 p (λ port, port) q mq [] (S (ps_clock st1))).
  pose proof (take_order st ws1 w ws2 threads (delete th threads)) as Htake.
  pose proof (sound_clock kernel _ _ st1 _ p q mq (S (ps_clock st1)) Hq Hs1) as Hs2. fold st2 in Hs2.
  assert (∀ x ta tb, in_order x (SYS st1 ta) (SYS st2 tb) []) as Hquiet.
  { intros x ta tb. eapply park_order; eauto; [apply Hs1|apply Hs2]. }
  destruct Hok as [[Hsuc [[m n] Hmsg]]|[Hst Hmsg]].
  - rewrite Hmsg, Hsuc, bool_decide_true by done. eexists _, _. split; [done|]. split.
    + unfold hand_of in Hs2. rewrite Hmsg in Hs2. rewrite <-insert_delete_eq. apply hand_sound; [done|apply lookup_delete_eq| |done].
      apply sendable_after; [done|].
      apply (ma_handed _ _ _ (so_mail _ _ _ _ _ Hs) w m n); [simpl; rewrite Hws; set_solver|done].
    + intros x. specialize (Htake x Hws). rewrite Hmsg in Htake. apply (in_order_trans x _ _ _ [Received m n] [] Htake), Hquiet.
  - rewrite Hmsg. eexists _, _. split; [done|]. split.
    + unfold hand_of in Hs2. by rewrite Hmsg in Hs2.
    + intros x. specialize (Htake x Hws). rewrite Hmsg in Htake. apply (in_order_trans x _ _ _ [] [] Htake), Hquiet.
Qed.

Lemma receive_again_action th result x :
  sound_system kernel x → enabled_action kernel (Receive_again th result) x →
  ∃ y ev, run_action kernel server scatter (Receive_again th result) x = Ok (y, ev) ∧ good x y ev.
Proof.
  destruct x as [st threads]. intros Hs (q & opt & max_size & timeout & Hth & Hen).
  destruct (take_wakeup th (ps_woken st)) eqn:Ht.
  { eapply receive_woken_action; [done..|]. unfold is_woken. destruct (decide (th ∈ wk_thread <$> ps_woken st)) as [|Hn]; [done|].
    apply take_wakeup_None in Hn. congruence. }
  pose proof Ht as Hnw. apply take_wakeup_None in Hnw. destruct Hen as [?|Hen]; [done|].
  destruct (ma_receiving _ _ _ (so_mail _ _ _ _ _ Hs) _ _ _ _ _ Hth) as [Hr He].
  destruct (receive_ready st threads q None None Hs Hr) as (mq & Hq & Hl & Hc & _). set (p := port_for q mq) in *.
  pose proof (so_queues _ _ _ _ _ Hs) as Hw. simpl in Hw.
  assert (th ∈ imq_threads mq) as Hin.
  { destruct (pa_placed _ _ _ (so_parking _ _ _ _ _ Hs) th _ (In_queue q) Hth eq_refl) as [Hin|Hin]; [|done].
    simpl sy_state in Hin. by rewrite (parked_queue_before _ _ _ _ Hq) in Hin. }
  pose proof (leave_sound kernel st threads p q mq (S (ps_clock st)) Hs Hq Hr th _ Hth eq_refl Hin) as Hs'.
  assert (good (SYS st threads) (SYS (at_queue st p (λ port, port) q (removed th mq) [] (S (ps_clock st))) (delete th threads)) []) as Hgood.
  { split; [done|]. intros x. eapply park_order; eauto. apply Hs'. }
  unfold run_action. rewrite Hth. unfold woken_state. rewrite Ht. unfold receive_waiting.
  destruct Hen as [-> |[-> Ho]].
  - rewrite (receive_interrupted_spec st p q mq Hq Hl) by (done || (destruct (has opt MACH_RCV_TIMEOUT); tauto)). ostep.
    eexists _, _. split; [done|]. exact Hgood.
  - rewrite Ho, (receive_timeout_spec st p q mq Hq Hl) by done. ostep. eexists _, _. split; [done|]. exact Hgood.
Qed.

Lemma finish_action th x :
  sound_system kernel x → enabled_action kernel (Finish th) x →
  ∃ y ev, run_action kernel server scatter (Finish th) x = Ok (y, ev) ∧ good x y ev.
Proof.
  destruct x as [st threads]. intros Hs (m & opt & max_size & Hth).
  destruct (ma_finishing _ _ _ (so_mail _ _ _ _ _ Hs) _ _ _ _ Hth) as [(Hv & Hb & port & Hp & Ha & Hd) He]. simpl sy_state in Hp.
  pose proof (so_queues _ _ _ _ _ Hs) as Hw. simpl in Hw. destruct (home_queue st _ port Hw Hp) as (mq & Hq & Hl & Hc).
  pose proof (finish_count kernel st threads th m opt max_size port Hs Hth Hp Ha) as Hn.
  pose proof (so_unlocked _ _ _ _ _ Hs _ _ Hp) as Hul. simpl in Hul. unfold run_action. rewrite Hth.
  destruct (finish_receive_spec st _ port _ mq Hp Hq Hul Ha Hn m opt max_size scatter eq_refl Hb He) as (mr & _ & ->). ostep.
  eexists _, _. split; [done|]. split.
  - by eapply finish_sound.
  - intros x. apply quiet_order.
    + intros portx Hx. split; [by eapply finish_messages|].
      destruct (at_queue_seqno st (ikm_remote_port m) finish_port (home (ikm_remote_port m) port) mq (finish_woken port) (S (ps_clock st)) x portx Hx)
        as (port' & Hp' & Hseq). exists port'. split; [done|]. rewrite Hseq. case_decide; [|done].
      unfold finish_port. by destruct (next_sender portx).
    + simpl ps_woken. by rewrite handed_app, (finish_handed port).
Qed.

Lemma action_good a x :
  sound_system kernel x → enabled_action kernel a x →
  ∃ y ev, run_action kernel server scatter a x = Ok (y, ev) ∧ good x y ev.
Proof.
  destruct a; [apply send_action|apply send_again_action|apply receive_action|apply receive_again_action|apply finish_action].
Qed.

Lemma runs_good x evs y : sound_system kernel x → runs kernel server scatter x evs y → good x y evs.
Proof.
  intros Hx Hr. induction Hr as [x|a x ev y evs z He Hrun Hr IH]; [split; [done|intros; apply in_order_refl]|].
  destruct (action_good a x Hx He) as (y' & ev' & Hrun' & Hy & Ho). rewrite Hrun in Hrun'. injection Hrun' as <- <-.
  destruct (IH Hy) as [Hz Ho']. split; [done|]. intros p. by eapply in_order_trans.
Qed.

(** ** The theorems *)

(** C10. However threads send to the live ports of tasks and receive from
    ports and port sets, blocking and being woken, where receivers may also
    be interrupted and time out but blocked senders wait until they are
    woken (a sender that gives up loses a wakeup, see
    interrupted_sender_kept), the queues, the waiting threads, the messages
    under way and the message counts of the ports agree; every such step
    runs without a failed assertion, a panic or a broken lock, when a
    receive asks for one of the three trailers there are and the counts
    have room for the message; and no wakeup is lost: a port with blocked
    senders is full, or as many senders are on their way as it has room for
    messages. *)
Theorem messages_invariant x evs y :
  sound_system kernel x → runs kernel server scatter x evs y →
  sound_system kernel y ∧
  (∀ a, enabled_action kernel a y → ∃ z ev, run_action kernel server scatter a y = Ok (z, ev) ∧ sound_system kernel z) ∧
  (∀ p port, ps_ports (sy_state y) !! p = Some port → ip_blocked port ≠ [] →
     ip_qlimit port ≤ ip_msgcount port + Z.of_nat (woken_senders p (sy_threads y) (ps_woken (sy_state y)))).
Proof.
  intros Hx Hr. destruct (runs_good x evs y Hx Hr) as [Hy _]. split_and!; [done| |].
  - intros a Ha. destruct (action_good a y Hy Ha) as (z & ev & ? & ? & _). eauto.
  - intros p port Hp Hb. pose proof (co_progress _ _ _ _ (so_counts _ _ _ _ _ Hy) p port Hp Hb) as Hpr. rewrite one_none in Hpr. lia.
Qed.

(** C11. In any run of the threads that send and receive, the messages that
    a port accepts are received in the order in which they were accepted,
    each once, none lost, with consecutive sequence numbers modulo 2^32; a
    port is a first-in first-out queue, whether messages are taken from the
    queue or handed to a waiting receiver. *)
Theorem messages_in_order x evs y p port :
  sound_system kernel x → runs kernel server scatter x evs y → ps_ports (sy_state x) !! p = Some port → is_u32 (ip_seqno port) →
  ∃ taken,
    port_messages (sy_state x) p ++ accepted p evs = taken ++ port_messages (sy_state y) p ∧
    received p evs ++ handed_to p (ps_woken (sy_state y)) ≡ₚ
      handed_to p (ps_woken (sy_state x)) ++ number_from (ip_seqno port) taken.
Proof.
  intros Hx Hr Hp Hu. destruct (runs_good x evs y Hx Hr) as [_ Ho].
  destruct (Ho p port Hp Hu) as (taken & port' & H1 & H2 & _). by exists taken.
Qed.
End actions.
