(* ===== verification/IpcObjectInv.v ===== *)
(** * What the operations on objects do to a space

    The operations of [IpcObject] in a system where no other thread runs,
    each one as a step from one map of rights to another: the entries, the
    rights and the ports work together here. *)

From stdpp Require Import prelude list gmap.
From S2P Require Import Prelude MachPort IpcSplay IpcTypes IpcHash IpcTable IpcEntry IpcInv IpcGrow IpcAlloc IpcAllocName IpcUpdate.
From S2P Require Import IpcPort IpcDnreq IpcPortRights IpcPset IpcDestroy IpcRight IpcRightEq IpcRightInv IpcRightDealloc.
From S2P Require Import IpcRightCopy IpcObject.

(** No other thread uses the space. *)
Class undisturbed `{IW : iworld} : Prop := undisturbed_id c sp : w_other c sp = sp.

#[export] Instance undisturbed_rely `{IW : iworld, !undisturbed} : others_rely.
Proof. intros c sp _. rewrite undisturbed_id. reflexivity. Qed.

Section object_inv.
Context `{IW : iworld, !undisturbed}.
Context `{PW : pworld, !quiet}.

Lemma evolves_undisturbed sp sp' :
  evolves sp sp' → same_view sp sp' ∧ is_active (st_space sp') = is_active (st_space sp).
Proof.
  intros [_ Hi]. induction Hi as [sp|sp1 sp2 sp3 Hs _ [IHv IHa]]; [done|].
  assert (same_view sp1 sp2 ∧ is_active (st_space sp2) = is_active (st_space sp1)) as [Hv Ha].
  { destruct Hs as [(Hv & _ & Ha)|(_ & c & ->)]; [done|]. by rewrite undisturbed_id. }
  split; [by eapply same_view_trans|congruence].
Qed.

(** A space that evolved has the same rights. *)
Lemma evolves_rights sp sp' (caps : rights_t) :
  evolves sp sp' → space_wf ∅ sp → is_active (st_space sp) = true → is_growing (st_space sp) = false →
  (∀ n, is_u32 n → n ∉ (∅ : gset Z) → cap_right <$> space_view sp n = caps !! n) →
  space_wf ∅ sp' ∧ is_active (st_space sp') = true ∧ is_growing (st_space sp') = false ∧
  ∀ n, is_u32 n → cap_right <$> space_view sp' n = caps !! n.
Proof.
  intros E Hw Ha Hg Hv. destruct (evolves_undisturbed _ _ E) as [Hsv Hac]. rewrite Ha in Hac.
  split_and!; [by apply (ry_wf _ _ (proj1 E))|done|by rewrite (ry_growing _ _ (proj1 E))|].
  intros n Hn. rewrite (Hsv n Hn). apply Hv; [done|set_solver].
Qed.

Lemma released_evolves sp sp' caps :
  released sp caps → evolves sp sp' →
  if is_locked (st_space sp') then spaced ∅ sp' caps else released sp' caps.
Proof.
  intros [Hw Ha Hl Hg Hv Hdom] E. destruct (evolves_rights _ _ caps E) as (Hw' & Ha' & Hg' & Hv'); [auto..|].
  destruct (is_locked (st_space sp')) eqn:Hl'; split; try done; [by intros; apply Hv'|].
  intros n Hc. split; [by apply Hdom|set_solver].
Qed.

Lemma spaced_evolves sp sp' caps :
  spaced ∅ sp caps → evolves sp sp' →
  if is_locked (st_space sp') then spaced ∅ sp' caps else released sp' caps.
Proof.
  intros [Hw Ha Hl Hg Hv Hdom] E. destruct (evolves_rights _ _ caps E) as (Hw' & Ha' & Hg' & Hv'); [auto..|].
  destruct (is_locked (st_space sp')) eqn:Hl'; split; try done; [by intros; apply Hv'|].
  intros n Hc. by apply Hdom.
Qed.

Lemma lock_spaced sp caps :
  released sp caps → ∃ sp', is_write_lock sp = Ok sp' ∧ spaced ∅ sp' caps ∧ is_fast (st_space sp') = is_fast (st_space sp) ∧
    tsize (st_table sp') = tsize (st_table sp).
Proof.
  intros Hr. destruct (lock_spec sp (rl_locked _ _ Hr)) as (sp' & Hrun & Hl & E). exists sp'. split; [done|].
  pose proof (released_evolves _ _ _ Hr E) as Hs. rewrite Hl in Hs. split; [done|].
  unfold is_write_lock in Hrun. rewrite (rl_locked _ _ Hr), undisturbed_id in Hrun. by injection Hrun as <-.
Qed.

(** ** Looking up a name *)

(** A fast space has no tree, and trusts its names to be in the table. *)
Definition findable (sp : istate) (name : Z) : Prop :=
  is_u32 name ∧ (is_fast (st_space sp) = true → MACH_PORT_INDEX name < tsize (st_table sp)).

(** The name in a locked space. *)
Record at_name (sp : istate) (caps : rights_t) (name : Z) (ep : eptr) (e : ipc_entry) : Prop := {
  an_spaced : spaced ∅ sp caps;
  an_denotes : denotes ∅ sp name ep;
  an_get : eget sp ep = Some e;
}.

Lemma at_name_right sp caps name ep e : at_name sp caps name ep e → caps !! name = Some (entry_right e).
Proof. intros [Hs Hd He]. apply (spaced_entry _ _ _ _ _ _ Hs Hd (not_elem_of_empty name) He). Qed.

Lemma spaced_resplayed sp sp' caps : spaced ∅ sp caps → resplayed sp sp' → spaced ∅ sp' caps.
Proof.
  intros [Hw Ha Hl Hg Hv Hdom] Hr. pose proof (resplayed_wf _ _ _ Hw Hr) as Hw'.
  pose proof Hr as (t & -> & _). split; [done..| |done].
  intros n Hn Hni. rewrite (resplayed_view _ _ _ _ Hw Hr). by apply Hv.
Qed.

Lemma lookup_spaced sp caps name :
  spaced ∅ sp caps → findable sp name →
  ∃ sp' r, ipc_entry_lookup sp name = Ok (sp', r) ∧ spaced ∅ sp' caps ∧
    is_table_next (st_space sp') = is_table_next (st_space sp) ∧
    match r with
    | Some ep => ∃ e, at_name sp' caps name ep e
    | None => caps !! name = None
    end.
Proof.
  intros Hs [Hu Hf].
  destruct (entry_lookup_spec ∅ sp name) as (sp' & r & Hrun & Hr & Hfound); [apply Hs..|done|set_solver|done|].
  pose proof (spaced_resplayed _ _ _ Hs Hr) as Hs'. exists sp', r. split_and!; [done..|by destruct Hr as (? & -> & _)|].
  destruct r as [ep|]; simpl in Hfound.
  - apply (resplayed_denotes _ _ _ _ _ Hr) in Hfound. destruct (denotes_eget _ _ _ _ (sd_wf _ _ _ Hs') Hfound) as [e He].
    exists e. by split.
  - rewrite <-(sd_view _ _ _ Hs name Hu (not_elem_of_empty name)).
    by rewrite (view_None _ _ _ (sd_wf _ _ _ Hs) Hu Hfound).
Qed.

Lemma lookup_write_spec sp caps name :
  released sp caps → findable sp name →
  ∃ sp', match caps !! name with
    | Some r => ∃ ep e, ipc_right_lookup_write sp name = Ok (sp', (KERN_SUCCESS, Some ep)) ∧
        at_name sp' caps name ep e ∧ entry_right e = r
    | None => ipc_right_lookup_write sp name = Ok (sp', (KERN_INVALID_NAME, None)) ∧ released sp' caps
    end.
Proof.
  intros Hr [Hu Hf]. destruct (lock_spaced sp caps Hr) as (sp1 & Hrun & Hs & Hfast & Hsz). unfold ipc_right_lookup_write.
  rewrite Hrun. ostep. rewrite (sd_active _ _ _ Hs). ostep.
  destruct (lookup_spaced sp1 caps name Hs) as (sp2 & r & -> & Hs2 & _ & Hx); [split; [done|by rewrite Hfast, Hsz]|].
  ostep. destruct r as [ep|].
  - destruct Hx as (e & Hat). exists sp2. rewrite (at_name_right _ _ _ _ _ Hat). by exists ep, e.
  - destruct (spaced_unlock _ _ Hs2) as (sp3 & -> & Hr3). exists sp3. by rewrite Hx.
Qed.

(** ** ipc_object_copyin *)

(** The notification that a name with a request is gone. *)
Definition gone_note (soright name : Z) : list notification :=
  if soright =? IP_NULL then [] else [ipc_notify_port_deleted soright name].

Lemma notify_gone st soright name : notify_port_deleted st soright name = out st (gone_note soright name) [] 0.
Proof. unfold notify_port_deleted, gone_note. by destruct (soright =? IP_NULL), st. Qed.

(** What is left of the entry is freed, and the space unlocked. *)
Lemma left_release sp caps name ep o :
  left_with ∅ sp caps name ep o →
  ∃ e sp1 sp2, eread sp ep = Ok e ∧
    (if IE_BITS_TYPE (ie_bits e) =? MACH_PORT_TYPE_NONE then ipc_entry_dealloc sp name ep else Ok sp) = Ok sp1 ∧
    is_write_unlock sp1 = Ok sp2 ∧ released sp2 (set_right caps name o).
Proof.
  intros Hl. destruct o as [r|].
  - destruct Hl as [Hs Hd]. destruct (denotes_eget _ _ _ _ (sd_wf _ _ _ Hs) Hd) as [e He].
    destruct (spaced_entry _ _ _ _ _ _ Hs Hd (not_elem_of_empty name) He) as [_ Hne].
    destruct (spaced_unlock _ _ Hs) as (sp2 & Hrun & Hr). exists e, sp, sp2.
    unfold eread. rewrite He. split; [done|]. rewrite (proj2 (Z.eqb_neq _ MACH_PORT_TYPE_NONE) Hne). done.
  - destruct Hl as (e & Hh & Ht & Ho & Hq). rewrite union_empty_r_L in Hh. destruct (hand_drop _ _ _ _ _ _ Hh Ho Hq) as (sp1 & Hrun & Hs).
    destruct (spaced_unlock _ _ Hs) as (sp2 & Hrun2 & Hr). exists e, sp1, sp2.
    rewrite (hand_eread _ _ _ _ _ _ _ Hh), Ht. done.
Qed.

Lemma object_copyin_spec sp st caps tr name msgt :
  settled sp st caps tr → findable sp name →
  msgt ∈ [MACH_MSG_TYPE_MAKE_SEND; MACH_MSG_TYPE_MAKE_SEND_ONCE; MACH_MSG_TYPE_COPY_SEND;
    MACH_MSG_TYPE_MOVE_SEND; MACH_MSG_TYPE_MOVE_SEND_ONCE] →
  (∀ r port, caps !! name = Some r → ps_ports st !! r_object r = Some port → has_room port) →
  ∃ sp' st' res, ipc_object_copyin sp st name msgt = Ok (sp', st', res) ∧
    match caps !! name with
    | None => res = (KERN_INVALID_NAME, None) ∧ st' = st ∧ released sp' caps
    | Some r0 =>
      let r := seen msgt st r0 in
      if legal msgt true r then
        res = (KERN_SUCCESS, Some (copied_object r)) ∧
        settled sp' st' (set_right caps name (remains msgt r)) (copied msgt r ++ tr) ∧
        touched (r_object r0) st st' (gone_note (copied_soright msgt st r) name)
      else
        res = (KERN_INVALID_RIGHT, None) ∧ settled sp' st' (set_right caps name (Some r)) tr ∧
        touched (r_object r0) st st' []
    end.
Proof.
  intros [Hrel Hok Hul] Hf Hm Hroom. destruct (lookup_write_spec sp caps name Hrel Hf) as (sp1 & Hx).
  unfold ipc_object_copyin. destruct (caps !! name) as [r0|] eqn:Hn.
  2: { destruct Hx as [-> Hr]. ostep. by eexists _, _, _. }
  destruct Hx as (ep & e & -> & Hat & <-). ostep. destruct Hat as [Hs Hd He].
  destruct (right_copyin_spec ∅ sp1 st caps tr name ep e msgt true) as (sp2 & st2 & -> & Hto & Hu2 & Hpost);
    [by split|done|done|intros port; by apply (Hroom _ _ eq_refl)|done|]. ostep.
  simpl r_object. set (r := seen msgt st (entry_right e)) in *. destruct (legal msgt true r).
  - destruct Hpost as [Hl Hok2]. 
    destruct (left_release _ _ _ _ _ Hl) as (e2 & sp3 & sp4 & -> & Hd3 & Hun & Hr).
    ostep. rewrite Hd3. ostep. rewrite Hun. ostep. rewrite notify_gone.
    eexists _, _, _. split; [done|]. split; [done|]. split; [|by apply (out_touched _ _ _ [])].
    split; [done|by eapply rights_ext; [apply Hok2|..]|done].
  - destruct Hpost as [[Hs2 Hok2 _] Hd2].
    destruct (left_release sp2 caps name ep (Some r)) as (e2 & sp3 & sp4 & -> & Hd3 & Hun & Hr); [done|].
    ostep. rewrite Hd3. ostep. rewrite Hun. ostep. by eexists _, _, _.
Qed.

(** C6. ipc_object_copyin with one of the five types that take send and
    send-once rights (make, copy and move a send right, make and move a
    send-once right; not MOVE_RECEIVE), with no other thread running and
    room in the counts of the port, takes a right out of the space by name:
    an unknown name gives KERN_INVALID_NAME, a right that does not allow
    the copy KERN_INVALID_RIGHT, and otherwise the right named by the
    abstract map goes into transit, the name keeps what is left of it or is
    freed, a dead-name request that went with it is answered with a
    port-deleted notification, and the space is unlocked with the account
    of rights in balance. *)
Theorem object_copyin_correct sp st caps tr name msgt :
  settled sp st caps tr → findable sp name →
  msgt ∈ [MACH_MSG_TYPE_MAKE_SEND; MACH_MSG_TYPE_MAKE_SEND_ONCE; MACH_MSG_TYPE_COPY_SEND;
    MACH_MSG_TYPE_MOVE_SEND; MACH_MSG_TYPE_MOVE_SEND_ONCE] →
  (∀ r port, caps !! name = Some r → ps_ports st !! r_object r = Some port → has_room port) →
  ∃ sp' st' res, ipc_object_copyin sp st name msgt = Ok (sp', st', res) ∧
    match caps !! name with
    | None => res = (KERN_INVALID_NAME, None) ∧ st' = st ∧ released sp' caps
    | Some r0 =>
      let r := seen msgt st r0 in
      if legal msgt true r then
        res = (KERN_SUCCESS, Some (copied_object r)) ∧
        settled sp' st' (set_right caps name (remains msgt r)) (copied msgt r ++ tr) ∧
        touched (r_object r0) st st' (gone_note (copied_soright msgt st r) name)
      else
        res = (KERN_INVALID_RIGHT, None) ∧ settled sp' st' (set_right caps name (Some r)) tr ∧
        touched (r_object r0) st st' []
    end.
Proof. apply object_copyin_spec. Qed.

(** ** ipc_right_reverse *)

(** The receive rights of the space have names. *)
Definition receivers (caps : rights_t) (st : pstate) : Prop :=
  ∀ p port, ps_ports st !! p = Some port → ip_active port = true → ip_receiver port = space_addr →
    ip_receiver_name port ≠ MACH_PORT_NULL ∧
    ∃ r, caps !! ip_receiver_name port = Some r ∧ r_object r = p ∧ has (r_type r) MACH_PORT_TYPE_RECEIVE = true.

(** A name in use can be looked up. *)
Lemma held_findable sp caps name : spaced ∅ sp caps → is_Some (caps !! name) → findable sp name.
Proof.
  intros Hs Hn. destruct (sd_dom _ _ _ Hs _ Hn) as [Hu _]. split; [done|]. intros Hf.
  rewrite <-(sd_view _ _ _ Hs) in Hn by (done || set_solver). destruct Hn as [r (c & Hc & _)%fmap_Some].
  destruct (view_entry _ _ _ (sd_wf _ _ _ Hs) Hu Hc) as ([i|p] & e & Hd & _).
  - pose proof (denotes_index _ _ _ _ (sd_wf _ _ _ Hs) Hd) as <-. apply Hd.
  - simpl in Hd. rewrite (sw_fast _ _ (sd_wf _ _ _ Hs) Hf) in Hd. by apply elem_of_nil in Hd.
Qed.

Section reverse.
Context (sp : istate) (st : pstate) (caps : rights_t) (tr : transit_t) (p : Z) (port : ipc_port).
Hypothesis Hs : spaced ∅ sp caps.
Hypothesis Hok : rights_ok caps tr st.
Hypothesis Hrecv : receivers caps st.
Hypothesis Hp : ps_ports st !! p = Some port.
Hypothesis Hl : ip_locked port = false.
Hypothesis Hz : p ≠ IO_NULL.

Lemma reverse_spec :
  ∃ sp' o, spaced ∅ sp' caps ∧ is_table_next (st_space sp') = is_table_next (st_space sp) ∧
    match o with
    | Some (name, ep) => ∃ e,
        ipc_right_reverse sp st p = Ok (sp', put (ptick st) p (set_ip_locked port true), Some (name, ep)) ∧
        at_name sp' caps name ep e ∧ r_object (entry_right e) = p ∧ ip_active port = true ∧
        takes caps MACH_PORT_TYPE_SEND p port (Some (entry_right e))
    | None => ipc_right_reverse sp st p = Ok (sp', put (ptick st) p port, None) ∧
        (ip_active port = true → takes caps MACH_PORT_TYPE_SEND p port None)
    end.
Proof.
  unfold ipc_right_reverse. rewrite (sd_active _ _ _ Hs), (ip_lock_quiet st p port) by done. ostep. rewrite put_pget. ostep.
  change (ip_active (set_ip_locked port true)) with (ip_active port).
  change (ip_data (set_ip_locked port true)) with (ip_data port).
  change (ip_receiver_name (set_ip_locked port true)) with (ip_receiver_name port).
  assert (ip_unlock (put (ptick st) p (set_ip_locked port true)) p = Ok (put (ptick st) p port)) as Hun
    by (by rewrite (ip_unlock_spec _ _ _ (put_get _ _ _)), put_put, unlocked_idem).
  destruct (ip_active port) eqn:Ha; simpl negb; cbv iota.
  2: { rewrite Hun. ostep. by exists sp, None. }
  destruct (Z.eqb_spec (ip_data port) space_addr) as [Hsp|Hsp].
  - destruct (Hrecv p port Hp Ha Hsp) as (Hn & r & Hr & Ho & Hty).
    rewrite (proj2 (Z.eqb_neq _ MACH_PORT_NULL) Hn). ostep.
    destruct (lookup_spaced sp caps (ip_receiver_name port) Hs) as (sp1 & [ep|] & -> & Hs1 & Hnx & Hx);
      [by eapply held_findable| |by rewrite Hx in Hr].
    ostep. destruct Hx as (e & Hat). pose proof (at_name_right _ _ _ _ _ Hat) as Hr'.
    assert (entry_right e = r) as Her by congruence. unfold eread. rewrite (an_get _ _ _ _ _ Hat). ostep.
    exists sp1, (Some (ip_receiver_name port, ep)). split; [done|]. split; [done|]. exists e.
    assert (has (ie_bits e) MACH_PORT_TYPE_RECEIVE = true ∧ ie_object e = p) as [-> ->]
      by (rewrite has_type by done; rewrite <-Her in Hty, Ho; done).
    rewrite Z.eqb_refl. ostep. rewrite Her. split_and!; [done..|].
    assert (right_ok (ip_receiver_name port) r st) as [(_ & Hu & _)|[(Hx & _)|(Hx & _)]] by (by apply Hok);
      [|by rewrite Hx in Hty..].
    split; [done|]. destruct Hu as [[[-> | ->] _]|[[? _]|[Hx _]]]; [by right..|by left|by rewrite Hx in Hty].
  - destruct (hash_lookup_spec ∅ sp p (sd_wf _ _ _ Hs) Hz) as (bs & r & -> & Hw' & Hperm & Hr). ostep.
    assert (spaced ∅ (with_buckets sp bs) caps) as Hs' by (destruct Hs; by split).
    exists (with_buckets sp bs), r. split; [done|]. split; [done|]. destruct r as [[name ep]|].
    + destruct Hr as (Hd & Hrev & Ho). destruct (denotes_eget _ _ _ _ (sd_wf _ _ _ Hs) Hd) as [e He].
      rewrite (entry_object_get _ _ _ He) in Ho.
      apply (reversed_type _ _ _ _ _ (sd_wf _ _ _ Hs) Hd He (not_elem_of_empty name)) in Hrev.
      assert (eget (with_buckets sp bs) ep = Some e) as He' by (by destruct ep).
      exists e. unfold eread. rewrite He'. ostep. rewrite Hrev, Ho, !Z.eqb_refl. ostep.
      split_and!; [done|split; [done|by destruct ep|done]|done|done|].
      split; [done|right]. unfold entry_right. simpl r_type. by rewrite Hrev.
    + rewrite Hun. ostep. split; [done|]. intros _ _. split; [done|]. intros n r Hn Ho Ht.
      destruct (sd_dom _ _ _ Hs n) as [Hu Hni]; [by rewrite Hn|]. rewrite <-(sd_view _ _ _ Hs n Hu Hni) in Hn.
      apply fmap_Some in Hn as (c & Hc & ->).
      destruct (view_entry _ _ _ (sd_wf _ _ _ Hs) Hu Hc) as (ep & e & Hd & He & <- & _).
      rewrite cap_right_of in Ho, Ht. apply (Hr n ep Hd); [|by rewrite (entry_object_get _ _ _ He)].
      by apply (reversed_type _ _ _ _ _ (sd_wf _ _ _ Hs) Hd He (not_elem_of_empty n)).
Qed.
End reverse.

(** ** A blank entry *)

Lemma blank_right gen e : is_gen gen → blank gen e →
  entry_right e = Right MACH_PORT_TYPE_NONE 0 IO_NULL 0.
Proof.
  intros Hg (Hb & Ho & Hr). unfold entry_right. rewrite Hb, Ho, Hr. f_equal.
  - rewrite <-(proj1 (is_gen_fix _) Hg). apply TYPE_GEN.
  - rewrite <-(proj1 (is_gen_fix _) Hg). unfold IE_BITS_UREFS, IE_BITS_GEN. by rewrite <-Z.land_assoc, Z.land_0_r.
Qed.

(** A name that the space gave out is in hand. *)
Lemma got_hand sp sp' (caps : rights_t) name ep :
  (∀ n, is_u32 n → cap_right <$> space_view sp n = caps !! n) → (∀ n, is_Some (caps !! n) → is_u32 n) →
  got sp sp' name ep → same_view sp sp' → ready sp' →
  caps !! name = None ∧
  ∃ e, hand {[name]} sp' caps name ep e false ∧ entry_right e = Right MACH_PORT_TYPE_NONE 0 IO_NULL 0.
Proof.
  intros Hv Hdom (Hw & Hd & Hnone & _ & e & He & Hb) Hsv Hfl. injection Hfl as Ha Hl Hg. split.
  - rewrite <-Hv; [by rewrite Hnone|by eapply denotes_u32].
  - pose proof (blank_right _ _ (is_gen_MACH_PORT_GEN name) Hb) as Her. exists e. split; [|done].
    apply (hand_fresh sp); try done. apply Hb.
Qed.

(** The table has its last size, and every entry of it is in use. *)
Definition exhausted (caps : rights_t) : Prop :=
  ∃ sp1, space_wf ∅ sp1 ∧ (∀ n, is_u32 n → cap_right <$> space_view sp1 n = caps !! n) ∧
    is_table_next (st_space sp1) = 511%nat ∧ ∀ i, 0 < i < tsize (st_table sp1) → type_at (st_table sp1) i ≠ 0.

(** The object of a blank entry in hand. *)
Lemma copyout_blank_spec sp st caps name ep e p port :
  hand {[name]} sp caps name ep e false → entry_right e = Right MACH_PORT_TYPE_NONE 0 IO_NULL 0 →
  ps_ports st !! p = Some port → ip_locked port = false →
  ∃ sp', if ip_active port then
      copyout_blank sp st name ep p = Ok (sp', put (ptick st) p (set_ip_locked port true), true) ∧
      ∃ e', target sp' caps name ep e' p None
    else copyout_blank sp st name ep p = Ok (sp', put (ptick st) p port, false) ∧ released sp' caps.
Proof.
  intros Hh Her Hp Hl. injection Her as Ht Hu Ho Hr. unfold copyout_blank.
  rewrite (hand_eread _ _ _ _ _ _ _ Hh). ostep. rewrite Ht, Ho, (ip_lock_quiet st p port) by done. simpl Z.eqb. ostep.
  rewrite put_pget. ostep. simpl ip_active. destruct (ip_active port); simpl negb; cbv iota.
  - eexists. split; [done|]. eexists. split.
    + apply (hand_set _ _ _ _ _ _ _ _ (ie_bits e) p (ie_request e) Hh); [done|apply same_high_refl|done].
    + unfold entry_right. simpl. by rewrite Ht, Hu, Hr.
  - destruct (hand_drop _ _ _ _ _ _ Hh Ho Hr) as (sp1 & Hrun & Hs1).
    rewrite (ip_unlock_spec _ _ _ (put_get _ _ _)), put_put, unlocked_idem by done. ostep. rewrite Hrun. ostep.
    destruct (spaced_unlock _ _ Hs1) as (sp2 & -> & Hr2). by eexists.
Qed.

(** ** The loop of ipc_object_copyout *)

(** Only the clock of the ports has gone on. *)
Record waited (p : Z) (st st' : pstate) : Prop := {
  wt_ports : ps_ports st' = ps_ports st;
  wt_touched : touched p st st' [];
}.

Lemma waited_refl p st : waited p st st.
Proof. by split; [|apply touched_refl]. Qed.
Lemma waited_trans p st1 st2 st3 : waited p st1 st2 → waited p st2 st3 → waited p st1 st3.
Proof.
  intros [Hp1 H1] [Hp2 H2]. split; [congruence|]. apply (touched_trans _ _ _ _ _ _ H1 H2).
Qed.
Lemma waited_put p st port : ps_ports st !! p = Some port → waited p st (put (ptick st) p port).
Proof. intros Hp. split; [simpl; by apply insert_id|touch]. Qed.

Lemma waited_rights caps tr p st st' : rights_ok caps tr st → waited p st st' → rights_ok caps tr st'.
Proof. intros Hok [Hp Ht]. eapply rights_ext; [exact Hok|done|apply Ht]. Qed.

Definition loop_post (caps : rights_t) (t p : Z) (port : ipc_port) (st : pstate)
    (r : outcome (istate * pstate * (kern_return * option (Z * eptr)))) : Prop :=
  match r with
  | Ok (sp', st', (KERN_SUCCESS, Some (name, ep))) => ip_active port = true ∧
      (∃ st1, waited p st st1 ∧ st' = put (ptick st1) p (set_ip_locked port true)) ∧
      ∃ e, target sp' caps name ep e p (caps !! name) ∧ takes caps t p port (caps !! name)
  | Ok (sp', st', (KERN_INVALID_CAPABILITY, None)) => ip_active port = false ∧ waited p st st' ∧ released sp' caps
  | Ok (sp', st', (KERN_RESOURCE_SHORTAGE, None)) => (ip_active port = true → takes caps t p port None) ∧
      waited p st st' ∧ released sp' caps
  | Ok _ => False
  | Fault f => f = FDeref ∧ (ip_active port = true → takes caps t p port None) ∧ exhausted caps
  end.

Lemma loop_post_mono caps t p port st st1 r :
  waited p st st1 → loop_post caps t p port st1 r → loop_post caps t p port st r.
Proof.
  intros Hw. destruct r as [[[sp' st'] [kr o]]|f]; [|done].
  destruct kr, o as [[]|]; simpl; try done.
  - intros (? & (st2 & ? & ?) & ?). split_and!; [done| |done]. exists st2. split; [by eapply waited_trans|done].
  - intros (? & ? & ?). split; [done|]. split; [by eapply waited_trans|done].
  - intros (? & ? & ?). split; [done|]. split; [by eapply waited_trans|done].
Qed.

Section loop.
Context (caps : rights_t) (t p : Z) (port : ipc_port).
Hypothesis Ht : t = MACH_PORT_TYPE_SEND ∨ t = MACH_PORT_TYPE_SEND_ONCE.
Hypothesis Hl : ip_locked port = false.
Hypothesis Hz : p ≠ IO_NULL.

Definition msgt_of : Z := if t =? MACH_PORT_TYPE_SEND then MACH_MSG_TYPE_PORT_SEND else MACH_MSG_TYPE_PORT_SEND_ONCE.

(** The search for a name, or none. *)
Lemma copyout_reverse_spec sp st tr :
  spaced ∅ sp caps → rights_ok caps tr st → receivers caps st → ps_ports st !! p = Some port →
  ∃ sp' o, spaced ∅ sp' caps ∧ is_table_next (st_space sp') = is_table_next (st_space sp) ∧
    match o with
    | Some (name, ep) => ∃ e,
        copyout_reverse sp st p msgt_of = Ok (sp', put (ptick st) p (set_ip_locked port true), Some (name, ep)) ∧
        at_name sp' caps name ep e ∧ r_object (entry_right e) = p ∧ ip_active port = true ∧
        takes caps t p port (Some (entry_right e))
    | None => ∃ st', copyout_reverse sp st p msgt_of = Ok (sp', st', None) ∧ waited p st st' ∧
        (ip_active port = true → takes caps t p port None)
    end.
Proof.
  intros Hs Hok Hrecv Hp. unfold copyout_reverse, msgt_of. destruct Ht as [-> | ->]; simpl Z.eqb; cbv iota.
  - destruct (reverse_spec sp st caps tr p port) as (sp' & o & Hs' & Hnx & Ho); [done..|].
    exists sp', o. split; [done|]. split; [done|]. destruct o as [[name ep]|]; [done|].
    destruct Ho as [Hrun Htk]. simpl negb. cbv iota. eexists. split; [done|]. split; [by apply waited_put|done].
  - exists sp, None. split; [done|]. split; [done|]. exists st. split; [done|]. split; [apply waited_refl|done].
Qed.

Lemma copyout_loop_spec fuel sp st tr :
  spaced ∅ sp caps → rights_ok caps tr st → receivers caps st → ps_ports st !! p = Some port →
  (513 ≤ fuel + is_table_next (st_space sp))%nat →
  loop_post caps t p port st (copyout_loop fuel sp st p msgt_of).
Proof.
  revert sp st. induction fuel as [|fuel IH]; intros sp st Hs Hok Hrecv Hp Hf.
  { pose proof (space_next_bound _ _ (sd_wf _ _ _ Hs)). lia. }
  cbn [copyout_loop]. rewrite (sd_active _ _ _ Hs). ostep.
  destruct (copyout_reverse_spec sp st tr Hs Hok Hrecv Hp) as (sp1 & o & Hs1 & Hnx & Ho).
  destruct o as [[name ep]|].
  { destruct Ho as (e & -> & Hat & Hob & Ha & Htk). ostep. unfold eread. rewrite (an_get _ _ _ _ _ Hat). ostep.
    rewrite (has_type (ie_bits e)) by done. change (IE_BITS_TYPE (ie_bits e)) with (r_type (entry_right e)).
    assert (has (r_type (entry_right e)) MACH_PORT_TYPE_SEND_RECEIVE = true) as ->.
    { destruct Htk as [_ [-> |Hx]]; [done|]. by eapply has_mono; [|exact Hx]. }
    ostep. split; [done|]. split; [by exists st; split; [apply waited_refl|]|]. exists e.
    rewrite (at_name_right _ _ _ _ _ Hat). split; [|done]. split; [done|]. split; [apply Hat|]. split; [apply Hat|done]. }
  destruct Ho as (st1 & -> & Hwt & Htk). ostep. eapply loop_post_mono; [done|].
  assert (ps_ports st1 !! p = Some port) as Hp1 by (by rewrite (wt_ports _ _ _ Hwt)).
  pose proof (sd_wf _ _ _ Hs1) as Hw1.
  destruct (entry_get_wf sp1 Hw1 (sd_active _ _ _ Hs1)) as (sp2 & kr & r & Hrun & Hsv & Hr).
  rewrite Hrun. ostep. destruct r as [[name ep]|].
  - destruct Hr as [-> Hgot]. apply entry_get_flags in Hrun.
    destruct (got_hand sp1 sp2 caps name ep) as (Hn & e & Hh & Her).
    { intros n Hn. apply (sd_view _ _ _ Hs1 n Hn). set_solver. }
    { intros n Hn. by apply (sd_dom _ _ _ Hs1). }
    { done. }
    { done. }
    { rewrite Hrun. unfold flags. by rewrite (sd_active _ _ _ Hs1), (sd_locked _ _ _ Hs1), (sd_growing _ _ _ Hs1). }
    destruct (copyout_blank_spec sp2 st1 caps name ep e p port Hh Her Hp1 Hl) as (sp3 & Hx).
    destruct (ip_active port) eqn:Hact.
    + destruct Hx as (-> & e' & Htg). ostep. split; [done|]. split; [by exists st1; split; [apply waited_refl|]|].
      exists e'. rewrite Hn. by split; [|apply Htk].
    + destruct Hx as [-> Hr]. ostep. split; [done|]. split; [by apply waited_put|done].
  - destruct Hr as (-> & -> & Hno).
    destruct (decide (is_table_next (st_space sp1) = 511%nat)) as [Hmax|Hmax].
    { unfold ipc_entry_grow_table, ipc_table_entries_size. rewrite (grow_last_size _ sp1) by (done || apply Hs1). ostep.
      split; [done|]. split; [done|]. exists sp1. split_and!; [done| |done|done].
      intros n Hn. by apply (sd_view _ _ _ Hs1). }
    destruct (grow_loop_spec ipc_table_entries_size sp1) as (sp3 & kr & Hrun3 & Hgp); [apply Hs1..| |done|].
    { pose proof (space_next_bound _ _ Hw1). unfold ipc_table_entries_size. lia. }
    unfold ipc_entry_grow_table. rewrite Hrun3. ostep. destruct kr; try done; simpl in Hgp.
    + destruct Hgp as (Hl3 & Hg3 & E & Hlt). rewrite bool_decide_true by done. ostep.
      pose proof (spaced_evolves _ _ _ Hs1 E) as Hs3. rewrite Hl3 in Hs3.
      apply (IH sp3 st1); [done|by eapply waited_rights| |done|].
      * intros q port' Hq. rewrite (wt_ports _ _ _ Hwt) in Hq. by apply Hrecv.
      * specialize (Hlt (sd_active _ _ _ Hs3)). lia.
    + destruct Hgp as (Hl3 & Hg3 & E). rewrite bool_decide_false by done. ostep.
      pose proof (spaced_evolves _ _ _ Hs1 E) as Hs3. rewrite Hl3 in Hs3. split; [done|]. split; [apply waited_refl|done].
Qed.
End loop.

(** ** ipc_object_copyout *)

Definition copyout_post (caps : rights_t) (tr : transit_t) (t p : Z) (port : ipc_port) (overflow : bool) (st : pstate)
    (r : outcome (istate * pstate * (kern_return * option Z))) : Prop :=
  match r with
  | Ok (sp', st', (KERN_SUCCESS, Some name)) =>
      ip_active port = true ∧ takes caps t p port (caps !! name) ∧ (∀ r, caps !! name = Some r → r_object r = p) ∧
      (pegged (caps !! name) = true → overflow = true) ∧
      settled sp' st' (set_right caps name (Some (gains t p (caps !! name)))) tr ∧ touched p st st' []
  | Ok (sp', st', (KERN_UREFS_OVERFLOW, None)) =>
      overflow = false ∧ (∃ name r, caps !! name = Some r ∧ r_object r = p ∧ pegged (Some r) = true) ∧
      settled sp' st' caps ((t, p) :: tr) ∧ touched p st st' []
  | Ok (sp', st', (KERN_INVALID_CAPABILITY, None)) =>
      ip_active port = false ∧ settled sp' st' caps ((t, p) :: tr) ∧ touched p st st' []
  | Ok (sp', st', (KERN_RESOURCE_SHORTAGE, None)) =>
      (ip_active port = true → takes caps t p port None) ∧
      settled sp' st' caps ((t, p) :: tr) ∧ touched p st st' []
  | Ok _ => False
  | Fault f => f = FDeref ∧ (ip_active port = true → takes caps t p port None) ∧ exhausted caps
  end.

Lemma waited_unlocked p st st' : unlocked_ports st → waited p st st' → unlocked_ports st'.
Proof. intros Hu [Hp _] q port. rewrite Hp. apply Hu. Qed.

(** The lock of a port does not matter for the account. *)
Lemma rights_lock caps tr st p port b :
  rights_ok caps tr st → ps_ports st !! p = Some port → p ≠ IO_NULL →
  rights_ok caps tr (put (ptick st) p (set_ip_locked port b)).
Proof.
  intros Hok Hp Hz. destruct (ra_port _ _ _ Hok _ _ Hp) as [Hdn Hrefs Hs Ho].
  apply (rights_recount caps tr [] [] st _ p port (set_ip_locked port b)); try done.
  split; simpl; try lia; intros Ha; [specialize (Hs Ha)|specialize (Ho Ha)]; lia.
Qed.

(** The name has been found. *)
Lemma copyout_found sp st st1 caps tr t p port overflow name ep e :
  t = MACH_PORT_TYPE_SEND ∨ t = MACH_PORT_TYPE_SEND_ONCE → IO_VALID p = true →
  rights_ok caps ((t, p) :: tr) st → unlocked_ports st → ps_ports st !! p = Some port → ip_active port = true →
  waited p st st1 → target sp caps name ep e p (caps !! name) → takes caps t p port (caps !! name) →
  copyout_post caps tr t p port overflow st
    ('(sp, st, kr) ← ipc_right_copyout sp (put (ptick st1) p (set_ip_locked port true)) name ep (msgt_of t) overflow p;
     sp ← is_write_unlock sp;
     Ok (sp, st, (kr, if bool_decide (kr = KERN_SUCCESS) then Some name else None))).
Proof.
  intros Ht Hv Hok Hu Hp Ha Hwt Htg Htk.
  pose proof (waited_rights _ _ _ _ _ Hok Hwt) as Hok1. pose proof (waited_unlocked _ _ _ Hu Hwt) as Hu1.
  assert (ps_ports st1 !! p = Some port) as Hp1 by (by rewrite (wt_ports _ _ _ Hwt)).
  destruct (right_copyout_spec sp (put (ptick st1) p (set_ip_locked port true)) caps tr name ep e p t
    (set_ip_locked port true) (caps !! name) overflow) as (sp2 & st2 & Hrun & Hto & Hst2); try done.
  - apply rights_lock; [done..|]. intros ->. done.
  - apply put_get.
  - intros q port' Hq Hqp. simpl in Hqp. rewrite lookup_insert_ne in Hqp by done. by apply (Hu1 q).
  - rewrite (Hrun : ipc_right_copyout sp _ name ep (msgt_of t) overflow p = _). ostep.
    assert (touched p st st2 []) as Hto2.
    { apply (touched_trans p st st1 st2 [] []); [apply Hwt|].
      refine (touched_trans _ _ _ _ [] [] _ Hto). touch. }
    destruct (pegged (caps !! name) && negb overflow) eqn:Hpeg; destruct Hst2 as [Hs2 Hok2 Hul2];
      destruct (spaced_unlock _ _ Hs2) as (sp3 & -> & Hr3); ostep.
    + apply andb_true_iff in Hpeg as [Hpeg Hov]. rewrite bool_decide_false by done.
      split; [by destruct overflow|]. split; [|done]. destruct (caps !! name) as [r|] eqn:Hn; [|done].
      exists name, r. split_and!; [done|apply Htg|done].
    + rewrite bool_decide_true by done. split; [done|]. split; [done|]. split; [|split; [|done]].
      * intros r Hn. rewrite Hn in Htg. apply Htg.
      * intros Hx. rewrite Hx in Hpeg. by destruct overflow.
Qed.

Lemma object_copyout_spec sp st caps tr t p port overflow :
  settled sp st caps ((t, p) :: tr) → receivers caps st →
  t = MACH_PORT_TYPE_SEND ∨ t = MACH_PORT_TYPE_SEND_ONCE →
  IO_VALID p = true → ps_ports st !! p = Some port → ps_psets st !! p = None →
  copyout_post caps tr t p port overflow st (ipc_object_copyout sp st p (msgt_of t) overflow).
Proof.
  intros [Hrel Hok Hu] Hrecv Ht Hv Hp Hps. unfold ipc_object_copyout. rewrite Hv. unfold io_otype. rewrite Hps. ostep.
  simpl Z.eqb. ostep. destruct (lock_spaced sp caps Hrel) as (sp1 & -> & Hs1 & _). ostep.
  assert (p ≠ IO_NULL) as Hz by (by intros ->).
  pose proof (copyout_loop_spec caps t p port Ht (Hu _ _ Hp) Hz (S ipc_table_entries_size) sp1 st ((t, p) :: tr) Hs1 Hok Hrecv Hp)
    as Hloop. pose proof (space_next_bound _ _ (sd_wf _ _ _ Hs1)) as Hnb.
  specialize (Hloop ltac:(unfold ipc_table_entries_size; lia)).
  destruct (copyout_loop _ _ _ _ _) as [[[sp2 st2] [kr [[name ep]|]]]|f]; ostep; [| |done].
  - destruct kr; try done. destruct Hloop as (Ha & (st1 & Hwt & ->) & e & Htg & Htk).
    by apply (copyout_found sp2 st st1 caps tr t p port overflow name ep e).
  - assert (∀ st', waited p st st' → rights_ok caps ((t, p) :: tr) st' ∧ unlocked_ports st') as Hw.
    { intros st' Hx. split; [by eapply waited_rights|by eapply waited_unlocked]. }
    destruct kr; try done; simpl in Hloop |- *.
    + destruct Hloop as (Htk & Hwt & Hr). destruct (Hw _ Hwt). split; [done|]. split; [done|apply Hwt].
    + destruct Hloop as (Ha & Hwt & Hr). destruct (Hw _ Hwt). split; [done|]. split; [done|apply Hwt].
Qed.

(** C7. ipc_object_copyout of a send or send-once right in transit, with no
    other thread running, finds or makes the one name of the space that has
    to take it, growing the table as often as needed: on success the right
    has gone from transit to that name, which had the port already or was
    free; the errors are a dead port, no memory, and a reference count at
    its limit unless overflow is allowed, and they leave the right in
    transit with the account in balance; when the table has its last size
    and every name of it is bound, the code reads past the end of
    ipc_table_entries (a fault of the model) instead of giving an error. *)
Theorem object_copyout_correct sp st caps tr t p port overflow :
  settled sp st caps ((t, p) :: tr) → receivers caps st →
  t = MACH_PORT_TYPE_SEND ∨ t = MACH_PORT_TYPE_SEND_ONCE →
  IO_VALID p = true → ps_ports st !! p = Some port → ps_psets st !! p = None →
  copyout_post caps tr t p port overflow st (ipc_object_copyout sp st p (msgt_of t) overflow).
Proof. apply object_copyout_spec. Qed.

(** ** Out of a space and back in *)

(** The receive rights keep their names. *)
Lemma receivers_touched caps caps' st st' p ns :
  receivers caps st → touched p st st' ns →
  (∀ n r, caps !! n = Some r → has (r_type r) MACH_PORT_TYPE_RECEIVE = true →
    ∃ r', caps' !! n = Some r' ∧ r_object r' = r_object r ∧ has (r_type r') MACH_PORT_TYPE_RECEIVE = true) →
  receivers caps' st'.
Proof.
  intros Hr Hto Hc q port' Hq Ha Hsp.
  assert (∃ port, ps_ports st !! q = Some port ∧ same_port port port') as (port & Hp & [Hac Hnm Hdt]).
  { destruct (decide (q = p)) as [->|]; [by apply (to_same _ _ _ _ Hto)|]. exists port'.
    by rewrite <-(to_ports _ _ _ _ Hto). }
  rewrite Hac in Ha. rewrite Hdt in Hsp. destruct (Hr q port Hp Ha Hsp) as (Hz & r & Hn & Ho & Hty). rewrite Hnm.
  split; [done|]. destruct (Hc _ _ Hn Hty) as (r' & Hn' & Ho' & Hty'). exists r'. by rewrite Ho'.
Qed.

(** A space has one name for the send rights of a port. *)
Lemma send_name_unique sp caps n m r r' :
  released sp caps → caps !! n = Some r → caps !! m = Some r' → r_object r' = r_object r →
  r_type r = MACH_PORT_TYPE_SEND → r_type r' = MACH_PORT_TYPE_SEND → n = m.
Proof.
  intros Hr Hn Hm Ho Ht Ht'.
  assert (∀ k s, caps !! k = Some s → ∃ ep e, denotes ∅ sp k ep ∧ eget sp ep = Some e ∧ entry_right e = s) as Hx.
  { intros k s Hk. assert (is_u32 k) as Hu by (by apply (rl_dom _ _ Hr); rewrite Hk).
    rewrite <-(rl_view _ _ Hr k Hu) in Hk. apply fmap_Some in Hk as (c & Hc & ->).
    destruct (view_entry _ _ _ (rl_wf _ _ Hr) Hu Hc) as (ep & e & Hd & He & <- & _). exists ep, e. by rewrite cap_right_of. }
  destruct (Hx _ _ Hn) as (ep & e & Hd & He & <-). destruct (Hx _ _ Hm) as (ep' & e' & Hd' & He' & <-).
  assert (ep = ep') as <-; [|by eapply denotes_name; [apply Hr|..]].
  eapply (reversed_unique ∅ sp n m); [apply Hr|done|done|..].
  - by apply (reversed_type _ _ _ _ _ (rl_wf _ _ Hr) Hd He (not_elem_of_empty n)).
  - by apply (reversed_type _ _ _ _ _ (rl_wf _ _ Hr) Hd' He' (not_elem_of_empty m)).
  - by rewrite (entry_object_get _ _ _ He), (entry_object_get _ _ _ He').
Qed.

(** A right to send through a name: the receive right or send rights. *)
Definition sending (r : right) : Prop := r_type r = MACH_PORT_TYPE_RECEIVE ∨ has_send (r_type r) = true.

Lemma port_name_unique sp st caps tr p port n m r r' :
  settled sp st caps tr → ps_ports st !! p = Some port → ip_active port = true →
  caps !! n = Some r → caps !! m = Some r' → r_object r = p → r_object r' = p → sending r → sending r' → n = m.
Proof.
  intros [Hrel Hok _] Hp Ha Hn Hm Ho Ho' Hs Hs'.
  assert (∀ k s, caps !! k = Some s → r_object s = p → sending s →
    r_type s = MACH_PORT_TYPE_SEND ∧ ip_receiver port ≠ space_addr ∨
    ip_receiver_name port = k ∧ ip_receiver port = space_addr) as Hx.
  { intros k s Hk Hob Hse. destruct (ra_right _ _ _ Hok _ _ Hk) as [(_ & Hu & _ & port' & Hp' & _ & Hnp)|[(Hx & _)|(Hx & _)]].
    2, 3: by destruct Hse as [Hy|Hy]; rewrite Hx in Hy.
    rewrite Hob in Hp'. assert (port' = port) as -> by congruence.
    destruct Hu as [[[Ht|Ht] _]|[[Ht _]|[Ht _]]]; rewrite Ht in Hnp.
    - left. split; [done|]. by apply Hnp.
    - right. by destruct Hnp as (_ & ? & ?).
    - right. by destruct Hnp as (_ & ? & ?).
    - by destruct Hse as [Hy|Hy]; rewrite Ht in Hy. }
  destruct (Hx _ _ Hn Ho Hs) as [[Ht H1]|[H1 H2]], (Hx _ _ Hm Ho' Hs') as [[Ht' H1']|[H1' H2']]; try congruence.
  eapply send_name_unique; [done..|congruence|done|done].
Qed.

(** One of several user references of a send right is moved out. *)
Section roundtrip.
Context (sp : istate) (st : pstate) (caps : rights_t) (tr : transit_t) (name : Z) (r : right) (port : ipc_port).
Hypothesis Hs : settled sp st caps tr.
Hypothesis Hrecv : receivers caps st.
Hypothesis Hf : findable sp name.
Hypothesis Hn : caps !! name = Some r.
Hypothesis Hsend : has_send (r_type r) = true.
Hypothesis Hu : 1 < r_urefs r.
Hypothesis Hp : ps_ports st !! r_object r = Some port.
Hypothesis Ha : ip_active port = true.
Hypothesis Hroom : has_room port.

Let p := r_object r.
Let r1 := Right (r_type r) (r_urefs r - 1) p (r_request r).

Lemma send_types :
  (r_type r = MACH_PORT_TYPE_SEND ∨ r_type r = MACH_PORT_TYPE_SEND_RECEIVE) ∧ r_urefs r < MACH_PORT_UREFS_MAX.
Proof.
  destruct (ra_right _ _ _ (sl_rights _ _ _ _ Hs) _ _ Hn) as [(_ & Hx & _)|[(Hx & _)|(Hx & _)]]; [|by rewrite Hx in Hsend..].
  by destruct Hx as [[? []]|[[Hx _]|[Hx _]]]; [|rewrite Hx in Hsend..].
Qed.

Lemma moved_out :
  ∃ sp1 st1 port1,
    ipc_object_copyin sp st name MACH_MSG_TYPE_MOVE_SEND = Ok (sp1, st1, (KERN_SUCCESS, Some p)) ∧
    settled sp1 st1 (<[name := r1]> caps) ((MACH_PORT_TYPE_SEND, p) :: tr) ∧ receivers (<[name := r1]> caps) st1 ∧
    touched p st st1 [] ∧ ps_ports st1 !! p = Some port1 ∧ ip_active port1 = true.
Proof.
  destruct send_types as [Hty _].
  destruct (object_copyin_spec sp st caps tr name MACH_MSG_TYPE_MOVE_SEND Hs Hf) as (sp1 & st1 & res & Hrun & Hpost);
    [set_solver| |].
  { intros r' port' Hn' Hp'. rewrite Hn in Hn'. injection Hn' as <-. congruence. }
  rewrite Hn in Hpost. cbv zeta in Hpost.
  assert (is_dead r = false) as Hnd by (unfold is_dead; by destruct Hty as [-> | ->]).
  assert (seen MACH_MSG_TYPE_MOVE_SEND st r = r) as Hseen.
  { unfold seen, checked, alive. simpl. rewrite Hp, Ha. by rewrite andb_false_r. }
  assert (remains MACH_MSG_TYPE_MOVE_SEND r = Some r1) as Hrem.
  { unfold remains, less_one. simpl. by rewrite (proj2 (Z.eqb_neq (r_urefs r) 1)) by lia. }
  rewrite Hseen in Hpost. unfold legal, copied_object, copied, copied_soright in Hpost. rewrite Hrem, Hnd in Hpost.
  simpl in Hpost. rewrite Hsend, insert_delete_eq in Hpost. destruct Hpost as (-> & Hs1 & Hto).
  destruct (ra_transit _ _ _ (sl_rights _ _ _ _ Hs1) MACH_PORT_TYPE_SEND p) as (_ & port1 & Hp1); [by left|done|].
  destruct (to_same _ _ _ _ Hto _ Hp1) as (port' & Hp' & Hsame). exists sp1, st1, port1. split_and!; try done.
  - eapply receivers_touched; [done..|]. intros n r0 Hn0 Ht0. destruct (decide (n = name)) as [->|].
    + exists r1. rewrite lookup_insert_eq. split; [done|]. by assert (r0 = r) as -> by congruence.
    + exists r0. by rewrite lookup_insert_ne.
  - rewrite (sp_active _ _ Hsame). congruence.
Qed.

(** What it is to the port. *)
Definition port_more : ipc_port :=
  set_ip_references (set_ip_srights port (ip_srights port + 1)) (ip_references port + 1).

Lemma moved_out_ports sp1 st1 res :
  ipc_object_copyin sp st name MACH_MSG_TYPE_MOVE_SEND = Ok (sp1, st1, res) → ps_ports st1 = <[p := port_more]> (ps_ports st).
Proof.
  destruct Hs as [Hrel Hok Hul]. destruct (lookup_write_spec sp caps name Hrel Hf) as (sp0 & Hx).
  rewrite Hn in Hx. destruct Hx as (ep & e & Hlook & Hat & He). unfold ipc_object_copyin. rewrite Hlook. ostep.
  destruct Hat as [Hs0 Hd Hg]. pose proof (Hul _ _ Hp) as Hl.
  assert (standing_but ∅ sp0 st caps tr) as Hst by done. assert (ie_object e = p) as Hob by (unfold p; by rewrite <-He).
  destruct (move_many_run (hs := ∅) sp0 st caps tr name ep e Hst Hd Hg) with (port := port) (deadok := true)
    as (sp2 & Hrun); try done; try (rewrite He; lia || done); try (rewrite Hob; done).
  { intros port'. rewrite Hob. intros Hp'. change (ps_ports st !! r_object r = Some port') in Hp'. rewrite Hp in Hp'. by injection Hp' as <-. }
  rewrite (copyin_unfold (hs := ∅) sp0 st caps tr name ep e Hst Hg). simpl Z.eqb. cbv iota. rewrite Hrun, Hob. ostep.
  destruct (eread _ _) as [e2|]; [ostep|done]. destruct (if _ =? _ then _ else _) as [sp3|]; [ostep|done].
  destruct (is_write_unlock _) as [sp4|]; [ostep|done]. intros [= _ <- _]. simpl. f_equal. unfold port_more.
  destruct port; simpl in *; by subst.
Qed.

Lemma moved_in sp1 st1 port1 overflow :
  settled sp1 st1 (<[name := r1]> caps) ((MACH_PORT_TYPE_SEND, p) :: tr) → receivers (<[name := r1]> caps) st1 →
  ps_ports st1 !! p = Some port1 → ip_active port1 = true → IO_VALID p = true → ps_psets st1 !! p = None →
  ∃ sp2 st2, ipc_object_copyout sp1 st1 p MACH_MSG_TYPE_PORT_SEND overflow = Ok (sp2, st2, (KERN_SUCCESS, Some name)) ∧
    settled sp2 st2 caps tr ∧ receivers caps st2 ∧ touched p st1 st2 [].
Proof.
  intros Hs1 Hr1 Hp1 Ha1 Hv Hps. destruct send_types as [Hty Hmax].
  pose proof (object_copyout_spec sp1 st1 _ tr MACH_PORT_TYPE_SEND p port1 overflow Hs1 Hr1 (or_introl eq_refl) Hv Hp1 Hps) as Hpost.
  assert (¬ takes (<[name := r1]> caps) MACH_PORT_TYPE_SEND p port1 None) as Hno.
  { intros Hx. destruct (Hx eq_refl) as [Hrc Hne].
    destruct Hty as [Hty|Hty]; [by apply (Hne name r1); [apply lookup_insert_eq|..]|].
    destruct (ra_right _ _ _ (sl_rights _ _ _ _ Hs1) name r1) as [(_ & _ & _ & port' & Hp' & _ & Hnp)|[(Hy & _)|(Hy & _)]];
      [apply lookup_insert_eq| |simpl in Hy; by rewrite Hty in Hy..].
    simpl in Hp', Hnp. rewrite Hty in Hnp. assert (port' = port1) as -> by congruence. by destruct Hnp as (_ & _ & ?). }
  assert (sending r1) as Hse by (by right).
  change (msgt_of MACH_PORT_TYPE_SEND) with MACH_MSG_TYPE_PORT_SEND in Hpost.
  destruct (ipc_object_copyout _ _ _ _ _) as [[[sp2 st2] [kr [name'|]]]|f]; cbv beta iota delta [copyout_post] in Hpost.
  - destruct kr; try done. destruct Hpost as (_ & Htk & Hob & _ & Hs2 & Hto).
    assert (name' = name) as ->.
    { destruct (<[name:=r1]> caps !! name') as [r'|] eqn:Hn'; [|done].
      eapply (port_name_unique sp1 st1 _ _ p port1 name' name r' r1 Hs1); try done; [apply lookup_insert_eq|by apply Hob|apply Htk]. }
    assert (set_right (<[name:=r1]> caps) name (Some (gains MACH_PORT_TYPE_SEND p (<[name:=r1]> caps !! name))) = caps) as Hcaps.
    { rewrite lookup_insert_eq. unfold gains, pegged. simpl r_type. rewrite Hsend. simpl r_urefs.
      rewrite (proj2 (Z.eqb_neq (r_urefs r - 1 + 1) _)) by lia. simpl. rewrite delete_insert_eq, insert_delete_eq.
      rewrite <-(insert_id caps name r) at 2 by done. f_equal.
      replace (r_urefs r - 1 + 1) with (r_urefs r) by lia. destruct r; simpl in *; by destruct Hty as [-> | ->]. }
    rewrite Hcaps in Hs2. exists sp2, st2. split_and!; try done.
    eapply receivers_touched; [done..|]. intros n r0 Hn0 Ht0. destruct (decide (n = name)) as [->|].
    + rewrite lookup_insert_eq in Hn0. injection Hn0 as <-. by exists r.
    + rewrite lookup_insert_ne in Hn0 by done. by exists r0.
  - destruct kr; try done; simpl in Hpost.
    + by destruct Hpost as (Hx & _); specialize (Hx Ha1).
    + destruct Hpost as (_ & (n & r' & Hn' & Ho' & Hpeg) & _). exfalso.
      assert (sending r') as Hse' by (right; unfold pegged in Hpeg; by apply andb_true_iff in Hpeg as [? _]).
      assert (n = name) as -> by (eapply (port_name_unique sp1 st1 _ _ p port1 n name r' r1 Hs1); try done; apply lookup_insert_eq).
      rewrite lookup_insert_eq in Hn'. injection Hn' as <-. unfold pegged in Hpeg. simpl in Hpeg.
      apply andb_true_iff in Hpeg as [_ Hx%Z.eqb_eq]. lia.
    + by destruct Hpost as (Hx & _); rewrite Hx in Ha1.
  - by destruct Hpost as (_ & Hx & _); specialize (Hx Ha1).
Qed.
(** And what copying it out is to the port. *)
Lemma moved_in_ports sp1 st1 overflow sp2 st2 :
  settled sp1 st1 (<[name := r1]> caps) ((MACH_PORT_TYPE_SEND, p) :: tr) → receivers (<[name := r1]> caps) st1 →
  ps_ports st1 = <[p := port_more]> (ps_ports st) → IO_VALID p = true → ps_psets st1 !! p = None →
  ipc_object_copyout sp1 st1 p MACH_MSG_TYPE_PORT_SEND overflow = Ok (sp2, st2, (KERN_SUCCESS, Some name)) →
  ps_ports st2 = ps_ports st.
Proof.
  intros [Hrel Hok1 Hul1] Hr1 Hports Hv Hps. destruct send_types as [Hty Hmax].
  assert (ps_ports st1 !! p = Some port_more) as Hp1 by (by rewrite Hports, lookup_insert_eq).
  unfold ipc_object_copyout. rewrite Hv. unfold io_otype. rewrite Hps. ostep. simpl Z.eqb. ostep.
  destruct (lock_spaced sp1 _ Hrel) as (sp3 & -> & Hs3 & _). ostep. assert (p ≠ IO_NULL) as Hz by (by intros ->).
  pose proof (copyout_loop_spec _ MACH_PORT_TYPE_SEND p port_more (or_introl eq_refl) (Hul1 _ _ Hp1) Hz
    (S ipc_table_entries_size) sp3 st1 _ Hs3 Hok1 Hr1 Hp1) as Hloop.
  pose proof (space_next_bound _ _ (sd_wf _ _ _ Hs3)) as Hnb. specialize (Hloop ltac:(unfold ipc_table_entries_size; lia)).
  change (msgt_of MACH_PORT_TYPE_SEND) with MACH_MSG_TYPE_PORT_SEND in Hloop.
  destruct (copyout_loop _ _ _ _ _) as [[[sp4 st4] [kr [[name' ep]|]]]|f]; ostep; [|by destruct kr|done].
  destruct kr; try done. destruct Hloop as (_ & (st5 & Hwt & ->) & e & Htg & _).
  intros Hrun. assert (name' = name) as ->.
  { destruct (ipc_right_copyout _ _ _ _ _ _ _) as [[[sp6 st6] kr]|]; [ostep|done]. cbn [mbind outcome_bind] in Hrun.
    destruct (is_write_unlock sp6); [|done]. cbn [mbind outcome_bind] in Hrun. by case_bool_decide; injection Hrun. }
  rewrite lookup_insert_eq in Htg.
  assert (pegged (Some r1) = false) as Hpeg.
  { unfold pegged. simpl. rewrite Hsend. simpl. apply Z.eqb_neq. lia. }
  assert (ps_ports (put (ptick st5) p (set_ip_locked port_more true)) !! p = Some (set_ip_locked port_more true)) as Hp5 by apply put_get.
  rewrite (copyout_more_run sp4 (put (ptick st5) p (set_ip_locked port_more true)) (<[name := r1]> caps) tr name ep e p
    MACH_PORT_TYPE_SEND (set_ip_locked port_more true) (Some r1) Htg) with (r := r1) in Hrun; try done.
  2: { apply rights_lock; [by eapply waited_rights|by rewrite (wt_ports _ _ _ Hwt)|done]. }
  2: { by left. }
  rewrite Hpeg in Hrun. cbn [andb mbind outcome_bind] in Hrun. destruct (is_write_unlock _); [|done].
  cbn [mbind outcome_bind] in Hrun. injection Hrun as _ <-. simpl. rewrite (wt_ports _ _ _ Hwt), Hports, !insert_insert_eq.
  apply insert_id. unfold p. rewrite Hp. f_equal.
  destruct Hs as [_ _ Hul]. pose proof (Hul _ _ Hp) as Hl. apply port_ext; simpl; done || lia.
Qed.
End roundtrip.

(** C9. Moving one of several user references of a send right out of a
    space with ipc_object_copyin and back with ipc_object_copyout succeeds,
    gives the name that it had, restores the rights of the space, and
    leaves every port exactly as it was, with its references and counts of
    rights. *)
Theorem copyin_copyout_roundtrip sp st caps tr name r port overflow :
  settled sp st caps tr → receivers caps st → findable sp name →
  caps !! name = Some r → has_send (r_type r) = true → 1 < r_urefs r →
  ps_ports st !! r_object r = Some port → ip_active port = true → has_room port →
  IO_VALID (r_object r) = true → ps_psets st !! r_object r = None →
  ∃ sp1 st1 sp2 st2,
    ipc_object_copyin sp st name MACH_MSG_TYPE_MOVE_SEND = Ok (sp1, st1, (KERN_SUCCESS, Some (r_object r))) ∧
    ipc_object_copyout sp1 st1 (r_object r) MACH_MSG_TYPE_PORT_SEND overflow = Ok (sp2, st2, (KERN_SUCCESS, Some name)) ∧
    settled sp2 st2 caps tr ∧ receivers caps st2 ∧ touched (r_object r) st st2 [] ∧ ps_ports st2 = ps_ports st.
Proof.
  intros Hs Hrecv Hf Hn Hsend Hu Hp Ha Hroom Hv Hps.
  destruct (moved_out sp st caps tr name r port) as (sp1 & st1 & port1 & Hrun1 & Hs1 & Hr1 & Hto1 & Hp1 & Ha1); [done..|].
  destruct (moved_in sp st caps tr name r port Hs Hn Hsend Hu Hp sp1 st1 port1 overflow) as (sp2 & st2 & Hrun2 & Hs2 & Hr2 & Hto2);
    try done; [by rewrite (to_psets _ _ _ _ Hto1)|].
  exists sp1, st1, sp2, st2. split_and!; try done; [apply (touched_trans _ _ _ _ _ _ Hto1 Hto2)|].
  eapply (moved_in_ports sp st caps tr name r port Hs Hn Hsend Hp Ha sp1 st1); [exact Hs1|done| |done| |exact Hrun2].
  - by eapply (moved_out_ports sp st caps tr).
  - by rewrite (to_psets _ _ _ _ Hto1).
Qed.
End object_inv.
