(* ===== verification/IpcObjectAlloc.v ===== *)
(** * Allocating ports and dead names

    A new name in a space without other threads: [ipc_port_alloc] makes a
    port that the space receives from and a name for it,
    [ipc_object_alloc_dead] a name without a port.  The theorems say what the
    map of rights is afterwards, and that the account balances. *)

From stdpp Require Import prelude list gmap.
From S2P Require Import Prelude MachPort IpcSplay IpcTypes IpcHash IpcTable IpcEntry IpcInv IpcGrow IpcAlloc IpcAllocName IpcUpdate.
From S2P Require Import IpcPort IpcDnreq IpcPortRights IpcPset IpcPsetInv IpcDestroy IpcRight IpcRightEq IpcRightInv IpcRightDealloc.
From S2P Require Import IpcRightCopy IpcObject IpcObjectInv.

(** The zones of ports and port sets give out addresses that are not in use. *)
Class fresh_objects `{PW : pworld} : Prop :=
  fresh_object c st p : pw_alloc c st = Some p → IO_VALID p = true ∧ ps_ports st !! p = None ∧ ps_psets st !! p = None.

(** The zone of tree entries gives out entries that are not in use. *)
Class fresh_tree_entries `{IW : iworld} : Prop :=
  fresh_tree_entry c sp p : w_alloc c sp = Some p → st_ites sp !! p = None.

#[export] Instance undisturbed_name `{IW : iworld, !undisturbed, !fresh_tree_entries} name : name_rely name (λ _, True).
Proof.
  split.
  - intros c sp _ _. by rewrite undisturbed_id.
  - intros c sp p Hp. split; [done|]. by eapply fresh_tree_entry.
  - intros c sp p _ _. by rewrite undisturbed_id.
Qed.

Section object_alloc.
Context `{IW : iworld, !undisturbed, !fresh_tree_entries}.
Context `{PW : pworld, !quiet, !fresh_objects}.

(** ** A new entry *)

Lemma alloc_hand sp caps :
  released sp caps →
  match ipc_entry_alloc sp with
  | Ok (sp', (KERN_SUCCESS, Some (name, ep))) => caps !! name = None ∧ MACH_PORT_VALID name = true ∧
      ∃ e, hand {[name]} sp' caps name ep e false ∧ entry_right e = Right MACH_PORT_TYPE_NONE 0 IO_NULL 0
  | Ok (sp', (KERN_RESOURCE_SHORTAGE, None)) => released sp' caps
  | Ok _ => False
  | Fault f => f = FDeref ∧ exhausted caps
  end.
Proof.
  intros Hr. pose proof (entry_alloc_spec sp (λ _, rl_wf _ _ Hr) (rl_locked _ _ Hr) (rl_growing _ _ Hr)) as Hp.
  destruct (ipc_entry_alloc sp) as [[sp' [kr o]]|f]; simpl in Hp.
  - destruct kr; try done.
    + destruct o as [[name ep]|]; [|done]. destruct Hp as (Hl & sp1 & E & Hlive & Hw & Hsv & Hgot).
      destruct (evolves_rights _ _ caps E) as (_ & _ & _ & Hv);
        [apply Hr..|by intros n Hn _; apply (rl_view _ _ Hr)|].
      destruct (got_hand sp1 sp' caps name ep) as (Hn & e & Hh & Her); [done|apply Hr|done..|].
      split; [done|]. split; [apply Hgot|by exists e].
    + destruct o; [done|]. destruct Hp as [Hl E]. pose proof (released_evolves _ _ _ Hr E) as Hx. by rewrite Hl in Hx.
    + destruct o; [done|]. destruct Hp as (Hl & E & Hx). exfalso. apply Hx.
      by destruct (evolves_rights _ _ caps E) as (_ & Ha & _); [apply Hr..|by intros n Hn _; apply (rl_view _ _ Hr)|].
  - destruct Hp as (-> & sp1 & E & Hlive & Hw & Hmax & Hno). split; [done|]. exists sp1.
    destruct (evolves_rights _ _ caps E) as (_ & _ & _ & Hv);
      [apply Hr..|by intros n Hn _; apply (rl_view _ _ Hr)|]. done.
Qed.

(** The entry of a given name. *)
Lemma alloc_name_hand sp caps name :
  released sp caps → name_ok name →
  match ipc_entry_alloc_name sp name with
  | Ok (sp', (KERN_SUCCESS, Some ep)) =>
      match caps !! name with
      | Some r => ∃ e, at_name sp' caps name ep e ∧ entry_right e = r
      | None => ∃ e, hand {[name]} sp' caps name ep e false ∧ entry_right e = Right MACH_PORT_TYPE_NONE 0 IO_NULL 0
      end
  | Ok (sp', (KERN_RESOURCE_SHORTAGE, None)) => released sp' caps
  | Ok (sp', (KERN_FAILURE, None)) => released sp' caps ∧ is_fast (st_space sp) = true
  | _ => False
  end.
Proof.
  intros Hr Hok. pose proof (entry_alloc_name_spec name (λ _, True) Hok sp (λ _, rl_wf _ _ Hr) (rl_locked _ _ Hr) (rl_growing _ _ Hr)) as Hp.
  assert (∀ sp1, evolves sp sp1 → is_active (st_space sp1) = true ∧
    ∀ n, is_u32 n → cap_right <$> space_view sp1 n = caps !! n) as Hev.
  { intros sp1 E. destruct (evolves_rights _ _ caps E) as (_ & Ha & _ & Hv);
      [apply Hr..|by intros n Hn _; apply (rl_view _ _ Hr)|done]. }
  destruct (ipc_entry_alloc_name sp name) as [[sp' [kr o]]|f]; simpl in Hp; [|done]. destruct kr, o as [ep|]; try done.
  - destruct Hp as (Hl & sp1 & E & Hlive & Hw & Hcase). destruct (Hev sp1 E) as [_ Hv].
    assert (is_u32 name) as Hu by apply Hok. destruct Hcase as [(Hne & Hw' & Hsv & Hd & Hfl)|Hm].
    + injection Hl as Ha Hlk Hg. assert (spaced ∅ sp' caps) as Hs.
      { split; [done..| |]; [intros n Hn _; rewrite (Hsv n Hn); by apply Hv|].
        intros n Hc. split; [by apply (rl_dom _ _ Hr)|set_solver]. }
      destruct (denotes_eget _ _ _ _ Hw' Hd) as [e He].
      assert (at_name sp' caps name ep e) as Hat by done. rewrite (at_name_right _ _ _ _ _ Hat). by exists e.
    + destruct Hm as (Hnone & Hw' & Hsv & Hd & Hfl & e & He & Hb). rewrite <-Hv, Hnone by done. simpl.
      exists e. injection Hl as Ha Hlk Hg. split; [|destruct ep; (eapply blank_right; [|exact Hb]); [apply is_gen_MACH_PORT_GEN|by apply is_gen_fix]].
      apply (hand_fresh sp1); try done; [apply Hr|apply Hb].
  - destruct Hp as (Hl & E & Hf). pose proof (released_evolves _ _ _ Hr E) as Hx. rewrite Hl in Hx.
    by rewrite (ry_fast _ _ (proj1 E)) in Hf.
  - destruct Hp as [Hl E]. pose proof (released_evolves _ _ _ Hr E) as Hx. by rewrite Hl in Hx.
  - destruct Hp as (Hl & E & Hx). exfalso. apply Hx. by apply Hev.
Qed.

Lemma inuse_found sp caps name ep e :
  at_name sp caps name ep e → ∃ sp', ipc_right_inuse sp ep = Ok (sp', true) ∧ released sp' caps.
Proof.
  intros [Hs Hd He]. unfold ipc_right_inuse, eread. rewrite He. ostep.
  destruct (spaced_entry _ _ _ _ _ _ Hs Hd (not_elem_of_empty name) He) as [_ Hne].
  rewrite (proj2 (Z.eqb_neq _ MACH_PORT_TYPE_NONE) Hne). ostep.
  destruct (spaced_unlock _ _ Hs) as (sp' & -> & Hr). by exists sp'.
Qed.

Lemma inuse_blank sp caps name ep e :
  hand {[name]} sp caps name ep e false → entry_right e = Right MACH_PORT_TYPE_NONE 0 IO_NULL 0 →
  ipc_right_inuse sp ep = Ok (sp, false).
Proof.
  intros Hh Her. injection Her as Ht _ _ _. unfold ipc_right_inuse. rewrite (hand_eread _ _ _ _ _ _ _ Hh). ostep.
  by rewrite Ht.
Qed.

(** ** A new object *)

(** The blank entry gets a type and user references. *)
Lemma hand_enter sp caps name ep e s :
  hand {[name]} sp caps name ep e false → entry_right e = Right MACH_PORT_TYPE_NONE 0 IO_NULL 0 →
  s ∈ [MACH_PORT_TYPE_RECEIVE; MACH_PORT_TYPE_PORT_SET; Z.lor MACH_PORT_TYPE_DEAD_NAME 1] →
  ∃ e', hand {[name]} (set_bits sp ep (Z.lor (ie_bits e) s)) caps name ep e' false ∧
    entry_right e' = Right (IE_BITS_TYPE s) (IE_BITS_UREFS s) IO_NULL 0.
Proof.
  intros Hh Her Hs. injection Her as Hty Hu Ho Hr.
  destruct (rebits_set (ie_bits e) s) as [Hhi Hty' Hu'];
    [by repeat (apply elem_of_cons in Hs as [->|Hs]; [done|]); apply elem_of_nil in Hs..|].
  rewrite Hty in Hty'. rewrite Hu in Hu'.
  eexists. split.
  - apply (hand_set _ _ _ _ _ _ _ (λ e', set_ie_bits e' (Z.lor (ie_bits e) s)) (Z.lor (ie_bits e) s) (ie_object e) (ie_request e) Hh); done.
  - unfold entry_right. simpl. by rewrite Hty', Hu', Ho, Hr.
Qed.

(** A right that is in no reverse hash table is done with. *)
Lemma hand_put_other sp caps name ep e :
  hand {[name]} sp caps name ep e false →
  IE_BITS_TYPE (ie_bits e) ≠ MACH_PORT_TYPE_SEND → IE_BITS_TYPE (ie_bits e) ≠ 0 →
  spaced ∅ sp (<[name := entry_right e]> caps).
Proof.
  intros Hh Hs Hn. rewrite <-(proj2 (Z.eqb_neq _ MACH_PORT_TYPE_SEND) Hs) in Hh.
  apply (hand_put_last _ _ _ _ _ Hh Hn).
Qed.

(** The entry gets its object, and the space is unlocked. *)
Lemma hand_named sp caps name ep e t u p :
  hand {[name]} sp caps name ep e false → entry_right e = Right t u IO_NULL 0 →
  t ≠ MACH_PORT_TYPE_SEND → t ≠ MACH_PORT_TYPE_NONE →
  ∃ sp', is_write_unlock (set_object sp ep p) = Ok sp' ∧ released sp' (<[name := Right t u p 0]> caps).
Proof.
  intros Hh Her Hs Hn. injection Her as Hty Hu _ Hr.
  pose proof (hand_set _ _ _ _ _ _ _ (λ e, set_ie_object e p) (ie_bits e) p (ie_request e) Hh eq_refl
    (same_high_refl _) ltac:(done)) as Hh2.
  apply hand_put_other in Hh2 as Hs2; simpl; rewrite ?Hty; [|done..].
  unfold entry_right in Hs2. simpl in Hs2. rewrite Hty, Hu, Hr in Hs2. by apply spaced_unlock.
Qed.

(** The entry gets a dead name, and the space is unlocked. *)
Lemma hand_dead sp caps name ep e :
  hand {[name]} sp caps name ep e false → entry_right e = Right MACH_PORT_TYPE_NONE 0 IO_NULL 0 →
  ∃ sp1 sp2, entry_dead sp ep = Ok sp1 ∧ is_write_unlock sp1 = Ok sp2 ∧
    released sp2 (<[name := Right MACH_PORT_TYPE_DEAD_NAME 1 IO_NULL 0]> caps).
Proof.
  intros Hh Her. unfold entry_dead. rewrite (hand_eread _ _ _ _ _ _ _ Hh). ostep.
  destruct (hand_enter _ _ _ _ _ (Z.lor MACH_PORT_TYPE_DEAD_NAME 1) Hh Her) as (e' & Hh' & Her'); [set_solver|].
  injection Her as _ _ -> _. simpl Z.eqb. ostep. eexists. 
  assert (IE_BITS_TYPE (ie_bits e') = MACH_PORT_TYPE_DEAD_NAME) as Ht by (by injection Her' as -> _).
  apply hand_put_other in Hh' as Hs; rewrite ?Ht; [|done..].
  destruct (spaced_unlock _ _ Hs) as (sp2 & Hrun & Hr). exists sp2. rewrite Her' in Hr. done.
Qed.

(** ** The account with a new object *)

Lemma tally_absent f caps p : (∀ n r, caps !! n = Some r → covers f p (r_type r) (r_object r) = 0) → tally f caps p = 0.
Proof.
  intros Hn. unfold tally. rewrite map_empty_filter_2; [by rewrite map_size_empty|].
  intros n r Hr Hx. specialize (Hn n r Hr). unfold covers in Hn. simpl in Hx. by rewrite Hx in Hn.
Qed.

Lemma carried_absent f tr p : (∀ t o, (t, o) ∈ tr → covers f p t o = 0) → carried f tr p = 0.
Proof.
  intros Hn. induction tr as [|[t o] tr IH]; [done|]. simpl. rewrite (Hn t o), IH; [done| |by left].
  intros t' o' Ht. apply Hn. by right.
Qed.

(** Nothing is held for an address that is not a port. *)
Lemma absent_port caps tr st p f :
  rights_ok caps tr st → ps_ports st !! p = None → (f = has_port ∨ f = has_send ∨ f = has_once) →
  tally f caps p = 0 ∧ carried f tr p = 0.
Proof.
  intros [Hr _ Ht] Hp Hf. split.
  - apply tally_absent. intros n r Hn. destruct (has_port (r_type r)) eqn:Hty; [|by apply covers_none].
    unfold covers. destruct (Z.eqb_spec (r_object r) p) as [<-|]; [|by rewrite andb_false_r].
    destruct (Hr n r Hn) as [(_ & _ & _ & port & Hx & _)|[(Hx & _)|(Hx & _)]]; [congruence|by rewrite Hx in Hty..].
  - apply carried_absent. intros t o Hin. destruct (has_port t) eqn:Hty; [|by apply covers_none].
    unfold covers. destruct (Z.eqb_spec o p) as [->|]; [|by rewrite andb_false_r].
    destruct (Ht t p Hin Hty) as [_ [port Hx]]. congruence.
Qed.

Lemma right_ok_grow name r st st' :
  right_ok name r st → ps_ports st ⊆ ps_ports st' → ps_psets st ⊆ ps_psets st' → right_ok name r st'.
Proof.
  intros [(Ht & Hu & Hz & port & Hp & Hn)|[Hx|(Ht & Hu & Hz & Hq & pset & Hp & Hn)]] Hps Hss.
  - left. split_and!; try done. exists port. split; [by eapply lookup_weaken|done].
  - right. by left.
  - right. right. split_and!; try done. exists pset. split; [by eapply lookup_weaken|done].
Qed.

(** A port that nobody has rights for but one reference. *)
Record new_port (port : ipc_port) : Prop := {
  np_refs : ip_references port = 1;
  np_srights : ip_srights port = 0;
  np_sorights : ip_sorights port = 0;
  np_requests : ip_dnrequests port = None;
}.

Lemma rights_new_port caps tr st st' p port :
  rights_ok caps tr st → ps_ports st !! p = None → p ≠ IO_NULL → new_port port →
  ps_ports st' = <[p := port]> (ps_ports st) → ps_psets st' = ps_psets st →
  rights_ok caps ((MACH_PORT_TYPE_RECEIVE, p) :: tr) st'.
Proof.
  intros Hok Hp Hz [Hrf Hsr Hso Hdn] Hps Hss. pose proof Hok as [Hr Hpo Ht].
  assert (ps_ports st ⊆ ps_ports st') as Hsub by (rewrite Hps; by apply insert_subseteq). split.
  - intros n r Hn. eapply right_ok_grow; [by apply Hr|done|by rewrite Hss].
  - intros q port' Hq. rewrite Hps in Hq. apply lookup_insert_Some in Hq as [[<- <-]|[Hne Hq]].
    + destruct (absent_port caps tr st p has_port Hok Hp) as [Ht1 Hc1]; [tauto|].
      destruct (absent_port caps tr st p has_send Hok Hp) as [Ht2 Hc2]; [tauto|].
      destruct (absent_port caps tr st p has_once Hok Hp) as [Ht3 Hc3]; [tauto|].
      split; [unfold port_dn_wf; by rewrite Hdn|..]; simpl; rewrite ?Ht1, ?Ht2, ?Ht3, ?Hc1, ?Hc2, ?Hc3, ?Hrf, ?Hsr, ?Hso;
        unfold covers; rewrite ?Z.eqb_refl; done.
    + destruct (Hpo q port' Hq) as [Hd Hrefs Hs Ho]. assert (∀ f, covers f q MACH_PORT_TYPE_RECEIVE p = 0) as Hc.
      { intros f. unfold covers. by rewrite (proj2 (Z.eqb_neq p q)), andb_false_r. }
      split; simpl; rewrite ?Hc; done.
  - intros t q [[= -> ->]|Hin]%elem_of_cons Hty; [by rewrite Hps, lookup_insert_eq|].
    destruct (Ht t q Hin Hty) as [? [port' Hq]]. split; [done|]. exists port'. by eapply lookup_weaken.
Qed.

(** A new object that is not held yet. *)
Lemma rights_new_pset caps tr st st' p pset :
  rights_ok caps tr st → ps_psets st !! p = None → ps_ports st' = ps_ports st →
  ps_psets st' = <[p := pset]> (ps_psets st) → rights_ok caps tr st'.
Proof.
  intros [Hr Hpo Ht] Hp Hps Hss. split; [|by rewrite Hps..].
  intros n r Hn. eapply right_ok_grow; [by apply Hr|by rewrite Hps|]. rewrite Hss. by apply insert_subseteq.
Qed.

(** Nothing happened to the objects but that time went on. *)
Record same_objects (st st' : pstate) : Prop := {
  so_ports : ps_ports st' = ps_ports st;
  so_psets : ps_psets st' = ps_psets st;
  so_notes : ps_notes st' = ps_notes st;
  so_woken : ps_woken st' = ps_woken st;
}.

Lemma settled_same sp st st' caps tr :
  released sp caps → rights_ok caps tr st → unlocked_ports st → same_objects st st' → settled sp st' caps tr.
Proof.
  intros Hr Hok Hu [Hp Hs _ _]. split; [done|by eapply rights_ext|]. intros q port. rewrite Hp. apply Hu.
Qed.

(** ** ipc_port_alloc *)

Definition fresh_port (name : Z) : ipc_port :=
  IP 1 true true name space_addr 0 0 0 IP_NULL IP_NULL None IPS_NULL 0 0 MACH_PORT_QLIMIT_DEFAULT [] ipc_mqueue_init 0 0 0.

(** The name has the receive right of a new port, which is locked. *)
Record port_made (caps : rights_t) (tr : transit_t) (st : pstate) (name p : Z) (sp' : istate) (st' : pstate) : Prop := {
  pm_name : caps !! name = None;
  pm_valid : IO_VALID p = true;
  pm_fresh : ps_ports st !! p = None ∧ ps_psets st !! p = None;
  pm_port : ps_ports st' = <[p := fresh_port name]> (ps_ports st);
  pm_psets : ps_psets st' = ps_psets st;
  pm_notes : ps_notes st' = ps_notes st;
  pm_space : released sp' (<[name := Right MACH_PORT_TYPE_RECEIVE 0 p 0]> caps);
  pm_rights : rights_ok (<[name := Right MACH_PORT_TYPE_RECEIVE 0 p 0]> caps) tr st';
  pm_receivers : receivers caps st → receivers (<[name := Right MACH_PORT_TYPE_RECEIVE 0 p 0]> caps) st';
}.

Lemma object_enter_port sp st caps name ep e p port :
  hand {[name]} sp caps name ep e false → entry_right e = Right MACH_PORT_TYPE_NONE 0 IO_NULL 0 →
  ps_ports st !! p = Some port → ip_locked port = false →
  ∃ sp', object_enter sp st IOT_PORT MACH_PORT_TYPE_RECEIVE 0 p ep =
    Ok (sp', put (ptick st) p (set_ip_kotype (set_ip_active (set_ip_references (set_ip_locked port true) 1) true) 0)) ∧
    released sp' (<[name := Right MACH_PORT_TYPE_RECEIVE 0 p 0]> caps).
Proof.
  intros Hh Her Hp Hl. unfold object_enter. rewrite (hand_eread _ _ _ _ _ _ _ Hh). ostep.
  destruct (hand_enter _ _ _ _ _ (Z.lor MACH_PORT_TYPE_RECEIVE 0) Hh Her) as (e' & Hh' & Her'); [set_solver|].
  destruct (hand_named _ _ _ _ _ _ _ p Hh' Her') as (sp' & Hrun & Hr); [done..|].
  unfold io_lock. simpl Z.eqb. cbv iota. rewrite (ip_lock_quiet st p port) by done. ostep. rewrite Hrun. ostep.
  unfold object_start. simpl Z.eqb. cbv iota. rewrite put_pmod. ostep. by exists sp'.
Qed.

Lemma receivers_new caps st st' name p :
  receivers caps st → caps !! name = None → name ≠ MACH_PORT_NULL → ps_ports st' = <[p := fresh_port name]> (ps_ports st) →
  receivers (<[name := Right MACH_PORT_TYPE_RECEIVE 0 p 0]> caps) st'.
Proof.
  intros Hr Hn Hz Hps q port Hq Ha Hsp. rewrite Hps in Hq. apply lookup_insert_Some in Hq as [[<- <-]|[Hne Hq]].
  - split; [done|]. eexists. simpl. by rewrite lookup_insert_eq.
  - destruct (Hr q port Hq Ha Hsp) as (Hx & r & Hc & Ho & Hty). split; [done|]. exists r.
    rewrite lookup_insert_ne by congruence. done.
Qed.

Lemma port_made_intro caps tr st name p sp' st' :
  rights_ok caps tr st → caps !! name = None → name ≠ MACH_PORT_NULL → IO_VALID p = true →
  ps_ports st !! p = None ∧ ps_psets st !! p = None →
  ps_ports st' = <[p := fresh_port name]> (ps_ports st) → ps_psets st' = ps_psets st → ps_notes st' = ps_notes st →
  released sp' (<[name := Right MACH_PORT_TYPE_RECEIVE 0 p 0]> caps) →
  port_made caps tr st name p sp' st'.
Proof.
  intros Hok Hn Hz Hv [Hp Hs] Hps Hss Hns Hr. assert (p ≠ IO_NULL) as Hpz by (by intros ->).
  split; try done; [|by intros Hrc; eapply receivers_new].
  apply rights_put; [by apply (rights_new_port caps tr st _ p (fresh_port name))|done|]. left. split_and!; [done|right; by left|done|].
  exists (fresh_port name). rewrite Hps, lookup_insert_eq. split; [done|]. split; [by intros []|done].
Qed.

(** The port is freed again. *)
Lemma port_freed sp st caps tr p :
  released sp caps → rights_ok caps tr st → unlocked_ports st → ps_ports st !! p = None →
  let st' := io_free (with_ports (ptick st) (<[p := ip_zero]>)) IOT_PORT p in
  settled sp st' caps tr ∧ same_objects st st'.
Proof.
  intros Hr Hok Hu Hp st'. assert (same_objects st st') as Hsame.
  { split; try done. simpl. by rewrite delete_insert_id. }
  split; [by apply (settled_same _ st)|done].
Qed.

Lemma port_alloc_spec sp st caps tr :
  settled sp st caps tr →
  match ipc_port_alloc sp st with
  | Ok (sp', st', (KERN_SUCCESS, Some (name, p))) =>
      MACH_PORT_VALID name = true ∧ port_made caps tr st name p sp' st'
  | Ok (sp', st', (KERN_RESOURCE_SHORTAGE, None)) => settled sp' st' caps tr ∧ same_objects st st'
  | Ok _ => False
  | Fault f => f = FDeref ∧ exhausted caps
  end.
Proof.
  intros [Hrel Hok Hu]. unfold ipc_port_alloc, ipc_object_alloc, io_alloc.
  change (assert_alloc IOT_PORT MACH_PORT_TYPE_RECEIVE 0) with (Ok tt). ostep.
  destruct (pw_alloc _ _) as [p|] eqn:Hal; [|ostep; by split; [apply (settled_same _ st)|]].
  apply fresh_object in Hal as (Hv & Hfresh). simpl Z.eqb. cbv iota. set (st1 := with_ports _ _).
  pose proof (alloc_hand sp caps Hrel) as Hal. destruct (ipc_entry_alloc sp) as [[sp1 [kr o]]|f]; [|done].
  destruct kr; try done.
  - destruct o as [[name ep]|]; [|done]. destruct Hal as (Hn & Hval & e & Hh & Her). ostep.
    destruct (object_enter_port sp1 st1 caps name ep e p ip_zero Hh Her) as (sp2 & -> & Hr); [apply lookup_insert_eq|done|].
    ostep. unfold ipc_port_init. rewrite put_pmod. ostep. split; [done|].
    apply port_made_intro; try done; [by intros ->|]. simpl. by rewrite insert_insert_eq.
  - destruct o; [done|]. ostep. by apply port_freed; [..|apply Hfresh].
Qed.

(** The same with the name given by the caller. *)
Lemma port_alloc_name_spec sp st caps tr name :
  settled sp st caps tr → name_ok name →
  match ipc_port_alloc_name sp st name with
  | Ok (sp', st', (KERN_SUCCESS, Some p)) => port_made caps tr st name p sp' st'
  | Ok (sp', st', (KERN_NAME_EXISTS, None)) => caps !! name ≠ None ∧ settled sp' st' caps tr ∧ same_objects st st'
  | Ok (sp', st', (KERN_RESOURCE_SHORTAGE, None)) => settled sp' st' caps tr ∧ same_objects st st'
  | Ok (sp', st', (KERN_FAILURE, None)) => is_fast (st_space sp) = true ∧ settled sp' st' caps tr ∧ same_objects st st'
  | _ => False
  end.
Proof.
  intros [Hrel Hok Hu] Hnok. unfold ipc_port_alloc_name, ipc_object_alloc_name, io_alloc.
  change (assert_alloc IOT_PORT MACH_PORT_TYPE_RECEIVE 0) with (Ok tt). ostep.
  destruct (pw_alloc _ _) as [p|] eqn:Hal; [|ostep; by split; [apply (settled_same _ st)|]].
  apply fresh_object in Hal as (Hv & Hfresh). simpl Z.eqb. cbv iota. set (st1 := with_ports _ _).
  pose proof (λ sp' Hr, port_freed sp' st caps tr p Hr Hok Hu (proj1 Hfresh)) as Hfree.
  pose proof (alloc_name_hand sp caps name Hrel Hnok) as Hal. destruct (ipc_entry_alloc_name sp name) as [[sp1 [kr o]]|f]; [|done].
  destruct kr, o as [ep|]; try done; ostep.
  - destruct (caps !! name) as [r|] eqn:Hn.
    + destruct Hal as (e & Hat & _). destruct (inuse_found _ _ _ _ _ Hat) as (sp2 & -> & Hr). ostep.
      split; [done|by apply Hfree].
    + destruct Hal as (e & Hh & Her). rewrite (inuse_blank _ _ _ _ _ Hh Her). ostep.
      destruct (object_enter_port sp1 st1 caps name ep e p ip_zero Hh Her) as (sp2 & -> & Hr); [apply lookup_insert_eq|done|].
      ostep. unfold ipc_port_init. rewrite put_pmod. ostep.
      apply port_made_intro; try done; [|simpl; by rewrite insert_insert_eq].
      destruct Hnok as (_ & Hx & _). by intros ->.
  - destruct Hal. split; [done|by apply Hfree].
  - by apply Hfree.
Qed.

(** ** ipc_pset_alloc *)

Definition fresh_pset (name : Z) : ipc_pset := IPS 1 true true name ipc_mqueue_init.

(** The name has a new port set, which is locked. *)
Record pset_made (caps : rights_t) (tr : transit_t) (st : pstate) (name p : Z) (sp' : istate) (st' : pstate) : Prop := {
  sm_name : caps !! name = None;
  sm_valid : IO_VALID p = true;
  sm_fresh : ps_ports st !! p = None ∧ ps_psets st !! p = None;
  sm_ports : ps_ports st' = ps_ports st;
  sm_pset : ps_psets st' = <[p := fresh_pset name]> (ps_psets st);
  sm_notes : ps_notes st' = ps_notes st;
  sm_space : settled sp' st' (<[name := Right MACH_PORT_TYPE_PORT_SET 0 p 0]> caps) tr;
}.

Lemma pset_enter sp st caps tr name ep e p :
  hand {[name]} sp caps name ep e false → entry_right e = Right MACH_PORT_TYPE_NONE 0 IO_NULL 0 →
  rights_ok caps tr st → unlocked_ports st → IO_VALID p = true → caps !! name = None →
  ps_ports st !! p = None ∧ ps_psets st !! p = None →
  ∃ sp' st', ('(sp, st) ← object_enter sp (with_psets (ptick st) (<[p := ips_zero]>)) IOT_PORT_SET MACH_PORT_TYPE_PORT_SET 0 p ep;
      st ← smod st p (λ s, set_ips_messages (set_ips_local_name s name) ipc_mqueue_init);
      Ok (sp, st)) = Ok (sp', st') ∧ pset_made caps tr st name p sp' st'.
Proof.
  intros Hh Her Hok Hu Hv Hn [Hp Hs]. unfold object_enter. rewrite (hand_eread _ _ _ _ _ _ _ Hh). ostep.
  destruct (hand_enter _ _ _ _ _ (Z.lor MACH_PORT_TYPE_PORT_SET 0) Hh Her) as (e' & Hh' & Her'); [set_solver|].
  destruct (hand_named _ _ _ _ _ _ _ p Hh' Her') as (sp' & Hrun & Hr); [done..|].
  unfold io_lock, object_start. simpl Z.eqb. cbv iota.
  rewrite (ips_lock_quiet _ p ips_zero) by (done || apply lookup_insert_eq). ostep. rewrite Hrun. ostep.
  rewrite (smod_spec _ _ _ _ (lookup_insert_eq _ _ _)). ostep.
  rewrite (smod_spec _ _ _ _ (lookup_insert_eq _ _ _)). ostep. eexists _, _. split; [done|].
  set (st' := sput _ _ _). assert (ps_psets st' = <[p := fresh_pset name]> (ps_psets st)) as Hss.
  { simpl. by rewrite !insert_insert_eq. }
  split; [done..|]. split; [done| |done].
  apply rights_put; [|done|].
  - apply rights_skip; [done|]. by eapply rights_new_pset.
  - right. right. assert (p ≠ IO_NULL) by (by intros ->). split_and!; [done..|].
    exists (fresh_pset name). rewrite Hss, lookup_insert_eq. done.
Qed.

Lemma pset_freed sp st caps tr p :
  released sp caps → rights_ok caps tr st → unlocked_ports st → ps_psets st !! p = None →
  let st' := io_free (with_psets (ptick st) (<[p := ips_zero]>)) IOT_PORT_SET p in
  settled sp st' caps tr ∧ same_objects st st'.
Proof.
  intros Hr Hok Hu Hp st'. assert (same_objects st st') as Hsame.
  { split; try done. simpl. by rewrite delete_insert_id. }
  split; [by apply (settled_same _ st)|done].
Qed.

Lemma pset_alloc_spec sp st caps tr :
  settled sp st caps tr →
  match ipc_pset_alloc sp st with
  | Ok (sp', st', (KERN_SUCCESS, Some (name, p))) =>
      MACH_PORT_VALID name = true ∧ pset_made caps tr st name p sp' st'
  | Ok (sp', st', (KERN_RESOURCE_SHORTAGE, None)) => settled sp' st' caps tr ∧ same_objects st st'
  | Ok _ => False
  | Fault f => f = FDeref ∧ exhausted caps
  end.
Proof.
  intros [Hrel Hok Hu]. unfold ipc_pset_alloc, ipc_object_alloc, io_alloc.
  change (assert_alloc IOT_PORT_SET MACH_PORT_TYPE_PORT_SET 0) with (Ok tt). ostep.
  destruct (pw_alloc _ _) as [p|] eqn:Hal; [|ostep; by split; [apply (settled_same _ st)|]].
  apply fresh_object in Hal as (Hv & Hfresh). simpl Z.eqb. cbv iota.
  pose proof (alloc_hand sp caps Hrel) as Hal. destruct (ipc_entry_alloc sp) as [[sp1 [kr o]]|f]; [|done].
  destruct kr; try done.
  - destruct o as [[name ep]|]; [|done]. destruct Hal as (Hn & Hval & e & Hh & Her). ostep.
    destruct (pset_enter sp1 st caps tr name ep e p) as (sp2 & st2 & Hrun & Hm); [done..|].
    apply outcome_bind_ok in Hrun as ([sp3 st3] & -> & Hrun). ostep.
    apply outcome_bind_ok in Hrun as (st4 & -> & [= -> ->]). ostep. done.
  - destruct o; [done|]. ostep. by apply pset_freed; [..|apply Hfresh].
Qed.

Lemma pset_alloc_name_spec sp st caps tr name :
  settled sp st caps tr → name_ok name →
  match ipc_pset_alloc_name sp st name with
  | Ok (sp', st', (KERN_SUCCESS, Some p)) => pset_made caps tr st name p sp' st'
  | Ok (sp', st', (KERN_NAME_EXISTS, None)) => caps !! name ≠ None ∧ settled sp' st' caps tr ∧ same_objects st st'
  | Ok (sp', st', (KERN_RESOURCE_SHORTAGE, None)) => settled sp' st' caps tr ∧ same_objects st st'
  | Ok (sp', st', (KERN_FAILURE, None)) => is_fast (st_space sp) = true ∧ settled sp' st' caps tr ∧ same_objects st st'
  | _ => False
  end.
Proof.
  intros [Hrel Hok Hu] Hnok. unfold ipc_pset_alloc_name, ipc_object_alloc_name, io_alloc.
  change (assert_alloc IOT_PORT_SET MACH_PORT_TYPE_PORT_SET 0) with (Ok tt). ostep.
  destruct (pw_alloc _ _) as [p|] eqn:Hal; [|ostep; by split; [apply (settled_same _ st)|]].
  apply fresh_object in Hal as (Hv & Hfresh). simpl Z.eqb. cbv iota.
  pose proof (λ sp' Hr, pset_freed sp' st caps tr p Hr Hok Hu (proj2 Hfresh)) as Hfree.
  pose proof (alloc_name_hand sp caps name Hrel Hnok) as Hal. destruct (ipc_entry_alloc_name sp name) as [[sp1 [kr o]]|f]; [|done].
  destruct kr, o as [ep|]; try done; ostep.
  - destruct (caps !! name) as [r|] eqn:Hn.
    + destruct Hal as (e & Hat & _). destruct (inuse_found _ _ _ _ _ Hat) as (sp2 & -> & Hr). ostep.
      split; [done|by apply Hfree].
    + destruct Hal as (e & Hh & Her). rewrite (inuse_blank _ _ _ _ _ Hh Her). ostep.
      destruct (pset_enter sp1 st caps tr name ep e p) as (sp2 & st2 & Hrun & Hm); [done..|].
      apply outcome_bind_ok in Hrun as ([sp3 st3] & -> & Hrun). ostep.
      apply outcome_bind_ok in Hrun as (st4 & -> & [= -> ->]). ostep. done.
  - destruct Hal. split; [done|by apply Hfree].
  - by apply Hfree.
Qed.

(** ** Dead names *)

Lemma rights_dead_name caps tr st name :
  rights_ok caps tr st → caps !! name = None →
  rights_ok (<[name := Right MACH_PORT_TYPE_DEAD_NAME 1 IO_NULL 0]> caps) tr st.
Proof.
  intros Hok Hn. apply rights_put; [by apply rights_skip|done|]. right. left. done.
Qed.

Lemma alloc_dead_spec sp st caps tr :
  settled sp st caps tr →
  match ipc_object_alloc_dead sp with
  | Ok (sp', (KERN_SUCCESS, Some name)) => MACH_PORT_VALID name = true ∧ caps !! name = None ∧
      settled sp' st (<[name := Right MACH_PORT_TYPE_DEAD_NAME 1 IO_NULL 0]> caps) tr
  | Ok (sp', (KERN_RESOURCE_SHORTAGE, None)) => settled sp' st caps tr
  | Ok _ => False
  | Fault f => f = FDeref ∧ exhausted caps
  end.
Proof.
  intros [Hrel Hok Hu]. unfold ipc_object_alloc_dead.
  pose proof (alloc_hand sp caps Hrel) as Hal. destruct (ipc_entry_alloc sp) as [[sp1 [kr o]]|f]; [|done].
  destruct kr; try done.
  - destruct o as [[name ep]|]; [|done]. destruct Hal as (Hn & Hval & e & Hh & Her). ostep.
    destruct (hand_dead _ _ _ _ _ Hh Her) as (sp2 & sp3 & -> & Hrun & Hr). ostep. rewrite Hrun. ostep.
    split_and!; [done..|]. split; [done|by apply rights_dead_name|done].
  - destruct o; [done|]. by ostep.
Qed.

Lemma alloc_dead_name_spec sp st caps tr name :
  settled sp st caps tr → name_ok name →
  match ipc_object_alloc_dead_name sp name with
  | Ok (sp', KERN_SUCCESS) => caps !! name = None ∧
      settled sp' st (<[name := Right MACH_PORT_TYPE_DEAD_NAME 1 IO_NULL 0]> caps) tr
  | Ok (sp', KERN_NAME_EXISTS) => caps !! name ≠ None ∧ settled sp' st caps tr
  | Ok (sp', KERN_RESOURCE_SHORTAGE) => settled sp' st caps tr
  | Ok (sp', KERN_FAILURE) => is_fast (st_space sp) = true ∧ settled sp' st caps tr
  | _ => False
  end.
Proof.
  intros [Hrel Hok Hu] Hnok. unfold ipc_object_alloc_dead_name.
  pose proof (alloc_name_hand sp caps name Hrel Hnok) as Hal. destruct (ipc_entry_alloc_name sp name) as [[sp1 [kr o]]|f]; [|done].
  destruct kr, o as [ep|]; try done; ostep.
  - destruct (caps !! name) as [r|] eqn:Hn.
    + destruct Hal as (e & Hat & _). destruct (inuse_found _ _ _ _ _ Hat) as (sp2 & -> & Hr). by ostep.
    + destruct Hal as (e & Hh & Her). rewrite (inuse_blank _ _ _ _ _ Hh Her). ostep.
      destruct (hand_dead _ _ _ _ _ Hh Her) as (sp2 & sp3 & -> & Hrun & Hr). ostep. rewrite Hrun. ostep.
      split; [done|]. split; [done|by apply rights_dead_name|done].
  - by destruct Hal.
Qed.

Theorem port_alloc_correct sp st caps tr :
  settled sp st caps tr →
  match ipc_port_alloc sp st with
  | Ok (sp', st', (KERN_SUCCESS, Some (name, p))) =>
      MACH_PORT_VALID name = true ∧ port_made caps tr st name p sp' st'
  | Ok (sp', st', (KERN_RESOURCE_SHORTAGE, None)) => settled sp' st' caps tr ∧ same_objects st st'
  | Ok _ => False
  | Fault f => f = FDeref ∧ exhausted caps
  end.
Proof. apply port_alloc_spec. Qed.
End object_alloc.
