(* ===== verification/MachPortCall.v ===== *)
(** * The system calls on ports (ipc/mach_port.c)

    What a task can ask the kernel to do with the names of a space.  Nothing
    is locked before or after a call.  [space] is the address of the space,
    which is null if the task has none; otherwise the state is that of the
    space. *)

From stdpp Require Import prelude list gmap.
From S2P Require Import Prelude MachPort IpcSplay IpcTypes IpcHash IpcTable IpcEntry IpcPort IpcPset IpcDestroy IpcRight IpcObject.

Definition IS_NULL : Z := 0.
Definition SUBSYSTEM_NULL : Z := 0.

(** mach/port.h: the options of an allocation *)
Record mach_port_qos := QOS {
  qos_name : bool;
  qos_rt : bool;
}.
Definition qos_template : mach_port_qos := QOS false false.

(** The send rights of every port are counted: [IP_NMS] is set when a port is
    made, and only distributed IPC clears it. *)
Definition IP_NMS (port : ipc_port) : bool := true.

(** mach/message.h *)
Definition MACH_MSG_TYPE_PORT_ANY (x : Z) : bool :=
  (MACH_MSG_TYPE_MOVE_RECEIVE <=? x) && (x <=? MACH_MSG_TYPE_MAKE_SEND_ONCE).
Definition MACH_MSG_TYPE_PORT_ANY_RIGHT (x : Z) : bool :=
  (MACH_MSG_TYPE_MOVE_RECEIVE <=? x) && (x <=? MACH_MSG_TYPE_MOVE_SEND_ONCE).

(** mach/notify.h *)
Definition MACH_NOTIFY_PORT_DESTROYED : Z := 69.
Definition MACH_NOTIFY_NO_SENDERS : Z := 70.
Definition MACH_NOTIFY_DEAD_NAME : Z := 72.

(** mach/port.h: attributes *)
Definition MACH_PORT_LIMITS_INFO : Z := 1.
Definition MACH_PORT_RECEIVE_STATUS : Z := 2.
Definition MACH_PORT_DNREQUESTS_SIZE : Z := 3.
Definition MACH_PORT_LIMITS_INFO_COUNT : Z := 1.
Definition MACH_PORT_RECEIVE_STATUS_COUNT : Z := 10.
Definition MACH_PORT_DNREQUESTS_SIZE_COUNT : Z := 1.
Definition MACH_PORT_QLIMIT_MAX : Z := 16.

Record mach_port_status := MPS {
  mps_pset : Z;
  mps_seqno : Z;
  mps_mscount : Z;
  mps_qlimit : Z;
  mps_msgcount : Z;
  mps_sorights : Z;
  mps_srights : bool;
  mps_pdrequest : bool;
  mps_nsrequest : bool;
  mps_flags : Z;
}.

(** What [mach_port_get_attributes] writes to [info]. *)
Inductive attributes :=
  | limits_info (mpl_qlimit : Z)
  | receive_status (status : mach_port_status)
  | dnrequests_size (size : Z).

Section calls.
Context {IW : iworld} {PW : pworld}.

(** ** Looking at a right *)

Definition mach_port_type (space : Z) (sp : istate) (st : pstate) (name : Z) :
    outcome (istate * pstate * (kern_return * Z)) :=
  if space =? IS_NULL then Ok (sp, st, (KERN_INVALID_TASK, 0))
  else
    '(sp, (kr, found)) ← ipc_right_lookup_write sp name;
    match found with
    | None => Ok (sp, st, (kr, 0))
    | Some entry =>
      '(sp, st, (type, urefs)) ← ipc_right_info sp st name entry;
      sp ← is_write_unlock sp;
      Ok (sp, st, (KERN_SUCCESS, type))
    end.

(** The user references of a right of a type, once the space is unlocked. *)
Definition refs_of (type urefs right : Z) : outcome Z :=
  if has type (MACH_PORT_TYPE right) then
    if right =? MACH_PORT_RIGHT_SEND_ONCE then
      kassert (urefs =? 1);;
      Ok 1
    else if (right =? MACH_PORT_RIGHT_PORT_SET) || (right =? MACH_PORT_RIGHT_RECEIVE) then Ok 1
    else if (right =? MACH_PORT_RIGHT_DEAD_NAME) || (right =? MACH_PORT_RIGHT_SEND) then
      kassert (0 <? urefs);;
      Ok urefs
    else Fault FPanic
  else Ok 0.

Definition mach_port_get_refs (space : Z) (sp : istate) (st : pstate) (name right : Z) :
    outcome (istate * pstate * (kern_return * Z)) :=
  if space =? IS_NULL then Ok (sp, st, (KERN_INVALID_TASK, 0))
  else if MACH_PORT_RIGHT_NUMBER <=? right then Ok (sp, st, (KERN_INVALID_VALUE, 0))
  else
    '(sp, (kr, found)) ← ipc_right_lookup_write sp name;
    match found with
    | None => Ok (sp, st, (kr, 0))
    | Some entry =>
      '(sp, st, (type, urefs)) ← ipc_right_info sp st name entry;
      sp ← is_write_unlock sp;
      refs ← refs_of type urefs right;
      Ok (sp, st, (KERN_SUCCESS, refs))
    end.

(** ** Names *)

Definition mach_port_rename (space : Z) (sp : istate) (st : pstate) (oname nname : Z) :
    outcome (istate * pstate * kern_return) :=
  if space =? IS_NULL then Ok (sp, st, KERN_INVALID_TASK)
  else if negb (MACH_PORT_VALID nname) then Ok (sp, st, KERN_INVALID_VALUE)
  else ipc_object_rename sp st oname nname.

(** [if (subsystem != SUBSYSTEM_NULL) ...; ip_unlock(port)] *)
Definition port_finish (st : pstate) (subsystem port : Z) : outcome pstate :=
  st ← (if negb (subsystem =? SUBSYSTEM_NULL) then
          st ← pmod st port (λ port, set_ip_subsystem port subsystem);
          Ok (notify st (subsystem_reference subsystem))
        else Ok st);
  ip_unlock st port.

(** The case [MACH_PORT_RIGHT_RECEIVE]; the name that is allocated is
    returned through [namep]. *)
Definition allocate_receive (sp : istate) (st : pstate) (subsystem : Z) (given : bool) (name : Z) :
    outcome (istate * pstate * (kern_return * Z)) :=
  '(sp, st, (kr, res)) ←
    (if given then
       '(sp, st, (kr, port)) ← ipc_port_alloc_name sp st name;
       Ok (sp, st, (kr, option_map (pair name) port))
     else ipc_port_alloc sp st);
  match res with
  | None => Ok (sp, st, (kr, name))
  | Some (name, port) =>
    st ← port_finish st subsystem port;
    Ok (sp, st, (kr, name))
  end.

Definition allocate_port_set (sp : istate) (st : pstate) (given : bool) (name : Z) :
    outcome (istate * pstate * (kern_return * Z)) :=
  '(sp, st, (kr, res)) ←
    (if given then
       '(sp, st, (kr, pset)) ← ipc_pset_alloc_name sp st name;
       Ok (sp, st, (kr, option_map (pair name) pset))
     else ipc_pset_alloc sp st);
  match res with
  | None => Ok (sp, st, (kr, name))
  | Some (name, pset) =>
    st ← ips_unlock st pset;
    Ok (sp, st, (kr, name))
  end.

Definition allocate_dead_name (sp : istate) (st : pstate) (name : Z) :
    outcome (istate * pstate * (kern_return * Z)) :=
  '(sp, (kr, res)) ← ipc_object_alloc_dead sp;
  Ok (sp, st, (kr, default name res)).

Definition mach_port_allocate_full (space : Z) (sp : istate) (st : pstate) (right subsystem : Z)
    (qos : mach_port_qos) (name : Z) : outcome (istate * pstate * (kern_return * Z)) :=
  if space =? IS_NULL then Ok (sp, st, (KERN_INVALID_TASK, name))
  else if qos_name qos && negb (MACH_PORT_VALID name) then Ok (sp, st, (KERN_INVALID_VALUE, name))
  else if qos_name qos && is_fast (st_space sp) then Ok (sp, st, (KERN_FAILURE, name))
  else if negb (subsystem =? SUBSYSTEM_NULL) && negb (right =? MACH_PORT_RIGHT_RECEIVE)
  then Ok (sp, st, (KERN_INVALID_VALUE, name))
  else if qos_rt qos then Ok (sp, st, (KERN_INVALID_ARGUMENT, name))
  else if right =? MACH_PORT_RIGHT_RECEIVE then allocate_receive sp st subsystem (qos_name qos) name
  else if right =? MACH_PORT_RIGHT_PORT_SET then allocate_port_set sp st (qos_name qos) name
  else if right =? MACH_PORT_RIGHT_DEAD_NAME then allocate_dead_name sp st name
  else Ok (sp, st, (KERN_INVALID_VALUE, name)).

Definition mach_port_allocate_name (space : Z) (sp : istate) (st : pstate) (right name : Z) :
    outcome (istate * pstate * kern_return) :=
  '(sp, st, (kr, _)) ← mach_port_allocate_full space sp st right SUBSYSTEM_NULL (QOS true (qos_rt qos_template)) name;
  Ok (sp, st, kr).

Definition mach_port_allocate (space : Z) (sp : istate) (st : pstate) (right name : Z) :
    outcome (istate * pstate * (kern_return * Z)) :=
  mach_port_allocate_full space sp st right SUBSYSTEM_NULL qos_template name.

Definition mach_port_allocate_qos (space : Z) (sp : istate) (st : pstate) (right : Z) (qos : mach_port_qos)
    (name : Z) : outcome (istate * pstate * (kern_return * Z)) :=
  mach_port_allocate_full space sp st right SUBSYSTEM_NULL qos name.

Definition mach_port_allocate_subsystem (space : Z) (sp : istate) (st : pstate) (subsystem name : Z) :
    outcome (istate * pstate * (kern_return * Z)) :=
  mach_port_allocate_full space sp st MACH_PORT_RIGHT_RECEIVE subsystem qos_template name.

(** ** Giving up rights *)

Definition mach_port_destroy (space : Z) (sp : istate) (st : pstate) (name : Z) :
    outcome (istate * pstate * kern_return) :=
  if space =? IS_NULL then Ok (sp, st, KERN_INVALID_TASK)
  else
    '(sp, (kr, found)) ← ipc_right_lookup_write sp name;
    match found with
    | None => Ok (sp, st, kr)
    | Some entry => ipc_right_destroy sp st name entry
    end.

Definition mach_port_deallocate (space : Z) (sp : istate) (st : pstate) (name : Z) :
    outcome (istate * pstate * kern_return) :=
  if space =? IS_NULL then Ok (sp, st, KERN_INVALID_TASK)
  else
    '(sp, (kr, found)) ← ipc_right_lookup_write sp name;
    match found with
    | None => Ok (sp, st, kr)
    | Some entry => ipc_right_dealloc sp st name entry
    end.

Definition mach_port_mod_refs (space : Z) (sp : istate) (st : pstate) (name right delta : Z) :
    outcome (istate * pstate * kern_return) :=
  if space =? IS_NULL then Ok (sp, st, KERN_INVALID_TASK)
  else if MACH_PORT_RIGHT_NUMBER <=? right then Ok (sp, st, KERN_INVALID_VALUE)
  else
    '(sp, (kr, found)) ← ipc_right_lookup_write sp name;
    match found with
    | None => Ok (sp, st, kr)
    | Some entry => ipc_right_delta sp st name entry right delta
    end.

(** ** Receive rights *)

(** [ipc_port_translate_receive] *)
Definition ipc_port_translate_receive (sp : istate) (st : pstate) (name : Z) :
    outcome (istate * pstate * (kern_return * option Z)) :=
  ipc_object_translate sp st name MACH_PORT_RIGHT_RECEIVE.

(** A call that works on the port of a receive right: [body] gets the port
    locked, and unlocks it. *)
Definition with_receive {A} (sp : istate) (st : pstate) (name : Z) (none : A)
    (body : istate → pstate → Z → outcome (istate * pstate * (kern_return * A))) :
    outcome (istate * pstate * (kern_return * A)) :=
  '(sp, st, (kr, res)) ← ipc_port_translate_receive sp st name;
  match res with
  | None => Ok (sp, st, (kr, none))
  | Some port => body sp st port
  end.

Definition mach_port_set_mscount (space : Z) (sp : istate) (st : pstate) (name mscount : Z) :
    outcome (istate * pstate * (kern_return * unit)) :=
  if space =? IS_NULL then Ok (sp, st, (KERN_INVALID_TASK, tt))
  else
    with_receive sp st name tt (λ sp st port,
      st ← ipc_port_set_mscount st port mscount;
      st ← ip_unlock st port;
      Ok (sp, st, (KERN_SUCCESS, tt))).

Definition mach_port_set_seqno (space : Z) (sp : istate) (st : pstate) (name seqno : Z) :
    outcome (istate * pstate * (kern_return * unit)) :=
  if space =? IS_NULL then Ok (sp, st, (KERN_INVALID_TASK, tt))
  else
    with_receive sp st name tt (λ sp st port,
      st ← ipc_port_set_seqno st port seqno;
      st ← ip_unlock st port;
      Ok (sp, st, (KERN_SUCCESS, tt))).

Definition mach_port_move_member (space : Z) (sp : istate) (st : pstate) (member after : Z) :
    outcome (istate * pstate * kern_return) :=
  if space =? IS_NULL then Ok (sp, st, KERN_INVALID_TASK)
  else
    '(sp, (kr, found)) ← ipc_right_lookup_write sp member;
    match found with
    | None => Ok (sp, st, kr)
    | Some entry =>
      e ← eread sp entry;
      if Z.land (ie_bits e) MACH_PORT_TYPE_RECEIVE =? 0 then
        sp ← is_write_unlock sp;
        Ok (sp, st, KERN_INVALID_RIGHT)
      else
        let port := ie_object e in
        kassert (negb (port =? IP_NULL));;
        '(sp, nset) ←
          (if after =? MACH_PORT_NULL then Ok (sp, inr IPS_NULL)
           else
             '(sp, found) ← ipc_entry_lookup sp after;
             match found with
             | None =>
               sp ← is_write_unlock sp;
               Ok (sp, inl KERN_INVALID_NAME)
             | Some entry =>
               e ← eread sp entry;
               if Z.land (ie_bits e) MACH_PORT_TYPE_PORT_SET =? 0 then
                 sp ← is_write_unlock sp;
                 Ok (sp, inl KERN_INVALID_RIGHT)
               else
                 kassert (negb (ie_object e =? IPS_NULL));;
                 Ok (sp, inr (ie_object e))
             end);
        match nset with
        | inl kr => Ok (sp, st, kr)
        | inr nset => ipc_pset_move sp st port nset
        end
    end.

(** [fuel] bounds the retries of [ipc_right_dnrequest]. *)
Definition mach_port_request_notification (fuel : nat) (space : Z) (sp : istate) (st : pstate)
    (name id sync notify_port : Z) : outcome (istate * pstate * (kern_return * Z)) :=
  if space =? IS_NULL then Ok (sp, st, (KERN_INVALID_TASK, IP_NULL))
  else if notify_port =? IP_DEAD then Ok (sp, st, (KERN_INVALID_CAPABILITY, IP_NULL))
  else if id =? MACH_NOTIFY_PORT_DESTROYED then
    if negb (sync =? 0) then Ok (sp, st, (KERN_INVALID_VALUE, IP_NULL))
    else
      with_receive sp st name IP_NULL (λ sp st port,
        '(st, previous) ← ipc_port_pdrequest st port notify_port;
        Ok (sp, st, (KERN_SUCCESS, previous)))
  else if id =? MACH_NOTIFY_NO_SENDERS then
    with_receive sp st name IP_NULL (λ sp st port,
      p ← pget st port;
      if negb (IP_NMS p) then
        st ← ip_unlock st port;
        Ok (sp, st, (KERN_INVALID_RIGHT, IP_NULL))
      else
        '(st, previous) ← ipc_port_nsrequest st port sync notify_port;
        Ok (sp, st, (KERN_SUCCESS, previous)))
  else if id =? MACH_NOTIFY_DEAD_NAME then
    ipc_right_dnrequest fuel sp st name (negb (sync =? 0)) notify_port
  else Ok (sp, st, (KERN_INVALID_VALUE, IP_NULL)).

(** ** Rights from and to other spaces *)

Definition mach_port_insert_right (space : Z) (sp : istate) (st : pstate) (name poly polyPoly : Z) :
    outcome (istate * pstate * kern_return) :=
  if space =? IS_NULL then Ok (sp, st, KERN_INVALID_TASK)
  else if negb (MACH_PORT_VALID name) || negb (MACH_MSG_TYPE_PORT_ANY_RIGHT polyPoly)
  then Ok (sp, st, KERN_INVALID_VALUE)
  else if negb (IO_VALID poly) then Ok (sp, st, KERN_INVALID_CAPABILITY)
  else ipc_object_copyout_name sp st poly polyPoly false name.

Definition mach_port_extract_right (space : Z) (sp : istate) (st : pstate) (name msgt_name : Z) :
    outcome (istate * pstate * (kern_return * option (Z * Z))) :=
  if space =? IS_NULL then Ok (sp, st, (KERN_INVALID_TASK, None))
  else if negb (MACH_MSG_TYPE_PORT_ANY msgt_name) then Ok (sp, st, (KERN_INVALID_VALUE, None))
  else
    '(sp, st, (kr, poly)) ← ipc_object_copyin sp st name msgt_name;
    match poly with
    | None => Ok (sp, st, (kr, None))
    | Some poly =>
      polyPoly ← ipc_object_copyin_type msgt_name;
      Ok (sp, st, (kr, Some (poly, polyPoly)))
    end.

(** ** Attributes *)

(** The port set and the sequence number: the lock of the queue that the
    messages of the port are in is taken. *)
Definition status_seqno (st : pstate) (q : mqptr) (port : Z) : outcome (pstate * Z) :=
  st ← imq_lock st q;
  p ← pget st port;
  st ← imq_unlock st q;
  Ok (st, ip_seqno p).

Definition status_pset (st : pstate) (port : Z) : outcome (pstate * (Z * Z)) :=
  p ← pget st port;
  let pset := ip_pset p in
  '(st, found) ←
    (if negb (pset =? IPS_NULL) then
       st ← ips_lock st pset;
       s ← sget st pset;
       if negb (ips_active s) then
         st ← ipc_pset_remove st pset port;
         st ← ips_check_unlock st pset;
         Ok (st, None)
       else
         '(st, seqno) ← status_seqno st (MQ_pset pset) port;
         st ← ips_unlock st pset;
         kassert (MACH_PORT_VALID (ips_local_name s));;
         Ok (st, Some (ips_local_name s, seqno))
     else Ok (st, None));
  match found with
  | Some res => Ok (st, res)
  | None =>
    '(st, seqno) ← status_seqno st (MQ_port port) port;
    Ok (st, (MACH_PORT_NULL, seqno))
  end.

(** [ip_flags] is zero but for real-time ports. *)
Definition port_status (p : ipc_port) (pset seqno : Z) : mach_port_status :=
  MPS pset seqno (ip_mscount p) (ip_qlimit p) (ip_msgcount p) (ip_sorights p) (0 <? ip_srights p)
    (negb (ip_pdrequest p =? IP_NULL)) (negb (ip_nsrequest p =? IP_NULL)) 0.

Definition mach_port_get_attributes (space : Z) (sp : istate) (st : pstate) (name flavor count : Z) :
    outcome (istate * pstate * (kern_return * option (attributes * Z))) :=
  if space =? IS_NULL then Ok (sp, st, (KERN_INVALID_TASK, None))
  else if flavor =? MACH_PORT_LIMITS_INFO then
    if count <? MACH_PORT_LIMITS_INFO_COUNT then Ok (sp, st, (KERN_FAILURE, None))
    else
      with_receive sp st name None (λ sp st port,
        p ← pget st port;
        st ← ip_unlock st port;
        Ok (sp, st, (KERN_SUCCESS, Some (limits_info (ip_qlimit p), MACH_PORT_LIMITS_INFO_COUNT))))
  else if flavor =? MACH_PORT_RECEIVE_STATUS then
    if count <? MACH_PORT_RECEIVE_STATUS_COUNT then Ok (sp, st, (KERN_FAILURE, None))
    else
      with_receive sp st name None (λ sp st port,
        '(st, (pset, seqno)) ← status_pset st port;
        p ← pget st port;
        st ← ip_unlock st port;
        Ok (sp, st, (KERN_SUCCESS, Some (receive_status (port_status p pset seqno), MACH_PORT_RECEIVE_STATUS_COUNT))))
  else if flavor =? MACH_PORT_DNREQUESTS_SIZE then
    if count <? MACH_PORT_DNREQUESTS_SIZE_COUNT then Ok (sp, st, (KERN_FAILURE, None))
    else
      with_receive sp st name None (λ sp st port,
        p ← pget st port;
        size ← match ip_dnrequests p with
               | None => Ok 0
               | Some table => its ← ipr_size (dn_table table); dn_its_size its
               end;
        st ← ip_unlock st port;
        Ok (sp, st, (KERN_SUCCESS, Some (dnrequests_size size, MACH_PORT_DNREQUESTS_SIZE_COUNT))))
  else Ok (sp, st, (KERN_INVALID_ARGUMENT, None)).

(** [info] is the first word of the argument: the queue limit or the size. *)
Definition mach_port_set_attributes (space : Z) (sp : istate) (st : pstate) (name flavor info count : Z) :
    outcome (istate * pstate * (kern_return * unit)) :=
  if space =? IS_NULL then Ok (sp, st, (KERN_INVALID_TASK, tt))
  else if flavor =? MACH_PORT_LIMITS_INFO then
    if count <? MACH_PORT_LIMITS_INFO_COUNT then Ok (sp, st, (KERN_FAILURE, tt))
    else if MACH_PORT_QLIMIT_MAX <? info then Ok (sp, st, (KERN_INVALID_VALUE, tt))
    else
      with_receive sp st name tt (λ sp st port,
        st ← ipc_port_set_qlimit st port info;
        st ← ip_unlock st port;
        Ok (sp, st, (KERN_SUCCESS, tt)))
  else if flavor =? MACH_PORT_DNREQUESTS_SIZE then
    if count <? MACH_PORT_DNREQUESTS_SIZE_COUNT then Ok (sp, st, (KERN_FAILURE, tt))
    else
      with_receive sp st name tt (λ sp st port,
        '(st, kr) ← ipc_port_dngrow st port info;
        Ok (sp, st, (kr, tt)))
  else Ok (sp, st, (KERN_INVALID_ARGUMENT, tt)).
End calls.
