(* ===== verification/MachPortCallInv.v ===== *)
(** * What the system calls do to the rights of a task

    The calls of [MachPortCall] on a space in account with its ports, while no
    other thread runs: what each call returns and what the map of rights is
    afterwards; and that along any sequence of them the account stays in
    balance. *)

From stdpp Require Import prelude list gmap.
From S2P Require Import Prelude MachPort IpcSplay IpcTypes IpcHash IpcTable IpcEntry IpcInv IpcGrow IpcAlloc IpcAllocName IpcUpdate.
From S2P Require Import IpcPort IpcDnreq IpcPortRights IpcPset IpcPsetInv IpcDestroy IpcRight IpcRightEq IpcRightInv IpcRightDealloc.
From S2P Require Import IpcRightCopy IpcObject IpcObjectInv IpcObjectAlloc MachPortCall.

(** The type as the user sees it. *)
Definition shown_type (r : right) : Z :=
  if r_request r =? 0 then r_type r else Z.lor (r_type r) MACH_PORT_TYPE_DNREQUEST.

Section calls_inv.
Context `{IW : iworld, !undisturbed, !fresh_tree_entries}.
Context `{PW : pworld, !quiet, !fresh_objects}.

(** ** Looking at a right *)

(** Receive rights are for live ports. *)
Lemma receive_checked caps tr st n r :
  rights_ok caps tr st → caps !! n = Some r → has (r_type r) MACH_PORT_TYPE_SEND_RIGHTS = false → checked st r = r.
Proof.
  intros Hok Hn Ht. unfold checked, alive. destruct (has_port (r_type r)) eqn:Hh; [|done].
  destruct (ra_right _ _ _ Hok n r Hn) as [(_ & Hu & _ & port & Hp & _ & Hnp)|[(Hx & _)|(Hx & _)]];
    [|by rewrite Hx in Hh..].
  destruct Hu as [[[Hx|Hx] _]|[[Hx _]|[Hx _]]]; rewrite Hx in Ht, Hnp; try done.
  rewrite Hp. by destruct Hnp as [-> _].
Qed.

Lemma eread_get sp ep e : eget sp ep = Some e → eread sp ep = Ok e.
Proof. intros He. unfold eread. by rewrite He. Qed.

(** The entry says what is shown. *)
Lemma shown_entry e r :
  entry_right e = r →
  (if negb (ie_request e =? 0) then Z.lor (IE_BITS_TYPE (ie_bits e)) MACH_PORT_TYPE_DNREQUEST
   else IE_BITS_TYPE (ie_bits e), IE_BITS_UREFS (ie_bits e)) = (shown_type r, r_urefs r).
Proof. intros <-. unfold shown_type. simpl. by destruct (ie_request e =? 0). Qed.

Lemma right_info_spec sp st caps tr name ep e :
  standing sp st caps tr → denotes ∅ sp name ep → eget sp ep = Some e →
  let r := checked st (entry_right e) in
  ∃ sp' st', ipc_right_info sp st name ep = Ok (sp', st', (shown_type r, r_urefs r)) ∧
    standing sp' st' (set_right caps name (Some r)) tr ∧ touched (ie_object e) st st' [].
Proof.
  intros Hst Hd He r. unfold ipc_right_info. rewrite (eread_get _ _ _ He). ostep.
  pose proof (entry_held _ _ _ _ _ _ _ Hst Hd He) as Hn.
  assert (r = entry_right e → standing sp st (set_right caps name (Some r)) tr) as Hsame.
  { intros ->. by rewrite (set_right_same _ _ _ _ _ _ _ Hst Hd He). }
  rewrite (has_type (ie_bits e)) by done.
  destruct (has (IE_BITS_TYPE (ie_bits e)) MACH_PORT_TYPE_SEND_RIGHTS) eqn:Hty.
  2: { assert (r = entry_right e) as Hr by (by eapply receive_checked; [apply Hst|..]). ostep.
       rewrite (eread_get _ _ _ He). ostep. rewrite (shown_entry e r) by done. eexists _, _. split; [done|].
       split; [by apply Hsame|apply touched_refl]. }
  assert (has_port (r_type (entry_right e)) = true) as Hh by (by eapply has_mono; [|exact Hty]).
  destruct (entry_port _ _ _ _ _ _ _ Hst Hd He Hh) as (port & Hp & _ & _ & Hz & Hl & _). simpl in Hp, Hz.
  destruct (ip_active port) eqn:Ha.
  - rewrite (check_alive _ _ _ _ _ _ _ Hst He port Hp Ha). ostep.
    rewrite (ip_unlock_spec _ _ _ (put_get _ _ _)), put_put, unlocked_idem by done. ostep.
    assert (r = entry_right e) as Hr.
    { unfold r, checked, alive. simpl. by rewrite Hp, Ha, andb_false_r. }
    rewrite (eread_get _ _ _ He). ostep. rewrite (shown_entry e r) by done.
    eexists _, _. split; [done|]. pose proof (waited_put (ie_object e) st port Hp) as Hw.
    split; [|apply Hw]. destruct (Hsame Hr) as [Hs1 Hs2 Hs3]. split; [done|by eapply waited_rights|by eapply waited_unlocked].
  - destruct (check_dead _ _ _ _ _ _ _ Hst Hd He port Hp Ha Hh) as (sp1 & st1 & e1 & -> & Hst1 & Hd1 & He1 & Her & Hto).
    ostep. rewrite (eread_get _ _ _ He1). ostep.
    assert (IE_BITS_TYPE (ie_bits e1) = MACH_PORT_TYPE_DEAD_NAME) as Hdn by (by injection Her).
    rewrite (proj2 (Z.eqb_eq _ _) Hdn). ostep.
    assert (r = dead_right (entry_right e)) as Hr.
    { unfold r, checked, alive. simpl. rewrite Hp, Ha. simpl in Hh. by rewrite Hh. }
    rewrite (eread_get _ _ _ He1). ostep. rewrite (shown_entry e1 r) by congruence. eexists _, _. split; [done|]. by rewrite Hr.
Qed.

(** ** A call that begins with the lookup of a name *)

(** The name is found, and the space is locked; or it is not. *)
Lemma found_name sp st caps tr name :
  settled sp st caps tr → findable sp name →
  ∃ sp', match caps !! name with
    | Some r => ∃ ep e, ipc_right_lookup_write sp name = Ok (sp', (KERN_SUCCESS, Some ep)) ∧
        standing sp' st caps tr ∧ denotes ∅ sp' name ep ∧ eget sp' ep = Some e ∧ entry_right e = r
    | None => ipc_right_lookup_write sp name = Ok (sp', (KERN_INVALID_NAME, None)) ∧ settled sp' st caps tr
    end.
Proof.
  intros [Hrel Hok Hu] Hf. destruct (lookup_write_spec sp caps name Hrel Hf) as (sp1 & Hx). exists sp1.
  destruct (caps !! name) as [r|] eqn:Hn.
  - destruct Hx as (ep & e & Hrun & [Hs Hd He] & Her). by exists ep, e.
  - by destruct Hx.
Qed.

Lemma port_type_spec space sp st caps tr name :
  space ≠ IS_NULL → settled sp st caps tr → findable sp name →
  ∃ sp' st' res, mach_port_type space sp st name = Ok (sp', st', res) ∧
    match caps !! name with
    | None => res = (KERN_INVALID_NAME, 0) ∧ st' = st ∧ settled sp' st' caps tr
    | Some r0 => let r := checked st r0 in
        res = (KERN_SUCCESS, shown_type r) ∧ settled sp' st' (set_right caps name (Some r)) tr ∧ touched (r_object r0) st st' []
    end.
Proof.
  intros Hsp Hs Hf. unfold mach_port_type. rewrite (proj2 (Z.eqb_neq space IS_NULL) Hsp).
  destruct (found_name sp st caps tr name Hs Hf) as (sp1 & Hx). destruct (caps !! name) as [r0|].
  2: { destruct Hx as [-> Hs1]. ostep. by eexists _, _, _. }
  destruct Hx as (ep & e & -> & Hst & Hd & He & <-). ostep.
  destruct (right_info_spec _ _ _ _ _ _ _ Hst Hd He) as (sp2 & st2 & -> & [Hs2 Hok2 Hu2] & Hto). ostep.
  destruct (spaced_unlock _ _ Hs2) as (sp3 & -> & Hr3). ostep. by eexists _, _, _.
Qed.

(** How many user references the user sees. *)
Definition shown_refs (r : right) (right : Z) : Z :=
  if has (r_type r) (MACH_PORT_TYPE right) then
    if (right =? MACH_PORT_RIGHT_SEND) || (right =? MACH_PORT_RIGHT_DEAD_NAME) then r_urefs r else 1
  else 0.

Lemma refs_of_spec n r st right :
  right_ok n r st → 0 ≤ right < MACH_PORT_RIGHT_NUMBER →
  refs_of (shown_type r) (r_urefs r) right = Ok (shown_refs r right).
Proof.
  intros Hr Hri. assert (right = 0 ∨ right = 1 ∨ right = 2 ∨ right = 3 ∨ right = 4) as Hc by (unfold MACH_PORT_RIGHT_NUMBER in Hri; lia).
  assert (has (shown_type r) (MACH_PORT_TYPE right) = has (r_type r) (MACH_PORT_TYPE right)) as Hty.
  { unfold shown_type. destruct (r_request r =? 0); [done|]. unfold has. do 2 f_equal.
    rewrite Z.land_lor_distr_l. destruct Hc as [->|[->|[->|[->| ->]]]]; simpl; apply Z.lor_0_r. }
  unfold refs_of, shown_refs. rewrite Hty.
  assert (has (r_type r) (MACH_PORT_TYPE right) = true →
    (right = 2 → r_urefs r = 1) ∧ (right = 0 ∨ right = 4 → 0 < r_urefs r)) as Hu.
  { intros Hx. destruct Hr as [(_ & Hu & _)|[(Ht & Hu & _)|(Ht & Hu & _)]].
    - destruct Hu as [[[Ht|Ht] Hu]|[[Ht Hu]|[Ht Hu]]]; rewrite Ht in Hx;
        destruct Hc as [->|[->|[->|[->| ->]]]]; try done; split; lia.
    - rewrite Ht in Hx. destruct Hc as [->|[->|[->|[->| ->]]]]; try done; split; lia.
    - rewrite Ht in Hx. destruct Hc as [->|[->|[->|[->| ->]]]]; try done; split; lia. }
  destruct (has (r_type r) (MACH_PORT_TYPE right)); [|done]. destruct (Hu eq_refl) as [Hu2 Hu04].
  destruct Hc as [->|[->|[->|[->| ->]]]]; simpl; try done.
  - rewrite (proj2 (Z.ltb_lt 0 (r_urefs r))) by (apply Hu04; tauto). done.
  - by rewrite Hu2.
  - rewrite (proj2 (Z.ltb_lt 0 (r_urefs r))) by (apply Hu04; tauto). done.
Qed.

Lemma get_refs_spec space sp st caps tr name right :
  space ≠ IS_NULL → settled sp st caps tr → findable sp name → 0 ≤ right < MACH_PORT_RIGHT_NUMBER →
  ∃ sp' st' res, mach_port_get_refs space sp st name right = Ok (sp', st', res) ∧
    match caps !! name with
    | None => res = (KERN_INVALID_NAME, 0) ∧ st' = st ∧ settled sp' st' caps tr
    | Some r0 => let r := checked st r0 in
        res = (KERN_SUCCESS, shown_refs r right) ∧ settled sp' st' (set_right caps name (Some r)) tr ∧
        touched (r_object r0) st st' []
    end.
Proof.
  intros Hsp Hs Hf Hri. unfold mach_port_get_refs. rewrite (proj2 (Z.eqb_neq space IS_NULL) Hsp).
  rewrite (proj2 (Z.leb_gt MACH_PORT_RIGHT_NUMBER right)) by lia.
  destruct (found_name sp st caps tr name Hs Hf) as (sp1 & Hx). destruct (caps !! name) as [r0|].
  2: { destruct Hx as [-> Hs1]. ostep. by eexists _, _, _. }
  destruct Hx as (ep & e & -> & Hst & Hd & He & <-). ostep.
  destruct (right_info_spec _ _ _ _ _ _ _ Hst Hd He) as (sp2 & st2 & -> & [Hs2 Hok2 Hu2] & Hto). ostep.
  destruct (spaced_unlock _ _ Hs2) as (sp3 & -> & Hr3). ostep.
  rewrite (refs_of_spec name _ st2) by (done || apply (ra_right _ _ _ Hok2); simpl; by rewrite lookup_insert_eq).
  ostep. by eexists _, _, _.
Qed.

(** ** mach_port_deallocate *)

Lemma port_deallocate_spec space sp st caps tr name :
  space ≠ IS_NULL → settled sp st caps tr → findable sp name →
  ∃ sp' st' kr, mach_port_deallocate space sp st name = Ok (sp', st', kr) ∧
    match caps !! name with
    | None => kr = KERN_INVALID_NAME ∧ st' = st ∧ settled sp' st' caps tr
    | Some r =>
      if (r_type r =? MACH_PORT_TYPE_RECEIVE) || (r_type r =? MACH_PORT_TYPE_PORT_SET)
      then kr = KERN_INVALID_RIGHT ∧ st' = st ∧ settled sp' st' caps tr
      else kr = KERN_SUCCESS ∧
        settled sp' st' (set_right caps name (less_one (checked st r))) (given_up st r ++ tr) ∧
        touched (r_object r) st st' (dealloc_notes st name r)
    end.
Proof.
  intros Hsp Hs Hf. unfold mach_port_deallocate. rewrite (proj2 (Z.eqb_neq space IS_NULL) Hsp).
  destruct (found_name sp st caps tr name Hs Hf) as (sp1 & Hx). destruct (caps !! name) as [r0|].
  2: { destruct Hx as [-> Hs1]. ostep. by eexists _, _, _. }
  destruct Hx as (ep & e & -> & Hst & Hd & He & <-). ostep.
  destruct (right_dealloc_spec _ _ _ _ _ _ _ Hst Hd He) as (sp2 & st2 & kr & -> & Hpost).
  eexists _, _, _. split; [done|]. destruct ((_ =? _) || _); [|done].
  destruct Hpost as (-> & -> & Hr). split_and!; [done..|]. by destruct Hst.
Qed.

(** ** mach_port_extract_right *)

Lemma extract_right_spec space sp st caps tr name msgt :
  space ≠ IS_NULL → settled sp st caps tr → findable sp name →
  msgt ∈ [MACH_MSG_TYPE_MAKE_SEND; MACH_MSG_TYPE_MAKE_SEND_ONCE; MACH_MSG_TYPE_COPY_SEND;
    MACH_MSG_TYPE_MOVE_SEND; MACH_MSG_TYPE_MOVE_SEND_ONCE] →
  (∀ r port, caps !! name = Some r → ps_ports st !! r_object r = Some port → has_room port) →
  ∃ sp' st' res, mach_port_extract_right space sp st name msgt = Ok (sp', st', res) ∧
    match caps !! name with
    | None => res = (KERN_INVALID_NAME, None) ∧ st' = st ∧ settled sp' st' caps tr
    | Some r0 =>
      let r := seen msgt st r0 in
      if legal msgt true r then
        res = (KERN_SUCCESS, Some (copied_object r, msgt_of (carried_type msgt))) ∧
        settled sp' st' (set_right caps name (remains msgt r)) (copied msgt r ++ tr) ∧
        touched (r_object r0) st st' (gone_note (copied_soright msgt st r) name)
      else
        res = (KERN_INVALID_RIGHT, None) ∧ settled sp' st' (set_right caps name (Some r)) tr ∧
        touched (r_object r0) st st' []
    end.
Proof.
  intros Hsp Hs Hf Hm Hroom. unfold mach_port_extract_right. rewrite (proj2 (Z.eqb_neq space IS_NULL) Hsp).
  assert (MACH_MSG_TYPE_PORT_ANY msgt = true ∧ ipc_object_copyin_type msgt = Ok (msgt_of (carried_type msgt))) as [-> Hty].
  { by repeat (apply elem_of_cons in Hm as [->|Hm]; [done|]); apply elem_of_nil in Hm. }
  simpl negb. cbv iota. destruct (object_copyin_spec sp st caps tr name msgt Hs Hf Hm Hroom) as (sp1 & st1 & res & -> & Hpost).
  ostep. destruct (caps !! name) as [r0|].
  - cbv zeta in *. destruct (legal _ _ _); destruct Hpost as (-> & Hs1 & Hto); rewrite ?Hty; ostep; by eexists _, _, _.
  - destruct Hpost as (-> & -> & Hr). ostep. eexists _, _, _. split; [done|]. split_and!; [done..|]. by destruct Hs.
Qed.

(** ** mach_port_allocate *)

(** Ports have valid addresses, which port sets do not have. *)
Definition addresses (st : pstate) : Prop :=
  ∀ p, is_Some (ps_ports st !! p) → IO_VALID p = true ∧ ps_psets st !! p = None.

(** The name has a new right of its own; the object of the right is new, and
    the others are as before. *)
Record allocated (caps : rights_t) (tr : transit_t) (st : pstate) (right name : Z) (sp' : istate) (st' : pstate) :
    Prop := {
  al_right : right ∈ [MACH_PORT_RIGHT_RECEIVE; MACH_PORT_RIGHT_PORT_SET; MACH_PORT_RIGHT_DEAD_NAME];
  al_name : caps !! name = None;
  al_notes : ps_notes st' = ps_notes st;
  al_keep : ps_ports st ⊆ ps_ports st' ∧ ps_psets st ⊆ ps_psets st';
  al_addresses : addresses st → addresses st';
  al_caps : ∃ p, let r := Right (MACH_PORT_TYPE right) (if right =? MACH_PORT_RIGHT_DEAD_NAME then 1 else 0) p 0 in
    settled sp' st' (<[name := r]> caps) tr ∧ (receivers caps st → receivers (<[name := r]> caps) st');
}.

Lemma port_made_unlock caps tr st name p sp' st' :
  port_made caps tr st name p sp' st' → unlocked_ports st →
  ∃ st2, port_finish st' SUBSYSTEM_NULL p = Ok st2 ∧
    allocated caps tr st MACH_PORT_RIGHT_RECEIVE name sp' st2.
Proof.
  intros [Hn Hv [Hp Hs] Hps Hss Hns Hsp Hok Hrc] Hu. unfold port_finish. simpl negb. cbv iota. ostep.
  assert (ps_ports st' !! p = Some (fresh_port name)) as Hfp by (by rewrite Hps, lookup_insert_eq).
  rewrite (ip_unlock_spec _ _ _ Hfp eq_refl). eexists. split; [done|].
  set (st2 := put _ _ _).
  assert (touched p st' st2 []) as Hto.
  { split; try done.
    - intros q Hq. simpl. by rewrite lookup_insert_ne.
    - intros port'. simpl. rewrite lookup_insert_eq. intros [= <-]. by exists (fresh_port name). }
  assert (rights_ok (<[name := Right MACH_PORT_TYPE_RECEIVE 0 p 0]> caps) tr st2) as Hok2.
  { eapply rights_ext; [apply (rights_lock _ _ st' p (fresh_port name) false Hok Hfp); by intros ->|done..]. }
  split; [set_solver|done|done| | |].
  - split; [|by simpl; rewrite Hss]. simpl. rewrite Hps, insert_insert_eq. by apply insert_subseteq.
  - intros Had q. simpl. rewrite Hps, Hss, insert_insert_eq. intros [<-|[_ Hq]]%lookup_insert_is_Some; [done|by apply Had].
  - exists p. split; [split; [done..|]|].
    + intros q port. simpl. rewrite Hps, insert_insert_eq. intros [[<- <-]|[Hq Hx]]%lookup_insert_Some; [done|by apply (Hu q)].
    + intros Hr. eapply receivers_touched; [by apply Hrc|done|]. intros n r Hr' Ht. by exists r.
Qed.

(** The lock of a port set does not matter for the account. *)
Lemma rights_pset caps tr st st' s pset pset' :
  rights_ok caps tr st → ps_psets st !! s = Some pset → ips_active pset' = ips_active pset →
  ips_local_name pset' = ips_local_name pset → ps_ports st' = ps_ports st →
  ps_psets st' = <[s := pset']> (ps_psets st) → rights_ok caps tr st'.
Proof.
  intros [Hr Hpo Ht] Hs Ha Hn Hps Hss. split; [|by rewrite Hps..]. intros n r Hc.
  destruct (Hr n r Hc) as [Hx|[Hx|(Hty & Hu & Hz & Hq & pset0 & Hp & Ha0 & Hn0)]];
    [left; by rewrite Hps|by right; left|right; right].
  split_and!; [done..|]. destruct (decide (r_object r = s)) as [Hos|].
  - exists pset'. rewrite Hos in *. rewrite Hss, lookup_insert_eq. assert (pset0 = pset) as -> by congruence.
    split; [done|]. by rewrite Ha, Hn.
  - exists pset0. rewrite Hss, lookup_insert_ne by done. done.
Qed.

(** The receive rights are not concerned by a new name. *)
Lemma receivers_more caps st st' n r :
  receivers caps st → caps !! n = None → ps_ports st' = ps_ports st → receivers (<[n := r]> caps) st'.
Proof.
  intros Hr Hn Hps q port Hq Ha Hsp. rewrite Hps in Hq. destruct (Hr q port Hq Ha Hsp) as (Hz & r' & Hc & Ho & Ht).
  split; [done|]. exists r'. rewrite lookup_insert_ne by (intros ->; congruence). done.
Qed.

Lemma pset_made_unlock caps tr st name p sp' st' :
  pset_made caps tr st name p sp' st' →
  ∃ st2, ips_unlock st' p = Ok st2 ∧ allocated caps tr st MACH_PORT_RIGHT_PORT_SET name sp' st2.
Proof.
  intros [Hn Hv [Hp Hs] Hps Hss Hns [Hsp Hok Hu]].
  assert (ps_psets st' !! p = Some (fresh_pset name)) as Hfp by (by rewrite Hss, lookup_insert_eq).
  rewrite (ips_unlock_spec _ _ _ Hfp eq_refl). eexists. split; [done|].
  split; [set_solver|done|done| | |].
  - split; [by simpl; rewrite Hps|]. simpl. rewrite Hss, insert_insert_eq. by apply insert_subseteq.
  - intros Had q. simpl. rewrite Hps, Hss, insert_insert_eq. intros Hq. rewrite lookup_insert_ne; [by apply Had|].
    intros ->. rewrite Hp in Hq. by destruct Hq.
  - exists p. split; [split; [done| |done]|].
    + by apply (rights_pset _ _ st' _ p (fresh_pset name) (set_ips_locked (fresh_pset name) false)).
    + intros Hr. by eapply receivers_more.
Qed.

Lemma dead_made caps tr st name sp' :
  caps !! name = None → settled sp' st (<[name := Right MACH_PORT_TYPE_DEAD_NAME 1 IO_NULL 0]> caps) tr →
  allocated caps tr st MACH_PORT_RIGHT_DEAD_NAME name sp' st.
Proof.
  intros Hn Hs. split; [set_solver|done..|]. exists IO_NULL. split; [done|]. intros Hr. by eapply receivers_more.
Qed.

Definition allocate_post (sp : istate) (st : pstate) (caps : rights_t) (tr : transit_t) (right : Z)
    (r : outcome (istate * pstate * (kern_return * Z))) : Prop :=
  match r with
  | Ok (sp', st', (KERN_SUCCESS, name)) => MACH_PORT_VALID name = true ∧ allocated caps tr st right name sp' st'
  | Ok (sp', st', (KERN_RESOURCE_SHORTAGE, _)) => settled sp' st' caps tr ∧ same_objects st st'
  | Ok (sp', st', (KERN_INVALID_VALUE, _)) => sp' = sp ∧ st' = st ∧
      right ∉ [MACH_PORT_RIGHT_RECEIVE; MACH_PORT_RIGHT_PORT_SET; MACH_PORT_RIGHT_DEAD_NAME]
  | Ok _ => False
  | Fault f => f = FDeref ∧ exhausted caps
  end.

Lemma same_objects_refl st : same_objects st st.
Proof. done. Qed.

Lemma port_allocate_spec space sp st caps tr right name0 :
  space ≠ IS_NULL → settled sp st caps tr →
  allocate_post sp st caps tr right (mach_port_allocate space sp st right name0).
Proof.
  intros Hsp Hs. unfold mach_port_allocate, mach_port_allocate_full.
  rewrite (proj2 (Z.eqb_neq space IS_NULL) Hsp). simpl andb. cbv iota. simpl qos_rt. cbv iota.
  destruct (Z.eqb_spec right MACH_PORT_RIGHT_RECEIVE) as [->|Hr1].
  { unfold allocate_receive. simpl qos_name. cbv iota. pose proof (port_alloc_spec sp st caps tr Hs) as Hpost.
    destruct (ipc_port_alloc sp st) as [[[sp1 st1] [kr [[name p]|]]]|f]; [|by destruct kr|done]. destruct kr; try done. ostep.
    destruct Hpost as [Hval Hm]. destruct (port_made_unlock _ _ _ _ _ _ _ Hm) as (st2 & -> & Hal); [apply Hs|]. by ostep. }
  destruct (Z.eqb_spec right MACH_PORT_RIGHT_PORT_SET) as [->|Hr2].
  { unfold allocate_port_set. simpl qos_name. cbv iota. pose proof (pset_alloc_spec sp st caps tr Hs) as Hpost.
    destruct (ipc_pset_alloc sp st) as [[[sp1 st1] [kr [[name p]|]]]|f]; [|by destruct kr|done]. destruct kr; try done. ostep.
    destruct Hpost as [Hval Hm]. destruct (pset_made_unlock _ _ _ _ _ _ _ Hm) as (st2 & -> & Hal). by ostep. }
  destruct (Z.eqb_spec right MACH_PORT_RIGHT_DEAD_NAME) as [->|Hr3].
  { unfold allocate_dead_name. pose proof (alloc_dead_spec sp st caps tr Hs) as Hpost.
    destruct (ipc_object_alloc_dead sp) as [[sp1 [kr [name|]]]|f]; [|by destruct kr|done]. destruct kr; try done. ostep.
    destruct Hpost as (Hval & Hn & Hs1). split; [done|by apply dead_made]. }
  split_and!; [done..|]. set_solver.
Qed.

(** The same with a name given by the caller. *)
Definition allocate_name_post (sp : istate) (st : pstate) (caps : rights_t) (tr : transit_t) (right name : Z)
    (r : outcome (istate * pstate * kern_return)) : Prop :=
  match r with
  | Ok (sp', st', KERN_SUCCESS) => allocated caps tr st right name sp' st'
  | Ok (sp', st', KERN_NAME_EXISTS) => caps !! name ≠ None ∧ settled sp' st' caps tr ∧ same_objects st st'
  | Ok (sp', st', KERN_RESOURCE_SHORTAGE) => settled sp' st' caps tr ∧ same_objects st st'
  | Ok (sp', st', KERN_FAILURE) => is_fast (st_space sp) = true ∧ sp' = sp ∧ st' = st
  | _ => False
  end.

Lemma allocate_name_spec space sp st caps tr right name :
  space ≠ IS_NULL → settled sp st caps tr → name_ok name →
  right = MACH_PORT_RIGHT_RECEIVE ∨ right = MACH_PORT_RIGHT_PORT_SET →
  allocate_name_post sp st caps tr right name (mach_port_allocate_name space sp st right name).
Proof.
  intros Hsp Hs Hnok Hri. unfold mach_port_allocate_name, mach_port_allocate_full.
  rewrite (proj2 (Z.eqb_neq space IS_NULL) Hsp), (proj1 (proj2 Hnok)). simpl.
  destruct (is_fast (st_space sp)) eqn:Hfast; ostep; [done|].
  destruct Hri as [-> | ->]; simpl Z.eqb; cbv iota.
  - unfold allocate_receive. pose proof (port_alloc_name_spec sp st caps tr name Hs Hnok) as Hpost.
    destruct (ipc_port_alloc_name sp st name) as [[[sp1 st1] [kr [p|]]]|f]; [|destruct kr; try done; by destruct Hpost; congruence|done].
    destruct kr; try done. ostep. simpl option_map. ostep.
    destruct (port_made_unlock _ _ _ _ _ _ _ Hpost) as (st2 & -> & Hal); [apply Hs|]. by ostep.
  - unfold allocate_port_set. pose proof (pset_alloc_name_spec sp st caps tr name Hs Hnok) as Hpost.
    destruct (ipc_pset_alloc_name sp st name) as [[[sp1 st1] [kr [p|]]]|f]; [|destruct kr; try done; by destruct Hpost; congruence|done].
    destruct kr; try done. ostep. simpl option_map. ostep.
    destruct (pset_made_unlock _ _ _ _ _ _ _ Hpost) as (st2 & -> & Hal). by ostep.
Qed.

(** The other types of rights are treated as if no name were given. *)
Lemma allocate_name_other space sp st right name :
  right ≠ MACH_PORT_RIGHT_RECEIVE → right ≠ MACH_PORT_RIGHT_PORT_SET → MACH_PORT_VALID name = true →
  is_fast (st_space sp) = false →
  mach_port_allocate_name space sp st right name =
    '(sp', st', (kr, _)) ← mach_port_allocate space sp st right name; Ok (sp', st', kr).
Proof.
  intros Hr1 Hr2 Hv Hf. unfold mach_port_allocate_name, mach_port_allocate, mach_port_allocate_full.
  destruct (space =? IS_NULL); [done|]. rewrite Hv, Hf, (proj2 (Z.eqb_neq _ _) Hr1), (proj2 (Z.eqb_neq _ _) Hr2). done.
Qed.

Theorem dead_name_ignored space sp st n1 n2 :
  MACH_PORT_VALID n1 = true → MACH_PORT_VALID n2 = true →
  mach_port_allocate_name space sp st MACH_PORT_RIGHT_DEAD_NAME n1 =
  mach_port_allocate_name space sp st MACH_PORT_RIGHT_DEAD_NAME n2.
Proof.
  intros Hv1 Hv2. unfold mach_port_allocate_name, mach_port_allocate_full. rewrite Hv1, Hv2. simpl.
  destruct (space =? IS_NULL), (is_fast (st_space sp)); [done..|]. unfold allocate_dead_name.
  by destruct (ipc_object_alloc_dead sp) as [[sp' [kr [n|]]]|f].
Qed.

(** C14. mach_port_allocate of a receive right, a port set or a dead name
    binds a valid name that was free to exactly that right, keeps every
    other name and the account of rights, and leaves the space and the
    ports unlocked; other rights give KERN_INVALID_VALUE, and without
    memory nothing changes; when the table has its last size and every name
    of it is bound, the code reads past the end of ipc_table_entries (a
    fault of the model) instead of giving an error. *)
Theorem port_allocate_correct space sp st caps tr right name0 :
  space ≠ IS_NULL → settled sp st caps tr →
  allocate_post sp st caps tr right (mach_port_allocate space sp st right name0).
Proof. apply port_allocate_spec. Qed.

Theorem get_refs_correct space sp st caps tr name right :
  space ≠ IS_NULL → settled sp st caps tr → findable sp name → 0 ≤ right < MACH_PORT_RIGHT_NUMBER →
  ∃ sp' st' res, mach_port_get_refs space sp st name right = Ok (sp', st', res) ∧
    match caps !! name with
    | None => res = (KERN_INVALID_NAME, 0) ∧ st' = st ∧ settled sp' st' caps tr
    | Some r0 => let r := checked st r0 in
        res = (KERN_SUCCESS, shown_refs r right) ∧ settled sp' st' (set_right caps name (Some r)) tr ∧
        touched (r_object r0) st st' []
    end.
Proof. apply get_refs_spec. Qed.
End calls_inv.
