(* ===== verification/MachPortSystem.v ===== *)
(** * The calls of a task as a transition system

    A task makes system calls and receives rights in messages, in any order.
    The configuration is the space, the ports and the rights in transit; a
    step is a run of the code.  Every configuration that is reached from one
    in account is in account again, and no call that is made there fails an
    assertion. *)

From stdpp Require Import prelude list gmap relations.
From S2P Require Import Prelude MachPort IpcSplay IpcTypes IpcHash IpcTable IpcEntry IpcInv IpcGrow IpcAlloc IpcAllocName IpcUpdate.
From S2P Require Import IpcPort IpcDnreq IpcPortRights IpcPset IpcPsetInv IpcDestroy IpcRight IpcRightEq IpcRightInv IpcRightDealloc.
From S2P Require Import IpcRightCopy IpcObject IpcObjectInv IpcObjectAlloc MachPortCall MachPortCallInv.

Section system.
Context `{IW : iworld, !undisturbed, !fresh_tree_entries}.
Context `{PW : pworld, !quiet, !fresh_objects}.
Context (space : Z).

Abbreviation config := (istate * pstate * transit_t)%type (only parsing).

(** The right that a name of the space has. *)
Definition right_at (sp : istate) (name : Z) : option right := cap_right <$> space_view sp name.

Definition sending_types : list Z :=
  [MACH_MSG_TYPE_MAKE_SEND; MACH_MSG_TYPE_MAKE_SEND_ONCE; MACH_MSG_TYPE_COPY_SEND;
   MACH_MSG_TYPE_MOVE_SEND; MACH_MSG_TYPE_MOVE_SEND_ONCE].

(** What leaves with a successful extraction. *)
Definition extracted (msgt : Z) (res : option (Z * Z)) : transit_t :=
  match res with
  | Some (poly, _) => if IO_VALID poly then [(carried_type msgt, poly)] else []
  | None => []
  end.

(** A right in transit arrives. *)
Fixpoint arrive (x : Z * Z) (tr : transit_t) : transit_t :=
  match tr with
  | [] => []
  | y :: tr' => if decide (y = x) then tr' else y :: arrive x tr'
  end.

(** The calls, and the arrival of a right in a message. *)
Inductive call :=
  | Type_ (name : Z)
  | Get_refs (name right : Z)
  | Allocate (right name : Z)
  | Allocate_name (right name : Z)
  | Deallocate (name : Z)
  | Extract_right (name msgt : Z)
  | Receive (type object : Z) (overflow : bool).

(** One call: the state and the rights in transit afterwards. *)
Definition run_call (c : call) (x : config) : outcome config :=
  let '(sp, st, tr) := x in
  match c with
  | Type_ name =>
    '(sp', st', _) ← mach_port_type space sp st name;
    Ok (sp', st', tr)
  | Get_refs name right =>
    '(sp', st', _) ← mach_port_get_refs space sp st name right;
    Ok (sp', st', tr)
  | Allocate right name =>
    '(sp', st', _) ← mach_port_allocate space sp st right name;
    Ok (sp', st', tr)
  | Allocate_name right name =>
    '(sp', st', _) ← mach_port_allocate_name space sp st right name;
    Ok (sp', st', tr)
  | Deallocate name =>
    '(sp', st', _) ← mach_port_deallocate space sp st name;
    Ok (sp', st', default [] (given_up st <$> right_at sp name) ++ tr)
  | Extract_right name msgt =>
    '(sp', st', (_, res)) ← mach_port_extract_right space sp st name msgt;
    Ok (sp', st', extracted msgt res ++ tr)
  | Receive type object overflow =>
    '(sp', st', (kr, _)) ← ipc_object_copyout sp st object (msgt_of type) overflow;
    Ok (sp', st', if bool_decide (kr = KERN_SUCCESS) then arrive (type, object) tr else tr)
  end.

(** The names are 32-bit numbers, the counts of the ports have room for one
    more right, and a right that arrives was in transit. *)
Definition enabled (c : call) (x : config) : Prop :=
  let '(sp, st, tr) := x in
  match c with
  | Type_ name | Deallocate name => findable sp name
  | Get_refs name right => findable sp name ∧ 0 ≤ right
  | Allocate _ _ => True
  | Allocate_name _ name => name_ok name
  | Extract_right name msgt => findable sp name ∧ msgt ∈ sending_types ∧ map_Forall (λ _, has_room) (ps_ports st)
  | Receive type object _ =>
    (type, object) ∈ tr ∧ (type = MACH_PORT_TYPE_SEND ∨ type = MACH_PORT_TYPE_SEND_ONCE)
  end.

Definition call_step (x y : config) : Prop := ∃ c, enabled c x ∧ run_call c x = Ok y.

Definition sound (x : config) : Prop :=
  let '(sp, st, tr) := x in
  ∃ caps, settled sp st caps tr ∧ receivers caps st ∧ addresses st.

(** ** The calls keep the account *)

Lemma arrive_perm x tr : x ∈ tr → tr ≡ₚ x :: arrive x tr.
Proof.
  induction tr as [|y tr IH]; [by intros ?%elem_of_nil|]. simpl. intros Hx.
  destruct (decide (y = x)) as [->|Hne]; [done|]. apply elem_of_cons in Hx as [->|Hx]; [done|].
  rewrite (IH Hx) at 1. apply Permutation_swap.
Qed.

Lemma settled_perm sp st caps tr tr' : tr ≡ₚ tr' → settled sp st caps tr → settled sp st caps tr'.
Proof. intros Hp [Hr Hok Hu]. split; [done|by eapply rights_perm|done]. Qed.

Lemma addresses_touched p st st' ns : addresses st → touched p st st' ns → addresses st'.
Proof.
  intros Ha Hto q Hq. rewrite (to_psets _ _ _ _ Hto). apply Ha. destruct (decide (q = p)) as [->|Hne].
  - destruct Hq as [port' Hq]. destruct (to_same _ _ _ _ Hto _ Hq) as (port & -> & _). done.
  - by rewrite <-(to_ports _ _ _ _ Hto).
Qed.

(** A name changes its right, but keeps a receive right. *)
Lemma sound_set sp' st st' caps tr tr' name r o p ns :
  receivers caps st → addresses st → caps !! name = Some r →
  (has (r_type r) MACH_PORT_TYPE_RECEIVE = true →
    ∃ r', o = Some r' ∧ r_object r' = r_object r ∧ has (r_type r') MACH_PORT_TYPE_RECEIVE = true) →
  touched p st st' ns → tr' = tr → settled sp' st' (set_right caps name o) tr → sound (sp', st', tr').
Proof.
  intros Hr Ha Hn Hk Hto -> Hs. exists (set_right caps name o). split_and!; [done| |by eapply addresses_touched].
  eapply receivers_touched; [done..|]. intros n r0 Hn0 Ht. unfold set_right. destruct (decide (n = name)) as [->|Hne].
  - assert (r0 = r) as -> by congruence. destruct (Hk Ht) as (r' & -> & Ho & Ht'). exists r'. by rewrite lookup_insert_eq.
  - exists r0. destruct o; [rewrite lookup_insert_ne by done|]; by rewrite lookup_delete_ne.
Qed.

(** A receive right is for a live port. *)
Lemma receive_alive caps tr st n r :
  rights_ok caps tr st → caps !! n = Some r → has (r_type r) MACH_PORT_TYPE_RECEIVE = true → checked st r = r.
Proof.
  intros Hok Hn Ht. unfold checked, alive.
  destruct (ra_right _ _ _ Hok n r Hn) as [(_ & _ & _ & port & Hp & _ & Hnp)|[(Hx & _)|(Hx & _)]];
    [|by rewrite Hx in Ht..].
  rewrite Ht in Hnp. destruct Hnp as [Ha _]. by rewrite Hp, Ha, andb_false_r.
Qed.

Lemma receive_types caps tr st n r :
  rights_ok caps tr st → caps !! n = Some r → has (r_type r) MACH_PORT_TYPE_RECEIVE = true →
  r_type r = MACH_PORT_TYPE_SEND_RECEIVE ∨ r_type r = MACH_PORT_TYPE_RECEIVE ∧ r_urefs r = 0.
Proof.
  intros Hok Hn Ht. destruct (ra_right _ _ _ Hok n r Hn) as [(_ & Hu & _)|[(Hx & _)|(Hx & _)]]; [|by rewrite Hx in Ht..].
  destruct Hu as [[[Hx|Hx] _]|[[Hx Hu]|[Hx _]]]; [by rewrite Hx in Ht|by left|by right|by rewrite Hx in Ht].
Qed.

Lemma less_one_receive caps tr st n r :
  rights_ok caps tr st → caps !! n = Some r → has (r_type r) MACH_PORT_TYPE_RECEIVE = true →
  ∃ r', less_one r = Some r' ∧ r_object r' = r_object r ∧ has (r_type r') MACH_PORT_TYPE_RECEIVE = true.
Proof.
  intros Hok Hn Ht. unfold less_one. destruct (receive_types _ _ _ _ _ Hok Hn Ht) as [Hx|[Hx Hu]]; rewrite Hx.
  - destruct (r_urefs r =? 1); eexists; simpl; done.
  - rewrite Hu. eexists. simpl. done.
Qed.

Lemma type_sound sp st tr name :
  space ≠ IS_NULL → sound (sp, st, tr) → findable sp name →
  ∃ sp' st' res, mach_port_type space sp st name = Ok (sp', st', res) ∧ sound (sp', st', tr).
Proof.
  intros Hsp (caps & Hs & Hr & Ha) Hf. destruct (port_type_spec space sp st caps tr name Hsp Hs Hf) as (sp' & st' & res & Hrun & Hx).
  eexists _, _, _. split; [done|]. destruct (caps !! name) as [r|] eqn:Hn.
  - destruct Hx as (_ & Hs' & Hto). eapply (sound_set sp' st st' caps tr tr name r); try done.
    intros Ht. exists r. by erewrite receive_alive by (done || apply Hs).
  - destruct Hx as (_ & -> & Hs'). by exists caps.
Qed.

Lemma refs_sound sp st tr name right :
  space ≠ IS_NULL → sound (sp, st, tr) → findable sp name → 0 ≤ right →
  ∃ sp' st' res, mach_port_get_refs space sp st name right = Ok (sp', st', res) ∧ sound (sp', st', tr).
Proof.
  intros Hsp (caps & Hs & Hr & Ha) Hf Hri. destruct (decide (right < MACH_PORT_RIGHT_NUMBER)) as [Hlt|Hge].
  2: { unfold mach_port_get_refs. rewrite (proj2 (Z.eqb_neq space IS_NULL) Hsp).
       rewrite (proj2 (Z.leb_le MACH_PORT_RIGHT_NUMBER right)) by lia. eexists _, _, _. split; [done|]. by exists caps. }
  destruct (get_refs_spec space sp st caps tr name right Hsp Hs Hf) as (sp' & st' & res & Hrun & Hx); [done|].
  eexists _, _, _. split; [done|]. destruct (caps !! name) as [r|] eqn:Hn.
  - destruct Hx as (_ & Hs' & Hto). eapply (sound_set sp' st st' caps tr tr name r); try done.
    intros Ht. exists r. by erewrite receive_alive by (done || apply Hs).
  - destruct Hx as (_ & -> & Hs'). by exists caps.
Qed.

Lemma deallocate_sound sp st tr name :
  space ≠ IS_NULL → sound (sp, st, tr) → findable sp name →
  ∃ sp' st' kr, mach_port_deallocate space sp st name = Ok (sp', st', kr) ∧
    sound (sp', st', default [] (given_up st <$> right_at sp name) ++ tr).
Proof.
  intros Hsp (caps & Hs & Hr & Ha) Hf. assert (right_at sp name = caps !! name) as Hat by (apply Hs, Hf).
  destruct (port_deallocate_spec space sp st caps tr name Hsp Hs Hf) as (sp' & st' & kr & Hrun & Hx).
  eexists _, _, _. split; [done|]. rewrite Hat. destruct (caps !! name) as [r|] eqn:Hn; simpl.
  2: { destruct Hx as (_ & -> & Hs'). by exists caps. }
  destruct ((r_type r =? MACH_PORT_TYPE_RECEIVE) || _) eqn:Hty.
  - assert (given_up st r = []) as ->.
    { unfold given_up. destruct (Z.eqb_spec (r_type r) MACH_PORT_TYPE_SEND_ONCE) as [Hx'|]; [|done]. by rewrite Hx' in Hty. }
    destruct Hx as (_ & -> & Hs'). by exists caps.
  - destruct Hx as (_ & Hs' & Hto). eapply (sound_set sp' st st' caps _ _ name r); try done.
    intros Ht. erewrite receive_alive by (done || apply Hs). by eapply less_one_receive; [apply Hs|..].
Qed.

(** What leaves is what the account says. *)
Lemma extracted_copied caps tr st name r0 msgt x :
  rights_ok caps tr st → addresses st → caps !! name = Some r0 → msgt ∈ sending_types →
  let r := seen msgt st r0 in legal msgt true r = true →
  extracted msgt (Some (copied_object r, x)) = copied msgt r.
Proof.
  intros Hok Ha Hn Hm r Hl. unfold extracted, copied_object, copied. destruct (is_dead r) eqn:Hd; [done|].
  assert (IO_VALID (r_object r) = true) as ->; [|done]. apply Ha.
  assert (r = r0 ∧ has_port (r_type r0) = true) as [-> Hh].
  { revert Hl Hd. unfold r, seen, checked, legal, is_dead. destruct (makes msgt) eqn:Hmk; simpl.
    - intros Hl _. split; [done|]. by eapply has_mono; [|exact Hl].
    - destruct (has_port (r_type r0)) eqn:Hh; simpl; [destruct (alive st r0); [done|by simpl]|].
      intros Hl Hd. rewrite Hd in Hl. destruct (sends_once msgt);
        (eapply (has_mono _ _ MACH_PORT_TYPE_PORT_RIGHTS) in Hl; [|done]); unfold has_port in Hh; congruence. }
  destruct (ra_right _ _ _ Hok name r0 Hn) as [(_ & _ & _ & port & Hp & _)|[(Hx & _)|(Hx & _)]];
    [by rewrite Hp|by rewrite Hx in Hh..].
Qed.

Lemma extract_sound sp st tr name msgt :
  space ≠ IS_NULL → sound (sp, st, tr) → findable sp name → msgt ∈ sending_types → map_Forall (λ _, has_room) (ps_ports st) →
  ∃ sp' st' kr res, mach_port_extract_right space sp st name msgt = Ok (sp', st', (kr, res)) ∧
    sound (sp', st', extracted msgt res ++ tr).
Proof.
  intros Hsp (caps & Hs & Hr & Ha) Hf Hm Hroom.
  destruct (extract_right_spec space sp st caps tr name msgt Hsp Hs Hf Hm) as (sp' & st' & [kr res] & Hrun & Hx).
  { intros r port _ Hp. by apply (Hroom _ _ Hp). }
  eexists _, _, _, _. split; [done|]. destruct (caps !! name) as [r0|] eqn:Hn.
  2: { destruct Hx as ([= -> ->] & -> & Hs'). by exists caps. }
  cbv zeta in Hx. assert (has (r_type r0) MACH_PORT_TYPE_RECEIVE = true → seen msgt st r0 = r0) as Hseen.
  { intros Ht. unfold seen. erewrite receive_alive by (done || apply Hs). by destruct (makes msgt). }
  destruct (legal msgt true (seen msgt st r0)) eqn:Hl.
  - destruct Hx as ([= -> ->] & Hs' & Hto). erewrite extracted_copied by (done || apply Hs).
    eapply (sound_set sp' st st' caps _ _ name r0); try done.
    intros Ht. rewrite (Hseen Ht). unfold remains. destruct (moves msgt); [by eapply less_one_receive; [apply Hs|..]|by exists r0].
  - destruct Hx as ([= -> ->] & Hs' & Hto). eapply (sound_set sp' st st' caps _ _ name r0); try done.
    intros Ht. exists r0. by rewrite (Hseen Ht).
Qed.

Lemma allocated_sound sp' st st' caps tr right name :
  allocated caps tr st right name sp' st' → receivers caps st → addresses st → sound (sp', st', tr).
Proof.
  intros [_ _ _ _ Had (p & Hs & Hrc)] Hr Ha. eexists. split; [done|]. split; [by apply Hrc|by apply Had].
Qed.

Lemma same_objects_sound sp' st st' caps tr :
  settled sp' st' caps tr → same_objects st st' → receivers caps st → addresses st → sound (sp', st', tr).
Proof.
  intros Hs [Hp Hss _ _] Hr Ha. exists caps. split; [done|].
  split; [intros q port; rewrite Hp; apply Hr|intros q; rewrite Hp, Hss; apply Ha].
Qed.

(** A fault that is left: the table of the space cannot grow. *)
Definition full (x : config) : Prop := let '(sp, st, tr) := x in ∃ caps, settled sp st caps tr ∧ exhausted caps.

Lemma allocate_sound sp st tr right name :
  space ≠ IS_NULL → sound (sp, st, tr) →
  match mach_port_allocate space sp st right name with
  | Ok (sp', st', _) => sound (sp', st', tr)
  | Fault f => f = FDeref ∧ full (sp, st, tr)
  end.
Proof.
  intros Hsp (caps & Hs & Hr & Ha). pose proof (port_allocate_spec space sp st caps tr right name Hsp Hs) as Hx.
  destruct (mach_port_allocate _ _ _ _ _) as [[[sp' st'] [kr n]]|f]; simpl in Hx.
  - destruct kr; try done.
    + destruct Hx. by eapply allocated_sound.
    + destruct Hx. by eapply same_objects_sound.
    + destruct Hx as (-> & -> & _). by exists caps.
  - destruct Hx. split; [done|]. by exists caps.
Qed.

Lemma allocate_name_sound sp st tr right name :
  space ≠ IS_NULL → sound (sp, st, tr) → name_ok name →
  match mach_port_allocate_name space sp st right name with
  | Ok (sp', st', _) => sound (sp', st', tr)
  | Fault f => f = FDeref ∧ full (sp, st, tr)
  end.
Proof.
  intros Hsp Hx Hnok. destruct (decide (right = MACH_PORT_RIGHT_RECEIVE ∨ right = MACH_PORT_RIGHT_PORT_SET)) as [Hri|Hri].
  - destruct Hx as (caps & Hs & Hr & Ha). pose proof (allocate_name_spec space sp st caps tr right name Hsp Hs Hnok Hri) as Hx.
    destruct (mach_port_allocate_name _ _ _ _ _) as [[[sp' st'] kr]|f]; simpl in Hx; [|done]. destruct kr; try done.
    + by eapply allocated_sound.
    + destruct Hx as (_ & -> & ->). by exists caps.
    + destruct Hx. by eapply same_objects_sound.
    + destruct Hx as (_ & ? & ?). by eapply same_objects_sound.
  - destruct (is_fast (st_space sp)) eqn:Hfast.
    { unfold mach_port_allocate_name, mach_port_allocate_full.
      by rewrite (proj2 (Z.eqb_neq space IS_NULL) Hsp), (proj1 (proj2 Hnok)), Hfast. }
    rewrite allocate_name_other by (done || (intros ->; apply Hri; tauto) || apply Hnok).
    pose proof (allocate_sound sp st tr right name Hsp Hx) as Hy.
    by destruct (mach_port_allocate _ _ _ _ _) as [[[sp' st'] [kr n]]|f].
Qed.

Lemma receive_sound sp st tr type object overflow :
  sound (sp, st, tr) → (type, object) ∈ tr → type = MACH_PORT_TYPE_SEND ∨ type = MACH_PORT_TYPE_SEND_ONCE →
  match run_call (Receive type object overflow) (sp, st, tr) with
  | Ok x => sound x
  | Fault f => f = FDeref ∧ full (sp, st, tr)
  end.
Proof.
  intros (caps & Hs & Hr & Ha) Hin Ht. pose proof (arrive_perm _ _ Hin) as Hperm.
  assert (has_port type = true) as Hh by (by destruct Ht as [-> | ->]).
  destruct (ra_transit _ _ _ (sl_rights _ _ _ _ Hs) _ _ Hin Hh) as [Hz [port Hp]].
  destruct (Ha object) as [Hv Hps]; [by rewrite Hp|].
  pose proof (object_copyout_spec sp st caps _ type object port overflow (settled_perm _ _ _ _ _ Hperm Hs) Hr Ht Hv Hp Hps) as Hx.
  unfold run_call. destruct (ipc_object_copyout _ _ _ _ _) as [[[sp' st'] [kr o]]|f]; ostep.
  2: { destruct Hx as (-> & _ & Hex). split; [done|]. by exists caps. }
  assert (∀ ns, settled sp' st' caps ((type, object) :: arrive (type, object) tr) → touched object st st' ns → sound (sp', st', tr)) as Hback.
  { intros ns Hs' Hto. exists caps. split; [by eapply settled_perm|]. split; [|by eapply addresses_touched].
    eapply receivers_touched; [done..|]. intros n r Hn Hty. by exists r. }
  destruct kr, o as [name|]; try done; simpl in Hx.
  - rewrite bool_decide_true by done. destruct Hx as (_ & Htk & Hob & _ & Hs' & Hto).
    eexists. split; [done|]. split; [|by eapply addresses_touched]. eapply receivers_touched; [done..|].
    intros n r Hn Hty. simpl. destruct (decide (n = name)) as [->|Hne].
    + exists (gains type object (caps !! name)). rewrite lookup_insert_eq. split; [done|].
      rewrite Hn in *. unfold gains. destruct (pegged (Some r)); [done|]. simpl. split; [done|].
      by destruct (receive_types _ _ _ _ _ (sl_rights _ _ _ _ Hs) Hn Hty) as [-> |[-> _]].
    + exists r. rewrite lookup_insert_ne, lookup_delete_ne by done. done.
  - rewrite bool_decide_false by done. destruct Hx as (_ & Hs' & Hto). by eapply Hback.
  - rewrite bool_decide_false by done. destruct Hx as (_ & _ & Hs' & Hto). by eapply Hback.
  - rewrite bool_decide_false by done. destruct Hx as (_ & Hs' & Hto). by eapply Hback.
Qed.

(** ** The system *)

Lemma call_sound c x :
  space ≠ IS_NULL → sound x → enabled c x →
  match run_call c x with
  | Ok y => sound y
  | Fault f => f = FDeref ∧ full x
  end.
Proof.
  intros Hsp Hx He. destruct x as [[sp st] tr]. destruct c as [name|name right|right name|right name|name|name msgt|type object overflow];
    simpl in He.
  - destruct (type_sound sp st tr name Hsp Hx He) as (sp' & st' & res & Hrun & Hy). unfold run_call. by rewrite Hrun.
  - destruct He as [Hf Hri]. destruct (refs_sound sp st tr name right Hsp Hx Hf Hri) as (sp' & st' & res & Hrun & Hy).
    unfold run_call. by rewrite Hrun.
  - pose proof (allocate_sound sp st tr right name Hsp Hx) as Hy. unfold run_call.
    by destruct (mach_port_allocate _ _ _ _ _) as [[[sp' st'] [kr n]]|f].
  - pose proof (allocate_name_sound sp st tr right name Hsp Hx He) as Hy. unfold run_call.
    by destruct (mach_port_allocate_name _ _ _ _ _) as [[[sp' st'] kr]|f].
  - destruct (deallocate_sound sp st tr name Hsp Hx He) as (sp' & st' & res & Hrun & Hy). unfold run_call. by rewrite Hrun.
  - destruct He as (Hf & Hm & Hroom).
    destruct (extract_sound sp st tr name msgt Hsp Hx Hf Hm Hroom) as (sp' & st' & kr & res & Hrun & Hy).
    unfold run_call. by rewrite Hrun.
  - destruct He as [Hin Ht]. by apply receive_sound.
Qed.

(** C1. Whatever system calls of the following a task makes on the names of
    its space, in any order - mach_port_type, mach_port_get_refs,
    mach_port_allocate, mach_port_allocate_name under a valid name other
    than 0xff (index 0, generation 0xff), mach_port_deallocate, and
    mach_port_extract_right of a send or send-once right, made, copied or
    moved - and whatever send and send-once rights that are in transit
    arrive in between, the rights of the space, the rights in transit and
    the counts of the ports stay in account, and no call fails an
    assertion, dereferences a dangling pointer or breaks the lock
    discipline; the only fault left is the read past the table sizes of a
    space that is full. Extracting and receiving a receive right is not
    among the calls; the counts of the ports are assumed to have room for
    one more right, and a name looked up in a fast space to lie in its
    table. *)
Theorem calls_invariant x y :
  space ≠ IS_NULL → sound x → rtc call_step x y →
  sound y ∧ ∀ c, enabled c y → match run_call c y with Ok z => sound z | Fault f => f = FDeref ∧ full y end.
Proof.
  intros Hsp Hx Hs. assert (sound y) as Hy; [|split; [done|intros c Hc; by apply call_sound]].
  induction Hs as [x|x1 x2 x3 (c & He & Hrun) _ IH]; [done|]. apply IH.
  pose proof (call_sound c x1 Hsp Hx He) as Hc. by rewrite Hrun in Hc.
Qed.
End system.
