(* ===== verification/MachPortNames.v ===== *)
(** * Lists of names (ipc/mach_port.c: mach_port_names, mach_port_get_set_status)

    The calls that list the names of a space, or the members of a port set:
    memory for the list is allocated while nothing is locked, and the table
    and the tree are walked under the lock.  The lists are returned as lists;
    handing their memory to the caller is left out. *)

From stdpp Require Import prelude list gmap.
From S2P Require Import Prelude MachPort IpcSplay IpcTypes IpcHash IpcTable IpcEntry IpcPort IpcPset IpcDestroy IpcRight IpcObject.
From S2P Require Import MachPortCall.

(** mach/vm_param.h *)
Definition PAGE_SIZE : Z := 4096.
Definition round_page (x : Z) : Z := Z.land (u32 (x + (PAGE_SIZE - 1))) (Z.lnot (PAGE_SIZE - 1)).

Section names.
Context {IW : iworld} {PW : pworld}.

(** ** mach_port_names *)

(** Writing to an array of [max] elements. *)
Definition array_push {A} (max : Z) (l : list A) (x : A) : outcome (list A) :=
  if Z.of_nat (length l) <? max then Ok (l ++ [x]) else Fault FDeref.

Definition mach_port_names_helper (timestamp max : Z) (x : pstate * list (Z * Z)) (e : ipc_entry) (name : Z) :
    outcome (pstate * list (Z * Z)) :=
  let '(st, names) := x in
  let bits := ie_bits e in
  let request := ie_request e in
  '(st, (bits, request)) ←
    (if has bits MACH_PORT_TYPE_SEND_RIGHTS then
       let port := ie_object e in
       kassert (negb (port =? IP_NULL));;
       st ← ip_lock st port;
       p ← pget st port;
       let died := negb (ip_active p) && IP_TIMESTAMP_ORDER (ip_data p) timestamp in
       st ← ip_unlock st port;
       if died then
         let bits := Z.lor (Z.land bits (Z.lnot IE_BITS_TYPE_MASK)) MACH_PORT_TYPE_DEAD_NAME in
         Ok (st, (if negb (request =? 0) then u32 (bits + 1) else bits, 0))
       else Ok (st, (bits, request))
     else Ok (st, (bits, request)));
  let type := IE_BITS_TYPE bits in
  let type := if negb (request =? 0) then Z.lor type MACH_PORT_TYPE_DNREQUEST else type in
  names ← array_push max names (name, type);
  Ok (st, names).

(** The first loop: room for every name, and the space locked.  [fuel] bounds
    its rounds. *)
Fixpoint names_room (fuel : nat) (sp : istate) (size : Z) : outcome (istate * (kern_return * Z)) :=
  match fuel with
  | O => Fault FLoop
  | S fuel' =>
    sp ← is_write_lock sp;
    if negb (is_active (st_space sp)) then
      sp ← is_write_unlock sp;
      Ok (sp, (KERN_INVALID_TASK, 0))
    else
      let bound := is_table_size (st_space sp) + is_tree_total (st_space sp) in
      let size_needed := round_page (u32 (bound * 4)) in
      if size_needed <=? size then Ok (sp, (KERN_SUCCESS, size))
      else
        sp ← is_write_unlock sp;
        let '(sp, addr1) := kmem sp in
        match addr1 with
        | None => Ok (sp, (KERN_RESOURCE_SHORTAGE, 0))
        | Some _ =>
          let '(sp, addr2) := kmem sp in
          match addr2 with
          | None => Ok (sp, (KERN_RESOURCE_SHORTAGE, 0))
          | Some _ => names_room fuel' sp size_needed
          end
        end
  end.

Definition names_table (sp : istate) (timestamp max : Z) (x : pstate * list (Z * Z)) (index : Z) :
    outcome (pstate * list (Z * Z)) :=
  e ← eread sp (EP_table index);
  if negb (IE_BITS_TYPE (ie_bits e) =? MACH_PORT_TYPE_NONE)
  then mach_port_names_helper timestamp max x e (MACH_PORT_MAKEB index (ie_bits e))
  else Ok x.

Definition names_tree (sp : istate) (timestamp max : Z) (x : pstate * list (Z * Z)) (name tentry : Z) :
    outcome (pstate * list (Z * Z) * bool) :=
  e ← eread sp (EP_tree tentry);
  kassert (negb (IE_BITS_TYPE (ie_bits e) =? MACH_PORT_TYPE_NONE));;
  x ← mach_port_names_helper timestamp max x e name;
  Ok (x, false).

Definition mach_port_names (fuel : nat) (space : Z) (sp : istate) (st : pstate) :
    outcome (istate * pstate * (kern_return * list (Z * Z))) :=
  if space =? IS_NULL then Ok (sp, st, (KERN_INVALID_TASK, []))
  else
    '(sp, (kr, size)) ← names_room fuel sp 0;
    if negb (bool_decide (kr = KERN_SUCCESS)) then Ok (sp, st, (kr, []))
    else
      let max := size / 4 in
      let '(st, timestamp) := ipc_port_timestamp st in
      x ← ofold (names_table sp timestamp max) (st, []) (seqZ 0 (is_table_size (st_space sp)));
      '((st, names), tree) ←
        splay_traverse (Z.to_nat (is_tree_total (st_space sp))) (names_tree sp timestamp max) x (is_tree (st_space sp));
      sp ← is_write_unlock (with_space sp (λ s, set_is_tree s tree));
      Ok (sp, st, (KERN_SUCCESS, names)).

(** ** mach_port_get_set_status *)

(** [actual] counts the members also when there is no room for them. *)
Definition mach_port_gst_helper (pset port maxnames : Z) (x : pstate * (list Z * Z)) :
    outcome (pstate * (list Z * Z)) :=
  let '(st, (names, actual)) := x in
  kassert (negb (port =? IP_NULL));;
  st ← ip_lock st port;
  p ← pget st port;
  kassert (ip_active p);;
  let name := ip_receiver_name p in
  kassert (negb (name =? MACH_PORT_NULL));;
  let set := ip_pset p in
  st ← ip_unlock st port;
  if pset =? set then
    names ← (if actual <? maxnames then array_push maxnames names name else Ok names);
    Ok (st, (names, actual + 1))
  else Ok (st, (names, actual)).

Definition gst_table (sp : istate) (pset maxnames : Z) (x : pstate * (list Z * Z)) (index : Z) :
    outcome (pstate * (list Z * Z)) :=
  e ← eread sp (EP_table index);
  if has (ie_bits e) MACH_PORT_TYPE_RECEIVE then mach_port_gst_helper pset (ie_object e) maxnames x else Ok x.

Definition gst_tree (sp : istate) (pset maxnames : Z) (x : pstate * (list Z * Z)) (name tentry : Z) :
    outcome (pstate * (list Z * Z) * bool) :=
  e ← eread sp (EP_tree tentry);
  kassert (negb (IE_BITS_TYPE (ie_bits e) =? MACH_PORT_TYPE_NONE));;
  x ← (if has (ie_bits e) MACH_PORT_TYPE_RECEIVE then mach_port_gst_helper pset (ie_object e) maxnames x else Ok x);
  Ok (x, false).

Fixpoint gst_loop (fuel : nat) (sp : istate) (st : pstate) (name size : Z) :
    outcome (istate * pstate * (kern_return * list Z)) :=
  match fuel with
  | O => Fault FLoop
  | S fuel' =>
    let '(sp, addr) := kmem sp in
    match addr with
    | None => Ok (sp, st, (KERN_RESOURCE_SHORTAGE, []))
    | Some _ =>
      '(sp, (kr, found)) ← ipc_right_lookup_write sp name;
      match found with
      | None => Ok (sp, st, (kr, []))
      | Some entry =>
        e ← eread sp entry;
        if negb (IE_BITS_TYPE (ie_bits e) =? MACH_PORT_TYPE_PORT_SET) then
          sp ← is_write_unlock sp;
          Ok (sp, st, (KERN_INVALID_RIGHT, []))
        else
          let pset := ie_object e in
          kassert (negb (pset =? IPS_NULL));;
          let maxnames := size / 4 in
          x ← ofold (gst_table sp pset maxnames) (st, ([], 0)) (seqZ 0 (is_table_size (st_space sp)));
          '((st, (names, actual)), tree) ←
            splay_traverse (Z.to_nat (is_tree_total (st_space sp))) (gst_tree sp pset maxnames) x (is_tree (st_space sp));
          sp ← is_write_unlock (with_space sp (λ s, set_is_tree s tree));
          if actual <=? maxnames then Ok (sp, st, (KERN_SUCCESS, names))
          else gst_loop fuel' sp st name (u32 (round_page (u32 (actual * 4)) + PAGE_SIZE))
      end
    end
  end.

Definition mach_port_get_set_status (fuel : nat) (space : Z) (sp : istate) (st : pstate) (name : Z) :
    outcome (istate * pstate * (kern_return * list Z)) :=
  if space =? IS_NULL then Ok (sp, st, (KERN_INVALID_TASK, []))
  else gst_loop fuel sp st name PAGE_SIZE.
End names.
