(* ===== verification/MachPortNamesInv.v ===== *)
(** * What the lists of names contain

    Walking the table and the tree of a space visits every right of the space
    once.  Hence [mach_port_names] returns an exact snapshot of the rights and
    never writes beyond its arrays, and [mach_port_get_set_status] returns the
    names of the members of the port set. *)

From stdpp Require Import prelude list gmap.
From S2P Require Import Prelude MachPort IpcSplay IpcTypes IpcHash IpcTable IpcEntry IpcInv IpcGrow IpcAlloc IpcAllocName IpcUpdate.
From S2P Require Import IpcPort IpcDnreq IpcPortRights IpcPset IpcPsetInv IpcDestroy IpcRight IpcRightEq IpcRightInv IpcRightDealloc.
From S2P Require Import IpcRightCopy IpcObject IpcObjectInv IpcObjectAlloc MachPortCall MachPortCallInv MachPortNames.

Section walk.
Context {IW : iworld}.

(** ** The walk *)

Definition table_at (sp : istate) (i : Z) : option (Z * ipc_entry) :=
  e ← tget (st_table sp) i;
  if IE_BITS_TYPE (ie_bits e) =? 0 then None else Some (MACH_PORT_MAKEB i (ie_bits e), e).
Definition tree_at (sp : istate) (x : Z * Z) : option (Z * ipc_entry) :=
  (λ t, (x.1, ite_entry t)) <$> st_ites sp !! x.2.

Definition walk (sp : istate) : list (Z * ipc_entry) :=
  omap (table_at sp) (seqZ 0 (tsize (st_table sp))) ++ omap (tree_at sp) (tree_elems sp).

Lemma NoDup_omap_fst {A B} (f : A → option (Z * B)) l :
  NoDup l → (∀ x y n a b, x ∈ l → y ∈ l → f x = Some (n, a) → f y = Some (n, b) → x = y) → NoDup (omap f l).*1.
Proof.
  induction 1 as [|x l Hx Hl IH]; intros Hf; [constructor|]. simpl. destruct (f x) as [[n a]|] eqn:Hfx; simpl.
  2: { apply IH. intros y z m b c Hy Hz. apply Hf; by right. }
  constructor; [|apply IH; intros y z m b c Hy Hz; apply Hf; by right].
  intros ([m b] & Heq & (y & Hy & Hfy)%list_elem_of_omap)%list_elem_of_fmap. simpl in Heq. subst m.
  apply Hx. rewrite (Hf x y n a b); [done|by left|by right|done|done].
Qed.

Lemma table_at_Some sp i n e :
  space_wf ∅ sp → i ∈ seqZ 0 (tsize (st_table sp)) → table_at sp i = Some (n, e) →
  denotes ∅ sp n (EP_table i) ∧ eget sp (EP_table i) = Some e.
Proof.
  intros Hw Hi%elem_of_seqZ (e' & He & Hat)%bind_Some.
  destruct (Z.eqb_spec (IE_BITS_TYPE (ie_bits e')) 0) as [|Ht]; [done|]. injection Hat as <- <-.
  pose proof (bits_at_get _ _ _ He) as Hb. split; [|done]. split.
  - assert (i ≠ 0); [|lia]. intros ->. apply Ht. rewrite Hb. apply (tw_zero_type _ _ (sw_table _ _ Hw)).
  - unfold name_at, type_at. rewrite <-Hb. split; [done|by left].
Qed.

Lemma tree_at_Some sp x n e :
  tree_at sp x = Some (n, e) → x ∈ tree_elems sp → denotes ∅ sp n (EP_tree x.2) ∧ eget sp (EP_tree x.2) = Some e.
Proof.
  destruct x as [m p]. intros (t & Ht & [= -> ->])%fmap_Some Hx. split; [done|]. simpl in *. by rewrite Ht.
Qed.

Lemma walk_elem sp n e :
  space_wf ∅ sp → (n, e) ∈ walk sp ↔ ∃ ep, denotes ∅ sp n ep ∧ eget sp ep = Some e.
Proof.
  intros Hw. unfold walk. rewrite elem_of_app, !list_elem_of_omap. split.
  - intros [(i & Hi & Hat)|(x & Hx & Hat)]; eexists; [by apply table_at_Some|by apply tree_at_Some].
  - intros ([i|p] & Hd & He); simpl in Hd, He.
    + left. destruct Hd as (Hi & Hn & [Ht|?]); [|set_solver]. exists i. split; [apply elem_of_seqZ; lia|].
      unfold table_at. rewrite He. simpl. pose proof (bits_at_get _ _ _ He) as Hb. unfold type_at, name_at in *.
      rewrite Hb, (proj2 (Z.eqb_neq _ _) Ht). by rewrite Hn.
    + right. exists (n, p). split; [done|]. unfold tree_at. simpl. destruct (st_ites sp !! p); [|done].
      simpl in *. by injection He as ->.
Qed.

Lemma walk_NoDup sp : space_wf ∅ sp → NoDup (walk sp).*1.
Proof.
  intros Hw. unfold walk. rewrite fmap_app. apply NoDup_app. split_and!.
  - apply NoDup_omap_fst; [apply NoDup_seqZ|]. intros i j n a b Hi Hj Ha Hb.
    destruct (table_at_Some sp i n a) as [Hd _]; [done..|]. destruct (table_at_Some sp j n b) as [Hd' _]; [done..|].
    pose proof (denotes_unique _ _ _ _ _ Hw Hd Hd') as [= <-]. done.
  - intros n ([m e] & Heq & (i & Hi & Hat)%list_elem_of_omap)%list_elem_of_fmap. simpl in Heq. subst m.
    intros ([m e'] & Heq & (x & Hx & Hat')%list_elem_of_omap)%list_elem_of_fmap. simpl in Heq. subst m.
    destruct (table_at_Some sp i n e) as [Hd _]; [done..|]. destruct (tree_at_Some sp x n e') as [Hd' _]; [done..|].
    by pose proof (denotes_unique _ _ _ _ _ Hw Hd Hd').
  - apply NoDup_omap_fst; [by eapply NoDup_fmap_1, (tree_elems_NoDup ∅)|]. intros [m p] [m' p'] n a b Hx Hy Ha Hb.
    apply fmap_Some in Ha as (t & _ & [= -> _]). apply fmap_Some in Hb as (t' & _ & [= -> _]).
    f_equal. by eapply (tree_elem_unique ∅).
Qed.

(** The rights of the space. *)
Lemma walk_rights sp caps :
  spaced ∅ sp caps → prod_map id entry_right <$> walk sp ≡ₚ map_to_list caps.
Proof.
  intros Hs. pose proof (sd_wf _ _ _ Hs) as Hw. apply NoDup_Permutation.
  - apply (NoDup_fmap_1 fst). rewrite <-list_fmap_compose. apply (walk_NoDup sp Hw).
  - apply NoDup_map_to_list.
  - intros [n r]. rewrite elem_of_map_to_list, list_elem_of_fmap. split.
    + intros ([m e] & [= -> ->] & (ep & Hd & He)%walk_elem); [|done]. 
      apply (spaced_entry _ _ _ _ _ _ Hs Hd (not_elem_of_empty m) He).
    + intros Hn. destruct (sd_dom _ _ _ Hs n) as [Hu Hni]; [by rewrite Hn|].
      rewrite <-(sd_view _ _ _ Hs n Hu Hni) in Hn. apply fmap_Some in Hn as (c & Hc & ->).
      destruct (view_entry _ _ _ Hw Hu Hc) as (ep & e & Hd & He & <- & _). exists (n, e).
      split; [unfold prod_map; simpl; by rewrite cap_right_of|]. apply walk_elem; [done|by exists ep].
Qed.

Lemma walk_length sp : space_wf ∅ sp →
  (Z.of_nat (length (walk sp)) ≤ is_table_size (st_space sp) + is_tree_total (st_space sp)).
Proof.
  intros Hw. rewrite (sw_size _ _ Hw), (sw_total _ _ Hw). unfold walk. rewrite length_app.
  assert (∀ A B (f : A → option B) l, (length (omap f l) ≤ length l)%nat) as Hom.
  { intros A B f l. unfold omap. induction l as [|x l IH]; simpl; [done|]. destruct (f x); simpl; lia. }
  pose proof (Hom _ _ (table_at sp) (seqZ 0 (tsize (st_table sp)))) as H1. rewrite length_seqZ in H1.
  pose proof (Hom _ _ (tree_at sp) (tree_elems sp)). unfold tsize in *. lia.
Qed.

(** ** The loops are folds over the walk *)

Section run.
Context {A : Type} (h : A → ipc_entry → Z → outcome A).

Definition visit (x : A) (ne : Z * ipc_entry) : outcome A := h x ne.2 ne.1.

Definition walk_table (sp : istate) (x : A) (index : Z) : outcome A :=
  e ← eread sp (EP_table index);
  if negb (IE_BITS_TYPE (ie_bits e) =? MACH_PORT_TYPE_NONE) then h x e (MACH_PORT_MAKEB index (ie_bits e)) else Ok x.

Definition walk_tree (sp : istate) (x : A) (name tentry : Z) : outcome (A * bool) :=
  e ← eread sp (EP_tree tentry);
  kassert (negb (IE_BITS_TYPE (ie_bits e) =? MACH_PORT_TYPE_NONE));;
  x ← h x e name;
  Ok (x, false).

Lemma walk_table_fold sp x l :
  (∀ i, i ∈ l → is_Some (tget (st_table sp) i)) →
  ofold (walk_table sp) x l = ofold visit x (omap (table_at sp) l).
Proof.
  revert x. induction l as [|i l IH]; intros x Hl; [done|].
  assert (∀ y, ofold (walk_table sp) y l = ofold visit y (omap (table_at sp) l)) as IH'.
  { intros y. apply IH. intros j Hj. apply Hl. by right. }
  destruct (Hl i) as [e He]; [by left|].
  change (omap (table_at sp) (i :: l)) with (match table_at sp i with Some y => y :: omap (table_at sp) l | None => omap (table_at sp) l end).
  assert (walk_table sp x i = match table_at sp i with Some y => visit x y | None => Ok x end) as Hx.
  { unfold walk_table, eread, table_at. change (eget sp (EP_table i)) with (tget (st_table sp) i). rewrite He. simpl.
    change MACH_PORT_TYPE_NONE with 0. by destruct (IE_BITS_TYPE (ie_bits e) =? 0). }
  cbn [ofold]. rewrite Hx. destruct (table_at sp i) as [y|]; cbn [ofold]; [|ostep; apply IH'].
  destruct (visit x y); ostep; [apply IH'|done].
Qed.

Lemma walk_tree_fold sp x l :
  (∀ n p, (n, p) ∈ l → ∃ t, st_ites sp !! p = Some t ∧ IE_BITS_TYPE (ite_bits t) ≠ 0) →
  fold_elems (walk_tree sp) x l = (y ← ofold visit x (omap (tree_at sp) l); Ok (y, l)).
Proof.
  revert x. induction l as [|[n p] l IH]; intros x Hl; [done|].
  assert (∀ y, fold_elems (walk_tree sp) y l = (z ← ofold visit y (omap (tree_at sp) l); Ok (z, l))) as IH'.
  { intros y. apply IH. intros m q Hq. apply (Hl m). by right. }
  destruct (Hl n p) as (t & Ht & Hty); [by left|].
  assert (tree_at sp (n, p) = Some (n, ite_entry t)) as Hat by (unfold tree_at; simpl; by rewrite Ht).
  change (omap (tree_at sp) ((n, p) :: l)) with (match tree_at sp (n, p) with Some y => y :: omap (tree_at sp) l | None => omap (tree_at sp) l end).
  assert (walk_tree sp x n p = (y ← visit x (n, ite_entry t); Ok (y, false))) as Hx.
  { unfold walk_tree, eread. simpl eget. rewrite Ht. simpl fmap. ostep.
    by rewrite (proj2 (Z.eqb_neq (IE_BITS_TYPE (ie_bits (ite_entry t))) MACH_PORT_TYPE_NONE) Hty). }
  rewrite Hat. cbn [fold_elems ofold]. rewrite Hx. destruct (visit x _); ostep; [|done]. rewrite IH'.
  by destruct (ofold visit _ _).
Qed.

Lemma walk_run sp caps x y :
  spaced ∅ sp caps → ofold visit x (walk sp) = Ok y →
  ∃ x1 tree, ofold (walk_table sp) x (seqZ 0 (is_table_size (st_space sp))) = Ok x1 ∧
    splay_traverse (Z.to_nat (is_tree_total (st_space sp))) (walk_tree sp) x1 (is_tree (st_space sp)) = Ok (y, tree) ∧
    spaced ∅ (with_space sp (λ s, set_is_tree s tree)) caps.
Proof.
  intros Hs Hrun. pose proof (sd_wf _ _ _ Hs) as Hw. unfold walk in Hrun. rewrite ofold_app in Hrun.
  apply outcome_bind_ok in Hrun as (x1 & H1 & H2). rewrite (sw_size _ _ Hw).
  exists x1. rewrite walk_table_fold by (intros i Hi%elem_of_seqZ; apply tget_is_Some; lia).
  pose proof (traverse_spec (walk_tree sp) (Z.to_nat (is_tree_total (st_space sp))) x1 (is_tree (st_space sp)) (sw_splay _ _ Hw)) as Htr.
  rewrite (sw_total _ _ Hw) in *. specialize (Htr ltac:(unfold tree_elems; lia)).
  fold (tree_elems sp) in Htr. rewrite walk_tree_fold, H2 in Htr.
  2: { intros n p Hp. destruct (tree_elem_ok _ _ _ _ Hw Hp) as (t & Ht & _ & _ & _ & _ & Hty). exists t. split; [done|]. apply Hty. set_solver. }
  simpl in Htr. destruct Htr as (tree & Hrun & Hwf & Hel). exists tree. split; [done|]. split; [done|].
  apply (spaced_resplayed sp); [done|]. by exists tree.
Qed.
End run.
End walk.

Section names_inv.
Context `{IW : iworld, !undisturbed}.
Context `{PW : pworld, !quiet}.

(** ** mach_port_names *)

(** How a right is listed: a port that died before [ts] is dead. *)
Definition died_by (ts : Z) (st : pstate) (r : right) : bool :=
  has (r_type r) MACH_PORT_TYPE_SEND_RIGHTS &&
  match ps_ports st !! r_object r with
  | Some port => negb (ip_active port) && IP_TIMESTAMP_ORDER (ip_data port) ts
  | None => false
  end.
Definition listed (ts : Z) (st : pstate) (r : right) : right := if died_by ts st r then dead_right r else r.

Lemma same_objects_trans st1 st2 st3 : same_objects st1 st2 → same_objects st2 st3 → same_objects st1 st3.
Proof. intros [] []. split; congruence. Qed.

(** Locking a port and unlocking it again. *)
Lemma lock_unlock st p port :
  ps_ports st !! p = Some port → ip_locked port = false →
  ip_lock st p = Ok (put (ptick st) p (set_ip_locked port true)) ∧
  pget (put (ptick st) p (set_ip_locked port true)) p = Ok (set_ip_locked port true) ∧
  ip_unlock (put (ptick st) p (set_ip_locked port true)) p = Ok (put (ptick st) p port) ∧
  same_objects st (put (ptick st) p port).
Proof.
  intros Hp Hl. split; [by apply ip_lock_quiet|]. split; [apply put_pget|].
  rewrite (ip_unlock_spec _ _ _ (put_get _ _ _)), put_put, unlocked_idem by done. split; [done|].
  split; try done. simpl. by apply insert_id.
Qed.

(** The bits that a dead right is shown with. *)
Lemma dead_bits_type b req : IE_BITS_UREFS b < MACH_PORT_UREFS_MAX →
  let b' := Z.lor (Z.land b (Z.lnot IE_BITS_TYPE_MASK)) MACH_PORT_TYPE_DEAD_NAME in
  IE_BITS_TYPE (if negb (req =? 0) then u32 (b' + 1) else b') = MACH_PORT_TYPE_DEAD_NAME.
Proof.
  intros Hu b'. destruct (rebits_mask b IE_BITS_TYPE_MASK MACH_PORT_TYPE_DEAD_NAME) as [_ Ht Hr]; [done..|].
  fold b' in Ht, Hr.
  assert (IE_BITS_TYPE b' = MACH_PORT_TYPE_DEAD_NAME) as Htb.
  { rewrite Ht. unfold IE_BITS_TYPE. rewrite <-Z.land_assoc.
    replace (Z.land IE_BITS_TYPE_MASK (Z.lnot IE_BITS_TYPE_MASK)) with 0 by done. by rewrite Z.land_0_r. }
  assert (IE_BITS_UREFS b' = IE_BITS_UREFS b) as Hub.
  { rewrite Hr. unfold IE_BITS_UREFS. rewrite <-Z.land_assoc.
    by replace (Z.land IE_BITS_UREFS_MASK (Z.lnot IE_BITS_TYPE_MASK)) with IE_BITS_UREFS_MASK by done; rewrite Z.lor_0_r. }
  destruct (req =? 0); simpl; [done|].
  destruct (rebits_add b' 1) as [_ Ht1 _]; [|by rewrite Ht1].
  rewrite Hub. pose proof (IE_BITS_UREFS_arith b). unfold MACH_PORT_UREFS_MAX in Hu. pose proof (Z.mod_pos_bound b (2 ^ 16)). lia.
Qed.

Lemma names_helper_spec ts max st0 st names e n caps tr :
  rights_ok caps tr st0 → unlocked_ports st0 → same_objects st0 st → caps !! n = Some (entry_right e) →
  Z.of_nat (length names) < max →
  ∃ st', mach_port_names_helper ts max (st, names) e n =
      Ok (st', names ++ [(n, shown_type (listed ts st0 (entry_right e)))]) ∧ same_objects st0 st'.
Proof.
  intros Hok Hu Hso Hn Hmax. unfold mach_port_names_helper, array_push. rewrite (proj2 (Z.ltb_lt _ max) Hmax).
  rewrite (has_type (ie_bits e)) by done. unfold listed, died_by. simpl r_type. simpl r_object.
  destruct (has (IE_BITS_TYPE (ie_bits e)) MACH_PORT_TYPE_SEND_RIGHTS) eqn:Hty.
  2: { ostep. eexists. split; [|done]. unfold shown_type. simpl. by destruct (ie_request e =? 0). }
  destruct (ra_right _ _ _ Hok n _ Hn) as [(_ & Hur & Hz & port & Hp & _)|[(Hx & _)|(Hx & _)]];
    [|simpl in Hx; by rewrite Hx in Hty..].
  simpl in Hz, Hp. rewrite (proj2 (Z.eqb_neq (ie_object e) IP_NULL) Hz). ostep.
  rewrite <-(so_ports _ _ Hso) in Hp. assert (ip_locked port = false) as Hl by (rewrite (so_ports _ _ Hso) in Hp; by eapply Hu).
  destruct (lock_unlock st (ie_object e) port Hp Hl) as (-> & Hget & Hun & Hso'). ostep. rewrite Hget. ostep. rewrite Hun. ostep.
  rewrite (so_ports _ _ Hso) in Hp. rewrite Hp. simpl ip_active. simpl ip_data.
  pose proof (same_objects_trans _ _ _ Hso Hso') as Hsame.
  destruct (negb (ip_active port) && _); ostep.
  - eexists. split; [|done]. do 4 f_equal. rewrite dead_bits_type; [done|].
    destruct Hur as [[_ ?]|[[Hx _]|[_ Hx]]]; [simpl in *; lia|simpl in Hx; by rewrite Hx in Hty|simpl in Hx; rewrite Hx; done].
  - eexists. split; [|done]. unfold shown_type. simpl. by destruct (ie_request e =? 0).
Qed.

Lemma round_page_bounds x : 0 ≤ x < 2 ^ 32 - PAGE_SIZE → x ≤ round_page x ≤ x + 4095.
Proof.
  unfold PAGE_SIZE, round_page. intros Hx. rewrite u32_small by (unfold is_u32, PAGE_SIZE; lia).
  change (PAGE_SIZE - 1) with (Z.ones 12). rewrite <-Z.ldiff_land, Z.ldiff_ones_r, Z.shiftr_div_pow2, Z.shiftl_mul_pow2 by lia.
  change (Z.ones 12) with 4095. change (2 ^ 12) with 4096.
  pose proof (Z.div_mod (x + 4095) 4096). pose proof (Z.mod_pos_bound (x + 4095) 4096). lia.
Qed.

(** How many names there may be. *)
Definition names_bound (sp : istate) : Z := is_table_size (st_space sp) + is_tree_total (st_space sp).

Lemma names_bound_pos sp caps : spaced ∅ sp caps → 0 < names_bound sp.
Proof.
  intros Hs. pose proof (space_wf_size _ _ (sd_wf _ _ _ Hs)). unfold names_bound.
  rewrite (sw_size _ _ (sd_wf _ _ _ Hs)), (sw_total _ _ (sd_wf _ _ _ Hs)). lia.
Qed.

Lemma kmem_released sp caps sp' o : released sp caps → kmem sp = (sp', o) → released sp' caps ∧ names_bound sp' = names_bound sp.
Proof.
  intros Hr Hk. destruct (kmem_spec _ _ _ Hk) as [Hl E]. pose proof (released_evolves _ _ _ Hr E) as Hx.
  rewrite Hl, (rl_locked _ _ Hr) in Hx. split; [done|]. by injection Hk as <- _.
Qed.

Lemma lock_bound sp sp' : is_write_lock sp = Ok sp' → names_bound sp' = names_bound sp.
Proof. unfold is_write_lock. destruct (is_locked _); [done|]. rewrite undisturbed_id. by intros [= <-]. Qed.
Lemma unlock_bound sp sp' : is_write_unlock sp = Ok sp' → names_bound sp' = names_bound sp.
Proof. unfold is_write_unlock. destruct (is_locked _); [|done]. by intros [= <-]. Qed.

Lemma names_room_spec fuel sp caps size :
  released sp caps → names_bound sp < 2 ^ 29 → 0 ≤ size → size = round_page (names_bound sp * 4) ∨ (1 < fuel)%nat → (0 < fuel)%nat →
  ∃ sp' kr size', names_room fuel sp size = Ok (sp', (kr, size')) ∧
    match kr with
    | KERN_SUCCESS => spaced ∅ sp' caps ∧ names_bound sp' ≤ size' / 4
    | KERN_RESOURCE_SHORTAGE => released sp' caps
    | _ => False
    end.
Proof.
  revert sp size. induction fuel as [|fuel IH]; intros sp size Hr Hb Hz Hf Hf0; [lia|]. cbn [names_room].
  destruct (lock_spaced sp caps Hr) as (sp1 & Hrun & Hs1 & _). rewrite Hrun. ostep. rewrite (sd_active _ _ _ Hs1). simpl negb. cbv iota.
  pose proof (lock_bound _ _ Hrun) as Hb1. pose proof (names_bound_pos _ _ Hs1) as Hpos. fold (names_bound sp1).
  rewrite u32_small by (unfold is_u32; lia).
  destruct (round_page_bounds (names_bound sp1 * 4)) as [Hge Hlt]; [unfold PAGE_SIZE; lia|].
  destruct (Z.leb_spec (round_page (names_bound sp1 * 4)) size) as [Hle|Hgt].
  { eexists _, _, _. split; [done|]. split; [done|]. apply Z.div_le_lower_bound; lia. }
  rewrite <-Hb1 in Hf. destruct Hf as [->|Hf]; [lia|].
  destruct (spaced_unlock _ _ Hs1) as (sp2 & Hun & Hr2). rewrite Hun. ostep. apply unlock_bound in Hun.
  destruct (kmem sp2) as [sp3 o1] eqn:Hk1. destruct (kmem_released _ _ _ _ Hr2 Hk1) as [Hr3 Hb3].
  destruct o1 as [a1|]; [|by eexists _, _, _].
  destruct (kmem sp3) as [sp4 o2] eqn:Hk2. destruct (kmem_released _ _ _ _ Hr3 Hk2) as [Hr4 Hb4].
  destruct o2 as [a2|]; [|by eexists _, _, _].
  apply IH; [done|lia|lia| |lia]. left. by replace (names_bound sp4) with (names_bound sp1) by lia.
Qed.

Lemma names_fold_spec ts max st0 l caps tr :
  rights_ok caps tr st0 → unlocked_ports st0 → Z.of_nat (length l) ≤ max →
  (∀ n e, (n, e) ∈ l → caps !! n = Some (entry_right e)) →
  ∃ st', ofold (visit (mach_port_names_helper ts max)) (st0, []) l =
      Ok (st', (λ '(n, e), (n, shown_type (listed ts st0 (entry_right e)))) <$> l) ∧ same_objects st0 st'.
Proof.
  intros Hok Hu Hmax Hl.
  destruct (ofold_inv (visit (mach_port_names_helper ts max)) (λ l1 x, same_objects st0 x.1 ∧
    x.2 = (λ '(n, e), (n, shown_type (listed ts st0 (entry_right e)))) <$> l1) l (st0, [])) as ([st' names] & Hrun & Hso & Hx).
  - done.
  - intros l1 [n e] l2 [st names] Heq [Hso Hx]. simpl in Hso, Hx. subst l. rewrite length_app in Hmax. simpl in Hmax.
    destruct (names_helper_spec ts max st0 st names e n caps tr Hok Hu Hso) as (st' & Hrun & Hso');
      [apply Hl; set_solver|rewrite Hx, length_fmap; lia|].
    eexists. split; [exact Hrun|]. simpl. by rewrite fmap_app, Hx.
  - exists st'. simpl in Hso, Hx. by rewrite Hrun, Hx.
Qed.

Lemma port_names_spec fuel space sp st caps tr :
  space ≠ IS_NULL → settled sp st caps tr → names_bound sp < 2 ^ 29 → (2 ≤ fuel)%nat →
  ∃ sp' st' kr names, mach_port_names fuel space sp st = Ok (sp', st', (kr, names)) ∧
    settled sp' st' caps tr ∧ same_objects st st' ∧
    match kr with
    | KERN_SUCCESS =>
        names ≡ₚ (λ '(n, r), (n, shown_type (listed (ps_timestamp st) st r))) <$> map_to_list caps
    | KERN_RESOURCE_SHORTAGE => names = []
    | _ => False
    end.
Proof.
  intros Hsp [Hr Hok Hu] Hb Hf. unfold mach_port_names. rewrite (proj2 (Z.eqb_neq space IS_NULL) Hsp).
  destruct (names_room_spec fuel sp caps 0 Hr Hb) as (sp1 & kr & size & -> & Hx); [lia|right; lia|lia|]. ostep.
  destruct kr; try done; simpl.
  2: { eexists _, _, _, _. split; [done|]. done. }
  destruct Hx as [Hs1 Hmax].
  destruct (ipc_port_timestamp st) as [st1 ts] eqn:Hts. unfold ipc_port_timestamp in Hts. injection Hts as <- <-.
  set (st1 := set_timestamp _ _). assert (same_objects st st1) as Hso1 by done.
  destruct (names_fold_spec (ps_timestamp st) (size / 4) st1 (walk sp1) caps tr) as (st2 & Hfold & Hso2).
  { by eapply rights_ext. }
  { done. }
  { pose proof (walk_length sp1 (sd_wf _ _ _ Hs1)). unfold names_bound in Hmax. lia. }
  { intros n e (ep & Hd & He)%walk_elem; [|apply Hs1]. apply (spaced_entry _ _ _ _ _ _ Hs1 Hd (not_elem_of_empty n) He). }
  destruct (walk_run _ sp1 caps _ _ Hs1 Hfold) as (x1 & tree & Hrun1 & Hrun2 & Hs2).
  change (names_table sp1 (ps_timestamp st) (size / 4)) with (walk_table (mach_port_names_helper (ps_timestamp st) (size / 4)) sp1).
  change (names_tree sp1 (ps_timestamp st) (size / 4)) with (walk_tree (mach_port_names_helper (ps_timestamp st) (size / 4)) sp1).
  rewrite Hrun1. ostep. rewrite Hrun2. ostep. destruct (spaced_unlock _ _ Hs2) as (sp3 & -> & Hr3). ostep.
  pose proof (same_objects_trans _ _ _ Hso1 Hso2) as Hso.
  eexists _, _, _, _. split; [done|]. split; [by apply (settled_same _ st)|]. split; [done|].
  rewrite <-(walk_rights _ _ Hs1), <-list_fmap_compose. apply Permutation_refl'. apply list_fmap_ext. by intros _ [n e] _.
Qed.

(** C16. mach_port_names returns, each once, all names of the space with
    their types, where a right whose port has died before the call shows as
    a dead name, or KERN_RESOURCE_SHORTAGE and no names; it ends after at
    most two rounds of allocation, never writes past the memory it has
    allocated, and changes neither the rights nor the ports. *)
Theorem port_names_correct fuel space sp st caps tr :
  space ≠ IS_NULL → settled sp st caps tr → names_bound sp < 2 ^ 29 → (2 ≤ fuel)%nat →
  ∃ sp' st' kr names, mach_port_names fuel space sp st = Ok (sp', st', (kr, names)) ∧
    settled sp' st' caps tr ∧ same_objects st st' ∧
    match kr with
    | KERN_SUCCESS =>
        names ≡ₚ (λ '(n, r), (n, shown_type (listed (ps_timestamp st) st r))) <$> map_to_list caps
    | KERN_RESOURCE_SHORTAGE => names = []
    | _ => False
    end.
Proof. apply port_names_spec. Qed.

(** ** mach_port_get_set_status *)

(** The receive right is for a member of the port set. *)
Definition in_set (st : pstate) (s : Z) (r : right) : bool :=
  has (r_type r) MACH_PORT_TYPE_RECEIVE &&
  match ps_ports st !! r_object r with
  | Some port => s =? ip_pset port
  | None => false
  end.
Definition member (st : pstate) (s : Z) (x : Z * right) : option Z := if in_set st s x.2 then Some x.1 else None.
Definition members (st : pstate) (s : Z) (caps : rights_t) : list Z := omap (member st s) (map_to_list caps).

Definition gst_visit (pset maxnames : Z) (x : pstate * (list Z * Z)) (e : ipc_entry) (name : Z) :
    outcome (pstate * (list Z * Z)) :=
  if has (ie_bits e) MACH_PORT_TYPE_RECEIVE then mach_port_gst_helper pset (ie_object e) maxnames x else Ok x.

Lemma gst_visit_spec s max st0 st l e n caps tr :
  rights_ok caps tr st0 → unlocked_ports st0 → receivers caps st0 → same_objects st0 st → 0 ≤ max →
  caps !! n = Some (entry_right e) →
  let l' := l ++ option_list (member st0 s (n, entry_right e)) in
  ∃ st', gst_visit s max (st, (take (Z.to_nat max) l, Z.of_nat (length l))) e n =
      Ok (st', (take (Z.to_nat max) l', Z.of_nat (length l'))) ∧ same_objects st0 st'.
Proof.
  intros Hok Hu Hrc Hso Hmax Hn l'. unfold gst_visit. rewrite (has_type (ie_bits e)) by done.
  unfold l', member, in_set. cbn [fst snd r_type r_object entry_right].
  destruct (has (IE_BITS_TYPE (ie_bits e)) MACH_PORT_TYPE_RECEIVE) eqn:Hty; [|rewrite app_nil_r; by exists st].
  destruct (ra_right _ _ _ Hok n _ Hn) as [(_ & _ & Hz & port & Hp & _ & Hnp)|[(Hx & _)|(Hx & _)]];
    [|simpl in Hx; by rewrite Hx in Hty..].
  cbn [r_type r_object entry_right] in Hz, Hp, Hnp. rewrite Hty in Hnp. destruct Hnp as (Ha & Hnm & Hsp).
  destruct (Hrc _ _ Hp Ha Hsp) as [Hnz _]. rewrite Hp.
  assert (ps_ports st !! ie_object e = Some port) as Hp' by (by rewrite (so_ports _ _ Hso)).
  destruct (lock_unlock st (ie_object e) port Hp' (Hu _ _ Hp)) as (Hlk & Hget & Hun & Hso').
  unfold mach_port_gst_helper. rewrite (proj2 (Z.eqb_neq (ie_object e) IP_NULL) Hz). ostep. rewrite Hlk. ostep. rewrite Hget. ostep.
  cbn [ip_active ip_receiver_name ip_pset set_ip_locked]. rewrite Ha, (proj2 (Z.eqb_neq _ MACH_PORT_NULL) Hnz). ostep.
  rewrite Hun. ostep. pose proof (same_objects_trans _ _ _ Hso Hso') as Hsame.
  destruct (s =? ip_pset port); ostep; [|rewrite app_nil_r; by eexists]. rewrite Hnm. simpl option_list. rewrite length_app. simpl length.
  replace (Z.of_nat (length l + 1)) with (Z.of_nat (length l) + 1) by lia.
  destruct (Z.ltb_spec (Z.of_nat (length l)) max) as [Hlt|Hge].
  - unfold array_push. rewrite !take_ge by (rewrite ?length_app; simpl; lia). rewrite (proj2 (Z.ltb_lt _ max)) by done.
    ostep. by eexists.
  - ostep. rewrite take_app_le by lia. by eexists.
Qed.

Definition walk_members (st : pstate) (s : Z) (l : list (Z * ipc_entry)) : list Z :=
  omap (λ '(n, e), member st s (n, entry_right e)) l.

Lemma gst_fold_spec s max st0 l caps tr :
  rights_ok caps tr st0 → unlocked_ports st0 → receivers caps st0 → 0 ≤ max →
  (∀ n e, (n, e) ∈ l → caps !! n = Some (entry_right e)) →
  ∃ st', ofold (visit (gst_visit s max)) (st0, ([], 0)) l =
      Ok (st', (take (Z.to_nat max) (walk_members st0 s l), Z.of_nat (length (walk_members st0 s l)))) ∧ same_objects st0 st'.
Proof.
  intros Hok Hu Hrc Hmax Hl.
  destruct (ofold_inv (visit (gst_visit s max)) (λ l1 x, same_objects st0 x.1 ∧
    x.2 = (take (Z.to_nat max) (walk_members st0 s l1), Z.of_nat (length (walk_members st0 s l1)))) l (st0, ([], 0)))
    as ([st' y] & Hrun & Hso & Hx).
  - split; [done|]. simpl. by rewrite take_nil.
  - intros l1 [n e] l2 [st y] Heq [Hso Hx]. simpl in Hso, Hx. subst l y.
    destruct (gst_visit_spec s max st0 st (walk_members st0 s l1) e n caps tr Hok Hu Hrc Hso Hmax) as (st' & Hrun & Hso');
      [apply Hl; set_solver|].
    eexists. split; [exact Hrun|]. simpl. split; [done|]. unfold walk_members. rewrite omap_app.
    replace (omap (λ '(n0, e0), member st0 s (n0, entry_right e0)) [(n, e)]) with (option_list (member st0 s (n, entry_right e)));
      [done|]. simpl. by destruct (member _ _ _).
  - exists st'. simpl in Hso, Hx. by rewrite Hrun, Hx.
Qed.

Lemma walk_members_perm sp caps st s : spaced ∅ sp caps → walk_members st s (walk sp) ≡ₚ members st s caps.
Proof.
  intros Hs. unfold members. rewrite <-(walk_rights _ _ Hs). apply Permutation_refl'. unfold walk_members.
  induction (walk sp) as [|[n e] l IH]; [done|]. simpl. unfold prod_map at 1. simpl.
  destruct (member _ _ _); [f_equal|]; apply IH.
Qed.

Lemma members_length st s caps : (length (members st s caps) ≤ size caps)%nat.
Proof.
  unfold members, omap. rewrite <-length_map_to_list. induction (map_to_list caps) as [|x l IH]; simpl; [done|].
  destruct (member _ _ _); simpl; lia.
Qed.

Definition status_post (caps : rights_t) (st : pstate) (name : Z) (kr : kern_return) (names : list Z) : Prop :=
  match kr with
  | KERN_SUCCESS => ∃ r, caps !! name = Some r ∧ r_type r = MACH_PORT_TYPE_PORT_SET ∧
      names ≡ₚ members st (r_object r) caps
  | KERN_INVALID_RIGHT => ∃ r, caps !! name = Some r ∧ r_type r ≠ MACH_PORT_TYPE_PORT_SET
  | KERN_INVALID_NAME => caps !! name = None
  | KERN_RESOURCE_SHORTAGE => True
  | _ => False
  end.

Lemma findable_unlock sp sp' name : findable sp name → is_write_unlock sp = Ok sp' → findable sp' name.
Proof. intros Hf. unfold is_write_unlock. destruct (is_locked _); [|done]. by intros [= <-]. Qed.

Lemma receivers_same caps st st' : receivers caps st → same_objects st st' → receivers caps st'.
Proof. intros Hr Hso p port. rewrite (so_ports _ _ Hso). apply Hr. Qed.

Lemma members_same st st' s caps : same_objects st st' → members st' s caps = members st s caps.
Proof.
  intros Hso. unfold members. apply list_omap_ext. apply Forall_Forall2_diag, Forall_true.
  intros [n r]. unfold member, in_set. by rewrite (so_ports _ _ Hso).
Qed.

Section gst.
Context (caps : rights_t) (tr : transit_t) (name : Z).
Hypothesis Hsize : Z.of_nat (size caps) < 2 ^ 29.

(** One round over the entries. *)
Lemma gst_round sp st s max :
  standing sp st caps tr → receivers caps st → is_Some (caps !! name) → 0 ≤ max →
  ∃ x1 tree sp' st' names,
    ofold (gst_table sp s max) (st, ([], 0)) (seqZ 0 (is_table_size (st_space sp))) = Ok x1 ∧
    splay_traverse (Z.to_nat (is_tree_total (st_space sp))) (gst_tree sp s max) x1 (is_tree (st_space sp)) =
      Ok ((st', (take (Z.to_nat max) names, Z.of_nat (length names))), tree) ∧
    is_write_unlock (with_space sp (λ s, set_is_tree s tree)) = Ok sp' ∧
    settled sp' st' caps tr ∧ same_objects st st' ∧ findable sp' name ∧ names ≡ₚ members st s caps.
Proof.
  intros [Hs Hok Hu] Hrc Hn Hmax.
  destruct (gst_fold_spec s max st (walk sp) caps tr Hok Hu Hrc Hmax) as (st' & Hfold & Hso).
  { intros n e (ep & Hd & He)%walk_elem; [|apply Hs]. apply (spaced_entry _ _ _ _ _ _ Hs Hd (not_elem_of_empty n) He). }
  destruct (walk_run _ sp caps _ _ Hs Hfold) as (x1 & tree & Hrun1 & Hrun2 & Hs2).
  destruct (spaced_unlock _ _ Hs2) as (sp' & Hun & Hr).
  exists x1, tree, sp', st', (walk_members st s (walk sp)). split_and!; try done.
  - rewrite <-Hrun1. apply ofold_ext. intros x i. unfold gst_table, walk_table, gst_visit.
    destruct (eread sp (EP_table i)) as [e|]; [|done]. ostep. rewrite (has_type (ie_bits e)) by done.
    destruct (Z.eqb_spec (IE_BITS_TYPE (ie_bits e)) MACH_PORT_TYPE_NONE) as [->|]; done.
  - by apply (settled_same _ st).
  - eapply findable_unlock; [|done]. by eapply held_findable.
  - by apply walk_members_perm.
Qed.

Lemma gst_loop_spec fuel sp st size :
  settled sp st caps tr → receivers caps st → findable sp name → 0 ≤ size →
  (∀ r, caps !! name = Some r → Z.of_nat (length (members st (r_object r) caps)) ≤ size / 4) ∨ (1 < fuel)%nat → (0 < fuel)%nat →
  ∃ sp' st' kr names, gst_loop fuel sp st name size = Ok (sp', st', (kr, names)) ∧
    settled sp' st' caps tr ∧ same_objects st st' ∧ status_post caps st name kr names.
Proof.
  revert sp st size. induction fuel as [|fuel IH]; intros sp st size Hs Hrc Hf Hz Hfit Hf0; [lia|]. cbn [gst_loop].
  destruct (kmem sp) as [sp1 o] eqn:Hk. pose proof Hs as [Hr Hok Hu]. destruct (kmem_released _ _ _ _ Hr Hk) as [Hr1 _].
  destruct o as [a|]; [|by eexists _, _, _, _].
  assert (findable sp1 name) as Hf1 by (by injection Hk as <- _).
  destruct (found_name sp1 st caps tr name) as (sp2 & Hx); [done..|]. destruct (caps !! name) as [r|] eqn:Hn.
  2: { destruct Hx as [-> Hs2]. ostep. by eexists _, _, _, _. }
  destruct Hx as (ep & e & -> & Hst & Hd & He & Her). ostep. rewrite (eread_get _ _ _ He). ostep.
  assert (IE_BITS_TYPE (ie_bits e) = r_type r ∧ ie_object e = r_object r) as [-> Ho] by (by rewrite <-Her).
  destruct (Z.eqb_spec (r_type r) MACH_PORT_TYPE_PORT_SET) as [Ht|Ht]; simpl negb; cbv iota.
  2: { pose proof Hst as [Hs2 _ _]. destruct (spaced_unlock _ _ Hs2) as (sp3 & -> & Hr3). ostep.
       eexists _, _, _, _. split; [done|]. split; [done|]. split; [done|]. simpl. by exists r. }
  assert (r_object r ≠ IO_NULL) as Hoz.
  { destruct (ra_right _ _ _ Hok _ _ Hn) as [(Hh & _)|[(Hy & _)|(_ & _ & Hy & _)]]; [by rewrite Ht in Hh|by rewrite Ht in Hy|done]. }
  rewrite Ho, (proj2 (Z.eqb_neq (r_object r) IPS_NULL) Hoz). ostep.
  destruct (gst_round sp2 st (r_object r) (size / 4) Hst Hrc) as (x1 & tree & sp3 & st3 & names & Hrun1 & Hrun2 & Hun & Hs3 & Hso & Hf3 & Hp);
    [by rewrite Hn|apply Z.div_pos; lia|].
  rewrite Hrun1. ostep. rewrite Hrun2. ostep. rewrite Hun. ostep.
  pose proof (members_length st (r_object r) caps) as Hlen. rewrite <-(Permutation_length Hp) in Hlen.
  destruct (Z.leb_spec (Z.of_nat (length names)) (size / 4)) as [Hle|Hgt].
  { eexists _, _, _, _. split; [done|]. split; [done|]. split; [done|]. exists r. split; [done|]. split; [done|].
    by rewrite take_ge by lia. }
  destruct Hfit as [Hfit|Hfuel]; [specialize (Hfit r eq_refl); rewrite <-(Permutation_length Hp) in Hfit; lia|].
  rewrite (u32_small (Z.of_nat (length names) * 4)) by (unfold is_u32; lia).
  destruct (round_page_bounds (Z.of_nat (length names) * 4)) as [Hge Hlt]; [unfold PAGE_SIZE; lia|].
  rewrite u32_small by (unfold is_u32, PAGE_SIZE; lia).
  destruct (IH sp3 st3 (round_page (Z.of_nat (length names) * 4) + PAGE_SIZE)) as (sp4 & st4 & kr & l & Hrun & Hs4 & Hso4 & Hpost);
    [done|by eapply receivers_same|done|unfold PAGE_SIZE; lia| |lia|].
  { left. intros r' Hr'. injection Hr' as <-. rewrite (members_same _ _ _ _ Hso), <-(Permutation_length Hp).
    apply Z.div_le_lower_bound; [done|]. unfold PAGE_SIZE. lia. }
  rewrite Hrun. eexists _, _, _, _. split; [done|]. split; [done|]. split; [by eapply same_objects_trans|].
  destruct kr; try done. destruct Hpost as (r' & Hr' & Ht' & Hp'). exists r'. by rewrite <-(members_same _ _ _ _ Hso).
Qed.
End gst.

Lemma set_status_spec fuel space sp st caps tr name :
  space ≠ IS_NULL → settled sp st caps tr → receivers caps st → findable sp name →
  Z.of_nat (size caps) < 2 ^ 29 → (2 ≤ fuel)%nat →
  ∃ sp' st' kr names, mach_port_get_set_status fuel space sp st name = Ok (sp', st', (kr, names)) ∧
    settled sp' st' caps tr ∧ same_objects st st' ∧ status_post caps st name kr names.
Proof.
  intros Hsp Hs Hrc Hf Hsz Hfu. unfold mach_port_get_set_status. rewrite (proj2 (Z.eqb_neq space IS_NULL) Hsp).
  apply gst_loop_spec; [done..|right; lia|lia].
Qed.

(** C17. mach_port_get_set_status returns the names of exactly the receive
    rights whose ports are members of the port set, the errors for an
    unknown name and for a name that is not a port set, or
    KERN_RESOURCE_SHORTAGE; it retries with more memory when the members do
    not fit, never writes past what it has, and changes neither the rights
    nor the ports. *)
Theorem set_status_correct fuel space sp st caps tr name :
  space ≠ IS_NULL → settled sp st caps tr → receivers caps st → findable sp name →
  Z.of_nat (size caps) < 2 ^ 29 → (2 ≤ fuel)%nat →
  ∃ sp' st' kr names, mach_port_get_set_status fuel space sp st name = Ok (sp', st', (kr, names)) ∧
    settled sp' st' caps tr ∧ same_objects st st' ∧ status_post caps st name kr names.
Proof. apply set_status_spec. Qed.
End names_inv.
