(* ===== verification/IpcNotify.v ===== *)
(** * Notification messages (ipc/ipc_notify.c)

    The other files record notifications as events; here is what such an
    event does: a message is allocated, filled in from its template and sent
    with the send-once right of the notification.  The contents of these
    messages are kept in a store of message buffers. *)

From stdpp Require Import prelude list gmap.
From S2P Require Import Prelude MachPort IpcSplay IpcTypes IpcHash IpcTable IpcEntry IpcPort IpcDnreq IpcPortRights IpcPset IpcPsetInv.
From S2P Require Import IpcDestroy IpcRight IpcRightInv IpcRightDealloc IpcObject IpcMqueue IpcKmsg IpcMqueueInv IpcMsgSystem MachPortCall.

(** mach/notify.h; the first is 0100, in octal. *)
Definition MACH_NOTIFY_PORT_DELETED : Z := 65.
Definition MACH_NOTIFY_SEND_ONCE : Z := 71.

(** mach/message.h *)
Definition MACH_MSG_TRAILER_FORMAT_0 : Z := 0.
Definition MACH_MSG_TRAILER_MINIMUM_SIZE : Z := 8.
Definition MACH_MSG_TRAILER_FORMAT_0_SIZE : Z := 20.
Definition KERNEL_SECURITY_TOKEN : Z * Z := (0, 1).

Record mach_msg_format_0_trailer := TRAILER {
  msgh_trailer_type : Z;
  msgh_trailer_size : Z;
  msgh_seqno : Z;
  msgh_sender : Z * Z;
}.

(** i386/ndr_def.h *)
Definition NDR_record : list Z := [0; 0; 0; 0; 1; 0; 0; 0].

(** The header of a message with its size and id. *)
Record notify_header := NH {
  nh_bits : Z;
  nh_size : Z;
  nh_remote_port : Z;
  nh_local_port : Z;
  nh_id : Z;
}.

(** What the five kinds of messages have between header and trailer. *)
Inductive notify_body :=
  | Not_port (NDR : list Z) (not_port : Z)
  | Not_right (msgh_descriptor_count name disposition : Z)
  | Not_count (NDR : list Z) (not_count : Z)
  | Not_nothing.

Record notification_message := NM {
  not_header : notify_header;
  not_body : notify_body;
  not_trailer : mach_msg_format_0_trailer;
}.

Definition set_not_remote_port (n : notification_message) (p : Z) : notification_message :=
  let h := not_header n in
  NM (NH (nh_bits h) (nh_size h) p (nh_local_port h) (nh_id h)) (not_body n) (not_trailer n).

Definition set_not_port (n : notification_message) (x : Z) : notification_message :=
  NM (not_header n)
    (match not_body n with
     | Not_port ndr _ => Not_port ndr x
     | Not_right count _ disposition => Not_right count x disposition
     | b => b
     end) (not_trailer n).

Definition set_not_count (n : notification_message) (x : Z) : notification_message :=
  NM (not_header n) (match not_body n with Not_count ndr _ => Not_count ndr x | b => b end) (not_trailer n).

(** [sizeof], in bytes *)
Definition sizeof_mach_msg_header : Z := 24.
Definition sizeof_body (b : notify_body) : Z :=
  match b with
  | Not_port _ _ => 8 + 4
  | Not_right _ _ _ => 4 + 12
  | Not_count _ _ => 8 + 4
  | Not_nothing => 0
  end.

(** ** The templates *)

Definition ipc_notify_trailer : mach_msg_format_0_trailer :=
  TRAILER MACH_MSG_TRAILER_FORMAT_0 MACH_MSG_TRAILER_MINIMUM_SIZE 0 KERNEL_SECURITY_TOKEN.

Definition ipc_notify_init_port_deleted : notification_message :=
  let b := Not_port NDR_record MACH_PORT_NULL in
  let size := sizeof_mach_msg_header + sizeof_body b + MACH_MSG_TRAILER_FORMAT_0_SIZE in
  NM (NH (MACH_MSGH_BITS MACH_MSG_TYPE_PORT_SEND_ONCE 0) (size - MACH_MSG_TRAILER_FORMAT_0_SIZE)
        MACH_PORT_NULL MACH_PORT_NULL MACH_NOTIFY_PORT_DELETED) b ipc_notify_trailer.

Definition ipc_notify_init_port_destroyed : notification_message :=
  let b := Not_right 1 MACH_PORT_NULL MACH_MSG_TYPE_PORT_RECEIVE in
  let size := sizeof_mach_msg_header + sizeof_body b + MACH_MSG_TRAILER_FORMAT_0_SIZE in
  NM (NH (Z.lor MACH_MSGH_BITS_COMPLEX (MACH_MSGH_BITS MACH_MSG_TYPE_PORT_SEND_ONCE 0))
        (size - MACH_MSG_TRAILER_FORMAT_0_SIZE) MACH_PORT_NULL MACH_PORT_NULL MACH_NOTIFY_PORT_DESTROYED)
    b ipc_notify_trailer.

Definition ipc_notify_init_no_senders : notification_message :=
  let b := Not_count NDR_record 0 in
  let size := sizeof_mach_msg_header + sizeof_body b + MACH_MSG_TRAILER_FORMAT_0_SIZE in
  NM (NH (MACH_MSGH_BITS MACH_MSG_TYPE_PORT_SEND_ONCE 0) (size - MACH_MSG_TRAILER_FORMAT_0_SIZE)
        MACH_PORT_NULL MACH_PORT_NULL MACH_NOTIFY_NO_SENDERS) b ipc_notify_trailer.

Definition ipc_notify_init_send_once : notification_message :=
  let b := Not_nothing in
  let size := sizeof_mach_msg_header + sizeof_body b + MACH_MSG_TRAILER_FORMAT_0_SIZE in
  NM (NH (MACH_MSGH_BITS MACH_MSG_TYPE_PORT_SEND_ONCE 0) (size - MACH_MSG_TRAILER_FORMAT_0_SIZE)
        MACH_PORT_NULL MACH_PORT_NULL MACH_NOTIFY_SEND_ONCE) b ipc_notify_trailer.

Definition ipc_notify_init_dead_name : notification_message :=
  let b := Not_port NDR_record MACH_PORT_NULL in
  let size := sizeof_mach_msg_header + sizeof_body b + MACH_MSG_TRAILER_FORMAT_0_SIZE in
  NM (NH (MACH_MSGH_BITS MACH_MSG_TYPE_PORT_SEND_ONCE 0) (size - MACH_MSG_TRAILER_FORMAT_0_SIZE)
        MACH_PORT_NULL MACH_PORT_NULL MACH_NOTIFY_DEAD_NAME) b ipc_notify_trailer.

(** The templates, as [ipc_notify_init] sets them. *)
Record notify_templates := TEMPLATES {
  ipc_notify_port_deleted_template : notification_message;
  ipc_notify_port_destroyed_template : notification_message;
  ipc_notify_no_senders_template : notification_message;
  ipc_notify_send_once_template : notification_message;
  ipc_notify_dead_name_template : notification_message;
}.

Definition ipc_notify_init : notify_templates :=
  TEMPLATES ipc_notify_init_port_deleted ipc_notify_init_port_destroyed ipc_notify_init_no_senders
    ipc_notify_init_send_once ipc_notify_init_dead_name.

(** ** Sending *)

(** Message buffers in use, by address. *)
Definition buffers := gmap Z notification_message.

(** The message as the queues see it. *)
Definition ikm_of (kmsg : Z) (n : notification_message) : ipc_kmsg :=
  IKM kmsg (nh_remote_port (not_header n)) (nh_bits (not_header n)) (nh_size (not_header n)).

Section notify.
Context {IW : iworld} {PW : pworld}.
Context (ipc_space_kernel : Z) (server : ipc_kmsg → option ipc_kmsg).
(** The templates, the thread that sends, and the bound for the replies of
    the kernel. *)
Context (templates : notify_templates) (self : Z) (fuel : nat).

Definition ikm_alloc (st : pstate) : pstate * option Z := (ptick st, pw_alloc (ps_clock st) st).

Definition ipc_mqueue_send_always (st : pstate) (kmsg : ipc_kmsg) : outcome pstate :=
  '(st, status) ← ipc_mqueue_send ipc_space_kernel server fuel st kmsg MACH_SEND_ALWAYS MACH_MSG_TIMEOUT_NONE self;
  match status with
  | Returned MACH_MSG_SUCCESS => Ok st
  | _ => Fault FAssert
  end.

Definition do_port_deleted (st : pstate) (bufs : buffers) (port name : Z) : outcome (pstate * buffers) :=
  let '(st, kmsg) := ikm_alloc st in
  match kmsg with
  | None =>
    st ← ipc_port_release_sonce st port;
    Ok (st, bufs)
  | Some kmsg =>
    let n := ipc_notify_port_deleted_template templates in
    let n := set_not_remote_port n port in
    let n := set_not_port n name in
    st ← ipc_mqueue_send_always st (ikm_of kmsg n);
    Ok (st, <[kmsg := n]> bufs)
  end.

Definition do_port_destroyed (st : pstate) (bufs : buffers) (port right : Z) : outcome (pstate * buffers) :=
  let '(st, kmsg) := ikm_alloc st in
  match kmsg with
  | None =>
    st ← ipc_port_release_sonce st port;
    st ← ipc_port_release_receive st right;
    Ok (st, bufs)
  | Some kmsg =>
    let n := ipc_notify_port_destroyed_template templates in
    let n := set_not_remote_port n port in
    let n := set_not_port n right in
    st ← ipc_mqueue_send_always st (ikm_of kmsg n);
    Ok (st, <[kmsg := n]> bufs)
  end.

Definition do_no_senders (st : pstate) (bufs : buffers) (port mscount : Z) : outcome (pstate * buffers) :=
  let '(st, kmsg) := ikm_alloc st in
  match kmsg with
  | None =>
    st ← ipc_port_release_sonce st port;
    Ok (st, bufs)
  | Some kmsg =>
    let n := ipc_notify_no_senders_template templates in
    let n := set_not_remote_port n port in
    let n := set_not_count n mscount in
    st ← ipc_mqueue_send_always st (ikm_of kmsg n);
    Ok (st, <[kmsg := n]> bufs)
  end.

Definition do_send_once (st : pstate) (bufs : buffers) (port : Z) : outcome (pstate * buffers) :=
  let '(st, kmsg) := ikm_alloc st in
  match kmsg with
  | None =>
    st ← ipc_port_release_sonce st port;
    Ok (st, bufs)
  | Some kmsg =>
    let n := ipc_notify_send_once_template templates in
    let n := set_not_remote_port n port in
    st ← ipc_mqueue_send_always st (ikm_of kmsg n);
    Ok (st, <[kmsg := n]> bufs)
  end.

Definition do_dead_name (st : pstate) (bufs : buffers) (port name : Z) : outcome (pstate * buffers) :=
  let '(st, kmsg) := ikm_alloc st in
  match kmsg with
  | None =>
    st ← ipc_port_release_sonce st port;
    Ok (st, bufs)
  | Some kmsg =>
    let n := ipc_notify_dead_name_template templates in
    let n := set_not_remote_port n port in
    let n := set_not_port n name in
    st ← ipc_mqueue_send_always st (ikm_of kmsg n);
    Ok (st, <[kmsg := n]> bufs)
  end.

(** The notifications among the events of the other files. *)
Definition do_notification (st : pstate) (bufs : buffers) (n : notification) : outcome (pstate * buffers) :=
  match n with
  | ipc_notify_no_senders port mscount => do_no_senders st bufs port mscount
  | ipc_notify_dead_name port name => do_dead_name st bufs port name
  | ipc_notify_port_deleted port name => do_port_deleted st bufs port name
  | ipc_notify_send_once port => do_send_once st bufs port
  | ipc_notify_port_destroyed port right => do_port_destroyed st bufs port right
  | _ => Ok (st, bufs)
  end.
End notify.

(** ** What is sent *)

Definition notified (n : notification) : option Z :=
  match n with
  | ipc_notify_no_senders port _ | ipc_notify_dead_name port _ | ipc_notify_port_deleted port _
  | ipc_notify_send_once port | ipc_notify_port_destroyed port _ => Some port
  | _ => None
  end.

(** The message of a notification to [p]: id, length and contents. *)
Definition notice (n : notification) : Z * Z * notify_body :=
  match n with
  | ipc_notify_no_senders _ mscount => (70, 36, Not_count NDR_record mscount)
  | ipc_notify_dead_name _ name => (72, 36, Not_port NDR_record name)
  | ipc_notify_port_deleted _ name => (65, 36, Not_port NDR_record name)
  | ipc_notify_port_destroyed _ right => (69, 40, Not_right 1 right MACH_MSG_TYPE_PORT_RECEIVE)
  | _ => (71, 24, Not_nothing)
  end.

Definition complex (n : notification) : bool := if n is ipc_notify_port_destroyed _ _ then true else false.

Definition notice_message (n : notification) (p : Z) : notification_message :=
  let '(id, size, b) := notice n in
  NM (NH (if complex n then 0x80000012 else 0x12) size p MACH_PORT_NULL id) b (TRAILER 0 8 0 (0, 1)).

(** The counts of a port, and what it is to names. *)
Record same_counts (port port' : ipc_port) : Prop := {
  sc_active : ip_active port' = ip_active port;
  sc_name : ip_receiver_name port' = ip_receiver_name port;
  sc_data : ip_data port' = ip_data port;
  sc_requests : ip_dnrequests port' = ip_dnrequests port;
  sc_refs : ip_references port' = ip_references port;
  sc_send : ip_srights port' = ip_srights port;
  sc_once : ip_sorights port' = ip_sorights port;
}.

Section account.
Context {IW : iworld}.

Lemma rights_counts caps tr st p g q mq ws c :
  (∀ port, same_counts port (g port)) → rights_ok caps tr st → rights_ok caps tr (at_queue st p g q mq ws c).
Proof.
  intros Hg [Hr Hpo Ht]. set (st' := at_queue st p g q mq ws c).
  assert (∀ x, ∃ f, (∀ port, same_counts port (f port)) ∧ ps_ports st' !! x = f <$> (ps_ports st !! x)) as Hports.
  { intros x. simpl. destruct (decide (x = p)) as [->|].
    - rewrite lookup_alter_eq. eexists. split; [|done]. intros port. destruct (Hg port), q; by split.
    - exists id. rewrite lookup_alter_ne, option_fmap_id by done. done. }
  assert (∀ s pset, ps_psets st !! s = Some pset → ∃ pset', ps_psets st' !! s = Some pset' ∧
    ips_active pset' = ips_active pset ∧ ips_local_name pset' = ips_local_name pset) as Hsets.
  { intros s pset Hs. simpl. destruct q as [|s']; [by exists pset|]. destruct (decide (s = s')) as [->|].
    - rewrite lookup_alter_eq, Hs. by eexists.
    - rewrite lookup_alter_ne, Hs by done. by exists pset. }
  split.
  - intros n r Hn. destruct (Hr n r Hn) as [(Hh & Hu & Hz & port & Hp & Hq & Hx)|[Hx|(Ht' & Hu & Hz & Hq & pset & Hs & Ha & Hl)]].
    + left. destruct (Hports (r_object r)) as (f & Hf & Hpf). rewrite Hp in Hpf. split_and!; [done..|].
      exists (f port). split; [done|]. destruct (Hf port). unfold names_port, registered, request, ip_receiver in *.
      by rewrite sc_active0, sc_name0, sc_data0, sc_requests0.
    + by right; left.
    + right; right. destruct (Hsets _ _ Hs) as (pset' & Hs' & Ha' & Hl'). split_and!; [done..|]. exists pset'. by rewrite Ha', Hl'.
  - intros x port' Hx. destruct (Hports x) as (f & Hf & Hpf). rewrite Hx in Hpf. symmetry in Hpf.
    apply fmap_Some in Hpf as (port & Hp & ->). destruct (Hpo x port Hp) as [Hdn Hrefs Hs Ho]. destruct (Hf port).
    split; [unfold port_dn_wf in *; by rewrite sc_requests0|..]; by rewrite ?sc_active0, ?sc_refs0, ?sc_send0, ?sc_once0.
  - intros t x Hin Hh. destruct (Ht t x Hin Hh) as [? Hs]. split; [done|]. destruct (Hports x) as (f & _ & ->).
    by apply fmap_is_Some.
Qed.
End account.

(** ** What becomes of a notification *)

Section sent.
Context {IW : iworld}.
Context `{PW : pworld, !quiet}.
Context (kernel : Z) (server : ipc_kmsg → option ipc_kmsg) (self : Z) (fuel : nat).

(** The message is the last of its port, queued or handed to a thread. *)
Record last_sent (p : Z) (m : ipc_kmsg) (st st' : pstate) : Prop := {
  ac_queues : queues_wf (ps_ports st') (ps_psets st');
  ac_order : ∃ ws, ps_woken st' = ws ++ ps_woken st ∧ port_messages st p ++ [m] = delivered ws ++ port_messages st' p;
  ac_others q : q ≠ p → port_messages st' q = port_messages st q;
  ac_notes : ps_notes st' = ps_notes st;
}.

Section delivery.
Context (st : pstate) (p : Z) (port : ipc_port) (m : ipc_kmsg) (caps : rights_t) (tr : transit_t).
Hypothesis Hok : rights_ok caps ((MACH_PORT_TYPE_SEND_ONCE, p) :: tr) st.
Hypothesis Hul : unlocked_ports st.
Hypothesis Hw : queues_wf (ps_ports st) (ps_psets st).
Hypothesis Hp : ps_ports st !! p = Some port.
Hypothesis Hv : IP_VALID p = true.
Hypothesis Hr : ip_receiver port ≠ kernel.
Hypothesis Hm : ikm_remote_port m = p.
Hypothesis Hb : has (ikm_bits m) MACH_MSGH_BITS_CIRCULAR = false.
Hypothesis Hu : unqueued st m.

Lemma live_sent :
  ip_active port = true → 0 ≤ ip_msgcount port → ip_msgcount port + 1 < 2 ^ 32 →
  ∃ st', ipc_mqueue_send_always kernel server self (S fuel) st m = Ok st' ∧ unlocked_ports st' ∧
    rights_ok caps ((MACH_PORT_TYPE_SEND_ONCE, p) :: tr) st' ∧ last_sent p m st st'.
Proof using All.
  intros Ha Hn0 Hn1. destruct (home_queue st p port Hw Hp) as (mq & Hq & Hl & Hc).
  unfold ipc_mqueue_send_always.
  rewrite (send_spec st p port (home p port) mq) by (done || by apply (Hul p)).
  unfold send_state. change (accepts MACH_SEND_ALWAYS m port) with ((ip_msgcount port <? ip_qlimit port) || true || (MACH_MSGH_BITS_REMOTE (ikm_bits m) =? MACH_MSG_TYPE_PORT_SEND_ONCE)).
  rewrite orb_true_r. ostep. eexists. split; [done|].
  assert (Hwf : queues_wf (ps_ports (at_queue st p (deliver_port mq) (home p port) (deliver_queue mq m) (deliver_woken mq m port)
    (S (S (ps_clock st))))) (ps_psets (at_queue st p (deliver_port mq) (home p port) (deliver_queue mq m) (deliver_woken mq m port)
    (S (S (ps_clock st)))))).
  { revert Hu Hp Hq. rewrite <-Hm. intros. by apply (delivery_wf st m port mq). }
  split; [|split; [|split; [exact Hwf|..]]].
  - eapply unlocked_after; [apply gentle_deliver|exact Hul].
  - apply rights_counts; [|done]. intros port0. unfold deliver_port. by destruct (receiver_of mq).
  - exists (deliver_woken mq m port). split; [done|].
    assert (port_messages st p = mine p (imq_messages mq)) as Hpm by (apply (port_messages_home st p port); [done..|apply Hq]).
    rewrite (messages_after st p _ (home p port) mq _ _ _ Hq (gentle_deliver mq) Hw p port Hwf Hp), decide_True by done.
    rewrite Hpm. unfold deliver_queue, deliver_woken, receiver_of. destruct Hc as [Hc|Hc]; rewrite Hc; simpl.
    + by rewrite mine_app, (mine_here p m []).
    + destruct (imq_threads mq); simpl; [by rewrite ?Hc; simpl; rewrite (mine_here p m [])|by rewrite ?Hc].
  - intros x Hx. destruct (ps_ports st !! x) as [portx|] eqn:Hpx.
    + rewrite (messages_after st p _ (home p port) mq _ _ _ Hq (gentle_deliver mq) Hw x portx Hwf Hpx). case_decide as Hd; [|done].
      rewrite (port_messages_home st x portx mq) by (done || rewrite Hd; apply Hq).
      unfold deliver_queue. destruct (receiver_of mq); [done|]. simpl. rewrite mine_app, (mine_other x m []) by congruence.
      by rewrite app_nil_r.
    + unfold port_messages. rewrite at_queue_port by done. by rewrite Hpx.
  - done.
Qed.

Lemma dead_sent :
  ip_active port = false →
  ∃ st', ipc_mqueue_send_always kernel server self (S fuel) st m = Ok st' ∧ unlocked_ports st' ∧
    rights_ok caps tr st' ∧ ps_notes st' = kmsg_gone m :: ps_notes st ∧ ps_woken st' = ps_woken st.
Proof using All.
  intros Ha. destruct (ra_port _ _ _ Hok p port Hp) as [_ Hrefs _ _]. cbn [carried] in Hrefs. unfold covers in Hrefs.
  rewrite Z.eqb_refl in Hrefs. simpl in Hrefs. pose proof (tally_nonneg has_port caps p). pose proof (carried_nonneg has_port tr p).
  unfold ipc_mqueue_send_always. cbn [ipc_mqueue_send]. rewrite Hm, Hv. ostep.
  rewrite (ip_lock_quiet st p port) by (done || by apply (Hul p)). ostep. unfold pget at 1. rewrite put_get. ostep.
  change (ip_receiver (set_ip_locked port true)) with (ip_receiver port). rewrite (proj2 (Z.eqb_neq _ _) Hr), Hb.
  unfold send_round. rewrite Hm. unfold pget at 1. rewrite put_get. ostep. cbn [ip_active set_ip_locked]. rewrite Ha. ostep.
  unfold send_dead. rewrite Hm. rewrite (release_eq _ _ _ (put_get _ _ _)). simpl ip_references.
  rewrite (proj2 (Z.ltb_lt _ _)), (proj2 (Z.leb_le _ _)) by lia. ostep. rewrite put_put.
  rewrite (ip_check_unlock_spec _ _ _ (put_get _ _ _)) by done. ostep.
  pose proof (rights_release caps tr st (ptick st) MACH_PORT_TYPE_SEND_ONCE p port Hok ltac:(done) Hp Ha ltac:(done) ltac:(done)) as Hok'.
  match goal with |- context [notify ?x _] => assert (x = unlocked (ptick st) p (referenced port (-1))) as -> end.
  { pose proof (Hul p port Hp) as Hl. unfold unlocked. simpl ip_references. case_match.
    - unfold put, with_ports. simpl. by rewrite delete_insert_eq.
    - rewrite put_put. destruct port; simpl in *; by subst. }
  eexists. split; [done|]. split; [|split; [by eapply rights_ext; [exact Hok'|..]|]].
  - apply (unlocked_ports_unlocked st (ptick st) p _ []); [exact Hul|apply tick_touched, touched_refl|exact (Hul p port Hp)].
  - unfold unlocked. case_match; done.
Qed.

(** There is no memory for the message. *)
Lemma dropped :
  0 < ip_sorights port →
  ∃ st', ipc_port_release_sonce st p = Ok st' ∧ unlocked_ports st' ∧ rights_ok caps tr st' ∧ touched p st st' [].
Proof using Hok Hul Hp Hv H.
  intros Hso. destruct (ra_port _ _ _ Hok p port Hp) as [Hdn Hrefs Hs Ho]. cbn [carried] in *. unfold covers in *.
  rewrite Z.eqb_refl in *. simpl in Hrefs, Hs, Ho.
  pose proof (tally_nonneg has_port caps p). pose proof (carried_nonneg has_port tr p).
  rewrite (release_sonce_eq st p port), Hv by (done || by apply (Hul p)).
  rewrite (proj2 (Z.ltb_lt _ _)), (proj2 (Z.ltb_lt _ _)), (proj2 (Z.leb_le _ _)) by lia. simpl andb. cbv zeta match.
  set (port1 := referenced (set_ip_sorights port (ip_sorights port - 1)) (-1)).
  assert (rights_ok caps tr (put (ptick st) p port1)) as Hok1.
  { apply (rights_recount caps tr [MACH_PORT_TYPE_SEND_ONCE] [] st _ p port port1); try done.
    - by eapply (ra_transit _ _ _ Hok); [left|].
    - split; simpl; [lia..| |]; intros Ha; specialize (Hs Ha); specialize (Ho Ha); lia. }
  pose proof (Hul p port Hp : ip_locked port1 = false) as Hl1.
  eexists. split; [done|]. destruct (ip_active port).
  - split; [|split; [done|touch]]. eapply (unlocked_ports_put st (ptick st)); [exact Hul|apply tick_touched, touched_refl|done].
  - split; [|split; [by apply rights_unlocked|touch]].
    eapply (unlocked_ports_unlocked st (ptick st)); [exact Hul|apply tick_touched, touched_refl|done].
Qed.
End delivery.

(** A receive right without destination or backup, that can be destroyed. *)
Record in_limbo (st : pstate) (right : Z) (port : ipc_port) : Prop := {
  il_port : ps_ports st !! right = Some port;
  il_valid : IP_VALID right = true;
  il_name : ip_receiver_name port = MACH_PORT_NULL;
  il_destination : ip_destination port = IP_NULL;
  il_backup : ip_pdrequest port = IP_NULL;
  il_destroyable : destroyable right (set_ip_locked port true);
}.

(** The port is destroyed: it is dead, or gone with its last reference, and
    who is concerned is told. *)
Definition given_up (st st' : pstate) (right : Z) : Prop :=
  ∃ port, ps_ports st !! right = Some port ∧
    let dead := corpse (set_ip_locked port true) (ps_timestamp st) in
    ps_ports st' = (if ip_references dead =? 0 then delete right (ps_ports st) else <[right := dead]> (ps_ports st)) ∧
    ps_notes st' = reverse (last_words right port (ip_dnrequests port)) ++ ps_notes st ∧
    ps_woken st' = reverse (resumed <$> ip_blocked port) ++ ps_woken st.

Lemma unlocked_fields st p port :
  ps_ports (unlocked st p port) = (if ip_references port =? 0 then delete p (ps_ports st) else <[p := port]> (ps_ports st)) ∧
  ps_notes (unlocked st p port) = ps_notes st ∧ ps_woken (unlocked st p port) = ps_woken st.
Proof. unfold unlocked. by case_match. Qed.

Lemma corpse_unlocked port now : ip_locked (corpse port now) = false.
Proof. done. Qed.

Lemma release_receive_spec st right port :
  in_limbo st right port → unlocked_ports st →
  ∃ st', ipc_port_release_receive st right = Ok st' ∧ unlocked_ports st' ∧ given_up st st' right.
Proof.
  intros [Hp Hv Hn Hd Hb Hds] Hul. pose proof (Hul _ _ Hp) as Hl. unfold ipc_port_release_receive. rewrite Hv. ostep.
  rewrite (ip_lock_quiet st right port) by done. ostep. rewrite put_pget. ostep.
  change (ip_receiver_name (set_ip_locked port true)) with (ip_receiver_name port).
  change (ip_destination (set_ip_locked port true)) with (ip_destination port).
  rewrite (de_active _ _ Hds), Hn, Hd, !Z.eqb_refl. ostep. rewrite (destroy_spec (ptick st) right _ Hds Hb). ostep.
  change (ps_timestamp (ptick st)) with (ps_timestamp st).
  pose proof (corpse_unlocked (set_ip_locked port true) (ps_timestamp st)) as Hdl.
  remember (corpse (set_ip_locked port true) (ps_timestamp st)) as dead eqn:Hdead.
  change (last_words right (set_ip_locked port true) (ip_dnrequests (set_ip_locked port true))) with (last_words right port (ip_dnrequests port)).
  change (ip_blocked (set_ip_locked port true)) with (ip_blocked port).
  match goal with |- context [unlocked ?s right dead] => set (st2 := s) end.
  assert (ps_ports st2 = ps_ports st) as H1 by done.
  assert (ps_notes st2 = reverse (last_words right port (ip_dnrequests port)) ++ ps_notes st) as H2 by done.
  assert (ps_woken st2 = reverse (resumed <$> ip_blocked port) ++ ps_woken st) as H3 by done.
  clearbody st2. destruct (unlocked_fields st2 right dead) as (F1 & F2 & F3). rewrite H1 in F1. rewrite H2 in F2. rewrite H3 in F3.
  eexists. split; [done|]. split; [|exists port; split; [exact Hp|]; cbv zeta; rewrite <-Hdead; exact (conj F1 (conj F2 F3))].
  intros q port' Hq. rewrite F1 in Hq. case_match.
  - apply lookup_delete_Some in Hq as [_ Hq]. by apply (Hul q).
  - apply lookup_insert_Some in Hq as [[_ <-]|[_ Hq]]; [done|by apply (Hul q)].
Qed.

(** Memory is there, or the notification is dropped; with it goes the
    receive right that it was to carry. *)
Definition notified_state (st st' : pstate) (bufs bufs' : buffers) (caps : rights_t) (tr : transit_t) (n : notification)
    (p : Z) (active : bool) : Prop :=
  match pw_alloc (ps_clock st) st with
  | None => bufs' = bufs ∧ ∃ st1, rights_ok caps tr st1 ∧ touched p st st1 [] ∧
      match n with ipc_notify_port_destroyed _ right => given_up st1 st' right | _ => st' = st1 end
  | Some k =>
    let m := notice_message n p in
    bufs' = <[k := m]> bufs ∧
    if active then rights_ok caps ((MACH_PORT_TYPE_SEND_ONCE, p) :: tr) st' ∧ last_sent p (ikm_of k m) st st'
    else rights_ok caps tr st' ∧ ps_notes st' = kmsg_gone (ikm_of k m) :: ps_notes st ∧ ps_woken st' = ps_woken st
  end.

Lemma notification_run st bufs caps tr n p port run :
  rights_ok caps ((MACH_PORT_TYPE_SEND_ONCE, p) :: tr) st → unlocked_ports st → queues_wf (ps_ports st) (ps_psets st) →
  ps_ports st !! p = Some port → IP_VALID p = true → ip_receiver port ≠ kernel →
  (ip_active port = true → 0 ≤ ip_msgcount port ∧ ip_msgcount port + 1 < 2 ^ 32) →
  (ip_active port = false → pw_alloc (ps_clock st) st = None → 0 < ip_sorights port) →
  (∀ k, pw_alloc (ps_clock st) st = Some k → unqueued st (ikm_of k (notice_message n p)) ∧
     run = (st ← ipc_mqueue_send_always kernel server self (S fuel) (ptick st) (ikm_of k (notice_message n p));
            Ok (st, <[k := notice_message n p]> bufs))) →
  (pw_alloc (ps_clock st) st = None → ∀ right, n = ipc_notify_port_destroyed p right → right ≠ p ∧ ∃ rp, in_limbo st right rp) →
  notified n = Some p →
  (pw_alloc (ps_clock st) st = None → run = (st ← ipc_port_release_sonce (ptick st) p;
     st ← match n with ipc_notify_port_destroyed _ right => ipc_port_release_receive st right | _ => Ok st end; Ok (st, bufs))) →
  ∃ st' bufs', run = Ok (st', bufs') ∧ unlocked_ports st' ∧
    notified_state st st' bufs bufs' caps tr n p (ip_active port).
Proof.
  intros Hok Hul Hw Hp Hv Hr Hn Hd Hsome Hlimbo Hnt Hnone. unfold notified_state.
  assert (rights_ok caps ((MACH_PORT_TYPE_SEND_ONCE, p) :: tr) (ptick st)) as Hok1 by (by eapply rights_ext; [exact Hok|..]).
  destruct (pw_alloc (ps_clock st) st) as [k|] eqn:Hal.
  - destruct (Hsome k eq_refl) as [Hu ->]. set (m := ikm_of k (notice_message n p)) in *.
    assert (ikm_remote_port m = p ∧ has (ikm_bits m) MACH_MSGH_BITS_CIRCULAR = false) as [Hm Hb] by (destruct n; by split).
    destruct (ip_active port) eqn:Ha.
    + destruct (Hn eq_refl) as [Hn0 Hn1].
      destruct (live_sent (ptick st) p port m caps tr Hok1 Hul Hw Hp Hv Hr Hm Hb Hu Ha Hn0 Hn1) as (st' & -> & Hul' & Hok' & Hac).
      ostep. exists st', (<[k := notice_message n p]> bufs). split_and!; [done..|]. by destruct Hac.
    + destruct (dead_sent (ptick st) p port m caps tr Hok1 Hul Hw Hp Hv Hr Hm Hb Hu Ha) as (st' & -> & Hul' & Hok' & Hns & Hws).
      ostep. by exists st', (<[k := notice_message n p]> bufs).
  - rewrite (Hnone eq_refl).
    assert (0 < ip_sorights port) as Hso.
    { destruct (ip_active port) eqn:Ha; [|by apply Hd]. destruct (ra_port _ _ _ Hok p port Hp) as [_ _ _ Ho]. specialize (Ho Ha).
      cbn [carried] in Ho. unfold covers in Ho. rewrite Z.eqb_refl in Ho. simpl in Ho.
      pose proof (tally_nonneg has_once caps p). pose proof (carried_nonneg has_once tr p). lia. }
    destruct (dropped (ptick st) p port caps tr Hok1 Hul Hp Hv Hso) as (st' & -> & Hul' & Hok' & Ht).
    ostep. assert (touched p st st' []) as Ht' by (by destruct Ht).
    assert ((match n with ipc_notify_port_destroyed _ right => ∃ st2, ipc_port_release_receive st' right = Ok st2 ∧
        unlocked_ports st2 ∧ given_up st' st2 right | _ => True end)) as Hg.
    { destruct n; try done. injection Hnt as ->. destruct (Hlimbo eq_refl right eq_refl) as (Hne & rp & [Hrp H1 H2 H3 H4 H5]).
      apply (release_receive_spec st' right rp); [split; [|done..]|done]. by rewrite (to_ports _ _ _ _ Ht'). }
    destruct n; try (ostep; exists st', bufs; split_and!; [done..|]; by exists st').
    destruct Hg as (st2 & -> & Hul2 & Hg). ostep. exists st2, bufs. split_and!; [done..|]. by exists st'.
Qed.

End sent.
