(* ===== verification/IpcExamples.v ===== *)
(** * Concrete states

    A world whose allocator always finds memory and in which no other thread
    runs, a space created in it, a few ports; the theorems applied to them,
    and the behaviours that differ from what the comments of the code
    promise, evaluated. *)

From stdpp Require Import prelude list gmap.
From S2P Require Import Prelude MachPort IpcSplay IpcTypes IpcHash IpcTable IpcEntry IpcInv.
From S2P Require Import IpcDealloc IpcGrow IpcAlloc IpcAllocName IpcUpdate IpcSpace IpcPort.
From S2P Require Import IpcDnreq IpcPortRights IpcCircular IpcPset IpcPsetInv IpcDestroy IpcRight IpcRightEq.

(** ** A space *)

#[export] Instance demo_world : iworld := {|
  space_addr := 0x1000;
  ipc_hash_global_size := 4;
  w_alloc c st := let p := 0x8000 + 64 * Z.of_nat c in
    match st_ites st !! p with Some _ => None | None => Some p end;
  w_other _ st := st;
|}.

#[export] Instance demo_rely : others_rely.
Proof. intros c st _. reflexivity. Qed.

#[export] Instance demo_name_rely name : name_rely name (λ _, True).
Proof.
  split; [done| |done]. intros c st p. simpl. case_match; [done|]. by intros [= <-].
Qed.

Definition demo_start : istate :=
  IST_ (IS 0 false false false [] 0 0 0 (IST 0 ITE_NULL [] []) 0 0 0 false) ∅ [[]; []; []; []] 0.

Lemma demo_hash ites : global_hash [] ites [[]; []; []; []].
Proof.
  split; [by exists 2|done| | |set_solver|set_solver].
  - intros b bucket p Hb Hp. do 4 (destruct b as [|b]; [injection Hb as <-; by apply elem_of_nil in Hp|]). done.
  - constructor.
Qed.

(** The space, with a table of four entries. *)
Definition demo : istate :=
  match ipc_space_create demo_start 0 with Ok (st, _) => st | Fault _ => demo_start end.

Lemma demo_wf : space_wf ∅ demo.
Proof.
  assert (0x1000 ≠ 0) as Ha by done.
  exact (new_space_wf (tick (tick demo_start)) 0x8040 4 0 8 Ha (demo_hash _) eq_refl eq_refl).
Qed.

Lemma space_create_witness :
  ∃ st' kr, ipc_space_create demo_start 0 = Ok (st', kr) ∧
    match kr with
    | KERN_SUCCESS => space_wf ∅ st' ∧ is_active (st_space st') = true ∧
        is_references (st_space st') = 2 ∧ is_locked (st_space st') = false ∧
        is_growing (st_space st') = false ∧
        (∀ n, is_u32 n → space_view st' n = None) ∧
        ∃ st2 ep, ipc_entry_get st' = Ok (st2, (KERN_SUCCESS, Some (MACH_PORT_MAKE 1 0x03000000, ep)))
    | KERN_RESOURCE_SHORTAGE => w_alloc (st_clock demo_start) demo_start = None ∨
        w_alloc (S (st_clock demo_start)) (tick demo_start) = None
    | _ => False
    end.
Proof. apply (space_create_correct demo_start 0 8); [done|apply demo_hash|done]. Defined.

(** The space with the name 0x103 allocated, and in hand. *)
Definition demo_got : istate :=
  match ipc_entry_get demo with Ok (st, _) => st | Fault _ => demo end.

Lemma demo_got_wf : space_wf {[0x103]} demo_got ∧ denotes {[0x103]} demo_got 0x103 (EP_table 1).
Proof.
  destruct (entry_get_wf demo demo_wf eq_refl) as (st' & kr & r & Hrun & _ & Hr).
  assert (ipc_entry_get demo = Ok (demo_got, (KERN_SUCCESS, Some (0x103, EP_table 1)))) as Hx
    by (vm_compute; reflexivity).
  rewrite Hx in Hrun. injection Hrun as <- <- <-. destruct Hr as (_ & Hw & Hd & _). done.
Qed.

(** The space with a dead name. *)
Definition demo_dead : istate :=
  eset demo_got (EP_table 1) (rewrite_entry (0x03000000 + 0x100000 + 1) 0 0).

Lemma demo_dead_wf : space_wf ∅ demo_dead.
Proof.
  destruct demo_got_wf as [Hw Hd].
  apply (rw_wf {[0x103]} ∅ demo_got demo_dead 0x103 (EP_table 1) (IE (0x03000000 + 0x100000 + 1) 0 0 0)).
  eapply (rewrite_spec {[0x103]} ∅ demo_got 0x103 (EP_table 1) (IE 0x03000000 0 0 0)); try done.
  - intros n Hn. set_solver.
  - intros _. split; [done|]. split; [|done]. intros (_ & j & Hj & Hs). exfalso.
    change (tsize (st_table demo_got)) with 4 in Hj.
    assert (j = 0 ∨ j = 1 ∨ j = 2 ∨ j = 3) as [->|[->|[->| ->]]] by lia; done.
Qed.

(** ** The entries of the space *)

Lemma entry_lookup_witness :
  ∃ st' r, ipc_entry_lookup demo_dead 0x103 = Ok (st', r) ∧ space_wf ∅ st' ∧
    space_view demo_dead 0x103 = (ep ← r; cap_of <$> eget st' ep) ∧
    ∀ n, space_view st' n = space_view demo_dead n.
Proof.
  apply (entry_lookup_correct demo_dead 0x103);
    [apply demo_dead_wf|reflexivity|unfold is_u32; lia|intros _; vm_compute; reflexivity].
Defined.

Lemma entry_get_witness :
  ∃ st' kr r, ipc_entry_get demo_dead = Ok (st', (kr, r)) ∧ same_view demo_dead st' ∧
    match r with
    | Some (name, ep) => kr = KERN_SUCCESS ∧ got demo_dead st' name ep
    | None => kr = KERN_NO_SPACE ∧ st' = demo_dead ∧
        ∀ i, 0 < i < tsize (st_table demo_dead) → type_at (st_table demo_dead) i ≠ 0
    end.
Proof. apply (entry_get_correct demo_dead); [apply demo_dead_wf|reflexivity]. Defined.

Lemma entry_dealloc_witness :
  ∃ st', ipc_entry_dealloc demo_dead 0x103 (EP_table 1) = Ok st' ∧ space_wf ∅ st' ∧
    space_view st' 0x103 = None ∧
    ∀ n, is_u32 n → n ≠ 0x103 → space_view st' n = space_view demo_dead n.
Proof.
  apply (entry_dealloc_correct ∅ demo_dead 0x103 (EP_table 1) (IE (0x03000000 + 0x100000 + 1) 0 0 0));
    [apply demo_dead_wf|reflexivity|set_solver| |reflexivity..].
  split; [by split|]. split; [reflexivity|]. by left.
Defined.

(** The space locked. *)
Definition demo_locked : istate := with_space demo_dead (λ s, set_is_locked s true).

Lemma demo_locked_wf : space_wf ∅ demo_locked.
Proof. destruct demo_dead_wf. by split. Qed.

Lemma grow_table_witness :
  ∃ st' kr, ipc_entry_grow_table demo_locked ITS_SIZE_NONE = Ok (st', kr) ∧ grow_post demo_locked st' kr.
Proof.
  pose proof (grow_table_correct demo_locked demo_locked_wf eq_refl eq_refl eq_refl) as Hx.
  exact Hx.
Defined.

Lemma entry_alloc_witness : alloc_post demo_dead (ipc_entry_alloc demo_dead).
Proof. apply (entry_alloc_correct demo_dead); [intros _; apply demo_dead_wf|reflexivity..]. Defined.

Lemma entry_alloc_name_witness :
  alloc_name_post demo_dead 0x503 (ipc_entry_alloc_name demo_dead 0x503).
Proof.
  apply (entry_alloc_name_correct 0x503 (λ _, True));
    [split_and!; [unfold is_u32; lia|reflexivity|done]|apply _|apply _|intros _; apply demo_dead_wf|reflexivity..].
Defined.

Lemma hash_lookup_witness :
  ∃ st' r, ipc_hash_lookup demo_dead 0x5000 = Ok (st', r) ∧ space_wf ∅ st' ∧ same_view demo_dead st' ∧
    (∀ name c, is_u32 name → space_view demo_dead name = Some c →
      IE_BITS_TYPE (cap_bits c) = MACH_PORT_TYPE_SEND → cap_object c = 0x5000 →
      ∃ ep, r = Some (name, ep)) ∧
    (∀ name ep, r = Some (name, ep) → ∃ e, eget st' ep = Some e ∧
      space_view demo_dead name = Some (cap_of e) ∧
      IE_BITS_TYPE (ie_bits e) = MACH_PORT_TYPE_SEND ∧ ie_object e = 0x5000).
Proof. apply (hash_lookup_correct demo_dead 0x5000); [apply demo_dead_wf|done]. Defined.

(** ** Ports *)

#[export] Instance demo_pworld : pworld := {|
  pw_alloc c st := let p := 0x9000 + 64 * Z.of_nat c in
    if decide (IO_VALID p = true ∧ ps_ports st !! p = None ∧ ps_psets st !! p = None) then Some p else None;
  pw_try _ _ := true;
  pw_other _ st := st;
|}.

#[export] Instance demo_quiet : quiet.
Proof. done. Qed.

(** A receive right with one send right, a no-senders request for the port
    0x7000, and one dead-name request out of three. *)
Definition demo_dn : dntable := DN 0x6000 [IPR 2 1; IPR 0x7000 0x103; IPR 3 0; IPR 0 0].
Definition demo_port : ipc_port :=
  IP 2 true false 0x103 0x1000 1 1 0 0x7000 0 (Some demo_dn) 0 0 0 5 [] ipc_mqueue_init 0 0 0.
(** A receive right in limbo, and one in a message to the first. *)
Definition demo_limbo : ipc_port := IP 1 true false 0 0 0 0 0 0 0 None 0 0 0 5 [] ipc_mqueue_init 0 0 0.
Definition demo_transit : ipc_port := IP 1 true false 0 0x5000 0 0 0 0 0 None 0 0 0 5 [] ipc_mqueue_init 0 0 0.
Definition demo_ports : pstate :=
  PST (<[0x5000 := demo_port]> (<[0x5040 := demo_limbo]> (<[0x5080 := demo_transit]> ∅))) ∅ 0 false [] [] 0.

Lemma demo_dn_wf : port_dn_wf demo_port.
Proof.
  split.
  - by exists 1%nat.
  - exists [2; 3]. split_and!.
    + by split_and!.
    + repeat constructor; set_solver.
    + intros i. split.
      * intros [->|[->|[]%elem_of_nil]%elem_of_cons]%elem_of_cons; by split_and!.
      * intros (Hi & Hn). change (tsize (dn_table demo_dn)) with 4 in Hi.
        assert (i = 1 ∨ i = 2 ∨ i = 3) as [->|[->| ->]] by lia; [done|set_solver..].
  - intros i Hi Hn. assert (i < 4) as Hi'.
    { destruct (decide (i < 4)); [done|]. exfalso. apply Hn. unfold rname.
      destruct (tget (dn_table demo_dn) i) eqn:E; [|done]. apply tget_Some in E.
      change (tsize (dn_table demo_dn)) with 4 in E. lia. }
    assert (i = 1 ∨ i = 2 ∨ i = 3) as [->|[->| ->]] by lia; done.
Qed.

Lemma dnrequest_witness :
  ∃ st' kr o, ipc_port_dnrequest demo_ports 0x5000 0x207 0x7040 = Ok (st', (kr, o)) ∧
    match o with
    | Some i => kr = KERN_SUCCESS ∧ ∃ d, let port' := set_ip_dnrequests demo_port (Some d) in
        st' = put demo_ports 0x5000 port' ∧ port_dn_wf port' ∧ 0 < i < dn_length port' ∧
        request demo_port i = None ∧
        ∀ j, request port' j = if decide (j = i) then Some (0x207, 0x7040) else request demo_port j
    | None => kr = KERN_NO_SPACE ∧ st' = demo_ports ∧
        ∀ i, 0 < i < dn_length demo_port → request demo_port i ≠ None
    end.
Proof.
  apply (dnrequest_correct demo_ports 0x5000 demo_port 0x207 0x7040); [reflexivity..|apply demo_dn_wf|done|done].
Defined.

Lemma dncancel_witness :
  ∃ d, let port' := set_ip_dnrequests demo_port (Some d) in
    ipc_port_dncancel demo_ports 0x5000 0x103 1 = Ok (put demo_ports 0x5000 port', 0x7000) ∧
    port_dn_wf port' ∧ dn_length port' = dn_length demo_port ∧
    ∀ j, request port' j = if decide (j = 1) then None else request demo_port j.
Proof.
  apply (dncancel_correct demo_ports 0x5000 demo_port 0x103 1 0x7000);
    [reflexivity..|apply demo_dn_wf|reflexivity].
Defined.

Definition demo_ports_locked : pstate := put demo_ports 0x5000 (set_ip_locked demo_port true).

#[export] Instance demo_kept : port_rely 0x5000.
Proof. intros c st port Hp Hl Hr. by exists port. Qed.

Lemma dngrow_witness :
  dn_shortage demo_ports_locked 0x5000 (set_ip_locked demo_port true) = false ∧
  ∃ st' port1, ps_ports (dn_back demo_ports_locked 0x5000 (set_ip_locked demo_port true)) !! 0x5000 = Some port1 ∧
    port_dn_wf port1 ∧ ipc_port_dngrow demo_ports_locked 0x5000 ITS_SIZE_NONE = Ok (st', KERN_SUCCESS) ∧
    installed st' 0x5000 (set_ip_locked demo_port true) (set_ip_references port1 (ip_references port1 - 1)).
Proof.
  assert (dn_shortage demo_ports_locked 0x5000 (set_ip_locked demo_port true) = false) as E by (vm_compute; reflexivity).
  split; [exact E|]. pose proof (dngrow_correct (p := 0x5000) demo_ports_locked (set_ip_locked demo_port true)) as H.
  cbv zeta in H. rewrite E in H. apply H; [reflexivity..|apply demo_dn_wf|done].
Defined.

(** ** Rights of a port *)

Lemma demo_ports_inv : ports_inv 0x5000 (demo_ports, 0).
Proof.
  intros port Hp. cbn [fst] in Hp. change (Some demo_port = Some port) in Hp. injection Hp as <-.
  split; [done|]. intros _. split; unfold demo_port; simpl; [lia|lia|unfold IO_MAX_REFERENCES; lia|by left].
Qed.

Lemma port_rights_witness :
  ∃ st', ipc_port_make_send demo_ports 0x5000 = Ok st' ∧ ports_inv 0x5000 (st', 0).
Proof.
  eexists. split; [vm_compute; reflexivity|].
  apply (port_rights_invariant 0x5000 (demo_ports, 0)); [reflexivity|apply demo_ports_inv|].
  apply rtc_once, step_make_send. vm_compute. reflexivity.
Defined.


Lemma send_right_roundtrip_witness :
  ∃ st1 st2, ipc_port_make_send demo_ports 0x5040 = Ok st1 ∧ ipc_port_release_send st1 0x5040 = Ok st2 ∧
    ps_ports st2 = <[0x5040 := set_ip_mscount demo_limbo 1]> (ps_ports demo_ports) ∧ ps_notes st2 = [].
Proof.
  apply (send_right_roundtrip demo_ports 0x5040 demo_limbo); try reflexivity;
    unfold demo_limbo, IO_MAX_REFERENCES; simpl; lia.
Defined.

Lemma timestamp_order_witness :
  IP_TIMESTAMP_ORDER 0xfffffffe (u32 (0xfffffffe + 5)) = true ∧
  IP_TIMESTAMP_ORDER (u32 (0xfffffffe + 5)) 0xfffffffe = false.
Proof. apply (timestamp_order 0xfffffffe 5); unfold is_u32; lia. Defined.

(** Three senders wait; the limit rises by two. *)
Definition demo_full : pstate := put demo_ports 0x5000 (set_ip_blocked demo_port [10; 20; 30]).

Lemma set_qlimit_witness :
  ∃ st', ipc_port_set_qlimit demo_full 0x5000 7 = Ok st' ∧
    ps_ports st' = <[0x5000 := set_ip_qlimit (set_ip_blocked demo_port [30]) 7]> (ps_ports demo_full) ∧
    ps_woken st' = [resumed 20; resumed 10].
Proof.
  apply (set_qlimit_correct demo_full 0x5000 (set_ip_blocked demo_port [10; 20; 30]) 7); reflexivity.
Defined.

(** ** Circles *)

Lemma demo_edge a b : edge (ps_ports demo_ports) a b → a = 0x5080 ∧ b = 0x5000.
Proof.
  intros (port & Hp & Ht & <-). simpl in Hp.
  apply lookup_insert_Some in Hp as [[<- <-]|[_ Hp]]; [done|].
  apply lookup_insert_Some in Hp as [[<- <-]|[_ Hp]]; [done|].
  apply lookup_insert_Some in Hp as [[<- <-]|[_ Hp]]; [done|]. by rewrite lookup_empty in Hp.
Qed.

Lemma circularity_witness :
  ∃ st' b, ipc_port_check_circularity demo_ports 0x5040 0x5080 = Ok (st', b) ∧
    (b = true ↔ rtc (edge (ps_ports demo_ports)) 0x5080 0x5040) ∧ same_rest demo_ports st' ∧
    acyclic (ps_ports st') ∧
    ps_ports st' = if b then ps_ports demo_ports
      else joined (ps_ports demo_ports) 0x5040 0x5080 demo_limbo demo_transit.
Proof.
  apply (circularity_correct demo_ports 0x5040 0x5080 demo_limbo demo_transit); try reflexivity.
  - intros q port Hp. simpl in Hp.
    repeat (apply lookup_insert_Some in Hp as [[<- <-]|[_ Hp]]; [by split|]). by rewrite lookup_empty in Hp.
  - intros a Ha. assert (∀ x y, tc (edge (ps_ports demo_ports)) x y → x = 0x5080 ∧ y = 0x5000) as Hx.
    { induction 1 as [x y He|x y z He _ [-> ->]]; [by apply demo_edge|]. by apply demo_edge in He as [-> ?]. }
    apply Hx in Ha as [-> ?]. done.
  - intros a b [-> ->]%demo_edge. by eexists.
  - by split.
Defined.

(** ** Port sets *)

(** One message waits at the port, and a thread waits at the set. *)
Definition demo_msg : ipc_kmsg := IKM 0x6200 0x5000 0 0.
Definition demo_queued : ipc_port :=
  IP 3 true false 0x103 0x1000 0 1 0 0x7000 0 (Some demo_dn) 0 0 1 5 [] (IMQ false [demo_msg] []) 0 0 0.
Definition demo_pset : ipc_pset := IPS 1 true false 0x203 (IMQ false [] [77]).
Definition demo_sets : pstate :=
  PST {[0x5000 := demo_queued]} {[0x6100 := demo_pset]} 9 false [] [] 0.

(** A world of one port and one set. *)
Lemma one_queue_wf p port s pset :
  s ≠ IPS_NULL → imq_locked (ip_messages port) = false → imq_locked (ips_messages pset) = false →
  mq_calm (ip_messages port) → mq_calm (ips_messages pset) →
  NoDup (ikm_addr <$> imq_messages (ip_messages port)) → imq_messages (ips_messages pset) = [] →
  Forall (λ m, ikm_remote_port m = p) (imq_messages (ip_messages port)) →
  (ip_pset port = IPS_NULL ∨
   ip_pset port = s ∧ ip_active port = true ∧ ip_messages port = ipc_mqueue_init) →
  (if ip_pset port =? s then 1 else 0) + (if ips_active pset then 1 else 0) ≤ ips_references pset ≤ IO_MAX_REFERENCES →
  queues_wf {[p := port]} {[s := pset]}.
Proof.
  intros Hs Hl1 Hl2 Hc1 Hc2 Hnd He Hown Hset Hrefs.
  assert (∀ q mq, queue_of {[p := port]} {[s := pset]} q = Some mq →
    q = MQ_port p ∧ mq = ip_messages port ∨ q = MQ_pset s ∧ mq = ips_messages pset) as Hq.
  { intros [p'|s'] mq; simpl; intros Hx; apply fmap_Some in Hx as (x & Hx & ->);
      apply lookup_singleton_Some in Hx as [<- <-]; [by left|by right]. }
  split.
  - intros q mq [[-> ->]|[-> ->]]%Hq; done.
  - intros q mq [[-> ->]|[-> ->]]%Hq; done.
  - intros q mq [[-> ->]|[-> ->]]%Hq; [done|rewrite He; constructor].
  - intros q q' mq mq' m m' [[-> ->]|[-> ->]]%Hq [[-> ->]|[-> ->]]%Hq; rewrite ?He;
      intros Hm Hm'; try done; [by apply elem_of_nil in Hm'|by apply elem_of_nil in Hm].
  - intros p' port' [<- <-]%lookup_singleton_Some; done.
  - intros p' port' [<- <-]%lookup_singleton_Some Hn. destruct Hset as [|(-> & Ha & Hm)]; [done|].
    split_and!; [done..|]. rewrite lookup_singleton_eq. by eexists.
  - intros s' pset' m [<- <-]%lookup_singleton_Some. rewrite He. by intros []%elem_of_nil.
  - intros s' pset' [<- <-]%lookup_singleton_Some. split; [done|].
    unfold members. rewrite map_fmap_singleton. destruct (Z.eqb_spec (ip_pset port) s) as [Hx|Hx].
    + rewrite map_filter_singleton_True, map_size_singleton by done. simpl. lia.
    + rewrite map_filter_singleton_False, map_size_empty by done. simpl. lia.
Qed.

Lemma demo_sets_wf : queues_wf (ps_ports demo_sets) (ps_psets demo_sets).
Proof.
  apply one_queue_wf; [done..|by left|by right| |done| |by left|].
  - repeat constructor. set_solver.
  - by repeat constructor.
  - unfold IO_MAX_REFERENCES. simpl. lia.
Qed.

(** The port joins the set, and the waiting thread gets the message. *)
Lemma pset_move_witness :
  ∃ st' port', ipc_pset_move demo_locked demo_sets 0x5000 0x6100 =
      Ok (with_space demo_locked (λ s, set_is_locked s false), st', KERN_SUCCESS) ∧
    queues_wf (ps_ports st') (ps_psets st') ∧ ps_ports st' !! 0x5000 = Some port' ∧
    ip_locked port' = false ∧ ip_pset port' = 0x6100 ∧ conserved 0x5000 demo_sets st' ∧
    ∃ rs own, came_into 0x5000 0x6100 rs own demo_sets st'.
Proof.
  apply (pset_move_correct demo_locked demo_sets 0x5000 demo_queued 0x6100); [reflexivity|apply demo_sets_wf| |reflexivity..|].
  - intros s pset Hs. simpl in Hs. apply lookup_singleton_Some in Hs as [<- <-]. reflexivity.
  - right. exists demo_pset. split_and!; [reflexivity..|]. unfold IO_MAX_REFERENCES. simpl. lia.
Defined.

(** A member of the set, locked. *)
Definition demo_member : ipc_port :=
  set_ip_locked (set_ip_messages (set_ip_pset demo_queued 0x6100) ipc_mqueue_init) true.
Definition demo_joined : pstate :=
  PST {[0x5000 := demo_member]} {[0x6100 := set_ips_references demo_pset 2]} 9 false [] [] 0.

Lemma set_seqno_witness :
  ∃ st', ipc_port_set_seqno demo_joined 0x5000 4 = Ok st' ∧
    ps_ports st' !! 0x5000 = Some (set_ip_seqno demo_member 4) ∧
    ps_psets st' !! 0x6100 = Some (set_ips_locked (set_ips_references demo_pset 2) true) ∧
    ips_lock st' 0x6100 = Fault FLock.
Proof.
  apply (set_seqno_keeps_set_locked demo_joined 0x5000 demo_member (set_ips_references demo_pset 2) 4);
    [|done|reflexivity..].
  split; [|reflexivity..].
  apply one_queue_wf; [done..|by right|by right|constructor|done|constructor|by right|].
  unfold IO_MAX_REFERENCES. simpl. lia.
Defined.

(** ** The end of a port *)

Lemma demo_destroyable : destroyable 0x5000 (set_ip_locked demo_queued true).
Proof.
  split; try done; [by apply Forall_singleton|].
  destruct demo_dn_wf as [H1 H2 H3]. by split.
Qed.

Lemma port_destroy_witness :
  ∃ st', ipc_port_destroy (put demo_sets 0x5000 (set_ip_locked demo_queued true)) 0x5000 = Ok st' ∧
    ps_ports st' = {[0x5000 := corpse (set_ip_locked demo_queued true) 9]} ∧
    ps_notes st' = [ipc_notify_dead_name 0x7000 0x103; ipc_kmsg_destroy (IKM 0x6200 0 0 0); ipc_notify_send_once 0x7000].
Proof.
  destruct (port_destroy_correct (put demo_sets 0x5000 (set_ip_locked demo_queued true)) 0x5000
    (set_ip_locked demo_queued true)) as (st' & Hrun & Hp & _ & Hn & _);
    [reflexivity|apply demo_destroyable|reflexivity|].
  exists st'. split; [exact Hrun|]. rewrite Hp, Hn. split; vm_compute; reflexivity.
Defined.

(** ** Where the code does not do what its comments say *)

(** Growing to a size the table already has: success, but unlocked. *)
Theorem grow_target_unlocked `{W : iworld} st target osize size :
  is_active (st_space st) = true → is_locked (st_space st) = true → is_growing (st_space st) = false →
  its_size (Nat.pred (is_table_next (st_space st))) = Ok osize →
  its_size (is_table_next (st_space st)) = Ok size →
  target ≠ ITS_SIZE_NONE → target ≤ osize →
  ipc_entry_grow_table st target = Ok (with_space st (λ s, set_is_locked s false), KERN_SUCCESS).
Proof.
  intros Ha Hl Hg Hos Hsz Hn Ht. unfold ipc_entry_grow_table.
  change ipc_table_entries_size with (S 511). cbn [grow_loop]. rewrite Ha. ostep.
  rewrite Hg, Hsz. ostep. rewrite Hos. ostep.
  rewrite (proj2 (Z.eqb_neq _ _) Hn), (proj2 (Z.leb_le _ _) Ht). ostep.
  unfold is_write_unlock. rewrite Hl. done.
Qed.

Lemma grow_target_unlocked_witness :
  ipc_entry_grow_table demo_locked 4 = Ok (with_space demo_locked (λ s, set_is_locked s false), KERN_SUCCESS).
Proof. apply (grow_target_unlocked demo_locked 4 4 8); try reflexivity; unfold ITS_SIZE_NONE; lia. Defined.

(** A port with a full table of dead-name requests is to have room for
    sixteen: success, but the table is the same. *)
Definition demo_dn_small : ipc_port :=
  set_ip_locked (set_ip_dnrequests demo_port (Some (DN 0x6000 [IPR 0 0; IPR 0x7000 0x103]))) true.

Theorem dngrow_target_ignored :
  match ipc_port_dngrow (put demo_ports 0x5000 demo_dn_small) 0x5000 16 with
  | Ok (st', kr) => kr = KERN_SUCCESS ∧
      ip_dnrequests <$> ps_ports st' !! 0x5000 = Some (ip_dnrequests demo_dn_small)
  | Fault _ => False
  end.
Proof. vm_compute. split; reflexivity. Qed.

(** The name of entry 0 can be allocated, and is then not found. *)
Theorem name_of_entry_zero_lost :
  match ipc_entry_alloc_name demo 0xff with
  | Ok (st, (KERN_SUCCESS, Some ep)) =>
    match ipc_entry_lookup (eset st ep (λ e, set_ie_bits e (Z.lor MACH_PORT_TYPE_DEAD_NAME 1))) 0xff with
    | Ok (_, r) => r = None
    | Fault _ => False
    end
  | _ => False
  end.
Proof. vm_compute. reflexivity. Qed.

(** While [ipc_entry_alloc_name] waits for memory, another thread allocates
    the name. *)
Definition race_world : iworld := {|
  space_addr := 0x1000;
  ipc_hash_global_size := 4;
  w_alloc c st := Some (0x8000 + 64 * Z.of_nat c);
  w_other c st := if (4 <=? c)%nat
    then eset st (EP_table 1) (rewrite_entry (0x07000000 + MACH_PORT_TYPE_DEAD_NAME + 1) 0 0) else st;
|}.

Theorem alloc_name_race : ipc_entry_alloc_name (W := race_world) demo_dead 0x107 = Fault FAssert.
Proof. vm_compute. reflexivity. Qed.
