(* ===== verification/IpcRightExamples.v ===== *)
(** * Concrete rights

    A space to which a send right for a port of another space is given, and
    which copies it, moves it and gives it up: the theorems on rights applied
    to that space. *)

From stdpp Require Import prelude list gmap.
From S2P Require Import Prelude MachPort IpcSplay IpcTypes IpcHash IpcTable IpcEntry IpcInv IpcUpdate IpcSpace IpcPort.
From S2P Require Import IpcDnreq IpcPortRights IpcPset IpcDestroy IpcRight IpcRightEq IpcRightInv IpcRightDealloc IpcRightCopy.
From S2P Require Import IpcObject IpcObjectInv IpcObjectAlloc IpcExamples.

(** ** The space, with a blank entry for the port 0x5000 in hand *)

Definition demo_blank : istate :=
  with_space (set_object demo_got (EP_table 1) 0x5000) (λ s, set_is_locked s true).
Definition demo_blank_entry : ipc_entry := IE 0x03000000 0x5000 0 0.

Lemma demo_view n : is_u32 n → space_view demo n = None.
Proof.
  intros Hn. apply (view_None ∅); [apply demo_wf|done|].
  intros [i|p] Hd; [|by apply elem_of_nil in Hd]. destruct Hd as (Hi & _ & [Ht|?]); [|set_solver].
  change (tsize (st_table demo)) with 4 in Hi.
  assert (i = 1 ∨ i = 2 ∨ i = 3) as [->|[->| ->]] by lia; by apply Ht.
Qed.

Lemma demo_blank_hand : hand {[0x103]} demo_blank ∅ 0x103 (EP_table 1) demo_blank_entry false.
Proof.
  set (sp := with_space demo_got (λ s, set_is_locked s true)).
  assert (hand {[0x103]} sp ∅ 0x103 (EP_table 1) (IE 0x03000000 0 0 0) false) as Hh.
  { destruct demo_got_wf as [Hw Hd].
    apply (hand_fresh demo); try done.
    - intros n Hn. by rewrite demo_view.
    - intros n. rewrite lookup_empty. by intros [].
    - intros n Hn. destruct (entry_get_wf demo demo_wf eq_refl) as (st' & kr & r & Hrun & Hsv & _).
      assert (ipc_entry_get demo = Ok (demo_got, (KERN_SUCCESS, Some (0x103, EP_table 1)))) as Hx
        by (vm_compute; reflexivity).
      rewrite Hx in Hrun. injection Hrun as <- _ _. apply (Hsv n Hn).
    - by destruct Hw. }
  apply (hand_set _ _ _ _ _ _ _ (λ e, set_ie_object e 0x5000) 0x03000000 0x5000 0 Hh); [done|apply same_high_refl|done].
Qed.

(** A port of the space 0x2000 that has one send right, in transit. *)
Definition demo_target : ipc_port := IP 2 true true 0x203 0x2000 1 1 0 0x7000 0 None 0 0 0 5 [] ipc_mqueue_init 0 0 0.
Definition demo_others : pstate := PST {[0x5000 := demo_target]} ∅ 0 false [] [] 0.

Lemma demo_transit_ok : rights_ok ∅ [(MACH_PORT_TYPE_SEND, 0x5000)] demo_others.
Proof.
  split.
  - intros n r Hn. by rewrite lookup_empty in Hn.
  - intros p port Hp. simpl in Hp. apply lookup_singleton_Some in Hp as [<- <-].
    split; [done|..]; vm_compute; by intros.
  - intros t p [[= -> ->]|[]%elem_of_nil]%elem_of_cons _. split; [done|]. by eexists.
Qed.

Lemma demo_alone q port : q ≠ 0x5000 → ps_ports demo_others !! q = Some port → ip_locked port = false.
Proof. intros Hq Hp. simpl in Hp. by apply lookup_singleton_Some in Hp as [<- _]. Qed.

(** ** The right is given to the space *)

Lemma demo_takes : takes ∅ MACH_PORT_TYPE_SEND 0x5000 demo_target None.
Proof. intros _. split; [done|]. intros n r Hn. by rewrite lookup_empty in Hn. Qed.

Definition demo_out : outcome (istate * pstate * kern_return) :=
  ipc_right_copyout demo_blank demo_others 0x103 (EP_table 1) MACH_MSG_TYPE_PORT_SEND true 0x5000.

Lemma right_copyout_witness :
  ∃ sp' st', demo_out = Ok (sp', st', KERN_SUCCESS) ∧
    standing sp' st' {[0x103 := Right MACH_PORT_TYPE_SEND 1 0x5000 0]} [].
Proof.
  destruct (right_copyout_correct demo_blank demo_others ∅ [] 0x103 (EP_table 1) demo_blank_entry 0x5000
    MACH_PORT_TYPE_SEND demo_target None true) as (sp' & st' & Hrun & _ & Hst);
    [split; [apply demo_blank_hand|reflexivity]|apply demo_transit_ok|reflexivity..| |by left|apply demo_takes|].
  - apply demo_alone.
  - by exists sp', st'.
Defined.

Definition demo_sent : istate := Eval vm_compute in match demo_out with Ok (sp, _, _) => sp | Fault _ => demo_blank end.
Definition demo_sent_ports : pstate := Eval vm_compute in match demo_out with Ok (_, st, _) => st | Fault _ => demo_others end.
Definition demo_send : right := Right MACH_PORT_TYPE_SEND 1 0x5000 0.
Definition demo_send_entry : ipc_entry := IE 0x03010001 0x5000 0 0.

Lemma demo_standing : standing demo_sent demo_sent_ports {[0x103 := demo_send]} [].
Proof.
  destruct (copyout_send_new demo_blank demo_others ∅ [] 0x103 (EP_table 1) demo_blank_entry 0x5000 MACH_PORT_TYPE_SEND
    demo_target None (conj demo_blank_hand eq_refl) demo_transit_ok eq_refl eq_refl eq_refl eq_refl demo_alone
    (or_introl eq_refl) true eq_refl eq_refl) as (sp' & st' & Hrun & (H1 & H2 & H3 & _)); [apply demo_takes; done..|].
  assert (demo_out = Ok (demo_sent, demo_sent_ports, KERN_SUCCESS)) as Hx by (vm_compute; reflexivity).
  unfold demo_out in Hx. rewrite Hrun in Hx. injection Hx as -> ->. by split.
Qed.

Lemma demo_sent_denotes : denotes ∅ demo_sent 0x103 (EP_table 1) ∧ eget demo_sent (EP_table 1) = Some demo_send_entry.
Proof. split; [split_and!; [done..|]|vm_compute; reflexivity]. by left. Qed.


(** The right is given up: no senders are left. *)
Lemma right_dealloc_witness :
  ∃ sp' st', ipc_right_dealloc demo_sent demo_sent_ports 0x103 (EP_table 1) = Ok (sp', st', KERN_SUCCESS) ∧
    settled sp' st' ∅ [] ∧ ps_notes st' = [ipc_notify_no_senders 0x7000 1].
Proof.
  destruct demo_sent_denotes as [Hd He].
  destruct (right_dealloc_correct _ _ _ _ _ _ _ demo_standing Hd He) as (sp' & st' & kr & Hrun & -> & Hs & Hto).
  exists sp', st'. split; [done|]. split; [exact Hs|]. apply Hto.
Defined.

(** The right is moved into a message. *)
Lemma right_copyin_witness :
  ∃ sp' st', ipc_right_copyin demo_sent demo_sent_ports 0x103 (EP_table 1) MACH_MSG_TYPE_MOVE_SEND false =
      Ok (sp', st', Some (0x5000, 0)) ∧
    rights_ok ∅ [(MACH_PORT_TYPE_SEND, 0x5000)] st'.
Proof.
  destruct demo_sent_denotes as [Hd He].
  destruct (right_copyin_correct _ _ _ _ _ _ _ MACH_MSG_TYPE_MOVE_SEND false demo_standing Hd He)
    as (sp' & st' & Hrun & _ & _ & _ & Hok).
  - intros port Hp. vm_compute in Hp. injection Hp as <-. vm_compute. done.
  - decide_compute.
  - exists sp', st'. split; [exact Hrun|exact Hok].
Defined.

(** ** The same by name *)

#[export] Instance demo_undisturbed : undisturbed.
Proof. done. Qed.

(** The same right when its port has died. *)
Definition demo_sent_dead : pstate :=
  with_ports demo_sent_ports (λ m, (λ port, set_ip_active port false) <$> m).

(** A right for a live port, for a dead port, and a dead name. *)
Lemma right_dealloc_delta_witness :
  ipc_right_dealloc demo_sent demo_sent_ports 0x103 (EP_table 1) =
    ipc_right_delta demo_sent demo_sent_ports 0x103 (EP_table 1) MACH_PORT_RIGHT_SEND (-1) ∧
  ipc_right_dealloc demo_sent demo_sent_dead 0x103 (EP_table 1) =
    ipc_right_delta demo_sent demo_sent_dead 0x103 (EP_table 1) MACH_PORT_RIGHT_DEAD_NAME (-1) ∧
  ipc_right_dealloc demo_locked demo_ports 0x103 (EP_table 1) =
    ipc_right_delta demo_locked demo_ports 0x103 (EP_table 1) MACH_PORT_RIGHT_DEAD_NAME (-1).
Proof.
  split; [|split].
  - refine (right_dealloc_delta demo_sent demo_sent_ports 0x103 (EP_table 1) demo_send_entry eq_refl eq_refl _ _);
      [split; vm_compute; done|decide_compute].
  - refine (right_dealloc_delta demo_sent demo_sent_dead 0x103 (EP_table 1) demo_send_entry eq_refl eq_refl _ _);
      [split; vm_compute; done|decide_compute].
  - refine (right_dealloc_delta demo_locked demo_ports 0x103 (EP_table 1) (IE (0x03000000 + 0x100000 + 1) 0 0 0) eq_refl eq_refl _ _);
      [split; vm_compute; done|decide_compute].
Defined.

Definition demo_free : istate := with_space demo_sent (λ s, set_is_locked s false).

Lemma demo_settled : settled demo_free demo_sent_ports {[0x103 := demo_send]} [].
Proof.
  destruct demo_standing as [Hs Hok Hu]. destruct (spaced_unlock _ _ Hs) as (sp & Hrun & Hr).
  split; [|done..]. unfold is_write_unlock in Hrun. by injection Hrun as <-.
Qed.

Lemma object_copyin_witness :
  ∃ sp' st' res, ipc_object_copyin demo_free demo_sent_ports 0x103 MACH_MSG_TYPE_MOVE_SEND = Ok (sp', st', res) ∧
    res = (KERN_SUCCESS, Some 0x5000) ∧ settled sp' st' ∅ [(MACH_PORT_TYPE_SEND, 0x5000)].
Proof.
  destruct (object_copyin_correct _ _ _ _ 0x103 MACH_MSG_TYPE_MOVE_SEND demo_settled)
    as (sp' & st' & res & Hrun & Hres & Hs & _).
  - split; [unfold is_u32; lia|done].
  - decide_compute.
  - intros r port Hr Hp. vm_compute in Hr. injection Hr as <-. vm_compute in Hp. injection Hp as <-. vm_compute. done.
  - exists sp', st', res. split; [exact Hrun|]. split; [exact Hres|exact Hs].
Defined.

(** ** A right that is received twice *)

#[export] Instance demo_fresh_objects : fresh_objects.
Proof. intros c st p. simpl. case_decide; [|done]. by intros [= <-]. Qed.

#[export] Instance demo_fresh_tree_entries : fresh_tree_entries.
Proof. intros c st p. simpl. case_match eqn:Hx; [done|]. by intros [= <-]. Qed.

Lemma demo_released : released demo ∅.
Proof.
  split; [apply demo_wf|done..| |].
  - intros n Hn. by rewrite demo_view.
  - intros n [r Hr]. by rewrite lookup_empty in Hr.
Qed.

(** The port of the space 0x2000 has two send rights, both in transit. *)
Definition demo_popular : ipc_port := IP 3 true false 0x203 0x2000 2 2 0 0x7000 0 None 0 0 0 5 [] ipc_mqueue_init 0 0 0.
Definition demo_mail : pstate := PST {[0x5000 := demo_popular]} ∅ 0 false [] [] 0.
Definition demo_letter : Z * Z := (MACH_PORT_TYPE_SEND, 0x5000).

Lemma demo_mail_settled : settled demo demo_mail ∅ [demo_letter; demo_letter].
Proof.
  split; [apply demo_released|split|].
  - intros n r Hn. by rewrite lookup_empty in Hn.
  - intros p port Hp. simpl in Hp. apply lookup_singleton_Some in Hp as [<- <-].
    split; [done|..]; vm_compute; by intros.
  - intros t p Hin _. assert ((t, p) = demo_letter) as [= -> ->] by (by repeat (apply elem_of_cons in Hin as [Hin|Hin]); [..|apply elem_of_nil in Hin]).
    split; [done|]. by eexists.
  - intros p port Hp. simpl in Hp. by apply lookup_singleton_Some in Hp as [<- <-].
Qed.

(** The space has no receive right. *)
Lemma demo_no_receivers caps st : map_Forall (λ _ port, ip_data port ≠ space_addr) (ps_ports st) → receivers caps st.
Proof. intros Hall q port Hq _ Hr. by apply (Hall q port Hq) in Hr. Qed.

Definition demo_run1 : outcome (istate * pstate * (kern_return * option Z)) :=
  ipc_object_copyout demo demo_mail 0x5000 MACH_MSG_TYPE_PORT_SEND true.
Definition demo_sp1 : istate := Eval vm_compute in match demo_run1 with Ok (sp, _, _) => sp | Fault _ => demo end.
Definition demo_st1 : pstate := Eval vm_compute in match demo_run1 with Ok (_, st, _) => st | Fault _ => demo_mail end.

Lemma object_copyout_witness :
  demo_run1 = Ok (demo_sp1, demo_st1, (KERN_SUCCESS, Some 0x103)) ∧
  settled demo_sp1 demo_st1 {[0x103 := Right MACH_PORT_TYPE_SEND 1 0x5000 0]} [demo_letter].
Proof.
  assert (demo_run1 = Ok (demo_sp1, demo_st1, (KERN_SUCCESS, Some 0x103))) as Hrun by (vm_compute; reflexivity).
  split; [exact Hrun|].
  pose proof (object_copyout_correct demo demo_mail ∅ [demo_letter] MACH_PORT_TYPE_SEND 0x5000 demo_popular true
    demo_mail_settled ltac:(apply demo_no_receivers; decide_compute) (or_introl eq_refl) eq_refl eq_refl eq_refl) as Hpost.
  change (ipc_object_copyout demo demo_mail 0x5000 (msgt_of MACH_PORT_TYPE_SEND) true) with demo_run1 in Hpost.
  rewrite Hrun in Hpost. destruct Hpost as (_ & _ & _ & _ & Hs & _). exact Hs.
Defined.

Lemma demo_once_settled : settled demo_sp1 demo_st1 {[0x103 := Right MACH_PORT_TYPE_SEND 1 0x5000 0]} [demo_letter].
Proof.
  assert (demo_run1 = Ok (demo_sp1, demo_st1, (KERN_SUCCESS, Some 0x103))) as Hrun by (vm_compute; reflexivity).
  pose proof (object_copyout_spec demo demo_mail ∅ [demo_letter] MACH_PORT_TYPE_SEND 0x5000 demo_popular true
    demo_mail_settled ltac:(apply demo_no_receivers; decide_compute) (or_introl eq_refl) eq_refl eq_refl eq_refl) as Hpost.
  change (ipc_object_copyout demo demo_mail 0x5000 (msgt_of MACH_PORT_TYPE_SEND) true) with demo_run1 in Hpost.
  rewrite Hrun in Hpost. destruct Hpost as (_ & _ & _ & _ & Hs & _). exact Hs.
Qed.

Definition demo_run2 : outcome (istate * pstate * (kern_return * option Z)) :=
  ipc_object_copyout demo_sp1 demo_st1 0x5000 MACH_MSG_TYPE_PORT_SEND true.
Definition demo_sp2 : istate := Eval vm_compute in match demo_run2 with Ok (sp, _, _) => sp | Fault _ => demo end.
Definition demo_st2 : pstate := Eval vm_compute in match demo_run2 with Ok (_, st, _) => st | Fault _ => demo_mail end.
Definition demo_both : rights_t := {[0x103 := Right MACH_PORT_TYPE_SEND 2 0x5000 0]}.

Lemma demo_twice_settled : settled demo_sp2 demo_st2 demo_both [].
Proof.
  assert (demo_run2 = Ok (demo_sp2, demo_st2, (KERN_SUCCESS, Some 0x103))) as Hrun by (vm_compute; reflexivity).
  pose proof (object_copyout_spec demo_sp1 demo_st1 _ [] MACH_PORT_TYPE_SEND 0x5000 demo_popular true
    demo_once_settled ltac:(apply demo_no_receivers; decide_compute) (or_introl eq_refl) eq_refl eq_refl eq_refl) as Hpost.
  change (ipc_object_copyout demo_sp1 demo_st1 0x5000 (msgt_of MACH_PORT_TYPE_SEND) true) with demo_run2 in Hpost.
  rewrite Hrun in Hpost. destruct Hpost as (_ & _ & _ & _ & Hs & _). exact Hs.
Qed.

Definition demo_merged : ipc_port :=
  Eval vm_compute in match ps_ports demo_st2 !! 0x5000 with Some port => port | None => ip_zero end.

Lemma copyin_copyout_roundtrip_witness :
  ∃ sp1 st1 sp2 st2,
    ipc_object_copyin demo_sp2 demo_st2 0x103 MACH_MSG_TYPE_MOVE_SEND = Ok (sp1, st1, (KERN_SUCCESS, Some 0x5000)) ∧
    ipc_object_copyout sp1 st1 0x5000 MACH_MSG_TYPE_PORT_SEND false = Ok (sp2, st2, (KERN_SUCCESS, Some 0x103)) ∧
    settled sp2 st2 demo_both [] ∧ receivers demo_both st2 ∧ touched 0x5000 demo_st2 st2 [] ∧ ps_ports st2 = ps_ports demo_st2.
Proof.
  apply (copyin_copyout_roundtrip demo_sp2 demo_st2 demo_both [] 0x103 (Right MACH_PORT_TYPE_SEND 2 0x5000 0) demo_merged false);
    [apply demo_twice_settled|apply demo_no_receivers; decide_compute| |reflexivity..| |reflexivity|reflexivity].
  - split; [unfold is_u32; lia|done].
  - vm_compute. done.
Defined.

Lemma port_alloc_witness :
  match ipc_port_alloc demo_sp2 demo_st2 with
  | Ok (sp', st', (KERN_SUCCESS, Some (name, p))) =>
      MACH_PORT_VALID name = true ∧ port_made demo_both [] demo_st2 name p sp' st'
  | Ok (sp', st', (KERN_RESOURCE_SHORTAGE, None)) => settled sp' st' demo_both [] ∧ same_objects demo_st2 st'
  | Ok _ => False
  | Fault f => f = FDeref ∧ exhausted demo_both
  end.
Proof. apply port_alloc_correct, demo_twice_settled. Defined.
