(* ===== verification/MachPortExamples.v ===== *)
(** * Concrete system calls

    The calls made by the task whose space holds two user references of a
    send right: the theorems on system calls applied to it. *)

From stdpp Require Import prelude list gmap relations.
From S2P Require Import Prelude MachPort IpcSplay IpcTypes IpcHash IpcTable IpcEntry IpcInv IpcUpdate IpcSpace IpcPort.
From S2P Require Import IpcDnreq IpcPortRights IpcPset IpcDestroy IpcRight IpcRightEq IpcRightInv IpcRightDealloc IpcRightCopy.
From S2P Require Import IpcObject IpcObjectInv IpcObjectAlloc MachPortCall MachPortCallInv MachPortSystem.
From S2P Require Import MachPortNames MachPortNamesInv IpcExamples IpcRightExamples.

(** A dead name is asked for under the name 0x103, which is in use: the call
    succeeds, and the new dead name is 0x203. *)
Lemma dead_name_ignored_witness :
  mach_port_allocate_name 0x1000 demo_sp2 demo_st2 MACH_PORT_RIGHT_DEAD_NAME 0x103 =
    mach_port_allocate_name 0x1000 demo_sp2 demo_st2 MACH_PORT_RIGHT_DEAD_NAME 0x503 ∧
  ∃ sp' st', mach_port_allocate_name 0x1000 demo_sp2 demo_st2 MACH_PORT_RIGHT_DEAD_NAME 0x503 = Ok (sp', st', KERN_SUCCESS) ∧
    right_at sp' 0x103 = Some (Right MACH_PORT_TYPE_SEND 2 0x5000 0) ∧ right_at sp' 0x503 = None ∧
    right_at sp' 0x203 = Some (Right MACH_PORT_TYPE_DEAD_NAME 1 0 0).
Proof.
  split; [apply (dead_name_ignored 0x1000 demo_sp2 demo_st2 0x103 0x503); reflexivity|].
  eexists _, _. split; [vm_compute; reflexivity|]. split_and!; vm_compute; reflexivity.
Defined.

Lemma port_allocate_witness :
  allocate_post demo_sp2 demo_st2 demo_both [] MACH_PORT_RIGHT_PORT_SET
    (mach_port_allocate 0x1000 demo_sp2 demo_st2 MACH_PORT_RIGHT_PORT_SET 0).
Proof. apply port_allocate_correct; [done|apply demo_twice_settled]. Defined.

Lemma get_refs_witness :
  ∃ sp' st' res, mach_port_get_refs 0x1000 demo_sp2 demo_st2 0x103 MACH_PORT_RIGHT_SEND = Ok (sp', st', res) ∧
    res = (KERN_SUCCESS, 2).
Proof.
  destruct (get_refs_correct 0x1000 demo_sp2 demo_st2 demo_both [] 0x103 MACH_PORT_RIGHT_SEND)
    as (sp' & st' & res & Hrun & Hres & _); [done|apply demo_twice_settled|split; [unfold is_u32; lia|done]|done|].
  exists sp', st', res. split; [exact Hrun|exact Hres].
Defined.

(** ** A sequence of calls *)

Abbreviation demo_config := (istate * pstate * list (Z * Z))%type (only parsing).
Definition demo_at (x : outcome demo_config) (d : demo_config) : demo_config :=
  match x with Ok y => y | Fault _ => d end.

Definition demo_x0 : demo_config := (demo_sp2, demo_st2, []).
Definition demo_x1 : demo_config :=
  Eval vm_compute in demo_at (run_call 0x1000 (Extract_right 0x103 MACH_MSG_TYPE_COPY_SEND) demo_x0) demo_x0.
Definition demo_x2 : demo_config :=
  Eval vm_compute in demo_at (run_call 0x1000 (Allocate MACH_PORT_RIGHT_RECEIVE 0) demo_x1) demo_x1.

Lemma calls_invariant_witness :
  sound demo_x2 ∧ demo_x2.2 = [(MACH_PORT_TYPE_SEND, 0x5000)] ∧
  match run_call 0x1000 (Receive MACH_PORT_TYPE_SEND 0x5000 false) demo_x2 with
  | Ok z => sound z
  | Fault f => f = FDeref ∧ full demo_x2
  end.
Proof.
  destruct (calls_invariant 0x1000 demo_x0 demo_x2) as [Hs Hc].
  - done.
  - exists demo_both. split; [apply demo_twice_settled|]. split; [apply demo_no_receivers; decide_compute|].
    assert (map_Forall (λ p _, IO_VALID p = true ∧ ps_psets demo_st2 !! p = None) (ps_ports demo_st2)) as Hall by decide_compute.
    intros p [port Hp]. exact (Hall p port Hp).
  - apply (rtc_l _ _ demo_x1); [|apply rtc_once].
    + exists (Extract_right 0x103 MACH_MSG_TYPE_COPY_SEND). split; [|vm_compute; reflexivity].
      split; [split; [unfold is_u32; lia|done]|]. split; [decide_compute|].
      unfold has_room. decide_compute.
    + exists (Allocate MACH_PORT_RIGHT_RECEIVE 0). split; [exact I|vm_compute; reflexivity].
  - split; [exact Hs|]. split; [reflexivity|]. apply Hc. split; [decide_compute|by left].
Defined.

(** ** Lists of names *)

Lemma port_names_witness :
  ∃ sp' st', mach_port_names 2 0x1000 demo_sp2 demo_st2 =
      Ok (sp', st', (KERN_SUCCESS, [(0x103, MACH_PORT_TYPE_SEND)])) ∧
    settled sp' st' demo_both [].
Proof.
  destruct (port_names_correct 2 0x1000 demo_sp2 demo_st2 demo_both []) as (sp' & st' & kr & names & Hrun & Hs & _ & Hx);
    [done|apply demo_twice_settled|done|lia|].
  assert (∃ sp1 st1, mach_port_names 2 0x1000 demo_sp2 demo_st2 = Ok (sp1, st1, (KERN_SUCCESS, [(0x103, MACH_PORT_TYPE_SEND)])))
    as (sp1 & st1 & Hrun1) by (eexists _, _; vm_compute; reflexivity).
  rewrite Hrun1 in Hrun. injection Hrun as -> -> <- <-. by exists sp', st'.
Defined.

Lemma set_status_witness :
  ∃ sp' st', mach_port_get_set_status 2 0x1000 demo_sp2 demo_st2 0x103 = Ok (sp', st', (KERN_INVALID_RIGHT, [])) ∧
    settled sp' st' demo_both [].
Proof.
  destruct (set_status_correct 2 0x1000 demo_sp2 demo_st2 demo_both [] 0x103) as (sp' & st' & kr & names & Hrun & Hs & _ & Hx);
    [done|apply demo_twice_settled|apply demo_no_receivers; decide_compute|split; [unfold is_u32; lia|done]|done|lia|].
  assert (∃ sp1 st1, mach_port_get_set_status 2 0x1000 demo_sp2 demo_st2 0x103 = Ok (sp1, st1, (KERN_INVALID_RIGHT, [])))
    as (sp1 & st1 & Hrun1) by (eexists _, _; vm_compute; reflexivity).
  rewrite Hrun1 in Hrun. injection Hrun as -> -> <- <-. by exists sp', st'.
Defined.
