(* ===== verification/IpcMsgExamples.v ===== *)
(** * Threads at a port with room for one message

    The system of senders and receivers, run on a port whose queue limit is
    one: a second sender waits until the first message has been received.
    When a waiting sender is interrupted instead, it stays in the queue of
    blocked senders and takes the wakeup of the next one. *)

From stdpp Require Import prelude list gmap.
From S2P Require Import Prelude MachPort IpcQueue IpcSplay IpcTypes IpcHash IpcTable IpcEntry IpcPort IpcDnreq IpcPortRights IpcPset IpcPsetInv.
From S2P Require Import IpcDestroy IpcRight IpcRightInv IpcObject IpcMqueue IpcMqueueInv IpcMsgSystem IpcMsgOrder IpcNotify IpcExamples IpcRightExamples.

Definition msg_port : ipc_port := IP 3 true false 0x103 0x1000 0 1 0 0 0 None 0 0 0 1 [] ipc_mqueue_init 0 0 0.
Definition msg_pset : ipc_pset := IPS 1 true false 0x203 ipc_mqueue_init.
Definition msg_start : system := SYS (PST {[0x5000 := msg_port]} {[0x6100 := msg_pset]} 9 false [] [] 0) ∅.

Definition msg1 : ipc_kmsg := IKM 0x6200 0x5000 0x13 32.
Definition msg2 : ipc_kmsg := IKM 0x6300 0x5000 0x13 32.
Definition msg3 : ipc_kmsg := IKM 0x6400 0x5000 0x13 32.

(** The address of the kernel's space, and a kernel that never replies. *)
Definition kernel_space : Z := 0x900.
Definition no_server (m : ipc_kmsg) : option ipc_kmsg := None.

Abbreviation act := (run_action kernel_space no_server None).

Fixpoint run_actions (x : system) (l : list action) : outcome (system * list event) :=
  match l with
  | [] => Ok (x, [])
  | a :: l' => '(x, ev) ← act a x; '(x, evs) ← run_actions x l'; Ok (x, ev ++ evs)
  end.

(** The thread 2 waits, is interrupted and returns; the thread 3 waits; the
    message of the thread 1 is received.  There is room again, but the
    wakeup goes to the thread 2, which waits for nothing. *)
Theorem interrupted_sender_lost :
  ∃ x port,
    run_actions msg_start
      [Send 1 msg1 0 0; Send 2 msg2 0 0; Send_again 2 THREAD_INTERRUPTED; Send 3 msg3 0 0;
       Receive 4 (MQ_port 0x5000) 0 1024 0; Finish 4] = Ok (x, [Accepted msg1; Received msg1 0]) ∧
    ps_ports (sy_state x) !! 0x5000 = Some port ∧ ip_msgcount port = 0 ∧ ip_qlimit port = 1 ∧ ip_blocked port = [3] ∧
    sy_threads x !! 3 = Some (Sending msg3 0 0) ∧ sy_threads x !! 2 = None ∧
    ps_woken (sy_state x) = [WK 2 MACH_MSG_SUCCESS None] ∧ woken_senders 0x5000 (sy_threads x) (ps_woken (sy_state x)) = 0%nat.
Proof. eexists _, _. split; [vm_compute; reflexivity|]. by split_and!; vm_compute. Qed.

(** The threads 2 and 3 wait for room in the port, which has the message of
    the thread 1; the first of them is interrupted, or its time is up. *)
Definition full_port : ipc_port :=
  set_ip_blocked (set_ip_msgcount (set_ip_messages msg_port (set_imq_messages ipc_mqueue_init [msg1])) 1) [2; 3].
Definition full_start : pstate := PST {[0x5000 := full_port]} {[0x6100 := msg_pset]} 9 false [] [] 0.

Lemma interrupted_sender_witness :
  (∃ st1, send_resume full_start msg2 MACH_SEND_TIMEOUT 10 2 MACH_SEND_IN_PROGRESS THREAD_TIMED_OUT =
     Ok (st1, Returned MACH_SEND_TIMED_OUT) ∧ ps_ports st1 !! 0x5000 = Some full_port) ∧
  ∃ st1 st2 mr port', send_resume full_start msg2 0 0 2 MACH_SEND_IN_PROGRESS THREAD_INTERRUPTED =
      Ok (st1, Returned MACH_SEND_INTERRUPTED) ∧
    ipc_mqueue_finish_receive st1 msg1 0x5000 0 1024 None = Ok (st2, mr) ∧
    ps_woken st2 = [WK 2 MACH_MSG_SUCCESS None] ∧ ps_ports st2 !! 0x5000 = Some port' ∧
    ip_blocked port' = [3] ∧ ip_msgcount port' = 0.
Proof.
  split.
  - destruct (interrupted_sender_kept full_start 0x5000 full_port msg2 MACH_SEND_TIMEOUT 10 2 THREAD_TIMED_OUT MACH_SEND_TIMED_OUT [3])
      as (st1 & Hrun & Hps & _); [done..|split; simpl; lia|done|done|by right|].
    exists st1. split; [exact Hrun|by rewrite Hps].
  - destruct (interrupted_sender_kept full_start 0x5000 full_port msg2 0 0 2 THREAD_INTERRUPTED MACH_SEND_INTERRUPTED [3])
      as (st1 & Hrun & _ & Hw & Hnext); [done..|split; simpl; lia|done|done|by left|].
    destruct (Hnext msg1 0 1024 None) as (st2 & mr & Hrun2 & Hw2 & port' & Hp' & Hb & Hc & _); [done..|].
    exists st1, st2, mr, port'. split_and!; [done|done|by rewrite Hw2, Hw|done|done|done].
Defined.

(** ** The system in order *)

Lemma unqueued_check st m :
  map_Forall (λ _ port, Forall (λ m', ikm_addr m' ≠ ikm_addr m) (imq_messages (ip_messages port))) (ps_ports st) →
  map_Forall (λ _ pset, Forall (λ m', ikm_addr m' ≠ ikm_addr m) (imq_messages (ips_messages pset))) (ps_psets st) →
  unqueued st m.
Proof.
  intros Hp Hs [p|s] mq m' Hq Hm; simpl in Hq; apply fmap_Some in Hq as (y & Hy & ->).
  - pose proof (Hp _ _ Hy) as Hf. simpl in Hf. rewrite Forall_forall in Hf. by apply Hf.
  - pose proof (Hs _ _ Hy) as Hf. simpl in Hf. rewrite Forall_forall in Hf. by apply Hf.
Qed.

Definition sends_addr (a : Z) (ts : thread_state) : bool :=
  match ts with Sending m _ _ => ikm_addr m =? a | _ => false end.

Lemma unsent_check threads m : map_Forall (λ _ ts, sends_addr (ikm_addr m) ts = false) threads → unsent threads m.
Proof.
  intros Hf th m' opt timeout Hth Heq. pose proof (Hf _ _ Hth) as Hx. simpl in Hx. by rewrite Heq, Z.eqb_refl in Hx.
Qed.

Lemma msg_start_queues : queues_wf (ps_ports (sy_state msg_start)) (ps_psets (sy_state msg_start)).
Proof.
  apply one_queue_wf; [done..|by left|by left|constructor|done|constructor|by left|]. unfold IO_MAX_REFERENCES. simpl. lia.
Qed.

Lemma msg_start_sound : sound_system kernel_space msg_start.
Proof.
  assert (∀ q mq, queue_of (ps_ports (sy_state msg_start)) (ps_psets (sy_state msg_start)) q = Some mq → mq = ipc_mqueue_init) as Hq.
  { intros [p|s] mq; simpl; intros Hx; apply fmap_Some in Hx as (x & Hx & ->); by apply lookup_singleton_Some in Hx as [<- <-]. }
  assert (∀ k, parked (sy_state msg_start) k = []) as Hk.
  { intros [q|p]; unfold parked.
    - destruct (queue_of _ _ q) as [mq|] eqn:Hmq; [|done]. by rewrite (Hq q mq Hmq).
    - simpl. destruct (decide (p = 0x5000)) as [->|]; [by rewrite lookup_singleton_eq|by rewrite lookup_singleton_ne]. }
  split.
  - apply msg_start_queues.
  - intros p port. simpl. by intros [_ <-]%lookup_singleton_Some.
  - split; [intros k th|intros k|intros w|constructor|]; rewrite ?Hk; [by intros ?%elem_of_nil|constructor|by intros ?%elem_of_nil|].
    intros th ts k. simpl. by rewrite lookup_empty.
  - split; simpl; try (intros *; by rewrite lookup_empty).
    + intros q mq m Hmq. rewrite (Hq q mq Hmq). by intros ?%elem_of_nil.
    + by intros w m n ?%elem_of_nil.
  - split; simpl; intros p port [<- <-]%lookup_singleton_Some; done.
Qed.

Definition after (a : action) (x : system) : system := match act a x with Ok (y, _) => y | Fault _ => x end.

Definition msg_x1 : system := Eval vm_compute in after (Send 1 msg1 0 0) msg_start.
Definition msg_x2 : system := Eval vm_compute in after (Send 2 msg2 0 0) msg_x1.
Definition msg_x3 : system := Eval vm_compute in after (Receive 3 (MQ_port 0x5000) 0 1024 0) msg_x2.
Definition msg_x4 : system := Eval vm_compute in after (Finish 3) msg_x3.
Definition msg_x5 : system := Eval vm_compute in after (Send_again 2 THREAD_AWAKENED) msg_x4.

Definition msg_events : list event := [Accepted msg1; Received msg1 0; Accepted msg2].

(** The port of the messages is there, and has space. *)
Ltac send_enabled :=
  split_and!; [reflexivity|split_and!; [reflexivity..|eexists; split_and!; [vm_compute; reflexivity|reflexivity|done]]
    |intros ? Hx; vm_compute in Hx; injection Hx as <-; simpl; lia|apply unqueued_check; decide_compute|apply unsent_check; decide_compute].

Lemma msg_runs : runs kernel_space no_server None msg_start msg_events msg_x5.
Proof.
  apply (Runs_more _ _ _ (Send 1 msg1 0 0) _ [Accepted msg1] msg_x1 [Received msg1 0; Accepted msg2]); [send_enabled|vm_compute; reflexivity|].
  apply (Runs_more _ _ _ (Send 2 msg2 0 0) _ [] msg_x2 [Received msg1 0; Accepted msg2]); [send_enabled|vm_compute; reflexivity|].
  apply (Runs_more _ _ _ (Receive 3 (MQ_port 0x5000) 0 1024 0) _ [Received msg1 0] msg_x3 [Accepted msg2]);
    [split_and!; [reflexivity|eexists; split; [vm_compute; reflexivity|reflexivity]|done]|vm_compute; reflexivity|].
  apply (Runs_more _ _ _ (Finish 3) _ [] msg_x4 [Accepted msg2]); [eexists _, _, _; vm_compute; reflexivity|vm_compute; reflexivity|].
  apply (Runs_more _ _ _ (Send_again 2 THREAD_AWAKENED) _ [Accepted msg2] msg_x5 []); [|vm_compute; reflexivity|apply Runs_none].
  eexists _, _, _. split_and!; [vm_compute; reflexivity|unfold is_woken; decide_compute|].
  intros ? Hx. vm_compute in Hx. injection Hx as <-. simpl. lia.
Qed.

Lemma messages_invariant_witness :
  sound_system kernel_space msg_x5 ∧
  ∃ z ev, act (Receive 4 (MQ_port 0x5000) 0 1024 0) msg_x5 = Ok (z, ev) ∧ sound_system kernel_space z ∧ ev = [Received msg2 1].
Proof.
  destruct (messages_invariant kernel_space no_server None msg_start msg_events msg_x5 msg_start_sound msg_runs) as (Hs & Ha & _).
  split; [exact Hs|]. destruct (Ha (Receive 4 (MQ_port 0x5000) 0 1024 0)) as (z & ev & Hrun & Hz).
  - split_and!; [reflexivity|eexists; split; [vm_compute; reflexivity|reflexivity]|done].
  - exists z, ev. split_and!; [exact Hrun|exact Hz|]. vm_compute in Hrun. by injection Hrun as <- <-.
Defined.

Lemma messages_in_order_witness :
  ∃ taken, accepted 0x5000 msg_events = taken ++ [msg2] ∧ received 0x5000 msg_events ≡ₚ number_from 0 taken.
Proof.
  destruct (messages_in_order kernel_space no_server None msg_start msg_events msg_x5 0x5000 msg_port msg_start_sound msg_runs eq_refl)
    as (taken & Hm & Hr); [unfold is_u32; simpl; lia|].
  exists taken. split; [exact Hm|]. vm_compute (ps_woken _) in Hr. simpl handed_to in Hr. by rewrite app_nil_r in Hr.
Defined.

(** ** Linked queues *)

Definition demo_threads : list Z := [0x10; 0x20; 0x30].
Definition demo_links : gmap Z links := list_to_map ((λ x, (x, LK x x)) <$> demo_threads).
Definition demo_bases : gmap Z Z := {[1 := Q_NULL; 2 := Q_NULL]}.
Definition demo_lists : gmap Z (list Z) := {[1 := []; 2 := []]}.
Definition demo_ops : list queue_op :=
  [Enqueue 1 0x10; Enqueue 1 0x20; Enqueue 1 0x30; Remove 1 0x20; Enqueue 2 0x20; Dequeue 1; Enqueue 2 0x10].

Lemma thread_queues_witness :
  ∃ h' qs', run_ops (Q := thread_queue) demo_links demo_bases demo_ops = Ok (h', qs', [0; 0; 0; 0; 0; 0x10; 0]) ∧
    represents (Q := thread_queue) demo_threads h' qs' (<[2 := [0x20; 0x10]]> {[1 := [0x30]]}) ∧
    ipc_thread_inqueue 4 h' 0x20 0x10 = Ok true.
Proof.
  destruct (thread_queues_correct demo_threads demo_links demo_bases demo_lists demo_ops (<[2 := [0x20; 0x10]]> {[1 := [0x30]]})
    [0; 0; 0; 0; 0; 0x10; 0]) as (h' & qs' & Hrun & Hre & Hin).
  - assert (∀ k l, demo_lists !! k = Some l → l = [] ∧ demo_bases !! k = Some Q_NULL) as Hl.
    { intros k l Hk. unfold demo_lists in Hk. apply lookup_insert_Some in Hk as [[<- <-]|[_ Hk]]; [done|].
      by apply lookup_singleton_Some in Hk as [<- <-]. }
    split.
    + intros k l [-> Hk]%Hl. exists Q_NULL. split_and!; [done|apply ring_empty|by intros x ?%elem_of_nil].
    + by intros k k' l l' x [-> _]%Hl _ ?%elem_of_nil.
    + intros x Hx _. simpl. unfold demo_threads in Hx. rewrite !elem_of_cons, elem_of_nil in Hx.
      destruct Hx as [-> |[-> |[-> |[]]]]; reflexivity.
  - vm_compute. reflexivity.
  - exists h', qs'. split_and!; [exact Hrun|exact Hre|]. assert (qs' !! 2 = Some 0x20) as Hq2 by (vm_compute in Hrun; by injection Hrun as <- <-).
    exact (Hin 2 0x20 [0x20; 0x10] 0x10 Hq2 eq_refl).
Defined.

(** A buffer of 16 bytes, and the largest trailer. *)
Lemma short_buffer_witness :
  REQUESTED_TRAILER_SIZE 0x2000000 = Ok 20 ∧
  receive_check (IKM 0x6200 0x5000 0x13 4096) 0x2000000 16 None = Ok MACH_MSG_SUCCESS.
Proof.
  split; [reflexivity|].
  apply (short_buffer_accepted (IKM 0x6200 0x5000 0x13 4096) 0x2000000 16 None 20); [reflexivity|split; lia|lia|simpl; lia|reflexivity].
Defined.

(** ** A notification *)

(** The port with the send-once right of a dead-name request. *)
Definition told_port : ipc_port := set_ip_sorights msg_port 1.
Definition told_start : pstate := PST {[0x5000 := told_port]} {[0x6100 := msg_pset]} 9 false [] [] 0.

Lemma told_only p port : ps_ports told_start !! p = Some port → p = 0x5000 ∧ port = told_port.
Proof. simpl. by intros [<- <-]%lookup_singleton_Some. Qed.

Lemma told_start_account : rights_ok ∅ [(MACH_PORT_TYPE_SEND_ONCE, 0x5000)] told_start.
Proof.
  split.
  - done.
  - intros p port [-> ->]%told_only. split; [done|unfold IO_MAX_REFERENCES; vm_compute; split; congruence|..];
      intros _; vm_compute; split; congruence.
  - intros t p [[= -> ->]|[]%elem_of_nil]%elem_of_cons _. split; [done|]. by exists told_port.
Qed.

