(* ===== verification/IpcRightTwo.v ===== *)
(** * Two send rights for two user references

    [ipc_right_copyin_two], which a message uses whose destination and reply
    port are the same name: two send rights go into transit, and the name
    loses two user references. *)

From stdpp Require Import prelude list gmap.
From S2P Require Import Prelude MachPort IpcSplay IpcTypes IpcHash IpcTable IpcEntry IpcInv IpcUpdate.
From S2P Require Import IpcPort IpcDnreq IpcPortRights IpcPset IpcDestroy IpcRight IpcRightEq IpcRightInv IpcFrame IpcRightDealloc IpcRightCopy.

(** Two user references less. *)
Definition less_two (r : right) : option right :=
  match less_one r with
  | Some r' => less_one r'
  | None => None
  end.

(** The send-once right of the request of a name that goes. *)
Definition gone_soright (st : pstate) (r : right) (o : option right) : Z :=
  match o with
  | Some _ => IP_NULL
  | None => match ps_ports st !! r_object r with
            | Some port => notify_right port (r_request r)
            | None => IP_NULL
            end
  end.

(** There is room for two more send rights. *)
Definition room_two (port : ipc_port) : Prop :=
  ip_references port + 2 ≤ IO_MAX_REFERENCES ∧ ip_srights port + 2 < 2 ^ 32 - 1 ∧ ip_sorights port < 2 ^ 32 - 1.

Section two.
Context {IW : iworld}.
Context `{PW : pworld, !quiet}.
Context (sp : istate) (st : pstate) (caps : rights_t) (tr : transit_t) (name : Z) (ep : eptr) (e : ipc_entry).
Hypothesis Hst : standing sp st caps tr.
Hypothesis Hd : denotes ∅ sp name ep.
Hypothesis He : eget sp ep = Some e.
Hypothesis Hroom : ∀ port, ps_ports st !! ie_object e = Some port → room_two port.

Let r := entry_right e.

(** Two send rights have been taken. *)
Definition two_ok (o : option right) (sp' : istate) (st' : pstate) : Prop :=
  left_with ∅ sp' caps name ep o ∧
  rights_ok (set_right caps name o) ([(MACH_PORT_TYPE_SEND, ie_object e); (MACH_PORT_TYPE_SEND, ie_object e)] ++ tr) st' ∧
  unlocked_ports st' ∧ touched (ie_object e) st st' [].

Lemma two_facts : has_send (r_type r) = true →
  (r_type r = MACH_PORT_TYPE_SEND ∨ r_type r = MACH_PORT_TYPE_SEND_RECEIVE) ∧ 0 < r_urefs r < MACH_PORT_UREFS_MAX ∧
  ∃ port, ps_ports st !! ie_object e = Some port ∧ names_port name r port ∧ ie_object e ≠ IO_NULL ∧ ip_locked port = false ∧
    0 < ip_references port ∧ ip_references port + 2 ≤ IO_MAX_REFERENCES ∧ port_dn_wf port ∧
    (ip_active port = true → 0 < ip_srights port ∧ ip_srights port + 2 < 2 ^ 32 - 1 ∧ ip_sorights port < 2 ^ 32).
Proof.
  intros Hs. assert (has_port (r_type r) = true) as Hh by (by eapply has_mono; [|done]).
  assert (∀ port, ps_ports st !! ie_object e = Some port → has_room port) as Hr1
    by (intros port Hp; destruct (Hroom port Hp) as (? & ? & ?); unfold has_room; lia).
  destruct (port_facts sp st caps tr name ep e Hst Hd He Hr1 Hh) as (port & Hp & Hn & Hu & Hz & Hl & Hr & Hdn & Hc).
  destruct (Hroom port Hp) as (? & ? & ?).
  assert ((r_type r = MACH_PORT_TYPE_SEND ∨ r_type r = MACH_PORT_TYPE_SEND_RECEIVE) ∧ 0 < r_urefs r < MACH_PORT_UREFS_MAX) as [Ht Hur]
    by (destruct Hu as [Hx|[[Hx _]|[Hx _]]]; [done|change (r_type (entry_right e)) with (r_type r) in Hx; by rewrite Hx in Hs..]).
  split; [done|]. split; [done|]. exists port. split_and!; try done; try lia.
  intros Ha. destruct (Hc Ha) as (? & ? & Hsr & _). specialize (Hsr Hs). lia.
Qed.

(** At least one user reference is left. *)
Lemma fewer_two :
  2 < IE_BITS_UREFS (ie_bits e) →
  let sp' := set_bits sp ep (u32 (ie_bits e - 2)) in
  spaced ∅ sp' (set_right caps name (Some (Right (r_type r) (r_urefs r - 2) (r_object r) (r_request r)))) ∧
  denotes ∅ sp' name ep.
Proof.
  intros Hu sp'. pose proof (UREFS_range (ie_bits e)).
  destruct (rebits_add (ie_bits e) (-2)) as [Hh Ht Hx]; [lia|]. change (ie_bits e + -2) with (ie_bits e - 2) in *.
  assert (hand ({[name]} ∪ ∅) sp' (delete name caps) name ep (IE (u32 (ie_bits e - 2)) (ie_object e) (ie_request e) (ie_index e))
    (IE_BITS_TYPE (u32 (ie_bits e - 2)) =? MACH_PORT_TYPE_SEND)) as Hhand.
  { rewrite Ht. apply (hand_set _ _ _ _ _ e); [by eapply entry_hand|done..]. }
  destruct (hand_put_out _ _ _ _ _ _ Hhand) as [Hs Hd'].
  - simpl. rewrite Ht. by eapply spaced_entry; [apply Hst|..|apply not_elem_of_empty|].
  - unfold entry_right in Hs. simpl in Hs. by rewrite Ht, Hx in Hs.
Qed.

Lemma u32_two x : 0 ≤ x < 2 ^ 32 - 2 → u32 (x + 2) = x + 2.
Proof. intros. apply u32_small. unfold is_u32. lia. Qed.

Lemma two_fewer port :
  ps_ports st !! ie_object e = Some port → ip_active port = true → has_send (r_type r) = true → 2 < r_urefs r →
  ∃ st', (st ← pmod (put (ptick st) (ie_object e) (set_ip_locked port true)) (ie_object e)
        (λ port, set_ip_srights port (u32 (ip_srights port + 2)));
      st ← ip_reference st (ie_object e);
      st ← ip_reference st (ie_object e);
      ip_unlock st (ie_object e)) = Ok st' ∧
    two_ok (less_two r) (set_bits sp ep (u32 (ie_bits e - 2))) st'.
Proof.
  intros Hp Ha Hs Hu2. destruct (two_facts Hs) as (Ht & Hur & port' & Hp' & Hn & Hz & Hl & Hr & Hr2 & Hdn & Hc).
  assert (port' = port) as -> by congruence. clear Hp'. destruct (Hc Ha) as (Hsr & Hsr2 & Hor).
  rewrite put_pmod. ostep.
  rewrite (ip_reference_spec _ _ _ (put_get _ _ _)), put_put by (simpl; lia). ostep.
  rewrite (ip_reference_spec _ _ _ (put_get _ _ _)), put_put by (simpl; lia). ostep.
  rewrite (ip_unlock_spec _ _ _ (put_get _ _ _)), put_put by done. eexists. split; [done|].
  unfold two_ok, less_two, less_one. rewrite (proj2 (Z.eqb_neq (r_urefs r) 1)) by lia. simpl r_urefs.
  rewrite (proj2 (Z.eqb_neq (IE_BITS_UREFS _ - 1) 1)) by (simpl in *; lia). simpl r_type. simpl r_object. simpl r_request.
  replace (IE_BITS_UREFS (ie_bits e) - 1 - 1) with (IE_BITS_UREFS (ie_bits e) - 2) by lia.
  destruct (fewer_two ltac:(simpl in *; lia)) as [Hs' Hd'].
  split_and!; [done| |by eapply unlocked_ports_put; [apply Hst|apply tick_touched, touched_refl|]|touch].
  match goal with |- rights_ok _ _ (put _ _ ?x) =>
    apply (rights_change caps tr [MACH_PORT_TYPE_SEND; MACH_PORT_TYPE_SEND] st _ name r (Some _) port x) end;
    [apply Hst|exact (entry_held _ _ _ _ _ _ _ Hst Hd He)|done..|by apply keeps_same|done| |done|done|].
  - split; simpl; rewrite ?u32_two by lia; destruct Ht as [Ht|Ht]; simpl in Ht; rewrite ?Ht; simpl; lia.
  - intros r' [= <-]. split; [done|]. left. split_and!; [|left; simpl in *; split; [done|lia]|done|].
    + by destruct Ht as [Ht|Ht]; simpl in *; rewrite Ht.
    + eexists. simpl. rewrite lookup_insert_eq. split; [done|]. by destruct Hn.
Qed.

(** The last two user references next to a receive right *)
Lemma two_last_receive port :
  ps_ports st !! ie_object e = Some port → r_type r = MACH_PORT_TYPE_SEND_RECEIVE → r_urefs r = 2 →
  ∃ st', (st ← pmod (put (ptick st) (ie_object e) (set_ip_locked port true)) (ie_object e)
        (λ port, set_ip_srights port (u32 (ip_srights port + 1)));
      st ← ip_reference st (ie_object e);
      st ← ip_reference st (ie_object e);
      ip_unlock st (ie_object e)) = Ok st' ∧
    two_ok (less_two r) (set_bits sp ep (Z.land (ie_bits e) (Z.lnot (Z.lor IE_BITS_UREFS_MASK MACH_PORT_TYPE_SEND)))) st'.
Proof.
  intros Hp Ht H1. destruct (two_facts ltac:(by rewrite Ht)) as (_ & Hur & port' & Hp' & Hn & Hz & Hl & Hr & Hr2 & Hdn & Hc).
  assert (port' = port) as -> by congruence. clear Hp'.
  pose proof Hn as [_ Hx]. rewrite Ht in Hx. destruct Hx as (Ha & _). destruct (Hc Ha) as (Hsr & Hsr2 & Hor).
  rewrite put_pmod. ostep.
  rewrite (ip_reference_spec _ _ _ (put_get _ _ _)), put_put by (simpl; lia). ostep.
  rewrite (ip_reference_spec _ _ _ (put_get _ _ _)), put_put by (simpl; lia). ostep.
  rewrite (ip_unlock_spec _ _ _ (put_get _ _ _)), put_put by done. eexists. split; [done|].
  unfold two_ok, less_two, less_one. rewrite H1, Ht. simpl Z.eqb. cbv iota. simpl r_urefs. simpl r_type. simpl Z.eqb. cbv iota.
  destruct (less_send_spec _ _ _ _ _ _ _ Hst Hd He Ht) as [Hs' Hd'].
  split_and!; [done| |by eapply unlocked_ports_put; [apply Hst|apply tick_touched, touched_refl|]|touch].
  match goal with |- rights_ok _ _ (put _ _ ?x) =>
    apply (rights_change caps tr [MACH_PORT_TYPE_SEND; MACH_PORT_TYPE_SEND] st _ name r (Some _) port x) end;
    [apply Hst|exact (entry_held _ _ _ _ _ _ _ Hst Hd He)|done..|by apply keeps_same|done| |done|done|].
  - split; simpl; rewrite ?u32_next by lia; simpl in Ht; rewrite ?Ht; simpl; lia.
  - intros r' [= <-]. split; [done|]. left. split_and!; [done|by right; left|done|].
    eexists. simpl. rewrite lookup_insert_eq. split; [done|].
    destruct Hn as [Hreg Hx]. rewrite Ht in Hx. by split.
Qed.

(** The last two user references: the name goes. *)
Lemma two_last port bits :
  ps_ports st !! ie_object e = Some port → ip_active port = true → r_type r = MACH_PORT_TYPE_SEND → r_urefs r = 2 →
  same_high (ie_bits e) bits → IE_BITS_TYPE bits = MACH_PORT_TYPE_NONE →
  ∃ sp1 sp' st1 st', ipc_right_dncancel_macro sp (put (ptick st) (ie_object e) (set_ip_locked port true))
      (ie_object e) name ep = Ok (sp1, st1, notify_right port (r_request r)) ∧
    ipc_hash_delete sp1 (ie_object e) name ep = Ok sp' ∧
    (st ← pmod st1 (ie_object e) (λ port, set_ip_srights port (u32 (ip_srights port + 1)));
     st ← ip_reference st (ie_object e);
     ip_unlock st (ie_object e)) = Ok st' ∧
    two_ok (less_two r) (set_bits (set_object sp' ep IO_NULL) ep bits) st'.
Proof.
  intros Hp Ha Ht H1 Hhigh Hb.
  destruct (two_facts ltac:(by rewrite Ht)) as (_ & Hur & port0 & Hp' & Hn & Hz & Hl & Hr & Hr2 & Hdn & Hc).
  assert (port0 = port) as -> by congruence. clear Hp'. destruct (Hc Ha) as (Hsr & Hsr2 & Hor).
  assert (∀ port, ps_ports st !! ie_object e = Some port → has_room port) as Hr1
    by (intros port1 Hp1; destruct (Hroom port1 Hp1) as (? & ? & ?); unfold has_room; lia).
  destruct (move_last sp st caps tr name ep e Hst Hd He Hr1 _ port true bits Hp Ha Ht ltac:(by left) Hhigh Hb)
    as (sp1 & sp2 & port2 & Hcan & Hdel & Hl2 & Hleft & Hok & Hsame).
  destruct (dncancel_macro_grown _ _ _ _ _ _ _ _ Hcan (ie_object e) port2) as (port1 & Hp1 & [G1 G2 G3]); [apply put_get|].
  rewrite put_get in Hp1. injection Hp1 as <-. simpl in G1, G2. specialize (G2 ltac:(lia)).
  assert (ip_active port2 = true) as Ha2 by (rewrite <-Ha; apply Hsame).
  pose proof (ra_port _ _ _ Hok (ie_object e) _ (put_get _ _ _)) as [Hdn2 Hrefs2 Hs2 Ho2].
  simpl in Hrefs2, Hs2, Ho2. specialize (Hs2 Ha2). specialize (Ho2 Ha2).
  pose proof (tally_nonneg has_once (delete name caps) (ie_object e)). pose proof (carried_nonneg has_once tr (ie_object e)).
  exists sp1, sp2. eexists _, _. split; [done|]. split; [done|].
  rewrite put_pmod. ostep.
  rewrite (ip_reference_spec _ _ _ (put_get _ _ _)), put_put by (simpl; lia). ostep.
  rewrite (ip_unlock_spec _ _ _ (put_get _ _ _)), put_put by done. split; [done|].
  unfold two_ok, less_two, less_one. rewrite H1, Ht. simpl Z.eqb. cbv iota. simpl r_urefs. simpl r_type. simpl Z.eqb. cbv iota.
  split_and!; [done| |by eapply unlocked_ports_put; [apply Hst|apply tick_touched, touched_refl|]|].
  - match goal with |- rights_ok _ _ (put _ _ ?x) =>
      apply (rights_recount (delete name caps) tr [MACH_PORT_TYPE_SEND] [MACH_PORT_TYPE_SEND; MACH_PORT_TYPE_SEND]
        _ _ (ie_object e) (set_ip_locked port2 false) x Hok) end; try done; [apply put_get| |].
    + split; simpl; rewrite ?u32_next by lia; lia.
    + simpl. by rewrite insert_insert_eq.
  - eapply put_touched; [apply tick_touched, touched_refl|done|]. destruct Hsame. by split.
Qed.

(** The name has two send rights to give. *)
Definition has_two : bool := has_send (r_type r) && (2 <=? r_urefs r).

Lemma right_copyin_two_spec :
  ∃ sp' st', ipc_right_copyin_two sp st name ep =
      Ok (sp', st', if has_two && alive st r then Some (ie_object e, gone_soright st r (less_two r)) else None) ∧
    unlocked_ports st' ∧ touched (ie_object e) st st' [] ∧
    if has_two then
      if alive st r then two_ok (less_two r) sp' st' else standing sp' st' (set_right caps name (Some (dead_right r))) tr
    else sp' = sp ∧ st' = st.
Proof.
  unfold ipc_right_copyin_two, has_two. unfold eread at 1. rewrite He, (sd_active _ _ _ (sg_space _ _ _ _ Hst)). ostep.
  assert (has (ie_bits e) MACH_PORT_TYPE_SEND = has_send (r_type r)) as -> by (by rewrite has_type).
  destruct (has_send (r_type r)) eqn:Hs; cbn [andb negb].
  2: { exists sp, st. split_and!; [done|apply Hst|apply touched_refl|done..]. }
  change (IE_BITS_UREFS (ie_bits e)) with (r_urefs r). rewrite Z.ltb_antisym. destruct (Z.leb_spec 2 (r_urefs r)) as [H2|H2]; cbn [andb negb].
  2: { exists sp, st. split_and!; [done|apply Hst|apply touched_refl|done..]. }
  destruct (two_facts Hs) as (Ht & Hur & port & Hp & [_ Hn] & Hz & Hl & _ & _ & _ & Hc).
  change IP_NULL with IO_NULL. rewrite (proj2 (Z.eqb_neq _ _) Hz). ostep.
  unfold alive. change (r_object r) with (ie_object e). rewrite Hp. destruct (ip_active port) eqn:Ha.
  2: { destruct (check_dead _ _ _ _ _ _ _ Hst Hd He port Hp Ha) as (sp' & st' & e' & -> & Hs' & _ & _ & _ & Ht').
       { by eapply has_mono; [|done]. }
       ostep. exists sp', st'. split_and!; [done|apply Hs'|done|done]. }
  destruct (Hc eq_refl) as (Hsr & _ & _). rewrite (check_alive _ _ _ _ _ _ _ Hst He port) by done. ostep.
  rewrite put_pget. ostep. simpl ip_srights. rewrite (proj2 (Z.ltb_lt _ _) Hsr). ostep.
  assert (∀ o, gone_soright st r o = match o with Some _ => IP_NULL | None => notify_right port (r_request r) end) as Hso
    by (intros o; unfold gone_soright; change (r_object r) with (ie_object e); rewrite Hp; done).
  destruct (Z.eqb_spec (r_urefs r) 2) as [Hu2|Hu2].
  2: { destruct (two_fewer port Hp Ha Hs ltac:(lia)) as (st' & Hrun & Hok). rewrite Hso.
       assert (is_Some (less_two r)) as [r' Hr'].
       { unfold less_two, less_one. rewrite (proj2 (Z.eqb_neq (r_urefs r) 1)) by lia. simpl r_urefs.
         rewrite (proj2 (Z.eqb_neq _ 1)) by (simpl in *; lia). by eexists. }
       rewrite put_pmod in *. ostep. cbn [mbind outcome_bind] in Hrun.
       destruct (ip_reference _ _) as [st1|]; [|done]. cbn [mbind outcome_bind] in Hrun. ostep.
       destruct (ip_reference st1 _) as [st2|]; [|done]. cbn [mbind outcome_bind] in Hrun. ostep. rewrite Hrun. ostep.
       eexists _, _. rewrite Hr' in *. split; [done|]. split_and!; [apply Hok|apply Hok|done]. }
  rewrite Hso. destruct Ht as [Ht|Ht].
  - destruct (rebits_clear (ie_bits e) (Z.lor IE_BITS_UREFS_MASK MACH_PORT_TYPE_SEND)) as [Hhigh Hx _]; [done..|].
    destruct (two_last port _ Hp Ha Ht Hu2 Hhigh) as (sp1 & sp2 & st1 & st2 & Hcan & Hdel & Hrun & Hok).
    { rewrite Hx. change (IE_BITS_TYPE (ie_bits e)) with (r_type r). by rewrite Ht. }
    assert (less_two r = None) as Hlt by (unfold less_two, less_one; by rewrite Hu2, Ht).
    simpl in Ht. has_simpl Ht. rewrite ?Ht. simpl Z.eqb. ostep. rewrite Hcan. ostep. rewrite Hdel. ostep.
    destruct (pmod st1 _ _) as [st3|]; [|done]. cbn [mbind outcome_bind] in Hrun. ostep.
    destruct (ip_reference st3 _) as [st4|]; [|done]. cbn [mbind outcome_bind] in Hrun. ostep. rewrite Hrun. ostep.
    eexists _, _. rewrite Hlt in *. split; [done|]. split_and!; [apply Hok|apply Hok|done].
  - rewrite Ht in Hn. destruct Hn as (_ & Hname & Hspace).
    destruct (two_last_receive port Hp Ht Hu2) as (st' & Hrun & Hok).
    assert (is_Some (less_two r)) as [r' Hr'] by (unfold less_two, less_one; rewrite Hu2, Ht; by eexists).
    simpl in Ht. has_simpl Ht. unfold assert_receiver. simpl ip_receiver_name. simpl ip_data.
    rewrite Hname, Hspace, !Z.eqb_refl. ostep. rewrite ?Ht. simpl Z.eqb. ostep.
    rewrite put_pmod in *. ostep. cbn [mbind outcome_bind] in Hrun.
    destruct (ip_reference _ _) as [st1|]; [|done]. cbn [mbind outcome_bind] in Hrun. ostep.
    destruct (ip_reference st1 _) as [st2|]; [|done]. cbn [mbind outcome_bind] in Hrun. ostep. rewrite Hrun. ostep.
    eexists _, _. rewrite Hr' in *. split; [done|]. split_and!; [apply Hok|apply Hok|done].
Qed.
End two.
