(* ===== verification/IpcKmsgInv.v ===== *)
(** * What copying in a header does to the rights of a space

    [ipc_kmsg_copyin_header] in a system where no other thread runs: the
    rights for the destination and for the reply port go from the space into
    transit together, or neither does; but for names of the same index the
    code can read an entry that it has freed. *)

From stdpp Require Import prelude list gmap.
From S2P Require Import IpcNotify.
From S2P Require Import Prelude MachPort IpcSplay IpcTypes IpcHash IpcTable IpcEntry IpcInv IpcDealloc IpcUpdate.
From S2P Require Import IpcPort IpcDnreq IpcPortRights IpcPset IpcDestroy IpcRight IpcRightEq IpcRightInv IpcFrame IpcRightDealloc.
From S2P Require Import IpcRightCopy IpcRightTwo IpcObject IpcMqueue IpcObjectInv IpcKmsg.

(** ** What the header is meant to do *)

(** The rights of the space afterwards, the rights that are carried away,
    the ports of the message, and the send-once rights of the dead-name
    requests that went. *)
Record plan := Plan {
  pl_return : mach_msg_return;
  pl_caps : rights_t;
  pl_carried : transit_t;
  pl_dest : Z;
  pl_reply : Z;
  pl_sorights : Z → Z → Prop;
}.

Definition refused (mr : mach_msg_return) (caps : rights_t) : plan :=
  Plan mr caps [] IP_NULL IP_NULL (λ _ _, False).

(** No reply port. *)
Definition plan_one (caps : rights_t) (st : pstate) (dest dt reply : Z) : plan :=
  match caps !! dest with
  | None => refused MACH_SEND_INVALID_DEST caps
  | Some r0 =>
    let r := seen dt st r0 in
    if legal dt false r then
      Plan MACH_MSG_SUCCESS (set_right caps dest (remains dt r)) (copied dt r) (r_object r) reply
        (λ a b, a = copied_soright dt st r ∧ b = IP_NULL)
    else refused MACH_SEND_INVALID_DEST (set_right caps dest (Some r))
  end.

(** Two names: a dead reply port is no error. *)
Definition plan_two (caps : rights_t) (st : pstate) (dest dt reply rt : Z) : plan :=
  match caps !! dest, caps !! reply with
  | None, _ => refused MACH_SEND_INVALID_DEST caps
  | _, None => refused MACH_SEND_INVALID_REPLY caps
  | Some r1, Some r2 =>
    let d := seen dt st r1 in
    let r := seen rt st r2 in
    if negb (legal rt true r) then refused MACH_SEND_INVALID_REPLY caps
    else if negb (legal dt false d) then refused MACH_SEND_INVALID_DEST (set_right caps dest (Some d))
    else Plan MACH_MSG_SUCCESS (set_right (set_right caps dest (remains dt d)) reply (remains rt r))
           (copied rt r ++ copied dt d) (r_object d) (copied_object r)
           (λ a b, a = copied_soright dt st d ∧ (r_object r2 ≠ r_object r1 → b = copied_soright rt st r))
  end.

(** One name for both: what is left of a right of which two rights have been
    taken. *)
Definition both_remain (dt rt : Z) (r : right) : option right :=
  match remains dt r with
  | Some r' => remains rt r'
  | None => None
  end.

Definition plan_same (caps : rights_t) (st : pstate) (name dt rt : Z) : plan :=
  match caps !! name with
  | None => refused MACH_SEND_INVALID_DEST caps
  | Some r0 =>
    if negb (legal rt true (seen rt st r0)) then refused MACH_SEND_INVALID_REPLY caps
    else if (dt =? MACH_MSG_TYPE_MOVE_SEND_ONCE) || (rt =? MACH_MSG_TYPE_MOVE_SEND_ONCE)
    then refused MACH_SEND_INVALID_DEST caps
    else if (dt =? MACH_MSG_TYPE_MOVE_SEND) && (rt =? MACH_MSG_TYPE_MOVE_SEND) &&
            negb (has_send (r_type r0) && (2 <=? r_urefs r0))
    then refused MACH_SEND_INVALID_DEST caps
    else
      let r := seen dt st r0 in
      if negb (legal dt false r) then refused MACH_SEND_INVALID_DEST (set_right caps name (Some r))
      else
        let so := gone_soright st r (both_remain dt rt r) in
        Plan MACH_MSG_SUCCESS (set_right caps name (both_remain dt rt r)) (copied rt r ++ copied dt r)
          (r_object r) (r_object r)
          (λ a b, if dt =? MACH_MSG_TYPE_MOVE_SEND then a = so ∧ b = IP_NULL else a = IP_NULL ∧ b = so)
  end.

(** The types of the header are legal. *)
Definition header_legal (bits reply : Z) : bool :=
  MACH_MSG_TYPE_PORT_ANY_SEND (MACH_MSGH_BITS_REMOTE bits) &&
  (if MACH_MSGH_BITS_LOCAL bits =? 0 then reply =? MACH_PORT_NULL
   else MACH_MSG_TYPE_PORT_ANY_SEND (MACH_MSGH_BITS_LOCAL bits)).

(** A name to be told is a receive right. *)
Definition notify_legal (caps : rights_t) (notify : Z) : bool :=
  (notify =? MACH_PORT_NULL) ||
  match caps !! notify with
  | Some r => has (r_type r) MACH_PORT_TYPE_RECEIVE
  | None => false
  end.

Definition header_plan (caps : rights_t) (st : pstate) (bits dest reply : Z) : plan :=
  let dt := MACH_MSGH_BITS_REMOTE bits in
  let rt := MACH_MSGH_BITS_LOCAL bits in
  if dest =? reply then plan_same caps st dest dt rt
  else if negb (MACH_PORT_VALID reply) then plan_one caps st dest dt reply
  else plan_two caps st dest dt reply rt.

(** The type of the right that is carried, for the receiver. *)
Definition sent_type (msgt : Z) : Z :=
  if msgt =? 0 then 0 else if sends_once msgt then MACH_MSG_TYPE_PORT_SEND_ONCE else MACH_MSG_TYPE_PORT_SEND.

(** The ports of the rights of a name. *)
Definition port_of (caps : rights_t) (name : Z) : gset Z :=
  match caps !! name with
  | Some r => {[r_object r]}
  | None => ∅
  end.

Section kmsg_inv.
Context `{IW : iworld, !undisturbed}.
Context `{PW : pworld, !quiet}.

(** ** Ports *)

(** Every port has a valid address and room for [k] more references and
    rights. *)
Definition room (k : Z) (st : pstate) : Prop :=
  ∀ p port, ps_ports st !! p = Some port → IO_VALID p = true ∧ ip_references port + k ≤ IO_MAX_REFERENCES ∧
    0 ≤ ip_srights port < 2 ^ 32 - k ∧ 0 ≤ ip_sorights port < 2 ^ 32 - k.

Lemma room_one k st p port : 0 < k → room k st → ps_ports st !! p = Some port → has_room port.
Proof. intros Hk Hr Hp. destruct (Hr p port Hp) as (_ & ? & ? & ?). unfold has_room. lia. Qed.

Lemma room_grown k j st st' : room k st → grown j j j st st' → room (k - j) st'.
Proof.
  intros Hr Hg p port' Hp. destruct (Hg p port' Hp) as (port & Hp0 & [H1 H2 H3]). destruct (Hr p port Hp0) as (? & ? & ? & ?).
  split; [done|]. specialize (H2 ltac:(lia)). specialize (H3 ltac:(lia)). lia.
Qed.

Lemma room_ports k st st' : room k st → ps_ports st' = ps_ports st → room k st'.
Proof. intros Hr He p port. rewrite He. apply Hr. Qed.

(** The ports outside of [ps] are as before, the others the same ports; [ns]
    has been sent. *)
Record changed (ps : gset Z) (st st' : pstate) (ns : list notification) : Prop := {
  ch_ports q : q ∉ ps → ps_ports st' !! q = ps_ports st !! q;
  ch_same q port' : ps_ports st' !! q = Some port' → ∃ port, ps_ports st !! q = Some port ∧ same_port port port';
  ch_psets : ps_psets st' = ps_psets st;
  ch_woken : ps_woken st' = ps_woken st;
  ch_notes : ps_notes st' = reverse ns ++ ps_notes st;
}.

Lemma touched_changed p st st' ns : touched p st st' ns → changed {[p]} st st' ns.
Proof.
  intros [Hp Hs H3 H4 H5]. split; [|intros q port' Hq|done..].
  - intros q Hq%not_elem_of_singleton. by apply Hp.
  - destruct (decide (q = p)) as [->|]; [by apply Hs|]. rewrite Hp in Hq by done. exists port'. by split; [|split].
Qed.

Lemma changed_trans ps ps' st1 st2 st3 ns ns' :
  changed ps st1 st2 ns → changed ps' st2 st3 ns' → changed (ps ∪ ps') st1 st3 (ns ++ ns').
Proof.
  intros [H1 H1' H2 H3 H4] [G1 G1' G2 G3 G4]. split; [|intros q port3 Hq|congruence..|].
  - intros q Hq. rewrite G1, H1; [done|set_solver..].
  - destruct (G1' q port3 Hq) as (port2 & (port1 & ? & ?)%H1' & ?). exists port1. split; [done|by etrans].
  - by rewrite G4, H4, reverse_app, app_assoc.
Qed.

Lemma changed_sub ps ps' st st' ns : changed ps st st' ns → ps ⊆ ps' → changed ps' st st' ns.
Proof. intros [H1 H2 H3 H4 H5] Hsub. split; [|done..]. intros q Hq. apply H1. set_solver. Qed.

Lemma union_again (a b : gset Z) : (a ∪ b) ∪ b = a ∪ b.
Proof. set_solver. Qed.
Lemma union_none (a b : gset Z) : (a ∪ ∅) ∪ b = a ∪ b.
Proof. set_solver. Qed.

Lemma changed_refl ps st : changed ps st st [].
Proof. split; [done| |done..]. intros q port Hq. by exists port. Qed.

Lemma changed_out ps st st' ns ns' : changed ps st st' ns → changed ps st (out st' ns' [] 0) (ns ++ ns').
Proof. intros [H1 H2 H3 H4 H5]. split; [done..|]. simpl. by rewrite H5, reverse_app, <-app_assoc. Qed.

(** A right is as alive as before, if it is still accounted for. *)
Lemma changed_alive ps st st' ns caps tr n r :
  changed ps st st' ns → rights_ok caps tr st' → caps !! n = Some r → has_port (r_type r) = true → alive st' r = alive st r.
Proof.
  intros Hc Hok Hn Hh. destruct (ra_right _ _ _ Hok n r Hn) as [(_ & _ & _ & port' & Hp' & _)|[(Hx & _)|(Hx & _)]];
    [|by rewrite Hx in Hh..].
  destruct (ch_same _ _ _ _ Hc _ _ Hp') as (port & Hp & [Ha _ _]). unfold alive. by rewrite Hp, Hp', Ha.
Qed.

Lemma changed_seen ps st st' ns caps tr n r msgt :
  changed ps st st' ns → rights_ok caps tr st' → caps !! n = Some r → seen msgt st' r = seen msgt st r.
Proof.
  intros Hc Hok Hn. unfold seen. destruct (makes msgt); [done|]. unfold checked.
  destruct (has_port (r_type r)) eqn:Hh; [|done]. by rewrite (changed_alive _ _ _ _ _ _ _ _ Hc Hok Hn Hh).
Qed.

(** *** A reference is held *)

Lemma port_hold st caps tr p port :
  rights_ok caps tr st → unlocked_ports st → ps_ports st !! p = Some port → p ≠ IO_NULL →
  ip_references port < IO_MAX_REFERENCES → 0 < ip_references port →
  ∃ st', ipc_port_reference st p = Ok st' ∧ touched p st st' [] ∧ unlocked_ports st' ∧
    rights_ok caps ((MACH_PORT_TYPE_RECEIVE, p) :: tr) st' ∧ ps_ports st' = <[p := referenced port 1]> (ps_ports st).
Proof.
  intros Hok Hu Hp Hz Hroom Hpos. pose proof (Hu p port Hp) as Hl. unfold ipc_port_reference.
  rewrite (ip_lock_quiet st _ port) by done. ostep.
  rewrite (ip_reference_spec _ _ _ (put_get _ _ _)), put_put by (simpl; lia). ostep.
  rewrite (ip_unlock_spec _ _ _ (put_get _ _ _)), put_put by done. eexists. split; [done|].
  destruct (ra_port _ _ _ Hok _ _ Hp) as [Hdn Hrefs Hs Ho].
  split_and!; [touch|by eapply unlocked_ports_put; [done|apply tick_touched, touched_refl|]| |].
  2: { simpl. f_equal. apply port_ext; simpl; done. }
  match goal with |- rights_ok _ _ (put _ _ ?x) => apply (rights_recount caps tr [] [MACH_PORT_TYPE_RECEIVE] st _ p port x) end;
    try done.
  split; simpl; [lia..| |]; intros Ha; specialize (Hs Ha); specialize (Ho Ha); lia.
Qed.

Lemma port_drop st caps tr p :
  rights_ok caps ((MACH_PORT_TYPE_RECEIVE, p) :: tr) st → unlocked_ports st →
  ∃ st', ipc_port_release st p = Ok st' ∧ touched p st st' [] ∧ unlocked_ports st' ∧ rights_ok caps tr st'.
Proof.
  intros Hok Hu. destruct (ra_transit _ _ _ Hok MACH_PORT_TYPE_RECEIVE p) as [Hz [port Hp]]; [by left|done|].
  pose proof (Hu p port Hp) as Hl. destruct (ra_port _ _ _ Hok _ _ Hp) as [Hdn Hrefs Hs Ho]. simpl in Hrefs.
  unfold covers in Hrefs. rewrite Z.eqb_refl in Hrefs. simpl in Hrefs.
  pose proof (tally_nonneg has_port caps p). pose proof (carried_nonneg has_port tr p).
  rewrite (port_release_quiet st p port) by (done || lia). eexists. split; [done|].
  split_and!; [touch|by eapply unlocked_ports_unlocked; [done|apply tick_touched, touched_refl|]|].
  apply rights_unlocked.
  apply (rights_recount caps tr [MACH_PORT_TYPE_RECEIVE] [] st _ p port (referenced port (-1))); try done.
  split; simpl; [lia..| |]; intros Ha; specialize (Hs Ha); specialize (Ho Ha); simpl in *; unfold covers in *; simpl in *; lia.
Qed.

(** ** Entries *)

Lemma denotes_more hs hs' sp n ep : denotes hs sp n ep → hs ⊆ hs' → denotes hs' sp n ep.
Proof. destruct ep as [i|p]; [|done]. intros (? & ? & [?|?]) Hs; (split; [done|]; split; [done|]); [by left|right; set_solver]. Qed.

(** The name whose right has gone, but whose entry is still there. *)
Definition in_hand (name : Z) (o : option right) : gset Z :=
  match o with Some _ => ∅ | None => {[name]} end.

Definition spent (e : ipc_entry) : Prop :=
  IE_BITS_TYPE (ie_bits e) = MACH_PORT_TYPE_NONE ∧ ie_object e = IO_NULL ∧ ie_request e = 0.

Lemma spent_cap e e' : cap_of e' = cap_of e → spent e → spent e'.
Proof.
  intros Hc. assert (entry_right e' = entry_right e) as Hr by (by rewrite <-!cap_right_of, Hc).
  unfold entry_right in Hr. injection Hr as Ht _ Ho Hq. unfold spent. by rewrite Ht, Ho, Hq.
Qed.

Lemma spent_index e x : spent e → spent (set_ie_index e x).
Proof. done. Qed.

Lemma left_spaced sp caps name ep o :
  left_with ∅ sp caps name ep o →
  spaced (in_hand name o) sp (set_right caps name o) ∧ denotes (in_hand name o) sp name ep ∧
    (o = None → ∃ e, eget sp ep = Some e ∧ spent e).
Proof.
  destruct o as [r|]; [by intros [? ?]|]. intros (e & Hh & Hs). rewrite union_empty_r_L in Hh.
  split_and!; [apply Hh|apply Hh|]. intros _. exists e. split; [apply Hh|done].
Qed.

Lemma defunct_kept hs sp caps name ep :
  spaced hs sp caps → denotes hs sp name ep → name ∉ hs → entry_defunct sp name ep = Ok sp.
Proof.
  intros Hs Hd Hn. destruct (denotes_eget _ _ _ _ (sd_wf _ _ _ Hs) Hd) as [e He].
  destruct (spaced_entry _ _ _ _ _ _ Hs Hd Hn He) as [_ Ht]. unfold entry_defunct, eread. rewrite He. ostep.
  by rewrite (proj2 (Z.eqb_neq _ MACH_PORT_TYPE_NONE) Ht).
Qed.

(** What is left of an entry goes; the entries of names with another index
    stay. *)
Lemma defunct_spec hs sp caps name ep o `{!outside name hs} :
  left_with hs sp caps name ep o → (o = None → apart hs name) →
  ∃ sp', entry_defunct sp name ep = Ok sp' ∧ spaced hs sp' (set_right caps name o) ∧
    ∀ n ep' e, n ≠ name → (o = None → MACH_PORT_INDEX n ≠ MACH_PORT_INDEX name) → denotes hs sp n ep' →
      eget sp ep' = Some e → denotes hs sp' n ep' ∧ ∃ e', eget sp' ep' = Some e' ∧ cap_of e' = cap_of e.
Proof.
  intros Hl Hap. pose proof (is_outside : name ∉ hs) as Hout. destruct o as [r|].
  - destruct Hl as [Hs Hd]. exists sp. split; [by apply (defunct_kept hs sp _ _ _ Hs)|]. split; [done|].
    intros n ep' e _ _ Hd' He'. split; [done|]. by exists e.
  - destruct Hl as (e & Hh & Ht & Ho & Hq). destruct (hand_drop_out hs sp _ name ep e false Hh) as (sp' & Hrun & Hs & Hg); [auto..|].
    exists sp'. unfold entry_defunct. rewrite (hand_eread _ _ _ _ _ _ _ Hh). ostep. rewrite Ht. split; [done|]. split; [done|].
    intros n ep' e' Hne Hidx Hd He'.
    destruct (gn_entry _ _ _ _ Hg n ep' e' Hne (Hidx eq_refl)) as [Hd' Hx]; [eapply denotes_more; [done|set_solver]|done|].
    split; [|done]. replace hs with (({[name]} ∪ hs) ∖ {[name]}) by set_solver. done.
Qed.

(** The last entry. *)
Lemma defunct_last sp caps name ep o :
  spaced (in_hand name o) sp caps → denotes (in_hand name o) sp name ep →
  (o = None → ∃ e, eget sp ep = Some e ∧ spent e) →
  ∃ sp', entry_defunct sp name ep = Ok sp' ∧ spaced ∅ sp' caps.
Proof.
  intros Hs Hd He. destruct o as [r|].
  - exists sp. split; [by apply (defunct_kept ∅ sp caps)|done].
  - destruct (He eq_refl) as (e & Hg & Ht & Ho & Hq).
    assert (hand {[name]} sp caps name ep e false) as Hh.
    { split; [done|by apply elem_of_singleton|done|done|]. split; [|done]. intros Hr. exfalso.
      apply (reversed_object _ _ _ _ (sd_wf _ _ _ Hs) Hd Hr). by rewrite (entry_object_get _ _ _ Hg). }
    destruct (hand_drop _ _ _ _ _ _ Hh Ho Hq) as (sp' & Hrun & Hs'). exists sp'. split; [|done].
    unfold entry_defunct, eread. rewrite Hg. ostep. by rewrite Ht.
Qed.

(** ** Looking up both names *)

Lemma resplayed_findable sp sp' name : resplayed sp sp' → findable sp name → findable sp' name.
Proof. by intros (t & -> & _). Qed.

Lemma resplayed_get sp sp' ep : resplayed sp sp' → eget sp' ep = eget sp ep.
Proof. by intros (t & -> & _); destruct ep. Qed.

Lemma resplayed_at sp sp' caps name ep e : resplayed sp sp' → at_name sp caps name ep e → at_name sp' caps name ep e.
Proof.
  intros Hr [Hs Hd He]. split; [by eapply spaced_resplayed|by apply (resplayed_denotes _ _ _ _ _ Hr)|].
  by rewrite (resplayed_get _ _ _ Hr).
Qed.

Lemma lookup_also sp caps name :
  spaced ∅ sp caps → findable sp name →
  ∃ sp' r, ipc_entry_lookup sp name = Ok (sp', r) ∧ spaced ∅ sp' caps ∧ resplayed sp sp' ∧
    match r with
    | Some ep => ∃ e, at_name sp' caps name ep e ∧ caps !! name = Some (entry_right e)
    | None => caps !! name = None
    end.
Proof.
  intros Hs Hf. destruct (lookup_spaced sp caps name Hs Hf) as (sp' & r & Hrun & Hs' & _ & Hx). destruct Hf as [Hu Hf].
  destruct (entry_lookup_spec ∅ sp name) as (sp'' & r' & Hrun' & Hr & _); [apply Hs..|done|set_solver|done|].
  assert (sp'' = sp') as -> by congruence. exists sp', r. split_and!; [done..|]. destruct r as [ep|]; [|done].
  destruct Hx as [e Hat]. exists e. split; [done|]. by eapply at_name_right.
Qed.

(** ** ipc_right_copyin_check *)

Definition send_types : list Z :=
  [MACH_MSG_TYPE_MAKE_SEND; MACH_MSG_TYPE_MAKE_SEND_ONCE; MACH_MSG_TYPE_COPY_SEND; MACH_MSG_TYPE_MOVE_SEND;
   MACH_MSG_TYPE_MOVE_SEND_ONCE].

Lemma send_not_receive msgt : msgt ∈ send_types → msgt ≠ MACH_MSG_TYPE_MOVE_RECEIVE.
Proof. intros Hm ->. unfold send_types in Hm. rewrite !elem_of_cons in Hm. by destruct Hm as [|[|[|[|[|[]%elem_of_nil]]]]]. Qed.

Lemma right_types name r st : right_ok name r st →
  r_type r ∈ [MACH_PORT_TYPE_SEND; MACH_PORT_TYPE_SEND_RECEIVE; MACH_PORT_TYPE_RECEIVE; MACH_PORT_TYPE_SEND_ONCE;
    MACH_PORT_TYPE_DEAD_NAME; MACH_PORT_TYPE_PORT_SET].
Proof.
  rewrite !elem_of_cons. intros [(_ & [[[?|?] _]|[[? _]|[? _]]] & _)|[(? & _)|(? & _)]]; tauto.
Qed.

Lemma receive_lives name r st : right_ok name r st → has (r_type r) MACH_PORT_TYPE_RECEIVE = true → alive st r = true.
Proof.
  intros [(_ & _ & _ & port & Hp & _ & Hn)|[(Ht & _)|(Ht & _)]] Hr; [|by rewrite Ht in Hr..].
  rewrite Hr in Hn. unfold alive. rewrite Hp. by destruct Hn.
Qed.

Lemma right_check_legal sp st caps tr name ep e msgt :
  standing sp st caps tr → denotes ∅ sp name ep → eget sp ep = Some e → msgt ∈ send_types →
  ∃ st', ipc_right_copyin_check sp st ep msgt = Ok (st', legal msgt true (seen msgt st (entry_right e))) ∧
    waited (ie_object e) st st'.
Proof.
  intros Hst Hd He Hm. pose proof (entry_ok _ _ _ _ _ _ _ Hst Hd He) as Hok.
  unfold ipc_right_copyin_check, eread. rewrite He, (sd_active _ _ _ (sg_space _ _ _ _ Hst)). ostep.
  assert (makes msgt = true ∨ makes msgt = false ∧ (msgt = MACH_MSG_TYPE_COPY_SEND ∨ msgt = MACH_MSG_TYPE_MOVE_SEND ∨
    msgt = MACH_MSG_TYPE_MOVE_SEND_ONCE)) as [Hmk|[Hmk Hm']].
  { unfold send_types in Hm. repeat rewrite elem_of_cons in Hm. destruct Hm as [-> |[-> |[-> |[-> |[-> |[]%elem_of_nil]]]]]; auto 6. }
  - unfold makes in Hmk. rewrite Hmk. ostep. unfold legal, seen, makes. rewrite Hmk.
    exists st. split; [|apply waited_refl]. by rewrite has_type.
  - assert ((msgt =? MACH_MSG_TYPE_MAKE_SEND) || (msgt =? MACH_MSG_TYPE_MAKE_SEND_ONCE) ||
      (msgt =? MACH_MSG_TYPE_MOVE_RECEIVE) = false) as -> by (by destruct Hm' as [-> |[-> | ->]]).
    assert ((msgt =? MACH_MSG_TYPE_COPY_SEND) || (msgt =? MACH_MSG_TYPE_MOVE_SEND) ||
          (msgt =? MACH_MSG_TYPE_MOVE_SEND_ONCE) = true) as -> by (by destruct Hm' as [-> |[-> | ->]]).
    unfold legal, seen. rewrite Hmk. set (r := entry_right e) in *. pose proof (right_types _ _ _ Hok) as Ht.
    destruct (has_port (r_type r) && negb (r_type r =? MACH_PORT_TYPE_RECEIVE)) eqn:Hcase.
    + apply andb_true_iff in Hcase as [Hp Hnr]. destruct (entry_port _ _ _ _ _ _ _ Hst Hd He Hp)
        as (port & Hport & _ & _ & Hz & Hl & _ & _).
      assert (has (ie_bits e) MACH_PORT_TYPE_DEAD_NAME = false ∧ has (ie_bits e) MACH_PORT_TYPE_SEND_RIGHTS = true) as [-> ->].
      { rewrite (has_type _ MACH_PORT_TYPE_DEAD_NAME), (has_type _ MACH_PORT_TYPE_SEND_RIGHTS) by done. change (IE_BITS_TYPE (ie_bits e)) with (r_type r).
        repeat rewrite elem_of_cons in Ht. by destruct Ht as [Ht|[Ht|[Ht|[Ht|[Ht|[Ht|[]%elem_of_nil]]]]]]; rewrite Ht in *. }
      rewrite (proj2 (Z.eqb_neq _ _) Hz). ostep. rewrite (ip_lock_quiet st _ port) by done. ostep. rewrite put_pget. ostep.
      rewrite (ip_unlock_spec _ _ _ (put_get _ _ _)), put_put, unlocked_idem by done. ostep. simpl ip_active.
      pose proof (waited_put _ st port Hport) as Hw. unfold checked. rewrite Hp. unfold alive.
      change (r_object r) with (ie_object e). rewrite Hport. simpl.
      destruct (ip_active port); simpl.
      * assert (is_dead r = false) as ->.
        { unfold is_dead. repeat rewrite elem_of_cons in Ht.
          by destruct Ht as [Ht|[Ht|[Ht|[Ht|[Ht|[Ht|[]%elem_of_nil]]]]]]; rewrite Ht in *. }
        eexists. split; [|done]. unfold sends_once. destruct Hm' as [-> |[-> | ->]]; simpl; by rewrite has_type.
      * eexists. split; [done|]. done.
    + assert (checked st r = r) as ->.
      { unfold checked. destruct (has_port (r_type r)) eqn:Hp; [|done]. cbn [andb] in Hcase.
        apply negb_false_iff, Z.eqb_eq in Hcase. by rewrite (receive_lives _ _ _ Hok) by (by rewrite Hcase). }
      exists st. split; [|apply waited_refl]. unfold is_dead. repeat rewrite elem_of_cons in Ht.
      change (IE_BITS_TYPE (ie_bits e)) with (r_type r).
      destruct Ht as [Ht|[Ht|[Ht|[Ht|[Ht|[Ht|[]%elem_of_nil]]]]]]; rewrite Ht in Hcase; try done;
        simpl in Ht; has_simpl Ht; simpl; rewrite Ht; by destruct Hm' as [-> |[-> | ->]].
Qed.

(** ** Copying in one right *)

Lemma take_spec k hs sp st caps tr name ep e msgt deadok `{!outside name hs} :
  standing_but hs sp st caps tr → denotes hs sp name ep → eget sp ep = Some e → 0 < k → room k st → msgt ∈ send_types →
  let r := seen msgt st (entry_right e) in
  ∃ sp' st', ipc_right_copyin sp st name ep msgt deadok =
      Ok (sp', st', if legal msgt deadok r then Some (copied_object r, copied_soright msgt st r) else None) ∧
    changed {[ie_object e]} st st' [] ∧ unlocked_ports st' ∧ room (k - 1) st' ∧ framed ep sp sp' ∧
    if legal msgt deadok r then
      left_with hs sp' caps name ep (remains msgt r) ∧
      rights_ok (set_right caps name (remains msgt r)) (copied msgt r ++ tr) st'
    else standing_but hs sp' st' (set_right caps name (Some r)) tr ∧ denotes hs sp' name ep.
Proof.
  intros Hst Hd He Hk Hr Hm r.
  destruct (right_copyin_spec hs sp st caps tr name ep e msgt deadok Hst Hd He) as (sp' & st' & Hrun & Ht & Hu & Hpost);
    [intros port; by apply (room_one k)|done|].
  pose proof (send_not_receive msgt Hm) as Hne.
  exists sp', st'. split_and!; [done|by apply touched_changed|done| |by eapply copyin_framed|done].
  eapply room_grown; [done|]. by eapply copyin_grown.
Qed.

(** Where a message can be sent, the port is alive. *)
Lemma legal_alive name r st msgt :
  right_ok name r st → legal msgt false (seen msgt st r) = true →
  seen msgt st r = r ∧ alive st r = true ∧ has_port (r_type r) = true ∧ is_dead r = false.
Proof.
  intros Hok. unfold legal, seen. destruct (makes msgt).
  - intros Hr. split; [done|]. split; [by eapply receive_lives|].
    pose proof (right_types _ _ _ Hok) as Ht. unfold is_dead. repeat rewrite elem_of_cons in Ht.
    by destruct Ht as [Ht|[Ht|[Ht|[Ht|[Ht|[Ht|[]%elem_of_nil]]]]]]; rewrite Ht in *.
  - unfold checked. destruct (has_port (r_type r)) eqn:Hp; simpl.
    + destruct (alive st r); simpl; [|done]. intros Hl. split_and!; [done..|]. by destruct (is_dead r).
    + intros Hl. exfalso. pose proof (right_types _ _ _ Hok) as Ht. unfold is_dead in Hl. repeat rewrite elem_of_cons in Ht.
      destruct Ht as [Ht|[Ht|[Ht|[Ht|[Ht|[Ht|[]%elem_of_nil]]]]]]; rewrite Ht in *; try done. by destruct (sends_once msgt).
Qed.

Lemma must_undo_spec st saved dest reply port :
  ps_ports st !! saved = Some reply → ip_active reply = false → ps_ports st !! dest = Some port → ip_active port = true →
  unlocked_ports st →
  ∃ st', header_must_undo st saved dest = Ok (st', false) ∧ ps_ports st' = ps_ports st ∧ changed ∅ st st' [].
Proof.
  intros Hr Hra Hp Hpa Hu. unfold header_must_undo. rewrite (ip_lock_quiet st _ reply) by (done || by eapply Hu). ostep.
  rewrite put_pget. ostep. simpl ip_active. rewrite Hra. ostep.
  rewrite (ip_unlock_spec _ _ _ (put_get _ _ _)), put_put, unlocked_idem by (done || by eapply Hu). ostep.
  assert (put (ptick st) saved reply = ptick st) as -> by (unfold put, with_ports; simpl; rewrite insert_id by done; done).
  rewrite (ip_lock_quiet (ptick st) _ port) by (done || by eapply Hu). ostep. rewrite put_pget. ostep.
  simpl ip_active. rewrite Hpa. ostep.
  rewrite (ip_unlock_spec _ _ _ (put_get _ _ _)), put_put, unlocked_idem by (done || by eapply Hu). ostep.
  eexists. split; [done|]. assert (put (ptick (ptick st)) dest port = ptick (ptick st)) as ->
    by (unfold put, with_ports; simpl; rewrite insert_id by done; done).
  split; [done|]. split; try done. intros q port' Hq. by exists port'.
Qed.

(** The run does what the plan says, the space still locked. *)
Definition planned (ps : gset Z) (st : pstate) (tr : transit_t) (pl : plan)
    (run : outcome (istate * pstate * header_result)) : Prop :=
  ∃ sp' st', standing sp' st' (pl_caps pl) (pl_carried pl ++ tr) ∧ changed ps st st' [] ∧
    if bool_decide (pl_return pl = MACH_MSG_SUCCESS)
    then ∃ a b, pl_sorights pl a b ∧ run = Ok (sp', st', Copied (HR (pl_dest pl) a (pl_reply pl) b))
    else run = Ok (sp', st', Invalid (pl_return pl)).

Lemma planned_more ps ps' st tr pl run : planned ps st tr pl run → ps ⊆ ps' → planned ps' st tr pl run.
Proof. intros (sp' & st' & Hs & Hc & Hx) Hsub. exists sp', st'. split; [done|]. split; [by eapply changed_sub|done]. Qed.

(** ** Two names *)

Section two.
Context (sp : istate) (st : pstate) (caps : rights_t) (tr : transit_t).
Context (dest : Z) (dep : eptr) (e1 : ipc_entry) (reply : Z) (rep : eptr) (e2 : ipc_entry) (dt rt : Z).
Hypothesis Hst : standing sp st caps tr.
Hypothesis Hd1 : denotes ∅ sp dest dep.
Hypothesis He1 : eget sp dep = Some e1.
Hypothesis Hd2 : denotes ∅ sp reply rep.
Hypothesis He2 : eget sp rep = Some e2.
Hypothesis Hne : dest ≠ reply.
Hypothesis Hroom : room 3 st.
Hypothesis Hdt : dt ∈ send_types.
Hypothesis Hrt : rt ∈ send_types.

Let r1 := entry_right e1.
Let r2 := entry_right e2.
Let d := seen dt st r1.
Let r := seen rt st r2.
Let o1 := remains dt d.
Let caps1 := set_right caps dest o1.
Let hs := in_hand dest o1.

Hypothesis Hlegal : legal rt true r = true.

Lemma two_names : caps !! dest = Some r1 ∧ caps !! reply = Some r2 ∧ dep ≠ rep.
Proof.
  pose proof (sg_space _ _ _ _ Hst) as Hs.
  split_and!; [by eapply spaced_entry; [..|apply not_elem_of_empty|]|by eapply spaced_entry; [..|apply not_elem_of_empty|]|].
  intros Heq. apply Hne. apply (denotes_name ∅ sp _ _ dep); [apply Hs|done|by rewrite Heq].
Qed.

Lemma two_reply_kept : caps1 !! reply = Some r2.
Proof.
  destruct two_names as (_ & H2 & _). unfold caps1, set_right. destruct o1; [rewrite lookup_insert_ne by done|];
    by rewrite lookup_delete_ne.
Qed.

#[export] Instance two_outside : outside reply hs.
Proof. unfold outside, hs, in_hand. destruct o1; set_solver. Qed.

Lemma two_object : if ie_object e2 =? IO_NULL then has_port (r_type r2) = false else has_port (r_type r2) = true.
Proof.
  destruct (entry_ok _ _ _ _ _ _ _ Hst Hd2 He2) as [(Hh & _ & Hz & _)|[(Ht & _ & Hz & _)|(Ht & _ & Hz & _)]];
    change (r_object (entry_right e2)) with (ie_object e2) in Hz.
  - by rewrite (proj2 (Z.eqb_neq _ _) Hz).
  - rewrite Hz, Z.eqb_refl. change (r_type (entry_right e2)) with (r_type r2) in Ht. by rewrite Ht.
  - exfalso. change (r_type (entry_right e2)) with (r_type r2) in Ht. revert Hlegal. unfold r, legal, seen, checked, is_dead.
    destruct (makes rt); cbn [andb]; rewrite Ht; [done|]. change (has_port MACH_PORT_TYPE_PORT_SET) with false. cbn [andb].
    rewrite Ht. by destruct (sends_once rt).
Qed.

(** The destination is copied in. *)
Lemma two_dest :
  legal dt false d = true →
  ∃ sp1 st1 x, ipc_right_copyin sp st dest dep dt false = Ok (sp1, st1, Some (ie_object e1, copied_soright dt st d)) ∧
    changed {[ie_object e1]} st st1 [] ∧ standing_but hs sp1 st1 caps1 (copied dt d ++ tr) ∧ room 2 st1 ∧
    denotes hs sp1 dest dep ∧ (o1 = None → ∃ e, eget sp1 dep = Some e ∧ spent e) ∧
    denotes hs sp1 reply rep ∧ eget sp1 rep = Some (set_ie_index e2 x).
Proof.
  intros Hl. destruct two_names as (Hn1 & _ & Hep).
  destruct (legal_alive dest r1 st dt (entry_ok _ _ _ _ _ _ _ Hst Hd1 He1) Hl) as (Hseen & _ & _ & Hnd).
  destruct (take_spec 3 ∅ sp st caps tr dest dep e1 dt false Hst Hd1 He1) as (sp1 & st1 & Hrun & Hc & Hu & Hr & Hfr & Hpost);
    [lia|done|done|]. change (seen dt st (entry_right e1)) with d in Hrun, Hpost. rewrite Hl in Hrun, Hpost.
  destruct Hpost as [Hleft Hok]. destruct (left_spaced _ _ _ _ _ Hleft) as (Hs1 & Hd1' & Hsp).
  destruct (fr_get _ _ _ Hfr rep e2 (not_eq_sym Hep) He2) as [x Hx].
  exists sp1, st1, x. split_and!; [|done|done|done|done|done| |done].
  - rewrite Hrun. do 3 f_equal. unfold copied_object, d in *. rewrite Hseen, Hnd. done.
  - eapply denotes_more; [by apply (fr_denotes _ _ _ Hfr)|set_solver].
Qed.

(** The reply port is held. *)
Definition held : transit_t := if ie_object e2 =? IO_NULL then [] else [(MACH_PORT_TYPE_RECEIVE, ie_object e2)].

Lemma two_hold sp1 st1 tr1 x :
  standing_but hs sp1 st1 caps1 tr1 → room 2 st1 → denotes hs sp1 reply rep → eget sp1 rep = Some (set_ie_index e2 x) →
  ∃ st2, (if negb (ie_object e2 =? IP_NULL) then ipc_port_reference st1 (ie_object e2) else Ok st1) = Ok st2 ∧
    changed {[ie_object e2]} st1 st2 [] ∧ room 1 st2 ∧ standing_but hs sp1 st2 caps1 (held ++ tr1) ∧
    ∀ q, ip_dnrequests <$> ps_ports st2 !! q = ip_dnrequests <$> ps_ports st1 !! q.
Proof.
  intros Hs1 Hr1 Hd He. pose proof two_object as Hobj. unfold held.
  change (ie_object e2 =? IP_NULL) with (ie_object e2 =? IO_NULL). destruct (Z.eqb_spec (ie_object e2) IO_NULL) as [Hz|Hz]; ostep.
  - exists st1. split_and!; [done|apply changed_refl| |done|done]. apply (room_grown 2 1 st1); [done|].
    eapply grown_le; [apply grown_refl|lia..].
  - destruct (entry_port _ _ _ _ _ _ _ Hs1 Hd He Hobj) as (port & Hp & _ & _ & _ & _ & Hrefs & _). simpl in Hp.
    destruct (Hr1 _ _ Hp) as (_ & Hroom1 & _).
    destruct (port_hold st1 caps1 tr1 (ie_object e2) port) as (st2 & Hrun & Ht & Hu & Hok & Hps);
      [apply Hs1|apply Hs1|done|done|lia|lia|]. exists st2. split_and!; [done|by apply touched_changed| | |].
    + apply (room_grown 2 1 st1); [done|]. eapply grown_le; [by eapply port_reference_grown|lia..].
    + split; [apply Hs1|done|done].
    + intros q. rewrite Hps. destruct (decide (q = ie_object e2)) as [->|]; [by rewrite lookup_insert_eq, Hp|].
      by rewrite lookup_insert_ne.
Qed.

(** The request of the reply port is the one it had. *)
Lemma same_requests p st1 st2 (rr : right) :
  ip_dnrequests <$> ps_ports st2 !! r_object rr = ip_dnrequests <$> ps_ports st1 !! r_object rr →
  copied_soright p st2 rr = copied_soright p st1 rr.
Proof.
  intros Heq. unfold copied_soright. destruct (remains p rr); [done|]. revert Heq.
  destruct (ps_ports st2 !! r_object rr) as [port2|], (ps_ports st1 !! r_object rr) as [port1|]; simpl; try done.
  intros [= Heq]. unfold notify_right, request. by rewrite Heq.
Qed.

(** The reply port has died: the destination has not. *)
Lemma two_undo st3 caps2 tr3 :
  legal dt false d = true → changed ({[ie_object e1]} ∪ {[ie_object e2]}) st st3 [] → unlocked_ports st3 →
  rights_ok caps2 tr3 st3 → (∀ c, c ∈ held ++ copied dt d → c ∈ tr3) →
  ∃ st4, (if negb (ie_object e2 =? IP_NULL) && (copied_object r =? IO_DEAD)
      then header_must_undo st3 (ie_object e2) (ie_object e1) else Ok (st3, false)) = Ok (st4, false) ∧
    ps_ports st4 = ps_ports st3 ∧ changed ∅ st3 st4 [].
Proof.
  intros Hl Hc Hu Hok Hin. destruct (negb (ie_object e2 =? IP_NULL) && (copied_object r =? IO_DEAD)) eqn:Hcase.
  2: { exists st3. split_and!; [done..|apply changed_refl]. }
  apply andb_true_iff in Hcase as [Hz Hdead%Z.eqb_eq]. apply negb_true_iff in Hz. change IP_NULL with IO_NULL in Hz.
  pose proof two_object as Hobj. unfold held in Hin. rewrite Hz in Hobj, Hin.
  destruct (entry_port _ _ _ _ _ _ _ Hst Hd2 He2 Hobj) as (port2 & Hp2 & _).
  destruct (Hroom _ _ Hp2) as (Hv2 & _).
  destruct (legal_alive dest r1 st dt (entry_ok _ _ _ _ _ _ _ Hst Hd1 He1) Hl) as (Hseen & Ha1 & _ & Hnd).
  assert (alive st r2 = false) as Ha2.
  { destruct (alive st r2) eqn:Ha; [|done]. exfalso.
    assert (r = r2) as Hr by (unfold r, seen, checked; rewrite Hobj, Ha; by destruct (makes rt)).
    unfold copied_object in Hdead. rewrite Hr in Hdead. destruct (is_dead r2) eqn:Hd.
    - unfold is_dead in Hd. apply Z.eqb_eq in Hd. by rewrite Hd in Hobj.
    - change (r_object r2) with (ie_object e2) in Hdead. by rewrite Hdead in Hv2. }
  destruct (ra_transit _ _ _ Hok MACH_PORT_TYPE_RECEIVE (ie_object e2)) as [_ [reply' Hp2']]; [apply Hin; by left|done|].
  destruct (ra_transit _ _ _ Hok (carried_type dt) (ie_object e1)) as [_ [port' Hp1']].
  { apply Hin. right. unfold copied, d. rewrite Hseen, Hnd. by left. }
  { unfold carried_type. by destruct (sends_once dt). }
  destruct (ch_same _ _ _ _ Hc _ _ Hp2') as (q2 & Hq2 & [Hx2 _ _]). destruct (ch_same _ _ _ _ Hc _ _ Hp1') as (q1 & Hq1 & [Hx1 _ _]).
  unfold alive in Ha1, Ha2. change (r_object r2) with (ie_object e2) in Ha2. change (r_object r1) with (ie_object e1) in Ha1.
  rewrite Hq2 in Ha2. rewrite Hq1 in Ha1.
  destruct (must_undo_spec st3 (ie_object e2) (ie_object e1) reply' port') as (st4 & Hrun & Hps & Hc4); [congruence..|done|].
  by exists st4.
Qed.

(** The references are given back. *)
Lemma two_drop st4 caps2 tr3 :
  rights_ok caps2 (held ++ tr3) st4 → unlocked_ports st4 →
  ∃ st5, (if negb (ie_object e2 =? IP_NULL) then ipc_port_release st4 (ie_object e2) else Ok st4) = Ok st5 ∧
    changed {[ie_object e2]} st4 st5 [] ∧ unlocked_ports st5 ∧ rights_ok caps2 tr3 st5.
Proof.
  intros Hok Hu. unfold held in Hok. change IP_NULL with IO_NULL. destruct (ie_object e2 =? IO_NULL); ostep.
  - exists st4. split_and!; [done|apply changed_refl|done..].
  - destruct (port_drop st4 caps2 tr3 (ie_object e2) Hok Hu) as (st5 & Hrun & Ht & Hu5 & Hok5).
    exists st5. split_and!; [done|by apply touched_changed|done..].
Qed.

(** The names have the same index, no third name has it, the reply name is
    in the table and is lost, and the destination keeps a right: its entry
    is freed before it is read. *)
Lemma two_dangles i :
  rep = EP_table i → legal dt false d = true → remains rt r = None → is_Some o1 →
  MACH_PORT_INDEX dest = MACH_PORT_INDEX reply →
  (∀ n, is_Some (caps !! n) → MACH_PORT_INDEX n = MACH_PORT_INDEX reply → n = dest ∨ n = reply) →
  header_two_copyin sp st dest dt dep reply rt rep = Fault FDeref.
Proof.
  intros Hi Hl Hlost [o Ho1] Hsame Honly. destruct two_names as (Hn1 & Hn2 & Hep). unfold header_two_copyin.
  destruct (two_dest Hl) as (sp1 & st1 & x & -> & Hc1 & Hst1 & Hr1 & Hd1' & Hsp1 & Hd2' & He2'). ostep.
  destruct (legal_alive dest r1 st dt (entry_ok _ _ _ _ _ _ _ Hst Hd1 He1) Hl) as (Hseen & Ha1 & Hh1 & Hnd).
  destruct (entry_port _ _ _ _ _ _ _ Hst Hd1 He1 Hh1) as (port1 & Hp1 & _ & _ & Hz1 & _). destruct (Hroom _ _ Hp1) as (Hv1 & _).
  rewrite Hv1. ostep. unfold eread at 1. rewrite He2'. ostep. change (ie_object (set_ie_index e2 x)) with (ie_object e2).
  destruct (two_hold sp1 st1 _ x Hst1 Hr1 Hd2' He2') as (st2 & -> & Hc2 & Hr2 & Hst2 & Hdn2). ostep.
  destruct (take_spec 1 hs sp1 st2 caps1 _ reply rep (set_ie_index e2 x) rt true Hst2 Hd2' He2')
    as (sp2 & st3 & Hrun & Hc3 & Hu3 & _ & Hfr & Hpost); [lia|done|done|].
  pose proof (changed_trans _ _ _ _ _ _ _ Hc1 Hc2) as Hc12.
  assert (seen rt st2 (entry_right (set_ie_index e2 x)) = r) as Hr.
  { apply (changed_seen _ _ _ _ caps1 _ reply _ rt Hc12 (sg_rights _ _ _ _ Hst2)). apply two_reply_kept. }
  rewrite Hr, Hlegal in Hrun, Hpost. destruct Hpost as [Hleft Hok3]. rewrite Hrun. ostep.
  pose proof (changed_trans _ _ _ _ _ _ _ Hc12 Hc3) as Hc13.
  change (ie_object (set_ie_index e2 x)) with (ie_object e2) in Hc13. rewrite union_again in Hc13.
  destruct (two_undo st3 _ _ Hl Hc13 Hu3 Hok3) as (st4 & -> & _); [intros c; rewrite !elem_of_app; tauto|]. ostep.
  rewrite Hlost in Hleft. destruct Hleft as (e & Hh & Ht & Ho & Hq).
  assert (hs = ∅) as Hhs by (unfold hs; by rewrite Ho1). rewrite Hhs, union_empty_r_L in Hh.
  pose proof (hd_spaced _ _ _ _ _ _ _ Hh) as Hs2. pose proof (sd_wf _ _ _ Hs2) as Hw2.
  rewrite Hi in Hh, Hep |- *. unfold entry_defunct. rewrite (hand_eread _ _ _ _ _ _ _ Hh). ostep. rewrite Ht. ostep.
  pose proof (hd_denotes _ _ _ _ _ _ _ Hh) as Hdr. pose proof (denotes_index _ _ _ _ Hw2 Hdr) as Hri.
  rewrite Hi in Hfr. pose proof (fr_denotes _ _ _ Hfr _ _ _ Hep Hd1') as Hd. rewrite Hhs in Hd.
  assert (denotes {[reply]} sp2 dest dep) as Hdd by (eapply denotes_more; [done|set_solver]).
  destruct dep as [j|p].
  { exfalso. apply Hep. f_equal. rewrite <-(denotes_index _ _ _ _ Hw2 Hdd). congruence. }
  destruct (dealloc_frees {[reply]} sp2 reply i e dest p) as (sp3 & -> & Hnone);
    [done|apply Hs2|by apply apart_sub|done|apply (hd_get _ _ _ _ _ _ _ Hh)|done..|congruence| |].
  - intros n q Hnq Hni.
    assert (n ≠ reply) as Hnr.
    { intros ->. pose proof (denotes_unique _ _ reply _ (EP_tree q) Hw2 Hdr Hnq). done. }
    destruct (denotes_eget _ _ n (EP_tree q) Hw2 Hnq) as [e' He'].
    destruct (spaced_entry _ _ _ n (EP_tree q) e' Hs2 Hnq) as [Hn _]; [set_solver|done|].
    rewrite lookup_delete_ne in Hn by done. unfold caps1, set_right in Hn. rewrite Ho1 in Hn.
    destruct (decide (n = dest)) as [|Hnd']; [done|]. rewrite lookup_insert_ne, lookup_delete_ne in Hn by done.
    destruct (Honly n) as [|]; [eauto|congruence|done..].
  - change (MACH_PORT_TYPE_NONE =? MACH_PORT_TYPE_NONE) with true. ostep. unfold eread. cbn [eget]. by rewrite Hnone.
Qed.

Hypothesis Hidx : remains rt r = None → MACH_PORT_INDEX dest ≠ MACH_PORT_INDEX reply.

(** Both entries are left behind. *)
Lemma two_defunct sp1 sp2 :
  spaced hs sp1 caps1 → denotes hs sp1 dest dep → (o1 = None → ∃ e, eget sp1 dep = Some e ∧ spent e) → framed rep sp1 sp2 →
  left_with hs sp2 caps1 reply rep (remains rt r) →
  ∃ sp3 sp4, entry_defunct sp2 reply rep = Ok sp3 ∧ entry_defunct sp3 dest dep = Ok sp4 ∧
    spaced ∅ sp4 (set_right caps1 reply (remains rt r)).
Proof.
  intros Hs1 Hd He Hfr Hleft. destruct two_names as (_ & _ & Hep).
  assert (remains rt r = None → apart hs reply) as Hap.
  { intros Hrem n Hn _. unfold hs, in_hand in Hn. destruct o1; [set_solver|]. apply elem_of_singleton in Hn as ->. auto. }
  destruct (defunct_spec hs sp2 caps1 reply rep _ Hleft Hap) as (sp3 & Hrun3 & Hs3 & Hkeep).
  destruct (denotes_eget _ _ _ _ (sd_wf _ _ _ Hs1) Hd) as [e He1'].
  destruct (fr_get _ _ _ Hfr dep e Hep He1') as [x Hx].
  destruct (Hkeep dest dep _ Hne Hidx (fr_denotes _ _ _ Hfr hs dest dep Hep Hd) Hx) as (Hd3 & e3 & He3 & Hcap).
  destruct (defunct_last sp3 (set_right caps1 reply (remains rt r)) dest dep o1) as (sp4 & Hrun4 & Hs4); [done|done| |by exists sp3, sp4].
  intros Ho. destruct (He Ho) as (e' & He' & Hsp). assert (e' = e) as -> by congruence.
  exists e3. split; [done|]. by eapply spent_cap.
Qed.

(** The whole. *)
Lemma two_copyin :
  planned ({[ie_object e1]} ∪ {[ie_object e2]}) st tr (plan_two caps st dest dt reply rt)
    (header_two_copyin sp st dest dt dep reply rt rep).
Proof.
  destruct two_names as (Hn1 & Hn2 & _). unfold plan_two. rewrite Hn1, Hn2. fold r d. rewrite Hlegal. cbn [negb].
  unfold header_two_copyin. destruct (legal dt false d) eqn:Hl; cbn [negb].
  2: { destruct (take_spec 3 ∅ sp st caps tr dest dep e1 dt false Hst Hd1 He1) as (sp1 & st1 & Hrun & Hc & Hu & _ & _ & Hpost);
         [lia|done|done|]. change (seen dt st (entry_right e1)) with d in Hrun, Hpost. rewrite Hl in Hrun, Hpost.
       rewrite Hrun. ostep. exists sp1, st1. split; [apply Hpost|]. split; [by eapply changed_sub; [|apply union_subseteq_l]|done]. }
  destruct (two_dest Hl) as (sp1 & st1 & x & -> & Hc1 & Hst1 & Hr1 & Hd1' & Hsp1 & Hd2' & He2'). ostep.
  destruct (legal_alive dest r1 st dt (entry_ok _ _ _ _ _ _ _ Hst Hd1 He1) Hl) as (Hseen & Ha1 & Hh1 & Hnd).
  destruct (entry_port _ _ _ _ _ _ _ Hst Hd1 He1 Hh1) as (port1 & Hp1 & _ & _ & Hz1 & _). destruct (Hroom _ _ Hp1) as (Hv1 & _).
  rewrite Hv1. ostep. unfold eread at 1. rewrite He2'. ostep. change (ie_object (set_ie_index e2 x)) with (ie_object e2).
  destruct (two_hold sp1 st1 _ x Hst1 Hr1 Hd2' He2') as (st2 & -> & Hc2 & Hr2 & Hst2 & Hdn2). ostep.
  destruct (take_spec 1 hs sp1 st2 caps1 _ reply rep (set_ie_index e2 x) rt true Hst2 Hd2' He2')
    as (sp2 & st3 & Hrun & Hc3 & Hu3 & _ & Hfr & Hpost); [lia|done|done|].
  pose proof (changed_trans _ _ _ _ _ _ _ Hc1 Hc2) as Hc12.
  assert (seen rt st2 (entry_right (set_ie_index e2 x)) = r) as Hr.
  { apply (changed_seen _ _ _ _ caps1 _ reply _ rt Hc12 (sg_rights _ _ _ _ Hst2)). apply two_reply_kept. }
  rewrite Hr, Hlegal in Hrun, Hpost. destruct Hpost as [Hleft Hok3]. rewrite Hrun. ostep.
  pose proof (changed_trans _ _ _ _ _ _ _ Hc12 Hc3) as Hc13.
  change (ie_object (set_ie_index e2 x)) with (ie_object e2) in Hc13. rewrite union_again in Hc13.
  destruct (two_undo st3 _ _ Hl Hc13 Hu3 Hok3) as (st4 & -> & Hps4 & Hc4); [intros c; rewrite !elem_of_app; tauto|]. ostep.
  destruct (two_defunct sp1 sp2) as (sp3 & sp4 & -> & Hrun4 & Hs4); [apply Hst1|done..|]. ostep. rewrite Hrun4. ostep.
  destruct (two_drop st4 (set_right caps1 reply (remains rt r)) (copied rt r ++ copied dt d ++ tr))
    as (st5 & -> & Hc5 & Hu5 & Hok5).
  { eapply rights_perm; [|eapply rights_ext; [exact Hok3|done|apply Hc4]].
    rewrite !(assoc_L (++)). f_equiv. f_equiv. apply Permutation_app_comm. }
  { intros q port. rewrite Hps4. apply Hu3. }
  ostep. exists sp4, st5. split; [split; [done| |done]|].
  { simpl. by rewrite <-app_assoc. }
  split.
  { pose proof (changed_trans _ _ _ _ _ _ _ (changed_trans _ _ _ _ _ _ _ Hc13 Hc4) Hc5) as Hc.
    by rewrite union_none, union_again in Hc. }
  cbn [pl_return pl_sorights pl_dest pl_reply]. eexists _, _. split; [split; [done|]|unfold d; by rewrite Hseen].
  intros Hobj. apply same_requests. rewrite Hdn2, (ch_ports _ _ _ _ Hc1); [done|]. rewrite elem_of_singleton.
  assert (r_object r = r_object r2 ∨ r_object r = IO_NULL) as [-> | ->]; [|done|congruence].
  unfold r, seen, checked. destruct (makes rt); [by left|]. case_match; [by right|by left].
Qed.
End two.

Lemma waited_changed p st st' : waited p st st' → changed ∅ st st' [].
Proof.
  intros [Hp [_ _ H1 H2 H3]]. split; [by intros; rewrite Hp| |done..]. intros q port. rewrite Hp. by exists port.
Qed.

Lemma planned_waited ps p st st' tr pl run : waited p st st' → planned ps st' tr pl run → planned ps st tr pl run.
Proof.
  intros Hw (sp2 & st2 & Hs & Hc & Hx). exists sp2, st2. split; [done|]. split; [|done].
  pose proof (changed_trans _ _ _ _ _ _ _ (waited_changed _ _ _ Hw) Hc) as Hc'. by rewrite union_empty_l_L in Hc'.
Qed.

Lemma plan_two_ports caps st st' dest dt reply rt :
  ps_ports st' = ps_ports st → plan_two caps st' dest dt reply rt = plan_two caps st dest dt reply rt.
Proof. intros Hp. unfold plan_two, seen, checked, alive, copied_soright. by rewrite Hp. Qed.

Lemma standing_waited sp p st st' caps tr : standing sp st caps tr → waited p st st' → standing sp st' caps tr.
Proof.
  intros [Hs Hok Hu] Hw. split; [done|by eapply waited_rights|by eapply waited_unlocked].
Qed.

Lemma seen_ports st st' msgt r : ps_ports st' = ps_ports st → seen msgt st' r = seen msgt st r.
Proof. intros Hp. unfold seen, checked, alive. by rewrite Hp. Qed.

Lemma planned_refused sp st caps tr ps mr :
  standing sp st caps tr → mr ≠ MACH_MSG_SUCCESS → planned ps st tr (refused mr caps) (Ok (sp, st, Invalid mr)).
Proof.
  intros Hs Hm. exists sp, st. split; [done|]. split; [apply changed_refl|]. simpl. by rewrite bool_decide_false.
Qed.

Lemma two_spec sp st caps tr dest dt reply rt :
  standing sp st caps tr → findable sp dest → findable sp reply → dest ≠ reply → room 3 st →
  dt ∈ send_types → rt ∈ send_types →
  (∀ r, caps !! reply = Some r → remains rt (seen rt st r) = None → MACH_PORT_INDEX dest ≠ MACH_PORT_INDEX reply) →
  planned (port_of caps dest ∪ port_of caps reply) st tr (plan_two caps st dest dt reply rt)
    (header_two sp st dest dt reply rt).
Proof.
  intros Hst Hf1 Hf2 Hne Hroom Hdt Hrt Hidx. unfold header_two, plan_two, port_of. pose proof Hst as [Hs Hok Hu].
  destruct (lookup_also sp caps dest Hs Hf1) as (sp1 & [dep|] & -> & Hs1 & Hre1 & Hx1); ostep.
  2: { rewrite Hx1. apply planned_refused; [by split|done]. }
  destruct Hx1 as (e1 & Hat1 & Hn1). rewrite Hn1.
  destruct (lookup_also sp1 caps reply Hs1 (resplayed_findable _ _ _ Hre1 Hf2)) as (sp2 & [rep|] & -> & Hs2 & Hre2 & Hx2); ostep.
  2: { rewrite Hx2. apply planned_refused; [by split|done]. }
  destruct Hx2 as (e2 & [_ Hd2 He2] & Hn2). rewrite Hn2. destruct (resplayed_at _ _ _ _ _ _ Hre2 Hat1) as [_ Hd1 He1].
  assert (dep ≠ rep) as Hep.
  { intros ->. by apply Hne, (denotes_name ∅ sp2 _ _ rep); [apply Hs2|..]. }
  rewrite bool_decide_true by done. ostep.
  assert ((rt =? 0) = false) as ->.
  { apply Z.eqb_neq. intros ->. unfold send_types in Hrt. rewrite !elem_of_cons in Hrt. by destruct Hrt as [|[|[|[|[|[]%elem_of_nil]]]]]. }
  ostep. assert (standing sp2 st caps tr) as Hst2 by done.
  destruct (right_check_legal sp2 st caps tr reply rep e2 rt Hst2 Hd2 He2 Hrt) as (st1 & -> & Hw). ostep.
  destruct (legal rt true (seen rt st (entry_right e2))) eqn:Hl; cbn [negb].
  2: { eapply planned_waited; [done|]. apply planned_refused; [by eapply standing_waited|done]. }
  pose proof (two_copyin sp2 st1 caps tr dest dep e1 reply rep e2 dt rt (standing_waited _ _ _ _ _ _ Hst2 Hw) Hd1 He1 Hd2 He2 Hne
    (room_ports _ _ _ Hroom (wt_ports _ _ _ Hw)) Hdt Hrt) as Hplan.
  rewrite !(seen_ports st st1) in Hplan by apply Hw. specialize (Hplan Hl (Hidx _ Hn2)).
  eapply planned_waited in Hplan; [|done]. rewrite (plan_two_ports caps st st1) in Hplan by apply Hw.
  unfold plan_two in Hplan. by rewrite Hn1, Hn2, Hl in Hplan.
Qed.

(** ** No reply port *)

Lemma one_spec sp st caps tr dest dt reply :
  standing sp st caps tr → findable sp dest → room 1 st → dt ∈ send_types →
  planned (port_of caps dest) st tr (plan_one caps st dest dt reply) (header_no_reply sp st dest dt reply).
Proof.
  intros Hst Hf Hroom Hdt. unfold header_no_reply, plan_one, port_of. pose proof Hst as [Hs Hok Hu].
  destruct (lookup_also sp caps dest Hs Hf) as (sp1 & [dep|] & -> & Hs1 & Hre1 & Hx1); ostep.
  2: { rewrite Hx1. apply planned_refused; [by split|done]. }
  destruct Hx1 as (e1 & [_ Hd1 He1] & Hn1). rewrite Hn1. set (d := seen dt st (entry_right e1)).
  assert (standing sp1 st caps tr) as Hst1 by done.
  destruct (take_spec 1 ∅ sp1 st caps tr dest dep e1 dt false Hst1 Hd1 He1) as (sp2 & st1 & Hrun & Hc & Hu1 & _ & _ & Hpost);
    [lia|done|done|]. fold d in Hrun, Hpost. rewrite Hrun. ostep. destruct (legal dt false d) eqn:Hl.
  - destruct (legal_alive dest _ st dt (entry_ok _ _ _ _ _ _ _ Hst1 Hd1 He1) Hl) as (Hseen & _ & _ & Hnd).
    destruct Hpost as [Hleft Hok1]. destruct (left_spaced _ _ _ _ _ Hleft) as (Hs2 & Hd2 & Hsp).
    destruct (defunct_last sp2 _ dest dep (remains dt d) Hs2 Hd2 Hsp) as (sp3 & -> & Hs3). ostep.
    exists sp3, st1. split; [by split|]. split; [done|]. simpl. eexists _, _. split; [done|].
    unfold copied_object, d. by rewrite Hseen, Hnd.
  - exists sp2, st1. split; [apply Hpost|]. split; [done|]. done.
Qed.

(** ** One name *)

(** A send right in transit is copied. *)
Lemma copy_send_spec st caps tr p port :
  rights_ok caps ((MACH_PORT_TYPE_SEND, p) :: tr) st → unlocked_ports st → room 1 st →
  ps_ports st !! p = Some port → ip_active port = true →
  ∃ st', ipc_port_copy_send st p = Ok (st', p) ∧ touched p st st' [] ∧ unlocked_ports st' ∧
    rights_ok caps ((MACH_PORT_TYPE_SEND, p) :: (MACH_PORT_TYPE_SEND, p) :: tr) st'.
Proof.
  intros Hok Hu Hr Hp Ha. destruct (Hr p port Hp) as (Hv & Hr1 & Hr2 & Hr3). pose proof (Hu p port Hp) as Hl.
  destruct (ra_transit _ _ _ Hok MACH_PORT_TYPE_SEND p) as [Hz _]; [by left|done|].
  destruct (ra_port _ _ _ Hok _ _ Hp) as [Hdn Hrefs Hs Ho]. specialize (Hs Ha). specialize (Ho Ha). simpl in Hrefs, Hs, Ho.
  unfold covers in Hrefs, Hs, Ho. rewrite Z.eqb_refl in Hrefs, Hs, Ho. simpl in Hrefs, Hs, Ho.
  pose proof (tally_nonneg has_send caps p). pose proof (carried_nonneg has_send tr p).
  rewrite (copy_send_eq st p port) by done. rewrite Ha, (proj2 (Z.ltb_lt 0 _)), (proj2 (Z.ltb_lt _ IO_MAX_REFERENCES)) by lia. ostep.
  eexists. split; [done|].
  split_and!; [touch|by eapply unlocked_ports_put; [done|apply tick_touched, touched_refl|]|].
  apply (rights_recount caps tr [MACH_PORT_TYPE_SEND] [MACH_PORT_TYPE_SEND; MACH_PORT_TYPE_SEND] st _ p port
    (referenced (sent_more port) 1)); try done.
  split; simpl; rewrite ?u32_next by lia; lia.
Qed.

(** Compare the constants of the types. *)
Ltac constant_eqb :=
  change (MACH_MSG_TYPE_COPY_SEND =? MACH_MSG_TYPE_COPY_SEND) with true in *;
  change (MACH_MSG_TYPE_MOVE_SEND =? MACH_MSG_TYPE_MOVE_SEND) with true in *;
  change (MACH_MSG_TYPE_COPY_SEND =? MACH_MSG_TYPE_MOVE_SEND) with false in *;
  change (MACH_MSG_TYPE_MOVE_SEND =? MACH_MSG_TYPE_COPY_SEND) with false in *.

Section same.
Context (sp : istate) (st : pstate) (caps : rights_t) (tr : transit_t) (name : Z) (ep : eptr) (e : ipc_entry) (dt rt : Z).
Hypothesis Hst : standing sp st caps tr.
Hypothesis Hd : denotes ∅ sp name ep.
Hypothesis He : eget sp ep = Some e.
Hypothesis Hroom : room 3 st.
Hypothesis Hdt : dt ∈ send_types.
Hypothesis Hrt : rt ∈ send_types.

Let r0 := entry_right e.

Hypothesis Hlegal : legal rt true (seen rt st r0) = true.
Hypothesis Hdo : dt ≠ MACH_MSG_TYPE_MOVE_SEND_ONCE.
Hypothesis Hro : rt ≠ MACH_MSG_TYPE_MOVE_SEND_ONCE.

(** Two rights for the port of the name have been copied in. *)
Definition same_done (o : option right) (run : outcome (istate * pstate * header_result)) (a b : Z) : Prop :=
  ∃ sp' st', standing sp' st' (set_right caps name o) ((copied rt r0 ++ copied dt r0) ++ tr) ∧
    changed {[ie_object e]} st st' [] ∧ run = Ok (sp', st', Copied (HR (ie_object e) a (ie_object e) b)).

(** The destination is not legal. *)
Definition same_refused (o : option right) (run : outcome (istate * pstate * header_result)) : Prop :=
  ∃ sp' st', standing sp' st' (set_right caps name o) tr ∧ changed {[ie_object e]} st st' [] ∧
    run = Ok (sp', st', Invalid MACH_SEND_INVALID_DEST).

Lemma same_ok : right_ok name r0 st.
Proof. exact (entry_ok _ _ _ _ _ _ _ Hst Hd He). Qed.

(** The entry has the right of the name. *)
Lemma standing_type sp1 st1 r tr1 type :
  standing sp1 st1 (set_right caps name (Some r)) tr1 → denotes ∅ sp1 name ep →
  Z.land IE_BITS_TYPE_MASK type = type → has (r_type r) type = true → assert_type sp1 ep type = Ok tt.
Proof.
  intros [Hs _ _] Hd1 Hm Hh. destruct (denotes_eget _ _ _ _ (sd_wf _ _ _ Hs) Hd1) as [e1 He1].
  destruct (spaced_entry _ _ _ _ _ _ Hs Hd1 (not_elem_of_empty name) He1) as [Hn _]. simpl in Hn. rewrite lookup_insert_eq in Hn.
  injection Hn as Hr. unfold assert_type, eread. rewrite He1. ostep. rewrite has_type by done.
  change (IE_BITS_TYPE (ie_bits e1)) with (r_type (entry_right e1)). by rewrite <-Hr, Hh.
Qed.

(** The send right that was copied in is copied again. *)
Lemma copy_again st1 caps1 :
  rights_ok caps1 ((MACH_PORT_TYPE_SEND, ie_object e) :: tr) st1 → unlocked_ports st1 → room 2 st1 →
  changed {[ie_object e]} st st1 [] → alive st r0 = true →
  ∃ st2, ipc_port_copy_send st1 (ie_object e) = Ok (st2, ie_object e) ∧ changed {[ie_object e]} st st2 [] ∧
    unlocked_ports st2 ∧
    rights_ok caps1 ((MACH_PORT_TYPE_SEND, ie_object e) :: (MACH_PORT_TYPE_SEND, ie_object e) :: tr) st2.
Proof.
  intros Hok Hu Hr Hc Ha.
  destruct (ra_transit _ _ _ Hok MACH_PORT_TYPE_SEND (ie_object e)) as [_ [port1 Hp1]]; [by left|done|].
  destruct (ch_same _ _ _ _ Hc _ _ Hp1) as (port & Hp & [Hact _ _]).
  assert (ip_active port1 = true) as Ha1.
  { unfold alive in Ha. change (r_object r0) with (ie_object e) in Ha. rewrite Hp in Ha. congruence. }
  destruct (copy_send_spec st1 _ tr (ie_object e) port1 Hok Hu) as (st2 & -> & Ht & Hu2 & Hok2); [|done|done|].
  { intros p port2 Hp2. destruct (Hr p port2 Hp2) as (? & ? & ? & ?). split_and!; done || lia. }
  exists st2. split; [done|]. split; [|done].
  pose proof (changed_trans _ _ _ _ _ _ _ Hc (touched_changed _ _ _ _ Ht)) as Hcc. by rewrite union_idemp_L in Hcc.
Qed.

(** Two send rights are copied. *)
Lemma same_copy :
  dt = MACH_MSG_TYPE_COPY_SEND → rt = MACH_MSG_TYPE_COPY_SEND →
  if legal dt false (seen dt st r0) then same_done (Some r0) (header_same_copy sp st name ep) IP_NULL IP_NULL
  else same_refused (Some (seen dt st r0)) (header_same_copy sp st name ep).
Proof.
  intros Hcd Hcr. unfold header_same_copy. rewrite <-Hcd.
  destruct (take_spec 3 ∅ sp st caps tr name ep e dt false Hst Hd He) as (sp1 & st1 & Hrun & Hc & Hu & Hr & _ & Hpost);
    [lia|done|done|]. change (entry_right e) with r0 in Hrun, Hpost. rewrite Hrun. ostep.
  destruct (legal dt false (seen dt st r0)) eqn:Hl.
  2: { exists sp1, st1. split; [apply Hpost|done]. }
  destruct (legal_alive name r0 st dt same_ok Hl) as (Hseen & Ha & Hh & Hnd). rewrite Hseen in Hpost |- *.
  assert (remains dt r0 = Some r0) as Hrem by (by rewrite Hcd). rewrite Hrem in Hpost. destruct Hpost as [[Hs1 Hd1] Hok1].
  assert (copied dt r0 = [(MACH_PORT_TYPE_SEND, ie_object e)]) as Hcop by (unfold copied; rewrite Hnd, Hcd; done).
  assert (standing sp1 st1 (set_right caps name (Some r0)) (copied dt r0 ++ tr)) as Hst1 by done.
  rewrite (standing_type sp1 st1 r0 _ MACH_PORT_TYPE_SEND Hst1 Hd1); [|done|].
  2: { unfold legal in Hl. rewrite Hseen, Hnd, Hcd in Hl. done. }
  ostep. assert (copied_soright dt st r0 = IP_NULL) as -> by (unfold copied_soright; by rewrite Hrem). ostep.
  unfold copied_object. rewrite Hnd. change (r_object r0) with (ie_object e). rewrite Hcop in Hok1.
  destruct (copy_again st1 _ Hok1 Hu Hr Hc Ha) as (st2 & -> & Hc2 & Hu2 & Hok2). ostep.
  exists sp1, st2. split; [split; [done| |done]|by split].
  rewrite Hcop, Hcr, <-Hcd, Hcop. done.
Qed.

(** One is moved, one copied. *)
Lemma same_both :
  dt = MACH_MSG_TYPE_COPY_SEND ∧ rt = MACH_MSG_TYPE_MOVE_SEND ∨ dt = MACH_MSG_TYPE_MOVE_SEND ∧ rt = MACH_MSG_TYPE_COPY_SEND →
  let so := gone_soright st r0 (less_one r0) in
  if legal dt false (seen dt st r0)
  then same_done (less_one r0) (header_same_both sp st name ep dt rt)
    (if dt =? MACH_MSG_TYPE_MOVE_SEND then so else IP_NULL) (if dt =? MACH_MSG_TYPE_MOVE_SEND then IP_NULL else so)
  else same_refused (Some (seen dt st r0)) (header_same_both sp st name ep dt rt).
Proof.
  intros Hcase so. unfold header_same_both.
  destruct (take_spec 3 ∅ sp st caps tr name ep e MACH_MSG_TYPE_MOVE_SEND false Hst Hd He) as (sp1 & st1 & Hrun & Hc & Hu & Hr & _ & Hpost);
    [lia|done| |]. { unfold send_types. rewrite !elem_of_cons. tauto. }
  change (entry_right e) with r0 in Hrun, Hpost.
  assert (seen MACH_MSG_TYPE_MOVE_SEND st r0 = seen dt st r0) as Hse by (by destruct Hcase as [[-> _]|[-> _]]).
  assert (legal MACH_MSG_TYPE_MOVE_SEND false (seen dt st r0) = legal dt false (seen dt st r0)) as Hle
    by (by destruct Hcase as [[-> _]|[-> _]]).
  rewrite Hse, Hle in Hrun, Hpost.
  assert ((dt =? MACH_MSG_TYPE_COPY_SEND) && (rt =? MACH_MSG_TYPE_MOVE_SEND) ||
           (dt =? MACH_MSG_TYPE_MOVE_SEND) && (rt =? MACH_MSG_TYPE_COPY_SEND) = true) as -> by (by destruct Hcase as [[-> ->]|[-> ->]]).
  ostep. rewrite Hrun. ostep.
  destruct (legal dt false (seen dt st r0)) eqn:Hl.
  2: { exists sp1, st1. split; [apply Hpost|done]. }
  destruct (legal_alive name r0 st dt same_ok Hl) as (Hseen & Ha & Hh & Hnd). rewrite Hseen in Hpost |- *.
  destruct Hpost as [Hleft Hok1]. change (remains MACH_MSG_TYPE_MOVE_SEND r0) with (less_one r0) in Hleft, Hok1.
  destruct (left_spaced _ _ _ _ _ Hleft) as (Hs1 & Hd1 & Hsp).
  destruct (defunct_last sp1 _ name ep (less_one r0) Hs1 Hd1 Hsp) as (sp2 & -> & Hs2). ostep.
  assert (copied MACH_MSG_TYPE_MOVE_SEND r0 = [(MACH_PORT_TYPE_SEND, ie_object e)]) as Hcop by (unfold copied; rewrite Hnd; done).
  unfold copied_object. rewrite Hnd. change (r_object r0) with (ie_object e). rewrite Hcop in Hok1.
  destruct (copy_again st1 _ Hok1 Hu Hr Hc Ha) as (st2 & -> & Hc2 & Hu2 & Hok2). ostep.
  assert (copied_soright MACH_MSG_TYPE_MOVE_SEND st r0 = so) as ->.
  { unfold copied_soright, so, gone_soright. rewrite Hnd. done. }
  exists sp2, st2. split; [split; [done| |done]|split; [done|]].
  - assert (copied dt r0 = [(MACH_PORT_TYPE_SEND, ie_object e)] ∧ copied rt r0 = [(MACH_PORT_TYPE_SEND, ie_object e)]) as [-> ->]
      by (unfold copied; rewrite Hnd; by destruct Hcase as [[-> ->]|[-> ->]]).
    done.
  - by destruct (dt =? MACH_MSG_TYPE_MOVE_SEND).
Qed.

(** Both are moved. *)
Lemma same_move :
  dt = MACH_MSG_TYPE_MOVE_SEND → rt = MACH_MSG_TYPE_MOVE_SEND →
  if has_send (r_type r0) && (2 <=? r_urefs r0) then
    if legal dt false (seen dt st r0)
    then same_done (less_two r0) (header_same_move sp st name ep) (gone_soright st r0 (less_two r0)) IP_NULL
    else same_refused (Some (seen dt st r0)) (header_same_move sp st name ep)
  else same_refused (Some r0) (header_same_move sp st name ep).
Proof.
  intros Hm1 Hm2. unfold header_same_move.
  assert (∀ port, ps_ports st !! ie_object e = Some port → room_two port) as Hr2.
  { intros port Hp. destruct (Hroom _ _ Hp) as (_ & ? & ? & ?). unfold room_two. lia. }
  destruct (right_copyin_two_spec sp st caps tr name ep e Hst Hd He Hr2) as (sp1 & st1 & -> & Hu & Ht & Hpost). ostep.
  unfold has_two in *. fold r0 in Hpost |- *. apply touched_changed in Ht as Hc.
  assert (set_right caps name (Some r0) = caps) as Hsame by (apply insert_delete_id, (entry_held _ _ _ _ _ _ _ Hst Hd He)).
  destruct (has_send (r_type r0) && (2 <=? r_urefs r0)) eqn:Hcase; cbn [andb].
  2: { destruct Hpost as [-> ->]. exists sp, st. rewrite Hsame. split; [done|]. by split. }
  apply andb_true_iff in Hcase as [Hs _]. assert (has_port (r_type r0) = true) as Hh by (by eapply has_mono; [|done]).
  rewrite Hm1. unfold seen. change (makes MACH_MSG_TYPE_MOVE_SEND) with false. cbv iota.
  unfold checked. rewrite Hh. destruct (alive st r0) eqn:Ha; cbn [andb negb].
  - assert (is_dead r0 = false) as Hnd.
    { unfold is_dead. apply Z.eqb_neq. intros Hx. by rewrite Hx in Hs. }
    unfold legal. rewrite Hnd. change (sends_once MACH_MSG_TYPE_MOVE_SEND) with false.
    change (makes MACH_MSG_TYPE_MOVE_SEND) with false. cbv iota. rewrite Hs.
    destruct Hpost as (Hleft & Hok & _ & _). destruct (left_spaced _ _ _ _ _ Hleft) as (Hs1 & Hd1 & Hsp).
    destruct (defunct_last sp1 _ name ep (less_two r0) Hs1 Hd1 Hsp) as (sp2 & -> & Hs2). ostep.
    exists sp2, st1. split; [split; [done| |done]|by split].
    rewrite Hm1, Hm2. unfold copied. rewrite Hnd. done.
  - exists sp1, st1. split; [exact Hpost|by split].
Qed.

(** A receive right stays. *)
Lemma remains_receive r msgt :
  r_type r = MACH_PORT_TYPE_RECEIVE ∨ r_type r = MACH_PORT_TYPE_SEND_RECEIVE → msgt ≠ MACH_MSG_TYPE_MOVE_SEND_ONCE →
  legal msgt true r = true →
  ∃ r', remains msgt r = Some r' ∧ r_object r' = r_object r ∧
    (r_type r' = MACH_PORT_TYPE_RECEIVE ∨ r_type r' = MACH_PORT_TYPE_SEND_RECEIVE) ∧ (makes msgt = true → r' = r).
Proof.
  intros Ht Hm Hl. unfold remains. destruct (moves msgt) eqn:Hmv; [|by exists r].
  unfold moves in Hmv. apply orb_true_iff in Hmv as [->%Z.eqb_eq|?%Z.eqb_eq]; [|done].
  assert (r_type r = MACH_PORT_TYPE_SEND_RECEIVE) as Ht'.
  { destruct Ht as [Ht|?]; [|done]. unfold legal, is_dead in Hl. rewrite Ht in Hl. done. }
  unfold less_one. rewrite Ht'. destruct (r_urefs r =? 1); (eexists; split; [done|]); split_and!; simpl; auto; done.
Qed.

Lemma same_make :
  makes dt = true ∨ makes rt = true →
  if legal dt false (seen dt st r0)
  then ∃ o, both_remain dt rt r0 = Some o ∧ same_done (Some o) (header_same_make sp st name ep dt rt) IP_NULL IP_NULL
  else same_refused (Some (seen dt st r0)) (header_same_make sp st name ep dt rt).
Proof.
  intros Hmk. unfold header_same_make.
  destruct (take_spec 3 ∅ sp st caps tr name ep e dt false Hst Hd He) as (sp1 & st1 & Hrun & Hc & Hu & Hr & _ & Hpost);
    [lia|done|done|]. fold r0 in Hrun, Hpost. rewrite Hrun. ostep.
  destruct (legal dt false (seen dt st r0)) eqn:Hl.
  2: { exists sp1, st1. split; [apply Hpost|done]. }
  destruct (legal_alive name r0 st dt same_ok Hl) as (Hseen & Ha & Hh & Hnd). rewrite Hseen in Hpost, Hl |- *.
  assert (seen rt st r0 = r0) as Hseenr by (unfold seen, checked; rewrite Hh, Ha; by destruct (makes rt)).
  pose proof Hlegal as Hlr. rewrite Hseenr in Hlr.
  assert (has (r_type r0) MACH_PORT_TYPE_RECEIVE = true) as Hrcv
    by (destruct Hmk as [Hmk|Hmk]; [unfold legal in Hl; by rewrite Hmk in Hl|unfold legal in Hlr; by rewrite Hmk in Hlr]).
  assert (r_type r0 = MACH_PORT_TYPE_RECEIVE ∨ r_type r0 = MACH_PORT_TYPE_SEND_RECEIVE) as Ht.
  { pose proof (right_types _ _ _ same_ok) as Ht. repeat rewrite elem_of_cons in Ht.
    destruct Ht as [Ht|[Ht|[Ht|[Ht|[Ht|[Ht|[]%elem_of_nil]]]]]]; auto; by rewrite Ht in Hrcv. }
  assert (legal dt true r0 = true) as Hl1 by (unfold legal in *; by rewrite Hnd in *).
  destruct (remains_receive r0 dt Ht Hdo Hl1) as (r1 & Hrem & Hobj & Ht1 & Hsm). rewrite Hrem in Hpost.
  destruct Hpost as [[Hs1 Hd1] Hok1].
  assert (∀ rr, r_type rr = MACH_PORT_TYPE_RECEIVE ∨ r_type rr = MACH_PORT_TYPE_SEND_RECEIVE →
    has (r_type rr) MACH_PORT_TYPE_RECEIVE = true ∧ is_dead rr = false) as Hfacts
    by (intros rr [Hx|Hx]; unfold is_dead; by rewrite Hx).
  destruct (Hfacts r1 Ht1) as [Hrcv1 Hnd1].
  assert (standing sp1 st1 (set_right caps name (Some r1)) (copied dt r0 ++ tr)) as Hst1 by done.
  unfold copied_object. rewrite Hnd. change (r_object r0) with (ie_object e).
  destruct (entry_port _ _ _ _ _ _ _ Hst Hd He Hh) as (port & Hp & _ & _ & Hz & _).
  destruct (Hroom _ _ Hp) as (Hv & _). rewrite Hv. ostep.
  rewrite (standing_type sp1 st1 r1 _ MACH_PORT_TYPE_RECEIVE Hst1 Hd1) by done. ostep.
  assert (copied_soright dt st r0 = IP_NULL) as -> by (unfold copied_soright; by rewrite Hrem). ostep.
  destruct (denotes_eget _ _ _ _ (sd_wf _ _ _ Hs1) Hd1) as [e1 He1].
  assert (entry_right e1 = r1) as Her.
  { destruct (spaced_entry _ _ _ _ _ _ Hs1 Hd1 (not_elem_of_empty name) He1) as [Hn _]. simpl in Hn.
    rewrite lookup_insert_eq in Hn. congruence. }
  destruct (take_spec 2 ∅ sp1 st1 _ _ name ep e1 rt true Hst1 Hd1 He1) as (sp2 & st2 & Hrun2 & Hc2 & Hu2 & _ & _ & Hpost2);
    [lia|done|done|]. rewrite Her in Hrun2, Hpost2.
  assert (right_ok name r1 st1) as Hok_r1 by (rewrite <-Her; exact (entry_ok _ _ _ _ _ _ _ Hst1 Hd1 He1)).
  assert (seen rt st1 r1 = r1) as Hse1.
  { unfold seen, checked. rewrite (receive_lives _ _ _ Hok_r1 Hrcv1), andb_false_r. by destruct (makes rt). }
  assert (legal rt true r1 = true) as Hl2.
  { destruct (makes rt) eqn:Hmr; [unfold legal; by rewrite Hmr|]. destruct Hmk as [Hmk|Hmk]; [by rewrite (Hsm Hmk)|congruence]. }
  destruct (remains_receive r1 rt Ht1 Hro Hl2) as (r2 & Hrem2 & Hobj2 & Ht2 & _).
  rewrite Hse1, Hl2 in Hrun2, Hpost2. rewrite Hrem2 in Hpost2. rewrite Hrun2. ostep.
  destruct Hpost2 as [[Hs2 Hd2] Hok2]. unfold copied_object. rewrite Hnd1, Hobj. change (r_object r0) with (ie_object e).
  rewrite Z.eqb_refl. ostep. rewrite set_right_twice in Hs2, Hok2.
  assert (standing sp2 st2 (set_right caps name (Some r2)) (copied rt r1 ++ copied dt r0 ++ tr)) as Hst2 by done.
  rewrite (standing_type sp2 st2 r2 _ MACH_PORT_TYPE_RECEIVE Hst2 Hd2) by (done || by destruct (Hfacts r2 Ht2)). ostep.
  assert (copied_soright rt st1 r1 = IP_NULL) as -> by (unfold copied_soright; by rewrite Hrem2). ostep.
  exists r2. split; [unfold both_remain; by rewrite Hrem|].
  exists sp2, st2. split_and!; [| |done].
  - assert (copied rt r0 = copied rt r1) as -> by (unfold copied; by rewrite Hnd, Hnd1, Hobj). by rewrite <-app_assoc.
  - pose proof (changed_trans _ _ _ _ _ _ _ Hc Hc2) as Hcc.
    assert (ie_object e1 = ie_object e) as Ho1 by (change (ie_object e1) with (r_object (entry_right e1)); by rewrite Her).
    by rewrite Ho1, union_idemp_L in Hcc.
Qed.
End same.

(** Name 0 is never bound. *)
Lemma null_unbound sp caps : spaced ∅ sp caps → caps !! MACH_PORT_NULL = None.
Proof.
  intros Hs. pose proof (sd_wf _ _ _ Hs) as Hw. pose proof (space_wf_size _ _ Hw).
  assert (is_u32 MACH_PORT_NULL) as Hu by (unfold is_u32, MACH_PORT_NULL; lia).
  rewrite <-(sd_view _ _ _ Hs MACH_PORT_NULL Hu) by apply not_elem_of_empty.
  rewrite (view_None ∅ sp MACH_PORT_NULL); [done..|]. intros [i|p] Hd.
  - pose proof (denotes_index _ _ _ _ Hw Hd) as Hi. destruct Hd as (Hr & _). change (MACH_PORT_INDEX MACH_PORT_NULL) with 0 in Hi. lia.
  - by destruct (tree_elem_ok _ _ _ _ Hw Hd) as (t & _ & _ & _ & (_ & Hv & _) & _).
Qed.

Lemma plan_same_ports caps st st' name dt rt :
  ps_ports st' = ps_ports st → plan_same caps st' name dt rt = plan_same caps st name dt rt.
Proof. intros Hp. unfold plan_same, seen, checked, alive, gone_soright. by rewrite Hp. Qed.

Lemma same_spec sp st caps tr name dt rt :
  standing sp st caps tr → findable sp name → room 3 st → dt ∈ send_types →
  (rt ∈ send_types ∨ rt = 0 ∧ name = MACH_PORT_NULL) →
  planned (port_of caps name) st tr (plan_same caps st name dt rt) (header_same sp st name dt rt).
Proof.
  intros Hst Hf Hroom Hdt Hrt. unfold header_same, port_of. pose proof Hst as [Hs Hok Hu].
  destruct (lookup_also sp caps name Hs Hf) as (sp1 & [ep|] & -> & Hs1 & Hre & Hx); ostep.
  2: { unfold plan_same. rewrite Hx. apply planned_refused; [by split|done]. }
  destruct Hx as (e & [_ Hd He] & Hn). assert (standing sp1 st caps tr) as Hst1 by done.
  destruct Hrt as [Hrt|[_ ->]]; [|by rewrite (null_unbound sp caps Hs) in Hn].
  assert ((rt =? 0) = false) as ->.
  { apply Z.eqb_neq. intros ->. unfold send_types in Hrt. rewrite !elem_of_cons in Hrt. by destruct Hrt as [|[|[|[|[|[]%elem_of_nil]]]]]. }
  ostep. destruct (right_check_legal sp1 st caps tr name ep e rt Hst1 Hd He Hrt) as (st1 & -> & Hw). ostep.
  rewrite <-(plan_same_ports caps st st1) by apply Hw. rewrite <-(seen_ports st st1) by apply Hw. eapply planned_waited; [done|].
  apply (standing_waited _ _ _ _ _ _ Hst1) in Hw as Hst2. pose proof (room_ports _ _ _ Hroom (wt_ports _ _ _ Hw)) as Hroom1.
  unfold plan_same. rewrite Hn. set (r0 := entry_right e).
  destruct (legal rt true (seen rt st1 r0)) eqn:Hl; cbn [negb]; [|by apply planned_refused].
  destruct (Z.eqb_spec dt MACH_MSG_TYPE_MOVE_SEND_ONCE) as [|Hdo]; [by apply planned_refused|].
  destruct (Z.eqb_spec rt MACH_MSG_TYPE_MOVE_SEND_ONCE) as [|Hro]; [by apply planned_refused|]. cbn [orb].
  assert ((dt =? MACH_MSG_TYPE_MAKE_SEND) || (dt =? MACH_MSG_TYPE_MAKE_SEND_ONCE) ||
    (rt =? MACH_MSG_TYPE_MAKE_SEND) || (rt =? MACH_MSG_TYPE_MAKE_SEND_ONCE) = makes dt || makes rt) as ->
    by (unfold makes; by rewrite !orb_assoc).
  assert (legal dt false (seen dt st1 r0) = true → seen dt st1 r0 = r0) as Hseen
    by (intros Hl1; by destruct (legal_alive name r0 st1 dt (entry_ok _ _ _ _ _ _ _ Hst2 Hd He) Hl1)).
  destruct (makes dt || makes rt) eqn:Hmk.
  { apply orb_true_iff in Hmk as Hmk'.
    assert ((dt =? MACH_MSG_TYPE_MOVE_SEND) && (rt =? MACH_MSG_TYPE_MOVE_SEND) = false) as ->.
    { apply andb_false_iff. destruct Hmk' as [Hm|Hm]; [left|right]; apply Z.eqb_neq; intros Hx; by rewrite Hx in Hm. }
    cbn [andb]. pose proof (same_make sp1 st1 caps tr name ep e dt rt Hst2 Hd He Hroom1 Hdt Hrt Hl Hdo Hro Hmk') as Hrun.
    fold r0 in Hrun. destruct (legal dt false (seen dt st1 r0)) eqn:Hl1; cbn [negb].
    - rewrite (Hseen eq_refl). destruct Hrun as (o & Ho & sp2 & st2 & Hs2 & Hc & ->). fold r0 in Hs2. exists sp2, st2. rewrite Ho.
      split; [done|]. split; [done|]. simpl. exists IP_NULL, IP_NULL. split; [by destruct (dt =? _)|done].
    - destruct Hrun as (sp2 & st2 & Hs2 & Hc & ->). exists sp2, st2. by split. }
  assert (∀ m, m ∈ send_types → m ≠ MACH_MSG_TYPE_MOVE_SEND_ONCE → makes m = false →
    m = MACH_MSG_TYPE_COPY_SEND ∨ m = MACH_MSG_TYPE_MOVE_SEND) as Htwo.
  { intros m Hm Hmo Hmm. unfold send_types in Hm. repeat rewrite elem_of_cons in Hm.
    destruct Hm as [-> |[-> |[-> |[-> |[-> |[]%elem_of_nil]]]]]; auto; done. }
  apply orb_false_iff in Hmk as [Hm1 Hm2].
  pose proof (same_move sp1 st1 caps tr name ep e dt rt Hst2 Hd He Hroom1) as Hmove.
  pose proof (same_copy sp1 st1 caps tr name ep e dt rt Hst2 Hd He Hroom1 Hdt) as Hcopy.
  pose proof (same_both sp1 st1 caps tr name ep e dt rt Hst2 Hd He Hroom1) as Hboth.
  fold r0 in Hmove, Hcopy, Hboth.
  assert (both_remain dt rt r0 = match dt =? MACH_MSG_TYPE_COPY_SEND, rt =? MACH_MSG_TYPE_COPY_SEND with
    | true, true => Some r0 | false, false => less_two r0 | _, _ => less_one r0 end) as Hbr.
  { unfold both_remain, remains, less_two. destruct (Htwo dt Hdt Hdo Hm1) as [-> | ->], (Htwo rt Hrt Hro Hm2) as [-> | ->];
      try done. simpl. by destruct (less_one r0). }
  destruct (Htwo dt Hdt Hdo Hm1) as [-> | ->], (Htwo rt Hrt Hro Hm2) as [-> | ->];
    constant_eqb; cbn [andb]; cbv iota in Hbr.
  - specialize (Hcopy eq_refl eq_refl). destruct (legal _ false _); cbn [negb]; [rewrite (Hseen eq_refl), ?Hbr|];
      destruct Hcopy as (sp2 & st2 & Hs2 & Hc & ->); exists sp2, st2; (split; [done|]; split; [done|]); [|done].
    simpl. by exists IP_NULL, IP_NULL.
  - specialize (Hboth Hdt Hrt Hl Hdo Hro ltac:(by left)). destruct (legal _ false _); cbn [negb]; [rewrite (Hseen eq_refl), ?Hbr|];
      destruct Hboth as (sp2 & st2 & Hs2 & Hc & ->); exists sp2, st2; (split; [done|]; split; [done|]); [|done].
    simpl. by eexists _, _.
  - specialize (Hboth Hdt Hrt Hl Hdo Hro ltac:(by right)). destruct (legal _ false _); cbn [negb]; [rewrite (Hseen eq_refl), ?Hbr|];
      destruct Hboth as (sp2 & st2 & Hs2 & Hc & ->); exists sp2, st2; (split; [done|]; split; [done|]); [|done].
    simpl. by eexists _, _.
  - specialize (Hmove eq_refl eq_refl). destruct (has_send (r_type r0) && (2 <=? r_urefs r0)); cbn [negb].
    2: { destruct Hmove as (sp2 & st2 & Hs2 & Hc & ->). exists sp2, st2. unfold set_right in Hs2. rewrite insert_delete_id in Hs2 by done. by split. }
    destruct (legal _ false _); cbn [negb]; [rewrite (Hseen eq_refl), ?Hbr|];
      destruct Hmove as (sp2 & st2 & Hs2 & Hc & ->); exists sp2, st2; (split; [done|]; split; [done|]); [|done].
    simpl. by eexists _, _.
Qed.

(** ** The header *)

Lemma any_send x : MACH_MSG_TYPE_PORT_ANY_SEND x = true → x ∈ send_types.
Proof.
  unfold MACH_MSG_TYPE_PORT_ANY_SEND, MACH_MSG_TYPE_MOVE_SEND, MACH_MSG_TYPE_MAKE_SEND_ONCE.
  intros [H1%Z.leb_le H2%Z.leb_le]%andb_true_iff.
  assert (x = 17 ∨ x = 18 ∨ x = 19 ∨ x = 20 ∨ x = 21) as Hx by lia.
  unfold send_types. rewrite !elem_of_cons. destruct Hx as [-> |[-> |[-> |[-> | ->]]]]; tauto.
Qed.

Lemma sent_type_spec x : x = 0 ∨ x ∈ send_types → ipc_object_copyin_type x = Ok (sent_type x).
Proof.
  intros [->|Hx]; [done|]. unfold send_types in Hx. repeat rewrite elem_of_cons in Hx.
  by destruct Hx as [-> |[-> |[-> |[-> |[-> |[]%elem_of_nil]]]]].
Qed.

Lemma plan_spec sp st caps tr bits dest reply :
  let dt := MACH_MSGH_BITS_REMOTE bits in
  let rt := MACH_MSGH_BITS_LOCAL bits in
  standing sp st caps tr → findable sp dest → findable sp reply → room 3 st → header_legal bits reply = true →
  (∀ r, dest ≠ reply → caps !! reply = Some r → remains rt (seen rt st r) = None → MACH_PORT_INDEX dest ≠ MACH_PORT_INDEX reply) →
  dt ∈ send_types ∧ (rt = 0 ∨ rt ∈ send_types) ∧
  planned (port_of caps dest ∪ port_of caps reply) st tr (header_plan caps st bits dest reply)
    (if dest =? reply then header_same sp st dest dt rt
     else if negb (MACH_PORT_VALID reply) then header_no_reply sp st dest dt reply
     else header_two sp st dest dt reply rt).
Proof.
  intros dt rt Hst Hf1 Hf2 Hr Hl Hidx. unfold header_legal in Hl. fold dt rt in Hl.
  apply andb_true_iff in Hl as [Hdt%any_send Hrt].
  assert (rt ∈ send_types ∨ rt = 0 ∧ reply = MACH_PORT_NULL) as Hrt'.
  { destruct (Z.eqb_spec rt 0); [right; split; [done|by apply Z.eqb_eq]|left; by apply any_send]. }
  split; [done|]. split; [tauto|]. unfold header_plan. fold dt rt. destruct (Z.eqb_spec dest reply) as [<-|Hne].
  - eapply planned_more; [apply same_spec; done|apply union_subseteq_l].
  - destruct (MACH_PORT_VALID reply) eqn:Hv; cbn [negb].
    + apply two_spec; try done; [|by eauto]. destruct Hrt' as [|[_ ->]]; [done|by unfold MACH_PORT_VALID in Hv].
    + eapply planned_more; [apply one_spec; try done|apply union_subseteq_l].
      intros p port Hp. destruct (Hr p port Hp) as (? & ? & ? & ?). split_and!; done || lia.
Qed.

(** The port that is told. *)
Definition notify_object (caps : rights_t) (notify : Z) : Z :=
  if notify =? MACH_PORT_NULL then IP_NULL else default IP_NULL (r_object <$> caps !! notify).

Lemma notify_spec sp caps notify :
  spaced ∅ sp caps → (notify ≠ MACH_PORT_NULL → findable sp notify) →
  ∃ sp', header_notify sp notify = Ok (sp', if notify_legal caps notify then Some (notify_object caps notify) else None) ∧
    spaced ∅ sp' caps ∧ resplayed sp sp' ∧ ∀ n, findable sp n → findable sp' n.
Proof.
  intros Hs Hf. unfold header_notify, notify_legal, notify_object. destruct (Z.eqb_spec notify MACH_PORT_NULL) as [->|Hn].
  - exists sp. split_and!; [done..|by eapply resplayed_refl, Hs|done].
  - destruct (lookup_also sp caps notify Hs (Hf Hn)) as (sp' & [ep|] & -> & Hs' & Hre & Hx); ostep; cbn [orb].
    + destruct Hx as (e & [_ _ He] & ->). exists sp'. unfold eread. rewrite He. ostep. split; [|split; [done|split; [done|]]].
      * simpl r_type. by rewrite has_type.
      * intros n. by apply resplayed_findable.
    + rewrite Hx. exists sp'. split; [done|]. split; [done|]. split; [done|]. intros n. by apply resplayed_findable.
Qed.

Lemma header_finish_spec sp st caps tr r bits dest reply notify np :
  let dt := MACH_MSGH_BITS_REMOTE bits in
  let rt := MACH_MSGH_BITS_LOCAL bits in
  standing sp st caps tr → dt ∈ send_types → (rt = 0 ∨ rt ∈ send_types) →
  (notify ≠ MACH_PORT_NULL → hr_dest_soright r ≠ np) →
  ∃ sp', header_finish sp st r bits dest dt reply rt notify np =
      Ok (sp', out st (gone_note (hr_dest_soright r) dest ++ gone_note (hr_reply_soright r) reply) [] 0,
          MSGH (Z.lor (MACH_MSGH_BITS_OTHER bits) (MACH_MSGH_BITS (sent_type dt) (sent_type rt))) (hr_dest_port r) (hr_reply_port r)) ∧
    released sp' caps.
Proof.
  intros dt rt [Hs _ _] Hdt Hrt Hnp. unfold header_finish.
  assert (negb (notify =? MACH_PORT_NULL) && (hr_dest_soright r =? np) = false) as ->.
  { apply andb_false_iff. destruct (Z.eqb_spec notify MACH_PORT_NULL); [by left|right]. apply Z.eqb_neq. auto. }
  ostep. destruct (spaced_unlock _ _ Hs) as (sp' & -> & Hr). ostep.
  rewrite (sent_type_spec dt), (sent_type_spec rt) by auto. ostep. rewrite !notify_gone.
  exists sp'. split; [|done]. do 3 f_equal. by rewrite out_out.
Qed.

(** [MACH_SEND_CANCEL]: the send-once right of the dead-name request that
    went with the destination is for the port to be told, and is released. *)
Definition cancelled (caps : rights_t) (notify a : Z) : bool :=
  negb (notify =? MACH_PORT_NULL) && (a =? notify_object caps notify).

Lemma header_finish_cancelled sp st caps tr r bits dest reply notify np port :
  let dt := MACH_MSGH_BITS_REMOTE bits in
  let rt := MACH_MSGH_BITS_LOCAL bits in
  let a := hr_dest_soright r in
  standing sp st caps ((MACH_PORT_TYPE_SEND_ONCE, a) :: tr) → dt ∈ send_types → (rt = 0 ∨ rt ∈ send_types) →
  notify ≠ MACH_PORT_NULL → a = np → ps_ports st !! a = Some port → ip_active port = true → IP_VALID a = true →
  ∃ sp' st1, ipc_port_release_sonce st a = Ok st1 ∧ released sp' caps ∧ rights_ok caps tr st1 ∧ unlocked_ports st1 ∧
    header_finish sp st r bits dest dt reply rt notify np =
      Ok (sp', out st1 (gone_note (hr_reply_soright r) reply) [] 0,
          MSGH (Z.lor (MACH_MSGH_BITS_OTHER bits) (MACH_MSGH_BITS (sent_type dt) (sent_type rt))) (hr_dest_port r) (hr_reply_port r)).
Proof.
  intros dt rt a [Hs Hok Hul] Hdt Hrt Hn Hnp Hp Ha Hv. unfold header_finish.
  rewrite (proj2 (Z.eqb_neq _ _) Hn), <-Hnp. fold a. rewrite Z.eqb_refl. ostep.
  destruct (IpcNotify.dropped st a port caps tr Hok Hul Hp Hv) as (st1 & Hrun & Hul1 & Hok1 & _).
  { destruct (ra_port _ _ _ Hok a port Hp) as [_ _ _ Ho]. specialize (Ho Ha). cbn [carried] in Ho. unfold covers in Ho.
    rewrite Z.eqb_refl in Ho. simpl in Ho. pose proof (tally_nonneg has_once caps a). pose proof (carried_nonneg has_once tr a). lia. }
  rewrite Hrun. ostep. destruct (spaced_unlock _ _ Hs) as (sp' & -> & Hr). ostep.
  rewrite (sent_type_spec dt), (sent_type_spec rt) by auto. ostep. rewrite !notify_gone.
  exists sp', st1. split_and!; [done..|]. by do 3 f_equal.
Qed.

(** What is left to do when the header is legal. *)
Definition header_done (sp : istate) (st : pstate) (caps : rights_t) (tr : transit_t) (msg : mach_msg_header) (notify : Z) (pl : plan)
    (sp' : istate) (st' : pstate) (res : mach_msg_return * mach_msg_header) : Prop :=
  let bits := Z.land (msgh_bits msg) (Z.lnot MACH_MSGH_BITS_CIRCULAR) in
  let dest := msgh_remote_port msg in
  let reply := msgh_local_port msg in
  let ps := port_of caps dest ∪ port_of caps reply in
  settled sp' st' (pl_caps pl) (pl_carried pl ++ tr) ∧
  if bool_decide (pl_return pl = MACH_MSG_SUCCESS) then
    res = (MACH_MSG_SUCCESS, MSGH (Z.lor (MACH_MSGH_BITS_OTHER bits)
      (MACH_MSGH_BITS (sent_type (MACH_MSGH_BITS_REMOTE bits)) (sent_type (MACH_MSGH_BITS_LOCAL bits)))) (pl_dest pl) (pl_reply pl)) ∧
    ∃ a b, pl_sorights pl a b ∧
      if cancelled caps notify a
      then ∃ st1 st2, changed ps st st1 [] ∧ ipc_port_release_sonce st1 a = Ok st2 ∧ st' = out st2 (gone_note b reply) [] 0
      else changed ps st st' (gone_note a dest ++ gone_note b reply)
  else res = (pl_return pl, msg) ∧ changed ps st st' [].


(** Two names of the same index, and no third: the reply name is in the
    table and has its last right taken, the destination keeps one. *)
Record same_index (sp : istate) (st : pstate) (caps : rights_t) (dest dt reply rt : Z) (rd rr : right) : Prop := {
  si_ne : dest ≠ reply;
  si_index : MACH_PORT_INDEX dest = MACH_PORT_INDEX reply;
  si_only n : is_Some (caps !! n) → MACH_PORT_INDEX n = MACH_PORT_INDEX reply → n = dest ∨ n = reply;
  si_table : denotes ∅ sp reply (EP_table (MACH_PORT_INDEX reply));
  si_dest : caps !! dest = Some rd;
  si_legal : legal dt false (seen dt st rd) = true;
  si_kept : is_Some (remains dt (seen dt st rd));
  si_reply : caps !! reply = Some rr;
  si_reply_legal : legal rt true (seen rt st rr) = true;
  si_lost : remains rt (seen rt st rr) = None;
}.

Lemma same_index_dangles sp st caps tr dest dt reply rt rd rr :
  standing sp st caps tr → findable sp dest → findable sp reply → room 3 st →
  dt ∈ send_types → rt ∈ send_types → same_index sp st caps dest dt reply rt rd rr →
  header_two sp st dest dt reply rt = Fault FDeref.
Proof.
  intros Hst Hf1 Hf2 Hroom Hdt Hrt [Hne Hidx Honly Htab Hcd Hld Hkept Hcr Hlr Hlost]. unfold header_two. pose proof Hst as [Hs Hok Hu].
  destruct (lookup_also sp caps dest Hs Hf1) as (sp1 & [dep|] & -> & Hs1 & Hre1 & Hx1); ostep; [|congruence].
  destruct Hx1 as (e1 & Hat1 & Hn1). assert (rd = entry_right e1) as -> by congruence.
  destruct (lookup_also sp1 caps reply Hs1 (resplayed_findable _ _ _ Hre1 Hf2)) as (sp2 & [rep|] & -> & Hs2 & Hre2 & Hx2); ostep; [|congruence].
  destruct Hx2 as (e2 & [_ Hd2 He2] & Hn2). assert (rr = entry_right e2) as -> by congruence.
  destruct (resplayed_at _ _ _ _ _ _ Hre2 Hat1) as [_ Hd1 He1].
  assert (rep = EP_table (MACH_PORT_INDEX reply)) as Hrep.
  { eapply (denotes_unique ∅ sp2 reply); [apply Hs2|done|]. apply (resplayed_denotes _ _ _ _ _ Hre2).
    by apply (resplayed_denotes _ _ _ _ _ Hre1). }
  assert (dep ≠ rep) as Hep.
  { intros ->. by apply Hne, (denotes_name ∅ sp2 _ _ rep); [apply Hs2|..]. }
  rewrite bool_decide_true by done. ostep.
  assert ((rt =? 0) = false) as -> by (apply Z.eqb_neq; by intros ->). ostep.
  assert (standing sp2 st caps tr) as Hst2 by done.
  destruct (right_check_legal sp2 st caps tr reply rep e2 rt Hst2 Hd2 He2 Hrt) as (st1 & -> & Hw). ostep. rewrite Hlr. cbn [negb].
  apply (two_dangles sp2 st1 caps tr dest dep e1 reply rep e2 dt rt) with (i := MACH_PORT_INDEX reply); try done.
  - by eapply standing_waited.
  - by apply (room_ports _ _ _ Hroom (wt_ports _ _ _ Hw)).
  - by rewrite (seen_ports st st1) by apply Hw.
  - by rewrite (seen_ports st st1) by apply Hw.
  - by rewrite (seen_ports st st1) by apply Hw.
  - by rewrite (seen_ports st st1) by apply Hw.
Qed.

(** C37. ipc_kmsg_copyin_header reads freed memory for every legal header
    whose destination and reply names have the same index, no third name
    having it, when the reply name is in the table and the message takes
    its last right while the destination keeps one: ipc_entry_dealloc of
    the reply entry moves the entry of the destination from the splay tree
    into the table and frees it, and then the bits of that entry are read. *)
Theorem header_entry_dangles sp st caps tr msg notify rd rr :
  let bits := Z.land (msgh_bits msg) (Z.lnot MACH_MSGH_BITS_CIRCULAR) in
  let dest := msgh_remote_port msg in
  let reply := msgh_local_port msg in
  settled sp st caps tr → room 3 st → findable sp dest → findable sp reply → (notify ≠ MACH_PORT_NULL → findable sp notify) →
  header_legal bits reply = true → notify_legal caps notify = true → MACH_PORT_VALID reply = true →
  same_index sp st caps dest (MACH_MSGH_BITS_REMOTE bits) reply (MACH_MSGH_BITS_LOCAL bits) rd rr →
  ipc_kmsg_copyin_header sp st msg notify = Fault FDeref.
Proof.
  intros bits dest reply [Hrel Hok Hu] Hroom Hf1 Hf2 Hfn Hl Hnl Hv Hsi. unfold ipc_kmsg_copyin_header. fold bits dest reply.
  set (rt := MACH_MSGH_BITS_LOCAL bits) in *. set (dt := MACH_MSGH_BITS_REMOTE bits) in *.
  unfold header_legal in Hl. fold rt dt in Hl. apply andb_true_iff in Hl as [Hdt Hrt]. rewrite Hdt. cbn [negb].
  assert (MACH_MSG_TYPE_PORT_ANY_SEND rt = true ∧ (rt =? 0) = false) as [Hrt' Hrz].
  { destruct (Z.eqb_spec rt 0) as [Hz|]; [|done]. apply Z.eqb_eq in Hrt. by rewrite Hrt in Hv. }
  rewrite Hrz, Hrt'. cbn [negb]. destruct (lock_spaced sp caps Hrel) as (sp1 & Hlock & Hs1 & Hfast & Hsz).
  rewrite Hlock. ostep. rewrite (sd_active _ _ _ Hs1). cbn [negb].
  assert (∀ n, findable sp n → findable sp1 n) as Hf by (intros n [? ?]; split; [done|by rewrite Hfast, Hsz]).
  assert (denotes ∅ sp1 reply (EP_table (MACH_PORT_INDEX reply))) as Htab.
  { pose proof (si_table _ _ _ _ _ _ _ _ _ Hsi) as Htab. unfold is_write_lock in Hlock.
    rewrite (rl_locked _ _ Hrel), undisturbed_id in Hlock. by injection Hlock as <-. }
  destruct (notify_spec sp1 caps notify Hs1 ltac:(auto)) as (sp2 & -> & Hs2 & Hre & Hff). rewrite Hnl. ostep.
  rewrite (proj2 (Z.eqb_neq _ _) (si_ne _ _ _ _ _ _ _ _ _ Hsi)), Hv. cbn [negb].
  rewrite (same_index_dangles sp2 st caps tr dest dt reply rt rd rr); [done|by split|auto..| | |].
  - by apply any_send.
  - by apply any_send.
  - destruct Hsi. split; try done. by apply (resplayed_denotes _ _ _ _ _ Hre).
Qed.
End kmsg_inv.
