(* ===== verification/IpcKmsgClean.v ===== *)
(** * Destroying the rights of a message

    [ipc_kmsg_clean] gives up what a message holds: every send right is
    released, every send-once right goes into a notification, and every
    buffer is given back. *)

From stdpp Require Import prelude list gmap.
From S2P Require Import Prelude MachPort IpcSplay IpcTypes IpcHash IpcTable IpcEntry IpcInv IpcUpdate.
From S2P Require Import IpcPort IpcDnreq IpcPortRights IpcPset IpcDestroy IpcRight IpcRightEq IpcRightInv IpcRightDealloc.
From S2P Require Import IpcRightCopy IpcObject IpcMqueue IpcObjectInv IpcKmsg IpcKmsgInv.

(** ** What a message holds *)

Definition disposition_type (disposition : Z) : Z :=
  if disposition =? MACH_MSG_TYPE_PORT_SEND then MACH_PORT_TYPE_SEND else MACH_PORT_TYPE_SEND_ONCE.

(** A valid object is a right to send. *)
Definition sendable (object disposition : Z) : Prop :=
  IO_VALID object = true → disposition = MACH_MSG_TYPE_PORT_SEND ∨ disposition = MACH_MSG_TYPE_PORT_SEND_ONCE.

Definition right_of (object disposition : Z) : transit_t :=
  if IO_VALID object then [(disposition_type disposition, object)] else [].

Definition right_events (object disposition : Z) : list notification :=
  if IO_VALID object && negb (disposition =? MACH_MSG_TYPE_PORT_SEND) then [ipc_notify_send_once object] else [].

Definition descriptor_rights (d : mach_msg_descriptor) : transit_t :=
  match d with
  | MACH_MSG_PORT_DESCRIPTOR name disposition => right_of name disposition
  | MACH_MSG_OOL_DESCRIPTOR _ _ _ => []
  | MACH_MSG_OOL_PORTS_DESCRIPTOR _ objects disposition => objects ≫= λ object, right_of object disposition
  end.

(** Buffers below [small] are in kernel memory. *)
Definition descriptor_events (small : Z) (d : mach_msg_descriptor) : list notification :=
  match d with
  | MACH_MSG_PORT_DESCRIPTOR name disposition => right_events name disposition
  | MACH_MSG_OOL_DESCRIPTOR address size physical =>
    if size =? 0 then [] else if physical && (size <? small) then [kfree address size] else [vm_map_copy_discard address]
  | MACH_MSG_OOL_PORTS_DESCRIPTOR address objects disposition =>
    (objects ≫= λ object, right_events object disposition) ++
    (if decide (objects = []) then [] else [kfree address (u32 (Z.of_nat (length objects) * 4))])
  end.

Definition descriptor_wf (d : mach_msg_descriptor) : Prop :=
  match d with
  | MACH_MSG_PORT_DESCRIPTOR name disposition => sendable name disposition
  | MACH_MSG_OOL_DESCRIPTOR address size _ => size = 0 → address = 0
  | MACH_MSG_OOL_PORTS_DESCRIPTOR address objects disposition =>
    (objects ≠ [] → address ≠ 0) ∧ ∀ object, object ∈ objects → sendable object disposition
  end.

Definition body (m : message) : list mach_msg_descriptor :=
  if has (msgh_bits (msg_header m)) MACH_MSGH_BITS_COMPLEX then msg_descriptors m else [].

Definition header_carried (h : mach_msg_header) : transit_t :=
  right_of (msgh_remote_port h) (MACH_MSGH_BITS_REMOTE (msgh_bits h)) ++
  right_of (msgh_local_port h) (MACH_MSGH_BITS_LOCAL (msgh_bits h)).

Definition header_events (h : mach_msg_header) : list notification :=
  right_events (msgh_remote_port h) (MACH_MSGH_BITS_REMOTE (msgh_bits h)) ++
  right_events (msgh_local_port h) (MACH_MSGH_BITS_LOCAL (msgh_bits h)).

Definition message_rights (m : message) : transit_t := header_carried (msg_header m) ++ (body m ≫= descriptor_rights).
Definition message_events (small : Z) (m : message) : list notification :=
  header_events (msg_header m) ++ (body m ≫= descriptor_events small).

Record message_wf (m : message) : Prop := {
  mw_remote : sendable (msgh_remote_port (msg_header m)) (MACH_MSGH_BITS_REMOTE (msgh_bits (msg_header m)));
  mw_local : sendable (msgh_local_port (msg_header m)) (MACH_MSGH_BITS_LOCAL (msgh_bits (msg_header m)));
  mw_body d : d ∈ body m → descriptor_wf d;
}.

(** The send-once rights, which their notifications carry on. *)
Definition onces (l : transit_t) : transit_t := filter (λ c, has_once c.1 = true) l.

Definition no_senders (n : notification) : bool :=
  match n with
  | ipc_notify_no_senders _ _ => true
  | _ => false
  end.

(** The ports have lost the send rights of [l], each with a reference; a
    dead port without references is gone.  Apart from no-senders
    notifications, [ns] has been sent. *)
Record shed (l : transit_t) (st st' : pstate) (ns : list notification) : Prop := {
  sh_ports p :
    let n := carried has_send l p in
    match ps_ports st !! p, ps_ports st' !! p with
    | Some port, Some port' => same_port port port' ∧ ip_references port' = ip_references port - n ∧
        (ip_active port = true → ip_srights port' = ip_srights port - n) ∧ ip_sorights port' = ip_sorights port
    | Some port, None => ip_active port = false ∧ ip_references port = n
    | None, o => o = None ∧ n = 0
    end;
  sh_psets : ps_psets st' = ps_psets st;
  sh_woken : ps_woken st' = ps_woken st;
  sh_notes : ∃ ns', ps_notes st' = reverse ns' ++ ps_notes st ∧ filter (λ n, no_senders n = false) ns' = ns;
}.

Lemma carried_app f l1 l2 p : carried f (l1 ++ l2) p = carried f l1 p + carried f l2 p.
Proof. induction l1 as [|[t o] l1 IH]; simpl; lia. Qed.

Section clean.
Context {IW : iworld}.
Context `{PW : pworld, !quiet}.

Lemma shed_trans l1 l2 st1 st2 st3 ns1 ns2 : shed l1 st1 st2 ns1 → shed l2 st2 st3 ns2 → shed (l1 ++ l2) st1 st3 (ns1 ++ ns2).
Proof.
  intros [P1 S1 W1 (m1 & N1 & F1)] [P2 S2 W2 (m2 & N2 & F2)]. split; [|congruence..|].
  - intros p. specialize (P1 p). specialize (P2 p). rewrite carried_app. simpl in *.
    destruct (ps_ports st1 !! p) as [port1|], (ps_ports st2 !! p) as [port2|], (ps_ports st3 !! p) as [port3|];
      try (by destruct P1); try (by destruct P2); simpl in *.
    + destruct P1 as (H1 & H2 & H3 & H4), P2 as (G1 & G2 & G3 & G4). split; [by etrans|].
      pose proof (sp_active _ _ H1). split; [lia|]. split; [|congruence]. intros Ha. rewrite G3, H3 by congruence. lia.
    + destruct P1 as (H1 & H2 & H3 & H4), P2 as (G1 & G2). split; [by rewrite <-(sp_active _ _ H1)|lia].
    + destruct P1, P2. split; [done|lia].
    + destruct P1, P2. split; [done|lia].
  - exists (m1 ++ m2). rewrite N2, N1, reverse_app, app_assoc, filter_app, F1, F2. done.
Qed.

(** Ports and port sets are in zones of their own. *)
Definition zoned (st : pstate) : Prop := ∀ p, is_Some (ps_ports st !! p) → ps_psets st !! p = None.

Lemma shed_zoned l st st' ns : shed l st st' ns → zoned st → zoned st'.
Proof.
  intros [P S _ _] Hz p [port Hp]. rewrite S. apply Hz. specialize (P p). rewrite Hp in P.
  destruct (ps_ports st !! p); [done|]. by destruct P.
Qed.

(** [run] gives up the rights [l]. *)
Definition cleans (l : transit_t) (ns : list notification) (run : pstate → outcome pstate) : Prop :=
  ∀ st caps tr, rights_ok caps (l ++ tr) st → unlocked_ports st → zoned st →
    ∃ st', run st = Ok st' ∧ rights_ok caps (onces l ++ tr) st' ∧ unlocked_ports st' ∧ shed l st st' ns.

Lemma cleans_none : cleans [] [] (λ st, Ok st).
Proof.
  intros st caps tr Hok Hu Hz. exists st. split_and!; [done..|]. split; [|done..|by exists []].
  intros p. simpl. destruct (ps_ports st !! p); [|done]. split_and!; [done|lia|lia|done].
Qed.

Lemma cleans_bind l1 l2 ns1 ns2 f g :
  cleans l1 ns1 f → cleans l2 ns2 g → cleans (l1 ++ l2) (ns1 ++ ns2) (λ st, st ← f st; g st).
Proof.
  intros Hf Hg st caps tr Hok Hu Hz. rewrite <-app_assoc in Hok.
  destruct (Hf st caps _ Hok Hu Hz) as (st1 & -> & Hok1 & Hu1 & Hs1). ostep.
  destruct (Hg st1 caps (onces l1 ++ tr)) as (st2 & -> & Hok2 & Hu2 & Hs2); [|done|by eapply shed_zoned|].
  { eapply rights_perm; [|exact Hok1]. rewrite !(assoc_L (++)). f_equiv. apply Permutation_app_comm. }
  exists st2. split_and!; [done| |done|by eapply shed_trans].
  eapply rights_perm; [|exact Hok2]. unfold onces. rewrite filter_app, !(assoc_L (++)). f_equiv. apply Permutation_app_comm.
Qed.

Lemma cleans_fold {A} (f : pstate → A → outcome pstate) (rights : A → transit_t) (events : A → list notification) l :
  (∀ x, x ∈ l → cleans (rights x) (events x) (λ st, f st x)) →
  cleans (l ≫= rights) (l ≫= events) (λ st, ofold f st l).
Proof.
  induction l as [|x l IH]; intros Hx; [apply cleans_none|]. rewrite !bind_cons. simpl.
  apply cleans_bind; [apply Hx; by left|]. apply IH. intros y Hy. apply Hx. by right.
Qed.

Lemma cleans_notify n : no_senders n = false → cleans [] [n] (λ st, Ok (notify st n)).
Proof.
  intros Hn st caps tr Hok Hu Hz. exists (notify st n). split; [done|]. split; [by eapply rights_ext; [exact Hok|..]|]. split; [done|].
  split; [|done..|].
  - intros p. simpl. destruct (ps_ports st !! p); [|done]. split_and!; [done|lia|lia|done].
  - exists [n]. split; [done|]. by rewrite filter_cons_True.
Qed.

Lemma cleans_then l ns f n :
  cleans l ns f → no_senders n = false → cleans l (ns ++ [n]) (λ st, st ← f st; Ok (notify st n)).
Proof.
  intros Hf Hn. rewrite <-(app_nil_r l). apply cleans_bind; [done|by apply cleans_notify].
Qed.

(** One send right. *)
Lemma shed_one p port st st' ns :
  ps_ports st !! p = Some port → touched p st st' ns →
  match ps_ports st' !! p with
  | Some port' => ip_references port' = ip_references port - 1 ∧
      (ip_active port = true → ip_srights port' = ip_srights port - 1) ∧ ip_sorights port' = ip_sorights port
  | None => ip_active port = false ∧ ip_references port = 1
  end → shed [(MACH_PORT_TYPE_SEND, p)] st st' (filter (λ n, no_senders n = false) ns).
Proof.
  intros Hp [Hne Hsame Hps Hw Hn] Hpost. split; [|done..|by exists ns].
  intros q. cbn [carried]. unfold covers. simpl. destruct (Z.eqb_spec p q) as [<-|Hq]; simpl.
  - rewrite Hp. destruct (ps_ports st' !! p) as [port'|]; [|destruct Hpost; split; [done|lia]].
    destruct (Hsame port' eq_refl) as (port0 & Hp0 & Hs). assert (port0 = port) as -> by congruence.
    destruct Hpost as (H1 & H2 & H3). split_and!; [done|lia|intros; rewrite H2 by done; lia|done].
  - rewrite Hne by congruence. destruct (ps_ports st !! q); [|done]. split_and!; [done|lia|lia|done].
Qed.

Lemma notify_touched p st st' n ns : touched p st st' ns → touched p st (notify st' n) (ns ++ [n]).
Proof. intros [H1 H2 H3 H4 H5]. split; [done..|]. simpl. by rewrite H5, reverse_app. Qed.

(** A send right is released. *)
Lemma cleans_send p :
  IO_VALID p = true → cleans [(MACH_PORT_TYPE_SEND, p)] [] (λ st, ipc_port_release_send st p).
Proof.
  intros Hv st caps tr Hok Hu Hz.
  destruct (ra_transit _ _ _ Hok MACH_PORT_TYPE_SEND p) as [Hnz [port Hp]]; [by left|done|].
  pose proof (Hu p port Hp) as Hl. destruct (ra_port _ _ _ Hok _ _ Hp) as [Hdn Hrefs Hs Ho].
  cbn [carried app] in *. unfold covers in *. rewrite Z.eqb_refl in *. simpl in Hrefs, Hs, Ho.
  pose proof (tally_nonneg has_port caps p). pose proof (carried_nonneg has_port tr p).
  pose proof (tally_nonneg has_send caps p). pose proof (carried_nonneg has_send tr p).
  rewrite (release_send_eq st p port) by done. change (IP_VALID p) with (IO_VALID p). rewrite Hv.
  rewrite (proj2 (Z.ltb_lt _ _)), (proj2 (Z.leb_le _ _)) by lia. simpl andb. cbv zeta match.
  destruct (ip_active port) eqn:Ha.
  - specialize (Hs eq_refl). specialize (Ho eq_refl). rewrite (proj2 (Z.ltb_lt 0 (ip_srights port))) by lia. cbv match.
    assert (∀ nsr, rights_ok caps tr (put (ptick st) p (set_ip_nsrequest (set_ip_srights (referenced port (-1)) (ip_srights port - 1)) nsr)))
      as Hok'.
    { intros nsr. apply (rights_recount caps tr [MACH_PORT_TYPE_SEND] [] st _ p port
        (set_ip_nsrequest (set_ip_srights (referenced port (-1)) (ip_srights port - 1)) nsr)); try done.
      split; simpl; [lia..|intros; lia|intros; lia]. }
    destruct (_ && _).
    + eexists. split; [done|]. split; [by eapply rights_ext; [apply (Hok' IP_NULL)|..]|]. split.
      * eapply (unlocked_ports_put st (ptick st)); [done|apply tick_touched, touched_refl|done].
      * apply (shed_one p port st _ [ipc_notify_no_senders (ip_nsrequest port) (ip_mscount port)]); [done| |].
        { apply (notify_touched p st _ _ []). touch. }
        { simpl. rewrite lookup_insert_eq. split_and!; [simpl; lia|done|done]. }
    + eexists. split; [done|]. split; [|split].
      * replace (set_ip_srights (referenced port (-1)) (ip_srights port - 1)) with
          (set_ip_nsrequest (set_ip_srights (referenced port (-1)) (ip_srights port - 1)) (ip_nsrequest port)) by done.
        apply Hok'.
      * eapply (unlocked_ports_put st (ptick st)); [done|apply tick_touched, touched_refl|done].
      * apply (shed_one p port st _ []); [done|touch|]. simpl. rewrite lookup_insert_eq. split_and!; [simpl; lia|done|done].
  - eexists. split; [done|]. split; [|split].
    + apply (rights_release caps tr st (ptick st) MACH_PORT_TYPE_SEND p port); done.
    + eapply (unlocked_ports_unlocked st (ptick st)); [done|apply tick_touched, touched_refl|done].
    + apply (shed_one p port st _ []); [done|touch|]. unfold unlocked.
      destruct (Z.eqb_spec (ip_references (referenced port (-1))) 0) as [Hzero|]; simpl in *.
      * rewrite lookup_delete_eq. split; [done|lia].
      * rewrite lookup_insert_eq. split_and!; [simpl; lia|by rewrite Ha|done].
Qed.

Lemma clean_right_cleans object disposition :
  sendable object disposition →
  cleans (right_of object disposition) (right_events object disposition) (λ st, clean_right st object disposition).
Proof.
  intros Hs. unfold right_of, right_events, clean_right. destruct (IO_VALID object) eqn:Hv; [|apply cleans_none].
  assert (∀ st, is_Some (ps_ports st !! object) → zoned st → (io_otype st object =? IOT_PORT) = true) as Ht.
  { intros st Hp Hz. unfold io_otype. by rewrite Hz. }
  intros st caps tr Hok Hu Hz.
  assert (has_port (disposition_type disposition) = true) as Hh.
  { unfold disposition_type. by case_match. }
  destruct (ra_transit _ _ _ Hok (disposition_type disposition) object) as [_ Hp]; [by left|done|].
  unfold ipc_object_destroy. rewrite Hv, (Ht _ Hp Hz). ostep.
  unfold disposition_type in *. destruct (Hs Hv) as [-> | ->]; simpl.
  - by apply cleans_send.
  - exists (notify st (ipc_notify_send_once object)). split; [done|]. split; [by eapply rights_ext; [exact Hok|..]|].
    split; [done|]. split; [|done..|by exists [ipc_notify_send_once object]].
    intros q. cbn [carried]. unfold covers. simpl. destruct (ps_ports st !! q); [|done]. split_and!; [done|lia|lia|done].
Qed.

Lemma clean_descriptor_cleans small d :
  descriptor_wf d → cleans (descriptor_rights d) (descriptor_events small d) (λ st, clean_descriptor small st d).
Proof.
  destruct d as [name disposition|address size physical|address objects disposition]; simpl.
  - apply clean_right_cleans.
  - intros Hw. destruct (Z.eqb_spec size 0) as [->|].
    + rewrite Hw by done. apply cleans_none.
    + case_match; by apply cleans_notify.
  - intros [Ha Ho].
    assert (cleans (objects ≫= λ object, right_of object disposition) (objects ≫= λ object, right_events object disposition)
      (λ st, ofold (λ st object, clean_right st object disposition) st objects)) as Hc.
    { apply cleans_fold. intros x Hx. by apply clean_right_cleans, Ho. }
    destruct (decide (objects = [])) as [->|Hne]; [apply cleans_none|]. specialize (Ha Hne). apply Z.eqb_neq in Ha.
    pose proof (eq_refl : no_senders (kfree address (u32 (Z.of_nat (length objects) * 4))) = false) as Hn.
    revert Hn. generalize (kfree address (u32 (Z.of_nat (length objects) * 4))). intros n Hn.
    apply (cleans_then _ _ _ _ Hc) in Hn. destruct objects; [done|]. rewrite Ha. exact Hn.
Qed.

Lemma clean_body_cleans small ds :
  (∀ d, d ∈ ds → descriptor_wf d) →
  cleans (ds ≫= descriptor_rights) (ds ≫= descriptor_events small)
    (λ st, ipc_kmsg_clean_body small st ds (length ds)).
Proof.
  intros Hw. unfold ipc_kmsg_clean_body. rewrite take_ge by done. apply cleans_fold.
  intros d Hd. by apply clean_descriptor_cleans, Hw.
Qed.

Lemma clean_spec small m :
  message_wf m → cleans (message_rights m) (message_events small m) (λ st, ipc_kmsg_clean small st m).
Proof.
  intros [Hr Hl Hb]. unfold message_rights, message_events, ipc_kmsg_clean, header_carried, header_events. cbv zeta.
  rewrite <-!app_assoc. apply cleans_bind; [by apply clean_right_cleans|].
  apply cleans_bind; [by apply clean_right_cleans|]. unfold body in *.
  destruct (has _ _); [by apply clean_body_cleans|apply cleans_none].
Qed.

(** C15. ipc_kmsg_clean of a message whose rights are in transit, send and
    send-once rights only (a message that carries receive rights is not
    covered), never fails an assertion and gives up all it holds: each send
    right of the header, of the port descriptors and of the out-of-line
    arrays leaves its port with a reference, so that dead ports go with
    their last one; each send-once right becomes a send-once notification,
    which carries it on; every buffer is given back, to the allocator or to
    the virtual memory system by its size; these events come in the order
    of the message, only no-senders notifications are sent besides, all
    locks are released and the account of rights is in balance. *)
Theorem kmsg_clean_correct small st caps tr m :
  message_wf m → rights_ok caps (message_rights m ++ tr) st → unlocked_ports st → zoned st →
  ∃ st', ipc_kmsg_clean small st m = Ok st' ∧ rights_ok caps (onces (message_rights m) ++ tr) st' ∧ unlocked_ports st' ∧
    shed (message_rights m) st st' (message_events small m).
Proof. intros Hm. by apply clean_spec. Qed.
End clean.
