(* ===== verification/IpcKmsgExamples.v ===== *)
(** * Concrete messages

    Headers copied in, one of them with names of the same index, and a
    message that is destroyed. *)

From stdpp Require Import prelude list gmap relations.
From S2P Require Import Prelude MachPort IpcSplay IpcTypes IpcHash IpcTable IpcEntry IpcInv IpcUpdate IpcSpace IpcPort.
From S2P Require Import IpcDnreq IpcPortRights IpcPset IpcDestroy IpcRight IpcRightEq IpcRightInv IpcRightDealloc IpcRightCopy.
From S2P Require Import IpcObject IpcObjectInv IpcObjectAlloc IpcKmsg MachPortCall MachPortCallInv MachPortSystem.
From S2P Require Import MachPortNames MachPortNamesInv IpcExamples IpcRightExamples IpcRightTwo IpcKmsgInv IpcKmsgClean.

(** A task allocates a dead name, which becomes 0x103, and a receive right
    under the name [name]. *)
Definition two_names (name : Z) : outcome (istate * pstate * (kern_return * kern_return * Z)) :=
  '(sp, st, (kr, reply)) ← mach_port_allocate 0x1000 demo demo_mail MACH_PORT_RIGHT_DEAD_NAME 0;
  '(sp, st, kr') ← mach_port_allocate_name 0x1000 sp st MACH_PORT_RIGHT_RECEIVE name;
  Ok (sp, st, (kr, kr', reply)).

(** It sends a message to that port, with the dead name as the reply port. *)
Definition send_two (name : Z) : outcome (mach_msg_return * mach_msg_header) :=
  '(sp, st, _) ← two_names name;
  '(_, _, res) ← ipc_kmsg_copyin_header sp st
     (MSGH (MACH_MSGH_BITS MACH_MSG_TYPE_MAKE_SEND MACH_MSG_TYPE_MOVE_SEND) name 0x103) MACH_PORT_NULL;
  Ok res.

(** The two calls succeed, whether or not the second name has the index of
    the first. *)
Definition two_results (name : Z) : outcome (kern_return * kern_return * Z) :=
  '(_, _, res) ← two_names name; Ok res.

Example two_names_allocated :
  two_results 0x107 = Ok (KERN_SUCCESS, KERN_SUCCESS, 0x103) ∧
  two_results 0x203 = Ok (KERN_SUCCESS, KERN_SUCCESS, 0x103).
Proof. split; vm_compute; reflexivity. Qed.

(** With the index of the reply name the destination's entry is freed
    before it is read; with another index the same message is copied in. *)
Theorem header_entry_dangling :
  MACH_PORT_INDEX 0x107 = MACH_PORT_INDEX 0x103 ∧ MACH_PORT_INDEX 0x203 ≠ MACH_PORT_INDEX 0x103 ∧
  send_two 0x107 = Fault FDeref ∧
  ∃ port, port ≠ IP_NULL ∧
    send_two 0x203 = Ok (MACH_MSG_SUCCESS,
      MSGH (MACH_MSGH_BITS MACH_MSG_TYPE_PORT_SEND MACH_MSG_TYPE_PORT_SEND) port IP_DEAD).
Proof.
  split_and!; [done|done|vm_compute; reflexivity|].
  eexists. split; [|vm_compute; reflexivity]. done.
Qed.

(** After the two calls, with the names of the same index. *)
Definition clash_run1 := mach_port_allocate 0x1000 demo demo_mail MACH_PORT_RIGHT_DEAD_NAME 0.
Definition clash_sp1 : istate := Eval vm_compute in match clash_run1 with Ok (sp, _, _) => sp | Fault _ => demo end.
Definition clash_st1 : pstate := Eval vm_compute in match clash_run1 with Ok (_, st, _) => st | Fault _ => demo_mail end.
Definition clash_run2 := mach_port_allocate_name 0x1000 clash_sp1 clash_st1 MACH_PORT_RIGHT_RECEIVE 0x107.
Definition clash_sp2 : istate := Eval vm_compute in match clash_run2 with Ok (sp, _, _) => sp | Fault _ => demo end.
Definition clash_st2 : pstate := Eval vm_compute in match clash_run2 with Ok (_, st, _) => st | Fault _ => demo_mail end.
Definition clash_caps (p q : Z) : rights_t :=
  <[0x107 := Right MACH_PORT_TYPE_RECEIVE 0 q 0]> (<[0x103 := Right MACH_PORT_TYPE_DEAD_NAME 1 p 0]> ∅).

Lemma clash_settled : ∃ p q, settled clash_sp2 clash_st2 (clash_caps p q) [demo_letter; demo_letter].
Proof.
  assert (clash_run1 = Ok (clash_sp1, clash_st1, (KERN_SUCCESS, 0x103))) as Hrun1 by (vm_compute; reflexivity).
  pose proof (port_allocate_spec 0x1000 demo demo_mail ∅ _ MACH_PORT_RIGHT_DEAD_NAME 0 ltac:(done) demo_mail_settled) as Hpost.
  change (mach_port_allocate 0x1000 demo demo_mail MACH_PORT_RIGHT_DEAD_NAME 0) with clash_run1 in Hpost. rewrite Hrun1 in Hpost. destruct Hpost as [_ [_ _ _ _ _ (p & Hs & _)]]. exists p.
  assert (mach_port_allocate_name 0x1000 clash_sp1 clash_st1 MACH_PORT_RIGHT_RECEIVE 0x107 =
    Ok (clash_sp2, clash_st2, KERN_SUCCESS)) as Hrun2 by (vm_compute; reflexivity).
  pose proof (allocate_name_spec 0x1000 clash_sp1 clash_st1 _ _ MACH_PORT_RIGHT_RECEIVE 0x107 ltac:(done) Hs
    ltac:(split_and!; [unfold is_u32; lia|done|done]) ltac:(by left)) as Hpost2.
  rewrite Hrun2 in Hpost2. destruct Hpost2 as [_ _ _ _ _ (q & Hs2 & _)]. exists q. exact Hs2.
Qed.

Definition clash_header : mach_msg_header :=
  MSGH (MACH_MSGH_BITS MACH_MSG_TYPE_MAKE_SEND MACH_MSG_TYPE_MOVE_SEND) 0x107 0x103.

Lemma header_entry_dangles_witness :
  ipc_kmsg_copyin_header clash_sp2 clash_st2 clash_header MACH_PORT_NULL = Fault FDeref.
Proof.
  destruct clash_settled as (p & q & Hs).
  apply (header_entry_dangles clash_sp2 clash_st2 (clash_caps p q) [demo_letter; demo_letter] clash_header MACH_PORT_NULL
    (Right MACH_PORT_TYPE_RECEIVE 0 q 0) (Right MACH_PORT_TYPE_DEAD_NAME 1 p 0)).
  - exact Hs.
  - assert (map_Forall (λ p port, IO_VALID p = true ∧ ip_references port + 3 ≤ IO_MAX_REFERENCES ∧
      0 ≤ ip_srights port < 2 ^ 32 - 3 ∧ 0 ≤ ip_sorights port < 2 ^ 32 - 3) (ps_ports clash_st2)) as Hall by decide_compute.
    exact Hall.
  - split; [unfold is_u32; simpl; lia|done].
  - split; [unfold is_u32; simpl; lia|done].
  - done.
  - done.
  - done.
  - done.
  - split; try done.
    + intros n [r Hn] _. unfold clash_caps in Hn. rewrite !lookup_insert_Some, lookup_empty in Hn.
      destruct Hn as [[<- _]|[_ [[<- _]|[_ Hn]]]]; [by left|by right|done].
    + split; [vm_compute; done|]. split; [reflexivity|left; vm_compute; done].
Defined.

(** Both user references of 0x103 go into a header. *)
Definition demo_header : mach_msg_header :=
  MSGH (MACH_MSGH_BITS MACH_MSG_TYPE_MOVE_SEND MACH_MSG_TYPE_MOVE_SEND) 0x103 0x103.


(** A message to 0x5000 that holds a buffer in kernel memory and a list of
    ports that are gone; the last send right goes. *)
Definition demo_message : message :=
  MSG (MSGH (Z.lor MACH_MSGH_BITS_COMPLEX (MACH_MSGH_BITS MACH_MSG_TYPE_PORT_SEND 0)) 0x5000 MACH_PORT_NULL)
    [MACH_MSG_OOL_DESCRIPTOR 0x9000 64 true;
     MACH_MSG_OOL_PORTS_DESCRIPTOR 0xa000 [IP_DEAD; IP_NULL] MACH_MSG_TYPE_PORT_SEND].

Lemma kmsg_clean_witness :
  ∃ st', ipc_kmsg_clean 4096 demo_st2 demo_message = Ok st' ∧ rights_ok ∅ [] st' ∧
    ps_notes st' = [kfree 0xa000 8; kfree 0x9000 64; ipc_notify_no_senders 0x7000 2] ++ ps_notes demo_st2.
Proof.
  destruct demo_twice_settled as [_ Hok Hu].
  destruct (kmsg_clean_correct 4096 demo_st2 ∅ [] demo_message) as (st' & Hrun & Hok' & _ & _).
  - split; [by left|done|].
    change (body demo_message) with (msg_descriptors demo_message). unfold demo_message. simpl.
    intros d [-> | [-> | []%elem_of_nil]%elem_of_cons]%elem_of_cons; [done|]. split; [done|]. intros object _ _. by left.
  - apply (rights_take demo_both [] demo_st2 0x103 (Right MACH_PORT_TYPE_SEND 2 0x5000 0)); [exact Hok|reflexivity].
  - exact Hu.
  - assert (map_Forall (λ p _, ps_psets demo_st2 !! p = None) (ps_ports demo_st2)) as Hall by decide_compute.
    intros p [port Hp]. exact (Hall p port Hp).
  - assert (∃ st1, ipc_kmsg_clean 4096 demo_st2 demo_message = Ok st1 ∧
      ps_notes st1 = [kfree 0xa000 8; kfree 0x9000 64; ipc_notify_no_senders 0x7000 2] ++ ps_notes demo_st2) as (st1 & Hrun1 & Hn)
      by (eexists; vm_compute; split; reflexivity).
    rewrite Hrun1 in Hrun. injection Hrun as ->. by exists st'.
Defined.
